(* ===== verification/_CoqProject ===== *)
-Q . S2P
Prelude.v
Message.v
GroupStore.v
Flow.v
Aggregator.v
Expr.v
Resilience.v
Rounding.v
TokenBucket.v
QueueStore.v
Consumer.v
ConsumerRun.v
Poller.v
Producer.v
Exchange.v
Channels.v
SSE.v
NetHttp.v
HttpConfig.v
SSEServer.v
HttpOutbound.v
HttpInbound.v
SSEClient.v
SqlEngine.v
SqlGroup.v
SqlGroupSafety.v
SqlGroupStore.v
SqlQueue.v
SqlLock.v
SqlQueueSafety.v
SqlInbox.v
SqlSource.v
CronSql.v
CronPool.v
CronSafety.v
CronElector.v
CronSource.v
CronFleet.v
SqliteDsn.v
