(* ===== verification/Prelude.v ===== *)
(** * msgin: a verification library

    msgin is a Go library of Enterprise Integration Patterns: messages travel
    through handlers, routers and channels between sources and sinks, with
    retry, dead-lettering, flow control, aggregation and request-reply on top.
    This library translates its core into executable definitions and proves the
    properties its users rely on: that no message is lost, acknowledged without
    reason or settled twice, that capacity and credits are accounted for, and
    that the loops end.

    ** The program's parts and the files that model them

    - [Prelude]: Go's control flow as a state monad whose computations return
      or panic ([M], [recovering] for a deferred recover, [deferring] for any
      other deferred call), a weakest-precondition calculus for it, 64-bit
      wrap-around, float64 conversions, functional options, list lemmas.
    - [Message]: errors.go, reliability.go, message.go, payload.go, codec.go and
      the helpers every package repeats.  Errors are trees of sentinels and
      wraps, searched as errors.Is and errors.As do; headers are an optional
      map; the dynamic type of a payload is a constructor of [any], and class
      [GoType] says what a type assertion accepts.
    - [Flow]: handler.go, transform/, endpoint/activator.go and the stateless
      routing steps (routing/predicate.go, filter.go, router.go, splitter.go),
      as transformers of handlers over any state.
    - [GroupStore]: groupstore.go and adapter/memory/groupstore.go.  Class
      [MessageGroupStore] is the contract's operations, the abstract group
      machine what they mean; the memory store is an instance that refines it.
    - [Aggregator]: routing/aggregator.go, proved against the laws of the store
      class, so that its theorems hold of every store that satisfies them.
      [Expr]: expr/, expressions as the functions routing steps and aggregators
      take, over any expression language.
    - [QueueStore]: store.go, adapter/memory/queuestore.go,
      adapter/memory/memory.go and channel/queuechannel.go.
    - [Channels]: channel/direct.go, pubsub.go and pubsub_registry.go.
    - [Resilience]: resilience/breaker.go (module Breaker) and
      resilience/backoff.go (module Backoff).  [TokenBucket]:
      resilience/ratelimit.go, over [Rounding], how far a double is from the
      number it stands for.
    - [Consumer]: endpoint/consumer.go, attempts.go, credit.go, retry.go.
      [ConsumerRun]: Run, startWorkers, drainWorkers and ingest of consumer.go
      with the broker of adapter/memory/memory.go, as one machine of goroutines.
    - [Poller]: endpoint/poller.go with the credit gate and the workers.
    - [Producer]: endpoint/producer.go.
    - [SqliteDsn]: adapter/database/sql/sqlite/dsn.go.
    - [Exchange]: endpoint/exchange.go and gateway.go.
    - [SSE]: adapter/http/sse.go, the text/event-stream encoder and parser.
    - [NetHttp]: what net/http does with header names and statuses.
    - [HttpConfig]: adapter/http/options.go and errors.go.
    - [SSEServer]: adapter/http/sse_server.go, the fan-out hub with its replay
      ring, and [SSEClient]: adapter/http/sseclient.go, the reconnecting source.
    - [HttpOutbound]: adapter/http/outbound.go and exchange.go, and
      [HttpInbound]: adapter/http/inbound.go and stdlib/inbound.go; the codec of
      adapter/http/encode.go is split between the two.
    - [SqlEngine]: what the SQL dialects ask of a server: the two tables of a
      group store, the statements as operations on them, a clock, and a driver
      that may fail at every step; the transactions the dialects build
      (runInTx, withImmediateConn).  [SqlGroup]: groupdialect.go of
      adapter/database/sql and the three implementations (postgres/, mysql/ and
      sqlite/groupdialect.go), with the reference semantics they share
      ([spec_add], [spec_claim], [spec_settle], ...) as the laws of class
      [GroupDialectLaws].  [SqlGroupSafety]: what the laws give over histories
      of operations.  [SqlGroupStore]: framing.go and groupstore.go, the
      message store over any dialect of the class.
    - [SqlQueue]: dialect.go and lock.go of adapter/database/sql and the lease
      and lock strategies of postgres/, mysql/ and sqlite/dialect.go, with the
      reference machine of a queue table ([qstep]) and the laws of class
      [LeaseDialectLaws]; [SqlLock]: the laws of the lock strategy, whose claim
      stays open in a transaction.  [SqlQueueSafety]: histories of operations
      of many workers.  [SqlInbox]: inbox_dedup.go and the inbox methods of the
      dialects.  [SqlSource]: options.go, base.go, source.go, outbound.go and
      queuestore.go, over any dialect of the classes.
    - [CronSql]: sqlutil.go, dialect.go, sqllock.go and sqlelector.go of
      adapter/cron, a call being the tree of the statements it issues ([prog]);
      [CronPool]: any number of calls on one database, interleaved statement by
      statement ([pool_step]), with a rely-guarantee argument ([rg]) for what
      they keep.  [CronSafety]: the locker, and [CronElector]: the elector,
      under every interleaving.  [CronSource]: source.go, with the firing loop
      as a machine ([stream_step]); [CronFleet]: the loops of many processes
      over one locker ([fleet_step]).

    A source delivers to a consumer (pushed, or fetched by the poller), which
    takes a credit, asks the rate limiter and the circuit breaker, decodes, runs
    the handler (a chain of [Flow] steps, of which an aggregator or a gateway
    may be one), and acknowledges, requeues or dead-letters; channels and
    stores connect a handler's output to the next consumer.  The HTTP adapter is
    such a source and sink: inbound handlers decode requests into messages for
    a channel or an exchange, the outbound adapter and its exchange post them,
    and the SSE server and client are the two ends of a stream of events.  The
    SQL group store is a second implementation of the store an aggregator keeps
    its groups in, shared by many processes; the SQL outbound and source are the
    two ends of a durable queue in a table, which the runtime polls, and the
    inbox makes a handler's effect happen once although the queue may deliver
    again.  A cron source originates messages on a schedule; of the processes
    that run the same schedule, a locker or an elector in the database says which
    one sends.

    ** How the code is modelled

    A method that runs under one mutex is a function from the state to a result
    and the next state.  Where a method unlocks half way, each locked part is a
    definition of its own, and an inductive step relation interleaves the parts
    of concurrent calls ([qstep], [pstep], [xstep], [rstep], [sse_step],
    [pool_step], [stream_step], [fleet_step], [run_step], the events of the
    breaker's clock).  User code (handlers, predicates, sinks, codecs, hooks,
    the source's Ack and Nack) is a parameter that may do anything to its own
    state and may panic; the theorems assume nothing about it unless they say
    so.  In the aggregator, while a callback runs other goroutines may add
    members to the store.  An SQL statement is the function on finite maps that
    its text denotes; each statement reads a tick of the environment, which says
    whether the driver or the server fails, the server clock, and whether a
    commit whose answer was lost took place; a rollback restores the tables the
    transaction began with.  A statement outside a transaction commits by itself,
    and may have done so although its answer was lost.  The transaction that
    carries a lock of the queue is kept as the row it will commit, beside the
    committed rows; the statements of other workers come between its own.
    The order in which a server meets rows it was not told to order, what a JSON
    column gives back, and mysql's collation and INSERT IGNORE in the inbox are
    parameters (classes [Planner], [JsonColumn], [MySQLColumn]), as is how a
    driver rounds a time to its column ([TimeColumn]).  Text compares by bytes, except that ORDER BY follows
    the database's collation, a parameter; the widths of the columns are not
    modelled.  Time is an integer of nanoseconds and is read from the environment.
    References compared by identity (subscriptions, reply
    slots, timers, channels) are numbers given at creation.  Loggers have no
    effect and are left out.

    ** What the theorems show

    - Stores: refinement of the abstract group machine, conservation of members
      and messages under any interleaving, exclusive and frozen leases, fenced
      settlement, capacity bounds, FIFO order.
    - Aggregator: every member stays accounted for through Handle and the
      reaper, panics included; a release settles or gives back exactly its
      batch; overflow is classified; splitting and aggregating is a round trip.
    - Consumer and poller: each delivery is settled exactly once and returns
      its credit once; acknowledgement needs a reason; the attempt budget, the
      breaker's signal and the admission are exact; rows and credits balance.
      A running consumer loses nothing before its context is done, never waits
      to hand a delivery on, and once its context is done takes a bounded number
      of steps apart from the messages Stream still receives, at any of which
      Stream may return, with a step to take until Run has returned.
    - Producer: the retry loop ends within its budget and reports faithfully.
    - Breaker and backoff: trips exactly, cools down, wakes its waiters, admits
      one probe; delays stay in range over IEEE doubles.  Token bucket: the rate
      holds for any number of callers, up to a stated rounding, and a token comes
      back within two intervals.
    - Exchange and channels: replies reach their own exchange or the unmatched
      handling, none is stranded when its exchange ends, nothing blocks or
      panics on a slot; fan-out reaches everyone;
      the topic registry strands nobody.
    - Server-sent events: the parser equals a reference that reads a stream block
      by block, encoding and parsing is a round trip, and on every interleaving
      a connection's bytes are the frames it is promised, resumed and live, so
      that a client's parse of them is exactly those events when none was
      dropped; memory is bounded, and Close can be joined although clients stop
      reading, where writes take deadlines; reconnect waits are exact.
    - HTTP: one truthful status per request, panics included, when the statuses
      configured are final ones; neither a client
      nor a remote server can forge core metadata or break out of a header;
      responses are classified exactly, replies are never truncated and no
      body leaks.
    - SQL group store: the three dialects implement one reference semantics
      under every fault of the driver and so agree with each other; an operation
      that reports an error has changed nothing or all it was to change; adding
      is idempotent and the cap exact; a settlement removes its own batch and
      keeps late arrivals; a crashed holder's members are claimed again; expiry
      is exact; a message comes back from the store as it went in; an overflow
      and a missing schema are classified.
    - SQL queue and inbox: the three dialects implement one queue machine under
      every fault and crash; the row of an inserted message stays until its holder acknowledges it;
      within a lease one worker has it, settlement is fenced, and a lock is
      released by any end of its transaction; a poll delivers exactly the
      rows it takes, gives back those it cannot read and leaves nothing open; a send is one row, in the caller's
      transaction or not at all; a message comes back as it was sent; and
      through the inbox its effect is committed exactly once.
    - Scheduled sources: a fire gated by the locker is sent by one instance and
      once, under any interleaving and fault, and by one at all when nothing
      fails; within one lease the elector's yes goes to one instance, and an
      acquisition is exact; every instant of the schedule has its fate, in
      order, none sent early or late, and a backlog is passed over.
    - Expressions: a bad one is refused when it is compiled, a message goes to
      the one channel its expression names, a split is all or nothing, a release
      sees the whole group.  A connection string's parameters are those asked
      for.
    - Some theorems and examples record where the code does not do what it is meant to: a
      claim reused after its group was settled (the memory store), workers that
      requeue into a broker nobody reads any more (the consumer), a stale
      holder's settlement that deletes the members of a later claim (the SQL
      dialects), a late acknowledgement that deletes another message (sqlite's
      row identifiers), a lock's delay that counts from the claim (postgres),
      ids that differ in case and are one (mysql's inbox), a lease or a
      retention below a microsecond that is none, a rate that is not a number and
      yet accepted (the token bucket), a lease shorter than the time between two
      instances' fires, which elects them both, a torn or an idle connection that
      moves the resume position, a slow client that is served past a gap, an
      invalid status answered with 200.

    ** Fuel

    The release loop of the aggregator and the loops of the producer and of the
    consumer's admission take fuel and report its end as a value of their own.
    Termination theorems give enough of it: two rounds for Handle when nothing
    else touches the store, one attempt per 100 ms of budget plus one for a
    retrying send, one line per byte for the SSE parser.  Theorems that do not
    speak of termination hold for every fuel, running out included.  The queue store's interleavings stop before
    its int64 epoch counter wraps, after 2^63 claims.

    ** What is not modelled

    The ticker of the consumer's sweep, whose rounds are modelled; the timer that
    cancels a handler, whose end may come at any time; the network and the
    Unicode, URL, media-type and date functions of the standard library, which
    are parameters; the DDL text of the SQL adapter beyond the tables it creates,
    and its conformance harness, which is test code; cron expressions, parsed by
    robfig/cron, a parameter with its documented law; the expression language,
    expr-lang, a parameter of which nothing is assumed; loggers. *)

From Stdlib Require Import Floats.SpecFloat.
From Stdlib Require Export ZArith Lia.
From stdpp Require Export base gmap strings list numbers relations.

(** ** Go's control flow: calls that return or panic *)

(** The outcome of a Go call: it returns a value, or it panics with a value
    (of which only a rendering is kept). *)
Inductive outcome (A : Type) : Type :=
  | Ret (a : A)
  | Panic (v : string).
Arguments Ret {A} _.
Arguments Panic {A} _.

(** A computation over a state [S] that may panic: the shape of every Go
    function with effects in this library. *)
Definition M (S A : Type) : Type := S → outcome A * S.

#[export] Instance M_ret S : MRet (M S) := λ A a s, (Ret a, s).
#[export] Instance M_bind S : MBind (M S) := λ A B k m s,
  match m s with
  | (Ret a, s') => k a s'
  | (Panic v, s') => (Panic v, s')
  end.

Section monad.
Context {S : Type}.

Definition panic {A} (v : string) : M S A := λ s, (Panic v, s).
Definition get : M S S := λ s, (Ret s, s).
Definition put (s : S) : M S unit := λ _, (Ret tt, s).
Definition modify (f : S → S) : M S unit := λ s, (Ret tt, f s).
Definition gets {A} (f : S → A) : M S A := λ s, (Ret (f s), s).

(** [defer func() { if r := recover(); r != nil { h r } }()] around [m]. *)
Definition recovering {A} (h : string → M S A) (m : M S A) : M S A := λ s,
  match m s with
  | (Panic v, s') => h v s'
  | r => r
  end.

(** [defer func() { d res }()] around [m]: the deferred code runs on a
    return, where it sees the value returned, and on a panic unwind. *)
Definition deferring {A} (d : option A → M S unit) (m : M S A) : M S A := λ s,
  match m s with
  | (Ret a, s') =>
      match d (Some a) s' with
      | (Ret _, s'') => (Ret a, s'')
      | (Panic v, s'') => (Panic v, s'')
      end
  | (Panic v, s') => 
      match d None s' with
      | (Ret _, s'') => (Panic v, s'')
      | (Panic v', s'') => (Panic v', s'')
      end
  end.

(** A computation that cannot panic, whatever the state. *)
Definition panic_free {A} (m : M S A) : Prop :=
  ∀ s, ∃ a s', m s = (Ret a, s').

Lemma bind_ret {A B} (a : A) (k : A → M S B) s :
  (mret a ≫= k) s = k a s.
Proof. reflexivity. Qed.

Lemma bind_eq {A B} (m : M S A) (k : A → M S B) s a s' :
  m s = (Ret a, s') → (m ≫= k) s = k a s'.
Proof. intros H. unfold mbind, M_bind. by rewrite H. Qed.

Lemma bind_panic {A B} (m : M S A) (k : A → M S B) s v s' :
  m s = (Panic v, s') → (m ≫= k) s = (Panic v, s').
Proof. intros H. unfold mbind, M_bind. by rewrite H. Qed.

Lemma bind_inv {A B} (m : M S A) (k : A → M S B) s b s' :
  (m ≫= k) s = (Ret b, s') → ∃ a s1, m s = (Ret a, s1) ∧ k a s1 = (Ret b, s').
Proof.
  unfold mbind, M_bind. destruct (m s) as [[a|v] s1]; [eauto|congruence].
Qed.

Lemma panic_free_ret {A} (a : A) : panic_free (mret a : M S A).
Proof. intros s. by eexists _, _. Qed.

Lemma panic_free_modify f : panic_free (modify f).
Proof. intros s. by eexists _, _. Qed.

Lemma panic_free_gets {A} (f : S → A) : panic_free (gets f).
Proof. intros s. by eexists _, _. Qed.

Lemma panic_free_bind {A B} (m : M S A) (k : A → M S B) :
  panic_free m → (∀ a, panic_free (k a)) → panic_free (m ≫= k).
Proof.
  intros Hm Hk s. destruct (Hm s) as (a & s' & E).
  rewrite (bind_eq _ _ _ _ _ E). apply Hk.
Qed.

Lemma panic_free_recovering {A} h (m : M S A) :
  (∀ v, panic_free (h v)) → panic_free (recovering h m).
Proof.
  intros Hh s. unfold recovering. destruct (m s) as [[a|v] s']; [eauto|apply Hh].
Qed.

(** *** Weakest preconditions

    [wp m Q s]: run from [s], [m] returns, without a panic, a value and a state
    that satisfy [Q]. *)
Definition wp {A} (m : M S A) (Q : A → S → Prop) (s : S) : Prop :=
  match m s with (Ret a, s') => Q a s' | (Panic _, _) => False end.

Lemma wp_ret {A} (a : A) (Q : A → S → Prop) s : Q a s → wp (mret a) Q s.
Proof. done. Qed.

Lemma wp_bind {A B} (m : M S A) (k : A → M S B) Q s :
  wp m (λ a s', wp (k a) Q s') s → wp (m ≫= k) Q s.
Proof. unfold wp, mbind, M_bind. by destruct (m s) as [[a|v] s']. Qed.

Lemma wp_mono {A} (m : M S A) (P Q : A → S → Prop) s :
  wp m P s → (∀ a s', P a s' → Q a s') → wp m Q s.
Proof. unfold wp. destruct (m s) as [[a|v] s']; auto. Qed.

Lemma wp_run {A} (m : M S A) Q s : wp m Q s → ∃ a s', m s = (Ret a, s') ∧ Q a s'.
Proof. unfold wp. destruct (m s) as [[a|v] s']; [eauto|done]. Qed.

Lemma wp_gets {A} (f : S → A) (Q : A → S → Prop) s : Q (f s) s → wp (gets f) Q s.
Proof. done. Qed.

Lemma wp_modify (f : S → S) (Q : unit → S → Prop) s : Q tt (f s) → wp (modify f) Q s.
Proof. done. Qed.
End monad.

Create HintDb msgin discriminated.
Create Rewrite HintDb msgin.
#[export] Hint Resolve panic_free_ret panic_free_modify panic_free_gets
  panic_free_bind panic_free_recovering : msgin.

(** Run a computation over a component [W] of a larger state [S]. *)
Definition zoom {S W A} (getW : S → W) (setW : W → S → S) (m : M W A) : M S A :=
  λ s, match m (getW s) with (o, w) => (o, setW w s) end.

(** ** Machine integers *)

(** Two's complement wrap-around of Go's [int64] and (on 64-bit platforms)
    [int]. *)
Definition wrap64 (z : Z) : Z := (z + 2^63) mod 2^64 - 2^63.

Definition MaxInt64 : Z := 2^63 - 1.
Definition MinInt64 : Z := - 2^63.
Definition int64_range (z : Z) : Prop := (MinInt64 ≤ z ≤ MaxInt64)%Z.

Lemma wrap64_id z : int64_range z → wrap64 z = z.
Proof.
  unfold int64_range, wrap64, MinInt64, MaxInt64. intros H.
  rewrite Z.mod_small; lia.
Qed.

Lemma wrap64_range z : int64_range (wrap64 z).
Proof.
  unfold int64_range, wrap64, MinInt64, MaxInt64.
  pose proof (Z.mod_pos_bound (z + 2^63) (2^64)). lia.
Qed.

(** ** float64

    Values are those of the Standard Library's IEEE 754 model. *)

(** The value of a finite float truncated toward zero; [None] for an infinity
    or a NaN. *)
Definition f64_trunc (f : spec_float) : option Z :=
  match f with
  | S754_zero _ => Some 0%Z
  | S754_finite s m e =>
      let a := (if 0 <=? e then Zpos m * 2 ^ e else Zpos m / 2 ^ (- e))%Z in
      Some (if s then - a else a)%Z
  | S754_infinity _ | S754_nan => None
  end.

(** The conversion [int64(f)]: the Go specification leaves a value that does
    not fit to the implementation, so the result there is an argument. *)
Definition f64_to_int64 (impl : spec_float → Z) (f : spec_float) : Z :=
  match f64_trunc f with
  | Some z => if ((MinInt64 <=? z) && (z <=? MaxInt64))%Z then z else impl f
  | None => impl f
  end.

(** ** Durations and instants *)

(** [time.Duration]s and instants are integers of nanoseconds; an instant
    counts from Go's zero [time.Time], so that [IsZero] is [Z.eqb 0]. *)
Definition nanosecond : Z := 1.
Definition microsecond : Z := 1000.
Definition millisecond : Z := 1000000.
Definition second : Z := 1000000000.
Definition minute : Z := 60 * second.
Definition hour : Z := 60 * minute.
Definition IsZero (t : Z) : bool := Z.eqb t 0.
(** [t.Sub(u)] saturates at the extreme durations. *)
Definition time_Sub (t u : Z) : Z := Z.max MinInt64 (Z.min MaxInt64 (t - u)).

(** ** Variadic functional options *)

(** [for i, opt := range opts { if opt == nil { return nilOptionAt(i) }; opt(&cfg) }]:
    the strict application loop, which stops at the first nil element. *)
Fixpoint apply_opts_from {C} (i : nat) (opts : list (option (C → C))) (cfg : C) : nat + C :=
  match opts with
  | [] => inr cfg
  | None :: _ => inl i
  | Some opt :: rest => apply_opts_from (S i) rest (opt cfg)
  end.
Definition apply_opts {C} (opts : list (option (C → C))) (cfg : C) : nat + C :=
  apply_opts_from 0 opts cfg.

Lemma apply_opts_from_all {C} i (fs : list (C → C)) cfg :
  apply_opts_from i (Some <$> fs) cfg = inr (foldl (λ c f, f c) cfg fs).
Proof. revert i cfg. induction fs as [|f fs IH]; intros i cfg; [done|apply IH]. Qed.

Lemma apply_opts_from_nil {C} i (fs : list (C → C)) rest cfg :
  apply_opts_from i ((Some <$> fs) ++ None :: rest) cfg = inl (i + length fs).
Proof.
  revert i cfg. induction fs as [|f fs IH]; intros i cfg; cbn; [f_equal; lia|].
  rewrite IH. f_equal. lia.
Qed.

(** Every option list is a run of non-nil options, ended or followed by the
    first nil one. *)
Lemma opts_split {C} (opts : list (option (C → C))) :
  (∃ fs, opts = Some <$> fs) ∨ (∃ fs rest, opts = (Some <$> fs) ++ None :: rest).
Proof.
  induction opts as [|[f|] opts IH].
  - left. by exists [].
  - destruct IH as [[fs ->]|(fs & rest & ->)].
    + left. by exists (f :: fs).
    + right. by exists (f :: fs), rest.
  - right. by exists [], opts.
Qed.

(** The application loop fails exactly on a list with a nil element. *)
Lemma apply_opts_cases {C} (opts : list (option (C → C))) cfg :
  match apply_opts opts cfg with
  | inl i => opts !! i = Some None
  | inr _ => None ∉ opts
  end.
Proof.
  destruct (opts_split opts) as [[fs ->]|(fs & rest & ->)]; unfold apply_opts.
  - rewrite apply_opts_from_all. intros (f & [=] & _)%list_elem_of_fmap.
  - rewrite apply_opts_from_nil. rewrite lookup_app_r; rewrite length_fmap; [|cbn; lia].
    by replace (0 + length fs - length fs)%nat with 0%nat by lia.
Qed.

(** ** Errors as values

    A check that returns its error, in the middle of a constructor. *)
Definition sum_bind {E A B} (m : E + A) (k : A → E + B) : E + B :=
  match m with inl e => inl e | inr a => k a end.
Notation "'let?' x ':=' m 'in' k" := (sum_bind m (λ x, k))
  (at level 200, x name, m at level 100, k at level 200).

Lemma sum_bind_inr {E A B} (m : E + A) (k : A → E + B) b :
  sum_bind m k = inr b ↔ ∃ a, m = inr a ∧ k a = inr b.
Proof. destruct m; naive_solver. Qed.

(** ** Lists *)

Lemma filter_all {A} (P : A → Prop) `{∀ x, Decision (P x)} l : Forall P l → filter P l = l.
Proof. induction 1 as [|x l Hx _ IH]; [done|]. by rewrite filter_cons_True, IH. Qed.

(** How many elements satisfy a test. *)
Fixpoint countb {A} (f : A → bool) (l : list A) : nat :=
  match l with
  | [] => 0
  | x :: rest => (if f x then 1 else 0) + countb f rest
  end.

Lemma filter_none {A} (P : A → Prop) `{∀ x, Decision (P x)} l :
  Forall (λ x, ¬ P x) l → filter P l = [].
Proof. induction 1 as [|x l Hx _ IH]; [done|]. by rewrite filter_cons_False, IH. Qed.

Lemma delete_perm {A} (l : list A) i x : l !! i = Some x → l ≡ₚ x :: delete i l.
Proof.
  intros Hi. rewrite <- (take_drop_middle l i x Hi) at 1. rewrite delete_take_drop.
  by rewrite Permutation_middle.
Qed.

Lemma delete_length {A} (l : list A) i x : l !! i = Some x → length l = S (length (delete i l)).
Proof. intros Hi. exact (Permutation_length (delete_perm l i x Hi)). Qed.

(** ** Finite maps *)

Lemma map_size_delete_le {A} `{Countable K} (key : K) (m : gmap K A) : (size (delete key m) ≤ size m)%nat.
Proof. rewrite map_size_delete. destruct (m !! key); cbn; lia. Qed.

(** ** Tactics *)

(** Split the conditionals and matches on the goal or a hypothesis. *)
Ltac case_match_goal :=
  match goal with
  | |- context [match ?x with _ => _ end] => destruct x eqn:?
  end.

Ltac case_match_hyp H :=
  match type of H with
  | context [match ?x with _ => _ end] => destruct x eqn:?
  end.

Ltac simplify_all := repeat (cbn in *; simplify_eq).

(** Turn boolean comparisons on [Z] and [nat] in the context into
    propositions. *)
Ltac bool_to_prop :=
  repeat match goal with
  | H : Z.leb _ _ = true |- _ => apply Z.leb_le in H
  | H : Z.leb _ _ = false |- _ => apply Z.leb_gt in H
  | H : Z.ltb _ _ = true |- _ => apply Z.ltb_lt in H
  | H : Z.ltb _ _ = false |- _ => apply Z.ltb_ge in H
  | H : Z.eqb _ _ = true |- _ => apply Z.eqb_eq in H
  | H : Z.eqb _ _ = false |- _ => apply Z.eqb_neq in H
  | H : Nat.leb _ _ = true |- _ => apply Nat.leb_le in H
  | H : Nat.leb _ _ = false |- _ => apply Nat.leb_gt in H
  | H : Nat.ltb _ _ = true |- _ => apply Nat.ltb_lt in H
  | H : Nat.ltb _ _ = false |- _ => apply Nat.ltb_ge in H
  | H : Nat.eqb _ _ = true |- _ => apply Nat.eqb_eq in H
  | H : Nat.eqb _ _ = false |- _ => apply Nat.eqb_neq in H
  | H : andb _ _ = true |- _ => apply andb_true_iff in H as [? ?]
  | H : orb _ _ = false |- _ => apply orb_false_iff in H as [? ?]
  | H : negb _ = true |- _ => apply negb_true_iff in H
  | H : negb _ = false |- _ => apply negb_false_iff in H
  | H : bool_decide _ = true |- _ => apply bool_decide_eq_true in H
  | H : bool_decide _ = false |- _ => apply bool_decide_eq_false in H
  end.

#[export] Instance spec_float_eq_dec : EqDecision spec_float.
Proof. solve_decision. Defined.
