(* ===== verification/Message.v ===== *)
(** * Messages, headers and errors (the root package)

    Models errors.go (the sentinels), reliability.go (the permanent and
    retry-after markers), message.go (headers, messages and their options),
    payload.go and codec.go.

    An [error] is the tree that [errors.Is] and [errors.As] walk: sentinels are
    compared by identity, [fmt.Errorf] with [%w] verbs and [errors.Join] are
    inner nodes.  The free text of a wrap is not part of the tree; a wrap keeps
    the position text and the integers the source formats into it. *)

From S2P Require Import Prelude.
From Stdlib Require Import Floats.SpecFloat.
From Stdlib Require Import Strings.Ascii.
Local Open Scope Z_scope.
#[local] Set Warnings "-register-all".

(** ** Errors *)

(** The sentinels of errors.go, the two of the context package the code
    compares with, and a name for a sentinel of another package. *)
Inductive sentinel : Type :=
  | ErrPayloadType | ErrPayloadDecode | ErrNilAdapter | ErrPayloadTooLarge
  | ErrUnexpectedCodec | ErrInvalidConcurrency | ErrUnsupportedSource | ErrHandlerPanic
  | ErrNoDeadLetter | ErrInvalidMaxAttempts | ErrInvalidRetryAfterCap | ErrInvalidRetryBudget
  | ErrUnboundedRetry | ErrRetryBudgetExhausted | ErrInvalidDeadLetterTimeout | ErrDeadLettered
  | ErrInvalidMaxInFlight | ErrInvalidRateLimit | ErrInvalidAttemptTTL | ErrOverflowDropped
  | ErrInvalidPollInterval | ErrInvalidPollMaxBatch | ErrChannelSubscribed | ErrNoSubscriber
  | ErrNilHandler | ErrNilSubscription | ErrSharedReplyChannel | ErrNilSink
  | ErrNilFunc | ErrNoRoute | ErrScheduledSendUnsupported | ErrNilStore
  | ErrInvalidCapacity | ErrNoCorrelation | ErrNilOutput | ErrExpiryChannelRequired
  | ErrNilMessageGroup | ErrGatewayClosed | ErrReplyTimeout | ErrNilExchange
  | ErrNilChannel | ErrInvalidReplyTimeout | ErrDuplicateCorrelation
  | CtxCanceled | CtxDeadlineExceeded
  | OtherSentinel (name : string).

#[export] Instance sentinel_eq_dec : EqDecision sentinel.
Proof. solve_decision. Defined.

(** The operands a wrap formats besides the wrapped errors. *)
Inductive fmtarg : Type :=
  | FStr (s : string)
  | FInt (z : Z).

Inductive error : Type :=
  | Sentinel (s : sentinel)
  | Opaque (text : string)
  | Errorf (wrapped : list error) (args : list fmtarg)
  | JoinErr (errs : list error)
  | permanentError (err : error)
  | retryAfterError (err : error) (d : Z).

(** Induction over the error tree, with the hypothesis at every child. *)
Fixpoint error_ind' (P : error → Prop)
    (Hs : ∀ s, P (Sentinel s)) (Ho : ∀ t, P (Opaque t))
    (Hf : ∀ es args, Forall P es → P (Errorf es args))
    (Hj : ∀ es, Forall P es → P (JoinErr es))
    (Hp : ∀ e, P e → P (permanentError e))
    (Hr : ∀ e d, P e → P (retryAfterError e d))
    (e : error) : P e :=
  let rec := error_ind' P Hs Ho Hf Hj Hp Hr in
  let all := fix all (es : list error) : Forall P es :=
    match es with
    | [] => @List.Forall_nil error P
    | x :: xs => @List.Forall_cons error P x xs (rec x) (all xs)
    end in
  match e with
  | Sentinel s => Hs s
  | Opaque t => Ho t
  | Errorf es args => Hf es args (all es)
  | JoinErr es => Hj es (all es)
  | permanentError e => Hp e (rec e)
  | retryAfterError e d => Hr e d (rec e)
  end.

(** [errors.Is(err, target)] for a sentinel target: some node of the tree is
    the target. *)
Fixpoint Is (e : error) (target : sentinel) : bool :=
  match e with
  | Sentinel s => bool_decide (s = target)
  | Opaque _ => false
  | Errorf es _ => existsb (λ x, Is x target) es
  | JoinErr es => existsb (λ x, Is x target) es
  | permanentError e => Is e target
  | retryAfterError e _ => Is e target
  end.

(** [errors.As(err, &pe)] with [pe] a [*permanentError]: whether it succeeds. *)
Fixpoint As_permanent (e : error) : bool :=
  match e with
  | permanentError _ => true
  | Sentinel _ | Opaque _ => false
  | Errorf es _ | JoinErr es => existsb As_permanent es
  | retryAfterError e _ => As_permanent e
  end.

(** [errors.As(err, &re)] with [re] a [*retryAfterError]: the delay of the
    first such node in the depth-first order of the standard library. *)
Fixpoint As_retryAfter (e : error) : option Z :=
  let first := fix first (es : list error) : option Z :=
    match es with
    | [] => None
    | x :: xs => match As_retryAfter x with Some d => Some d | None => first xs end
    end in
  match e with
  | retryAfterError _ d => Some d
  | Sentinel _ | Opaque _ => None
  | Errorf es _ | JoinErr es => first es
  | permanentError e => As_retryAfter e
  end.

(** [errors.Join]: nil arguments are dropped, and no argument left gives nil. *)
Definition Join (errs : list (option error)) : option error :=
  match omap id errs with
  | [] => None
  | es => Some (JoinErr es)
  end.

(** [errors.Is] on a possibly nil error. *)
Definition IsOpt (e : option error) (target : sentinel) : bool :=
  match e with Some e => Is e target | None => false end.

(** *** reliability.go *)

Definition Permanent (err : option error) : option error :=
  match err with
  | None => None
  | Some e => Some (permanentError e)
  end.

Definition IsPermanent (err : option error) : bool :=
  match err with
  | None => false
  | Some e =>
      if As_permanent e then true
      else Is e ErrPayloadType || Is e ErrPayloadDecode || Is e ErrPayloadTooLarge
  end.

Definition RetryAfter (err : option error) (d : Z) : option error :=
  match err with
  | None => None
  | Some e => Some (retryAfterError e (if d <? 0 then 0 else d))
  end.

Definition RetryAfterOf (err : option error) : option Z :=
  match err with
  | None => None
  | Some e => As_retryAfter e
  end.

(** *** The construction-time error helpers every package repeats *)

Definition nilOptionAt (ctor : string) (i : nat) : error :=
  Errorf [Sentinel ErrNilFunc] [FStr ctor; FInt (Z.of_nat i)].
Definition nilFuncAt (position : string) : error :=
  Errorf [Sentinel ErrNilFunc] [FStr position].
(** [fmt.Errorf("%w: %s", msgin.Permanent(msgin.ErrNilFunc), position)]. *)
Definition permanentAt (s : sentinel) (position : string) : error :=
  Errorf [permanentError (Sentinel s)] [FStr position].
Definition checkRange (sent : error) (site : string) (n lo hi : Z) : option error :=
  if (lo <=? n) && (n <=? hi) then None
  else Some (Errorf [sent] [FStr site; FInt n; FInt lo; FInt hi]).

(** *** Facts about the classification *)

Lemma Is_Errorf es args t : Is (Errorf es args) t = existsb (λ x, Is x t) es.
Proof. reflexivity. Qed.

Lemma Is_one e args t : Is (Errorf [e] args) t = Is e t.
Proof. cbn. apply orb_false_r. Qed.

Lemma Is_permanentError e t : Is (permanentError e) t = Is e t.
Proof. reflexivity. Qed.

Lemma IsPermanent_one e args :
  IsPermanent (Some (Errorf [e] args)) = IsPermanent (Some e).
Proof. cbn. by rewrite !orb_false_r. Qed.

Lemma IsPermanent_Permanent e : IsPermanent (Permanent (Some e)) = true.
Proof. reflexivity. Qed.

Lemma IsPermanent_permanentAt s p : IsPermanent (Some (permanentAt s p)) = true.
Proof. reflexivity. Qed.

(** A sentinel is permanent exactly when it is one of the three classified
    ones. *)
Lemma IsPermanent_sentinel s :
  IsPermanent (Some (Sentinel s)) = true ↔
  s = ErrPayloadType ∨ s = ErrPayloadDecode ∨ s = ErrPayloadTooLarge.
Proof.
  unfold IsPermanent, As_permanent, Is. rewrite !orb_true_iff, !bool_decide_eq_true. tauto.
Qed.

Lemma existsb_In {A} (f : A → bool) l x : In x l → f x = true → existsb f l = true.
Proof. intros Hin Hf. apply existsb_exists. eauto. Qed.

Lemma IsPermanent_Errorf_In es args e :
  In e es → IsPermanent (Some e) = true → IsPermanent (Some (Errorf es args)) = true.
Proof.
  intros Hin. unfold IsPermanent. destruct (As_permanent e) eqn:Hp.
  - intros _. cbn [As_permanent]. by rewrite (existsb_In _ _ _ Hin Hp).
  - intros H. rewrite !orb_true_iff in H. cbn [As_permanent Is].
    destruct (existsb As_permanent es); [done|]. rewrite !orb_true_iff.
    destruct H as [[H|H]|H]; [left; left|left; right|right];
      by eapply existsb_In; [exact Hin|].
Qed.

Lemma checkRange_ok sent site n lo hi :
  checkRange sent site n lo hi = None ↔ lo ≤ n ≤ hi.
Proof.
  unfold checkRange. split.
  - case_match_goal; [|done]. bool_to_prop. lia.
  - intros [H1 H2]. apply Z.leb_le in H1, H2. by rewrite H1, H2.
Qed.

Lemma checkRange_err sent site n lo hi e t :
  checkRange sent site n lo hi = Some e → Is e t = Is sent t.
Proof. unfold checkRange. case_match_goal; [done|]. intros [= <-]. apply Is_one. Qed.

#[export] Hint Rewrite @Is_one @Is_permanentError @IsPermanent_one : msgin.

(** ** Payloads of static type [any] *)

Definition bytes : Type := list ascii.

(** The dynamic values the code distinguishes: [ANil] is the untyped nil, and
    [AOther] a value of a Go type the code never asserts to. *)
Inductive any : Type :=
  | ANil
  | AString (s : string)
  | AInt (z : Z)
  | AInt64 (z : Z)
  | AFloat64 (f : spec_float)
  | ABytes (b : bytes)
  | ATime (t : Z)
  | AOther (ty : string) (v : Z).

#[export] Instance any_eq_dec : EqDecision any.
Proof. solve_decision. Defined.

(** The type assertion [v.(T)] and the conversion [any(v)] of a Go type. *)
Class GoType (T : Type) := {
  type_assert : any → option T;
  to_any : T → any
}.

(** A type whose boxed values assert back to themselves, and only they do. *)
Class GoTypeLaws (T : Type) `{GoType T} := {
  assert_boxed : ∀ v : T, type_assert (to_any v) = Some v;
  assert_inv : ∀ a (v : T), type_assert a = Some v → a = to_any v
}.

#[export] Instance GoType_string : GoType string :=
  {| type_assert a := match a with AString s => Some s | _ => None end; to_any := AString |}.
#[export] Instance GoType_bytes : GoType bytes :=
  {| type_assert a := match a with ABytes b => Some b | _ => None end; to_any := ABytes |}.
(** [any] itself: the assertion fails on the untyped nil only. *)
#[export] Instance GoType_any : GoType any :=
  {| type_assert a := match a with ANil => None | _ => Some a end; to_any a := a |}.

Record goint : Type := GoInt { goint_z : Z }.
#[export] Instance GoType_int : GoType goint :=
  {| type_assert a := match a with AInt z => Some (GoInt z) | _ => None end;
     to_any i := AInt (goint_z i) |}.

#[export] Instance GoTypeLaws_string : GoTypeLaws string.
Proof. split; [done|]. by intros [] ? [= ->]. Qed.
#[export] Instance GoTypeLaws_bytes : GoTypeLaws bytes.
Proof. split; [done|]. by intros [] ? [= ->]. Qed.
#[export] Instance GoTypeLaws_int : GoTypeLaws goint.
Proof. split; [by intros []|]. by intros [] ? [= <-]. Qed.

(** ** Headers (message.go)

    The backing map is [None] when it is Go's nil map: reading a nil map finds
    nothing, writing to it would panic, which [headers_with] guards against. *)

Definition HeaderMessageID : string := "msgin.message-id".
Definition HeaderTimestamp : string := "msgin.timestamp".
Definition HeaderContentType : string := "msgin.content-type".
Definition HeaderCorrelationID : string := "msgin.correlation-id".
Definition HeaderDeliveryCount : string := "msgin.delivery-count".
Definition HeaderSequenceNumber : string := "msgin.sequence-number".
Definition HeaderSequenceSize : string := "msgin.sequence-size".

Record Headers : Type := mkHeaders { hm : option (gmap string any) }.

(** Indexing a Go map: a nil map has no entry. *)
Definition gomap_get (m : option (gmap string any)) (key : string) : option any :=
  m ≫= λ m, m !! key.

(** [maps.Clone]: the clone of a nil map is nil.  A clone is an equal map, since
    the maps of the model are values. *)
Definition maps_Clone (m : option (gmap string any)) : option (gmap string any) := m.

Definition NewHeaders (m : option (gmap string any)) : Headers := mkHeaders (maps_Clone m).

Definition Headers_Get (h : Headers) (key : string) : option any := gomap_get (hm h) key.

Definition Headers_String (h : Headers) (key : string) : option string :=
  match gomap_get (hm h) key with Some (AString s) => Some s | _ => None end.

Definition Headers_Int (h : Headers) (key : string) : option Z :=
  match gomap_get (hm h) key with Some (AInt z) => Some z | _ => None end.

Definition Headers_Time (h : Headers) (key : string) : option Z :=
  match gomap_get (hm h) key with Some (ATime t) => Some t | _ => None end.

(** [All]: the entries a range over the map yields, in the order of the
    model's canonical enumeration (Go's order is unspecified). *)
Definition Headers_All (h : Headers) : list (string * any) :=
  match hm h with None => [] | Some m => map_to_list m end.

Definition headers_with (h : Headers) (key : string) (v : any) : Headers :=
  let nm := match maps_Clone (hm h) with None => ∅ | Some m => m end in
  mkHeaders (Some (<[key := v]> nm)).

Definition headers_without (h : Headers) (key : string) : Headers :=
  match gomap_get (hm h) key with
  | None => mkHeaders (maps_Clone (hm h))
  | Some _ => mkHeaders (delete key <$> maps_Clone (hm h))
  end.

Lemma Headers_Get_with h k v k' :
  Headers_Get (headers_with h k v) k' = if decide (k = k') then Some v else Headers_Get h k'.
Proof.
  unfold Headers_Get, gomap_get, headers_with, maps_Clone. cbn.
  rewrite lookup_insert. case_decide; [done|]. by destruct (hm h).
Qed.

Lemma Headers_Get_without h k k' :
  Headers_Get (headers_without h k) k' = if decide (k = k') then None else Headers_Get h k'.
Proof.
  unfold Headers_Get, headers_without, gomap_get, maps_Clone.
  destruct h as [[m|]]; cbn; [|by case_decide].
  destruct (m !! k) eqn:E; cbn; [by rewrite lookup_delete|].
  case_decide; naive_solver.
Qed.

Lemma Headers_String_Get h k s :
  Headers_String h k = Some s ↔ Headers_Get h k = Some (AString s).
Proof.
  unfold Headers_String, Headers_Get. destruct (gomap_get (hm h) k) as [[]|]; naive_solver.
Qed.

(** ** Messages *)

Record Message (T : Type) : Type := mkMessage {
  msg_payload : T;
  msg_headers : Headers
}.
Arguments mkMessage {T} _ _.
Arguments msg_payload {T} _.
Arguments msg_headers {T} _.

(** [Message[any]], the form in which messages travel between components. *)
Abbreviation msg := (Message any).

Record msgConfig : Type := mkMsgConfig {
  mc_clock : Z;  (** what the configured clock's [Now] returns *)
  mc_id : string;
  mc_headers : option (gmap string any)
}.

(** The options; a nil clock is [None]. *)
Definition WithClock (c : option Z) (o : msgConfig) : msgConfig :=
  match c with
  | Some now => mkMsgConfig now (mc_id o) (mc_headers o)
  | None => o
  end.
Definition WithID (id : string) (o : msgConfig) : msgConfig :=
  mkMsgConfig (mc_clock o) id (mc_headers o).
Definition WithHeaders (m : option (gmap string any)) (o : msgConfig) : msgConfig :=
  mkMsgConfig (mc_clock o) (mc_id o) m.

(** The option loop of [New]: a nil element is skipped. *)
Definition apply_msg_opts (opts : list (option (msgConfig → msgConfig))) (cfg : msgConfig) : msgConfig :=
  foldl (λ c o, match o with None => c | Some f => f c end) cfg opts.

Definition hex_digit (n : nat) : ascii :=
  match String.get n "0123456789abcdef" with Some c => c | None => "0"%char end.
Fixpoint EncodeToString (b : bytes) : string :=
  match b with
  | [] => EmptyString
  | c :: rest =>
      String (hex_digit (nat_of_ascii c / 16))
        (String (hex_digit (nat_of_ascii c mod 16)) (EncodeToString rest))
  end.

(** The id [NewID] makes of the 16 bytes the random source returned. *)
Definition NewID (random : bytes) : string := EncodeToString random.

(** [New]: [real_now] is what the real clock returns and [random] what the
    random source fills the id with, should either be used. *)
Definition New {T} (real_now : Z) (random : bytes) (payload : T)
    (opts : list (option (msgConfig → msgConfig))) : Message T :=
  let cfg := apply_msg_opts opts (mkMsgConfig real_now "" None) in
  let m := match mc_headers cfg with None => ∅ | Some m => m end in
  let id := if bool_decide (mc_id cfg = "") then NewID random else mc_id cfg in
  let m := <[HeaderMessageID := AString id]> m in
  let m := <[HeaderTimestamp := ATime (mc_clock cfg)]> m in
  mkMessage payload (mkHeaders (Some m)).

Definition NewMessage {T} (payload : T) (headers : Headers) : Message T :=
  mkMessage payload headers.

Definition Header {T} (m : Message T) (key : string) : option any :=
  Headers_Get (msg_headers m) key.

Definition ID {T} (m : Message T) : string :=
  match Headers_String (msg_headers m) HeaderMessageID with Some id => id | None => "" end.

Definition WithHeader {T} (m : Message T) (key : string) (v : any) : Message T :=
  mkMessage (msg_payload m) (headers_with (msg_headers m) key v).

Definition WithoutHeader {T} (m : Message T) (key : string) : Message T :=
  mkMessage (msg_payload m) (headers_without (msg_headers m) key).

(** *** payload.go and the helpers built on it *)

Definition PayloadOf {T} `{GoType T} (m : Message any) : error + Message T :=
  match type_assert (msg_payload m) with
  | None => inl (Errorf [Sentinel ErrPayloadType] [])
  | Some v => inr (NewMessage v (msg_headers m))
  end.

Definition WithPayload {A B} (m : Message A) (payload : B) : Message B :=
  NewMessage payload (msg_headers m).

Definition boxMessage {T} `{GoType T} (m : Message T) : Message any :=
  NewMessage (to_any (msg_payload m)) (msg_headers m).

(** *** codec.go

    A codec is its two methods, either of which may panic in a caller's
    implementation; the identity codec copies, which on values is the
    identity. *)
Record PayloadCodec (T : Type) : Type := mkCodec {
  Encode : T → outcome (error + bytes);
  Decode : bytes → outcome (error + T)
}.
Arguments mkCodec {T} _ _.
Arguments Encode {T} _ _.
Arguments Decode {T} _ _.

Definition bytes_Clone (b : bytes) : bytes := b.
Definition BytesPayloadCodec : PayloadCodec bytes :=
  mkCodec (λ v, Ret (inr (bytes_Clone v))) (λ b, Ret (inr (bytes_Clone b))).

(** *** Facts about messages *)

Lemma Header_WithHeader {T} (m : Message T) k v k' :
  Header (WithHeader m k v) k' = if decide (k = k') then Some v else Header m k'.
Proof. apply Headers_Get_with. Qed.

Lemma Header_WithoutHeader {T} (m : Message T) k k' :
  Header (WithoutHeader m k) k' = if decide (k = k') then None else Header m k'.
Proof. apply Headers_Get_without. Qed.

Lemma ID_Header {T} (m : Message T) id :
  Header m HeaderMessageID = Some (AString id) → ID m = id.
Proof. intros H. unfold ID. by rewrite (proj2 (Headers_String_Get _ _ _) H). Qed.

Lemma ID_WithHeader_ne {T} (m : Message T) k v :
  k ≠ HeaderMessageID → ID (WithHeader m k v) = ID m.
Proof.
  intros Hk. unfold ID, Headers_String, WithHeader. cbn [msg_headers].
  pose proof (Headers_Get_with (msg_headers m) k v HeaderMessageID) as H.
  unfold Headers_Get in H. rewrite H. by rewrite decide_False.
Qed.

Lemma ID_box {T} `{GoType T} (m : Message T) : ID (boxMessage m) = ID m.
Proof. reflexivity. Qed.

Lemma PayloadOf_box {T} `{GoTypeLaws T} (m : Message T) : PayloadOf (boxMessage m) = inr m.
Proof. unfold PayloadOf, boxMessage. cbn. rewrite assert_boxed. by destruct m. Qed.

Lemma PayloadOf_headers {T} `{GoType T} m (m' : Message T) :
  PayloadOf m = inr m' → msg_headers m' = msg_headers m.
Proof. unfold PayloadOf. destruct (type_assert _); intros [= <-]. done. Qed.

Lemma PayloadOf_err {T} `{GoType T} m e :
  PayloadOf (T := T) m = inl e → Is e ErrPayloadType = true ∧ IsPermanent (Some e) = true.
Proof. unfold PayloadOf. destruct (type_assert _); intros [= <-]. done. Qed.

#[export] Hint Rewrite @Header_WithHeader @Header_WithoutHeader @ID_box : msgin.

(** A message with the given id, which is also its payload: the concrete input
    of the witnesses. *)
Definition sample (id : string) : msg :=
  WithHeader (NewMessage (AString id) (mkHeaders None)) HeaderMessageID (AString id).
