(* ===== verification/GroupStore.v ===== *)
(** * Message group stores

    The contract of groupstore.go ([MessageGroupStore]) as an abstract machine
    and a class, and adapter/memory/groupstore.go, the in-process store, with
    its invariant and the refinement that discharges the contract.

    Every method of the store runs under its mutex, so an execution is a
    sequence of the operations below; the clock reading a method takes is an
    argument of its definition. *)

From S2P Require Import Prelude Message.
Local Open Scope Z_scope.


(** ** The values that cross the interface *)

Record MessageGroup : Type := mkGroup {
  grp_key : string;
  grp_messages : list msg;
  grp_createdAt : Z
}.

Record MessageGroupClaim : Type := mkClaim {
  clm_group : MessageGroup;
  clm_epoch : Z
}.
Definition clm_key (c : MessageGroupClaim) : string := grp_key (clm_group c).
Definition clm_messages (c : MessageGroupClaim) : list msg := grp_messages (clm_group c).

(** A [MessageGroup] interface value: nil, a typed nil pointer, or a group. *)
Inductive groupRef : Type :=
  | GNil
  | GTypedNil
  | GVal (g : MessageGroup).

(** ** The abstract group machine

    What a store promises: per key, the live members in arrival order, the
    claim in flight (its epoch and its frozen members), and the fencing
    epoch. *)

Record agroup : Type := mkAGroup {
  a_live : list msg;
  a_claim : option (Z * list msg);
  a_epoch : Z
}.

Definition a_claimed (g : agroup) : list msg :=
  match a_claim g with Some (_, c) => c | None => [] end.
(** Every member the group retains: the claimed ones came first. *)
Definition a_members (g : agroup) : list msg := a_claimed g ++ a_live g.

Definition same_id (m m' : msg) : bool :=
  bool_decide (ID m ≠ "" ∧ ID m = ID m').
(** A member with the id of [m] (which is not the empty id) is stored. *)
Definition a_seen (g : agroup) (m : msg) : bool := existsb (same_id m) (a_members g).

Definition a_add (g : agroup) (m : msg) : agroup :=
  mkAGroup (a_live g ++ [m]) (a_claim g) (a_epoch g).

Definition a_settle (g : agroup) (epoch : Z) : option agroup :=
  match a_claim g with
  | Some (e, _) =>
      if e =? epoch then
        match a_live g with
        | [] => None
        | l => Some (mkAGroup l None (a_epoch g))
        end
      else Some g
  | None => Some g
  end.

Definition a_abandon (g : agroup) (epoch : Z) : agroup :=
  match a_claim g with
  | Some (e, c) =>
      if e =? epoch then mkAGroup (c ++ a_live g) None (a_epoch g) else g
  | None => g
  end.

Definition a_take (g : agroup) : agroup :=
  let e := wrap64 (a_epoch g + 1) in
  mkAGroup [] (Some (e, a_live g)) e.

(** ** The memory store *)

Record groupState : Type := mkGroupState {
  g_msgs : list msg;
  g_ids : gset string;
  g_createdAt : Z;
  g_epoch : Z;
  g_leased : bool;
  g_claimedLen : nat
}.

Record GroupStore : Type := mkGroupStore {
  gs_groups : gmap string groupState;
  gs_maxGroups : Z;
  gs_maxGroupMembers : Z
}.

Record groupStoreConfig : Type := mkGroupStoreConfig {
  gc_maxGroups : Z;
  gc_maxGroupMembers : Z
}.

Definition maxGroupsCeiling : Z := Z.shiftl 1 20.
Definition defaultMaxGroupMembers : Z := Z.shiftl 1 16.
Definition maxGroupMembersCeiling : Z := Z.shiftl 1 20.

Definition WithMaxGroups (n : Z) (c : groupStoreConfig) : groupStoreConfig :=
  mkGroupStoreConfig n (gc_maxGroupMembers c).
Definition WithMaxGroupMembers (n : Z) (c : groupStoreConfig) : groupStoreConfig :=
  mkGroupStoreConfig (gc_maxGroups c) n.

Definition NewGroupStore (opts : list (option (groupStoreConfig → groupStoreConfig)))
    : error + GroupStore :=
  match apply_opts opts (mkGroupStoreConfig 1024 defaultMaxGroupMembers) with
  | inl i => inl (nilOptionAt "memory.NewGroupStore" i)
  | inr cfg =>
      match checkRange (Sentinel ErrInvalidCapacity) "memory.WithMaxGroups"
              (gc_maxGroups cfg) 1 maxGroupsCeiling with
      | Some err => inl err
      | None =>
          match checkRange (Sentinel ErrInvalidCapacity) "memory.WithMaxGroupMembers"
                  (gc_maxGroupMembers cfg) 1 maxGroupMembersCeiling with
          | Some err => inl err
          | None => inr (mkGroupStore ∅ (gc_maxGroups cfg) (gc_maxGroupMembers cfg))
          end
      end
  end.

Definition set_group (s : GroupStore) (key : string) (g : groupState) : GroupStore :=
  mkGroupStore (<[key := g]> (gs_groups s)) (gs_maxGroups s) (gs_maxGroupMembers s).
Definition delete_group (s : GroupStore) (key : string) : GroupStore :=
  mkGroupStore (delete key (gs_groups s)) (gs_maxGroups s) (gs_maxGroupMembers s).

Definition live_snapshot (key : string) (g : groupState) : MessageGroup :=
  mkGroup key (drop (g_claimedLen g) (g_msgs g)) (g_createdAt g).

Definition GroupStore_Add (now : Z) (s : GroupStore) (key : string) (m : msg)
    : (groupRef * option error) * GroupStore :=
  match
    match gs_groups s !! key with
    | Some g => inr (s, g)
    | None =>
        if gs_maxGroups s <=? Z.of_nat (size (gs_groups s)) then
          inl (Errorf [Sentinel ErrOverflowDropped]
            [FStr "memory.GroupStore.Add: new group rejected"; FStr key;
             FInt (Z.of_nat (size (gs_groups s))); FInt (gs_maxGroups s)])
        else
          let g := mkGroupState [] ∅ now 0 false 0 in
          inr (set_group s key g, g)
    end
  with
  | inl err => ((GNil, Some err), s)
  | inr (s, g) =>
      let id := ID m in
      if bool_decide (id ≠ "") && bool_decide (id ∈ g_ids g) then
        ((GVal (live_snapshot key g), None), s)
      else if gs_maxGroupMembers s <=? Z.of_nat (length (g_msgs g)) then
        let live := live_snapshot key g in
        let err := Errorf [Sentinel ErrOverflowDropped]
          [FStr "memory.GroupStore.Add: group full"; FStr key;
           FInt (Z.of_nat (length (g_msgs g))); FInt (gs_maxGroupMembers s)] in
        if negb (g_leased g) then ((GVal live, Permanent (Some err)), s)
        else ((GVal live, Some err), s)
      else
        let ids := if bool_decide (id ≠ "") then {[id]} ∪ g_ids g else g_ids g in
        let g := mkGroupState (g_msgs g ++ [m]) ids (g_createdAt g) (g_epoch g)
                   (g_leased g) (g_claimedLen g) in
        ((GVal (live_snapshot key g), None), set_group s key g)
  end.

Definition GroupStore_ClaimGroup (s : GroupStore) (key : string)
    : (option MessageGroupClaim * option error) * GroupStore :=
  match gs_groups s !! key with
  | None => ((None, None), s)
  | Some g =>
      if g_leased g then ((None, None), s)
      else
        let g := mkGroupState (g_msgs g) (g_ids g) (g_createdAt g)
                   (wrap64 (g_epoch g + 1)) true (length (g_msgs g)) in
        let claimed := take (g_claimedLen g) (g_msgs g) in
        ((Some (mkClaim (mkGroup key claimed (g_createdAt g)) (g_epoch g)), None),
         set_group s key g)
  end.

(** [for _, m := range msgs { if id := m.ID(); id != "" { delete(ids, id) } }] *)
Definition delete_ids (msgs : list msg) (ids : gset string) : gset string :=
  foldl (λ ids m, if bool_decide (ID m ≠ "") then ids ∖ {[ID m]} else ids) ids msgs.

Definition GroupStore_SettleGroup (now : Z) (s : GroupStore) (claim : MessageGroupClaim)
    : option error * GroupStore :=
  match gs_groups s !! clm_key claim with
  | None => (None, s)
  | Some g =>
      if negb (g_leased g) || negb (g_epoch g =? clm_epoch claim) then (None, s)
      else
        let ids := delete_ids (take (g_claimedLen g) (g_msgs g)) (g_ids g) in
        let residual := drop (g_claimedLen g) (g_msgs g) in
        match residual with
        | [] => (None, delete_group s (clm_key claim))
        | _ => (None, set_group s (clm_key claim)
                  (mkGroupState residual ids now (g_epoch g) false 0))
        end
  end.

Definition GroupStore_AbandonGroup (s : GroupStore) (claim : MessageGroupClaim)
    : option error * GroupStore :=
  match gs_groups s !! clm_key claim with
  | None => (None, s)
  | Some g =>
      if negb (g_leased g) || negb (g_epoch g =? clm_epoch claim) then (None, s)
      else (None, set_group s (clm_key claim)
              (mkGroupState (g_msgs g) (g_ids g) (g_createdAt g) (g_epoch g) false 0))
  end.

Definition GroupStore_Expired (s : GroupStore) (before : Z)
    : (list MessageGroup * option error) :=
  (omap (λ '(key, g),
     if (g_createdAt g <? before) && negb (g_leased g)
     then Some (mkGroup key (g_msgs g) (g_createdAt g)) else None)
     (map_to_list (gs_groups s)), None).

Definition GroupStore_RecoverInterval (s : GroupStore) : Z := 0.
Definition GroupStore_EmitsLiveValue (s : GroupStore) : bool := true.

(** ** The store's invariant *)

Definition nonempty_ids (msgs : list msg) : list string :=
  filter (λ i, i ≠ "") (ID <$> msgs).
Arguments nonempty_ids _ : simpl never.
Arguments delete_ids _ _ : simpl never.

Record wf_group (cap : Z) (g : groupState) : Prop := {
  wg_claimed : (g_claimedLen g ≤ length (g_msgs g))%nat;
  wg_unleased : g_leased g = false → g_claimedLen g = 0%nat;
  wg_nonempty : g_msgs g ≠ [];
  wg_ids : ∀ i, i ∈ g_ids g ↔ i ∈ nonempty_ids (g_msgs g);
  wg_nodup : NoDup (nonempty_ids (g_msgs g));
  wg_cap : Z.of_nat (length (g_msgs g)) ≤ cap
}.

Record wf_store (s : GroupStore) : Prop := {
  ws_groups : map_Forall (λ _ g, wf_group (gs_maxGroupMembers s) g) (gs_groups s);
  ws_size : Z.of_nat (size (gs_groups s)) ≤ gs_maxGroups s;
  ws_maxGroups : 1 ≤ gs_maxGroups s ≤ maxGroupsCeiling;
  ws_maxMembers : 1 ≤ gs_maxGroupMembers s ≤ maxGroupMembersCeiling
}.

(** ** The abstraction function *)

Definition abs_group (g : groupState) : agroup :=
  mkAGroup (drop (g_claimedLen g) (g_msgs g))
    (if g_leased g then Some (g_epoch g, take (g_claimedLen g) (g_msgs g)) else None)
    (g_epoch g).
Definition abs (s : GroupStore) : gmap string agroup := abs_group <$> gs_groups s.

(** *** Helper lemmas *)

Lemma nonempty_ids_app l1 l2 : nonempty_ids (l1 ++ l2) = nonempty_ids l1 ++ nonempty_ids l2.
Proof. unfold nonempty_ids. by rewrite fmap_app, list.filter_app. Qed.

Lemma nonempty_ids_one m : nonempty_ids [m] = if decide (ID m ≠ "") then [ID m] else [].
Proof. reflexivity. Qed.

Lemma elem_of_nonempty_ids i l : i ∈ nonempty_ids l ↔ i ≠ "" ∧ ∃ m, i = ID m ∧ m ∈ l.
Proof. unfold nonempty_ids. by rewrite list_elem_of_filter, list_elem_of_fmap. Qed.

Lemma elem_of_delete_ids l ids i :
  i ∈ delete_ids l ids ↔ i ∈ ids ∧ i ∉ nonempty_ids l.
Proof.
  revert ids. induction l as [|m l IH]; intros ids.
  - cbn. set_solver.
  - change (delete_ids (m :: l) ids) with
      (delete_ids l (if bool_decide (ID m ≠ "") then ids ∖ {[ID m]} else ids)).
    rewrite IH. change (m :: l) with ([m] ++ l). rewrite nonempty_ids_app, nonempty_ids_one.
    destruct (decide (ID m ≠ "")); [rewrite bool_decide_eq_true_2 by done|
      rewrite bool_decide_eq_false_2 by done]; set_solver.
Qed.

Lemma abs_members cap g : wf_group cap g → a_members (abs_group g) = g_msgs g.
Proof.
  intros [_ Hu _ _ _ _]. unfold a_members, a_claimed, abs_group. cbn.
  destruct (g_leased g); [apply take_drop|]. by rewrite Hu.
Qed.

Lemma abs_seen cap g m : wf_group cap g →
  a_seen (abs_group g) m = bool_decide (ID m ≠ "") && bool_decide (ID m ∈ g_ids g).
Proof.
  intros Hwf. unfold a_seen. rewrite (abs_members _ _ Hwf). apply eq_true_iff_eq.
  rewrite existsb_exists, andb_true_iff, !bool_decide_eq_true, (wg_ids _ _ Hwf),
    elem_of_nonempty_ids. unfold same_id. setoid_rewrite bool_decide_eq_true.
  setoid_rewrite <- list_elem_of_In. naive_solver.
Qed.

Lemma abs_lookup s key : abs s !! key = abs_group <$> gs_groups s !! key.
Proof. apply lookup_fmap. Qed.

Lemma abs_set_group s key g : abs (set_group s key g) = <[key := abs_group g]> (abs s).
Proof. apply fmap_insert. Qed.

Lemma abs_delete_group s key : abs (delete_group s key) = delete key (abs s).
Proof. apply fmap_delete. Qed.

Lemma abs_size s : size (abs s) = size (gs_groups s).
Proof. apply map_size_fmap. Qed.

(** Replacing or deleting a group keeps the store well formed. *)
Lemma wf_set_group s key g :
  wf_store s → is_Some (gs_groups s !! key) → wf_group (gs_maxGroupMembers s) g →
  wf_store (set_group s key g).
Proof.
  intros [Hg Hs H1 H2] Hk Hw. split; cbn; [|rewrite map_size_insert_Some by done; done|done|done].
  by apply map_Forall_insert_2.
Qed.

Lemma wf_new_group s key g :
  wf_store s → Z.of_nat (size (gs_groups s)) < gs_maxGroups s → gs_groups s !! key = None →
  wf_group (gs_maxGroupMembers s) g → wf_store (set_group s key g).
Proof.
  intros [Hg Hs H1 H2] Hlt Hk Hw. split; cbn; [|rewrite map_size_insert_None by done; lia|done|done].
  by apply map_Forall_insert_2.
Qed.

Lemma wf_delete_group s key : wf_store s → wf_store (delete_group s key).
Proof.
  intros [Hg Hs H1 H2]. split; cbn; [by apply map_Forall_delete| |done|done].
  pose proof (map_size_delete_le key (gs_groups s)). lia.
Qed.

(** Appending an unseen member to a group with room keeps it well formed; the
    group may be the fresh, still empty one. *)
Definition append_member (g : groupState) (m : msg) : groupState :=
  mkGroupState (g_msgs g ++ [m])
    (if bool_decide (ID m ≠ "") then {[ID m]} ∪ g_ids g else g_ids g)
    (g_createdAt g) (g_epoch g) (g_leased g) (g_claimedLen g).

Definition wf_or_fresh (cap : Z) (g : groupState) : Prop :=
  wf_group cap g ∨ ∃ now, g = mkGroupState [] ∅ now 0 false 0.

Lemma wf_append_member cap g m :
  wf_or_fresh cap g → Z.of_nat (length (g_msgs g)) < cap →
  bool_decide (ID m ≠ "") && bool_decide (ID m ∈ g_ids g) = false →
  wf_group cap (append_member g m).
Proof.
  intros Hg Hcap Hnew.
  assert ((g_claimedLen g ≤ length (g_msgs g))%nat ∧ (g_leased g = false → g_claimedLen g = 0%nat) ∧
    (∀ i, i ∈ g_ids g ↔ i ∈ nonempty_ids (g_msgs g)) ∧ NoDup (nonempty_ids (g_msgs g)))
    as (H1 & H2 & H3 & H4).
  { destruct Hg as [[]|[now ->]]; [done|]. cbn. repeat split; try done; try set_solver.
    constructor. }
  split; cbn; rewrite ?length_app; cbn; [lia|done| | | |lia].
  - by destruct (g_msgs g).
  - intros i. rewrite nonempty_ids_app, nonempty_ids_one, elem_of_app, <- H3.
    destruct (decide (ID m ≠ "")); [rewrite bool_decide_eq_true_2 by done|
      rewrite bool_decide_eq_false_2 by done]; set_solver.
  - rewrite nonempty_ids_app, nonempty_ids_one. apply list.NoDup_app. split; [done|].
    destruct (decide (ID m ≠ "")) as [Hne|]; [|split; [set_solver|constructor]].
    rewrite bool_decide_eq_true_2 in Hnew by done. cbn in Hnew. bool_to_prop.
    rewrite H3 in Hnew. split; [set_solver|]. apply NoDup_singleton.
Qed.

(** The group a Settle leaves behind. *)
Definition residual_group (now : Z) (g : groupState) : groupState :=
  mkGroupState (drop (g_claimedLen g) (g_msgs g))
    (delete_ids (take (g_claimedLen g) (g_msgs g)) (g_ids g)) now (g_epoch g) false 0.

Lemma wf_residual cap now g :
  wf_group cap g → drop (g_claimedLen g) (g_msgs g) ≠ [] → wf_group cap (residual_group now g).
Proof.
  intros [H1 H2 H3 H4 H5 H6] Hne. split; cbn; [lia|done|done| | |].
  - intros i. rewrite elem_of_delete_ids, H4.
    rewrite <- (take_drop (g_claimedLen g) (g_msgs g)), nonempty_ids_app in H5.
    apply list.NoDup_app in H5 as (_ & Hdis & _).
    rewrite <- (take_drop (g_claimedLen g) (g_msgs g)) at 1.
    rewrite nonempty_ids_app, elem_of_app. naive_solver.
  - rewrite <- (take_drop (g_claimedLen g) (g_msgs g)), nonempty_ids_app in H5.
    by apply list.NoDup_app in H5 as (_ & _ & ?).
  - rewrite length_drop. lia.
Qed.

(** Claiming or abandoning only changes the lease fields. *)
Lemma wf_release_lease cap g e l c :
  wf_group cap g → (c ≤ length (g_msgs g))%nat → (l = false → c = 0%nat) →
  wf_group cap (mkGroupState (g_msgs g) (g_ids g) (g_createdAt g) e l c).
Proof. intros [] ??. by split. Qed.

#[export] Hint Resolve wf_set_group wf_new_group wf_delete_group wf_append_member
  wf_residual wf_release_lease : msgin.

(** ** The contract: operations on the abstract machine *)

(** What an [Add] tells its caller: the live snapshot it returns, if any, and,
    on an error, whether it is the overflow class and whether it is permanent. *)
Definition add_view (r : groupRef * option error) : option (list msg) * option (bool * bool) :=
  (match r.1 with GVal g => Some (grp_messages g) | _ => None end,
   (λ e, (Is e ErrOverflowDropped, IsPermanent (Some e))) <$> r.2).

Definition a_leased (g : agroup) : bool := bool_decide (is_Some (a_claim g)).

Definition spec_Add (maxGroups maxMembers : Z) (a : gmap string agroup) (key : string) (m : msg)
    : (option (list msg) * option (bool * bool)) * gmap string agroup :=
  match a !! key with
  | None =>
      if maxGroups <=? Z.of_nat (size a) then ((None, Some (true, false)), a)
      else ((Some [m], None), <[key := mkAGroup [m] None 0]> a)
  | Some g =>
      if a_seen g m then ((Some (a_live g), None), a)
      else if maxMembers <=? Z.of_nat (length (a_members g)) then
        ((Some (a_live g), Some (true, negb (a_leased g))), a)
      else ((Some (a_live g ++ [m]), None), <[key := a_add g m]> a)
  end.

Definition spec_Claim (a : gmap string agroup) (key : string)
    : option (Z * list msg) * gmap string agroup :=
  match a !! key with
  | None => (None, a)
  | Some g =>
      if a_leased g then (None, a)
      else (Some (wrap64 (a_epoch g + 1), a_live g), <[key := a_take g]> a)
  end.

Definition spec_Settle (a : gmap string agroup) (key : string) (epoch : Z) : gmap string agroup :=
  match a !! key with
  | None => a
  | Some g =>
      match a_settle g epoch with
      | None => delete key a
      | Some g' => <[key := g']> a
      end
  end.

Definition spec_Abandon (a : gmap string agroup) (key : string) (epoch : Z) : gmap string agroup :=
  match a !! key with
  | None => a
  | Some g => <[key := a_abandon g epoch]> a
  end.

Definition claim_view (r : option MessageGroupClaim) : option (Z * list msg) :=
  (λ c, (clm_epoch c, clm_messages c)) <$> r.

(** The interface of groupstore.go. *)
Class MessageGroupStore (S : Type) := {
  Add : Z → S → string → msg → (groupRef * option error) * S;
  ClaimGroup : S → string → (option MessageGroupClaim * option error) * S;
  SettleGroup : Z → S → MessageGroupClaim → option error * S;
  AbandonGroup : S → MessageGroupClaim → option error * S;
  Expired : S → Z → list MessageGroup * option error;
  RecoverInterval : S → Z
}.

(** What an implementation promises its client: it runs the abstract machine,
    and an operation that reports an error of its own (not the overflow of an
    [Add]) leaves the groups alone. *)
Class MessageGroupStoreLaws (S : Type) `{MessageGroupStore S} := {
  store_ok : S → Prop;
  store_abs : S → gmap string agroup;
  cap_groups : S → Z;
  cap_members : S → Z;
  Add_law now s key m :
    store_ok s →
    let '(r, s') := Add now s key m in
    store_ok s' ∧ cap_groups s' = cap_groups s ∧ cap_members s' = cap_members s ∧
    ((∃ err, r.2 = Some err ∧ Is err ErrOverflowDropped = false ∧ store_abs s' = store_abs s) ∨
     (add_view r, store_abs s') = spec_Add (cap_groups s) (cap_members s) (store_abs s) key m);
  ClaimGroup_law s key :
    store_ok s →
    let '(r, s') := ClaimGroup s key in
    store_ok s' ∧ cap_groups s' = cap_groups s ∧ cap_members s' = cap_members s ∧
    ((∃ err, r = (None, Some err) ∧ store_abs s' = store_abs s) ∨
     (r.2 = None ∧ (∀ c, r.1 = Some c → clm_key c = key) ∧
      (claim_view r.1, store_abs s') = spec_Claim (store_abs s) key));
  SettleGroup_law now s c :
    store_ok s →
    let '(r, s') := SettleGroup now s c in
    store_ok s' ∧ cap_groups s' = cap_groups s ∧ cap_members s' = cap_members s ∧
    match r with
    | Some _ => store_abs s' = store_abs s
    | None => store_abs s' = spec_Settle (store_abs s) (clm_key c) (clm_epoch c)
    end;
  AbandonGroup_law s c :
    store_ok s →
    let '(r, s') := AbandonGroup s c in
    store_ok s' ∧ cap_groups s' = cap_groups s ∧ cap_members s' = cap_members s ∧
    match r with
    | Some _ => store_abs s' = store_abs s
    | None => store_abs s' = spec_Abandon (store_abs s) (clm_key c) (clm_epoch c)
    end
}.

(** ** The memory store keeps its invariant and runs the machine *)

Lemma lookup_wf s key g :
  wf_store s → gs_groups s !! key = Some g → wf_group (gs_maxGroupMembers s) g.
Proof. intros Hw Hk. by apply (ws_groups _ Hw key). Qed.

Lemma abs_leased g : a_leased (abs_group g) = g_leased g.
Proof. unfold a_leased, abs_group. cbn. by destruct (g_leased g). Qed.

Lemma set_group_twice s key g g' :
  set_group (set_group s key g) key g' = set_group s key g'.
Proof. unfold set_group. cbn. by rewrite insert_insert_eq. Qed.

Lemma abs_append_member g m :
  (g_claimedLen g ≤ length (g_msgs g))%nat →
  abs_group (append_member g m) = a_add (abs_group g) m.
Proof.
  intros Hc. unfold abs_group, append_member, a_add. cbn.
  rewrite drop_app_le, take_app_le by lia. done.
Qed.

(** [GroupStore_Add] on the branch where the group exists. *)
Lemma Add_existing now s key m g :
  wf_store s → gs_groups s !! key = Some g →
  let '(r, s') := GroupStore_Add now s key m in
  wf_store s' ∧ gs_maxGroups s' = gs_maxGroups s ∧
  gs_maxGroupMembers s' = gs_maxGroupMembers s ∧
  (add_view r, abs s') = spec_Add (gs_maxGroups s) (gs_maxGroupMembers s) (abs s) key m.
Proof.
  intros Hw Hk. pose proof (lookup_wf _ _ _ Hw Hk) as Hg.
  unfold GroupStore_Add, spec_Add. rewrite abs_lookup, Hk. cbn [fmap option_fmap option_map].
  rewrite (abs_seen _ _ m Hg), (abs_members _ _ Hg), abs_leased.
  destruct (_ && _) eqn:Hdup; [done|].
  destruct (_ <=? _) eqn:Hfull; [by destruct (g_leased g)|]. bool_to_prop.
  fold (append_member g m).
  split; [eapply wf_set_group; [done|by rewrite Hk|]; apply wf_append_member; [by left|lia|done]|].
  split; [done|]. split; [done|]. rewrite abs_set_group, <- abs_append_member by apply Hg.
  unfold add_view, live_snapshot. cbn. by rewrite drop_app_le by apply Hg.
Qed.

(** [GroupStore_Add] on the branch that opens the group. *)
Lemma Add_fresh now s key m :
  wf_store s → gs_groups s !! key = None →
  let '(r, s') := GroupStore_Add now s key m in
  wf_store s' ∧ gs_maxGroups s' = gs_maxGroups s ∧
  gs_maxGroupMembers s' = gs_maxGroupMembers s ∧
  (add_view r, abs s') = spec_Add (gs_maxGroups s) (gs_maxGroupMembers s) (abs s) key m.
Proof.
  intros Hw Hk. unfold GroupStore_Add, spec_Add.
  rewrite abs_lookup, Hk, abs_size. cbn [fmap option_fmap option_map].
  destruct (_ <=? _) eqn:Hmax; [done|]. bool_to_prop.
  cbv beta iota zeta. set (g0 := mkGroupState [] ∅ now 0 false 0).
  assert (ID m ∉ g_ids g0) as Hnew by (cbn; set_solver).
  pose proof (ws_maxMembers _ Hw) as Hmm.
  cbn [gs_maxGroupMembers set_group].
  rewrite (bool_decide_eq_false_2 _ Hnew), andb_false_r.
  replace (gs_maxGroupMembers s <=? Z.of_nat (length (g_msgs g0))) with false
    by (symmetry; apply Z.leb_gt; cbn; lia).
  fold (append_member g0 m). fold (set_group s key g0). rewrite set_group_twice.
  split; [apply wf_new_group; [done|lia|done|]|].
  { apply wf_append_member; [right; by exists now|cbn; lia|].
    by rewrite (bool_decide_eq_false_2 _ Hnew), andb_false_r. }
  split; [done|]. split; [done|]. by rewrite abs_set_group.
Qed.

Lemma wf_Add now s key m :
  wf_store s →
  let '(r, s') := GroupStore_Add now s key m in
  wf_store s' ∧ gs_maxGroups s' = gs_maxGroups s ∧
  gs_maxGroupMembers s' = gs_maxGroupMembers s ∧
  (add_view r, abs s') = spec_Add (gs_maxGroups s) (gs_maxGroupMembers s) (abs s) key m.
Proof.
  intros Hw. destruct (gs_groups s !! key) eqn:Hk; [by eapply Add_existing|by apply Add_fresh].
Qed.

Lemma wf_Claim s key :
  wf_store s →
  let '(r, s') := GroupStore_ClaimGroup s key in
  wf_store s' ∧ gs_maxGroups s' = gs_maxGroups s ∧
  gs_maxGroupMembers s' = gs_maxGroupMembers s ∧
  r.2 = None ∧ (∀ c, r.1 = Some c → clm_key c = key) ∧
  (claim_view r.1, abs s') = spec_Claim (abs s) key.
Proof.
  intros Hw. unfold GroupStore_ClaimGroup, spec_Claim. rewrite abs_lookup.
  destruct (gs_groups s !! key) as [g|] eqn:Hk; [|done]. cbn [fmap option_fmap option_map].
  pose proof (lookup_wf _ _ _ Hw Hk) as Hg. rewrite abs_leased.
  destruct (g_leased g) eqn:Hl; [done|].
  split; [eapply wf_set_group; [done|by rewrite Hk|]; by apply wf_release_lease|].
  split; [done|]. split; [done|]. split; [done|]. split; [by intros c [= <-]|].
  rewrite abs_set_group. unfold claim_view, abs_group, a_take. cbn.
  by rewrite (wg_unleased _ _ Hg Hl), drop_0, drop_all, firstn_all.
Qed.

Lemma abs_residual now g :
  abs_group (residual_group now g) =
  mkAGroup (drop (g_claimedLen g) (g_msgs g)) None (g_epoch g).
Proof. reflexivity. Qed.

Lemma wf_Settle now s c :
  wf_store s →
  let '(r, s') := GroupStore_SettleGroup now s c in
  wf_store s' ∧ gs_maxGroups s' = gs_maxGroups s ∧
  gs_maxGroupMembers s' = gs_maxGroupMembers s ∧
  r = None ∧ abs s' = spec_Settle (abs s) (clm_key c) (clm_epoch c).
Proof.
  intros Hw. unfold GroupStore_SettleGroup, spec_Settle, a_settle. rewrite abs_lookup.
  destruct (gs_groups s !! clm_key c) as [g|] eqn:Hk; [|done]. cbn [fmap option_fmap option_map].
  pose proof (lookup_wf _ _ _ Hw Hk) as Hg.
  assert (<[clm_key c := abs_group g]> (abs s) = abs s) as Hid
    by (apply insert_id; by rewrite abs_lookup, Hk).
  cbn [a_claim abs_group a_live]. destruct (g_leased g) eqn:Hl; cbn [negb orb]; [|done].
  destruct (g_epoch g =? clm_epoch c) eqn:He; cbn [negb]; [|done].
  fold (residual_group now g).
  destruct (drop _ _) as [|m l] eqn:Hres.
  - split; [by apply wf_delete_group|]. split; [done|]. split; [done|]. split; [done|].
    apply abs_delete_group.
  - rewrite <- Hres. split.
    { eapply wf_set_group; [done|by rewrite Hk|]. apply wf_residual; [done|congruence]. }
    split; [done|]. split; [done|]. split; [done|].
    by rewrite abs_set_group, abs_residual.
Qed.

Lemma wf_Abandon s c :
  wf_store s →
  let '(r, s') := GroupStore_AbandonGroup s c in
  wf_store s' ∧ gs_maxGroups s' = gs_maxGroups s ∧
  gs_maxGroupMembers s' = gs_maxGroupMembers s ∧
  r = None ∧ abs s' = spec_Abandon (abs s) (clm_key c) (clm_epoch c).
Proof.
  intros Hw. unfold GroupStore_AbandonGroup, spec_Abandon, a_abandon. rewrite abs_lookup.
  destruct (gs_groups s !! clm_key c) as [g|] eqn:Hk; [|done]. cbn [fmap option_fmap option_map].
  pose proof (lookup_wf _ _ _ Hw Hk) as Hg.
  assert (<[clm_key c := abs_group g]> (abs s) = abs s) as Hid
    by (apply insert_id; by rewrite abs_lookup, Hk).
  cbn [a_claim abs_group a_live]. destruct (g_leased g) eqn:Hl; cbn [negb orb]; [|done].
  destruct (g_epoch g =? clm_epoch c) eqn:He; cbn [negb]; [|done].
  split; [eapply wf_set_group; [done|by rewrite Hk|]; apply wf_release_lease; [done|lia|done]|].
  split; [done|]. split; [done|]. split; [done|].
  rewrite abs_set_group. unfold abs_group. cbn. by rewrite take_drop.
Qed.

#[export] Instance GroupStore_MessageGroupStore : MessageGroupStore GroupStore := {|
  Add := GroupStore_Add;
  ClaimGroup := GroupStore_ClaimGroup;
  SettleGroup := GroupStore_SettleGroup;
  AbandonGroup := GroupStore_AbandonGroup;
  Expired := GroupStore_Expired;
  RecoverInterval := GroupStore_RecoverInterval
|}.

#[export] Instance GroupStore_Laws : MessageGroupStoreLaws GroupStore.
Proof.
  refine {| store_ok := wf_store; store_abs := abs;
            cap_groups := gs_maxGroups; cap_members := gs_maxGroupMembers |}; cbn.
  - intros now s key m Hw. pose proof (wf_Add now s key m Hw) as H.
    destruct (GroupStore_Add _ _ _ _). naive_solver.
  - intros s key Hw. pose proof (wf_Claim s key Hw) as H.
    destruct (GroupStore_ClaimGroup _ _). naive_solver.
  - intros now s c Hw. pose proof (wf_Settle now s c Hw) as H.
    destruct (GroupStore_SettleGroup _ _ _). naive_solver.
  - intros s c Hw. pose proof (wf_Abandon s c Hw) as H.
    destruct (GroupStore_AbandonGroup _ _). naive_solver.
Defined.

(** ** Executions: any interleaving of the operations *)

Inductive gop : Type :=
  | OpAdd (now : Z) (key : string) (m : msg)
  | OpClaim (key : string)
  | OpSettle (now : Z) (c : MessageGroupClaim)
  | OpAbandon (c : MessageGroupClaim).

(** What a caller observes of one operation. *)
Inductive gobs : Type :=
  | ObAdd (v : option (list msg) * option (bool * bool))
  | ObClaim (v : option (Z * list msg))
  | ObDone (err : option error).

Definition run_op (s : GroupStore) (o : gop) : gobs * GroupStore :=
  match o with
  | OpAdd now key m => let '(r, s') := GroupStore_Add now s key m in (ObAdd (add_view r), s')
  | OpClaim key => let '(r, s') := GroupStore_ClaimGroup s key in (ObClaim (claim_view r.1), s')
  | OpSettle now c => let '(r, s') := GroupStore_SettleGroup now s c in (ObDone r, s')
  | OpAbandon c => let '(r, s') := GroupStore_AbandonGroup s c in (ObDone r, s')
  end.

Definition spec_op (mg mm : Z) (a : gmap string agroup) (o : gop) : gobs * gmap string agroup :=
  match o with
  | OpAdd _ key m => let '(r, a') := spec_Add mg mm a key m in (ObAdd r, a')
  | OpClaim key => let '(r, a') := spec_Claim a key in (ObClaim r, a')
  | OpSettle _ c => (ObDone None, spec_Settle a (clm_key c) (clm_epoch c))
  | OpAbandon c => (ObDone None, spec_Abandon a (clm_key c) (clm_epoch c))
  end.

Fixpoint run_ops (s : GroupStore) (ops : list gop) : list gobs * GroupStore :=
  match ops with
  | [] => ([], s)
  | o :: ops =>
      let '(r, s) := run_op s o in
      let '(rs, s) := run_ops s ops in (r :: rs, s)
  end.

Fixpoint spec_ops (mg mm : Z) (a : gmap string agroup) (ops : list gop)
    : list gobs * gmap string agroup :=
  match ops with
  | [] => ([], a)
  | o :: ops =>
      let '(r, a) := spec_op mg mm a o in
      let '(rs, a) := spec_ops mg mm a ops in (r :: rs, a)
  end.

Lemma wf_run_op s o :
  wf_store s →
  let '(r, s') := run_op s o in
  wf_store s' ∧ gs_maxGroups s' = gs_maxGroups s ∧
  gs_maxGroupMembers s' = gs_maxGroupMembers s ∧
  (r, abs s') = spec_op (gs_maxGroups s) (gs_maxGroupMembers s) (abs s) o.
Proof.
  intros Hw. destruct o as [now key m|key|now c|c]; cbn.
  - pose proof (wf_Add now s key m Hw) as H. destruct (GroupStore_Add _ _ _ _) as [r s'].
    destruct H as (? & ? & ? & <-). done.
  - pose proof (wf_Claim s key Hw) as H. destruct (GroupStore_ClaimGroup _ _) as [r s'].
    destruct H as (? & ? & ? & _ & _ & <-). done.
  - pose proof (wf_Settle now s c Hw) as H. destruct (GroupStore_SettleGroup _ _ _) as [r s'].
    destruct H as (? & ? & ? & -> & <-). done.
  - pose proof (wf_Abandon s c Hw) as H. destruct (GroupStore_AbandonGroup _ _) as [r s'].
    destruct H as (? & ? & ? & -> & <-). done.
Qed.

Lemma run_ops_sim s ops :
  wf_store s →
  let '(rs, s') := run_ops s ops in
  wf_store s' ∧ gs_maxGroups s' = gs_maxGroups s ∧
  gs_maxGroupMembers s' = gs_maxGroupMembers s ∧
  (rs, abs s') = spec_ops (gs_maxGroups s) (gs_maxGroupMembers s) (abs s) ops.
Proof.
  revert s. induction ops as [|o ops IH]; intros s Hw; [done|]. cbn.
  pose proof (wf_run_op s o Hw) as H. destruct (run_op s o) as [r s1].
  destruct H as (Hw1 & E1 & E2 & <-). specialize (IH s1 Hw1).
  destruct (run_ops s1 ops) as [rs s2]. destruct IH as (Hw2 & E3 & E4 & IH).
  rewrite E1, E2 in IH. rewrite <- IH. split; [done|]. split; [congruence|]. split; [congruence|done].
Qed.

Lemma wf_new_store mg mm :
  1 ≤ mg ≤ maxGroupsCeiling → 1 ≤ mm ≤ maxGroupMembersCeiling → wf_store (mkGroupStore ∅ mg mm).
Proof. intros ??. split; cbn; [apply map_Forall_empty|rewrite map_size_empty; lia|done|done]. Qed.

Lemma NewGroupStore_wf opts s :
  NewGroupStore opts = inr s → wf_store s ∧ gs_groups s = ∅.
Proof.
  unfold NewGroupStore. destruct (apply_opts _ _) as [i|cfg]; [done|].
  destruct (checkRange _ "memory.WithMaxGroups" _ _ _) eqn:E1; [done|].
  destruct (checkRange _ "memory.WithMaxGroupMembers" _ _ _) eqn:E2; [done|].
  intros [= <-]. split; [|done]. apply wf_new_store; by eapply checkRange_ok.
Qed.

(** ** Conservation: what enters a group leaves it by a settlement only *)

Definition retained (a : gmap string agroup) : list msg :=
  concat (a_members <$> (map_to_list a).*2).

Definition accepts (mg mm : Z) (a : gmap string agroup) (key : string) (m : msg) : bool :=
  match a !! key with
  | None => negb (mg <=? Z.of_nat (size a))
  | Some g => negb (a_seen g m) && negb (mm <=? Z.of_nat (length (a_members g)))
  end.

Definition settles (a : gmap string agroup) (key : string) (epoch : Z) : list msg :=
  match a !! key ≫= a_claim with
  | Some (e, c) => if e =? epoch then c else []
  | None => []
  end.

(** The members an operation takes in, and those it removes. *)
Definition op_in (mg mm : Z) (a : gmap string agroup) (o : gop) : list msg :=
  match o with OpAdd _ key m => if accepts mg mm a key m then [m] else [] | _ => [] end.
Definition op_out (a : gmap string agroup) (o : gop) : list msg :=
  match o with OpSettle _ c => settles a (clm_key c) (clm_epoch c) | _ => [] end.

(** The members taken in and removed along an execution of the store. *)
Fixpoint ledger (s : GroupStore) (ops : list gop) : list msg * list msg :=
  match ops with
  | [] => ([], [])
  | o :: ops =>
      let '(ins, outs) := ledger (run_op s o).2 ops in
      (op_in (gs_maxGroups s) (gs_maxGroupMembers s) (abs s) o ++ ins, op_out (abs s) o ++ outs)
  end.

Lemma retained_insert_None a key g :
  a !! key = None → retained (<[key := g]> a) ≡ₚ a_members g ++ retained a.
Proof. intros H. unfold retained. by rewrite map_to_list_insert. Qed.

Lemma retained_delete a key g :
  a !! key = Some g → retained a ≡ₚ a_members g ++ retained (delete key a).
Proof.
  intros H. rewrite <- (insert_delete_id a key g) at 1 by done.
  by rewrite retained_insert_None by apply lookup_delete_eq.
Qed.

Lemma retained_insert_Some a key g g' :
  a !! key = Some g → retained (<[key := g']> a) ≡ₚ a_members g' ++ retained (delete key a).
Proof.
  intros H. rewrite <- insert_delete_eq. apply retained_insert_None, lookup_delete_eq.
Qed.

(** One operation balances. *)
Lemma spec_op_balance mg mm a o :
  op_in mg mm a o ++ retained a ≡ₚ op_out a o ++ retained (spec_op mg mm a o).2.
Proof.
  destruct o as [now key m|key|now c|c]; cbn.
  - unfold accepts, spec_Add. destruct (a !! key) as [g|] eqn:Hk.
    + destruct (a_seen g m); [done|]. destruct (mm <=? _); [done|]. cbn.
      rewrite (retained_insert_Some _ _ _ _ Hk), (retained_delete _ _ _ Hk) at 1.
      unfold a_members, a_add, a_claimed. cbn. rewrite !app_assoc, <- Permutation_cons_append. done.
    + destruct (mg <=? _); [done|]. cbn. by rewrite retained_insert_None by done.
  - unfold spec_Claim. destruct (a !! key) as [g|] eqn:Hk; [|done].
    unfold a_leased. case_bool_decide as Hl; [done|]. cbn.
    rewrite (retained_insert_Some _ _ _ _ Hk), (retained_delete _ _ _ Hk) at 1.
    unfold a_members, a_claimed, a_take. cbn. rewrite app_nil_r.
    destruct (a_claim g); [naive_solver|done].
  - unfold settles, spec_Settle, a_settle. destruct (a !! clm_key c) as [g|] eqn:Hk; [|done]. cbn.
    destruct (a_claim g) as [[e cl]|] eqn:Hc; [|by rewrite insert_id by done].
    destruct (e =? clm_epoch c); [|by rewrite insert_id by done].
    destruct (a_live g) as [|m l] eqn:Hlive.
    + rewrite (retained_delete _ _ _ Hk) at 1. unfold a_members, a_claimed.
      by rewrite Hc, Hlive, app_nil_r.
    + rewrite (retained_insert_Some _ _ _ _ Hk), (retained_delete _ _ _ Hk) at 1.
      unfold a_members, a_claimed. rewrite Hc, Hlive. cbn. by rewrite <- app_assoc.
  - unfold spec_Abandon, a_abandon. destruct (a !! clm_key c) as [g|] eqn:Hk; [|done].
    destruct (a_claim g) as [[e cl]|] eqn:Hc; [|by rewrite insert_id by done].
    destruct (e =? clm_epoch c); [|by rewrite insert_id by done].
    rewrite (retained_insert_Some _ _ _ _ Hk), (retained_delete _ _ _ Hk) at 1.
    unfold a_members, a_claimed. by rewrite Hc.
Qed.

Lemma Permutation_balance {A} (i1 o1 ins outs r0 r1 r2 : list A) :
  i1 ++ r0 ≡ₚ o1 ++ r1 → ins ++ r1 ≡ₚ outs ++ r2 →
  (i1 ++ ins) ++ r0 ≡ₚ (o1 ++ outs) ++ r2.
Proof.
  intros H1 H2. transitivity (ins ++ (i1 ++ r0)).
  { rewrite (Permutation_app_comm i1), <- app_assoc. done. }
  rewrite H1. transitivity (o1 ++ (ins ++ r1)).
  { rewrite !app_assoc. by rewrite (Permutation_app_comm ins). }
  by rewrite H2, app_assoc.
Qed.

Lemma ledger_balance s ops :
  wf_store s →
  let '(ins, outs) := ledger s ops in
  ins ++ retained (abs s) ≡ₚ outs ++ retained (abs (run_ops s ops).2).
Proof.
  revert s. induction ops as [|o ops IH]; intros s Hw; [cbn; reflexivity|]. cbn.
  pose proof (wf_run_op s o Hw) as H. destruct (run_op s o) as [r s1] eqn:Ho.
  destruct H as (Hw1 & E1 & E2 & H). specialize (IH s1 Hw1).
  pose proof (spec_op_balance (gs_maxGroups s) (gs_maxGroupMembers s) (abs s) o) as Hb.
  rewrite <- H in Hb. cbn in Hb. cbn. destruct (ledger s1 ops) as [ins outs].
  destruct (run_ops s1 ops) as [rs s2]. cbn in *.
  by apply Permutation_balance with (retained (abs s1)).
Qed.

(** ** Leases *)

(** The operations that end the lease of claim [c]. *)
Definition closes (c : MessageGroupClaim) (o : gop) : Prop :=
  match o with
  | OpSettle _ c' | OpAbandon c' => clm_key c' = clm_key c ∧ clm_epoch c' = clm_epoch c
  | _ => False
  end.

Definition leased_as (a : gmap string agroup) (key : string) (e : Z) (ms : list msg) : Prop :=
  ∃ g, a !! key = Some g ∧ a_claim g = Some (e, ms).

Lemma leased_as_step mg mm a o c :
  leased_as a (clm_key c) (clm_epoch c) (clm_messages c) → ¬ closes c o →
  leased_as (spec_op mg mm a o).2 (clm_key c) (clm_epoch c) (clm_messages c).
Proof.
  intros (g & Hk & Hc) Hn. destruct o as [now key m|key|now c'|c']; cbn.
  - unfold spec_Add. destruct (a !! key) as [g'|] eqn:Hk'.
    + destruct (a_seen g' m); [by exists g|]. destruct (mm <=? _); [by exists g|]. cbn.
      destruct (decide (key = clm_key c)) as [->|]; [|exists g; by rewrite lookup_insert_ne].
      simplify_eq. eexists. rewrite lookup_insert_eq. by split.
    + destruct (mg <=? _); [by exists g|]. exists g. cbn.
      rewrite lookup_insert_ne by congruence. done.
  - unfold spec_Claim. destruct (a !! key) as [g'|] eqn:Hk'; [|by exists g].
    destruct (decide (key = clm_key c)) as [->|].
    + simplify_eq. unfold a_leased. rewrite bool_decide_eq_true_2 by (by rewrite Hc). by exists g.
    + destruct (a_leased g'); exists g; cbn; [done|by rewrite lookup_insert_ne].
  - unfold spec_Settle. destruct (a !! clm_key c') as [g'|] eqn:Hk'; [|by exists g].
    destruct (decide (clm_key c' = clm_key c)) as [E|].
    + rewrite E in *. simplify_eq. unfold a_settle. rewrite Hc.
      destruct (Z.eqb_spec (clm_epoch c) (clm_epoch c')); [cbn in Hn; naive_solver|].
      exists g. by rewrite lookup_insert_eq.
    + destruct (a_settle g' (clm_epoch c')); exists g; [by rewrite lookup_insert_ne|].
      by rewrite lookup_delete_ne.
  - unfold spec_Abandon. destruct (a !! clm_key c') as [g'|] eqn:Hk'; [|by exists g].
    destruct (decide (clm_key c' = clm_key c)) as [E|].
    + rewrite E in *. simplify_eq. unfold a_abandon. rewrite Hc.
      destruct (Z.eqb_spec (clm_epoch c) (clm_epoch c')); [cbn in Hn; naive_solver|].
      exists g. by rewrite lookup_insert_eq.
    + exists g. by rewrite lookup_insert_ne.
Qed.

Lemma leased_as_run c ops s :
  wf_store s → leased_as (abs s) (clm_key c) (clm_epoch c) (clm_messages c) →
  Forall (λ o, ¬ closes c o) ops →
  wf_store (run_ops s ops).2 ∧
  leased_as (abs (run_ops s ops).2) (clm_key c) (clm_epoch c) (clm_messages c).
Proof.
  revert s. induction ops as [|o ops IH]; intros s Hw Hl Hops; [done|]. cbn.
  apply Forall_cons_1 in Hops as [Ho Hops].
  pose proof (wf_run_op s o Hw) as H. destruct (run_op s o) as [r s1].
  destruct H as (Hw1 & _ & _ & H).
  pose proof (leased_as_step (gs_maxGroups s) (gs_maxGroupMembers s) _ _ _ Hl Ho) as Hl1.
  rewrite <- H in Hl1. specialize (IH s1 Hw1 Hl1 Hops).
  by destruct (run_ops s1 ops).
Qed.

Lemma Claim_leases s key c s' :
  wf_store s → GroupStore_ClaimGroup s key = ((Some c, None), s') →
  wf_store s' ∧ clm_key c = key ∧ leased_as (abs s') key (clm_epoch c) (clm_messages c).
Proof.
  intros Hw E. pose proof (wf_Claim s key Hw) as H. rewrite E in H.
  destruct H as (Hw' & _ & _ & _ & Hk & H). split; [done|]. split; [by apply Hk|].
  unfold spec_Claim in H. destruct (abs s !! key) as [g|]; [|done].
  destruct (a_leased g); [done|]. cbn in H. injection H as -> Hm Ha.
  exists (a_take g). rewrite Ha, lookup_insert_eq. unfold a_take. by rewrite Hm.
Qed.

Lemma Claim_of_leased s key e ms :
  wf_store s → leased_as (abs s) key e ms → (GroupStore_ClaimGroup s key).1 = (None, None).
Proof.
  intros Hw (g & Hk & Hc). unfold GroupStore_ClaimGroup. rewrite abs_lookup in Hk.
  destruct (gs_groups s !! key) as [g'|]; [|done]. cbn in Hk. injection Hk as <-.
  cbn in Hc. by destruct (g_leased g').
Qed.

(** ** The store's properties *)

(** C2. Every execution of the in-memory group store, from its construction on
    and under any interleaving of Add, ClaimGroup, SettleGroup and
    AbandonGroup, returns what the abstract group machine of the
    MessageGroupStore contract returns, ends in the state of the machine, and
    keeps the store's invariant. *)
Theorem group_store_refines opts s0 ops :
  NewGroupStore opts = inr s0 →
  let '(rs, s') := run_ops s0 ops in
  wf_store s' ∧
  (rs, abs s') = spec_ops (gs_maxGroups s0) (gs_maxGroupMembers s0) ∅ ops.
Proof.
  intros [Hw E]%NewGroupStore_wf. pose proof (run_ops_sim s0 ops Hw) as H.
  destruct (run_ops s0 ops) as [rs s']. destruct H as (Hw' & _ & _ & H).
  split; [done|]. rewrite H. unfold abs. by rewrite E, fmap_empty.
Qed.

Definition demo_store : GroupStore := mkGroupStore ∅ 1024 defaultMaxGroupMembers.
Definition demo_ops : list gop :=
  [OpAdd 5 "k" (sample "a"); OpAdd 6 "k" (sample "b"); OpClaim "k"; OpAdd 7 "k" (sample "c");
   OpSettle 8 (mkClaim (mkGroup "k" [sample "a"; sample "b"] 5) 1)].

Lemma group_store_refines_witness :
  let '(rs, s') := run_ops demo_store demo_ops in
  wf_store s' ∧
  (rs, abs s') = spec_ops 1024 defaultMaxGroupMembers ∅ demo_ops.
Proof. apply (group_store_refines [] demo_store demo_ops). vm_compute. reflexivity. Defined.

(** Conservation: in every execution from an empty store, the members
    accepted by Add are, as a multiset, exactly the members removed by
    settlements together with those still retained (live or claimed): nothing
    is lost, duplicated or removed by a claim, an abandon or a refused Add. *)
Theorem group_store_conserves opts s0 ops :
  NewGroupStore opts = inr s0 →
  let '(ins, outs) := ledger s0 ops in
  ins ≡ₚ outs ++ retained (abs (run_ops s0 ops).2).
Proof.
  intros [Hw E]%NewGroupStore_wf. pose proof (ledger_balance s0 ops Hw) as H.
  destruct (ledger s0 ops) as [ins outs]. rewrite <- H.
  unfold retained, abs. by rewrite E, fmap_empty, map_to_list_empty, app_nil_r.
Qed.

Lemma group_store_conserves_witness :
  let '(ins, outs) := ledger demo_store demo_ops in
  ins ≡ₚ outs ++ retained (abs (run_ops demo_store demo_ops).2).
Proof. apply (group_store_conserves [] demo_store demo_ops). vm_compute. reflexivity. Defined.

(** A lease is exclusive and frozen: after a successful ClaimGroup and any
    operations that do not settle or abandon that claim, a further claim of
    the key is refused, and settling the claim removes exactly the members it
    was granted, whatever was added meanwhile. *)
Theorem lease_exclusive s key c s1 ops now :
  wf_store s →
  GroupStore_ClaimGroup s key = ((Some c, None), s1) →
  Forall (λ o, ¬ closes c o) ops →
  let s2 := (run_ops s1 ops).2 in
  (GroupStore_ClaimGroup s2 key).1 = (None, None) ∧
  op_out (abs s2) (OpSettle now c) = clm_messages c.
Proof.
  intros Hw Hc Hops. destruct (Claim_leases _ _ _ _ Hw Hc) as (Hw1 & <- & Hl).
  destruct (leased_as_run c ops s1 Hw1 Hl Hops) as [Hw2 Hl2]. cbn.
  split; [by eapply Claim_of_leased|].
  destruct Hl2 as (g & Hk & Hg). unfold settles. rewrite Hk. cbn. by rewrite Hg, Z.eqb_refl.
Qed.

Definition demo_two : GroupStore := (run_ops demo_store (take 2 demo_ops)).2.
Definition demo_claim : MessageGroupClaim := mkClaim (mkGroup "k" [sample "a"; sample "b"] 5) 1.

Lemma demo_two_wf : wf_store demo_two.
Proof.
  pose proof (run_ops_sim demo_store (take 2 demo_ops)
    (proj1 (NewGroupStore_wf [] demo_store eq_refl))) as H.
  unfold demo_two. destruct (run_ops _ _). apply H.
Qed.

Lemma lease_exclusive_witness :
  let s2 := (run_ops (GroupStore_ClaimGroup demo_two "k").2 [OpAdd 7 "k" (sample "c")]).2 in
  (GroupStore_ClaimGroup s2 "k").1 = (None, None) ∧
  op_out (abs s2) (OpSettle 9 demo_claim) = clm_messages demo_claim.
Proof.
  apply (lease_exclusive demo_two "k" demo_claim); [apply demo_two_wf|vm_compute; reflexivity|].
  repeat constructor. cbn. tauto.
Defined.

(** Both caps hold in every reachable state: never more than maxGroups
    groups, and in each group never more members, claimed ones included, than
    maxGroupMembers; both are at most 2^20. *)
Theorem group_store_bounded opts s0 ops :
  NewGroupStore opts = inr s0 →
  let s' := (run_ops s0 ops).2 in
  Z.of_nat (size (gs_groups s')) ≤ gs_maxGroups s0 ≤ 2 ^ 20 ∧
  gs_maxGroupMembers s0 ≤ 2 ^ 20 ∧
  ∀ key g, gs_groups s' !! key = Some g →
    (0 < length (g_msgs g))%nat ∧ Z.of_nat (length (g_msgs g)) ≤ gs_maxGroupMembers s0.
Proof.
  intros [Hw E]%NewGroupStore_wf. pose proof (run_ops_sim s0 ops Hw) as H.
  destruct (run_ops s0 ops) as [rs s']. destruct H as (Hw' & E1 & E2 & _). cbn.
  pose proof (ws_maxGroups _ Hw) as [_ Hg]. pose proof (ws_maxMembers _ Hw) as [_ Hm].
  pose proof (ws_size _ Hw'). change (2 ^ 20) with maxGroupsCeiling.
  split; [lia|]. split; [done|]. intros key g Hk. pose proof (lookup_wf _ _ _ Hw' Hk) as [].
  split; [|congruence]. destruct (g_msgs g); [done|cbn; lia].
Qed.

Lemma group_store_bounded_witness :
  let s' := (run_ops demo_store demo_ops).2 in
  Z.of_nat (size (gs_groups s')) ≤ 1024 ≤ 2 ^ 20 ∧
  defaultMaxGroupMembers ≤ 2 ^ 20 ∧
  ∀ key g, gs_groups s' !! key = Some g →
    (0 < length (g_msgs g))%nat ∧ Z.of_nat (length (g_msgs g)) ≤ defaultMaxGroupMembers.
Proof. apply (group_store_bounded [] demo_store demo_ops). vm_compute. reflexivity. Defined.

(** The fence does not cover a claim that was already settled: the epoch
    restarts when a settlement empties the group, so settling the first claim
    a second time removes the members of a later claim on the same key, which
    is still in flight. *)
Theorem settled_claim_reused :
  ∃ s (c1 c2 : MessageGroupClaim),
    (ledger demo_store [OpAdd 1 "k" (sample "a"); OpClaim "k"; OpSettle 2 c1;
                        OpAdd 3 "k" (sample "b"); OpClaim "k"; OpSettle 4 c1]).2
      = clm_messages c1 ++ clm_messages c2 ∧
    (run_ops demo_store [OpAdd 1 "k" (sample "a"); OpClaim "k"; OpSettle 2 c1;
                         OpAdd 3 "k" (sample "b")]).2 = s ∧
    (GroupStore_ClaimGroup s "k").1 = (Some c2, None) ∧ clm_messages c2 = [sample "b"] ∧
    clm_messages c1 = [sample "a"].
Proof.
  eexists _, (mkClaim (mkGroup "k" [sample "a"] 1) 1), (mkClaim (mkGroup "k" [sample "b"] 3) 1).
  split; [vm_compute; reflexivity|]. split; [reflexivity|].
  split; [vm_compute; reflexivity|]. by split.
Qed.
