(* ===== verification/Flow.v ===== *)
(** * Pipes and filters: handlers, steps and the linear endpoints

    Models handler.go (MessageHandler, Chain, To), transform/transformer.go,
    routing/predicate.go, filter.go, router.go and splitter.go, and
    endpoint/activator.go.

    A handler runs on the caller's goroutine: it is a computation over the
    state [W] of everything its flow touches, which returns an error or nil,
    or panics.  A nil Go function, channel or step is [None].  A context is
    passed along unread by all of this code and is left out. *)

From S2P Require Import Prelude Message.
From stdpp Require Import pretty.
Local Open Scope Z_scope.


(** ** handler.go *)

Definition MessageHandler (W : Type) : Type := msg → M W (option error).

(** The [Send] of an outbound adapter or message channel. *)
Definition Sender (W : Type) : Type := msg → M W (option error).

(** A possibly nil [Step]. *)
Definition Step (W : Type) : Type := option (MessageHandler W → MessageHandler W).

Section handlers.
Context {W : Type}.

Definition discardHandler : MessageHandler W := λ _, mret None.

(** A handler that always fails with [Permanent(s)] at a position. *)
Definition failing (s : sentinel) (args : list fmtarg) : MessageHandler W :=
  λ _, mret (Some (Errorf [permanentError (Sentinel s)] args)).

Definition nilFuncStep (position : string) : MessageHandler W → MessageHandler W :=
  λ _, failing ErrNilFunc [FStr position].

(** The loop of [Chain], from the step at index [i] on; the last step's next
    is [next]. *)
Fixpoint chain_from (i : nat) (steps : list (Step W)) (next : MessageHandler W)
    : MessageHandler W :=
  match steps with
  | [] => next
  | s :: rest =>
      let inner := chain_from (S i) rest next in
      match s with
      | Some step => step inner
      | None => failing ErrNilFunc [FStr "msgin.Chain: nil step at index"; FInt (Z.of_nat i)]
      end
  end.

Definition Chain (steps : list (Step W)) : MessageHandler W :=
  chain_from 0 steps discardHandler.

Definition To (sink : option (Sender W)) : Step W :=
  Some (λ _ m,
    match sink with
    | None => failing ErrNilSink [FStr "msgin.To: nil sink"] m
    | Some send => send m
    end).

(** ** transform, activate and consume *)

Definition Transform {A B} `{GoType A, GoType B}
    (fn : option (Message A → M W (error + Message B))) : Step W :=
  Some (match fn with
  | None => nilFuncStep "transform.Transform: nil fn"
  | Some fn => λ next msg,
      match PayloadOf msg with
      | inl err => mret (Some err)
      | inr m =>
          r ← fn m;
          match r with
          | inl err => mret (Some err)
          | inr out => next (boxMessage out)
          end
      end
  end).

Definition Activate {A B} `{GoType A, GoType B}
    (svc : option (Message A → M W (error + Message B))) : Step W :=
  Some (match svc with
  | None => nilFuncStep "endpoint.Activate: nil svc"
  | Some svc => λ next msg,
      match PayloadOf msg with
      | inl err => mret (Some err)
      | inr m =>
          r ← svc m;
          match r with
          | inl err => mret (Some err)
          | inr reply => next (boxMessage reply)
          end
      end
  end).

Definition Consume {A} `{GoType A} (svc : option (Message A → M W (option error))) : Step W :=
  Some (match svc with
  | None => nilFuncStep "endpoint.Consume: nil svc"
  | Some svc => λ _ msg,
      match PayloadOf msg with
      | inl err => mret (Some err)
      | inr m => svc m
      end
  end).

(** ** routing/predicate.go *)

(** A non-nil predicate: the verdict or an error. *)
Definition PredicateFn (A : Type) : Type := Message A → M W (error + bool).
Definition Predicate (A : Type) : Type := option (PredicateFn A).

Definition nilPredicate {A} (position : string) : PredicateFn A :=
  λ _, mret (inl (permanentAt ErrNilFunc position)).

Definition And {A} (p q : Predicate A) : PredicateFn A :=
  match p, q with
  | None, _ => nilPredicate "routing.Predicate.And: nil receiver"
  | _, None => nilPredicate "routing.Predicate.And: nil argument"
  | Some p, Some q => λ m,
      r ← p m;
      match r with
      | inl err => mret (inl err)
      | inr false => mret (inr false)
      | inr true =>
          r ← q m;
          match r with
          | inl err => mret (inl err)
          | inr ok => mret (inr ok)
          end
      end
  end.

Definition Or {A} (p q : Predicate A) : PredicateFn A :=
  match p, q with
  | None, _ => nilPredicate "routing.Predicate.Or: nil receiver"
  | _, None => nilPredicate "routing.Predicate.Or: nil argument"
  | Some p, Some q => λ m,
      r ← p m;
      match r with
      | inl err => mret (inl err)
      | inr true => mret (inr true)
      | inr false =>
          r ← q m;
          match r with
          | inl err => mret (inl err)
          | inr ok => mret (inr ok)
          end
      end
  end.

Definition Not {A} (p : Predicate A) : PredicateFn A :=
  match p with
  | None => nilPredicate "routing.Predicate.Not: nil receiver"
  | Some p => λ m,
      r ← p m;
      match r with
      | inl err => mret (inl err)
      | inr ok => mret (inr (negb ok))
      end
  end.

(** ** routing/filter.go *)

Record filterConfig : Type := mkFilterConfig { fc_discard : option (Sender W) }.

Definition WithDiscardChannel (ch : option (Sender W)) (c : filterConfig) : filterConfig :=
  mkFilterConfig ch.

Definition Filter {A} `{GoType A} (pred : Predicate A)
    (opts : list (option (filterConfig → filterConfig))) : Step W :=
  Some (match apply_opts opts (mkFilterConfig None) with
  | inl i => λ _, failing ErrNilFunc [FStr "routing.Filter: nil option at index"; FInt (Z.of_nat i)]
  | inr cfg =>
      match pred with
      | None => nilFuncStep "routing.Filter: nil pred"
      | Some pred => λ next msg,
          match PayloadOf msg with
          | inl err => mret (Some err)
          | inr m =>
              r ← pred m;
              match r with
              | inl err => mret (Some err)
              | inr true => next msg
              | inr false =>
                  match fc_discard cfg with
                  | Some send => send msg
                  | None => mret None
                  end
              end
          end
      end
  end).

(** ** routing/router.go *)

Record Router : Type := mkRouter {
  rt_pick : option (msg → M W (error + option (Sender W)));
  rt_default : option (Sender W);
  rt_err : option error
}.

Definition WithDefaultChannel (ch : option (Sender W)) (c : option (Sender W))
    : option (Sender W) := ch.

(** The option loop of [NewRouter]: the first nil element latches an error,
    and the surviving options still apply. *)
Fixpoint router_opts (i : nat) (opts : list (option (option (Sender W) → option (Sender W))))
    (r : Router) : Router :=
  match opts with
  | [] => r
  | None :: rest =>
      router_opts (S i) rest
        (match rt_err r with
         | None => mkRouter (rt_pick r) (rt_default r)
             (Some (Errorf [permanentError (Sentinel ErrNilFunc)]
                      [FStr "routing.NewRouter"; FInt (Z.of_nat i)]))
         | Some _ => r
         end)
  | Some opt :: rest =>
      router_opts (S i) rest (mkRouter (rt_pick r) (opt (rt_default r)) (rt_err r))
  end.

Definition NewRouter (pick : option (msg → M W (error + option (Sender W))))
    (opts : list (option (option (Sender W) → option (Sender W)))) : Router :=
  router_opts 0 opts (mkRouter pick None None).

Definition Router_Handle (r : Router) : MessageHandler W := λ msg,
  match rt_err r with
  | Some err => mret (Some err)
  | None =>
      match rt_pick r with
      | None => failing ErrNilFunc [FStr "routing.Router.Handle: nil pick"] msg
      | Some pick =>
          p ← pick msg;
          match p with
          | inl err => mret (Some err)
          | inr (Some send) => send msg
          | inr None =>
              match rt_default r with
              | None => mret (Some (Sentinel ErrNoRoute))
              | Some send => send msg
              end
          end
      end
  end.

(** ** routing/splitter.go *)

(** [strconv.Itoa]. *)
Definition Itoa (n : Z) : string := pretty n.

Definition stampSequence {B} (child : Message B) (parent : msg) (num size : Z) : Message B :=
  let out := WithHeader (WithHeader child HeaderSequenceNumber (AInt num))
               HeaderSequenceSize (AInt size) in
  let pid := ID parent in
  if bool_decide (pid ≠ "") then
    let out := WithHeader out HeaderMessageID (AString (pid +:+ "#" +:+ Itoa num)) in
    match Header out HeaderCorrelationID with
    | Some _ => out
    | None => WithHeader out HeaderCorrelationID (AString pid)
    end
  else out.

(** The loop of [forwardSplit] from child number [i]+1 on. *)
Fixpoint forward_from {B} `{GoType B} (next : MessageHandler W) (parent : msg) (n : Z)
    (i : nat) (children : list (Message B)) : M W (option error) :=
  match children with
  | [] => mret None
  | child :: rest =>
      let stamped := stampSequence child parent (Z.of_nat i + 1) n in
      r ← next (boxMessage stamped);
      match r with
      | Some err => mret (Some err)
      | None => forward_from next parent n (S i) rest
      end
  end.

Definition forwardSplit {B} `{GoType B} (next : MessageHandler W) (parent : msg)
    (children : list (Message B)) : M W (option error) :=
  forward_from next parent (Z.of_nat (length children)) 0 children.

Definition Split {A B} `{GoType A, GoType B}
    (fn : option (Message A → M W (error + list (Message B)))) : Step W :=
  Some (match fn with
  | None => nilFuncStep "routing.Split: nil fn"
  | Some fn => λ next msg,
      match PayloadOf msg with
      | inl err => mret (Some err)
      | inr m =>
          r ← fn m;
          match r with
          | inl err => mret (Some err)
          | inr children => forwardSplit next msg children
          end
      end
  end).
End handlers.

Arguments filterConfig : clear implicits.
Arguments Router : clear implicits.

(** ** Composition *)

Section chain.
Context {W : Type}.
Implicit Types (fs : list (MessageHandler W → MessageHandler W)).

Lemma chain_from_app i (s1 s2 : list (Step W)) next :
  chain_from i (s1 ++ s2) next = chain_from i s1 (chain_from (i + length s1) s2 next).
Proof.
  revert i. induction s1 as [|s s1 IH]; intros i; cbn; [f_equal; lia|].
  rewrite IH. destruct s; [|done]. do 3 f_equal. lia.
Qed.

Lemma chain_from_some i fs next :
  chain_from i (Some <$> fs) next = foldr (λ f k, f k) next fs.
Proof. revert i. induction fs as [|f fs IH]; intros i; cbn; [done|]. by rewrite IH. Qed.

Lemma failing_permanent (s : sentinel) args (m : msg) (w : W) :
  ∃ e, failing s args m w = (Ret (Some e), w) ∧ Is e s = true ∧ IsPermanent (Some e) = true.
Proof. eexists. split; [done|]. rewrite Is_one. cbn. by rewrite bool_decide_eq_true_2. Qed.

(** Chain composes its steps in order around the discarding terminal, and a
    nil step neither panics nor disappears: the steps before it wrap a handler
    that fails, without touching the state, with a permanent error matching
    ErrNilFunc, and no step after it is ever built. *)
Theorem chain_degrades_at_nil fs rest :
  Chain (Some <$> fs) = foldr (λ f k, f k) discardHandler fs ∧
  ∃ stop : MessageHandler W,
    Chain ((Some <$> fs) ++ None :: rest) = foldr (λ f k, f k) stop fs ∧
    ∀ m w, ∃ e, stop m w = (Ret (Some e), w) ∧
      Is e ErrNilFunc = true ∧ IsPermanent (Some e) = true.
Proof.
  unfold Chain. split; [apply chain_from_some|].
  eexists. split; [by rewrite chain_from_app, chain_from_some|].
  intros m w. apply failing_permanent.
Qed.

(** The error-carrying predicates form a Boolean algebra on their outcomes:
    negating a conjunction is the disjunction of the negations, with the same
    evaluation order, short-circuiting, errors, panics and effects, and double
    negation is the identity. *)
Theorem predicate_de_morgan {A} (p q : PredicateFn (W := W) A) m w :
  Not (Some (And (Some p) (Some q))) m w = Or (Some (Not (Some p))) (Some (Not (Some q))) m w ∧
  Not (Some (Or (Some p) (Some q))) m w = And (Some (Not (Some p))) (Some (Not (Some q))) m w ∧
  Not (Some (Not (Some p))) m w = p m w.
Proof.
  unfold Not, And, Or, mbind, M_bind, mret, M_ret.
  destruct (p m w) as [[[e|[]]|v] w']; cbn; try done;
    destruct (q m w') as [[[e|[]]|v] w'']; done.
Qed.
End chain.

(** ** The splitter *)

(** The children as [forwardSplit] hands them on. *)
Definition stamped {B} (parent : msg) (children : list (Message B)) : list (Message B) :=
  imap (λ i c, stampSequence c parent (Z.of_nat i + 1) (Z.of_nat (length children))) children.

(** Run handler calls in order, stopping at the first error. *)
Fixpoint until_error {W} (calls : list (M W (option error))) : M W (option error) :=
  match calls with
  | [] => mret None
  | c :: rest => r ← c; match r with Some err => mret (Some err) | None => until_error rest end
  end.

Lemma Header_stamp {B} (c : Message B) parent num size k :
  k ≠ HeaderSequenceNumber → k ≠ HeaderSequenceSize → k ≠ HeaderMessageID →
  k ≠ HeaderCorrelationID → Header (stampSequence c parent num size) k = Header c k.
Proof.
  intros. unfold stampSequence. repeat case_match_goal;
    rewrite ?Header_WithHeader; by repeat rewrite decide_False by done.
Qed.

Lemma stamp_sequence {B} (c : Message B) parent num size :
  Header (stampSequence c parent num size) HeaderSequenceNumber = Some (AInt num) ∧
  Header (stampSequence c parent num size) HeaderSequenceSize = Some (AInt size).
Proof.
  unfold stampSequence. repeat case_match_goal; rewrite !Header_WithHeader; by repeat case_decide.
Qed.

Lemma stamp_ID {B} (c : Message B) parent num size :
  ID parent ≠ "" → ID (stampSequence c parent num size) = ID parent +:+ "#" +:+ Itoa num.
Proof.
  intros Hp. apply ID_Header. unfold stampSequence. rewrite bool_decide_eq_true_2 by done.
  case_match_goal; rewrite !Header_WithHeader; by repeat case_decide.
Qed.

Lemma stamp_correlation {B} (c : Message B) parent num size :
  ID parent ≠ "" →
  Header (stampSequence c parent num size) HeaderCorrelationID =
  Some (default (AString (ID parent)) (Header c HeaderCorrelationID)).
Proof.
  intros Hp. unfold stampSequence. rewrite bool_decide_eq_true_2 by done.
  rewrite (Header_WithHeader _ HeaderMessageID), decide_False by done.
  rewrite (Header_WithHeader _ HeaderSequenceSize), decide_False by done.
  rewrite (Header_WithHeader _ HeaderSequenceNumber), decide_False by done.
  destruct (Header c HeaderCorrelationID) eqn:Hc; rewrite !Header_WithHeader;
    repeat case_decide; done.
Qed.

Lemma string_app_inj_l (s t u : string) : s +:+ t = s +:+ u → t = u.
Proof. induction s as [|a s IH]; cbn; [done|]. intros [= H]. auto. Qed.

Lemma Itoa_inj a b : Itoa a = Itoa b → a = b.
Proof. apply (inj pretty). Qed.

Lemma stamped_lookup {B} parent (children : list (Message B)) i c :
  stamped parent children !! i = Some c →
  ∃ c0, children !! i = Some c0 ∧
    c = stampSequence c0 parent (Z.of_nat i + 1) (Z.of_nat (length children)).
Proof.
  unfold stamped. rewrite list_lookup_imap. destruct (children !! i); cbn; naive_solver.
Qed.

Lemma stamped_NoDup {B} parent (children : list (Message B)) :
  ID parent ≠ "" → NoDup (ID <$> stamped parent children).
Proof.
  intros Hp. apply NoDup_alt. intros i j id.
  rewrite !list_lookup_fmap, !fmap_Some.
  intros (c1 & H1 & ->) (c2 & H2 & E).
  apply stamped_lookup in H1 as (c1' & _ & ->). apply stamped_lookup in H2 as (c2' & _ & ->).
  rewrite !stamp_ID in E by done. apply string_app_inj_l in E. injection E as E.
  apply Itoa_inj in E. lia.
Qed.

Lemma forward_from_spec {W B} `{GoType B} (next : MessageHandler W) parent n i
    (children : list (Message B)) w :
  forward_from next parent n i children w =
  until_error ((λ c, next (boxMessage c)) <$>
    imap (λ j c, stampSequence c parent (Z.of_nat (i + j) + 1) n) children) w.
Proof.
  revert i w. induction children as [|c children IH]; intros i w; [done|].
  cbn [forward_from imap fmap list_fmap until_error]. rewrite Nat.add_0_r.
  unfold mbind, M_bind. destruct (next _ w) as [[[err|]|v] w']; [done| |done].
  rewrite IH. f_equal. f_equal. apply imap_ext. intros j x _. cbn.
  do 2 f_equal. lia.
Qed.

Lemma forwardSplit_eq {W B} `{GoType B} (next : MessageHandler W) parent
    (children : list (Message B)) w :
  forwardSplit next parent children w =
  until_error ((λ c, next (boxMessage c)) <$> stamped parent children) w.
Proof. unfold forwardSplit, stamped. by rewrite forward_from_spec. Qed.

(** Split hands the children on in order and stops at the first error; the
    k-th carries sequence number k and the number of children, and, when the
    parent has an id, an id of its own, unique in the batch, and the parent's
    id as correlation id unless the child brought one. *)
Theorem split_stamps_children {W B} `{GoType B} (next : MessageHandler W) parent
    (children : list (Message B)) w :
  forwardSplit next parent children w =
    until_error ((λ c, next (boxMessage c)) <$> stamped parent children) w ∧
  (∀ i c0, children !! i = Some c0 →
    ∃ c, stamped parent children !! i = Some c ∧ msg_payload c = msg_payload c0 ∧
      Header c HeaderSequenceNumber = Some (AInt (Z.of_nat i + 1)) ∧
      Header c HeaderSequenceSize = Some (AInt (Z.of_nat (length children))) ∧
      (ID parent ≠ "" → Header c HeaderCorrelationID =
         Some (default (AString (ID parent)) (Header c0 HeaderCorrelationID)))) ∧
  (ID parent ≠ "" → NoDup (ID <$> stamped parent children)).
Proof.
  split; [apply forwardSplit_eq|split; [|apply stamped_NoDup]].
  - intros i c0 Hi. exists (stampSequence c0 parent (Z.of_nat i + 1) (Z.of_nat (length children))).
    split; [unfold stamped; by rewrite list_lookup_imap, Hi|].
    split; [unfold stampSequence; repeat case_match_goal; done|].
    split; [apply stamp_sequence|]. split; [apply stamp_sequence|]. apply stamp_correlation.
Qed.
