(* ===== verification/Aggregator.v ===== *)
(** * The Aggregator (routing/aggregator.go)

    The aggregator is modelled over any [MessageGroupStore].  Its callbacks
    (correlation, release and aggregation functions, the output and expired
    channels) are computations over the store and an outside world [E]: a
    callback may change the store, which is how the operations of other
    goroutines that run while a callback runs enter the model.  Every send on a
    channel is recorded, with the claimed batch it stands for. *)

From S2P Require Import Prelude Message GroupStore Flow.
From Stdlib Require Import Floats.SpecFloat.
Local Open Scope Z_scope.

(** A send the aggregator made and what it returned. *)
Inductive aevent : Type :=
  | AOut (batch : list msg) (out : msg) (res : option error)
  | AExp (m : msg) (res : option error).

Record aworld (S E : Type) : Type := mkWorld {
  aw_store : S;
  aw_ext : E;
  aw_trace : list aevent
}.
Arguments mkWorld {S E} _ _ _.
Arguments aw_store {S E} _.
Arguments aw_ext {S E} _.
Arguments aw_trace {S E} _.

(** The result of a function with a loop: it returned, or the fuel ran out. *)
Inductive loopres : Type :=
  | Done (err : option error)
  | OutOfFuel.

Section aggregator.
Context {S E : Type} `{MessageGroupStore S}.
(** The platform's result for a float-to-int conversion out of range. *)
Context (impl_int : spec_float → Z).

Abbreviation W := (aworld S E).
Abbreviation Callback A := (M (S * E) A).

(** ** Configuration *)

Record aggregatorConfig : Type := mkAggConfig {
  ac_output : option (Sender (S * E));
  ac_correlate : option (msg → Callback (error + string));
  ac_release : option (MessageGroup → Callback (error + bool));
  ac_timeout : Z;
  ac_expired : option (Sender (S * E));
  ac_clock : E → Z;
  ac_completionSize : Z;
  ac_completionSizeSet : bool
}.

Definition completionSizeCeiling : Z := Z.shiftl 1 16.

Definition WithOutputChannel (ch : option (Sender (S * E))) (c : aggregatorConfig) : aggregatorConfig :=
  mkAggConfig ch (ac_correlate c) (ac_release c) (ac_timeout c) (ac_expired c) (ac_clock c)
    (ac_completionSize c) (ac_completionSizeSet c).
Definition WithCorrelationStrategy fn (c : aggregatorConfig) : aggregatorConfig :=
  mkAggConfig (ac_output c) fn (ac_release c) (ac_timeout c) (ac_expired c) (ac_clock c)
    (ac_completionSize c) (ac_completionSizeSet c).
Definition WithReleaseStrategy fn (c : aggregatorConfig) : aggregatorConfig :=
  mkAggConfig (ac_output c) (ac_correlate c) fn (ac_timeout c) (ac_expired c) (ac_clock c)
    (ac_completionSize c) (ac_completionSizeSet c).
Definition WithReleaseWhen (fn : option (MessageGroup → Callback bool)) (c : aggregatorConfig)
    : aggregatorConfig :=
  match fn with
  | None => WithReleaseStrategy None c
  | Some fn => WithReleaseStrategy (Some (λ g, b ← fn g; mret (inr b))) c
  end.
Definition WithCompletionSize (n : Z) (c : aggregatorConfig) : aggregatorConfig :=
  mkAggConfig (ac_output c) (ac_correlate c)
    (Some (λ g, mret (inr (n <=? Z.of_nat (length (grp_messages g))))))
    (ac_timeout c) (ac_expired c) (ac_clock c) n true.
Definition WithGroupTimeout (d : Z) (c : aggregatorConfig) : aggregatorConfig :=
  mkAggConfig (ac_output c) (ac_correlate c) (ac_release c) d (ac_expired c) (ac_clock c)
    (ac_completionSize c) (ac_completionSizeSet c).
Definition WithExpiredGroupChannel ch (c : aggregatorConfig) : aggregatorConfig :=
  mkAggConfig (ac_output c) (ac_correlate c) (ac_release c) (ac_timeout c) ch (ac_clock c)
    (ac_completionSize c) (ac_completionSizeSet c).
Definition WithAggregatorClock (clk : option (E → Z)) (c : aggregatorConfig) : aggregatorConfig :=
  match clk with
  | None => c
  | Some clk => mkAggConfig (ac_output c) (ac_correlate c) (ac_release c) (ac_timeout c)
      (ac_expired c) clk (ac_completionSize c) (ac_completionSizeSet c)
  end.

(** ** The default strategies *)

Definition defaultCorrelate (m : msg) : error + string :=
  match Headers_String (msg_headers m) HeaderCorrelationID with
  | Some s =>
      if bool_decide (s ≠ "") then inr s
      else inl (permanentError (Sentinel ErrNoCorrelation))
  | None => inl (permanentError (Sentinel ErrNoCorrelation))
  end.

Definition asInt (v : option any) : option Z :=
  match v with
  | Some (AInt n) => Some n
  | Some (AInt64 n) => Some n
  | Some (AFloat64 f) => Some (f64_to_int64 impl_int f)
  | _ => None
  end.

Definition firstHeader (msgs : list msg) (key : string) : option any :=
  match msgs with
  | [] => None
  | m :: _ => Header m key
  end.

Definition defaultRelease (g : MessageGroup) : bool :=
  let msgs := grp_messages g in
  match msgs with
  | [] => false
  | _ =>
      match asInt (firstHeader msgs HeaderSequenceSize) with
      | Some size => size <=? Z.of_nat (length msgs)
      | None => false
      end
  end.

(** ** Construction *)

Record Aggregator : Type := mkAggregator {
  ag_assert : msg → option error;
  ag_agg : list msg → Callback (error + msg);
  ag_cfg : aggregatorConfig
}.

(** [for i, m := range group { typed[i], err = PayloadOf[A](m) }] *)
Fixpoint typed_group {A} `{GoType A} (group : list msg) : error + list (Message A) :=
  match group with
  | [] => inr []
  | m :: rest =>
      match PayloadOf m with
      | inl err => inl err
      | inr tm =>
          match typed_group rest with
          | inl err => inl err
          | inr tms => inr (tm :: tms)
          end
      end
  end.

Definition boxAggFn {A B} `{GoType A, GoType B}
    (fn : list (Message A) → Callback (error + Message B)) (group : list msg)
    : Callback (error + msg) :=
  match typed_group group with
  | inl err => mret (inl err)
  | inr typed =>
      r ← fn typed;
      match r with
      | inl err => mret (inl err)
      | inr out => mret (inr (boxMessage out))
      end
  end.

Definition NewAggregator {A B} `{GoType A, GoType B} (store_nil : bool) (real_clock : E → Z)
    (fn : option (list (Message A) → Callback (error + Message B)))
    (opts : list (option (aggregatorConfig → aggregatorConfig))) : error + Aggregator :=
  if store_nil then inl (Sentinel ErrNilStore)
  else match fn with
  | None => inl (nilFuncAt "routing.NewAggregator: nil fn")
  | Some fn =>
      match apply_opts opts (mkAggConfig None (Some (λ m, mret (defaultCorrelate m)))
              (Some (λ g, mret (inr (defaultRelease g)))) 0 None real_clock 0 false) with
      | inl i => inl (nilOptionAt "routing.NewAggregator" i)
      | inr cfg =>
          if bool_decide (ac_correlate cfg = None) then
            inl (nilFuncAt "routing.NewAggregator: nil correlation strategy")
          else if bool_decide (ac_release cfg = None) then
            inl (nilFuncAt "routing.NewAggregator: nil release strategy")
          else match
            if ac_completionSizeSet cfg then
              checkRange (Sentinel ErrInvalidCapacity) "routing.WithCompletionSize"
                (ac_completionSize cfg) 1 completionSizeCeiling
            else None
          with
          | Some err => inl err
          | None =>
              if bool_decide (ac_output cfg = None) then inl (Sentinel ErrNilOutput)
              else if (0 <? ac_timeout cfg) && bool_decide (ac_expired cfg = None) then
                inl (Sentinel ErrExpiryChannelRequired)
              else inr (mkAggregator
                (λ m, match PayloadOf (T := A) m with inl err => Some err | inr _ => None end)
                (boxAggFn fn) cfg)
          end
      end
  end.

(** ** Running callbacks and store operations *)

(** Calling a nil Go function panics. *)
Definition call {A} (f : option (Callback A)) : Callback A :=
  match f with Some m => m | None => panic "nil function call" end.

Definition cb {A} (m : Callback A) : M W A :=
  zoom (λ w, (aw_store w, aw_ext w)) (λ se w, mkWorld se.1 se.2 (aw_trace w)) m.

Definition on_store {A} (f : E → S → A * S) : M W A := λ w,
  let '(a, s) := f (aw_ext w) (aw_store w) in (Ret a, mkWorld s (aw_ext w) (aw_trace w)).

Definition record_event (ev : aevent) : M W unit :=
  modify (λ w, mkWorld (aw_store w) (aw_ext w) (aw_trace w ++ [ev])).

(** The callbacks of the aggregator, run in its world. *)
Definition do_release (a : Aggregator) (g : MessageGroup) : M W (error + bool) :=
  cb (call ((λ f, f g) <$> ac_release (ag_cfg a))).
Definition do_correlate (a : Aggregator) (m : msg) : M W (error + string) :=
  cb (call ((λ f, f m) <$> ac_correlate (ag_cfg a))).
Definition do_output (a : Aggregator) (batch : list msg) (out : msg) : M W (option error) :=
  r ← cb (call ((λ f, f out) <$> ac_output (ag_cfg a)));
  _ ← record_event (AOut batch out r); mret r.
Definition do_expired (a : Aggregator) (m : msg) : M W (option error) :=
  r ← cb (call ((λ f, f m) <$> ac_expired (ag_cfg a)));
  _ ← record_event (AExp m r); mret r.

Definition do_Claim (key : string) : M W (option MessageGroupClaim * option error) :=
  on_store (λ _ s, ClaimGroup s key).
Definition do_Settle (a : Aggregator) (c : MessageGroupClaim) : M W (option error) :=
  on_store (λ e s, SettleGroup (ac_clock (ag_cfg a) e) s c).
Definition do_Abandon (c : MessageGroupClaim) : M W (option error) :=
  on_store (λ _ s, AbandonGroup s c).
Definition do_Add (a : Aggregator) (key : string) (m : msg) : M W (groupRef * option error) :=
  on_store (λ e s, Add (ac_clock (ag_cfg a) e) s key m).

(** ** Release *)

(** The deferred abandon runs unless the settlement went through: on an error
    return and on a panic unwind. *)
Definition releaseOnce (a : Aggregator) (claim : MessageGroupClaim) : M W (option error) :=
  deferring
    (λ res, match res with
            | Some None => mret tt
            | _ => _ ← do_Abandon claim; mret tt
            end)
    (r ← cb (ag_agg a (clm_messages claim));
     match r with
     | inl aggErr => mret (Some aggErr)
     | inr out =>
         r ← do_output a (clm_messages claim) out;
         match r with
         | Some sendErr => mret (Some sendErr)
         | None => do_Settle a claim
         end
     end).

(** The residual loop of [release]: it re-claims the key until nothing is left
    to release; every exit returns nil. *)
Fixpoint releaseResidual (fuel : nat) (a : Aggregator) (key : string) : M W loopres :=
  match fuel with
  | O => mret OutOfFuel
  | Datatypes.S fuel =>
      c ← do_Claim key;
      match c with
      | (Some next, None) =>
          r ← do_release a (clm_group next);
          match r with
          | inr true =>
              e ← releaseOnce a next;
              match e with
              | Some _ => mret (Done None)
              | None => releaseResidual fuel a key
              end
          | _ => _ ← do_Abandon next; mret (Done None)
          end
      | _ => mret (Done None)
      end
  end.

Definition release (fuel : nat) (a : Aggregator) (claim : MessageGroupClaim) : M W loopres :=
  r ← releaseOnce a claim;
  match r with
  | Some err => mret (Done (Some err))
  | None => releaseResidual fuel a (clm_key claim)
  end.

(** ** Handle *)

Definition overflowRetryable (key reason : string) : error :=
  Errorf [Sentinel ErrOverflowDropped]
    [FStr "routing.Aggregator.Handle: group"; FStr key; FStr reason].

(** [Handle] after an [Add] that reported an overflow. *)
Definition handle_overflow (fuel : nat) (a : Aggregator) (key : string) (group : groupRef)
    (err : error) : M W loopres :=
  match group with
  | GVal g =>
      match grp_messages g with
      | [] => mret (Done (Some err))
      | _ =>
          r ← do_release a g;
          match r with
          | inl rerr => mret (Done (Join [Some err; Some rerr]))
          | inr false => mret (Done (Some err))
          | inr true =>
              c ← do_Claim key;
              match c with
              | (_, Some cerr) => mret (Done (Some cerr))
              | (None, None) => mret (Done (Some (overflowRetryable key
                  "is held by another holder, whose lease is draining it")))
              | (Some claim, None) =>
                  r ← release fuel a claim;
                  match r with
                  | OutOfFuel => mret OutOfFuel
                  | Done (Some relErr) => mret (Done (Some (overflowRetryable key
                      "was claimed but its release FAILED, so it did not drain")))
                  | Done None => mret (Done (Some (overflowRetryable key
                      "drained by this release")))
                  end
              end
          end
      end
  | GNil | GTypedNil => mret (Done (Some err))
  end.

(** [Handle] after an [Add] without error. *)
Definition handle_added (fuel : nat) (a : Aggregator) (key : string) (group : groupRef)
    : M W loopres :=
  match group with
  | GVal g =>
      r ← do_release a g;
      match r with
      | inl err => mret (Done (Some err))
      | inr false => mret (Done None)
      | inr true =>
          c ← do_Claim key;
          match c with
          | (_, Some err) => mret (Done (Some err))
          | (None, None) => mret (Done None)
          | (Some claim, None) => release fuel a claim
          end
      end
  | GNil | GTypedNil => mret (Done (Some (permanentAt ErrNilMessageGroup
      "routing.Aggregator.Handle: MessageGroupStore.Add returned a nil group with a nil error")))
  end.

Definition Handle (fuel : nat) (a : Aggregator) (m : msg) : M W loopres :=
  match ag_assert a m with
  | Some err => mret (Done (Some err))
  | None =>
      k ← do_correlate a m;
      match k with
      | inl err => mret (Done (Some err))
      | inr key =>
          added ← do_Add a key m;
          match added with
          | (group, Some err) =>
              if negb (Is err ErrOverflowDropped) then mret (Done (Some err))
              else handle_overflow fuel a key group err
          | (group, None) => handle_added fuel a key group
          end
      end
  end.

(** ** The expiry reaper *)

Definition reapInterval (a : Aggregator) (s : S) : Z :=
  let interval := ac_timeout (ag_cfg a) in
  let storeInterval := RecoverInterval s in
  if (0 <? storeInterval) && ((interval <=? 0) || (storeInterval <? interval))
  then storeInterval else interval.

(** Send the members to the expired channel in order, stopping at the first
    error; whether all were sent. *)
Fixpoint send_expired (a : Aggregator) (msgs : list msg) : M W bool :=
  match msgs with
  | [] => mret true
  | m :: rest =>
      r ← do_expired a m;
      match r with Some _ => mret false | None => send_expired a rest end
  end.

Definition reapGroup (fuel : nat) (a : Aggregator) (g : MessageGroup) (cutoff : Z) : M W bool :=
  c ← do_Claim (grp_key g);
  match c with
  | (Some claim, None) =>
      r ← do_release a (clm_group claim);
      match r with
      | inr true =>
          r ← release fuel a claim;
          mret (match r with OutOfFuel => false | Done _ => true end)
      | _ =>
          if negb (IsZero cutoff) && (grp_createdAt (clm_group claim) <? cutoff) then
            all ← send_expired a (clm_messages claim);
            if (all : bool) then _ ← do_Settle a claim; mret true
            else _ ← do_Abandon claim; mret true
          else _ ← do_Abandon claim; mret true
      end
  | _ => mret true
  end.

Fixpoint reap_groups (fuel : nat) (a : Aggregator) (groups : list MessageGroup) (cutoff : Z)
    : M W bool :=
  match groups with
  | [] => mret true
  | g :: rest =>
      ok ← reapGroup fuel a g cutoff;
      if (ok : bool) then reap_groups fuel a rest cutoff else mret false
  end.

(** One sweep of the reaper; [false] is out of fuel in a residual loop. *)
Definition reap (fuel : nat) (a : Aggregator) : M W bool :=
  w ← get;
  let cutoff := if 0 <? ac_timeout (ag_cfg a)
                then ac_clock (ag_cfg a) (aw_ext w) - ac_timeout (ag_cfg a) else 0 in
  match Expired (aw_store w) cutoff with
  | (_, Some _) => mret true
  | (groups, None) => reap_groups fuel a groups cutoff
  end.

(** [Run] until its context is done after [ticks] ticks of its ticker, which is only
    started for a positive interval. *)
Fixpoint reap_ticks (fuel ticks : nat) (a : Aggregator) : M W unit :=
  match ticks with
  | O => mret tt
  | Datatypes.S ticks => _ ← reap fuel a; reap_ticks fuel ticks a
  end.
Definition Aggregator_Run (fuel ticks : nat) (a : Aggregator) : M W unit :=
  w ← get;
  if reapInterval a (aw_store w) <=? 0 then mret tt else reap_ticks fuel ticks a.
End aggregator.

Arguments aggregatorConfig : clear implicits.
Arguments Aggregator : clear implicits.

(** ** What the callbacks may do

    While a callback of the aggregator runs, other goroutines may add members
    to the store; they cannot settle or abandon a claim they do not hold. *)

Definition is_add (o : gop) : Prop := match o with OpAdd _ _ _ => True | _ => False end.

Definition add_step (a a' : gmap string agroup) : Prop :=
  ∃ mg mm o, is_add o ∧ a' = (spec_op mg mm a o).2.
Definition grows : relation (gmap string agroup) := rtc add_step.

Lemma balance_kept mg mm a o m :
  op_out a o = [] → m ∈ retained a → m ∈ retained (spec_op mg mm a o).2.
Proof.
  intros Hout Hm. pose proof (spec_op_balance mg mm a o) as Hb.
  rewrite Hout in Hb. cbn in Hb. rewrite <- Hb. apply elem_of_app. by right.
Qed.

Lemma grows_retained a a' m : grows a a' → m ∈ retained a → m ∈ retained a'.
Proof.
  induction 1 as [|a1 a2 a3 (mg & mm & o & Ho & ->) _ IH]; [done|].
  intros Hm. apply IH, balance_kept; [destruct o; [done|destruct Ho..]|done].
Qed.

Lemma grows_leased a a' c :
  grows a a' → leased_as a (clm_key c) (clm_epoch c) (clm_messages c) →
  leased_as a' (clm_key c) (clm_epoch c) (clm_messages c).
Proof.
  induction 1 as [|a1 a2 a3 (mg & mm & o & Ho & ->) _ IH]; [done|].
  intros Hl. apply IH, leased_as_step; [done|]. destruct o; [tauto|destruct Ho..].
Qed.

Section accounting.
Context {S E : Type} `{MessageGroupStoreLaws S}.
Abbreviation W := (aworld S E).

(** A callback during which only additions reach the store. *)
Definition concurrent_adds {A} (m : M (S * E) A) : Prop :=
  ∀ se, store_ok se.1 →
    store_ok (m se).2.1 ∧ grows (store_abs se.1) (store_abs (m se).2.1).

(** A callback during which the store does not change at all. *)
Definition quiet {A} (m : M (S * E) A) : Prop := ∀ se, (m se).2.1 = se.1.

Record well_behaved (a : Aggregator S E) : Prop := {
  wb_agg ms : concurrent_adds (ag_agg a ms);
  wb_correlate f m : ac_correlate (ag_cfg a) = Some f → concurrent_adds (f m);
  wb_release f g : ac_release (ag_cfg a) = Some f → concurrent_adds (f g);
  wb_output f m : ac_output (ag_cfg a) = Some f → concurrent_adds (f m);
  wb_expired f m : ac_expired (ag_cfg a) = Some f → concurrent_adds (f m)
}.

(** A member is accounted for: the store retains it, or a batch with it was
    accepted by the output channel, or the expired channel accepted it. *)
Definition emitted (m : msg) (w : W) : Prop :=
  (∃ batch out, AOut batch out None ∈ aw_trace w ∧ m ∈ batch) ∨ AExp m None ∈ aw_trace w.
Definition safe (m : msg) (w : W) : Prop :=
  m ∈ retained (store_abs (aw_store w)) ∨ emitted m w.

Definition inv (m : msg) (w : W) : Prop := store_ok (aw_store w) ∧ safe m w.

Definition keeps {A} (m : msg) (c : M W A) : Prop := ∀ w, inv m w → inv m (c w).2.

Definition leases (w : W) (c : MessageGroupClaim) : Prop :=
  leased_as (store_abs (aw_store w)) (clm_key c) (clm_epoch c) (clm_messages c).

Lemma keeps_ret {A} m (x : A) : keeps m (mret x).
Proof. by intros w. Qed.

Lemma keeps_bind {A B} m (c : M W A) (k : A → M W B) :
  keeps m c → (∀ x, keeps m (k x)) → keeps m (c ≫= k).
Proof.
  intros Hc Hk w Hw. specialize (Hc w Hw). unfold mbind, M_bind.
  destruct (c w) as [[x|v] w1]; [by apply Hk|done].
Qed.

Lemma safe_store m w s e :
  safe m w → (m ∈ retained (store_abs (aw_store w)) → m ∈ retained (store_abs s)) →
  safe m (mkWorld s e (aw_trace w)).
Proof. intros [Hm|Hm] Hr; [left; by apply Hr|by right]. Qed.

Lemma cb_step {A} (c : M (S * E) A) w :
  concurrent_adds c → store_ok (aw_store w) →
  ∃ o s' e', cb c w = (o, mkWorld s' e' (aw_trace w)) ∧ store_ok s' ∧
    grows (store_abs (aw_store w)) (store_abs s').
Proof.
  intros Hc Hok. destruct (Hc (aw_store w, aw_ext w) Hok) as [Hok' Hg]. unfold cb, zoom.
  destruct (c (aw_store w, aw_ext w)) as [o [s' e']]. eauto 10.
Qed.

Lemma keeps_cb {A} m (c : M (S * E) A) : concurrent_adds c → keeps m (cb c).
Proof.
  intros Hc w [Hok Hs]. destruct (cb_step c w Hc Hok) as (o & s' & e' & -> & Hok' & Hg).
  split; [done|]. apply safe_store; [done|]. by apply grows_retained.
Qed.

Lemma concurrent_adds_panic {A} v : concurrent_adds (panic (A := A) v).
Proof. intros se Hok. split; [done|apply rtc_refl]. Qed.

Lemma concurrent_adds_call {A B} (f : option (A → M (S * E) B)) x :
  (∀ g, f = Some g → concurrent_adds (g x)) →
  concurrent_adds (call ((λ g, g x) <$> f)).
Proof. intros Hf. destruct f as [g|]; cbn; [by apply Hf|apply concurrent_adds_panic]. Qed.

(** The store operations the aggregator performs outside a settlement keep
    every member. *)

Lemma claim_step key (w : W) :
  store_ok (aw_store w) →
  ∃ r s', do_Claim key w = (Ret r, mkWorld s' (aw_ext w) (aw_trace w)) ∧ store_ok s' ∧
    (∀ m, m ∈ retained (store_abs (aw_store w)) → m ∈ retained (store_abs s')) ∧
    ∀ c, r = (Some c, None) → clm_key c = key ∧
      leases (mkWorld s' (aw_ext w) (aw_trace w)) c.
Proof.
  intros Hok. unfold do_Claim, on_store.
  pose proof (ClaimGroup_law (aw_store w) key Hok) as HL.
  destruct (ClaimGroup (aw_store w) key) as [r s'].
  destruct HL as (Hok' & _ & _ & HL). exists r, s'. split; [done|]. split; [done|].
  destruct HL as [(err & -> & Ha)|(_ & Hk & Ha)].
  - split; [by rewrite Ha|]. by intros c [=].
  - split.
    + intros m Hm. pose proof (balance_kept 0 0 _ (OpClaim key) m eq_refl Hm) as Hb.
      cbn in Hb. rewrite <- Ha in Hb. done.
    + intros c ->. split; [by apply Hk|]. specialize (Hk c eq_refl). unfold leases. cbn [aw_store].
      unfold spec_Claim in Ha. destruct (store_abs (aw_store w) !! key) as [g|]; [|done].
      destruct (a_leased g); [done|]. cbn in Ha. injection Ha as He Hm Ha. rewrite Hk, Ha.
      exists (a_take g). rewrite lookup_insert_eq. unfold a_take. cbn. by rewrite He, Hm.
Qed.

Lemma keeps_claim m key : keeps m (do_Claim key).
Proof.
  intros w [Hok Hs]. destruct (claim_step key w Hok) as (r & s' & -> & Hok' & Hr & _).
  split; [done|]. apply safe_store; [done|apply Hr].
Qed.

Lemma abandon_step c (w : W) :
  store_ok (aw_store w) →
  ∃ r s', do_Abandon c w = (Ret r, mkWorld s' (aw_ext w) (aw_trace w)) ∧ store_ok s' ∧
    store_abs s' = match r with
      | Some _ => store_abs (aw_store w)
      | None => spec_Abandon (store_abs (aw_store w)) (clm_key c) (clm_epoch c)
      end.
Proof.
  intros Hok. unfold do_Abandon, on_store.
  pose proof (AbandonGroup_law (aw_store w) c Hok) as HL.
  destruct (AbandonGroup (aw_store w) c) as [r s']. destruct HL as (Hok' & _ & _ & HL).
  exists r, s'. split; [done|]. split; [done|]. by destruct r.
Qed.

Lemma keeps_abandon m c : keeps m (do_Abandon c).
Proof.
  intros w [Hok Hs]. destruct (abandon_step c w Hok) as (r & s' & -> & Hok' & Ha).
  split; [done|]. apply safe_store; [done|]. rewrite Ha. destruct r; [done|].
  apply (balance_kept 0 0 _ (OpAbandon c) m eq_refl).
Qed.

Lemma keeps_record m ev : keeps m (record_event ev).
Proof.
  intros w [Hok Hs]. split; [done|]. destruct Hs as [Hm|[(b & o & Hin & Hm)|Hin]]; [by left|right..].
  - left. exists b, o. split; [|done]. cbn. apply elem_of_app. by left.
  - right. cbn. apply elem_of_app. by left.
Qed.

Lemma settle_step (a : Aggregator S E) c (w : W) :
  store_ok (aw_store w) →
  ∃ r s', do_Settle a c w = (Ret r, mkWorld s' (aw_ext w) (aw_trace w)) ∧ store_ok s' ∧
    store_abs s' = match r with
      | Some _ => store_abs (aw_store w)
      | None => spec_Settle (store_abs (aw_store w)) (clm_key c) (clm_epoch c)
      end.
Proof.
  intros Hok. unfold do_Settle, on_store.
  pose proof (SettleGroup_law (ac_clock (ag_cfg a) (aw_ext w)) (aw_store w) c Hok) as HL.
  destruct (SettleGroup _ (aw_store w) c) as [r s']. destruct HL as (Hok' & _ & _ & HL).
  exists r, s'. split; [done|]. split; [done|]. by destruct r.
Qed.

(** A settlement keeps the member when the claim's members are already
    accounted for by the trace. *)
Lemma settle_keeps (a : Aggregator S E) m c w :
  inv m w → leases w c →
  (m ∈ clm_messages c → emitted m w) →
  inv m (do_Settle a c w).2.
Proof.
  intros [Hok Hs] Hl Hc. destruct (settle_step a c w Hok) as (r & s' & -> & Hok' & Ha).
  split; [done|]. cbn. destruct r as [err|].
  { apply safe_store; [done|]. by rewrite Ha. }
  destruct Hs as [Hm|Hm]; [|by right].
  pose proof (spec_op_balance 0 0 (store_abs (aw_store w)) (OpSettle 0 c)) as Hb.
  cbn in Hb. rewrite <- Ha in Hb. rewrite Hb in Hm. apply elem_of_app in Hm as [Hm|Hm]; [|by left].
  right. apply Hc. destruct Hl as (g & Hk & Hg). unfold settles in Hm.
  rewrite Hk in Hm. cbn in Hm. by rewrite Hg, Z.eqb_refl in Hm.
Qed.

(** ** One release *)

Lemma output_step (a : Aggregator S E) batch out (w : W) :
  well_behaved a → store_ok (aw_store w) →
  ∃ o s' e', store_ok s' ∧ grows (store_abs (aw_store w)) (store_abs s') ∧
    do_output a batch out w =
      (o, mkWorld s' e' (aw_trace w ++
            match o with Ret res => [AOut batch out res] | Panic _ => [] end)).
Proof.
  intros Hwb Hok.
  destruct (cb_step (call ((λ f, f out) <$> ac_output (ag_cfg a))) w) as (o & s' & e' & Ecb & Hok' & Hg).
  { apply concurrent_adds_call. intros g Hf. by eapply wb_output. }
  { done. }
  exists o, s', e'. split; [done|]. split; [done|]. unfold do_output.
  destruct o as [res|v]; [by rewrite (bind_eq _ _ _ _ _ Ecb)|].
  rewrite (bind_panic _ _ _ _ _ Ecb). by rewrite app_nil_r.
Qed.

(** What one release does to the store: [a2] is the state in which the claim is
    settled or given back, after whatever was added meanwhile. *)
Definition released (c : MessageGroupClaim) (w : W) (o : outcome (option error)) (w' : W) : Prop :=
  store_ok (aw_store w') ∧
  ∃ a2 evs, grows (store_abs (aw_store w)) a2 ∧
    leased_as a2 (clm_key c) (clm_epoch c) (clm_messages c) ∧
    aw_trace w' = aw_trace w ++ evs ∧
    match o with
    | Ret None =>
        (∃ out, evs = [AOut (clm_messages c) out None]) ∧
        store_abs (aw_store w') = spec_Settle a2 (clm_key c) (clm_epoch c)
    | _ =>
        (evs = [] ∨ ∃ out res, evs = [AOut (clm_messages c) out res]) ∧
        (store_abs (aw_store w') = spec_Abandon a2 (clm_key c) (clm_epoch c) ∨
         store_abs (aw_store w') = a2)
    end.

(** The deferred abandon, after a failure that left the world at [w1]. *)
Lemma abandoned c w w1 o evs :
  store_ok (aw_store w1) → grows (store_abs (aw_store w)) (store_abs (aw_store w1)) →
  leases w1 c → aw_trace w1 = aw_trace w ++ evs →
  (evs = [] ∨ ∃ out res, evs = [AOut (clm_messages c) out res]) →
  o ≠ Ret None →
  released c w o (do_Abandon c w1).2.
Proof.
  intros Hok Hg Hl Ht Hevs Ho. destruct (abandon_step c w1 Hok) as (r & s' & -> & Hok' & Ha).
  split; [done|]. exists (store_abs (aw_store w1)), evs. split; [done|]. split; [done|].
  split; [done|]. destruct o as [[err|]|v]; [|done|]; (split; [done|]); cbn; destruct r; auto.
Qed.

(** The body of [releaseOnce], without its deferred abandon. *)
Definition release_body (a : Aggregator S E) (claim : MessageGroupClaim) : M W (option error) :=
  r ← cb (ag_agg a (clm_messages claim));
  match r with
  | inl aggErr => mret (Some aggErr)
  | inr out =>
      r ← do_output a (clm_messages claim) out;
      match r with
      | Some sendErr => mret (Some sendErr)
      | None => do_Settle a claim
      end
  end.

Lemma releaseOnce_eq (a : Aggregator S E) c w :
  releaseOnce a c w =
  match release_body a c w with
  | (Ret None, w') => (Ret None, w')
  | (o, w') => (o, (do_Abandon c w').2)
  end.
Proof.
  unfold releaseOnce, deferring. fold (release_body a c).
  destruct (release_body a c w) as [[[err|]|v] w']; [|done|];
    unfold mbind, M_bind, do_Abandon, on_store; by destruct (AbandonGroup _ _).
Qed.

(** The body either fails with the claim still in the store, or settles it. *)
Lemma release_body_spec (a : Aggregator S E) c w :
  well_behaved a → store_ok (aw_store w) → leases w c →
  let '(o, w') := release_body a c w in
  store_ok (aw_store w') ∧
  ∃ a2 evs, grows (store_abs (aw_store w)) a2 ∧
    leased_as a2 (clm_key c) (clm_epoch c) (clm_messages c) ∧
    aw_trace w' = aw_trace w ++ evs ∧
    match o with
    | Ret None =>
        (∃ out, evs = [AOut (clm_messages c) out None]) ∧
        store_abs (aw_store w') = spec_Settle a2 (clm_key c) (clm_epoch c)
    | _ =>
        (evs = [] ∨ ∃ out res, evs = [AOut (clm_messages c) out res]) ∧
        store_abs (aw_store w') = a2
    end.
Proof.
  intros Hwb Hok Hl. unfold release_body.
  destruct (cb_step (ag_agg a (clm_messages c)) w (wb_agg _ Hwb _) Hok)
    as (o1 & s1 & e1 & E1 & Hok1 & Hg1).
  pose proof (grows_leased _ _ _ Hg1 Hl) as Hl1.
  destruct o1 as [[aggErr|out]|v].
  1: rewrite (bind_eq _ _ _ _ _ E1); split; [done|]; exists (store_abs s1), []; rewrite app_nil_r; eauto 10.
  2: rewrite (bind_panic _ _ _ _ _ E1); split; [done|]; exists (store_abs s1), [];
       rewrite app_nil_r; eauto 10.
  rewrite (bind_eq _ _ _ _ _ E1).
  destruct (output_step a (clm_messages c) out (mkWorld s1 e1 (aw_trace w)) Hwb Hok1)
    as (o2 & s2 & e2 & Hok2 & Hg2 & E2). cbn [aw_store aw_trace] in *.
  pose proof (grows_leased _ _ _ Hg2 Hl1) as Hl2.
  assert (grows (store_abs (aw_store w)) (store_abs s2)) as Hg by (by etrans).
  destruct o2 as [[sendErr|]|v].
  - rewrite (bind_eq _ _ _ _ _ E2). split; [done|]. eexists (store_abs s2), _. eauto 10.
  - rewrite (bind_eq _ _ _ _ _ E2).
    destruct (settle_step a c (mkWorld s2 e2 (aw_trace w ++ [AOut (clm_messages c) out None])) Hok2) as (r & s3 & E3 & Hok3 & Ha). rewrite E3.
    split; [done|]. eexists (store_abs s2), _. cbn [aw_trace aw_store].
    split; [done|]. split; [done|]. split; [done|]. destruct r; eauto 10.
  - rewrite (bind_panic _ _ _ _ _ E2). split; [done|]. eexists (store_abs s2), _. eauto 10.
Qed.

Lemma releaseOnce_spec (a : Aggregator S E) c w :
  well_behaved a → store_ok (aw_store w) → leases w c →
  released c w (releaseOnce a c w).1 (releaseOnce a c w).2.
Proof.
  intros Hwb Hok Hl. pose proof (release_body_spec a c w Hwb Hok Hl) as Hb.
  rewrite releaseOnce_eq. destruct (release_body a c w) as [o w1].
  destruct Hb as (Hok1 & a2 & evs & Hg & Hl2 & Ht & Ho).
  destruct o as [[err|]|v]; [|split; [done|by exists a2, evs]|];
    destruct Ho as [Hevs <-]; by apply abandoned with evs.
Qed.

(** Members stay accounted for across a release. *)
Lemma releaseOnce_inv (a : Aggregator S E) m c w :
  well_behaved a → inv m w → leases w c → inv m (releaseOnce a c w).2.
Proof.
  intros Hwb [Hok Hs] Hl. pose proof (releaseOnce_spec a c w Hwb Hok Hl) as Hr.
  destruct (releaseOnce a c w) as [o w']. cbn in Hr.
  destruct Hr as (Hok' & a2 & evs & Hg & Hl2 & Ht & Ho). split; [done|]. cbn.
  destruct Hs as [Hm|Hm].
  - pose proof (grows_retained _ _ _ Hg Hm) as Hm2.
    assert (m ∈ retained (spec_Abandon a2 (clm_key c) (clm_epoch c))) as HmA
      by (apply (balance_kept 0 0 _ (OpAbandon c) m eq_refl Hm2)).
    destruct o as [[err|]|v].
    1, 3: left; destruct Ho as [_ [->| ->]]; done.
    destruct Ho as [[out ->] Ha].
    pose proof (spec_op_balance 0 0 a2 (OpSettle 0 c)) as Hb. cbn in Hb.
    rewrite Hb in Hm2. apply elem_of_app in Hm2 as [Hm2|Hm2]; [|left; by rewrite Ha].
    right. left. exists (clm_messages c), out. rewrite Ht. split; [set_solver|].
    destruct Hl2 as (g & Hk & Hgc). unfold settles in Hm2. rewrite Hk in Hm2. cbn in Hm2.
    by rewrite Hgc, Z.eqb_refl in Hm2.
  - right. unfold emitted in *. rewrite Ht. set_solver.
Qed.
(** ** Members across the whole of Handle and the reaper *)

(** [keeps], for a computation that runs while claim [c] is held. *)
Definition keeps_held {A} (m : msg) (c : MessageGroupClaim) (p : M W A) : Prop :=
  ∀ w, inv m w → leases w c → inv m (p w).2.

Lemma keeps_held_of {A} m c (p : M W A) : keeps m p → keeps_held m c p.
Proof. intros Hp w Hw _. by apply Hp. Qed.

Lemma keeps_held_cb {A B} m c (f : M (S * E) A) (k : A → M W B) :
  concurrent_adds f → (∀ x, keeps_held m c (k x)) → keeps_held m c (cb f ≫= k).
Proof.
  intros Hf Hk w Hw Hl. pose proof (keeps_cb m f Hf w Hw) as Hw'.
  destruct (cb_step f w Hf (proj1 Hw)) as (o & s' & e' & Ecb & _ & Hg). rewrite Ecb in Hw'.
  destruct o as [x|v]; [|by rewrite (bind_panic _ _ _ _ _ Ecb)].
  rewrite (bind_eq _ _ _ _ _ Ecb). apply Hk; [done|]. by eapply grows_leased.
Qed.

Lemma keeps_held_bind {A B} m c (p : M W A) (k : A → M W B) :
  keeps_held m c p → (∀ x, keeps m (k x)) → keeps_held m c (p ≫= k).
Proof.
  intros Hp Hk w Hw Hl. specialize (Hp w Hw Hl). unfold mbind, M_bind.
  destruct (p w) as [[x|v] w1]; [by apply Hk|done].
Qed.

Lemma keeps_claim_bind {B} m key (k : _ → M W B) :
  (∀ c, clm_key c = key → keeps_held m c (k (Some c, None))) →
  (∀ r, (∀ c, r ≠ (Some c, None)) → keeps m (k r)) →
  keeps m (do_Claim key ≫= k).
Proof.
  intros Hheld Hother w Hw. pose proof (keeps_claim m key w Hw) as Hw'.
  destruct (claim_step key w (proj1 Hw)) as (r & s' & Ec & _ & _ & Hc). rewrite Ec in Hw'.
  rewrite (bind_eq _ _ _ _ _ Ec). destruct r as [[c|] [err|]];
    try (apply Hother; [by intros c' [=]|done]).
  destruct (Hc c eq_refl) as [Hk Hl]. by apply Hheld.
Qed.

Lemma adds_release (a : Aggregator S E) g :
  well_behaved a → concurrent_adds (call ((λ f, f g) <$> ac_release (ag_cfg a))).
Proof. intros Hwb. apply concurrent_adds_call. intros f Hf. by eapply wb_release. Qed.

Lemma adds_correlate (a : Aggregator S E) m :
  well_behaved a → concurrent_adds (call ((λ f, f m) <$> ac_correlate (ag_cfg a))).
Proof. intros Hwb. apply concurrent_adds_call. intros f Hf. by eapply wb_correlate. Qed.

Lemma adds_expired (a : Aggregator S E) m :
  well_behaved a → concurrent_adds (call ((λ f, f m) <$> ac_expired (ag_cfg a))).
Proof. intros Hwb. apply concurrent_adds_call. intros f Hf. by eapply wb_expired. Qed.

Hint Resolve keeps_ret keeps_bind keeps_cb keeps_claim keeps_abandon keeps_record
  keeps_held_of releaseOnce_inv adds_release adds_correlate adds_expired : msgin.

Lemma keeps_residual (a : Aggregator S E) m fuel key :
  well_behaved a → keeps m (releaseResidual fuel a key).
Proof.
  intros Hwb. induction fuel as [|fuel IH]; cbn; [apply keeps_ret|].
  apply keeps_claim_bind.
  - intros c _. apply keeps_held_cb; [by apply adds_release|].
    intros [err|[|]]; [eauto with msgin| |eauto with msgin].
    apply keeps_held_bind; [intros w Hw Hl; by apply releaseOnce_inv|].
    intros [err|]; [eauto with msgin|done].
  - intros [[c|] [err|]] Hr; try apply keeps_ret. by destruct (Hr c).
Qed.

Lemma keeps_release (a : Aggregator S E) m fuel c :
  well_behaved a → keeps_held m c (release fuel a c).
Proof.
  intros Hwb. apply keeps_held_bind; [intros w Hw Hl; by apply releaseOnce_inv|].
  intros [err|]; [apply keeps_ret|by apply keeps_residual].
Qed.

Lemma add_step_spec (a : Aggregator S E) key m (w : W) :
  store_ok (aw_store w) →
  ∃ r s', do_Add a key m w = (Ret r, mkWorld s' (aw_ext w) (aw_trace w)) ∧ store_ok s' ∧
    (∀ m', m' ∈ retained (store_abs (aw_store w)) → m' ∈ retained (store_abs s')) ∧
    (r.2 = None → ∃ m', (m' = m ∨ same_id m m' = true) ∧ m' ∈ retained (store_abs s')).
Proof.
  intros Hok. unfold do_Add, on_store.
  pose proof (Add_law (ac_clock (ag_cfg a) (aw_ext w)) (aw_store w) key m Hok) as HL.
  destruct (Add _ (aw_store w) key m) as [r s']. destruct HL as (Hok' & _ & _ & HL).
  exists r, s'. split; [done|]. split; [done|].
  destruct HL as [(err & Hr & _ & Ha)|Ha]; [by rewrite Ha, Hr|].
  set (mg := cap_groups (aw_store w)) in *. set (mm := cap_members (aw_store w)) in *.
  assert (store_abs s' = (spec_op mg mm (store_abs (aw_store w)) (OpAdd 0 key m)).2) as Ha'
    by (cbn; by rewrite <- Ha).
  split; [intros m' Hm; rewrite Ha'; by apply balance_kept|].
  intros Hr. assert (((add_view r).2 = None)) as Hv by (unfold add_view; by rewrite Hr).
  pose proof (spec_op_balance mg mm (store_abs (aw_store w)) (OpAdd 0 key m)) as Hb.
  rewrite <- Ha' in Hb. cbn in Hb. unfold accepts in Hb. unfold spec_Add in Ha.
  destruct (store_abs (aw_store w) !! key) as [g|] eqn:Hk.
  - destruct (a_seen g m) eqn:Hseen.
    + unfold a_seen in Hseen. apply existsb_exists in Hseen as (m' & Hin & Hid).
      exists m'. split; [by right|]. rewrite <- Hb. cbn.
      rewrite (retained_delete _ _ _ Hk). apply elem_of_app. left. by apply list_elem_of_In.
    + destruct (mm <=? _) eqn:Hfull; [apply (f_equal (λ x, x.1.2)) in Ha; cbn [fst snd] in Ha; congruence|].
      exists m. split; [by left|]. rewrite <- Hb. cbn. set_solver.
  - destruct (mg <=? _) eqn:Hfull; [apply (f_equal (λ x, x.1.2)) in Ha; cbn [fst snd] in Ha; congruence|].
    exists m. split; [by left|]. rewrite <- Hb. cbn. set_solver.
Qed.

Lemma keeps_add (a : Aggregator S E) m key m0 : keeps m (do_Add a key m0).
Proof.
  intros w [Hok Hs]. destruct (add_step_spec a key m0 w Hok) as (r & s' & -> & Hok' & Hr & _).
  split; [done|]. apply safe_store; [done|apply Hr].
Qed.

Lemma keeps_overflow (a : Aggregator S E) m fuel key group err :
  well_behaved a → keeps m (handle_overflow fuel a key group err).
Proof.
  intros Hwb. unfold handle_overflow. destruct group as [| |g]; try apply keeps_ret.
  destruct (grp_messages g); [apply keeps_ret|].
  apply keeps_bind; [by apply keeps_cb, adds_release|].
  intros [rerr|[|]]; try apply keeps_ret. apply keeps_claim_bind.
  - intros c _. apply keeps_held_bind; [by apply keeps_release|].
    intros [[e|]|]; apply keeps_ret.
  - intros [[c|] [cerr|]] Hr; try apply keeps_ret. by destruct (Hr c).
Qed.

Lemma keeps_added (a : Aggregator S E) m fuel key group :
  well_behaved a → keeps m (handle_added fuel a key group).
Proof.
  intros Hwb. unfold handle_added. destruct group as [| |g]; try apply keeps_ret.
  apply keeps_bind; [by apply keeps_cb, adds_release|].
  intros [rerr|[|]]; try apply keeps_ret. apply keeps_claim_bind.
  - intros c _. by apply keeps_release.
  - intros [[c|] [cerr|]] Hr; try apply keeps_ret. by destruct (Hr c).
Qed.

Lemma keeps_Handle (a : Aggregator S E) m fuel m0 :
  well_behaved a → keeps m (Handle fuel a m0).
Proof.
  intros Hwb. unfold Handle. destruct (ag_assert a m0); [apply keeps_ret|].
  apply keeps_bind; [by apply keeps_cb, adds_correlate|]. intros [err|key]; [apply keeps_ret|].
  apply keeps_bind; [apply keeps_add|]. intros [group [err|]]; [|by apply keeps_added].
  destruct (negb _); [apply keeps_ret|by apply keeps_overflow].
Qed.

(** The overflow branch always reports an error. *)
Lemma overflow_not_nil (a : Aggregator S E) fuel key group err w :
  (handle_overflow fuel a key group err w).1 ≠ Ret (Done None).
Proof.
  unfold handle_overflow. destruct group as [| |g]; try done.
  destruct (grp_messages g); [done|].
  unfold mbind, M_bind. destruct (do_release a g w) as [[[rerr|[|]]|v] w1]; try done.
  destruct (do_Claim key w1) as [[[[c|] [cerr|]]|v] w2]; try done.
  destruct (release fuel a c w2) as [[[[e|]|]|v] w3]; done.
Qed.

Lemma keeps_expired (a : Aggregator S E) m m0 : well_behaved a → keeps m (do_expired a m0).
Proof. intros Hwb. unfold do_expired. eauto 10 with msgin. Qed.

(** ** The reaper *)

(** After [send_expired] succeeded, every member it was given is on the
    expired channel. *)
Lemma send_expired_spec (a : Aggregator S E) m c msgs w :
  well_behaved a → inv m w → leases w c →
  inv m (send_expired a msgs w).2 ∧ leases (send_expired a msgs w).2 c ∧
  ((send_expired a msgs w).1 = Ret true → m ∈ msgs → emitted m (send_expired a msgs w).2) ∧
  (emitted m w → emitted m (send_expired a msgs w).2).
Proof.
  intros Hwb. revert w. induction msgs as [|m0 msgs IH]; intros w Hw Hl; cbn.
  { split; [done|]. split; [done|]. split; [set_solver|done]. }
  pose proof (keeps_expired a m m0 Hwb w Hw) as Hw'. unfold do_expired in *.
  destruct (cb_step _ w (adds_expired a m0 Hwb) (proj1 Hw)) as (o & s' & e' & Ecb & _ & Hg).
  destruct o as [res|v].
  2: { unfold mbind, M_bind in *. rewrite Ecb in *. cbn. split; [done|].
       split; [by eapply grows_leased|]. by split. }
  assert (∀ w0 : W, emitted m w0 → emitted m (mkWorld s' e' (aw_trace w0 ++ [AExp m0 res]))) as Hmono.
  { intros w0 [(b & out & ? & ?)|?]; [left; exists b, out|right]; cbn; set_solver. }
  unfold mbind, M_bind in *. rewrite Ecb in *. cbn in *.
  destruct res as [err|].
  - cbn. split; [done|]. split; [by eapply grows_leased|]. split; [done|]. apply (Hmono w).
  - destruct (IH _ Hw') as (H1 & H2 & H3 & H4); [by eapply grows_leased|].
    split; [done|]. split; [done|]. split.
    + intros Hr [->|Hin]%elem_of_cons; [|by apply H3]. apply H4. right. cbn. set_solver.
    + intros He. apply H4. by apply (Hmono w).
Qed.

Lemma keeps_reapGroup (a : Aggregator S E) m fuel g cutoff :
  well_behaved a → keeps m (reapGroup fuel a g cutoff).
Proof.
  intros Hwb. apply keeps_claim_bind.
  2: { intros [[c|] [err|]] Hr; try apply keeps_ret. by destruct (Hr c). }
  intros c _. apply keeps_held_cb; [by apply adds_release|]. intros r.
  assert (keeps_held m c (_ ← do_Abandon c; mret true : M W bool)) as Hab
    by (apply keeps_held_of, keeps_bind; [apply keeps_abandon|intros; apply keeps_ret]).
  assert (keeps_held m c
    (if negb (IsZero cutoff) && (grp_createdAt (clm_group c) <? cutoff) then
       all ← send_expired a (clm_messages c);
       if (all : bool) then _ ← do_Settle a c; mret true else _ ← do_Abandon c; mret true
     else _ ← do_Abandon c; mret true)) as Hexp.
  { destruct (_ && _); [|done]. intros w Hw Hl.
    destruct (send_expired_spec a m c (clm_messages c) w Hwb Hw Hl) as (H1 & H2 & H3 & _).
    unfold mbind, M_bind at 1. destruct (send_expired a (clm_messages c) w) as [[[|]|v] w1]; cbn in *.
    - pose proof (settle_keeps a m c w1 H1 H2 (H3 eq_refl)) as Hs.
      unfold mbind, M_bind. by destruct (do_Settle a c w1) as [[]].
    - by apply Hab.
    - done. }
  destruct r as [err|[|]]; [done| |done].
  apply keeps_held_bind; [by apply keeps_release|]. intros [?|]; apply keeps_ret.
Qed.

Lemma keeps_reap (a : Aggregator S E) m fuel : well_behaved a → keeps m (reap fuel a).
Proof.
  intros Hwb w Hw. unfold reap, mbind, M_bind, get.
  destruct (Expired _ _) as [groups [err|]]; [done|].
  generalize (if 0 <? ac_timeout (ag_cfg a)
    then ac_clock (ag_cfg a) (aw_ext w) - ac_timeout (ag_cfg a) else 0). intros cutoff.
  revert w Hw. induction groups as [|g groups IH]; intros w Hw; [done|]. cbn.
  apply keeps_bind; [by apply keeps_reapGroup| |done].
  intros [|]; [|apply keeps_ret]. intros w1 Hw1. apply IH, Hw1.
Qed.
End accounting.

(** ** Termination of the residual loop without interference *)

Section quiet_release.
Context {S E : Type} `{MessageGroupStoreLaws S}.
Abbreviation W := (aworld S E).

Record quiet_callbacks (a : Aggregator S E) : Prop := {
  qc_agg ms : quiet (ag_agg a ms);
  qc_correlate f m : ac_correlate (ag_cfg a) = Some f → quiet (f m);
  qc_release f g : ac_release (ag_cfg a) = Some f → quiet (f g);
  qc_output f m : ac_output (ag_cfg a) = Some f → quiet (f m);
  qc_expired f m : ac_expired (ag_cfg a) = Some f → quiet (f m)
}.

Lemma quiet_adds {A} (c : M (S * E) A) : quiet c → concurrent_adds c.
Proof. intros Hq se Hok. rewrite Hq. split; [done|apply rtc_refl]. Qed.

Lemma quiet_well_behaved a : quiet_callbacks a → well_behaved a.
Proof. intros []. split; eauto using quiet_adds. Qed.

Lemma quiet_call {A B} (f : option (A → M (S * E) B)) x :
  (∀ g, f = Some g → quiet (g x)) → quiet (call ((λ g, g x) <$> f)).
Proof. intros Hf. destruct f as [g|]; cbn; [by apply Hf|done]. Qed.

Lemma cb_quiet {A} (c : M (S * E) A) (w : W) : quiet c → aw_store (cb c w).2 = aw_store w.
Proof.
  intros Hq. unfold cb, zoom. specialize (Hq (aw_store w, aw_ext w)).
  by destruct (c _) as [o [s e]].
Qed.

(** When the callbacks leave the store alone, a release that settles its claim
    leaves exactly what was live beside it. *)
Lemma releaseOnce_quiet (a : Aggregator S E) c w :
  quiet_callbacks a → store_ok (aw_store w) → leases w c →
  (releaseOnce a c w).1 = Ret None →
  store_ok (aw_store (releaseOnce a c w).2) ∧
  store_abs (aw_store (releaseOnce a c w).2) =
    spec_Settle (store_abs (aw_store w)) (clm_key c) (clm_epoch c).
Proof.
  intros Hq Hok Hl. rewrite releaseOnce_eq. unfold release_body.
  pose proof (cb_quiet (ag_agg a (clm_messages c)) w (qc_agg _ Hq _)) as Hs1.
  destruct (cb (ag_agg a (clm_messages c)) w) as [[[e|out]|v] w1] eqn:E1; cbn in Hs1.
  1: by rewrite (bind_eq _ _ _ _ _ E1). 2: by rewrite (bind_panic _ _ _ _ _ E1).
  rewrite (bind_eq _ _ _ _ _ E1).
  pose proof (cb_quiet (call ((λ f, f out) <$> ac_output (ag_cfg a))) w1
    (quiet_call _ _ (λ g Hg, qc_output _ Hq g out Hg))) as Hs2.
  unfold do_output, mbind, M_bind.
  destruct (cb (call _) w1) as [[[e|]|v] w2] eqn:E2; cbn in Hs2 |- *; [done| |done].
  set (w3 := mkWorld (aw_store w2) (aw_ext w2) _).
  destruct (settle_step a c w3) as (r & s' & Es & Hok' & Ha); [cbn; congruence|].
  rewrite Es. destruct r; [done|]. intros _. split; [done|]. cbn. rewrite Ha. cbn. congruence.
Qed.

Lemma settle_leaves_unleased a0 c :
  leased_as a0 (clm_key c) (clm_epoch c) (clm_messages c) →
  match spec_Settle a0 (clm_key c) (clm_epoch c) !! clm_key c with
  | None => True
  | Some g => a_claim g = None
  end ∧
  (∀ g, a0 !! clm_key c = Some g → a_live g = [] →
     spec_Settle a0 (clm_key c) (clm_epoch c) !! clm_key c = None).
Proof.
  intros (g & Hk & Hc). unfold spec_Settle, a_settle. rewrite Hk, Hc, Z.eqb_refl.
  destruct (a_live g) eqn:Hlive.
  - rewrite lookup_delete_eq. by split.
  - rewrite lookup_insert_eq. split; [done|]. intros g' [= <-]. congruence.
Qed.

(** A claim that succeeds takes every live member. *)
Lemma claim_takes_all key (w : W) c s' :
  store_ok (aw_store w) →
  do_Claim key w = (Ret (Some c, None), mkWorld s' (aw_ext w) (aw_trace w)) →
  ∃ g, store_abs s' !! key = Some g ∧ a_live g = [].
Proof.
  intros Hok. unfold do_Claim, on_store.
  pose proof (ClaimGroup_law (aw_store w) key Hok) as HL.
  destruct (ClaimGroup (aw_store w) key) as [r s1]. destruct HL as (_ & _ & _ & HL).
  intros [= -> ->]. destruct HL as [(err & [=] & _)|(_ & _ & Ha)].
  unfold spec_Claim in Ha. destruct (store_abs (aw_store w) !! key) as [g|]; [|done].
  destruct (a_leased g); [done|]. cbn in Ha. injection Ha as _ _ Ha.
  exists (a_take g). by rewrite Ha, lookup_insert_eq.
Qed.

Lemma residual_of_absent (a : Aggregator S E) fuel key (w : W) :
  store_ok (aw_store w) → store_abs (aw_store w) !! key = None →
  (releaseResidual (Datatypes.S fuel) a key w).1 = Ret (Done None).
Proof.
  intros Hok Hk. cbn. destruct (claim_step key w Hok) as (r & s' & Ec & _ & _ & Hc).
  rewrite (bind_eq _ _ _ _ _ Ec). destruct r as [[c|] [err|]]; try done.
  unfold do_Claim, on_store in Ec. pose proof (ClaimGroup_law (aw_store w) key Hok) as HL.
  destruct (ClaimGroup (aw_store w) key) as [r s1]. injection Ec as -> _.
  destruct HL as (_ & _ & _ & [(err & [=] & _)|(_ & _ & Ha)]).
  unfold spec_Claim in Ha. by rewrite Hk in Ha.
Qed.

Lemma residual_terminates (a : Aggregator S E) key (w : W) :
  quiet_callbacks a → store_ok (aw_store w) →
  (releaseResidual 2 a key w).1 ≠ Ret OutOfFuel.
Proof.
  intros Hq Hok. cbn [releaseResidual].
  destruct (claim_step key w Hok) as (r & s' & Ec & Hok' & _ & Hc).
  rewrite (bind_eq _ _ _ _ _ Ec). destruct r as [[c|] [err|]]; try done.
  destruct (Hc c eq_refl) as [<- Hl].
  destruct (claim_takes_all _ _ _ _ Hok Ec) as (g & Hg & Hlive).
  set (w1 := mkWorld s' (aw_ext w) (aw_trace w)) in *.
  pose proof (cb_quiet (call ((λ f, f (clm_group c)) <$> ac_release (ag_cfg a))) w1
    (quiet_call _ _ (λ f Hf, qc_release _ Hq f _ Hf))) as Hs.
  fold (do_release a (clm_group c)) in Hs. unfold mbind at 1, M_bind at 1.
  destruct (do_release a (clm_group c) w1) as [[[e|[|]]|v] w2]; cbn in Hs.
  1, 3: unfold mbind, M_bind, do_Abandon, on_store; by destruct (AbandonGroup _ _).
  2: done.
  assert (leases w2 c) as Hl2 by (unfold leases; by rewrite Hs).
  assert (store_ok (aw_store w2)) as Hok2 by (by rewrite Hs).
  pose proof (releaseOnce_quiet a c w2 Hq Hok2 Hl2) as Hr.
  unfold mbind, M_bind. destruct (releaseOnce a c w2) as [[[e|]|v] w3]; [done| |done].
  destruct (Hr eq_refl) as [Hok3 Ha3]. cbn in Hok3, Ha3.
  pose proof (residual_of_absent a 0 (clm_key c) w3 Hok3) as Hfin.
  cbn [releaseResidual] in Hfin. unfold mbind, M_bind in Hfin. rewrite Hfin; [done|].
  rewrite Ha3, Hs. by apply (settle_leaves_unleased _ c Hl) with g.
Qed.
(** *** Handle runs out of no fuel *)

Lemma finishes_cb {A} (c : M (S * E) A) (k : A → M W loopres) w :
  concurrent_adds c → store_ok (aw_store w) →
  (∀ x w', store_ok (aw_store w') → (k x w').1 ≠ Ret OutOfFuel) →
  ((cb c ≫= k) w).1 ≠ Ret OutOfFuel.
Proof.
  intros Hc Hok Hk. destruct (cb_step c w Hc Hok) as (o & s' & e' & Ec & Hok' & _).
  unfold mbind, M_bind. rewrite Ec. destruct o; [by apply Hk|done].
Qed.

Lemma finishes_claim a key (body : option MessageGroupClaim * option error → M W loopres) w :
  quiet_callbacks a → store_ok (aw_store w) →
  (∀ r w', (∀ c, r ≠ (Some c, None)) → (body r w').1 ≠ Ret OutOfFuel) →
  (∀ c w', (release 2 a c w').1 ≠ Ret OutOfFuel → (body (Some c, None) w').1 ≠ Ret OutOfFuel) →
  ((do_Claim key ≫= body) w).1 ≠ Ret OutOfFuel.
Proof.
  intros Hq Hok Hnone Hsome. destruct (claim_step key w Hok) as (r & s' & Ec & Hok' & _ & Hc).
  rewrite (bind_eq _ _ _ _ _ Ec). destruct r as [[c|] [err|]]; try by apply Hnone.
  apply Hsome. destruct (Hc c eq_refl) as [<- Hl]. unfold release.
  pose proof (releaseOnce_spec a c (mkWorld s' (aw_ext w) (aw_trace w))
    (quiet_well_behaved a Hq) Hok' Hl) as Hr. unfold mbind, M_bind.
  destruct (releaseOnce a c _) as [[[e|]|v] w2]; [done| |done].
  apply residual_terminates; [done|]. apply Hr.
Qed.

Lemma finishes_overflow a key group err w :
  quiet_callbacks a → store_ok (aw_store w) →
  (handle_overflow 2 a key group err w).1 ≠ Ret OutOfFuel.
Proof.
  intros Hq Hok. unfold handle_overflow. destruct group as [| |g]; try done.
  destruct (grp_messages g); [done|].
  apply finishes_cb; [by apply adds_release, quiet_well_behaved|done|].
  intros [rerr|[|]] w1 Hok1; [done| |done]. apply (finishes_claim a); [done..| |].
  - intros [[c|] [?|]] w' Hne; try done. by destruct (Hne c).
  - intros c w' Hr. unfold mbind, M_bind. by destruct (release 2 a c w') as [[[[?|]|]|] ?].
Qed.

Lemma finishes_added a key group w :
  quiet_callbacks a → store_ok (aw_store w) →
  (handle_added 2 a key group w).1 ≠ Ret OutOfFuel.
Proof.
  intros Hq Hok. unfold handle_added. destruct group as [| |g]; try done.
  apply finishes_cb; [by apply adds_release, quiet_well_behaved|done|].
  intros [rerr|[|]] w1 Hok1; [done| |done]. apply (finishes_claim a); [done..| |done].
  intros [[c|] [?|]] w' Hne; try done. by destruct (Hne c).
Qed.
End quiet_release.

(** ** Split, then aggregate *)

Section round_trip.
Context {E : Type}.
Abbreviation W := (aworld GroupStore E).

(** The aggregator as the next handler of a flow. *)
Definition as_handler (fuel : nat) (a : Aggregator GroupStore E) : MessageHandler W := λ m,
  r ← Handle fuel a m;
  match r with Done e => mret e | OutOfFuel => panic "out of fuel" end.

(** An aggregator with the default strategies whose aggregation function
    computes [f] and whose output accepts. *)
Record default_agg (impl_int : spec_float → Z) (f : list msg → msg) (a : Aggregator GroupStore E)
    : Prop := {
  da_assert m : ag_assert a m = None;
  da_agg ms s e : ∃ e', ag_agg a ms (s, e) = (Ret (inr (f ms)), (s, e'));
  da_correlate : ac_correlate (ag_cfg a) = Some (λ m, mret (defaultCorrelate m));
  da_release : ac_release (ag_cfg a) = Some (λ g, mret (inr (defaultRelease impl_int g)));
  da_output : ∃ send, ac_output (ag_cfg a) = Some send ∧
    ∀ m s e, ∃ e', send m (s, e) = (Ret None, (s, e'))
}.

Context (impl_int : spec_float → Z) (f : list msg → msg) (a : Aggregator GroupStore E).
Context (Ha : default_agg impl_int f a).
(** The batch: the stamped, boxed children of one parent. *)
Context (pid : string) (ms : list msg).
Hypothesis Hpid : pid ≠ "".
Hypothesis Hcorr : Forall (λ m, Header m HeaderCorrelationID = Some (AString pid)) ms.
Hypothesis Hsize :
  Forall (λ m, Header m HeaderSequenceSize = Some (AInt (Z.of_nat (length ms)))) ms.
Hypothesis Hids : NoDup (ID <$> ms).
(** The rest of the store. *)
Context (a0 : gmap string agroup).
Hypothesis Ha0 : a0 !! pid = None.

(** The store holds the first [i] members of the batch and nothing else new. *)
Definition holding (i : nat) (w : W) : Prop :=
  wf_store (aw_store w) ∧ Z.of_nat (length ms) ≤ gs_maxGroupMembers (aw_store w) ∧
  Z.of_nat (size a0) < gs_maxGroups (aw_store w) ∧
  abs (aw_store w) = match i with O => a0 | _ => <[pid := mkAGroup (take i ms) None 0]> a0 end.

Lemma do_correlate_default m (w : W) :
  Header m HeaderCorrelationID = Some (AString pid) → do_correlate a m w = (Ret (inr pid), w).
Proof.
  intros Hm. unfold do_correlate, cb, zoom. rewrite (da_correlate _ _ _ Ha). cbn.
  unfold defaultCorrelate. apply Headers_String_Get in Hm. unfold Header in Hm. rewrite Hm.
  rewrite bool_decide_eq_true_2 by done. by destruct w.
Qed.

Lemma do_release_default g (w : W) : do_release a g w = (Ret (inr (defaultRelease impl_int g)), w).
Proof.
  unfold do_release, cb, zoom. rewrite (da_release _ _ _ Ha). cbn. by destruct w.
Qed.

Lemma unseen i m :
  ms !! i = Some m → a_seen (mkAGroup (take i ms) None 0) m = false.
Proof.
  intros Hi. unfold a_seen. apply not_true_iff_false. intros (m' & Hin & Hs)%existsb_exists.
  apply list_elem_of_In, list_elem_of_lookup in Hin as (j & Hj).
  cbn in Hj. pose proof (lookup_lt_Some _ _ _ Hj) as Hlt. rewrite length_take in Hlt.
  rewrite lookup_take in Hj. case_decide; [|done].
  unfold same_id in Hs. bool_to_prop. destruct Hs as [_ Hs].
  assert (i = j); [|lia]. eapply (proj1 (NoDup_alt _) Hids i j (ID m)).
  - by rewrite list_lookup_fmap, Hi.
  - by rewrite list_lookup_fmap, Hj, Hs.
Qed.

Lemma defaultRelease_prefix g i :
  (i < length ms)%nat → grp_messages g = take (Datatypes.S i) ms →
  defaultRelease impl_int g = (length ms <=? Datatypes.S i)%nat.
Proof.
  intros Hi Hg. unfold defaultRelease. rewrite Hg. destruct ms as [|m0 rest] eqn:Ems; [cbn in Hi; lia|].
  cbn [take]. unfold firstHeader. apply Forall_cons_1 in Hsize as [Hm0 _]. rewrite Hm0.
  cbn [asInt]. apply eq_true_iff_eq. rewrite Z.leb_le, Nat.leb_le. cbn [length].
  rewrite length_take. cbn in Hi. lia.
Qed.

(** Adding the next member of the batch. *)
Lemma holding_add i m w :
  holding i w → ms !! i = Some m →
  ∃ g w', do_Add a pid m w = (Ret (GVal g, None), w') ∧
    grp_messages g = take (Datatypes.S i) ms ∧ holding (Datatypes.S i) w' ∧
    aw_trace w' = aw_trace w ∧ aw_ext w' = aw_ext w.
Proof.
  intros (Hw & Hmm & Hmg & Habs) Hi. unfold do_Add, on_store. cbn [Add GroupStore_MessageGroupStore].
  pose proof (wf_Add (ac_clock (ag_cfg a) (aw_ext w)) (aw_store w) pid m Hw) as HL.
  destruct (GroupStore_Add _ _ _ _) as [r s']. destruct HL as (Hw' & E1 & E2 & HL).
  pose proof (lookup_lt_Some _ _ _ Hi) as Hlt.
  assert ((add_view r, abs s') =
    ((Some (take (Datatypes.S i) ms), None), <[pid := mkAGroup (take (Datatypes.S i) ms) None 0]> a0))
    as HL'.
  { rewrite HL, Habs. unfold spec_Add. destruct i as [|i].
    - rewrite Ha0. replace (_ <=? _) with false by (symmetry; apply Z.leb_gt; lia).
      by rewrite (take_S_r _ _ _ Hi).
    - rewrite lookup_insert_eq, unseen by done.
      replace (_ <=? _) with false
        by (symmetry; apply Z.leb_gt; unfold a_members; cbn -[take]; rewrite length_take; lia).
      cbn -[take]. rewrite insert_insert_eq. unfold a_add. cbn -[take].
      by rewrite (take_S_r _ _ _ Hi). }
  injection HL' as Hv1 Hv2 Habs'. destruct r as [[| |g] [err|]]; cbn in Hv1, Hv2; try done.
  exists g. eexists. split; [done|]. injection Hv1 as Hv1. split; [done|].
  split; [|done]. split; [done|]. cbn. rewrite E1, E2. done.
Qed.

(** Claiming and releasing the complete batch. *)
Lemma holding_release w :
  (0 < length ms)%nat → holding (length ms) w →
  ∃ w', (c ← do_Claim pid;
         match c with
         | (_, Some err) => mret (Done (Some err))
         | (None, None) => mret (Done None)
         | (Some claim, None) => release 1 a claim
         end) w = (Ret (Done None), w') ∧
    abs (aw_store w') = a0 ∧ wf_store (aw_store w') ∧
    aw_trace w' = aw_trace w ++ [AOut ms (f ms) None].
Proof.
  intros Hpos (Hw & _ & _ & Habs). destruct (length ms) as [|n] eqn:Hn; [lia|].
  rewrite take_ge in Habs by lia.
  pose proof (wf_Claim (aw_store w) pid Hw) as HL. unfold do_Claim, on_store, mbind, M_bind.
  cbn [ClaimGroup GroupStore_MessageGroupStore].
  destruct (GroupStore_ClaimGroup _ _) as [r s1]. destruct HL as (Hw1 & _ & _ & Hr2 & Hkey & HL).
  unfold spec_Claim in HL. rewrite Habs, lookup_insert_eq in HL. cbn in HL.
  destruct r as [[c|] [err|]]; try done. injection HL as He Hms Habs1. specialize (Hkey c eq_refl).
  rewrite insert_insert_eq in Habs1.
  unfold release, mbind, M_bind. rewrite releaseOnce_eq. unfold release_body, mbind, M_bind.
  destruct (da_agg _ _ _ Ha (clm_messages c) s1 (aw_ext w)) as [e1 Ea].
  unfold cb at 1, zoom at 1. cbn [aw_store aw_ext]. rewrite Ea.
  destruct (da_output _ _ _ Ha) as (send & Hsend & Hok).
  unfold do_output, mbind, M_bind, cb, zoom. rewrite Hsend. cbn [fmap option_fmap option_map call].
  cbn [fst snd aw_store aw_ext aw_trace].
  destruct (Hok (f (clm_messages c)) s1 e1) as [e2 Es]. rewrite Es. cbn [fst snd].
  unfold record_event, modify. cbn [aw_store aw_ext aw_trace].
  unfold mret, M_ret, do_Settle, on_store. cbn [SettleGroup GroupStore_MessageGroupStore aw_store aw_ext aw_trace].
  pose proof (wf_Settle (ac_clock (ag_cfg a) e2) s1 c Hw1) as HS.
  destruct (GroupStore_SettleGroup _ _ _) as [r s2]. destruct HS as (Hw2 & _ & _ & -> & Habs2).
  rewrite Habs1, Hkey in Habs2. unfold spec_Settle, a_settle in Habs2.
  rewrite lookup_insert_eq in Habs2. cbn in Habs2. rewrite He, Z.eqb_refl in Habs2.
  rewrite delete_insert_eq, (delete_id _ _ Ha0) in Habs2.
  cbn [releaseResidual]. unfold do_Claim, on_store, mbind, M_bind. cbn [aw_store aw_ext aw_trace].
  cbn [ClaimGroup GroupStore_MessageGroupStore]. rewrite Hkey.
  unfold GroupStore_ClaimGroup.
  assert (gs_groups s2 !! pid = None) as ->.
  { pose proof (abs_lookup s2 pid) as Hl. rewrite Habs2, Ha0 in Hl. by destruct (gs_groups s2 !! pid). }
  eexists. split; [done|]. cbn. by rewrite Hms.
Qed.

Lemma handle_hold i m w :
  holding i w → ms !! i = Some m → (Datatypes.S i < length ms)%nat →
  ∃ w', as_handler 1 a m w = (Ret None, w') ∧ holding (Datatypes.S i) w' ∧ aw_trace w' = aw_trace w.
Proof.
  intros Hw Hi Hlt. unfold as_handler, Handle. rewrite (da_assert _ _ _ Ha).
  pose proof (Forall_lookup_1 _ _ _ _ Hcorr Hi) as Hc.
  unfold mbind, M_bind. rewrite do_correlate_default by done.
  destruct (holding_add i m w Hw Hi) as (g & w' & Eadd & Hg & Hw' & Ht & _). rewrite Eadd.
  unfold handle_added, mbind, M_bind. rewrite do_release_default, (defaultRelease_prefix g i) by (done || lia).
  replace (_ <=? _)%nat with false by (symmetry; apply Nat.leb_gt; lia).
  by exists w'.
Qed.

Lemma handle_last i m w :
  holding i w → ms !! i = Some m → Datatypes.S i = length ms →
  ∃ w', as_handler 1 a m w = (Ret None, w') ∧ abs (aw_store w') = a0 ∧ wf_store (aw_store w') ∧
    aw_trace w' = aw_trace w ++ [AOut ms (f ms) None].
Proof.
  intros Hw Hi Hlt. unfold as_handler, Handle. rewrite (da_assert _ _ _ Ha).
  pose proof (Forall_lookup_1 _ _ _ _ Hcorr Hi) as Hc.
  unfold mbind, M_bind at 1. unfold mbind, M_bind at 1. rewrite do_correlate_default by done.
  destruct (holding_add i m w Hw Hi) as (g & w' & Eadd & Hg & Hw' & Ht & _).
  unfold mbind, M_bind at 1. rewrite Eadd.
  unfold handle_added. rewrite (bind_eq _ _ _ _ _ (do_release_default g w')).
  rewrite (defaultRelease_prefix g i) by (done || lia).
  replace (_ <=? _)%nat with true by (symmetry; apply Nat.leb_le; lia).
  rewrite Hlt in Hw'. destruct (holding_release w') as (w2 & -> & H1 & H2 & H3); [lia|done|].
  exists w2. split; [done|]. split; [done|]. split; [done|]. by rewrite H3, Ht.
Qed.

Lemma handle_suffix i w :
  holding i w → (i < length ms)%nat →
  ∃ w', until_error (as_handler 1 a <$> drop i ms) w = (Ret None, w') ∧ abs (aw_store w') = a0 ∧
    wf_store (aw_store w') ∧ aw_trace w' = aw_trace w ++ [AOut ms (f ms) None].
Proof.
  intros Hw Hi. remember (length ms - i)%nat as n eqn:Hn.
  revert i w Hw Hi Hn. induction n as [|n IH]; intros i w Hw Hi Hn; [lia|].
  destruct (lookup_lt_is_Some_2 ms i Hi) as [m Hm]. rewrite (drop_S _ _ _ Hm). cbn [fmap list_fmap until_error].
  destruct (decide (Datatypes.S i = length ms)) as [Hl|Hl].
  - destruct (handle_last i m w Hw Hm Hl) as (w' & Eh & H1 & H2 & H3).
    rewrite (bind_eq _ _ _ _ _ Eh), drop_ge by lia. by exists w'.
  - destruct (handle_hold i m w Hw Hm) as (w1 & Eh & Hw1 & Ht); [lia|].
    rewrite (bind_eq _ _ _ _ _ Eh), <- Ht. apply IH; [done|lia|lia].
Qed.
End round_trip.

(** The headers of a batch as the splitter stamps it. *)

Lemma stamped_correlation {B} `{GoType B} parent (children : list (Message B)) :
  ID parent ≠ "" → Forall (λ c, Header c HeaderCorrelationID = None) children →
  Forall (λ m, Header m HeaderCorrelationID = Some (AString (ID parent)))
    (boxMessage <$> stamped parent children).
Proof.
  intros Hp Hnc. apply Forall_fmap, Forall_lookup. intros i c Hi. cbn.
  apply stamped_lookup in Hi as (c0 & Hi & ->).
  pose proof (Forall_lookup_1 _ _ _ _ Hnc Hi) as Hc0. cbn in Hc0.
  pose proof (stamp_correlation c0 parent (Z.of_nat i + 1) (Z.of_nat (length children)) Hp) as Hs.
  by rewrite Hc0 in Hs.
Qed.

Lemma stamped_size {B} `{GoType B} parent (children : list (Message B)) :
  Forall (λ m, Header m HeaderSequenceSize = Some (AInt (Z.of_nat (length children))))
    (boxMessage <$> stamped parent children).
Proof.
  apply Forall_fmap, Forall_lookup. intros i c Hi. cbn.
  apply stamped_lookup in Hi as (c0 & Hi & ->). apply stamp_sequence.
Qed.

(** ** Properties of the aggregator *)

(** A concrete aggregator over the memory store: it forwards the first member
    of a batch once two members have arrived, and while the output channel
    runs another goroutine adds the member "late". *)
Definition demo_agg : Aggregator GroupStore unit :=
  mkAggregator (λ _, None)
    (λ ms, mret (inr (match ms with m :: _ => m | [] => sample "none" end)))
    (mkAggConfig
       (Some (λ _ se, (Ret None, ((GroupStore_Add 9 se.1 "k" (sample "late")).2, se.2))))
       (Some (λ _, mret (inr "k")))
       (Some (λ g, mret (inr (2 <=? Z.of_nat (length (grp_messages g))))))
       10 (Some (λ _, mret None)) (λ _, 50) 0 false).

Lemma adds_of_Add now key m e :
  concurrent_adds (S := GroupStore) (E := unit)
    (λ se, (Ret e : outcome (option error), ((GroupStore_Add now se.1 key m).2, se.2))).
Proof.
  intros se Hok. cbn. pose proof (wf_Add now se.1 key m Hok) as Hadd.
  destruct (GroupStore_Add _ _ _ _) as [r s']. destruct Hadd as (Hw & _ & _ & Hadd).
  split; [done|]. apply rtc_once. exists (gs_maxGroups se.1), (gs_maxGroupMembers se.1), (OpAdd 0 key m).
  split; [done|]. cbn. by rewrite <- Hadd.
Qed.

Lemma demo_agg_well_behaved : well_behaved demo_agg.
Proof.
  split; cbn; intros *; [|intros [= <-]..]; first [apply adds_of_Add | by apply quiet_adds].
Qed.

Definition demo_world (s : GroupStore) : aworld GroupStore unit := mkWorld s tt [].

(** C1. No member is ever lost by Handle: whatever Handle returns, and also when
    a callback panics, and whatever other goroutines add meanwhile, every
    member that was accounted for (retained by the store, or in a batch the
    output accepted, or accepted by the expired channel) still is; and when
    Handle returns nil, so that the source acknowledges the message, the
    message itself is accounted for, or a stored member with its id is. *)
Theorem handle_accounts {S E} `{MessageGroupStoreLaws S} (a : Aggregator S E) fuel m w :
  well_behaved a → store_ok (aw_store w) →
  let '(o, w') := Handle fuel a m w in
  (∀ m', safe m' w → safe m' w') ∧
  (o = Ret (Done None) → ∃ m', (m' = m ∨ same_id m m' = true) ∧ safe m' w').
Proof.
  intros Hwb Hok. destruct (Handle fuel a m w) as [o w'] eqn:EH. split.
  { intros m' Hm'. pose proof (keeps_Handle a m' fuel m Hwb w (conj Hok Hm')) as [_ Hs].
    by rewrite EH in Hs. }
  intros ->. unfold Handle in EH. destruct (ag_assert a m); [done|].
  apply bind_inv in EH as ([err|key] & w1 & Ek & EH); [done|].
  destruct (cb_step _ w (adds_correlate a m Hwb) Hok) as (o & s1 & e1 & Ecb & Hok1 & _).
  unfold do_correlate in Ek. rewrite Ecb in Ek. injection Ek as -> <-.
  destruct (add_step_spec a key m (mkWorld s1 e1 (aw_trace w)) Hok1) as (r & s2 & Eadd & Hok2 & _ & Hacc).
  rewrite (bind_eq _ _ _ _ _ Eadd) in EH. destruct r as [group [err|]].
  - destruct (negb _); [done|]. pose proof (overflow_not_nil a fuel key group err
      (mkWorld s2 e1 (aw_trace w))) as Hn. cbn in EH. by rewrite EH in Hn.
  - destruct (Hacc eq_refl) as (m' & Hm' & Hret). exists m'. split; [done|].
    pose proof (keeps_added a m' fuel key group Hwb (mkWorld s2 e1 (aw_trace w))) as Hk.
    cbn in EH. rewrite EH in Hk. apply Hk. split; [done|by left].
Qed.

Lemma handle_accounts_witness :
  let '(o, w') := Handle 2 demo_agg (sample "c") (demo_world demo_two) in
  (∀ m', safe m' (demo_world demo_two) → safe m' w') ∧
  (o = Ret (Done None) → ∃ m', (m' = sample "c" ∨ same_id (sample "c") m' = true) ∧ safe m' w').
Proof.
  apply (handle_accounts demo_agg 2 (sample "c") (demo_world demo_two)).
  - exact demo_agg_well_behaved.
  - exact demo_two_wf.
Defined.

(** The expiry reaper loses nothing either: a sweep keeps every member
    accounted for; in particular a group is settled as expired only after the
    expired channel accepted every one of its members. *)
Theorem reap_accounts {S E} `{MessageGroupStoreLaws S} (a : Aggregator S E) fuel m w :
  well_behaved a → store_ok (aw_store w) → safe m w →
  safe m (reap fuel a w).2.
Proof. intros Hwb Hok Hm. by apply (keeps_reap a m fuel Hwb w). Qed.

Lemma reap_accounts_witness : safe (sample "a") (reap 2 demo_agg (demo_world demo_two)).2.
Proof.
  apply (reap_accounts demo_agg 2 (sample "a") (demo_world demo_two)).
  - exact demo_agg_well_behaved.
  - exact demo_two_wf.
  - left. vm_compute. left.
Defined.

(** [Run] loses nothing for as long as it runs, with its ticker or without. *)
Theorem run_accounts_members {S E} `{MessageGroupStoreLaws S} (a : Aggregator S E) fuel ticks m w :
  well_behaved a → store_ok (aw_store w) → safe m w →
  safe m (Aggregator_Run fuel ticks a w).2 ∧
  (reapInterval a (aw_store w) <= 0 → Aggregator_Run fuel ticks a w = (Ret tt, w)).
Proof.
  intros Hwb Hok Hm. assert (Hk : keeps m (reap_ticks fuel ticks a)).
  { induction ticks as [|ticks IH]; cbn; [apply keeps_ret|].
    apply keeps_bind; [by apply keeps_reap|]. intros _. exact IH. }
  unfold Aggregator_Run, mbind, M_bind, get. destruct (Z.leb_spec (reapInterval a (aw_store w)) 0) as [|Hi]; [done|].
  split; [by apply Hk|lia].
Qed.

(** One release settles exactly its batch or gives it back: when releaseOnce
    returns nil, the output accepted exactly one message, made of exactly the
    claimed batch, and the claim was settled; when it fails or panics, the
    claim is abandoned, or, should the store refuse that, left as it was.
    Either way [a2] is the store at that point, with the claim still frozen
    and all concurrent additions in it. *)
Theorem release_settles_or_abandons {S E} `{MessageGroupStoreLaws S} (a : Aggregator S E) c w :
  well_behaved a → store_ok (aw_store w) → leases w c →
  released c w (releaseOnce a c w).1 (releaseOnce a c w).2.
Proof. apply releaseOnce_spec. Qed.

Definition demo_leased : aworld GroupStore unit :=
  demo_world (GroupStore_ClaimGroup demo_two "k").2.

Lemma demo_leased_ok : wf_store (aw_store demo_leased) ∧ leases demo_leased demo_claim.
Proof.
  assert (GroupStore_ClaimGroup demo_two "k" =
    ((Some demo_claim, None), (GroupStore_ClaimGroup demo_two "k").2)) as Ec by (vm_compute; reflexivity).
  destruct (Claim_leases _ _ _ _ demo_two_wf Ec) as (Hw & Hk & Hl). by split.
Qed.

Lemma release_settles_or_abandons_witness :
  released demo_claim demo_leased (releaseOnce demo_agg demo_claim demo_leased).1
    (releaseOnce demo_agg demo_claim demo_leased).2.
Proof.
  apply (release_settles_or_abandons demo_agg demo_claim demo_leased).
  - exact demo_agg_well_behaved.
  - exact (proj1 demo_leased_ok).
  - exact (proj2 demo_leased_ok).
Defined.

(** Handle terminates when nothing else touches the store while its
    callbacks run: two rounds of the residual loop are enough, since a claim
    takes every live member and settling it empties the group. *)
Theorem handle_terminates {S E} `{MessageGroupStoreLaws S} (a : Aggregator S E) m w :
  quiet_callbacks a → store_ok (aw_store w) →
  (Handle 2 a m w).1 ≠ Ret OutOfFuel.
Proof.
  intros Hq Hok. pose proof (quiet_well_behaved a Hq) as Hwb.
  unfold Handle. destruct (ag_assert a m); [done|].
  apply finishes_cb; [by apply adds_correlate|done|]. intros [err|key] w1 Hok1; [done|].
  destruct (add_step_spec a key m w1 Hok1) as (r & s2 & Eadd & Hok2 & _ & _).
  rewrite (bind_eq _ _ _ _ _ Eadd). destruct r as [group [err|]].
  - destruct (negb _); [done|]. by apply finishes_overflow.
  - by apply finishes_added.
Qed.

(** The default strategies over the memory store; the combined message is the
    first of the batch and the output accepts everything. *)
Definition demo_join : Aggregator GroupStore unit :=
  mkAggregator (λ _, None)
    (λ ms, mret (inr (match ms with m :: _ => m | [] => sample "none" end)))
    (mkAggConfig (Some (λ _, mret None)) (Some (λ m, mret (defaultCorrelate m)))
       (Some (λ g, mret (inr (defaultRelease (λ _, 0) g)))) 0 None (λ _, 50) 0 false).

Lemma demo_join_quiet : quiet_callbacks demo_join.
Proof. by split; cbn; intros *; [|intros [= <-]..]. Qed.

Lemma handle_terminates_witness :
  (Handle 2 demo_join (sample "c") (demo_world demo_two)).1 ≠ Ret OutOfFuel.
Proof.
  apply (handle_terminates demo_join (sample "c") (demo_world demo_two)).
  - exact demo_join_quiet.
  - exact demo_two_wf.
Defined.

(** An overflow is never swallowed and is classified for the caller: after an
    Add that reported ErrOverflowDropped with error [err], Handle returns the
    store's own error when the group is not releasable, that error joined with
    the release strategy's, the claim's error, or, once the group was found
    releasable, an error that matches ErrOverflowDropped and is not permanent,
    so that the delivery is retried against the drained group. *)
Theorem overflow_classified {S E} `{MessageGroupStore S} (a : Aggregator S E) fuel key group err w e w' :
  handle_overflow fuel a key group err w = (Ret (Done e), w') →
  e = Some err ∨
  (∃ g rerr w1, group = GVal g ∧ do_release a g w = (Ret (inl rerr), w1) ∧
     e = Some (JoinErr [err; rerr])) ∨
  (∃ g w1, group = GVal g ∧ do_release a g w = (Ret (inr true), w1) ∧
     ((∃ c cerr w2, do_Claim key w1 = (Ret (c, Some cerr), w2) ∧ e = Some cerr) ∨
      (∃ e', e = Some e' ∧ Is e' ErrOverflowDropped = true ∧ IsPermanent (Some e') = false))).
Proof.
  unfold handle_overflow. intros Hh. destruct group as [| |g]; [injection Hh as <- _; by left..|].
  destruct (grp_messages g); [injection Hh as <- _; by left|].
  apply bind_inv in Hh as ([rerr|[|]] & w1 & Er & Hh).
  - injection Hh as <- _. right. left. by exists g, rerr, w1.
  - right. right. exists g, w1. do 2 (split; [done|]).
    apply bind_inv in Hh as ([[c|] [cerr|]] & w2 & Ec & Hh).
    1, 3: injection Hh as <- _; left; by eexists _, cerr, w2.
    + right. apply bind_inv in Hh as ([[relErr|]|] & w3 & _ & Hh); [| |done];
        injection Hh as <- _; by eexists.
    + right. injection Hh as <- _. by eexists.
  - injection Hh as <- _. by left.
Qed.

Definition full_err : error := Sentinel ErrOverflowDropped.

(** What the memory store returns with the overflow of group "k". *)
Definition full_group : MessageGroup := mkGroup "k" [sample "a"; sample "b"] 1.
Definition full_result := handle_overflow 3 demo_agg "k" (GVal full_group) full_err (demo_world demo_two).
Definition full_answer : option error := Some (overflowRetryable "k" "drained by this release").

Lemma overflow_classified_witness :
  full_answer = Some full_err ∨
  (∃ g rerr w1, GVal full_group = GVal g ∧ do_release demo_agg g (demo_world demo_two) = (Ret (inl rerr), w1) ∧
    full_answer = Some (JoinErr [full_err; rerr])) ∨
  (∃ g w1, GVal full_group = GVal g ∧ do_release demo_agg g (demo_world demo_two) = (Ret (inr true), w1) ∧
    ((∃ c cerr w2, do_Claim "k" w1 = (Ret (c, Some cerr), w2) ∧ full_answer = Some cerr) ∨
     (∃ e', full_answer = Some e' ∧ Is e' ErrOverflowDropped = true ∧ IsPermanent (Some e') = false))).
Proof.
  apply (overflow_classified demo_agg 3 "k" (GVal full_group) full_err (demo_world demo_two)
    full_answer full_result.2). vm_compute. reflexivity.
Defined.

(** Splitting a message and aggregating the parts with the default strategies
    is a round trip: the parts are collected under the parent's id, the last
    one releases exactly the whole batch, in order and once, to the output,
    every Handle call succeeds, and the store is left as it was before. *)
Theorem split_then_aggregate {E B} `{GoType B} impl_int f (a : Aggregator GroupStore E) parent
    (children : list (Message B)) w :
  default_agg impl_int f a → ID parent ≠ "" → children ≠ [] →
  Forall (λ c, Header c HeaderCorrelationID = None) children →
  wf_store (aw_store w) → abs (aw_store w) !! ID parent = None →
  Z.of_nat (length children) ≤ gs_maxGroupMembers (aw_store w) →
  Z.of_nat (size (abs (aw_store w))) < gs_maxGroups (aw_store w) →
  let batch := boxMessage <$> stamped parent children in
  ∃ w', forwardSplit (as_handler 1 a) parent children w = (Ret None, w') ∧
    abs (aw_store w') = abs (aw_store w) ∧ wf_store (aw_store w') ∧
    aw_trace w' = aw_trace w ++ [AOut batch (f batch) None].
Proof.
  intros Ha Hp Hne Hnc Hwf Habs Hm Hg batch.
  assert (length batch = length children) as Hlen
    by (unfold batch, stamped; by rewrite length_fmap, length_imap).
  rewrite forwardSplit_eq.
  replace ((λ c, as_handler 1 a (boxMessage c)) <$> stamped parent children)
    with (as_handler 1 a <$> drop 0 batch) by (unfold batch; by rewrite drop_0, <- list_fmap_compose).
  apply (handle_suffix impl_int f a Ha (ID parent) batch).
  - done.
  - by apply stamped_correlation.
  - rewrite Hlen. apply stamped_size.
  - unfold batch. rewrite <- list_fmap_compose. by apply stamped_NoDup.
  - done.
  - split; [done|]. rewrite Hlen. done.
  - rewrite Hlen. destruct children; [done|]. cbn. lia.
Qed.

Definition demo_parent : msg := sample "p".
Definition demo_children : list msg :=
  [NewMessage (AString "x") (mkHeaders None); NewMessage (AString "y") (mkHeaders None)].
Definition demo_first (ms : list msg) : msg := match ms with m :: _ => m | [] => sample "none" end.

Lemma demo_join_default : default_agg (λ _, 0) demo_first demo_join.
Proof.
  split; try done.
  - intros. by eexists.
  - eexists. split; [done|]. intros. by eexists.
Qed.

Lemma split_then_aggregate_witness :
  let batch := boxMessage <$> stamped demo_parent demo_children in
  ∃ w', forwardSplit (as_handler 1 demo_join) demo_parent demo_children (demo_world demo_two) = (Ret None, w') ∧
    abs (aw_store w') = abs demo_two ∧ wf_store (aw_store w') ∧
    aw_trace w' = [] ++ [AOut batch (demo_first batch) None].
Proof.
  apply (split_then_aggregate (λ _, 0) demo_first demo_join demo_parent demo_children (demo_world demo_two)).
  - exact demo_join_default.
  - vm_compute. discriminate.
  - vm_compute. discriminate.
  - repeat constructor.
  - exact demo_two_wf.
  - vm_compute. reflexivity.
  - vm_compute. discriminate.
  - vm_compute. reflexivity.
Defined.

(** An aggregator that is accepted can run: no call of Handle or of the reaper
    meets a nil strategy or channel, a group timeout comes with the channel
    its expired members go to, and a completion size is in range; and a nil
    store, a nil function and a nil option are each refused with their own
    sentinel. *)
Theorem new_aggregator_sound {S E A B} `{GoType A, GoType B} impl_int store_nil clock fn opts :
  match NewAggregator (S := S) (E := E) (A := A) (B := B) impl_int store_nil clock fn opts with
  | inr a =>
      is_Some (ac_correlate (ag_cfg a)) ∧ is_Some (ac_release (ag_cfg a)) ∧
      is_Some (ac_output (ag_cfg a)) ∧
      (0 < ac_timeout (ag_cfg a) → is_Some (ac_expired (ag_cfg a))) ∧
      (ac_completionSizeSet (ag_cfg a) = true → 1 ≤ ac_completionSize (ag_cfg a) ≤ 65536) ∧
      store_nil = false ∧ is_Some fn ∧ None ∉ opts
  | inl e =>
      (store_nil = true → Is e ErrNilStore = true) ∧
      (store_nil = false → fn = None ∨ None ∈ opts → Is e ErrNilFunc = true)
  end.
Proof.
  unfold NewAggregator. destruct store_nil; [done|]. destruct fn as [fn|]; [|done].
  pose proof (apply_opts_cases opts (mkAggConfig None (Some (λ m, mret (defaultCorrelate m)))
    (Some (λ g, mret (inr (defaultRelease impl_int g)))) 0 None clock 0 false)) as Hopts.
  destruct (apply_opts opts _) as [i|cfg]; [done|].
  assert (∀ e, false = true → Is e ErrNilStore = true) as Hns by done.
  assert (∀ e, false = false → Some fn = None ∨ None ∈ opts → Is e ErrNilFunc = true) as Hnf
    by (intros e _ [[=]|?]; done).
  case_bool_decide; [by split|]. case_bool_decide; [by split|].
  destruct (if ac_completionSizeSet cfg then _ else _) eqn:Hsz; [by split; [apply Hns|apply Hnf]|].
  case_bool_decide; [by split; [apply Hns|apply Hnf]|]. destruct (_ && _) eqn:Hexp; [by split; [apply Hns|apply Hnf]|].
  cbn [ag_cfg]. rewrite <- !not_eq_None_Some. split_and!; try done.
  - intros Ht%Z.ltb_lt Hn. rewrite Ht, Hn in Hexp. done.
  - intros Hs. rewrite Hs in Hsz. by apply checkRange_ok in Hsz.
Qed.
