(* ===== verification/Expr.v ===== *)
(** * Expressions as routing functions

    [expr/compile.go] and [expr/provider.go]: runtime expressions compiled into the
    functions the routing steps and the aggregator take.  The expression language is
    the package expr-lang, which is not part of this repository: [Compile] and [Run]
    (and their twins for groups) are parameters of everything here, of which nothing
    is assumed.  What an expression evaluates to is a dynamic value, read through
    [reflect] by its kind. *)

From Stdlib Require Import Ascii Floats.SpecFloat.
From S2P Require Import Prelude Message GroupStore Flow Aggregator.
Local Open Scope Z_scope.

(** ** Dynamic values *)

(** A Go value as an expression can return it: one of [any], a bool, a value of a
    named string type, or a slice or an array with its elements. *)
Inductive dyn : Type :=
  | DAny (a : any)
  | DBool (b : bool)
  | DNamed (ty s : string)
  | DSlice (elems : list dyn)
  | DArray (elems : list dyn).

(** The assertion [v.(B)]. *)
Class DynType (B : Type) := dyn_assert : dyn → option B.
#[export] Instance DynType_string : DynType string :=
  λ d, match d with DAny (AString s) => Some s | _ => None end.
#[export] Instance DynType_bool : DynType bool := λ d, match d with DBool b => Some b | _ => None end.

(** [reflect.ValueOf(out)] of kind String, and of kind Slice or Array. *)
Definition string_kind (d : dyn) : option string :=
  match d with DAny (AString s) => Some s | DNamed _ s => Some s | _ => None end.
Definition byte_value (a : ascii) : dyn := DAny (AOther "uint8" (Z.of_N (N_of_ascii a))).
Definition list_kind (d : dyn) : option (list dyn) :=
  match d with
  | DSlice elems | DArray elems => Some elems
  | DAny (ABytes b) => Some (byte_value <$> b)
  | _ => None
  end.

(** ** compile.go *)

Definition ErrInvalidExpression : sentinel := OtherSentinel "msgin/expr: invalid expression".

Definition evalError (expression : string) (err : error) : error :=
  Errorf [err] [FStr "msgin/expr: evaluating"; FStr expression].
Definition payloadError (expression : string) (err : error) : error := Errorf [err] [FStr expression].
Definition resultTypeError (expression : string) : error :=
  Errorf [Sentinel ErrPayloadType] [FStr "expr result"; FStr expression].

Definition stringResult (expression : string) (out : dyn) : error + string :=
  match string_kind out with
  | Some s => inr s
  | None => inl (resultTypeError expression)
  end.

Inductive outputKind : Type := outputBool | outputString | outputAny.

Record messageEnv (A : Type) : Type := mkEnv { env_Payload : A; env_Header : string → any }.
Arguments mkEnv {A} _ _.
Arguments env_Payload {A} _.
Arguments env_Header {A} _ _.

(** [func(k string) any { v, _ := msg.Header(k); return v }] *)
Definition header_of {A} (m : Message A) (k : string) : any := default ANil (Header m k).
Definition message_env {A} (m : Message A) : messageEnv A := mkEnv (msg_payload m) (header_of m).

Record groupEnv (A : Type) : Type := mkGroupEnv { env_Messages : list (messageEnv A); env_Size : Z }.
Arguments mkGroupEnv {A} _ _.
Arguments env_Messages {A} _.
Arguments env_Size {A} _.

Section expr.
Context {A : Type} `{GoType A}.
(** [strings.TrimSpace], what a conversion of a double that fits no int gives, and
    the expression language. *)
Context (trim : string → string) (impl_int : spec_float → Z).
Context {program group_program : Type}.
Context (Compile : string → outputKind → error + program).
Context (Run : program → messageEnv A → error + dyn).
Context (CompileGroup : string → error + group_program).
Context (RunGroup : group_program → groupEnv A → error + dyn).

Definition invalid (expression : string) (err : error) : error :=
  Errorf [Sentinel ErrInvalidExpression; err] [FStr expression].
Definition compile (expression : string) (kind : outputKind) : error + (Message A → error + dyn) :=
  if bool_decide (trim expression = "") then
    inl (Errorf [Sentinel ErrInvalidExpression] [FStr "empty expression"])
  else
    match Compile expression kind with
    | inl err => inl (invalid expression err)
    | inr program => inr (λ m,
        match Run program (message_env m) with
        | inl err => inl (evalError expression err)
        | inr out => inr out
        end)
    end.
Definition compileGroup (expression : string) : error + (groupEnv A → error + dyn) :=
  if bool_decide (trim expression = "") then
    inl (Errorf [Sentinel ErrInvalidExpression] [FStr "empty expression"])
  else
    match CompileGroup expression with
    | inl err => inl (invalid expression err)
    | inr program => inr (λ env,
        match RunGroup program env with
        | inl err => inl (evalError expression err)
        | inr out => inr out
        end)
    end.

(** The members of the group, each payload asserted to [A]. *)
Fixpoint group_members (expression : string) (msgs : list msg) : error + list (messageEnv A) :=
  match msgs with
  | [] => inr []
  | m :: msgs =>
      match PayloadOf (T := A) m with
      | inl err => inl (payloadError expression err)
      | inr tm =>
          match group_members expression msgs with
          | inl err => inl err
          | inr rest => inr (mkEnv (msg_payload tm) (header_of m) :: rest)
          end
      end
  end.
Definition toGroupEnv (expression : string) (g : option MessageGroup) : error + groupEnv A :=
  match g with
  | None => inr (mkGroupEnv [] 0)
  | Some g =>
      match grp_messages g with
      | [] => inr (mkGroupEnv [] 0)
      | msgs =>
          match group_members expression msgs with
          | inl err => inl err
          | inr members => inr (mkGroupEnv members (default 0 (asInt impl_int (firstHeader msgs HeaderSequenceSize))))
          end
      end
  end.

(** The loop of [sliceToChildren] from element [i] on. *)
Fixpoint children_from {B} `{DynType B} (expression : string) (i : nat) (elems : list dyn) (parent : Message A)
    : error + list (Message B) :=
  match elems with
  | [] => inr []
  | elem :: elems =>
      match dyn_assert elem with
      | None => inl (Errorf [Sentinel ErrPayloadType] [FStr "expr result element"; FInt (Z.of_nat i); FStr expression])
      | Some b =>
          match children_from expression (S i) elems parent with
          | inl err => inl err
          | inr rest => inr (WithPayload parent b :: rest)
          end
      end
  end.
Definition sliceToChildren {B} `{DynType B} (expression : string) (out : dyn) (parent : Message A)
    : error + list (Message B) :=
  match list_kind out with
  | None => inl (Errorf [Sentinel ErrPayloadType] [FStr "expr result is not a slice"; FStr expression])
  | Some elems => children_from expression 0 elems parent
  end.

(** ** provider.go *)

Context {W : Type}.

(** [b, _ := out.(bool)] *)
Definition verdict (out : dyn) : bool := default false (dyn_assert (B := bool) out).

Definition expr_Predicate (expression : string) : error + PredicateFn (W := W) A :=
  match compile expression outputBool with
  | inl err => inl err
  | inr eval => inr (λ m,
      match eval m with
      | inl err => mret (inl err)
      | inr out => mret (inr (verdict out))
      end)
  end.

(** The routes in the order in which the range over the map meets them. *)
Definition nil_route (routes : list (string * option (Sender W))) : option string :=
  fst <$> List.find (λ kc, match kc.2 with None => true | Some _ => false end) routes.
Definition RouteFunc (expression : string) (routes : list (string * option (Sender W)))
    : error + (msg → M W (error + option (Sender W))) :=
  match routes with
  | [] => inl (Errorf [Sentinel ErrInvalidExpression] [FStr "empty routes map"])
  | _ =>
      match nil_route routes with
      | Some k => inl (Errorf [Sentinel ErrInvalidExpression] [FStr "nil channel for route"; FStr k])
      | None =>
          match compile expression outputString with
          | inl err => inl err
          | inr eval => inr (λ m,
              match PayloadOf (T := A) m with
              | inl err => mret (inl (payloadError expression err))
              | inr tm =>
                  match eval tm with
                  | inl err => mret (inl err)
                  | inr out =>
                      match stringResult expression out with
                      | inl err => mret (inl err)
                      | inr key => mret (inr (mjoin ((list_to_map routes : gmap string (option (Sender W))) !! key)))
                      end
                  end
              end)
          end
      end
  end.

Definition Transformer {B} `{DynType B} (expression : string) : error + (Message A → M W (error + Message B)) :=
  match compile expression outputAny with
  | inl err => inl err
  | inr eval => inr (λ m,
      match eval m with
      | inl err => mret (inl err)
      | inr out =>
          match dyn_assert out with
          | None => mret (inl (resultTypeError expression))
          | Some b => mret (inr (WithPayload m b))
          end
      end)
  end.

Definition SplitFunc {B} `{DynType B} (expression : string) : error + (Message A → M W (error + list (Message B))) :=
  match compile expression outputAny with
  | inl err => inl err
  | inr eval => inr (λ m,
      match eval m with
      | inl err => mret (inl err)
      | inr out => mret (sliceToChildren expression out m)
      end)
  end.

Definition Correlation (expression : string) : error + (msg → M W (error + string)) :=
  match compile expression outputString with
  | inl err => inl err
  | inr eval => inr (λ m,
      match PayloadOf (T := A) m with
      | inl err => mret (inl (payloadError expression err))
      | inr tm =>
          match eval tm with
          | inl err => mret (inl err)
          | inr out =>
              match stringResult expression out with
              | inl err => mret (inl err)
              | inr key =>
                  if bool_decide (key = "") then mret (inl (permanentError (Sentinel ErrNoCorrelation)))
                  else mret (inr key)
              end
          end
      end)
  end.

Definition expr_Release (expression : string) : error + (option MessageGroup → M W (error + bool)) :=
  match compileGroup expression with
  | inl err => inl err
  | inr eval => inr (λ g,
      match toGroupEnv expression g with
      | inl err => mret (inl err)
      | inr env =>
          match eval env with
          | inl err => mret (inl err)
          | inr out => mret (inr (verdict out))
          end
      end)
  end.

(** ** What the providers promise *)

Lemma compile_invalid expression kind err : compile expression kind = inl err → Is err ErrInvalidExpression = true.
Proof.
  unfold compile. case_bool_decide; [by intros [= <-]|].
  destruct (Compile expression kind); [|done]. by intros [= <-].
Qed.
Lemma compileGroup_invalid expression err : compileGroup expression = inl err → Is err ErrInvalidExpression = true.
Proof.
  unfold compileGroup. case_bool_decide; [by intros [= <-]|].
  destruct (CompileGroup expression); [|done]. by intros [= <-].
Qed.

(** A bad expression is a fault of the construction: an error of any provider is
    [ErrInvalidExpression], and so is one about the routes. *)
Theorem expr_rejected_early {B} `{DynType B} expression routes err :
  expr_Predicate expression = inl err ∨ RouteFunc expression routes = inl err ∨
  Transformer (B := B) expression = inl err ∨ SplitFunc (B := B) expression = inl err ∨
  Correlation expression = inl err ∨ expr_Release expression = inl err →
  Is err ErrInvalidExpression = true.
Proof.
  unfold expr_Predicate, RouteFunc, Transformer, SplitFunc, Correlation, expr_Release.
  intros [E|[E|[E|[E|[E|E]]]]]; repeat case_match; simplify_eq; try done;
    (by eapply compile_invalid) || (by eapply compileGroup_invalid).
Qed.

(** The key an expression gives a message. *)
Definition expr_key (eval : Message A → error + dyn) (expression : string) (m : msg) : error + string :=
  match PayloadOf (T := A) m with
  | inl err => inl (payloadError expression err)
  | inr tm => match eval tm with inl err => inl err | inr out => stringResult expression out end
  end.
(** An error that does not come from the evaluation condemns the message. *)
Lemma expr_key_permanent eval expression m err :
  expr_key eval expression m = inl err →
  IsPermanent (Some err) = true ∨ ∃ tm, PayloadOf m = inr tm ∧ eval tm = inl err.
Proof.
  unfold expr_key, PayloadOf, stringResult. intros E. repeat case_match; simplify_eq; eauto.
Qed.
Lemma nil_route_none routes k ch : nil_route routes = None → (k, ch) ∈ routes → ∃ send, ch = Some send.
Proof.
  unfold nil_route. destruct (List.find _ routes) eqn:E; [done|]. intros _ Hin%list_elem_of_In.
  apply (List.find_none _ _ E) in Hin. destruct ch; eauto. done.
Qed.

(** A message goes to the one channel its expression names, as it is; where it names
    none, the router's default takes it or it is refused; and a message whose key
    cannot be read is refused and goes nowhere. *)
Theorem expr_route_exact expression routes pick (dflt : option (Sender W)) m w :
  RouteFunc expression routes = inr pick → NoDup routes.*1 →
  ∃ eval, compile expression outputString = inr eval ∧
  let result := Router_Handle (NewRouter (Some pick) [Some (WithDefaultChannel dflt)]) m w in
  match expr_key eval expression m with
  | inl err => result = (Ret (Some err), w)
  | inr key =>
      (∃ send, (key, Some send) ∈ routes ∧ result = send m w) ∨
      key ∉ routes.*1 ∧
        result = match dflt with Some send => send m w | None => (Ret (Some (Sentinel ErrNoRoute)), w) end
  end.
Proof.
  unfold RouteFunc. destruct routes as [|r0 rs] eqn:Er; [done|]. rewrite <- Er. clear Er r0 rs.
  destruct (nil_route routes) eqn:En; [done|].
  destruct (compile expression outputString) as [|eval]; [done|]. intros [= <-] Hnd. exists eval. split; [done|].
  unfold Router_Handle, expr_key. cbn [NewRouter router_opts rt_err rt_pick rt_default].
  destruct (PayloadOf m) as [|tm]; [done|]. destruct (eval tm) as [|out]; [done|].
  destruct (stringResult expression out) as [|key]; [done|]. cbn.
  destruct ((list_to_map routes : gmap string _) !! key) as [ch|] eqn:El.
  - apply elem_of_list_to_map in El; [|done]. destruct (nil_route_none _ _ _ En El) as [send ->]. left. eauto.
  - right. split; [by apply not_elem_of_list_to_map|]. by destruct dflt.
Qed.

Lemma children_from_spec {B} `{DynType B} expression i elems (m : Message A) :
  match children_from (B := B) expression i elems m with
  | inl err => IsPermanent (Some err) = true ∧ ∃ d, d ∈ elems ∧ dyn_assert (B := B) d = None
  | inr children => Forall2 (λ c d, dyn_assert d = Some (msg_payload c) ∧ msg_headers c = msg_headers m) children elems
  end.
Proof.
  revert i. induction elems as [|d elems IH]; intros i; cbn [children_from]; [constructor|].
  destruct (dyn_assert d) as [b|] eqn:Ed.
  - specialize (IH (S i)). destruct (children_from expression (S i) elems m) as [err|rest].
    + destruct IH as (? & d' & ? & ?). split; [done|]. exists d'. split; [by right|done].
    + constructor; [done|exact IH].
  - split; [done|]. exists d. split; [left|done].
Qed.

(** Splitting by an expression is all or nothing: either every element of the result
    is a child, in order and with the headers of its parent, and they are forwarded
    as [Split] forwards any children; or the next step never runs and the state is
    as it was. *)
Theorem expr_split_whole {B} `{GoType B, DynType B} expression fn (m : msg) w :
  SplitFunc (B := B) expression = inr fn →
  (∃ err, ∀ next step, Split (Some fn) = Some step → step next m w = (Ret (Some err), w)) ∨
  ∃ eval tm out elems children,
    compile expression outputAny = inr eval ∧ PayloadOf m = inr tm ∧ eval tm = inr out ∧ list_kind out = Some elems ∧
    Forall2 (λ c d, dyn_assert d = Some (msg_payload c) ∧ msg_headers c = msg_headers m) children elems ∧
    ∀ next step, Split (Some fn) = Some step → step next m w = forwardSplit next m children w.
Proof.
  unfold SplitFunc. destruct (compile expression outputAny) as [|eval] eqn:Ec; [done|]. intros [= <-].
  destruct (PayloadOf m) as [err|tm] eqn:Ep.
  { left. exists err. intros next step [= <-]. by rewrite Ep. }
  destruct (eval tm) as [err|out] eqn:Ee.
  { left. exists err. intros next step [= <-]. rewrite Ep. cbn. by rewrite Ee. }
  destruct (sliceToChildren (B := B) expression out tm) as [err|children] eqn:Es.
  { left. exists err. intros next step [= <-]. rewrite Ep. cbn. rewrite Ee. cbn. by rewrite Es. }
  right. unfold sliceToChildren in Es. destruct (list_kind out) as [elems|] eqn:El; [|done].
  exists eval, tm, out, elems, children. pose proof (children_from_spec (B := B) expression 0 elems tm) as Hc.
  rewrite Es in Hc. split_and!; try done.
  - unfold PayloadOf in Ep. case_match; simplify_eq. exact Hc.
  - intros next step [= <-]. rewrite Ep. cbn. rewrite Ee. cbn. unfold sliceToChildren. by rewrite El, Es.
Qed.

(** A release expression sees the whole group: every member in arrival order, with
    its payload and its headers, and the size the first member declares. *)
Theorem expr_group_faithful expression g env :
  toGroupEnv expression (Some g) = inr env →
  Forall2 (λ e m, type_assert (msg_payload m) = Some (env_Payload e) ∧ env_Header e = header_of m)
    (env_Messages env) (grp_messages g) ∧
  env_Size env = default 0 (asInt impl_int (firstHeader (grp_messages g) HeaderSequenceSize)).
Proof.
  assert (Hm : ∀ msgs members, group_members expression msgs = inr members →
    Forall2 (λ e m, type_assert (msg_payload m) = Some (env_Payload e) ∧ env_Header e = header_of m) members msgs).
  { induction msgs as [|m msgs IH]; intros members; cbn [group_members]; [intros [= <-]; constructor|].
    unfold PayloadOf. destruct (type_assert (msg_payload m)) eqn:Ea; [|done].
    destruct (group_members expression msgs) as [|rest]; [done|]. intros [= <-]. constructor; [done|by apply IH]. }
  cbn [toGroupEnv]. destruct (grp_messages g) as [|m msgs]; [by intros [= <-]|].
  destruct (group_members expression (m :: msgs)) as [|members] eqn:E; [done|]. intros [= <-]. cbn. split; [by apply Hm|done].
Qed.
End expr.

(** ** The providers at work *)

(** A language of three expressions over a string payload: the payload, the header
    region, and the payload with its region as a list of two. *)
Inductive demo_program : Type := PPayload | PRegion | PBoth.
Definition demo_compile (e : string) (_ : outputKind) : error + demo_program :=
  if bool_decide (e = "payload") then inr PPayload
  else if bool_decide (e = "region") then inr PRegion
  else if bool_decide (e = "both") then inr PBoth
  else inl (Opaque "unexpected token").
Definition demo_eval (p : demo_program) (env : messageEnv string) : error + dyn :=
  match p with
  | PPayload => inr (DAny (AString (env_Payload env)))
  | PRegion => inr (DAny (env_Header env "region"))
  | PBoth => inr (DSlice [DAny (AString (env_Payload env)); DAny (env_Header env "region")])
  end.
Definition in_region (a : any) : msg := WithHeader (NewMessage (AString "order") (mkHeaders None)) "region" a.
(** A channel that records what it is sent. *)
Definition recorder : Sender (list string) := λ m w,
  (Ret None, w ++ [match msg_payload m with AString s => s | _ => "?" end]).

Example demo_routes :
  match RouteFunc (A := string) id demo_compile demo_eval "region" [("EU", Some recorder)] with
  | inr pick => (λ a, Router_Handle (NewRouter (Some pick) []) (in_region a) []) <$> [AString "EU"; AString "US"; AInt 7]
  | inl _ => []
  end = [(Ret None, ["order"]); (Ret (Some (Sentinel ErrNoRoute)), []); (Ret (Some (resultTypeError "region")), [])].
Proof. reflexivity. Qed.
Example demo_split :
  match SplitFunc (A := string) (B := string) (W := list string) id demo_compile demo_eval "both" with
  | inr fn =>
      (λ a, (Split (Some fn) ≫= λ step, Some (step recorder (in_region a) []).2)) <$> [AString "EU"; AInt 7]
  | inl _ => []
  end = [Some ["order"; "EU"]; Some []].
Proof. reflexivity. Qed.
