(* ===== verification/Resilience.v ===== *)
(** * The resilience package: circuit breaker and backoff

    [resilience/breaker.go] and [resilience/backoff.go]; the token bucket of
    [resilience/ratelimit.go] is in [TokenBucket].

    Module [Breaker] models the default circuit breaker together with the clock
    it arms timers on: a timer that is due launches its callback, which then
    still has to win the breaker's mutex, so that between the two any other
    operation may run.  Module [Backoff] models the exponential backoff over
    IEEE 754 doubles. *)

From Stdlib Require Import Floats.SpecFloat.
From S2P Require Import Prelude Message.

Local Open Scope Z_scope.

Module Breaker.

Inductive breakerState : Type := breakerClosed | breakerOpen | breakerHalfOpen.

#[export] Instance breakerState_eq_dec : EqDecision breakerState.
Proof. solve_decision. Defined.

(** [breaker]; a channel and a timer are named by the number of their
    creation. *)
Record breaker : Type := mkBreaker {
  b_threshold : Z;
  b_cooldown : Z;
  b_state : breakerState;
  b_fails : Z;
  b_probeInFlight : bool;
  b_wake : nat;
  b_timer : option nat
}.

(** The breaker with what it shares with its environment: the clock (the
    current time, the timers that are armed and the callbacks that were
    launched and have not run yet) and the channels closed so far. *)
Record world : Type := mkWorld {
  w_breaker : breaker;
  w_now : Z;
  w_armed : list (nat * Z);
  w_launched : list nat;
  w_nextTimer : nat;
  w_nextChan : nat;
  w_closed : list nat
}.

Definition set_breaker (b : breaker) (w : world) : world :=
  mkWorld b (w_now w) (w_armed w) (w_launched w) (w_nextTimer w) (w_nextChan w) (w_closed w).

(** ** Construction *)

Definition WithBreakerThreshold (n : Z) (b : breaker) : breaker :=
  if 1 <=? n then
    mkBreaker n (b_cooldown b) (b_state b) (b_fails b) (b_probeInFlight b) (b_wake b) (b_timer b)
  else b.
Definition WithBreakerCooldown (d : Z) (b : breaker) : breaker :=
  if 0 <? d then
    mkBreaker (b_threshold b) d (b_state b) (b_fails b) (b_probeInFlight b) (b_wake b) (b_timer b)
  else b.

(** An option of the package: a [CircuitBreakerOption] can only come from one
    of its constructors, since it sets unexported fields. *)
Inductive CircuitBreakerOption : Type :=
  | OptThreshold (n : Z)
  | OptCooldown (d : Z).
Definition option_fn (o : CircuitBreakerOption) : breaker → breaker :=
  match o with
  | OptThreshold n => WithBreakerThreshold n
  | OptCooldown d => WithBreakerCooldown d
  end.

Definition NewCircuitBreaker (opts : list (option CircuitBreakerOption)) : error + breaker :=
  match apply_opts ((λ o : option CircuitBreakerOption, option_fn <$> o) <$> opts)
          (mkBreaker 5 (30 * second) breakerClosed 0 false 0 None) with
  | inl i => inl (nilOptionAt "resilience.NewCircuitBreaker" i)
  | inr b => inr b
  end.

(** ** The operations, each one critical section *)

Definition Allow (w : world) : bool := bool_decide (b_state (w_breaker w) ≠ breakerOpen).

Definition with_probe (p : bool) (b : breaker) : breaker :=
  mkBreaker (b_threshold b) (b_cooldown b) (b_state b) (b_fails b) p (b_wake b) (b_timer b).
Definition with_state (st : breakerState) (b : breaker) : breaker :=
  mkBreaker (b_threshold b) (b_cooldown b) st (b_fails b) (b_probeInFlight b) (b_wake b) (b_timer b).
Definition with_fails (n : Z) (b : breaker) : breaker :=
  mkBreaker (b_threshold b) (b_cooldown b) (b_state b) n (b_probeInFlight b) (b_wake b) (b_timer b).

Definition TryProbe (w : world) : bool * world :=
  let b := w_breaker w in
  match b_state b with
  | breakerOpen => (false, w)
  | breakerHalfOpen =>
      if b_probeInFlight b then (false, w)
      else (true, set_breaker (with_probe true b) w)
  | breakerClosed => (true, w)
  end.

(** [timer.Stop()]: the timer is disarmed; a callback already launched is not
    recalled. *)
Definition stop_timer (t : option nat) (w : world) : world :=
  match t with
  | None => w
  | Some id => mkWorld (w_breaker w) (w_now w) (filter (λ a, a.1 ≠ id) (w_armed w))
      (w_launched w) (w_nextTimer w) (w_nextChan w) (w_closed w)
  end.

(** [b.timer = clock.AfterFunc(b.cooldown, b.toHalfOpen)]. *)
Definition arm_timer (w : world) : world :=
  let b := w_breaker w in
  let id := w_nextTimer w in
  mkWorld (mkBreaker (b_threshold b) (b_cooldown b) (b_state b) (b_fails b) (b_probeInFlight b)
             (b_wake b) (Some id))
    (w_now w) ((id, w_now w + b_cooldown b) :: w_armed w) (w_launched w) (S id) (w_nextChan w)
    (w_closed w).

Definition openLocked (w : world) : world :=
  let w := set_breaker (with_state breakerOpen (w_breaker w)) w in
  arm_timer (stop_timer (b_timer (w_breaker w)) w).

Definition Record_ (success : bool) (w : world) : world :=
  let b := w_breaker w in
  if success then
    let b := with_fails 0 b in
    if bool_decide (b_state b = breakerHalfOpen)
    then set_breaker (with_probe false (with_state breakerClosed b)) w
    else set_breaker b w
  else
    let b := with_fails (wrap64 (b_fails b + 1)) b in
    match b_state b with
    | breakerClosed =>
        if b_threshold b <=? b_fails b then openLocked (set_breaker b w) else set_breaker b w
    | breakerHalfOpen => openLocked (set_breaker (with_probe false b) w)
    | breakerOpen => set_breaker b w
    end.

Definition HalfOpen (w : world) : nat := b_wake (w_breaker w).

Definition toHalfOpen (w : world) : world :=
  let b := w_breaker w in
  if bool_decide (b_state b ≠ breakerOpen) then w
  else
    mkWorld (mkBreaker (b_threshold b) (b_cooldown b) breakerHalfOpen (b_fails b) false
               (w_nextChan w) (b_timer b))
      (w_now w) (w_armed w) (w_launched w) (w_nextTimer w) (S (w_nextChan w))
      (b_wake b :: w_closed w).

(** ** Executions *)

(** What can happen: a call of an operation, the passing of time (which
    launches the callbacks of the timers that become due), or a launched
    callback obtaining the mutex. *)
Inductive event : Type :=
  | EvTryProbe
  | EvRecord (success : bool)
  | EvElapse (d : Z)
  | EvCallback (i : nat).

Definition elapse (d : Z) (w : world) : world :=
  let now := w_now w + Z.max 0 d in
  mkWorld (w_breaker w) now (filter (λ a, now < a.2) (w_armed w))
    (w_launched w ++ (filter (λ a, a.2 ≤ now) (w_armed w)).*1)
    (w_nextTimer w) (w_nextChan w) (w_closed w).

Definition run_callback (i : nat) (w : world) : world :=
  match w_launched w !! i with
  | None => w
  | Some _ =>
      toHalfOpen (mkWorld (w_breaker w) (w_now w) (w_armed w) (delete i (w_launched w))
        (w_nextTimer w) (w_nextChan w) (w_closed w))
  end.

Definition step (w : world) (ev : event) : world :=
  match ev with
  | EvTryProbe => (TryProbe w).2
  | EvRecord s => Record_ s w
  | EvElapse d => elapse d w
  | EvCallback i => run_callback i w
  end.

Definition run (w : world) (evs : list event) : world := foldl step w evs.

(** The world a fresh breaker starts in: its wake channel is number 0. *)
Definition initial (b : breaker) (now : Z) : world := mkWorld b now [] [] 0 1 [].

(** ** Invariant *)

(** The callbacks outstanding, armed or launched. *)
Definition outstanding (w : world) : list nat := (w_armed w).*1 ++ w_launched w.

Record wf (w : world) : Prop := {
  wf_threshold : 1 ≤ b_threshold (w_breaker w) ≤ MaxInt64;
  wf_cooldown : 0 < b_cooldown (w_breaker w);
  wf_fails : b_state (w_breaker w) = breakerClosed →
    0 ≤ b_fails (w_breaker w) < b_threshold (w_breaker w);
  wf_probe : b_probeInFlight (w_breaker w) = true → b_state (w_breaker w) = breakerHalfOpen;
  wf_timers : length (outstanding w) =
    if bool_decide (b_state (w_breaker w) = breakerOpen) then 1%nat else 0%nat;
  wf_chan : w_nextChan w = S (b_wake (w_breaker w));
  wf_closed : ∀ c, c ∈ w_closed w ↔ (c < b_wake (w_breaker w))%nat
}.

Definition int_option (o : option CircuitBreakerOption) : Prop :=
  match o with Some (OptThreshold n) => int64_range n | _ => True end.

(** The options only move the two parameters, within their ranges. *)
Definition fresh (b : breaker) : Prop :=
  ∃ t c, b = mkBreaker t c breakerClosed 0 false 0 None ∧ 1 ≤ t ≤ MaxInt64 ∧ 0 < c.

Lemma apply_options_fresh opts i b0 b :
  Forall int_option opts → fresh b0 →
  apply_opts_from i ((λ o : option CircuitBreakerOption, option_fn <$> o) <$> opts) b0 = inr b →
  fresh b.
Proof.
  intros Hint. revert i b0. induction Hint as [|[o|] opts Ho _ IH]; intros i b0 Hb; cbn;
    [by intros [= <-]| |done].
  apply IH. destruct Hb as (t & c & -> & Ht & Hc).
  destruct o as [n|d]; cbn in *; unfold WithBreakerThreshold, WithBreakerCooldown, int64_range in *;
    case_match_goal; bool_to_prop; eexists _, _; split; try done; cbn; lia.
Qed.

Lemma NewCircuitBreaker_fresh opts b :
  Forall int_option opts → NewCircuitBreaker opts = inr b → fresh b.
Proof.
  intros Hint. unfold NewCircuitBreaker. destruct (apply_opts _ _) as [i|b'] eqn:Eo; [done|].
  intros [= ->]. apply (apply_options_fresh _ _ _ _ Hint) in Eo; [done|].
  eexists _, _. split; [done|]. unfold MaxInt64, second. lia.
Qed.

Lemma fresh_wf b now : fresh b → wf (initial b now).
Proof.
  intros (t & c & -> & Ht & Hc). split; cbn; try done; try lia.
  intros n. split; [intros []%elem_of_nil|lia].
Qed.

(** ** Preservation *)

Lemma wf_TryProbe w : wf w → wf (TryProbe w).2.
Proof.
  intros Hw. unfold TryProbe. destruct (b_state (w_breaker w)) eqn:Es; [done..|].
  destruct (b_probeInFlight _) eqn:Ep; [done|].
  destruct Hw. split; cbn; rewrite ?Es in *; done.
Qed.

(** Opening is only reached with no callback outstanding. *)
Lemma wf_openLocked w :
  1 ≤ b_threshold (w_breaker w) ≤ MaxInt64 → 0 < b_cooldown (w_breaker w) →
  outstanding w = [] → b_probeInFlight (w_breaker w) = false →
  w_nextChan w = S (b_wake (w_breaker w)) →
  (∀ c, c ∈ w_closed w ↔ (c < b_wake (w_breaker w))%nat) →
  wf (openLocked w).
Proof.
  intros Ht Hc Ho Hp Hch Hcl. unfold outstanding in Ho. apply app_eq_nil in Ho as [Ha Hl].
  apply fmap_nil_inv in Ha. unfold openLocked, stop_timer, arm_timer.
  destruct (b_timer _); split; cbn; rewrite ?Hp, ?Ha; unfold outstanding; cbn; rewrite ?Hl; try done.
Qed.

Lemma wf_not_open w : wf w → b_state (w_breaker w) ≠ breakerOpen → outstanding w = [].
Proof.
  intros Hw Hs. pose proof (wf_timers w Hw) as Ht. rewrite bool_decide_eq_false_2 in Ht by done.
  by apply nil_length_inv.
Qed.

Lemma wf_Record s w : wf w → wf (Record_ s w).
Proof.
  intros Hw. pose proof (wf_not_open w Hw) as Hno. destruct Hw. unfold Record_. destruct s.
  - cbn. destruct (decide (b_state (w_breaker w) = breakerHalfOpen)) as [Hs|Hs].
    + rewrite bool_decide_eq_true_2 by done. rewrite Hs in *. split; cbn; try done. lia.
    + rewrite (bool_decide_eq_false_2 (_ = breakerHalfOpen)) by done. split; cbn; try done. lia.
  - cbn. destruct (b_state (w_breaker w)) eqn:Es.
    + specialize (wf_fails0 eq_refl). rewrite wrap64_id by (unfold int64_range, MinInt64, MaxInt64 in *; lia).
      assert (b_probeInFlight (w_breaker w) = false) as Hp
        by (destruct (b_probeInFlight _); [by specialize (wf_probe0 eq_refl)|done]).
      destruct (_ <=? _) eqn:Eb; bool_to_prop; [apply wf_openLocked; cbn; auto|].
      split; cbn; rewrite ?Es; try done. lia.
    + split; cbn; rewrite ?Es; done.
    + apply wf_openLocked; cbn; auto.
Qed.

Lemma filter_partition_length {A} (P Q : A → Prop) `{∀ x, Decision (P x), ∀ x, Decision (Q x)} l :
  (∀ x, P x ↔ ¬ Q x) → (length (filter P l) + length (filter Q l) = length l)%nat.
Proof.
  intros HPQ. induction l as [|x l IH]; [done|]. rewrite !filter_cons.
  pose proof (HPQ x). repeat case_decide; cbn; (lia || tauto).
Qed.

Lemma wf_elapse d w : wf w → wf (elapse d w).
Proof.
  intros []. split; cbn; try done. rewrite <- wf_timers0. unfold outstanding. cbn.
  rewrite !length_app, !length_fmap.
  pose proof (filter_partition_length (λ a : nat * Z, w_now w + Z.max 0 d < a.2)
    (λ a, a.2 ≤ w_now w + Z.max 0 d) (w_armed w)) as Hf.
  rewrite <- Hf by (intros; lia). lia.
Qed.

Lemma wf_run_callback i w : wf w → wf (run_callback i w).
Proof.
  intros Hw. unfold run_callback. destruct (w_launched w !! i) as [t|] eqn:Ei; [|done].
  assert (b_state (w_breaker w) = breakerOpen) as Hs.
  { destruct (decide (b_state (w_breaker w) = breakerOpen)) as [|Hn]; [done|].
    apply wf_not_open in Hn; [|done]. apply app_eq_nil in Hn as [_ Hn]. by rewrite Hn in Ei. }
  destruct Hw. unfold toHalfOpen. cbn. rewrite bool_decide_eq_false_2 by (by intros Hn; apply Hn).
  split; cbn; try done.
  - rewrite bool_decide_eq_true_2 in wf_timers0 by done. rewrite bool_decide_eq_false_2 by done.
    unfold outstanding in *. rewrite length_app in *. cbn in *.
    rewrite length_delete by done. apply lookup_lt_Some in Ei. lia.
  - intros c. rewrite elem_of_cons, wf_closed0, wf_chan0. lia.
Qed.

Lemma wf_step w ev : wf w → wf (step w ev).
Proof.
  destruct ev; cbn; [apply wf_TryProbe|apply wf_Record|apply wf_elapse|apply wf_run_callback].
Qed.

Lemma wf_run w evs : wf w → wf (run w evs).
Proof. revert w. induction evs as [|ev evs IH]; intros w Hw; [done|]. by apply IH, wf_step. Qed.

(** ** Trips *)

(** [n] failures in a row somewhere in the outcomes. *)
Definition failed_in_a_row (n : nat) (rs : list bool) : Prop :=
  ∃ before after, rs = before ++ replicate n false ++ after.

Lemma openLocked_state w : b_state (w_breaker (openLocked w)) = breakerOpen.
Proof. unfold openLocked, stop_timer. by destruct (b_timer _). Qed.

Lemma open_absorbs rs w :
  b_state (w_breaker w) = breakerOpen →
  b_state (w_breaker (foldl (λ w s, Record_ s w) w rs)) = breakerOpen.
Proof.
  revert w. induction rs as [|s rs IH]; intros w Hs; [done|]. apply IH. unfold Record_.
  destruct s; cbn; [rewrite bool_decide_eq_false_2; cbn; rewrite Hs|rewrite Hs; cbn]; done.
Qed.

(** A success cuts a run of fewer than [n] failures before it. *)
Lemma in_a_row_cut k n rs :
  (k < n)%nat → failed_in_a_row n (replicate k false ++ true :: rs) ↔ failed_in_a_row n rs.
Proof.
  intros Hk. split.
  - intros (before & after & E). revert k Hk E.
    induction before as [|x before IH]; intros k Hk E.
    + apply (f_equal (.!! k)) in E. cbn in E.
      rewrite lookup_app_r, length_replicate, Nat.sub_diag in E by (rewrite length_replicate; lia).
      by rewrite lookup_app_l, lookup_replicate_2 in E by (rewrite ?length_replicate; lia).
    + destruct k as [|k]; injection E as _ E; [by exists before, after|]. apply (IH k); [lia|done].
  - intros (before & after & ->). exists (replicate k false ++ true :: before), after.
    by rewrite <- app_assoc.
Qed.

Lemma in_a_row_short k n : (k < n)%nat → ¬ failed_in_a_row n (replicate k false).
Proof.
  intros Hk (before & after & E). apply (f_equal length) in E.
  rewrite !length_app, !length_replicate in E. lia.
Qed.

Lemma Record_success_closed w :
  b_state (w_breaker w) = breakerClosed →
  Record_ true w = set_breaker (with_fails 0 (w_breaker w)) w.
Proof. intros Hs. unfold Record_. cbn. by rewrite Hs. Qed.

(** From a closed breaker with [k] failures on the count, the outcomes [rs]
    open it iff [k] failures followed by [rs] have a run of [threshold]. *)
Lemma closed_records rs w k :
  wf w → b_state (w_breaker w) = breakerClosed → b_fails (w_breaker w) = Z.of_nat k →
  (b_state (w_breaker (foldl (λ w s, Record_ s w) w rs)) = breakerOpen ↔
   failed_in_a_row (Z.to_nat (b_threshold (w_breaker w))) (replicate k false ++ rs)).
Proof.
  revert w k. induction rs as [|s rs IH]; intros w k Hw Hs Hk;
    pose proof (wf_fails w Hw Hs) as Hf; pose proof (wf_threshold w Hw) as Ht; cbn [foldl].
  - rewrite app_nil_r, Hs. split; [done|]. intros Hr. exfalso. revert Hr. apply in_a_row_short. lia.
  - pose proof (wf_Record s w Hw) as Hw'. destruct s.
    + rewrite (Record_success_closed w Hs) in *. rewrite (IH _ 0%nat Hw' Hs eq_refl).
      by rewrite in_a_row_cut by lia.
    + replace (replicate k false ++ false :: rs) with (replicate (S k) false ++ rs)
        by (by rewrite replicate_S_end, <- app_assoc). revert Hw'. unfold Record_. cbn. rewrite Hs.
      rewrite wrap64_id by (unfold int64_range, MinInt64, MaxInt64 in *; lia).
      destruct (_ <=? _) eqn:Eb; bool_to_prop; intros Hw'.
      * split; [intros _|intros _; apply open_absorbs, openLocked_state]. exists [], rs.
        by replace (Z.to_nat _) with (S k) by lia.
      * rewrite (IH _ (S k) Hw'); cbn; [done|done|lia].
Qed.

(** ** Waiting for the half-open transition *)

Lemma stop_timer_now t w : w_now (stop_timer t w) = w_now w.
Proof. by destruct t. Qed.

Lemma openLocked_now w : w_now (openLocked w) = w_now w.
Proof. unfold openLocked, arm_timer. cbn. by rewrite stop_timer_now. Qed.

Lemma step_now w ev : w_now w ≤ w_now (step w ev).
Proof.
  destruct ev as [|s|d|i]; cbn.
  - unfold TryProbe. repeat case_match_goal; done.
  - unfold Record_. repeat case_match_goal; rewrite ?openLocked_now; done.
  - lia.
  - unfold run_callback, toHalfOpen. repeat case_match_goal; done.
Qed.

Lemma run_now evs w : w_now w ≤ w_now (run w evs).
Proof.
  revert w. induction evs as [|ev evs IH]; intros w; [done|].
  etrans; [apply step_now|apply IH].
Qed.

Lemma step_wake w ev : wf w →
  (b_wake (w_breaker w) ≤ b_wake (w_breaker (step w ev)))%nat ∧
  (b_state (w_breaker w) = breakerOpen → b_state (w_breaker (step w ev)) ≠ breakerOpen →
   (b_wake (w_breaker w) < b_wake (w_breaker (step w ev)))%nat).
Proof.
  intros Hw. pose proof (wf_chan w Hw) as Hc. destruct ev as [|s|d|i]; cbn.
  - unfold TryProbe. by repeat case_match_goal.
  - unfold Record_, openLocked, stop_timer. split.
    + by repeat case_match_goal.
    + intros Hs. cbn. rewrite Hs. destruct s; cbn; [|by rewrite Hs].
      rewrite bool_decide_eq_false_2 by done. cbn. by rewrite Hs.
  - done.
  - unfold run_callback, toHalfOpen. repeat case_match_goal; cbn; (done || lia).
Qed.

Lemma run_wake evs w : wf w → (b_wake (w_breaker w) ≤ b_wake (w_breaker (run w evs)))%nat.
Proof.
  revert w. induction evs as [|ev evs IH]; intros w Hw; [done|].
  etrans; [by apply step_wake|by apply IH, wf_step].
Qed.

Lemma run_wake_open evs w :
  wf w → b_state (w_breaker w) = breakerOpen → b_state (w_breaker (run w evs)) ≠ breakerOpen →
  (b_wake (w_breaker w) < b_wake (w_breaker (run w evs)))%nat.
Proof.
  revert w. induction evs as [|ev evs IH]; intros w Hw Hs Hn; [done|]. cbn in *.
  destruct (decide (b_state (w_breaker (step w ev)) = breakerOpen)) as [Hs'|Hs'].
  - eapply Nat.le_lt_trans; [by apply step_wake|apply IH; [by apply wf_step|done|done]].
  - eapply Nat.lt_le_trans; [by apply step_wake|apply run_wake; by apply wf_step].
Qed.

(** An armed cooldown holds the breaker open until it is due. *)
Definition cooling (id : nat) (due : Z) (w : world) : Prop :=
  b_state (w_breaker w) = breakerOpen ∧ w_armed w = [(id, due)] ∧ w_launched w = [].

Lemma step_cooling id due w ev :
  cooling id due w → cooling id due (step w ev) ∨ due ≤ w_now (step w ev).
Proof.
  intros (Hs & Ha & Hl). destruct ev as [|s|d|i]; cbn.
  - left. unfold TryProbe. by rewrite Hs.
  - left. unfold Record_. cbn. rewrite Hs. destruct s; [rewrite bool_decide_eq_false_2 by done|]; done.
  - destruct (decide (due ≤ w_now w + Z.max 0 d)); [by right|left].
    unfold elapse. rewrite Ha, Hl. split; [done|]. split; cbn [w_armed w_launched].
    + rewrite filter_cons_True; [done|cbn; lia].
    + rewrite filter_cons_False; [done|cbn; lia].
  - left. unfold run_callback. by rewrite Hl.
Qed.

Lemma run_cooling id due evs w :
  cooling id due w → cooling id due (run w evs) ∨ due ≤ w_now (run w evs).
Proof.
  revert w. induction evs as [|ev evs IH]; intros w Hc; [by left|]. cbn.
  destruct (step_cooling id due w ev Hc) as [Hc'|Hd]; [by apply IH|].
  right. etrans; [exact Hd|apply run_now].
Qed.

Lemma openLocked_cooling w :
  w_armed w = [] → w_launched w = [] →
  cooling (w_nextTimer w) (w_now w + b_cooldown (w_breaker w)) (openLocked w).
Proof.
  intros Ha Hl. unfold cooling, openLocked, stop_timer, arm_timer. cbn.
  destruct (b_timer _); cbn; by rewrite ?Ha.
Qed.

Lemma Record_opens s w :
  b_state (w_breaker w) ≠ breakerOpen → b_state (w_breaker (Record_ s w)) = breakerOpen →
  ∃ b, Record_ s w = openLocked (set_breaker b w) ∧ b_cooldown b = b_cooldown (w_breaker w).
Proof.
  intros Hs. unfold Record_. destruct s; cbn.
  - case_bool_decide; [done|]. cbn. by intros ?.
  - destruct (b_state (w_breaker w)) eqn:Es; [|done|by eexists].
    case_match_goal; [by eexists|]. cbn. by rewrite Es.
Qed.

(** ** Properties *)

(** The breaker trips exactly on its threshold of consecutive failures:
    after any sequence of recorded outcomes, a new breaker is open iff the
    sequence has [threshold] failures in a row, with the threshold the options
    set (the last valid one, five by default). *)
Theorem breaker_trips_exactly opts b now rs :
  Forall int_option opts → NewCircuitBreaker opts = inr b →
  (b_state (w_breaker (run (initial b now) (EvRecord <$> rs))) = breakerOpen ↔
   failed_in_a_row (Z.to_nat (b_threshold b)) rs).
Proof.
  intros Hint Hb. pose proof (NewCircuitBreaker_fresh _ _ Hint Hb) as Hfresh.
  assert (run (initial b now) (EvRecord <$> rs) = foldl (λ w s, Record_ s w) (initial b now) rs) as ->.
  { generalize (initial b now) as w. induction rs as [|s rs IH]; intros w; [done|apply IH]. }
  rewrite (closed_records rs (initial b now) 0); [done|by apply fresh_wf|..];
    by destruct Hfresh as (t & c & -> & _).
Qed.

Definition demo_opts : list (option CircuitBreakerOption) := [Some (OptThreshold 2); Some (OptCooldown 10)].
Definition demo : breaker := mkBreaker 2 10 breakerClosed 0 false 0 None.

Lemma breaker_trips_exactly_witness :
  b_state (w_breaker (run (initial demo 0) (EvRecord <$> [false; true; false; false]))) = breakerOpen ↔
  failed_in_a_row 2 [false; true; false; false].
Proof.
  apply (breaker_trips_exactly demo_opts demo 0 [false; true; false; false]).
  - repeat constructor; vm_compute; discriminate.
  - vm_compute. reflexivity.
Defined.

(** In every execution, an open breaker has exactly one callback outstanding,
    armed or launched, and a breaker that is not open has none: it can never
    be stuck open, and no stale callback of an earlier cycle is ever around
    to end a later cooldown early. *)
Theorem breaker_one_callback opts b now evs :
  Forall int_option opts → NewCircuitBreaker opts = inr b →
  let w := run (initial b now) evs in
  (b_state (w_breaker w) = breakerOpen → ∃ id, outstanding w = [id]) ∧
  (b_state (w_breaker w) ≠ breakerOpen → outstanding w = []).
Proof.
  intros Hint Hb w.
  assert (wf w) as Hw by (by eapply wf_run, fresh_wf, NewCircuitBreaker_fresh).
  split; [|by apply wf_not_open]. intros Hs.
  pose proof (wf_timers w Hw) as Ht. rewrite bool_decide_eq_true_2 in Ht by done.
  destruct (outstanding w) as [|id [|]]; try done. by exists id.
Qed.

Definition demo_events : list event :=
  [EvRecord false; EvRecord false; EvElapse 10; EvTryProbe; EvRecord false].

Lemma breaker_one_callback_witness :
  let w := run (initial demo 0) demo_events in
  (b_state (w_breaker w) = breakerOpen → ∃ id, outstanding w = [id]) ∧
  (b_state (w_breaker w) ≠ breakerOpen → outstanding w = []).
Proof.
  apply (breaker_one_callback demo_opts demo 0 demo_events).
  - repeat constructor; vm_compute; discriminate.
  - vm_compute. reflexivity.
Defined.

(** A trip is held for the whole cooldown: when an outcome opens the breaker,
    it admits nothing, by Allow or by TryProbe, in any execution that follows
    until the clock has advanced by the cooldown. *)
Theorem breaker_cools_down w s evs :
  wf w → b_state (w_breaker w) ≠ breakerOpen →
  let w0 := Record_ s w in
  let w' := run w0 evs in
  b_state (w_breaker w0) = breakerOpen →
  w_now w' < w_now w0 + b_cooldown (w_breaker w) →
  Allow w' = false ∧ (TryProbe w').1 = false.
Proof.
  intros Hw Hs w0 w' Hs0 Ht.
  pose proof (wf_not_open w Hw Hs) as Ho. apply app_eq_nil in Ho as [Ha%fmap_nil_inv Hl].
  destruct (Record_opens s w Hs Hs0) as (b & Eb & Hcd).
  pose proof (openLocked_cooling (set_breaker b w) Ha Hl) as Hc. rewrite <- Eb in Hc.
  assert (w_now w0 = w_now w) as Hn by (unfold w0; by rewrite Eb, openLocked_now).
  cbn in Hc. rewrite Hcd in Hc.
  destruct (run_cooling _ _ evs w0 Hc) as [(Hs' & _)|Hd]; [|fold w' in Hd; lia].
  fold w' in Hs'. unfold Allow, TryProbe. rewrite Hs'. done.
Qed.

Definition demo_tripping : world := run (initial demo 0) [EvRecord false].

Lemma breaker_cools_down_witness :
  Allow (run (Record_ false demo_tripping) [EvElapse 9; EvCallback 0]) = false ∧
  (TryProbe (run (Record_ false demo_tripping) [EvElapse 9; EvCallback 0])).1 = false.
Proof.
  apply (breaker_cools_down demo_tripping false [EvElapse 9; EvCallback 0]).
  - apply wf_run, fresh_wf. exists 2, 10. repeat split; vm_compute; congruence.
  - vm_compute. discriminate.
  - vm_compute. reflexivity.
  - vm_compute. reflexivity.
Defined.

(** No wakeup is missed: a waiter that read the channel of HalfOpen and found
    the breaker open afterwards is woken, whatever happens in between, since
    by the time the breaker is no longer open that very channel is closed. *)
Theorem breaker_no_missed_wakeup w evs1 evs2 :
  wf w →
  let ch := HalfOpen w in
  Allow (run w evs1) = false → Allow (run w (evs1 ++ evs2)) = true →
  ch ∈ w_closed (run w (evs1 ++ evs2)).
Proof.
  intros Hw ch H1 H2. unfold Allow, run in *. rewrite foldl_app in *. fold (run w evs1) in *.
  fold (run (run w evs1) evs2) in *. apply bool_decide_eq_false in H1. apply bool_decide_eq_true in H2.
  apply dec_stable in H1. apply wf_closed; [by do 2 apply wf_run|].
  eapply Nat.le_lt_trans; [apply (run_wake evs1 w Hw)|].
  apply run_wake_open; [by apply wf_run|done|done].
Qed.

Lemma breaker_no_missed_wakeup_witness :
  0%nat ∈ w_closed (run (initial demo 0)
    ([EvRecord false; EvRecord false] ++ [EvElapse 10; EvCallback 0])).
Proof.
  apply (breaker_no_missed_wakeup (initial demo 0) [EvRecord false; EvRecord false]
           [EvElapse 10; EvCallback 0]).
  - apply fresh_wf. exists 2, 10. repeat split; vm_compute; congruence.
  - vm_compute. reflexivity.
  - vm_compute. reflexivity.
Defined.

(** The answers of [n] calls of TryProbe in a row. *)
Fixpoint probes (n : nat) (w : world) : list bool :=
  match n with
  | O => []
  | S n => (TryProbe w).1 :: probes n (TryProbe w).2
  end.

(** Half-open admits one canary per cycle: of any number of dispatches that
    ask while the breaker is half-open and no outcome is recorded, the first
    is admitted and all others are refused, and recording an outcome of the
    probe leaves the half-open state, with the slot free. *)
Theorem breaker_single_probe w n s :
  b_state (w_breaker w) = breakerHalfOpen → b_probeInFlight (w_breaker w) = false →
  probes (S n) w = true :: replicate n false ∧
  let w' := Record_ s (TryProbe w).2 in
  b_probeInFlight (w_breaker w') = false ∧
  b_state (w_breaker w') = (if s then breakerClosed else breakerOpen).
Proof.
  intros Hs Hp. cbn [probes]. unfold TryProbe at 1 2. rewrite Hs, Hp. cbn [fst snd]. split.
  - f_equal. set (w1 := set_breaker _ _).
    assert (TryProbe w1 = (false, w1)) as E by (unfold TryProbe, w1; cbn; by rewrite Hs).
    induction n as [|n IH]; [done|]. cbn [probes replicate]. rewrite E. cbn [fst snd]. by rewrite IH.
  - unfold TryProbe, Record_. rewrite Hs, Hp. cbn. destruct s; [by rewrite Hs|].
    rewrite Hs. unfold openLocked, stop_timer. cbn. by destruct (b_timer _).
Qed.

Definition demo_half : world :=
  run (initial demo 0) [EvRecord false; EvRecord false; EvElapse 10; EvCallback 0].

Lemma breaker_single_probe_witness :
  probes 3 demo_half = [true; false; false] ∧
  let w' := Record_ true (TryProbe demo_half).2 in
  b_probeInFlight (w_breaker w') = false ∧ b_state (w_breaker w') = breakerClosed.
Proof. apply (breaker_single_probe demo_half 2 true); vm_compute; reflexivity. Defined.

End Breaker.

Module Backoff.

(** ** float64 operations *)

Definition prec : Z := 53.
Definition emax : Z := 1024.

(** [float64(n)] for an integer [n], rounded to nearest even. *)
Definition float64 (n : Z) : spec_float := binary_normalize prec emax n 0 false.
Definition mul : spec_float → spec_float → spec_float := SFmul prec emax.
Definition add : spec_float → spec_float → spec_float := SFadd prec emax.
Definition sub : spec_float → spec_float → spec_float := SFsub prec emax.
Definition IsNaN (f : spec_float) : bool := match f with S754_nan => true | _ => false end.

Section delay.
(** [math.Pow], the value [rand.Float64()] returns, and the platform's result
    for a conversion of a float that fits no int64. *)
Context (Pow : spec_float → spec_float → spec_float) (rand : spec_float).
Context (impl : spec_float → Z).

Record ExponentialBackoff : Type := mkBackoff {
  Initial : Z;
  Max : Z;
  Mult : spec_float;
  RandomizationFactor : spec_float
}.

Definition jitter (d : Z) (f : spec_float) : Z :=
  let delta := mul (float64 d) f in
  let lo := sub (float64 d) delta in
  let j := add lo (mul rand (mul (float64 2) delta)) in
  let j := if SFltb j (float64 0) then float64 0 else j in
  if IsNaN j || SFleb (float64 MaxInt64) j then MaxInt64
  else f64_to_int64 impl j.

Definition Delay (b : ExponentialBackoff) (attempt : Z) : Z :=
  let attempt := if attempt <? 0 then 0 else attempt in
  if Initial b <=? 0 then 0
  else
    let mult := if SFleb (Mult b) (float64 0) then float64 1 else Mult b in
    let d := mul (float64 (Initial b)) (Pow mult (float64 attempt)) in
    if IsNaN d || SFleb (float64 MaxInt64) d then
      if 0 <? Max b then Max b else Initial b
    else
      let out := f64_to_int64 impl d in
      let out := if (0 <? Max b) && (Max b <? out) then Max b else out in
      if SFltb (float64 0) (RandomizationFactor b) then
        let out := jitter out (RandomizationFactor b) in
        if (0 <? Max b) && (Max b <? out) then Max b else out
      else out.
End delay.

(** ** Rounding bounds the mantissa *)

(** The mantissa of a double fits its 53 bits. *)
Definition mant_ok (f : spec_float) : Prop :=
  match f with S754_finite _ m _ => Zpos m < 2 ^ prec | _ => True end.

(** Not below zero (or not a number). *)
Definition nonneg (f : spec_float) : Prop :=
  match f with S754_finite true _ _ | S754_infinity true => False | _ => True end.

Lemma iter_pos_shr p mrs :
  0 ≤ shr_m mrs → shr_m (SpecFloat.iter_pos shr_1 p mrs) = shr_m mrs / 2 ^ Zpos p.
Proof.
  assert (∀ r, 0 ≤ shr_m r → shr_m (shr_1 r) = shr_m r / 2) as H1.
  { intros [[|[q|q|]|q] r s] Hr; cbn in *; try done; try lia.
    - rewrite (Pos2Z.inj_xI q). replace (2 * Z.pos q + 1) with (1 + Z.pos q * 2) by lia.
      by rewrite Z.div_add by lia.
    - rewrite (Pos2Z.inj_xO q). replace (2 * Z.pos q) with (Z.pos q * 2) by lia. by rewrite Z.div_mul. }
  revert mrs. induction p as [p IH|p IH|]; intros mrs Hm; cbn [SpecFloat.iter_pos]; [| |by apply H1].
  - rewrite IH; rewrite IH; rewrite ?H1; try done; try (by apply Z.div_pos; lia);
      try (apply Z.div_pos; [apply Z.div_pos; lia|lia]).
    rewrite !Z.div_div by lia. f_equal. rewrite (Pos2Z.inj_xI p).
    rewrite Z.pow_add_r, Z.pow_1_r by lia. replace (2 * Z.pos p) with (Z.pos p + Z.pos p) by lia.
    rewrite Z.pow_add_r by lia. lia.
  - rewrite IH; rewrite IH; try done; try (by apply Z.div_pos; lia).
    rewrite Z.div_div by lia. f_equal. rewrite (Pos2Z.inj_xO p).
    replace (2 * Z.pos p) with (Z.pos p + Z.pos p) by lia. by rewrite Z.pow_add_r by lia.
Qed.

Lemma Zdigits2_gt m : 0 ≤ m → m < 2 ^ Zdigits2 m ∧ 0 ≤ Zdigits2 m.
Proof.
  intros Hm. destruct m as [|p|p]; cbn [Zdigits2]; [done| |lia]. split; [|lia].
  assert (digits2_pos p = Pos.size p) as -> by (clear Hm; by induction p as [p IH|p IH|]; [change (Pos.succ (digits2_pos p) = Pos.succ (Pos.size p)); rewrite IH..|]).
  pose proof (Pos.size_gt p) as Hp. apply Pos2Z.pos_lt_pos in Hp. by rewrite Pos2Z.inj_pow in Hp.
Qed.

Lemma shr_fexp_bound m e l :
  0 ≤ m → 0 ≤ shr_m (shr_fexp prec emax m e l).1 < 2 ^ prec.
Proof.
  intros Hm. unfold shr_fexp. destruct (Zdigits2_gt m Hm) as [Hd Hd0].
  assert (shr_m (shr_record_of_loc m l) = m) as Hr by (by destruct l as [|[]]).
  set (k := fexp prec emax (Zdigits2 m + e) - e).
  assert (Zdigits2 m ≤ prec + k) as Hk by (unfold k, fexp; lia).
  destruct k as [|k|k]; cbn [shr fst].
  - rewrite Hr. split; [done|]. eapply Z.lt_le_trans; [exact Hd|]. apply Z.pow_le_mono_r; lia.
  - rewrite iter_pos_shr, Hr by (by rewrite Hr). split; [apply Z.div_pos; lia|].
    apply Z.div_lt_upper_bound; [lia|]. rewrite <- Z.pow_add_r by (unfold prec; lia).
    eapply Z.lt_le_trans; [exact Hd|]. apply Z.pow_le_mono_r; lia.
  - rewrite Hr. split; [done|]. eapply Z.lt_le_trans; [exact Hd|]. apply Z.pow_le_mono_r; lia.
Qed.

Lemma binary_round_aux_ok s m e l :
  0 ≤ m → mant_ok (binary_round_aux prec emax s m e l) ∧
    (s = false → nonneg (binary_round_aux prec emax s m e l)).
Proof.
  intros Hm. unfold binary_round_aux. pose proof (shr_fexp_bound m e l Hm) as H1.
  destruct (shr_fexp prec emax m e l) as [r1 e1]. cbn [fst] in H1.
  set (m2 := round_nearest_even _ _).
  assert (0 ≤ m2) as Hm2 by (unfold m2, round_nearest_even; repeat case_match_goal; lia).
  pose proof (shr_fexp_bound m2 e1 loc_Exact Hm2) as H2.
  destruct (shr_fexp prec emax m2 e1 loc_Exact) as [r2 e2]. cbn [fst] in H2.
  destruct (shr_m r2) as [|p|p]; [done| |done].
  destruct (_ <=? _); split; cbn; try done; [lia|by intros ->..].
Qed.

Lemma binary_normalize_ok m e sz :
  mant_ok (binary_normalize prec emax m e sz) ∧ (0 ≤ m → nonneg (binary_normalize prec emax m e sz)).
Proof.
  unfold binary_normalize, binary_round. destruct m as [|p|p]; [done|..];
    destruct (shl_align _ _ _) as [mz ez].
  - destruct (binary_round_aux_ok false (Zpos mz) ez loc_Exact) as [? ?]; [lia|]. auto.
  - destruct (binary_round_aux_ok true (Zpos mz) ez loc_Exact) as [? ?]; [lia|]. split; [done|lia].
Qed.

Lemma mul_mant_ok x y : mant_ok (mul x y).
Proof.
  destruct x, y; cbn; try done. apply (binary_round_aux_ok _ (Zpos (_ * _))). lia.
Qed.

Lemma mul_nonneg x y : nonneg x → nonneg y → nonneg (mul x y).
Proof.
  destruct x as [[]|[]| |[]], y as [[]|[]| |[]]; cbn; try done.
  intros _ _. by apply (binary_round_aux_ok _ (Zpos (_ * _))).
Qed.

Lemma add_mant_ok x y : mant_ok x → mant_ok y → mant_ok (add x y).
Proof.
  destruct x as [sx|sx| |sx mx ex], y as [sy|sy| |sy my ey]; cbn; try done;
    try (by destruct sx, sy). intros _ _. apply binary_normalize_ok.
Qed.

Lemma sub_mant_ok x y : mant_ok x → mant_ok y → mant_ok (sub x y).
Proof.
  destruct x as [sx|sx| |sx mx ex], y as [sy|sy| |sy my ey]; cbn; try done;
    try (by destruct sx, sy). intros _ _. apply binary_normalize_ok.
Qed.

(** A double that is a number, not negative and below 2^63 converts exactly. *)
Lemma to_int64_exact impl f :
  mant_ok f → nonneg f → IsNaN f = false → SFleb (float64 MaxInt64) f = false →
  ∃ z, f64_trunc f = Some z ∧ 0 ≤ z ≤ MaxInt64 ∧ f64_to_int64 impl f = z.
Proof.
  intros Hm Hn HN Hlt.
  assert (float64 MaxInt64 = S754_finite false 4503599627370496 11) as Ef by (vm_compute; reflexivity).
  rewrite Ef in Hlt. clear Ef. unfold f64_to_int64.
  assert (∃ z, f64_trunc f = Some z ∧ 0 ≤ z ≤ MaxInt64) as (z & Hz & Hr).
  { destruct f as [s|[]| |[] m e]; try done; [by exists 0|]. cbn in Hm. cbn [f64_trunc].
    eexists. split; [done|]. unfold SFleb, SFcompare in Hlt. unfold MaxInt64, prec in *.
    destruct (Z.compare_spec 11 e) as [He|He|He]; [|discriminate Hlt|].
    - subst e. change (Pos.compare_cont Eq 4503599627370496 m) with (4503599627370496 ?= m)%positive in Hlt.
      destruct (Pos.compare_spec 4503599627370496 m) as [|He|He]; [discriminate Hlt|discriminate Hlt|].
      apply Pos2Z.pos_lt_pos in He.
      clear Hlt Hm Hn HN. change (0 <=? 11) with true. cbv iota. change (2 ^ 11) with 2048.
      change (2 ^ 63 - 1) with 9223372036854775807. lia.
    - destruct (0 <=? e) eqn:E0; bool_to_prop.
      + assert (2 ^ e ≤ 2 ^ 10) by (apply Z.pow_le_mono_r; lia). nia.
      + split; [apply Z.div_pos; lia|]. pose proof (Z.div_le_upper_bound (Zpos m) (2 ^ (- e)) (Zpos m)). 
        assert (0 < 2 ^ (- e)) by (apply Z.pow_pos_nonneg; lia). nia. }
  exists z. rewrite Hz. split; [done|]. split; [done|].
  replace (_ && _) with true; [done|]. symmetry. apply andb_true_iff.
  unfold MinInt64, MaxInt64 in *. split; apply Z.leb_le; lia.
Qed.

Lemma float64_ok n : mant_ok (float64 n) ∧ (0 ≤ n → nonneg (float64 n)).
Proof. apply binary_normalize_ok. Qed.

Lemma clamped_nonneg j :
  nonneg (if SFltb j (float64 0) then float64 0 else j).
Proof.
  change (float64 0) with (S754_zero false). destruct j as [|[]| |[] m e]; done.
Qed.

Lemma jitter_bounded rand impl d f :
  0 ≤ jitter rand impl d f ≤ MaxInt64 ∧
  ∀ impl', jitter rand impl' d f = jitter rand impl d f.
Proof.
  unfold jitter. set (j0 := add _ _). set (j := if SFltb j0 _ then _ else _).
  destruct (IsNaN j || SFleb (float64 MaxInt64) j) eqn:Ej; [done|].
  apply orb_false_iff in Ej as [HN Hlt].
  assert (mant_ok j0) as Hm0.
  { apply add_mant_ok; [apply sub_mant_ok; [apply float64_ok|]|]; apply mul_mant_ok. }
  assert (mant_ok j) as Hm by (unfold j; destruct (SFltb _ _); [apply float64_ok|done]).
  assert (∀ i, ∃ z, f64_trunc j = Some z ∧ 0 ≤ z ≤ MaxInt64 ∧ f64_to_int64 i j = z) as Hx
    by (intros i; apply to_int64_exact; [done|apply clamped_nonneg|done|done]).
  destruct (Hx impl) as (z & Hz & Hr & ->). split; [done|].
  intros i. destruct (Hx i) as (z' & Hz' & _ & ->). congruence.
Qed.

Lemma Delay_bounds Pow rand impl b attempt :
  (∀ x y, SFleb x (float64 0) = false → nonneg (Pow x y)) →
  Initial b ≤ MaxInt64 → Max b ≤ MaxInt64 →
  let d := Delay Pow rand impl b attempt in
  0 ≤ d ≤ MaxInt64 ∧ (0 < Max b → d ≤ Max b) ∧
  ∀ impl', Delay Pow rand impl' b attempt = d.
Proof.
  intros Hpow Hi HM. unfold Delay. destruct (Initial b <=? 0) eqn:Ei; [unfold MaxInt64; cbn; split_and!; done || lia|].
  bool_to_prop. set (a := if attempt <? 0 then _ else _).
  set (mult := if SFleb (Mult b) _ then _ else _). set (d := mul _ _).
  assert (nonneg d) as Hn.
  { apply mul_nonneg; [apply float64_ok; lia|]. apply Hpow. unfold mult.
    destruct (SFleb (Mult b) (float64 0)) eqn:E; [vm_compute; reflexivity|done]. }
  destruct (IsNaN d || SFleb (float64 MaxInt64) d) eqn:Ed.
  { destruct (0 <? Max b) eqn:E; bool_to_prop; split_and!; done || lia. }
  apply orb_false_iff in Ed as [HN Hlt].
  pose proof (λ i, to_int64_exact i d (mul_mant_ok _ _) Hn HN Hlt) as Hx.
  destruct (Hx impl) as (z & Hz & Hr & ->).
  assert (∀ i, f64_to_int64 i d = z) as Hall
    by (intros i; destruct (Hx i) as (z' & Hz' & _ & ->); congruence).
  set (out := if (0 <? Max b) && (Max b <? z) then Max b else z).
  assert (0 ≤ out ≤ MaxInt64 ∧ (0 < Max b → out ≤ Max b)) as Hout
    by (unfold out; destruct (0 <? Max b) eqn:E1, (Max b <? z) eqn:E2; cbn; bool_to_prop; lia).
  destruct (SFltb (float64 0) (RandomizationFactor b)) eqn:EF.
  - destruct (jitter_bounded rand impl out (RandomizationFactor b)) as [Hj Hji].
    remember (jitter rand impl out (RandomizationFactor b)) as j eqn:Ej. split_and!.
    1-3: destruct (0 <? Max b) eqn:E1, (Max b <? j) eqn:E2; cbn; bool_to_prop; lia.
    intros i. rewrite Hall. fold out. by rewrite Hji.
  - split_and!; [lia..|]. intros i. by rewrite Hall.
Qed.

(** The backoff never overflows: with any growth factor, jitter and number of
    attempts, Delay is between zero and the cap (the largest duration when
    uncapped), and it does not depend on what the platform returns for a
    float conversion out of range, that is, every conversion it makes is of a
    value that fits.  [math.Pow] is only assumed not to return a negative
    number for a base that is not negative. *)
Theorem backoff_bounded Pow rand impl b attempt :
  (∀ x y, SFleb x (float64 0) = false → nonneg (Pow x y)) →
  Initial b ≤ MaxInt64 → Max b ≤ MaxInt64 →
  let d := Delay Pow rand impl b attempt in
  0 ≤ d ≤ MaxInt64 ∧ (0 < Max b → d ≤ Max b) ∧
  ∀ impl', Delay Pow rand impl' b attempt = d.
Proof. apply Delay_bounds. Qed.

(** Doubling from one second up to a minute, with 50% jitter, a [math.Pow] that
    overflows, and the largest draw below one. *)
Definition demo : ExponentialBackoff :=
  mkBackoff second minute (float64 2) (SFdiv prec emax (float64 1) (float64 2)).
Definition demo_pow (x y : spec_float) : spec_float := S754_infinity false.
Definition demo_rand : spec_float := S754_finite false 9007199254740991 (-53).

Lemma backoff_bounded_witness :
  let d := Delay demo_pow demo_rand (λ _, MinInt64) demo 5 in
  0 ≤ d ≤ MaxInt64 ∧ (0 < minute → d ≤ minute) ∧
  ∀ impl', Delay demo_pow demo_rand impl' demo 5 = d.
Proof.
  apply (backoff_bounded demo_pow demo_rand (λ _, MinInt64) demo 5).
  - intros x y _. exact I.
  - vm_compute. discriminate.
  - vm_compute. discriminate.
Defined.

End Backoff.
