(* ===== verification/Rounding.v ===== *)
(** * How far a double is from the number it stands for

    The arithmetic of float64 that the token bucket of [resilience/ratelimit.go]
    rests on.  A finite double is a whole number of [2^-1074]ths, so that its value
    is an integer on that scale ([val]); the result of an addition, a subtraction,
    a conversion or a division lies within one part in [2^52] of the exact one. *)

From Stdlib Require Import Floats.SpecFloat.
From S2P Require Import Prelude Message Resilience.
Import Backoff.
Local Open Scope Z_scope.

(** 1 on that scale. *)
Definition unit_val : Z := 2 ^ 1074.
Definition val (f : spec_float) : Z :=
  match f with S754_finite false m e => Zpos m * 2 ^ (e + 1074) | _ => 0 end.
(** A double that is finite and not negative, in its canonical form. *)
Definition fin (f : spec_float) : Prop :=
  match f with
  | S754_zero _ => True
  | S754_finite false m e => -1074 ≤ e ≤ 971 ∧ Zpos m < 2 ^ 53 ∧ (2 ^ 52 ≤ Zpos m ∨ e = -1074)
  | _ => False
  end.

Lemma pow_pos k : 0 < 2 ^ k ∨ k < 0.
Proof. destruct (Z_lt_le_dec k 0); [by right|left]. by apply Z.pow_pos_nonneg. Qed.
Lemma pow2_pos k : 0 ≤ k → 0 < 2 ^ k.
Proof. intros. by apply Z.pow_pos_nonneg. Qed.
Lemma unit_pos : 0 < unit_val.
Proof. by apply pow2_pos. Qed.
Lemma val_nonneg f : fin f → 0 ≤ val f.
Proof. destruct f as [|[]| |[] m e]; cbn; try done. intros [[He _] _]. pose proof (pow2_pos (e + 1074)). lia. Qed.

Lemma Zdigits2_le m : 0 < m → 2 ^ (Zdigits2 m - 1) ≤ m < 2 ^ Zdigits2 m ∧ 1 ≤ Zdigits2 m.
Proof.
  intros Hm. destruct (Zdigits2_gt m) as [Hlt _]; [lia|]. destruct m as [|p|p]; [lia| |lia].
  cbn [Zdigits2] in *. split; [|lia]. split; [|done]. clear Hlt.
  induction p as [p IH|p IH|]; [| |done]; cbn [digits2_pos] in *; rewrite Pos2Z.inj_succ;
    replace (Z.succ (Z.pos (digits2_pos p)) - 1) with (Z.succ (Z.pos (digits2_pos p) - 1)) by lia;
    rewrite Z.pow_succ_r by lia; rewrite ?(Pos2Z.inj_xI p), ?(Pos2Z.inj_xO p); lia.
Qed.
Lemma Zdigits2_bound m k : 0 < m < 2 ^ k → Zdigits2 m ≤ k.
Proof.
  intros [Hm Hk]. destruct (Zdigits2_le m Hm) as [[Hd _] H1].
  destruct (Z_lt_le_dec k (Zdigits2 m)); [|done].
  assert (2 ^ k ≤ 2 ^ (Zdigits2 m - 1)) by (apply Z.pow_le_mono_r; lia). lia.
Qed.
Lemma Zdigits2_above m k : 0 < m → 0 ≤ k → 2 ^ k ≤ m → k + 1 ≤ Zdigits2 m.
Proof.
  intros Hm H0 Hk. destruct (Zdigits2_le m Hm) as [[_ Hd] H1].
  destruct (Z_lt_le_dec k (Zdigits2 m)); [lia|].
  assert (2 ^ Zdigits2 m ≤ 2 ^ k) by (apply Z.pow_le_mono_r; lia). lia.
Qed.

Lemma shr_fexp_spec m e l (k := fexp prec emax (Zdigits2 m + e) - e) :
  0 < m → 0 ≤ k → shr_m (shr_fexp prec emax m e l).1 = m / 2 ^ k ∧ (shr_fexp prec emax m e l).2 = e + k.
Proof.
  intros Hm Hk. assert (Hr : shr_m (shr_record_of_loc m l) = m) by (by destruct l as [|[]]).
  unfold shr_fexp. change (fexp prec emax (Zdigits2 m + e) - e) with k. destruct k as [|p|p]; cbn [shr fst snd]; [|..].
  - rewrite Hr, Z.div_1_r. lia.
  - rewrite iter_pos_shr, Hr by (rewrite Hr; lia). done.
  - lia.
Qed.
Lemma shr_fexp_idle m e l : fexp prec emax (Zdigits2 m + e) ≤ e →
  shr_fexp prec emax m e l = (shr_record_of_loc m l, e).
Proof.
  intros Hk. unfold shr_fexp. destruct (_ - e) eqn:E; [done|lia|done].
Qed.
Lemma nearest_near m l : round_nearest_even m l = m ∨ round_nearest_even m l = m + 1.
Proof. unfold round_nearest_even. repeat case_match; auto. Qed.
Lemma fexp_unfold d : fexp prec emax d = Z.max (d - 53) (-1074).
Proof. done. Qed.

(** [x] is within one part in [2^52] of [v]. *)
Definition near (x v : Z) : Prop := x * 2 ^ 52 ≤ v * (2 ^ 52 + 1) ∧ v * 2 ^ 52 ≤ x * (2 ^ 52 + 1).

Lemma near_refl v : 0 ≤ v → near v v.
Proof. unfold near. lia. Qed.

(** Rounding a mantissa of 53 bits up or down. *)
Lemma near_scale m m1 m2 P Q :
  0 < P → 0 < Q → 2 ^ 52 ≤ m1 → m1 * Q ≤ m < (m1 + 1) * Q → m1 ≤ m2 ≤ m1 + 1 →
  near (m2 * (Q * P)) (m * P).
Proof.
  intros HP HQ Hb [Hlo Hhi] Hm2. unfold near. set (c := 2 ^ 52) in *.
  assert (Hc : 0 < c) by (by apply pow2_pos). clearbody c.
  assert (H1 : m2 * c ≤ m1 * (c + 1)) by nia.
  assert (H2 : (m1 + 1) * c ≤ m2 * (c + 1)) by nia.
  split.
  - replace (m2 * (Q * P) * c) with (m2 * c * Q * P) by ring.
    replace (m * P * (c + 1)) with (m * (c + 1) * P) by ring.
    apply Z.mul_le_mono_nonneg_r; [lia|]. transitivity (m1 * (c + 1) * Q).
    + apply Z.mul_le_mono_nonneg_r; lia.
    + replace (m1 * (c + 1) * Q) with (m1 * Q * (c + 1)) by ring. apply Z.mul_le_mono_nonneg_r; lia.
  - replace (m2 * (Q * P) * (c + 1)) with (m2 * (c + 1) * Q * P) by ring.
    replace (m * P * c) with (m * c * P) by ring.
    apply Z.mul_le_mono_nonneg_r; [lia|]. transitivity ((m1 + 1) * Q * c).
    + apply Z.mul_le_mono_nonneg_r; lia.
    + replace ((m1 + 1) * Q * c) with ((m1 + 1) * c * Q) by ring. apply Z.mul_le_mono_nonneg_r; lia.
Qed.

(** The second normalisation, of the rounded mantissa. *)
Lemma renormalize m e :
  0 < m ≤ 2 ^ 53 → -1074 ≤ e ≤ 970 → (2 ^ 52 ≤ m ∨ e = -1074) →
  ∃ p e', (let '(r, e'') := shr_fexp prec emax m e loc_Exact in
           match shr_m r with
           | Z0 => S754_zero false
           | Zpos p => if e'' <=? emax - prec then S754_finite false p e'' else S754_infinity false
           | _ => S754_nan
           end) = S754_finite false p e' ∧ fin (S754_finite false p e') ∧
    Zpos p * 2 ^ (e' + 1074) = m * 2 ^ (e + 1074).
Proof.
  intros Hm He Hn. destruct (Z.eq_dec m (2 ^ 53)) as [->|Hne].
  - assert (Hd : Zdigits2 (2 ^ 53) = 54) by reflexivity.
    pose proof (shr_fexp_spec (2 ^ 53) e loc_Exact) as Hs. cbv zeta in Hs. rewrite fexp_unfold, Hd in Hs.
    replace (Z.max (54 + e - 53) (-1074) - e) with 1 in Hs by lia. destruct Hs as [H1 H2]; [lia|lia|].
    destruct (shr_fexp prec emax (2 ^ 53) e loc_Exact) as [r e'']. cbn [fst snd] in *. subst e''.
    rewrite H1. change (2 ^ 53 / 2 ^ 1) with (Zpos 4503599627370496). cbv iota.
    exists 4503599627370496%positive, (e + 1). destruct (Z.leb_spec (e + 1) (emax - prec)); [|unfold emax, prec in *; lia].
    split; [done|]. split; [cbn; lia|]. replace (e + 1 + 1074) with (Z.succ (e + 1074)) by lia.
    rewrite Z.pow_succ_r by lia. lia.
  - assert (Zdigits2 m ≤ 53) by (apply Zdigits2_bound; lia).
    rewrite shr_fexp_idle by (rewrite fexp_unfold; lia). cbn [shr_record_of_loc shr_m].
    destruct m as [|p|p]; [lia| |lia]. exists p, e. destruct (Z.leb_spec e (emax - prec)); [|unfold emax, prec in *; lia].
    split; [done|]. split; [cbn; lia|done].
Qed.

Lemma round_near m e l :
  0 < m → -1074 ≤ e ≤ fexp prec emax (Zdigits2 m + e) → l = loc_Exact ∨ 2 ^ 52 ≤ m →
  m * 2 ^ (e + 1074) < 2 ^ 2000 →
  ∃ p e', binary_round_aux prec emax false m e l = S754_finite false p e' ∧
    fin (S754_finite false p e') ∧ near (val (S754_finite false p e')) (m * 2 ^ (e + 1074)).
Proof.
  intros Hm [He Hf] Hl Hv. destruct (Zdigits2_le m Hm) as [[Hd1 Hd2] Hd].
  pose proof (shr_fexp_bound m e l ltac:(lia)) as Hb.
  destruct (shr_fexp_spec m e l Hm ltac:(lia)) as [H1 H2].
  set (k := fexp prec emax (Zdigits2 m + e) - e) in *. assert (Hk0 : 0 ≤ k) by lia.
  assert (Hsz : Zdigits2 m + e ≤ 927).
  { destruct (Z_lt_le_dec 927 (Zdigits2 m + e)); [|done].
    assert (2 ^ 2000 ≤ 2 ^ (Zdigits2 m - 1) * 2 ^ (e + 1074)); [|pose proof (pow2_pos (e + 1074)); nia].
    rewrite <- Z.pow_add_r by lia. apply Z.pow_le_mono_r; lia. }
  assert (Hcase : 2 ^ 52 ≤ m / 2 ^ k ∨ k = 0 ∧ e = -1074).
  { destruct (Z_lt_le_dec (Zdigits2 m - 53) k); [right; unfold k in *; rewrite fexp_unfold in *; lia|left].
    assert (k = Zdigits2 m - 53) as -> by (unfold k in *; rewrite fexp_unfold in *; lia).
    apply Z.div_le_lower_bound; [by apply pow2_pos|]. rewrite <- Z.pow_add_r by lia.
    by replace (Zdigits2 m - 53 + 52) with (Zdigits2 m - 1) by lia. }
  unfold binary_round_aux. destruct (shr_fexp prec emax m e l) as [r e1] eqn:Es. cbn [fst snd] in *. subst e1.
  set (m2 := round_nearest_even (shr_m r) (loc_of_shr_record r)).
  set (m1 := m / 2 ^ k) in *.
  assert (Hm2 : (m2 = m1 ∧ k = 0) ∨ (2 ^ 52 ≤ m1 ∧ m1 ≤ m2 ≤ m1 + 1)).
  { destruct Hcase as [Hc|[Hk Hc]].
    - right. destruct (nearest_near (shr_m r) (loc_of_shr_record r)) as [E|E]; unfold m2; rewrite E, H1; lia.
    - destruct Hl as [->|Hl].
      + left. split; [|done]. unfold m2. unfold shr_fexp in Es.
        replace (fexp prec emax (Zdigits2 m + e) - e) with 0 in Es by (unfold k in Hk; lia).
        injection Es as <- _. cbn. unfold m1. by rewrite Hk, Z.div_1_r.
      + right. destruct (nearest_near (shr_m r) (loc_of_shr_record r)) as [E|E]; unfold m2; rewrite E, H1;
          (split; [|lia]); unfold m1; rewrite Hk, Z.div_1_r; lia. }
  assert (Hm1 : m1 * 2 ^ k ≤ m < (m1 + 1) * 2 ^ k).
  { pose proof (Z.mul_div_le m (2 ^ k) ltac:(by apply pow2_pos)).
    pose proof (Z.mul_succ_div_gt m (2 ^ k) ltac:(by apply pow2_pos)). unfold m1. lia. }
  assert (Hex : -1074 ≤ e + k ≤ 970) by (unfold k; rewrite fexp_unfold; lia).
  assert (Hp53 : m1 < 2 ^ 53) by (rewrite H1 in Hb; apply Hb).
  destruct (renormalize m2 (e + k)) as (p & e' & E & Hfin & Hval); [|done| |].
  { destruct Hm2 as [[-> Hk]|]; [|lia]. unfold m1 in *. rewrite Hk, Z.div_1_r in *. lia. }
  { destruct Hm2 as [[-> Hk]|]; [|lia]. destruct Hcase as [|[]]; lia. }
  exists p, e'. split; [exact E|]. split; [done|]. unfold near. cbn [val]. rewrite Hval.
  replace (e + k + 1074) with (k + (e + 1074)) by lia. rewrite Z.pow_add_r by lia.
  pose proof (pow2_pos (e + 1074) ltac:(lia)) as HP. pose proof (pow2_pos k Hk0) as HQ.
  destruct Hm2 as [[-> Hk]|[Hbig Hm2]].
  - unfold m1. rewrite Hk, Z.div_1_r. change (2 ^ 0) with 1. lia.
  - by apply near_scale with m1.
Qed.

Lemma iter_xO m d : Zpos (Pos.iter xO m d) = Zpos m * 2 ^ Zpos d.
Proof.
  revert d. apply Pos.peano_ind; [cbn; lia|]. intros d IH. rewrite Pos.iter_succ, Pos2Z.inj_succ, Z.pow_succ_r by lia.
  rewrite Pos2Z.inj_xO, IH. lia.
Qed.
(** Aligning to a smaller exponent changes the mantissa, not the value. *)
Lemma shl_align_val m e e' : -1074 ≤ e' →
  let '(m', e'') := shl_align m e e' in
  e'' = Z.min e e' ∧ Zpos m' * 2 ^ (e'' + 1074) = Zpos m * 2 ^ (e + 1074).
Proof.
  intros He. unfold shl_align. destruct (e' - e) as [|d|d] eqn:E; [split; [lia|done]..|].
  split; [lia|]. rewrite iter_xO, <- Z.mul_assoc, <- Z.pow_add_r by lia. do 2 f_equal. lia.
Qed.
Lemma digits_scale m m' e e' : 0 < m → 0 < m' → -1074 ≤ e' ≤ e →
  m' * 2 ^ (e' + 1074) = m * 2 ^ (e + 1074) → Zdigits2 m' + e' = Zdigits2 m + e.
Proof.
  intros Hm Hm' He Hv. replace (e + 1074) with (e - e' + (e' + 1074)) in Hv by lia.
  rewrite (Z.pow_add_r 2 (e - e')), Z.mul_assoc in Hv by lia.
  apply Z.mul_reg_r in Hv; [|pose proof (pow2_pos (e' + 1074)); lia]. subst m'.
  destruct (Zdigits2_le m Hm) as [[H1 H2] H3]. pose proof (pow2_pos (e - e') ltac:(lia)).
  assert (Zdigits2 (m * 2 ^ (e - e')) ≤ Zdigits2 m + (e - e')).
  { apply Zdigits2_bound. rewrite Z.pow_add_r by lia. split; [lia|]. apply Z.mul_lt_mono_pos_r; lia. }
  assert (Zdigits2 m - 1 + (e - e') + 1 ≤ Zdigits2 (m * 2 ^ (e - e'))).
  { apply Zdigits2_above; [lia..|]. rewrite Z.pow_add_r by lia. apply Z.mul_le_mono_nonneg_r; lia. }
  lia.
Qed.

Lemma normalize_near m e :
  0 < m → -1074 ≤ e → m * 2 ^ (e + 1074) < 2 ^ 2000 →
  ∃ p e', binary_normalize prec emax m e false = S754_finite false p e' ∧
    fin (S754_finite false p e') ∧ near (val (S754_finite false p e')) (m * 2 ^ (e + 1074)).
Proof.
  intros Hm He Hv. destruct m as [|q|q]; [lia| |lia]. cbn [binary_normalize]. unfold binary_round.
  assert (Hf : -1074 ≤ fexp prec emax (Zpos (digits2_pos q) + e)) by (rewrite fexp_unfold; lia).
  pose proof (shl_align_val q e _ Hf) as Ha. destruct (shl_align _ _ _) as [q' e'].
  destruct Ha as [-> Hq]. rewrite <- Hq in *.
  apply (round_near (Zpos q')); [done| |by left|done]. split; [lia|].
  pose proof (digits_scale (Zpos q) (Zpos q') e (Z.min e (fexp prec emax (Zpos (digits2_pos q) + e)))
    ltac:(lia) ltac:(lia) ltac:(lia) Hq) as Hd.
  cbn [Zdigits2] in *. rewrite Hd. lia.
Qed.

(** ** The operations of float64 *)

Lemma float64_near n : 0 < n < 2 ^ 64 → fin (float64 n) ∧ near (val (float64 n)) (n * unit_val).
Proof.
  intros Hn. destruct (normalize_near n 0) as (p & e' & E & Hf & Hv); [lia..| |].
  { apply Z.lt_trans with (2 ^ 64 * 2 ^ (0 + 1074)); [|done]. pose proof unit_pos. unfold unit_val in *.
    change (0 + 1074) with 1074. nia. }
  unfold float64. by rewrite E.
Qed.
Lemma add_near x y : fin x → fin y → val x + val y < 2 ^ 2000 →
  fin (add x y) ∧ near (val (add x y)) (val x + val y).
Proof.
  intros Hx Hy Hs. pose proof (val_nonneg _ Hx). pose proof (val_nonneg _ Hy).
  destruct x as [sx|[]| |[] mx ex], y as [sy|[]| |[] my ey]; try done.
  { by destruct sx, sy. }
  { split; [done|]. by apply near_refl. }
  { split; [done|]. rewrite Z.add_0_r. by apply near_refl. }
  cbn [fin] in Hx, Hy. cbn [val] in *. unfold add, SFadd, cond_Zopp.
  pose proof (shl_align_val mx ex (Z.min ex ey) ltac:(lia)) as Ax.
  pose proof (shl_align_val my ey (Z.min ex ey) ltac:(lia)) as Ay.
  destruct (shl_align mx ex (Z.min ex ey)) as [mx' ex'], (shl_align my ey (Z.min ex ey)) as [my' ey'].
  destruct Ax as [-> Ax], Ay as [-> Ay]. cbn [fst].
  replace (Z.min ex (Z.min ex ey)) with (Z.min ex ey) in Ax by lia.
  replace (Z.min ey (Z.min ex ey)) with (Z.min ex ey) in Ay by lia.
  rewrite <- Ax, <- Ay, <- Z.mul_add_distr_r in *.
  destruct (normalize_near (Zpos mx' + Zpos my') (Z.min ex ey)) as (p & e' & -> & ? & ?); [lia..|done|]. done.
Qed.
Lemma sub_near x y : fin x → fin y → val y ≤ val x → val x < 2 ^ 2000 →
  fin (sub x y) ∧ near (val (sub x y)) (val x - val y).
Proof.
  intros Hx Hy Hle Hs. pose proof (val_nonneg _ Hx). pose proof (val_nonneg _ Hy).
  destruct x as [sx|[]| |[] mx ex], y as [sy|[]| |[] my ey]; try done.
  { by destruct sx, sy. }
  { exfalso. cbn [val fin] in *. pose proof (pow2_pos (ey + 1074) ltac:(lia)). nia. }
  { split; [done|]. rewrite Z.sub_0_r. by apply near_refl. }
  cbn [fin] in Hx, Hy. cbn [val] in *. unfold sub, SFsub, cond_Zopp.
  pose proof (shl_align_val mx ex (Z.min ex ey) ltac:(lia)) as Ax.
  pose proof (shl_align_val my ey (Z.min ex ey) ltac:(lia)) as Ay.
  destruct (shl_align mx ex (Z.min ex ey)) as [mx' ex'], (shl_align my ey (Z.min ex ey)) as [my' ey'].
  destruct Ax as [-> Ax], Ay as [-> Ay]. cbn [fst].
  replace (Z.min ex (Z.min ex ey)) with (Z.min ex ey) in Ax by lia.
  replace (Z.min ey (Z.min ex ey)) with (Z.min ex ey) in Ay by lia.
  pose proof (pow2_pos (Z.min ex ey + 1074) ltac:(lia)).
  rewrite <- Ax, <- Ay, <- Z.mul_sub_distr_r in *.
  destruct (Z.eq_dec (Zpos mx') (Zpos my')) as [E|E]; [by rewrite E, Z.sub_diag|].
  destruct (normalize_near (Zpos mx' - Zpos my') (Z.min ex ey)) as (p & e' & -> & ? & ?); [nia|lia|nia|]. done.
Qed.

(** Both operands with a full mantissa and a small exponent, as integers of 64 bits
    have; the quotient is below the exact one, or one part in [2^52] above. *)
Definition div : spec_float → spec_float → spec_float := SFdiv prec emax.
Definition moderate (f : spec_float) : Prop :=
  match f with S754_finite false m e => 2 ^ 52 ≤ Zpos m < 2 ^ 53 ∧ -60 ≤ e ≤ 60 | _ => False end.
Lemma float64_moderate n : 0 < n < 2 ^ 64 → moderate (float64 n).
Proof.
  intros Hn. destruct (float64_near n Hn) as [Hf [Hu Hl]].
  assert (HU : 0 < unit_val) by apply unit_pos.
  assert (Hlo : unit_val ≤ 2 * val (float64 n)) by nia.
  assert (Hhi : val (float64 n) < 2 ^ 65 * unit_val) by nia. clear Hu Hl.
  destruct (float64 n) as [|[]| |[] m e]; try done; cbn [val fin moderate] in *.
  unfold unit_val in *. destruct Hf as ([He1 He2] & Hm & Hn').
  assert (Hup : e < 60).
  { destruct (Z_lt_le_dec e 60); [done|]. destruct Hn' as [Hn'|]; [|lia].
    assert (2 ^ 60 * 2 ^ 1074 ≤ 2 ^ (e + 1074)) by (rewrite <- Z.pow_add_r by lia; apply Z.pow_le_mono_r; lia). nia. }
  assert (Hdn : -60 ≤ e).
  { destruct (Z_lt_le_dec e (-60)); [|done].
    assert (2 ^ (e + 1074) ≤ 2 ^ (1074 - 61)) by (apply Z.pow_le_mono_r; lia).
    change (2 ^ 1074) with (2 ^ 61 * 2 ^ (1074 - 61)) in Hlo. pose proof (pow2_pos (1074 - 61)).
    pose proof (pow2_pos (e + 1074)). nia. }
  lia.
Qed.
Lemma div_near x y : moderate x → moderate y →
  ∃ v, fin (div x y) ∧ near (val (div x y)) v ∧
    v * val y ≤ val x * unit_val ∧ val x * unit_val * 2 ^ 52 ≤ v * (2 ^ 52 + 1) * val y.
Proof.
  destruct x as [|[]| |[] mx ex], y as [|[]| |[] my ey]; try done. intros [Hx Ex] [Hy Ey].
  assert (Hdx : Zdigits2 (Zpos mx) = 53).
  { pose proof (Zdigits2_bound (Zpos mx) 53). pose proof (Zdigits2_above (Zpos mx) 52). lia. }
  assert (Hdy : Zdigits2 (Zpos my) = 53).
  { pose proof (Zdigits2_bound (Zpos my) 53). pose proof (Zdigits2_above (Zpos my) 52). lia. }
  unfold div, SFdiv, SFdiv_core_binary. rewrite Hdx, Hdy, fexp_unfold.
  replace (Z.min (Z.max (53 + ex - (53 + ey) - 53) (-1074)) (ex - ey)) with (ex - ey - 53) by lia.
  replace (ex - ey - (ex - ey - 53)) with 53 by lia. cbv iota. rewrite Z.shiftl_mul_pow2 by lia.
  change (xorb false false) with false.
  pose proof (Z_div_mod (Zpos mx * 2 ^ 53) (Zpos my) ltac:(lia)) as Hqr.
  destruct (Z.div_eucl (Zpos mx * 2 ^ 53) (Zpos my)) as [q' r]. destruct Hqr as [Hq Hr].
  assert (Hq52 : 2 ^ 52 ≤ q') by nia.
  assert (Hq54 : q' < 2 ^ 54) by nia.
  assert (Hdq : 53 ≤ Zdigits2 q') by (pose proof (Zdigits2_above q' 52); lia).
  assert (HP : 0 < 2 ^ (ex - ey - 53 + 1074)) by (apply pow2_pos; lia).
  destruct (round_near q' (ex - ey - 53) (new_location (Zpos my) r)) as (p & e' & -> & Hf & Hn).
  { lia. } { rewrite fexp_unfold. lia. } { by right. }
  { assert (2 ^ (ex - ey - 53 + 1074) ≤ 2 ^ 1200) by (apply Z.pow_le_mono_r; lia).
    apply Z.lt_trans with (2 ^ 54 * 2 ^ 1200); [nia|done]. }
  exists (q' * 2 ^ (ex - ey - 53 + 1074)). split; [done|]. split; [done|]. cbn [val].
  assert (Hpow : 2 ^ (ex + 1074) * unit_val = 2 ^ 53 * (2 ^ (ex - ey - 53 + 1074) * 2 ^ (ey + 1074))).
  { unfold unit_val. rewrite <- !Z.pow_add_r by lia. f_equal. lia. }
  set (A := 2 ^ (ex + 1074)) in *. set (P := 2 ^ (ex - ey - 53 + 1074)) in *. set (Y := 2 ^ (ey + 1074)) in *.
  assert (HY : 0 < Y) by (apply pow2_pos; lia).
  replace (Zpos mx * A * unit_val) with (Zpos mx * 2 ^ 53 * (P * Y)) by (rewrite <- (Z.mul_assoc (Zpos mx) A), Hpow; ring).
  replace (q' * P * (Zpos my * Y)) with (q' * Zpos my * (P * Y)) by ring.
  replace (q' * P * (2 ^ 52 + 1) * (Zpos my * Y)) with (q' * (2 ^ 52 + 1) * Zpos my * (P * Y)) by ring.
  assert (0 < P * Y) by (by apply Z.mul_pos_pos).
  split.
  - apply Z.mul_le_mono_nonneg_r; [lia|]. lia.
  - replace (Zpos mx * 2 ^ 53 * (P * Y) * 2 ^ 52) with (Zpos mx * 2 ^ 53 * 2 ^ 52 * (P * Y)) by ring.
    apply Z.mul_le_mono_nonneg_r; [lia|]. rewrite Hq.
    replace (q' * (2 ^ 52 + 1) * Zpos my) with (q' * 2 ^ 52 * Zpos my + q' * Zpos my) by ring. nia.
Qed.

(** ** Comparison *)
Lemma scale_lt m n e f : 0 ≤ e + 1074 → e < f → m < 2 ^ 53 → 2 ^ 52 ≤ n →
  m * 2 ^ (e + 1074) < n * 2 ^ (f + 1074).
Proof.
  intros He Hf Hm Hn. replace (f + 1074) with (f - e - 1 + (1 + (e + 1074))) by lia.
  rewrite (Z.pow_add_r 2 (f - e - 1)), (Z.pow_add_r 2 1) by lia.
  pose proof (pow2_pos (f - e - 1) ltac:(lia)) as Hk. pose proof (pow2_pos (e + 1074) He) as HP.
  set (k := 2 ^ (f - e - 1)) in *. set (P := 2 ^ (e + 1074)) in *. change (2 ^ 1) with 2.
  replace (n * (k * (2 * P))) with (n * 2 * k * P) by ring. apply Z.mul_lt_mono_pos_r; [done|]. nia.
Qed.
Lemma compare_val x y : fin x → fin y → SFcompare x y = Some (val x ?= val y).
Proof.
  destruct x as [sx|[]| |[] mx ex], y as [sy|[]| |[] my ey]; try done; cbn [fin val SFcompare].
  - intros _ [He _]. pose proof (pow2_pos (ey + 1074) ltac:(lia)). by destruct (Z.compare_spec 0 (Zpos my * 2 ^ (ey + 1074))); [nia| |nia].
  - intros [He _] _. pose proof (pow2_pos (ex + 1074) ltac:(lia)). by destruct (Z.compare_spec (Zpos mx * 2 ^ (ex + 1074)) 0); [nia|nia|].
  - intros (Ex & Mx & Nx) (Ey & My & Ny). f_equal.
    pose proof (pow2_pos (ex + 1074) ltac:(lia)). pose proof (pow2_pos (ey + 1074) ltac:(lia)).
    destruct (Z.compare_spec ex ey) as [->|He|He].
    + rewrite <- Zmult_compare_compat_r by lia. done.
    + symmetry. apply Z.compare_lt_iff, scale_lt; [lia..|]. by destruct Ny as [|E]; [|lia].
    + symmetry. apply Z.compare_gt_iff, scale_lt; [lia..|]. by destruct Nx as [|E]; [|lia].
Qed.
Lemma leb_val x y : fin x → fin y → SFleb x y = (val x <=? val y).
Proof. intros Hx Hy. unfold SFleb. rewrite compare_val by done. unfold Z.leb. by destruct (_ ?= _). Qed.
Lemma ltb_val x y : fin x → fin y → SFltb x y = (val x <? val y).
Proof. intros Hx Hy. unfold SFltb. rewrite compare_val by done. unfold Z.ltb. by destruct (_ ?= _). Qed.
