(* ===== verification/TokenBucket.v ===== *)
(** * The token bucket

    [resilience/ratelimit.go]: the default rate limiter, over IEEE 754 doubles.  The
    block of [Wait] that runs under the mutex is one definition ([wait_turn]); the
    turns of any number of callers are a list of the times at which they come, as
    the clock reads then, and [Wait] is the loop one caller makes of them.  What a
    conversion of a double that fits no int64 gives is a parameter. *)

From Stdlib Require Import Floats.SpecFloat.
From S2P Require Import Prelude Message Resilience Rounding.
Import Backoff.
Local Open Scope Z_scope.

Record tokenBucket : Type := mkTokenBucket {
  tb_interval : Z;        (** the time to accrue one token *)
  tb_burst : spec_float;
  tb_tokens : spec_float;
  tb_last : Z
}.

(** The clock is read where it is used, so that injecting one changes nothing here. *)
Inductive TokenBucketOption : Type := WithTokenBucketClock (isNil : bool).
Definition bucket_option (o : TokenBucketOption) : tokenBucket → tokenBucket :=
  match o with WithTokenBucketClock _ => id end.

Section bucket.
Context (impl : spec_float → Z).

Definition NewTokenBucket (rps : spec_float) (burst : Z) (opts : list (option TokenBucketOption)) (now : Z) :
    error + tokenBucket :=
  if SFleb rps (float64 0) || (burst <? 1) then inl (Sentinel ErrInvalidRateLimit)
  else
    match apply_opts ((λ o : option TokenBucketOption, bucket_option <$> o) <$> opts)
            (mkTokenBucket (f64_to_int64 impl (div (float64 second) rps)) (float64 burst) (float64 burst) 0) with
    | inl i => inl (nilOptionAt "resilience.NewTokenBucket" i)
    | inr b => inr (mkTokenBucket (tb_interval b) (tb_burst b) (tb_tokens b) now)
    end.

(** [now.Sub(last)], which saturates. *)
Definition time_Sub (now last : Z) : Z := Z.max MinInt64 (Z.min MaxInt64 (now - last)).

Definition refill (now : Z) (b : tokenBucket) : tokenBucket :=
  let elapsed := time_Sub now (tb_last b) in
  if elapsed <=? 0 then b
  else
    let tokens := add (tb_tokens b) (div (float64 elapsed) (float64 (tb_interval b))) in
    mkTokenBucket (tb_interval b) (tb_burst b) (if SFltb (tb_burst b) tokens then tb_burst b else tokens) now.

(** One round of [Wait] under the mutex: a token taken, or how long to wait. *)
Definition wait_turn (now : Z) (b : tokenBucket) : option Z * tokenBucket :=
  let b := refill now b in
  if SFleb (float64 1) (tb_tokens b) then
    (None, mkTokenBucket (tb_interval b) (tb_burst b) (sub (tb_tokens b) (float64 1)) (tb_last b))
  else
    (Some (f64_to_int64 impl (mul (sub (float64 1) (tb_tokens b)) (float64 (tb_interval b)))), b).

(** One caller: the times of its rounds, and whether its context is done before the
    wait after each is over. *)
Inductive wait_end : Type := Acquired | Cancelled | StillWaiting.
Fixpoint Wait (rounds : list (Z * bool)) (b : tokenBucket) : wait_end * tokenBucket :=
  match rounds with
  | [] => (StillWaiting, b)
  | (now, done) :: rounds =>
      match wait_turn now b with
      | (None, b) => (Acquired, b)
      | (Some _, b) => if done then (Cancelled, b) else Wait rounds b
      end
  end.

(** The rounds of all callers in the order of the mutex, and the tokens they take. *)
Fixpoint turns (ts : list Z) (b : tokenBucket) : Z * tokenBucket :=
  match ts with
  | [] => (0, b)
  | now :: ts =>
      let '(w, b) := wait_turn now b in
      let '(n, b) := turns ts b in
      ((match w with None => 1 | Some _ => 0 end) + n, b)
  end.

(** ** What a bucket keeps *)

Record bucket_ok (b : tokenBucket) : Prop := mkBucketOk {
  tb_fin : fin (tb_tokens b);
  tb_burst_fin : fin (tb_burst b);
  tb_le : val (tb_tokens b) ≤ val (tb_burst b);
  tb_burst_lt : unit_val ≤ val (tb_burst b) ≤ 2 ^ 52 * unit_val;
  tb_pos : 0 < tb_interval b ≤ MaxInt64
}.

Lemma val_one : val (float64 1) = unit_val.
Proof. vm_compute. reflexivity. Qed.
Lemma elapsed_bound now last : 0 < time_Sub now last → time_Sub now last ≤ now - last ∧ time_Sub now last < 2 ^ 64.
Proof. unfold time_Sub, MinInt64, MaxInt64. lia. Qed.

(** What accrues in a time, from above and from below. *)
Lemma accrued el i :
  0 < el < 2 ^ 64 → 0 < i < 2 ^ 64 →
  let r := div (float64 el) (float64 i) in
  fin r ∧ val r * i * 2 ^ 156 ≤ el * unit_val * (2 ^ 52 + 1) ^ 3 ∧
  el * unit_val * (2 ^ 52) ^ 4 ≤ val r * i * (2 ^ 52 + 1) ^ 4.
Proof.
  intros He Hi. destruct (float64_near el He) as [_ [Xu Xl]], (float64_near i Hi) as [_ [Yu Yl]].
  destruct (div_near _ _ (float64_moderate el He) (float64_moderate i Hi)) as (v & Hf & [Ru Rl] & Vu & Vl).
  cbv zeta. split; [done|]. pose proof unit_pos as HU. pose proof (val_nonneg _ Hf) as Hr.
  set (X := val (float64 el)) in *. set (Y := val (float64 i)) in *. set (R := val (div _ _)) in *.
  set (U := unit_val) in *. clearbody X Y R U.
  change (2 ^ 156) with (2 ^ 52 * 2 ^ 52 * 2 ^ 52). set (c := 2 ^ 52) in *.
  assert (Hc : 0 < c) by (by apply pow2_pos). clearbody c.
  assert (0 ≤ v) by nia.
  assert (Hv : v * i * c * c ≤ el * U * (c + 1) ^ 2).
  { apply (Z.mul_le_mono_pos_r _ _ U HU).
    transitivity (v * Y * ((c + 1) * c)).
    - replace (v * i * c * c * U) with (v * (i * U * c) * c) by ring.
      replace (v * Y * ((c + 1) * c)) with (v * (Y * (c + 1)) * c) by ring.
      apply Z.mul_le_mono_nonneg_r; [lia|]. by apply Z.mul_le_mono_nonneg_l.
    - transitivity (X * U * ((c + 1) * c)); [apply Z.mul_le_mono_nonneg_r; nia|].
      replace (X * U * ((c + 1) * c)) with (X * c * ((c + 1) * U)) by ring.
      replace (el * U * (c + 1) ^ 2 * U) with (el * U * (c + 1) * ((c + 1) * U)) by ring.
      apply Z.mul_le_mono_nonneg_r; [nia|done]. }
  assert (Hw : el * U * (c * c * c) ≤ v * i * (c + 1) ^ 3).
  { apply (Z.mul_le_mono_pos_r _ _ U HU).
    transitivity (X * (c + 1) * (U * c * c)).
    - replace (el * U * (c * c * c) * U) with (el * U * c * (U * c * c)) by ring.
      apply Z.mul_le_mono_nonneg_r; [nia|done].
    - replace (X * (c + 1) * (U * c * c)) with (X * U * c * ((c + 1) * c)) by ring.
      transitivity (v * (c + 1) * Y * ((c + 1) * c)); [apply Z.mul_le_mono_nonneg_r; [nia|done]|].
      replace (v * (c + 1) * Y * ((c + 1) * c)) with (Y * c * (v * (c + 1) ^ 2)) by ring.
      replace (v * i * (c + 1) ^ 3 * U) with (i * U * (c + 1) * (v * (c + 1) ^ 2)) by ring.
      apply Z.mul_le_mono_nonneg_r; [nia|done]. }
  split.
  - replace (R * i * (c * c * c)) with (R * c * (i * c * c)) by ring.
    transitivity (v * (c + 1) * (i * c * c)); [apply Z.mul_le_mono_nonneg_r; [nia|done]|].
    replace (v * (c + 1) * (i * c * c)) with (v * i * c * c * (c + 1)) by ring.
    replace (el * U * (c + 1) ^ 3) with (el * U * (c + 1) ^ 2 * (c + 1)) by ring.
    apply Z.mul_le_mono_nonneg_r; lia.
  - replace (el * U * c ^ 4) with (el * U * (c * c * c) * c) by ring.
    transitivity (v * i * (c + 1) ^ 3 * c); [apply Z.mul_le_mono_nonneg_r; lia|].
    replace (v * i * (c + 1) ^ 3 * c) with (v * c * (i * (c + 1) ^ 3)) by ring.
    replace (R * i * (c + 1) ^ 4) with (R * (c + 1) * (i * (c + 1) ^ 3)) by ring.
    apply Z.mul_le_mono_nonneg_r; [nia|done].
Qed.

(** Rounding adds at most five parts in [2^52] of the bucket's size to what accrues. *)
Lemma rounded_up t r s i w B :
  0 ≤ t → 0 < i → 0 ≤ r →
  r * i * 2 ^ 156 ≤ w * (2 ^ 52 + 1) ^ 3 → s * 2 ^ 52 ≤ (t + r) * (2 ^ 52 + 1) → t ≤ B →
  0 ≤ w →
  Z.min s B * i * 2 ^ 52 ≤ t * i * 2 ^ 52 + w * 2 ^ 52 + 5 * B * i.
Proof.
  intros Ht Hi Hr Hq Hs HB Hw.
  destruct (Z_le_gt_dec (B * i) (t * i + w)) as [Hc|Hc].
  { assert (Z.min s B * i ≤ B * i) by (apply Z.mul_le_mono_nonneg_r; lia). nia. }
  assert (Hsi : s * i * 2 ^ 52 ≤ (t * i + r * i) * (2 ^ 52 + 1)).
  { replace (s * i * 2 ^ 52) with (s * 2 ^ 52 * i) by ring.
    replace ((t * i + r * i) * (2 ^ 52 + 1)) with ((t + r) * (2 ^ 52 + 1) * i) by ring.
    apply Z.mul_le_mono_nonneg_r; lia. }
  assert (Hmin : Z.min s B * i ≤ s * i) by (apply Z.mul_le_mono_nonneg_r; lia).
  assert (0 ≤ t * i) by nia.
  set (ri := r * i) in *. set (ti := t * i) in *. set (si := s * i) in *. set (mi := Z.min s B * i) in *.
  replace (5 * B * i) with (5 * (B * i)) by ring. set (bi := B * i) in *. clearbody ri ti si mi bi.
  clear -Hq Hsi Hmin Hc Hw H. lia.
Qed.

Lemma refill_ok now b (b' := refill now b) :
  bucket_ok b →
  bucket_ok b' ∧ tb_interval b' = tb_interval b ∧ tb_burst b' = tb_burst b ∧ tb_last b ≤ tb_last b' ∧
  val (tb_tokens b') * tb_interval b * 2 ^ 52 ≤
    val (tb_tokens b) * tb_interval b * 2 ^ 52 + (tb_last b' - tb_last b) * unit_val * 2 ^ 52 +
    5 * val (tb_burst b) * tb_interval b.
Proof.
  intros [Ht HB Hle Hlt Hi]. pose proof unit_pos as HU. unfold b', refill. clear b'.
  destruct (Z.leb_spec (time_Sub now (tb_last b)) 0) as [_|He]; [split; [done|]; repeat split; try done; nia|].
  destruct (elapsed_bound _ _ He) as [Hel He64]. set (el := time_Sub now (tb_last b)) in *.
  assert (HI : 0 < tb_interval b < 2 ^ 64) by (unfold MaxInt64 in *; lia).
  destruct (accrued el (tb_interval b) ltac:(lia) HI) as (Hf & Hu & _).
  set (r := div (float64 el) (float64 (tb_interval b))) in *.
  pose proof (val_nonneg _ Hf) as Hr. pose proof (val_nonneg _ Ht) as Ht0.
  assert (Hr2 : val r ≤ 2 ^ 66 * unit_val) by nia.
  destruct (add_near _ _ Ht Hf) as [Hs [Hsu _]].
  { apply Z.le_lt_trans with (2 ^ 67 * unit_val); [lia|done]. }
  rewrite ltb_val by done. set (s := add (tb_tokens b) r) in *. cbn [tb_interval tb_burst tb_last tb_tokens].
  assert (Hm : val (if val (tb_burst b) <? val s then tb_burst b else s) = Z.min (val s) (val (tb_burst b)))
    by (destruct (Z.ltb_spec (val (tb_burst b)) (val s)); lia).
  split; [|split; [done|split; [done|split; [lia|]]]].
  - constructor; cbn; try done; [by destruct (_ <? _)|rewrite Hm; lia].
  - rewrite Hm. pose proof (rounded_up (val (tb_tokens b)) (val r) (val s) (tb_interval b) (el * unit_val) (val (tb_burst b))
      Ht0 ltac:(lia) Hr Hu Hsu Hle ltac:(nia)).
    assert (el * unit_val ≤ (now - tb_last b) * unit_val) by (apply Z.mul_le_mono_nonneg_r; lia). lia.
Qed.

Lemma turn_ok now b (w := (wait_turn now b).1) (b' := (wait_turn now b).2) :
  bucket_ok b →
  bucket_ok b' ∧ tb_interval b' = tb_interval b ∧ tb_burst b' = tb_burst b ∧ tb_last b ≤ tb_last b' ∧
  val (tb_tokens b') * tb_interval b * 2 ^ 52 +
    (match w with None => 1 | Some _ => 0 end) * unit_val * tb_interval b * 2 ^ 52 ≤
    val (tb_tokens b) * tb_interval b * 2 ^ 52 + (tb_last b' - tb_last b) * unit_val * 2 ^ 52 +
    6 * val (tb_burst b) * tb_interval b.
Proof.
  intros Hok. destruct (refill_ok now b Hok) as (Hok' & Hi & HB & Hl & Hp). unfold w, b', wait_turn. clear w b'.
  set (b1 := refill now b) in *. pose proof unit_pos as HU.
  destruct Hok' as [Ht HBf Hle Hlt Hpos]. destruct (float64_near 1 ltac:(lia)) as [H1 _].
  rewrite leb_val, val_one by done. pose proof (val_nonneg _ HBf) as HB0. rewrite Hi, HB in *.
  destruct (Z.leb_spec unit_val (val (tb_tokens b1))) as [Hg|Hg]; cbn [fst snd tb_tokens tb_interval tb_burst tb_last].
  - destruct (sub_near (tb_tokens b1) (float64 1) Ht H1) as [Hs [Hsu _]].
    { by rewrite val_one. } { apply Z.le_lt_trans with (2 ^ 65 * unit_val); [lia|done]. }
    rewrite val_one in Hsu. set (s := sub (tb_tokens b1) (float64 1)) in *.
    split; [|split; [done|split; [done|split; [done|]]]].
    + constructor; cbn; rewrite ?Hi, ?HB; try done. lia.
    + assert (Hsi : val s * 2 ^ 52 * tb_interval b ≤ (val (tb_tokens b1) - unit_val) * (2 ^ 52 + 1) * tb_interval b)
        by (apply Z.mul_le_mono_nonneg_r; lia).
      assert (Hb : (val (tb_tokens b1) - unit_val) * tb_interval b ≤ val (tb_burst b) * tb_interval b)
        by (apply Z.mul_le_mono_nonneg_r; lia). lia.
  - split; [by constructor; rewrite ?Hi, ?HB|]. split; [done|split; [done|split; [done|]]]. nia.
Qed.

Lemma turns_ok ts b (n := (turns ts b).1) (b' := (turns ts b).2) :
  bucket_ok b →
  bucket_ok b' ∧ tb_interval b' = tb_interval b ∧ tb_burst b' = tb_burst b ∧ tb_last b ≤ tb_last b' ∧ 0 ≤ n ∧
  val (tb_tokens b') * tb_interval b * 2 ^ 52 + n * unit_val * tb_interval b * 2 ^ 52 ≤
    val (tb_tokens b) * tb_interval b * 2 ^ 52 + (tb_last b' - tb_last b) * unit_val * 2 ^ 52 +
    6 * Z.of_nat (length ts) * val (tb_burst b) * tb_interval b.
Proof.
  unfold n, b'. clear n b'. revert b. induction ts as [|now ts IH]; intros b Hok.
  { cbn. split; [done|]. repeat split; try done; lia. }
  cbn [turns length]. destruct (turn_ok now b Hok) as (Hok1 & Hi & HB & Hl & Hp).
  destruct (wait_turn now b) as [w b1]. cbn [fst snd] in *. destruct (IH b1 Hok1) as (Hok2 & Hi2 & HB2 & Hl2 & Hn & Hp2).
  destruct (turns ts b1) as [n b2]. cbn [fst snd] in *. rewrite Hi, HB in *.
  split; [done|]. split; [done|]. split; [done|]. split; [lia|]. split; [destruct w; lia|].
  rewrite Nat2Z.inj_succ. destruct w; nia.
Qed.

Lemma NewTokenBucket_ok rps burst opts now b :
  NewTokenBucket rps burst opts now = inr b → burst ≤ 2 ^ 51 → 0 < tb_interval b ≤ MaxInt64 →
  bucket_ok b ∧ tb_tokens b = float64 burst ∧ tb_burst b = float64 burst ∧ tb_last b = now ∧ 1 ≤ burst.
Proof.
  unfold NewTokenBucket. destruct (SFleb rps (float64 0) || (burst <? 1)) eqn:E; [done|].
  apply orb_false_iff in E as [_ E%Z.ltb_ge].
  destruct (apply_opts _ _) as [i|b0] eqn:Eo; [done|]. intros [= <-] HM Hi. cbn in Hi |- *.
  assert (b0 = mkTokenBucket (f64_to_int64 impl (div (float64 second) rps)) (float64 burst) (float64 burst) 0) as ->.
  { revert Eo. unfold apply_opts. generalize 0%nat. 
    induction opts as [|[[c]|] opts IH]; intros k; cbn; [by intros [= <-]|apply IH|done]. }
  cbn in *. assert (Hb : 0 < burst < 2 ^ 64) by lia.
  destruct (float64_near burst Hb) as [Hf [Hu Hl]]. pose proof unit_pos.
  split; [|done]. constructor; cbn; try done. split; [|nia].
  destruct (Z.eq_dec burst 1) as [->|]; [by rewrite val_one|]. nia.
Qed.

Lemma turns_last ts b : tb_last (turns ts b).2 = tb_last b ∨ tb_last (turns ts b).2 ∈ ts.
Proof.
  revert b. induction ts as [|now ts IH]; intros b; [by left|]. cbn [turns].
  assert (Hl : tb_last (wait_turn now b).2 = tb_last b ∨ tb_last (wait_turn now b).2 = now).
  { unfold wait_turn, refill. repeat case_match; auto. }
  destruct (wait_turn now b) as [w b1]. specialize (IH b1). destruct (turns ts b1) as [n b2]. cbn [fst snd] in *.
  destruct IH as [->|IH]; [|right; by right]. destruct Hl as [->| ->]; [by left|right; left].
Qed.
(** What [Wait] does to the bucket is what its rounds do, and it takes one token
    exactly when it returns without an error. *)
Lemma Wait_turns rounds b r b' : Wait rounds b = (r, b') →
  ∃ ts, ts `prefix_of` rounds.*1 ∧ turns ts b = (match r with Acquired => 1 | _ => 0 end, b').
Proof.
  revert b. induction rounds as [|[now dn] rounds IH]; intros b; cbn [Wait].
  { intros [= <- <-]. by exists []. }
  destruct (wait_turn now b) as [[w|] b1] eqn:E; [destruct dn|].
  - intros [= <- <-]. exists [now]. split; [cbn; apply prefix_cons, prefix_nil|]. cbn. by rewrite E.
  - intros (ts & Hp & Ht)%IH. exists (now :: ts). split; [by apply prefix_cons|]. cbn. by rewrite E, Ht.
  - intros [= <- <-]. exists [now]. split; [cbn; apply prefix_cons, prefix_nil|]. cbn. by rewrite E.
Qed.

Lemma returns_ok now b : bucket_ok b → 2 * tb_interval b ≤ MaxInt64 → 2 * tb_interval b ≤ now - tb_last b →
  (wait_turn now b).1 = None.
Proof.
  intros Hok HM Hel. destruct (refill_ok now b Hok) as ([Ht1 _ _ _ _] & _).
  destruct Hok as [Ht HB Hle Hlt Hi]. pose proof unit_pos as HU.
  unfold wait_turn, refill in *. assert (Hs : 2 * tb_interval b ≤ time_Sub now (tb_last b)) by (unfold time_Sub, MinInt64 in *; lia).
  destruct (Z.leb_spec (time_Sub now (tb_last b)) 0) as [|He]; [lia|]. cbn [tb_tokens] in *.
  destruct (elapsed_bound _ _ He) as [_ He64]. set (el := time_Sub now (tb_last b)) in *.
  assert (HI : 0 < tb_interval b < 2 ^ 64) by (unfold MaxInt64 in *; lia).
  destruct (accrued el (tb_interval b) ltac:(lia) HI) as (Hf & Hu & Hlo).
  set (r := div (float64 el) (float64 (tb_interval b))) in *.
  pose proof (val_nonneg _ Hf) as Hr. pose proof (val_nonneg _ Ht) as Ht0.
  assert (Hr1 : 3 * unit_val ≤ 2 * val r).
  { assert (2 * unit_val * (2 ^ 52) ^ 4 * tb_interval b ≤ val r * (2 ^ 52 + 1) ^ 4 * tb_interval b).
    { transitivity (el * unit_val * (2 ^ 52) ^ 4); [nia|]. etrans; [exact Hlo|]. lia. }
    assert (2 * unit_val * (2 ^ 52) ^ 4 ≤ val r * (2 ^ 52 + 1) ^ 4) by (eapply Z.mul_le_mono_pos_r; [|done]; lia).
    lia. }
  assert (Hr2 : val r ≤ 2 ^ 66 * unit_val) by nia.
  destruct (add_near _ _ Ht Hf) as [Hsf [_ Hsl]].
  { apply Z.le_lt_trans with (2 ^ 67 * unit_val); [lia|done]. }
  destruct (float64_near 1 ltac:(lia)) as [H1 _].
  rewrite leb_val by done. rewrite ltb_val by done. rewrite val_one.
  destruct (Z.leb_spec unit_val (val (if val (tb_burst b) <? val (add (tb_tokens b) r) then tb_burst b else add (tb_tokens b) r)))
    as [|Hno]; [done|]. exfalso. destruct (Z.ltb_spec (val (tb_burst b)) (val (add (tb_tokens b) r))); lia.
Qed.
End bucket.

(** ** What the limiter promises *)

(** C37. The rate holds however many callers share the bucket and whenever they come:
    the tokens taken are at most the burst and one for every interval that has
    passed on the clock, up to the rounding of the doubles, which grants at most
    seven parts in [2^52] of the burst a round; and the bucket never holds more than
    the burst. *)
Theorem token_rate impl rps burst opts t0 b ts n b' :
  NewTokenBucket impl rps burst opts t0 = inr b → burst ≤ 2 ^ 51 → 0 < tb_interval b ≤ MaxInt64 →
  turns impl ts b = (n, b') →
  n * tb_interval b * 2 ^ 52 ≤
    (burst * tb_interval b + (tb_last b' - t0)) * 2 ^ 52 +
    (7 * Z.of_nat (length ts) + 1) * burst * tb_interval b ∧
  (tb_last b' = t0 ∨ tb_last b' ∈ ts) ∧ val (tb_tokens b') ≤ val (float64 burst).
Proof.
  intros Hnew HM Hi Hts. destruct (NewTokenBucket_ok _ _ _ _ _ _ Hnew HM Hi) as (Hok & Et & EB & El & H1).
  destruct (turns_ok impl ts b Hok) as (Hok' & _ & HB & _ & _ & Hp). pose proof (turns_last impl ts b) as Hl.
  rewrite Hts in *. cbn [fst snd] in *. rewrite El in *. split; [|split; [done|]].
  - destruct (float64_near burst ltac:(lia)) as [_ [Hu _]]. rewrite Et, EB in *.
    pose proof (val_nonneg _ (tb_fin _ Hok')). pose proof unit_pos as HU.
    set (B := val (float64 burst)) in *. set (I := tb_interval b) in *. set (K := Z.of_nat (length ts)) in *.
    assert (HK : 0 ≤ K) by lia. assert (Hb : B * I * 2 ^ 52 ≤ burst * unit_val * I * (2 ^ 52 + 1)) by nia.
    assert (Hk : 6 * K * B * I ≤ 7 * K * burst * unit_val * I).
    { replace (6 * K * B * I) with (6 * B * (K * I)) by ring.
      replace (7 * K * burst * unit_val * I) with (7 * (burst * unit_val) * (K * I)) by ring.
      apply Z.mul_le_mono_nonneg_r; nia. }
    apply (Z.mul_le_mono_pos_r _ _ unit_val HU). nia.
  - rewrite <- EB, <- HB. apply Hok'.
Qed.

(** A token always comes back: whatever was taken before, a round that comes at
    least two intervals after the bucket was last refilled takes one. *)
Theorem token_returns impl rps burst opts t0 b ts now :
  NewTokenBucket impl rps burst opts t0 = inr b → burst ≤ 2 ^ 51 → 0 < tb_interval b → 2 * tb_interval b ≤ MaxInt64 →
  2 * tb_interval b ≤ now - tb_last (turns impl ts b).2 →
  (wait_turn impl now (turns impl ts b).2).1 = None.
Proof.
  intros Hnew HM Hi0 Hi Hnow. destruct (NewTokenBucket_ok _ _ _ _ _ _ Hnew HM ltac:(lia)) as (Hok & _).
  destruct (turns_ok impl ts b Hok) as (Hok' & EI & _). apply returns_ok; rewrite ?EI; done.
Qed.

(** ** The promises at work *)

(** What amd64 makes of a double that fits no int64. *)
Definition amd64 (_ : spec_float) : Z := MinInt64.
Definition ten_per_second : error + tokenBucket :=
  NewTokenBucket amd64 (float64 10) 3 [Some (WithTokenBucketClock false)] 0.
Definition ten_bucket : tokenBucket := mkTokenBucket 100000000 (float64 3) (float64 3) 0.
(** Three at once, one refused, and one more after an interval. *)
Definition ten_times : list Z := [0; 0; 1; 2; 100000003; 100000004].

Lemma token_rate_witness :
  4 * tb_interval ten_bucket * 2 ^ 52 ≤
    (3 * tb_interval ten_bucket + (100000004 - 0)) * 2 ^ 52 + (7 * 6 + 1) * 3 * tb_interval ten_bucket.
Proof.
  refine (proj1 (token_rate amd64 (float64 10) 3 [Some (WithTokenBucketClock false)] 0 ten_bucket ten_times 4
    (turns amd64 ten_times ten_bucket).2 _ _ _ _)); vm_compute; try reflexivity; try (split; congruence); congruence.
Defined.
Lemma token_returns_witness : (wait_turn amd64 300000004 (turns amd64 ten_times ten_bucket).2).1 = None.
Proof.
  apply (token_returns amd64 (float64 10) 3 [Some (WithTokenBucketClock false)] 0); vm_compute; congruence.
Defined.

(** A rate that is not a number passes the check for a positive one, and the interval
    is whatever the platform makes of it.  Where that is negative, the bucket loses
    tokens as time passes, and [Wait] never waits before it looks again. *)
Lemma nan_rate_accepted impl burst now : 1 ≤ burst →
  NewTokenBucket impl S754_nan burst [] now = inr (mkTokenBucket (impl S754_nan) (float64 burst) (float64 burst) now).
Proof.
  intros Hb. unfold NewTokenBucket. replace (burst <? 1) with false by lia. reflexivity.
Qed.
Definition nan_bucket : tokenBucket := mkTokenBucket (amd64 S754_nan) (float64 1) (float64 1) 0.
Lemma nan_rate_spins :
  (turns amd64 [0; second; minute; 60 * minute] nan_bucket).1 = 1 ∧
  (wait_turn amd64 (24 * 60 * minute) (turns amd64 [0; second; minute; 60 * minute] nan_bucket).2).1 = Some MinInt64.
Proof. vm_compute. done. Qed.

(** The interval is cut to whole nanoseconds: at 700 million a second it is one, and
    a hundred tokens accrue in the time of seventy. *)
Definition fast_bucket : tokenBucket := mkTokenBucket 1 (float64 1) (float64 1) 0.
Lemma fast_rate_exceeded :
  NewTokenBucket amd64 (float64 700000000) 1 [] 0 = inr fast_bucket ∧
  (turns amd64 (Z.of_nat <$> seq 1 100) fast_bucket).1 = 100.
Proof. vm_compute. done. Qed.
