(* ===== verification/QueueStore.v ===== *)
(** * The in-memory queue store, and the channel and broker around it

    [adapter/memory/queuestore.go], [adapter/memory/memory.go],
    [channel/queuechannel.go] and the [ChannelStore] contract of [store.go].

    An operation of the store is not one critical section: Enqueue takes a slot
    of the semaphore before it locks, Ack and a dropping Nack give the slot back
    after they unlock.  Each atomic part is a definition of its own; the Go
    methods are their compositions, and [qstep] lets the parts of concurrent
    calls interleave freely. *)

From S2P Require Import Prelude Message.

Local Open Scope Z_scope.

(** ** State *)

Inductive OverflowPolicy : Type :=
  | OverflowBlock | OverflowDropNewest | OverflowDropOldest | OverflowReject
  | OverflowOther (n : Z).

#[export] Instance OverflowPolicy_eq_dec : EqDecision OverflowPolicy.
Proof. solve_decision. Defined.

Record entry : Type := mkEntry {
  e_msg : msg;
  e_visibleAt : Z;
  e_epoch : Z
}.

(** [sem] is a channel of empty structs: its capacity and how many it holds. *)
Record QueueStore : Type := mkQueueStore {
  qs_cap : Z;
  qs_sem : Z;
  qs_overflow : OverflowPolicy;
  qs_ready : list entry;
  qs_inflight : gmap Z entry;
  qs_epoch : Z
}.

Definition set_ready (l : list entry) (s : QueueStore) : QueueStore :=
  mkQueueStore (qs_cap s) (qs_sem s) (qs_overflow s) l (qs_inflight s) (qs_epoch s).
Definition set_sem (n : Z) (s : QueueStore) : QueueStore :=
  mkQueueStore (qs_cap s) n (qs_overflow s) (qs_ready s) (qs_inflight s) (qs_epoch s).
Definition set_inflight (f : gmap Z entry) (s : QueueStore) : QueueStore :=
  mkQueueStore (qs_cap s) (qs_sem s) (qs_overflow s) (qs_ready s) f (qs_epoch s).

(** ** Construction *)

Record config : Type := mkConfig {
  cfg_capacity : Z;
  cfg_capacitySet : bool;
  cfg_overflow : OverflowPolicy
}.

Definition defaultCapacity : Z := 1024.
Definition maxCapacityCeiling : Z := Z.shiftl 1 20.

Definition WithCapacity (n : Z) (c : config) : config := mkConfig n true (cfg_overflow c).
Definition WithOverflow (p : OverflowPolicy) (c : config) : config :=
  mkConfig (cfg_capacity c) (cfg_capacitySet c) p.

Definition NewQueueStore (opts : list (option (config → config))) : error + QueueStore :=
  match apply_opts opts (mkConfig 0 false OverflowBlock) with
  | inl i => inl (nilOptionAt "memory.NewQueueStore" i)
  | inr cfg =>
      if cfg_capacitySet cfg then
        match checkRange (Sentinel ErrInvalidCapacity) "memory.WithCapacity"
                (cfg_capacity cfg) 1 maxCapacityCeiling with
        | Some err => inl err
        | None => inr (mkQueueStore (cfg_capacity cfg) 0 (cfg_overflow cfg) [] ∅ 0)
        end
      else inr (mkQueueStore defaultCapacity 0 (cfg_overflow cfg) [] ∅ 0)
  end.

(** ** The atomic parts *)

(** What [Enqueue]'s select does at once. *)
Inductive acquired : Type := SlotTaken | BufferFull | Cancelled | WouldBlock.

(** [case s.sem <- struct{}{}] against the other arm of the select; when both
    arms of a blocking select are ready, [pick_ctx] is Go's random choice. *)
Definition acquire (ctx_done pick_ctx : bool) (s : QueueStore) : acquired * QueueStore :=
  let free := qs_sem s <? qs_cap s in
  match qs_overflow s with
  | OverflowDropNewest | OverflowDropOldest | OverflowReject =>
      if free then (SlotTaken, set_sem (qs_sem s + 1) s) else (BufferFull, s)
  | _ =>
      if ctx_done && (pick_ctx || negb free) then (Cancelled, s)
      else if free then (SlotTaken, set_sem (qs_sem s + 1) s)
      else (WouldBlock, s)
  end.

Definition append_ready (now : Z) (m : msg) (s : QueueStore) : QueueStore :=
  set_ready (qs_ready s ++ [mkEntry m now 0]) s.

Definition shed (now : Z) (m : msg) (s : QueueStore) : option error * QueueStore :=
  if bool_decide (qs_overflow s = OverflowDropOldest) then
    match qs_ready s with
    | _ :: rest => (None, append_ready now m (set_ready rest s))
    | [] => (Some (Sentinel ErrOverflowDropped), s)
    end
  else if bool_decide (qs_overflow s = OverflowDropNewest) then (None, s)
  else (Some (Sentinel ErrOverflowDropped), s).

(** The claiming loop, in place over the array behind [s.ready]: [i] is the
    index of the range, [kept] the length of the prefix kept so far. *)
Record claim_state : Type := mkClaimState {
  cs_array : list entry;
  cs_kept : nat;
  cs_inflight : gmap Z entry;
  cs_epoch : Z;
  cs_out : list (msg * Z)
}.

Definition claim_iter (max now : Z) (i : nat) (c : claim_state) : claim_state :=
  match cs_array c !! i with
  | None => c
  | Some e =>
      if (Z.of_nat (length (cs_out c)) <? max) && negb (now <? e_visibleAt e) then
        let epoch := wrap64 (cs_epoch c + 1) in
        let e := mkEntry (e_msg e) (e_visibleAt e) epoch in
        mkClaimState (cs_array c) (cs_kept c) (<[epoch := e]> (cs_inflight c)) epoch
          (cs_out c ++ [(e_msg e, epoch)])
      else
        mkClaimState (<[cs_kept c := e]> (cs_array c)) (S (cs_kept c)) (cs_inflight c)
          (cs_epoch c) (cs_out c)
  end.

Fixpoint claim_loop (n i : nat) (max now : Z) (c : claim_state) : claim_state :=
  match n with
  | O => c
  | S n => claim_loop n (S i) max now (claim_iter max now i c)
  end.

(** A delivery is named by its message and the epoch its Ack and Nack closures
    captured. *)
Definition QueueStore_Claim (now : Z) (max : Z) (s : QueueStore)
    : list (msg * Z) * QueueStore :=
  if max <=? 0 then ([], s)
  else
    let c := claim_loop (length (qs_ready s)) 0 max now
               (mkClaimState (qs_ready s) 0 (qs_inflight s) (qs_epoch s) []) in
    (cs_out c,
     mkQueueStore (qs_cap s) (qs_sem s) (qs_overflow s) (take (cs_kept c) (cs_array c))
       (cs_inflight c) (cs_epoch c)).

(** The locked part of the Ack closure: whether a slot is to be released. *)
Definition ack_locked (epoch : Z) (s : QueueStore) : bool * QueueStore :=
  (bool_decide (is_Some (qs_inflight s !! epoch)),
   set_inflight (delete epoch (qs_inflight s)) s).

(** The locked part of the Nack closure: whether a slot is to be released. *)
Definition nack_locked (now : Z) (epoch : Z) (requeue : bool) (delay : Z) (s : QueueStore)
    : bool * QueueStore :=
  match qs_inflight s !! epoch with
  | None => (false, set_inflight (delete epoch (qs_inflight s)) s)
  | Some e =>
      let s := set_inflight (delete epoch (qs_inflight s)) s in
      if negb requeue then (true, s)
      else (false, set_ready (qs_ready s ++ [mkEntry (e_msg e) (now + delay) 0]) s)
  end.

(** [<-s.sem]; [None] is a receive that blocks on the empty channel. *)
Definition release_slot (s : QueueStore) : option QueueStore :=
  if 0 <? qs_sem s then Some (set_sem (qs_sem s - 1) s) else None.

(** ** The methods, when no other call interleaves *)

Inductive enq_result : Type := EnqDone (err : option error) | EnqBlocked.

Definition QueueStore_Enqueue (now : Z) (ctx_done pick_ctx : bool) (ctx_err : error) (m : msg)
    (s : QueueStore) : enq_result * QueueStore :=
  match acquire ctx_done pick_ctx s with
  | (SlotTaken, s) => (EnqDone None, append_ready now m s)
  | (BufferFull, s) => let '(err, s) := shed now m s in (EnqDone err, s)
  | (Cancelled, s) => (EnqDone (Some ctx_err), s)
  | (WouldBlock, s) => (EnqBlocked, s)
  end.

Definition ackClosure (epoch : Z) (s : QueueStore) : option QueueStore :=
  let '(ok, s) := ack_locked epoch s in
  if ok then release_slot s else Some s.

Definition nackClosure (now epoch : Z) (requeue : bool) (delay : Z) (s : QueueStore)
    : option QueueStore :=
  let '(free, s) := nack_locked now epoch requeue delay s in
  if free then release_slot s else Some s.

Definition QueueStore_EmitsLiveValue (s : QueueStore) : bool := true.

(** ** What the claiming loop computes *)

(** A reference definition: take the first [n] visible entries in order,
    numbering them from [epoch]+1, and leave the others behind in order. *)
Fixpoint claim_spec (n : nat) (now epoch : Z) (l : list entry) : list (entry * Z) * list entry :=
  match l with
  | [] => ([], [])
  | e :: rest =>
      if (0 <? n)%nat && (e_visibleAt e <=? now) then
        let '(taken, kept) := claim_spec (n - 1) now (epoch + 1) rest in
        ((e, epoch + 1) :: taken, kept)
      else
        let '(taken, kept) := claim_spec n now epoch rest in
        (taken, e :: kept)
  end.

Definition lease (p : entry * Z) : entry := mkEntry (e_msg p.1) (e_visibleAt p.1) p.2.
Definition add_leases (taken : list (entry * Z)) (f : gmap Z entry) : gmap Z entry :=
  foldl (λ f p, <[p.2 := lease p]> f) f taken.
Definition delivered (taken : list (entry * Z)) : list (msg * Z) :=
  (λ p, (e_msg p.1, p.2)) <$> taken.

(** Keeping an entry moves it over the first claimed one, or onto itself. *)
Lemma keep_in_place (pre junk l : list entry) e :
  ∃ junk', <[length pre := e]> (pre ++ junk ++ e :: l) = (pre ++ [e]) ++ junk' ++ l ∧
    length junk' = length junk.
Proof.
  rewrite insert_app_r_alt, Nat.sub_diag by lia. destruct junk as [|j junk].
  - exists []. by rewrite <- app_assoc.
  - exists (junk ++ [e]). cbn. rewrite <- !app_assoc. split; [done|]. rewrite length_app. cbn. lia.
Qed.

Lemma claim_loop_spec l pre junk max now f epoch out taken kept :
  0 ≤ epoch → epoch + Z.of_nat (length l) ≤ MaxInt64 →
  claim_spec (Z.to_nat max - length out) now epoch l = (taken, kept) →
  ∃ rest,
  claim_loop (length l) (length pre + length junk) max now
    (mkClaimState (pre ++ junk ++ l) (length pre) f epoch out) =
  mkClaimState (pre ++ kept ++ rest) (length pre + length kept) (add_leases taken f)
    (epoch + Z.of_nat (length taken)) (out ++ delivered taken).
Proof.
  revert pre junk f epoch out taken kept.
  induction l as [|e l IH]; intros pre junk f epoch out taken kept He Hmax Hspec; cbn in Hspec.
  { injection Hspec as <- <-. exists junk. cbn. rewrite !app_nil_r, Z.add_0_r, Nat.add_0_r. done. }
  cbn [length claim_loop]. unfold claim_iter. cbn [cs_array cs_kept cs_inflight cs_epoch cs_out].
  rewrite lookup_app_r, lookup_app_r by lia.
  replace (_ - _ - _)%nat with 0%nat by lia. cbn [lookup list_lookup].
  replace ((Z.of_nat (length out) <? max) && negb (now <? e_visibleAt e))
    with ((0 <? Z.to_nat max - length out)%nat && (e_visibleAt e <=? now)).
  2:{ rewrite Z.leb_antisym. f_equal. apply eq_true_iff_eq. rewrite Nat.ltb_lt, Z.ltb_lt. lia. }
  destruct (_ && _) eqn:Ec.
  - destruct (claim_spec _ now (epoch + 1) l) as [tk kp] eqn:Es. injection Hspec as <- <-.
    cbn [length] in Hmax. rewrite wrap64_id by (unfold int64_range, MinInt64, MaxInt64 in *; lia).
    destruct (IH pre (junk ++ [e]) (<[epoch + 1 := lease (e, epoch + 1)]> f) (epoch + 1)
      (out ++ [(e_msg e, epoch + 1)]) tk kp) as [rest Hr]; [lia|lia| |].
    { rewrite length_app. cbn [length]. by rewrite Nat.sub_add_distr. }
    exists rest. rewrite length_app in Hr. cbn [length] in Hr.
    replace (length pre + (length junk + 1))%nat with (S (length pre + length junk)) in Hr by lia.
    rewrite <- (app_assoc junk) in Hr. cbn [app] in Hr. etrans; [exact Hr|].
    cbn [delivered fmap list_fmap]. f_equal; [cbn [length]; lia|]. by rewrite <- app_assoc.
  - destruct (claim_spec _ now epoch l) as [tk kp] eqn:Es. injection Hspec as <- <-.
    destruct (keep_in_place pre junk l e) as (junk' & -> & Hj).
    destruct (IH (pre ++ [e]) junk' f epoch out tk kp) as [rest Hr]; [lia|cbn in Hmax; lia|done|].
    exists rest. rewrite length_app in Hr. cbn [length] in Hr.
    replace (length pre + 1 + length junk')%nat with (S (length pre + length junk)) in Hr by lia.
    replace (length pre + 1)%nat with (S (length pre)) in Hr by lia. rewrite Hr.
    rewrite <- app_assoc. cbn [app length]. f_equal. lia.
Qed.

Lemma Claim_spec now max s taken kept :
  0 ≤ qs_epoch s → qs_epoch s + Z.of_nat (length (qs_ready s)) ≤ MaxInt64 →
  claim_spec (Z.to_nat max) now (qs_epoch s) (qs_ready s) = (taken, kept) →
  QueueStore_Claim now max s =
  (delivered taken,
   mkQueueStore (qs_cap s) (qs_sem s) (qs_overflow s) kept (add_leases taken (qs_inflight s))
     (qs_epoch s + Z.of_nat (length taken))).
Proof.
  intros He Hmax Hs. unfold QueueStore_Claim. destruct (max <=? 0) eqn:E.
  - bool_to_prop. replace (Z.to_nat max) with 0%nat in Hs by lia.
    assert (∀ l ep, claim_spec 0 now ep l = ([], l)) as Hz
      by (induction l as [|e l IH]; intros ep; cbn; [done|by rewrite IH]).
    rewrite Hz in Hs. injection Hs as <- <-. cbn. rewrite Z.add_0_r. by destruct s.
  - destruct (claim_loop_spec (qs_ready s) [] [] max now (qs_inflight s) (qs_epoch s) [] taken kept)
      as [rest Hr]; [done|done|cbn [length]; by rewrite Nat.sub_0_r|].
    cbn [app length Nat.add] in Hr. rewrite Hr. cbn [cs_out cs_array cs_kept cs_inflight cs_epoch].
    by rewrite take_app_length.
Qed.

Lemma claim_spec_epochs n now epoch l taken kept :
  claim_spec n now epoch l = (taken, kept) → taken.*2 = seqZ (epoch + 1) (Z.of_nat (length taken)).
Proof.
  revert n epoch taken kept. induction l as [|e l IH]; intros n epoch taken kept; cbn.
  { by intros [= <- <-]. }
  destruct (_ && _).
  - destruct (claim_spec _ _ _ l) as [tk kp] eqn:E. intros [= <- <-]. cbn [fmap list_fmap length snd].
    rewrite (IH _ _ _ _ E), (seqZ_cons _ (Z.of_nat (S _))) by lia. f_equal. f_equal; lia.
  - destruct (claim_spec _ _ _ l) as [tk kp] eqn:E. intros [= <- <-]. by apply (IH _ _ _ _ E).
Qed.

Lemma claim_spec_fifo n now epoch l taken kept :
  claim_spec n now epoch l = (taken, kept) →
  taken.*1 = take n (filter (λ e, e_visibleAt e ≤ now) l) ∧ taken.*1 ++ kept ≡ₚ l ∧
  kept `sublist_of` l.
Proof.
  revert n epoch taken kept. induction l as [|e l IH]; intros n epoch taken kept; cbn [claim_spec].
  { intros [= <- <-]. by rewrite filter_nil, take_nil. }
  destruct (_ && _) eqn:Ec; destruct (claim_spec _ _ _ l) as [tk kp] eqn:E; intros [= <- <-];
    destruct (IH _ _ _ _ E) as (H1 & H2 & H3).
  - bool_to_prop. rewrite filter_cons_True by done. destruct n as [|n]; [lia|]. cbn.
    replace (S n - 1)%nat with n in H1 by lia. rewrite H1 in *. split; [done|].
    split; [by f_equiv|by constructor].
  - split; [|split; [by rewrite <- Permutation_middle, H2|by constructor]].
    rewrite H1. apply andb_false_iff in Ec as [Hn|Hv]; bool_to_prop.
    + by replace n with 0%nat by lia.
    + by rewrite filter_cons_False by lia.
Qed.

(** ** Interleavings of concurrent calls *)

(** The store, the calls in progress between their atomic parts (messages whose
    slot is taken, messages that met a full buffer, slots still to be given
    back), and a ledger of messages admitted, settled for good, and evicted. *)
Record qworld : Type := mkQWorld {
  qw_store : QueueStore;
  qw_enq : list msg;
  qw_full : list msg;
  qw_rel : nat;
  qw_in : list msg;
  qw_out : list msg;
  qw_evicted : list msg
}.

Definition leased_msg (epoch : Z) (s : QueueStore) : list msg :=
  match qs_inflight s !! epoch with Some e => [e_msg e] | None => [] end.

(** A claim is only taken while the int64 epoch counter has room for it: the
    theorems cover the first 2^63 claims of a store. *)
Inductive qstep : qworld → qworld → Prop :=
  | QTake ctx pick m s s' enq full rel ins outs ev :
      acquire ctx pick s = (SlotTaken, s') →
      qstep (mkQWorld s enq full rel ins outs ev) (mkQWorld s' (m :: enq) full rel (m :: ins) outs ev)
  | QFull ctx pick m s s' enq full rel ins outs ev :
      acquire ctx pick s = (BufferFull, s') →
      qstep (mkQWorld s enq full rel ins outs ev) (mkQWorld s' enq (m :: full) rel ins outs ev)
  | QAppend now i m s enq full rel ins outs ev :
      enq !! i = Some m →
      qstep (mkQWorld s enq full rel ins outs ev)
        (mkQWorld (append_ready now m s) (delete i enq) full rel ins outs ev)
  | QShedIn now i m e rest s s' enq full rel ins outs ev :
      full !! i = Some m → qs_overflow s = OverflowDropOldest → qs_ready s = e :: rest →
      shed now m s = (None, s') →
      qstep (mkQWorld s enq full rel ins outs ev)
        (mkQWorld s' enq (delete i full) rel (m :: ins) outs (e_msg e :: ev))
  | QShedOut now i m s s' err enq full rel ins outs ev :
      full !! i = Some m → (qs_overflow s ≠ OverflowDropOldest ∨ qs_ready s = []) →
      shed now m s = (err, s') →
      qstep (mkQWorld s enq full rel ins outs ev) (mkQWorld s' enq (delete i full) rel ins outs ev)
  | QClaim now max ds s s' enq full rel ins outs ev :
      qs_epoch s + Z.of_nat (length (qs_ready s)) ≤ MaxInt64 →
      QueueStore_Claim now max s = (ds, s') →
      qstep (mkQWorld s enq full rel ins outs ev) (mkQWorld s' enq full rel ins outs ev)
  | QAck epoch free s s' enq full rel ins outs ev :
      ack_locked epoch s = (free, s') →
      qstep (mkQWorld s enq full rel ins outs ev)
        (mkQWorld s' enq full (if free then S rel else rel) ins (leased_msg epoch s ++ outs) ev)
  | QNack now epoch requeue delay free s s' enq full rel ins outs ev :
      nack_locked now epoch requeue delay s = (free, s') →
      qstep (mkQWorld s enq full rel ins outs ev)
        (mkQWorld s' enq full (if free then S rel else rel) ins
           (if requeue then outs else leased_msg epoch s ++ outs) ev)
  | QRelease s s' enq full rel ins outs ev :
      release_slot s = Some s' →
      qstep (mkQWorld s enq full (S rel) ins outs ev) (mkQWorld s' enq full rel ins outs ev).

Definition held (s : QueueStore) : list msg :=
  (e_msg <$> qs_ready s) ++ ((λ p, e_msg p.2) <$> map_to_list (qs_inflight s)).

Record qinv (w : qworld) : Prop := {
  qi_slots : qs_sem (qw_store w) = Z.of_nat (length (qs_ready (qw_store w)) +
    size (qs_inflight (qw_store w)) + length (qw_enq w) + qw_rel w);
  qi_cap : qs_sem (qw_store w) ≤ qs_cap (qw_store w);
  qi_epoch : 0 ≤ qs_epoch (qw_store w);
  qi_leases k : is_Some (qs_inflight (qw_store w) !! k) → 1 ≤ k ≤ qs_epoch (qw_store w);
  qi_ledger : qw_in w ≡ₚ qw_enq w ++ held (qw_store w) ++ qw_out w ++ qw_evicted w;
  qi_evicted : qs_overflow (qw_store w) ≠ OverflowDropOldest → qw_evicted w = []
}.

(** *** Effect of the parts on the slots and on what is held *)

Lemma add_leases_spec taken f epoch :
  taken.*2 = seqZ (epoch + 1) (Z.of_nat (length taken)) →
  (∀ k, is_Some (f !! k) → k ≤ epoch) →
  size (add_leases taken f) = (size f + length taken)%nat ∧
  ((λ p, e_msg p.2) <$> map_to_list (add_leases taken f)) ≡ₚ
    ((λ p : Z * entry, e_msg p.2) <$> map_to_list f) ++ (e_msg <$> taken.*1) ∧
  (∀ k, is_Some (add_leases taken f !! k) → is_Some (f !! k) ∨
     epoch < k ≤ epoch + Z.of_nat (length taken)).
Proof.
  revert f epoch. induction taken as [|[e k] taken IH]; intros f epoch Hs Hf.
  { cbn. rewrite app_nil_r. split; [lia|]. split; [done|]. auto. }
  cbn [length fmap list_fmap snd] in Hs. rewrite seqZ_cons in Hs by lia. injection Hs as -> Hs.
  assert (f !! (epoch + 1) = None) as Hnone.
  { destruct (f !! (epoch + 1)) eqn:E; [|done]. assert (epoch + 1 ≤ epoch); [|lia]. apply Hf. by rewrite E. }
  destruct (IH (<[epoch + 1 := lease (e, epoch + 1)]> f) (epoch + 1)) as (H1 & H2 & H3).
  { rewrite Hs. f_equal; lia. }
  { intros k'. rewrite lookup_insert_is_Some. intros [->|[_ Hk]]; [lia|]. apply Hf in Hk. lia. }
  change (add_leases ((e, epoch + 1) :: taken) f)
    with (add_leases taken (<[epoch + 1 := lease (e, epoch + 1)]> f)). split_and!.
  - rewrite H1, map_size_insert_None by done. cbn [length]. lia.
  - rewrite H2, map_to_list_insert by done. cbn. by rewrite Permutation_middle.
  - intros k' Hk'. apply H3 in Hk' as [Hk'|Hk']; [|right; cbn [length]; lia].
    apply lookup_insert_is_Some in Hk' as [<-|[_ ?]]; [right; cbn [length]; lia|by left].
Qed.

Lemma held_delete epoch s e :
  qs_inflight s !! epoch = Some e →
  held s ≡ₚ e_msg e :: held (set_inflight (delete epoch (qs_inflight s)) s) ∧
  size (qs_inflight s) = S (size (delete epoch (qs_inflight s))).
Proof.
  intros He. unfold held. cbn. split.
  - rewrite <- (map_to_list_delete _ _ _ He). cbn. by rewrite Permutation_middle.
  - rewrite map_size_delete, He. pose proof (map_size_ne_0_lookup_2 (qs_inflight s) epoch). cbn.
    assert (size (qs_inflight s) ≠ 0%nat) by (apply map_size_ne_0_lookup_2 with epoch; by rewrite He). lia.
Qed.

(** *** Preservation *)

Arguments held : simpl never.

Lemma acquire_taken ctx pick s s' :
  acquire ctx pick s = (SlotTaken, s') → qs_sem s < qs_cap s ∧ s' = set_sem (qs_sem s + 1) s.
Proof.
  unfold acquire. destruct (qs_sem s <? qs_cap s) eqn:Ef; bool_to_prop;
    destruct (qs_overflow s), ctx, pick; cbn; naive_solver.
Qed.

Lemma acquire_full ctx pick s s' :
  acquire ctx pick s = (BufferFull, s') → s' = s ∧ qs_cap s ≤ qs_sem s ∧
    (qs_overflow s = OverflowDropNewest ∨ qs_overflow s = OverflowDropOldest ∨ qs_overflow s = OverflowReject).
Proof.
  unfold acquire. destruct (qs_sem s <? qs_cap s) eqn:Ef; bool_to_prop;
    destruct (qs_overflow s), ctx, pick; cbn; naive_solver.
Qed.

Lemma held_append now m s : held (append_ready now m s) ≡ₚ m :: held s.
Proof. unfold held, append_ready. cbn. rewrite fmap_app, <- app_assoc. cbn. by rewrite <- Permutation_middle. Qed.

Lemma shed_out now m s err s' :
  qs_overflow s ≠ OverflowDropOldest ∨ qs_ready s = [] → shed now m s = (err, s') → s' = s.
Proof.
  unfold shed. intros [Ho|Hr].
  - rewrite bool_decide_eq_false_2 by done. case_bool_decide; naive_solver.
  - rewrite Hr. repeat case_bool_decide; naive_solver.
Qed.

Lemma qinv_claim now max ds s s' enq full rel ins outs ev :
  qs_epoch s + Z.of_nat (length (qs_ready s)) ≤ MaxInt64 →
  QueueStore_Claim now max s = (ds, s') →
  qinv (mkQWorld s enq full rel ins outs ev) → qinv (mkQWorld s' enq full rel ins outs ev).
Proof.
  intros Hwrap Hc []. cbn in *.
  destruct (claim_spec (Z.to_nat max) now (qs_epoch s) (qs_ready s)) as [taken kept] eqn:Es.
  rewrite (Claim_spec _ _ _ _ _ qi_epoch0 Hwrap Es) in Hc. injection Hc as <- <-.
  destruct (claim_spec_fifo _ _ _ _ _ _ Es) as (_ & Hperm & _).
  destruct (add_leases_spec taken (qs_inflight s) (qs_epoch s)) as (Hsz & Hl & Hk).
  { by eapply claim_spec_epochs. }
  { intros k Hk. by apply qi_leases0. }
  assert (length (qs_ready s) = length taken + length kept)%nat as Hlen
    by (by rewrite <- Hperm, length_app, length_fmap).
  split; cbn; try done.
  - rewrite Hsz. lia.
  - lia.
  - intros k Hk'. apply Hk in Hk' as [Hk'|Hk']; [apply qi_leases0 in Hk'|]; lia.
  - rewrite qi_ledger0. do 2 f_equiv. unfold held. cbn. rewrite Hl, <- Hperm, fmap_app.
    rewrite (Permutation_app_comm (e_msg <$> taken.*1)), <- app_assoc. f_equiv. apply Permutation_app_comm.
Qed.

(** Both settlements take the lease out of [inflight]. *)
Lemma qinv_unlease epoch s enq full rel ins outs ev :
  qinv (mkQWorld s enq full rel ins outs ev) →
  let s' := set_inflight (delete epoch (qs_inflight s)) s in
  (qs_inflight s !! epoch = None → s' = s) ∧
  ∀ e, qs_inflight s !! epoch = Some e →
    qinv (mkQWorld s' enq full (S rel) ins (e_msg e :: outs) ev) ∧
    ∀ t, qinv (mkQWorld (set_ready (qs_ready s ++ [mkEntry (e_msg e) t 0]) s') enq full rel ins outs ev).
Proof.
  intros [] s'. cbn in *. split.
  { intros Hn. unfold s', set_inflight. rewrite delete_id by done. by destruct s. }
  intros e He. destruct (held_delete epoch s e He) as [Hh Hs].
  assert (∀ k, is_Some (delete epoch (qs_inflight s) !! k) → 1 ≤ k ≤ qs_epoch s) as Hl.
  { intros k. rewrite lookup_delete_is_Some. intros [_ Hk]. by apply qi_leases0. }
  split; [|intros t]; split; cbn; try done.
  - lia.
  - rewrite qi_ledger0, Hh. fold s'. cbn. by rewrite <- !Permutation_middle.
  - rewrite length_app. cbn. lia.
  - rewrite qi_ledger0, Hh. f_equiv. rewrite <- (held_append t (e_msg e) _). done.
Qed.

Lemma qinv_step w w' : qstep w w' → qinv w → qinv w'.
Proof.
  destruct 1 as [ctx pick m s s' enq full rel ins outs ev Ha|ctx pick m s s' enq full rel ins outs ev Ha|
    now i m s enq full rel ins outs ev Hi|now i m e rest s s' enq full rel ins outs ev Hi Ho Hr Hs|
    now i m s s' err enq full rel ins outs ev Hi Ho Hs|now max ds s s' enq full rel ins outs ev Hw Hc|
    epoch free s s' enq full rel ins outs ev Ha|now epoch rq d free s s' enq full rel ins outs ev Hn|
    s s' enq full rel ins outs ev Hr]; intros Hq.
  - apply acquire_taken in Ha as [Hlt ->]. destruct Hq; split; cbn in *; try done; [lia|lia|].
    by rewrite qi_ledger0.
  - apply acquire_full in Ha as (-> & _ & _). by destruct Hq.
  - destruct Hq; split; cbn in *; try done.
    + rewrite length_app. cbn. rewrite (delete_length enq i m Hi) in qi_slots0. lia.
    + rewrite (delete_perm enq i m Hi) in qi_ledger0. rewrite qi_ledger0, (held_append now m s). cbn.
      by rewrite <- Permutation_middle.
  - unfold shed in Hs. rewrite bool_decide_eq_true_2, Hr in Hs by done. injection Hs as <-.
    destruct Hq; split; cbn in *; try done.
    + rewrite length_app. rewrite Hr in qi_slots0. cbn in *. lia.
    + assert (held s ≡ₚ e_msg e :: held (set_ready rest s)) as Hh by (unfold held; by rewrite Hr).
      rewrite qi_ledger0, Hh, (held_append now m (set_ready rest s)). cbn.
      rewrite <- !Permutation_middle. apply Permutation_swap || done.
  - apply shed_out in Hs as ->; [|done]. by destruct Hq.
  - by eapply qinv_claim.
  - unfold ack_locked in Ha. injection Ha as <- <-. destruct (qinv_unlease epoch s enq full rel ins outs ev Hq) as [Hno Hsome].
    unfold leased_msg. destruct (qs_inflight s !! epoch) as [e|] eqn:He.
    + rewrite bool_decide_eq_true_2 by done. by apply Hsome.
    + rewrite bool_decide_eq_false_2 by (by intros []). by rewrite Hno.
  - destruct (qinv_unlease epoch s enq full rel ins outs ev Hq) as [Hno Hsome].
    unfold nack_locked in Hn. unfold leased_msg. destruct (qs_inflight s !! epoch) as [e|] eqn:He.
    + destruct (Hsome e eq_refl) as [Hdrop Hkeep]. destruct rq; injection Hn as <- <-; [apply Hkeep|done].
    + injection Hn as <- <-. rewrite Hno by done. by destruct rq.
  - unfold release_slot in Hr. destruct (_ <? _) eqn:E; [|done]. injection Hr as <-. bool_to_prop.
    destruct Hq; split; cbn in *; try done; lia.
Qed.

Lemma NewQueueStore_inv opts s :
  NewQueueStore opts = inr s → qinv (mkQWorld s [] [] 0 [] [] []) ∧ 1 ≤ qs_cap s ≤ maxCapacityCeiling.
Proof.
  unfold NewQueueStore. destruct (apply_opts _ _) as [|cfg]; [done|].
  assert (∀ c o, 1 ≤ c ≤ maxCapacityCeiling → qinv (mkQWorld (mkQueueStore c 0 o [] ∅ 0) [] [] 0 [] [] [])) as Hq.
  { intros c o Hc. split; cbn; try done; try lia. intros k. rewrite lookup_empty. by intros []. }
  destruct (cfg_capacitySet cfg).
  - destruct (checkRange _ _ _ _ _) eqn:E; [done|]. apply checkRange_ok in E. intros [= <-]. auto.
  - intros [= <-]. assert (1 ≤ defaultCapacity ≤ maxCapacityCeiling) by (vm_compute; split; discriminate).
    auto.
Qed.

Lemma qinv_reach w w' : rtc qstep w w' → qinv w → qinv w'.
Proof. induction 1 as [|w1 w2 w3 Hs _ IH]; [done|]. intros Hw. by eapply IH, qinv_step. Qed.

(** *** Fencing *)

Lemma lookup_add_leases taken f k :
  k ∉ taken.*2 → add_leases taken f !! k = f !! k.
Proof.
  revert f. induction taken as [|[e k'] taken IH]; intros f; [done|]. cbn [fmap list_fmap snd].
  rewrite not_elem_of_cons. intros [Hne Hk].
  change (add_leases ((e, k') :: taken) f) with (add_leases taken (<[k' := lease (e, k')]> f)).
  by rewrite IH, lookup_insert_ne.
Qed.

(** A lease that is gone stays gone: epochs are never issued twice. *)
Lemma settled_step k w w' :
  qstep w w' → qinv w → k ≤ qs_epoch (qw_store w) → qs_inflight (qw_store w) !! k = None →
  k ≤ qs_epoch (qw_store w') ∧ qs_inflight (qw_store w') !! k = None.
Proof.
  destruct 1 as [ctx pick m s s' enq full rel ins outs ev Ha|ctx pick m s s' enq full rel ins outs ev Ha|
    now i m s enq full rel ins outs ev Hi|now i m e rest s s' enq full rel ins outs ev Hi Ho Hr Hs|
    now i m s s' err enq full rel ins outs ev Hi Ho Hs|now max ds s s' enq full rel ins outs ev Hw Hc|
    epoch free s s' enq full rel ins outs ev Ha|now epoch rq d free s s' enq full rel ins outs ev Hn|
    s s' enq full rel ins outs ev Hr]; intros Hq Hk Hnone; cbn in *.
  - apply acquire_taken in Ha as [_ ->]. done.
  - apply acquire_full in Ha as (-> & _ & _). done.
  - done.
  - unfold shed in Hs. rewrite bool_decide_eq_true_2, Hr in Hs by done. by injection Hs as <-.
  - apply shed_out in Hs as ->; done.
  - destruct (claim_spec (Z.to_nat max) now (qs_epoch s) (qs_ready s)) as [taken kept] eqn:Es.
    rewrite (Claim_spec now max s _ _ (qi_epoch _ Hq) Hw Es) in Hc. injection Hc as <- <-. cbn.
    split; [lia|]. rewrite lookup_add_leases; [done|].
    rewrite (claim_spec_epochs _ _ _ _ _ _ Es), elem_of_seqZ. lia.
  - unfold ack_locked in Ha. injection Ha as <- <-. cbn. by rewrite lookup_delete_None; auto.
  - unfold nack_locked in Hn. destruct (qs_inflight s !! epoch); [destruct rq|]; injection Hn as <- <-;
      cbn; rewrite lookup_delete_None; auto.
  - unfold release_slot in Hr. destruct (_ <? _); [|done]. by injection Hr as <-.
Qed.

Lemma settled_reach k w w' :
  rtc qstep w w' → qinv w → k ≤ qs_epoch (qw_store w) → qs_inflight (qw_store w) !! k = None →
  qs_inflight (qw_store w') !! k = None.
Proof.
  induction 1 as [|w1 w2 w3 Hs _ IH]; [done|]. intros Hq Hk Hn.
  destruct (settled_step k w1 w2 Hs Hq Hk Hn) as [Hk' Hn']. apply IH; [by eapply qinv_step|done|done].
Qed.

(** ** Properties *)

(** Under any interleaving of concurrent Enqueue, Claim, Ack and Nack calls
    (up to the 2^63rd claim, where the epoch counter would wrap),
    the semaphore counts exactly the messages queued, leased and being
    enqueued and the slots being given back, never more than the capacity (at
    most 2^20); so giving a slot back never blocks. *)
Theorem queue_slots opts s w :
  NewQueueStore opts = inr s → rtc qstep (mkQWorld s [] [] 0 [] [] []) w →
  qs_sem (qw_store w) = Z.of_nat (length (qs_ready (qw_store w)) + size (qs_inflight (qw_store w)) +
    length (qw_enq w) + qw_rel w) ∧
  qs_sem (qw_store w) ≤ qs_cap (qw_store w) ∧
  (qw_rel w ≠ 0%nat → is_Some (release_slot (qw_store w))).
Proof.
  intros Hs Hr. apply NewQueueStore_inv in Hs as [Hq _]. apply (qinv_reach _ _ Hr) in Hq.
  destruct Hq. split; [done|]. split; [done|]. intros Hrel. unfold release_slot.
  replace (0 <? _) with true; [done|]. symmetry. apply Z.ltb_lt. lia.
Qed.

Definition demo_queue : QueueStore := mkQueueStore 1 0 OverflowDropOldest [] ∅ 0.
Definition demo_queue_opts : list (option (config → config)) :=
  [Some (WithCapacity 1); Some (WithOverflow OverflowDropOldest)].
(** A message is enqueued, leased and acknowledged, its slot not yet back. *)
Definition demo_acked : QueueStore := mkQueueStore 1 1 OverflowDropOldest [] ∅ 1.

Lemma demo_queue_run :
  rtc qstep (mkQWorld demo_queue [] [] 0 [] [] [])
    (mkQWorld demo_acked [] [] 1 [sample "a"] [sample "a"] []).
Proof.
  eapply rtc_l; [by eapply (QTake false false (sample "a"))|].
  eapply rtc_l; [by eapply (QAppend 5 0)|].
  eapply rtc_l; [eapply (QClaim 5 10); [vm_compute; discriminate|vm_compute; reflexivity]|].
  eapply rtc_l; [eapply (QAck 1); vm_compute; reflexivity|].
  apply rtc_refl.
Qed.

Lemma queue_slots_witness :
  qs_sem demo_acked = Z.of_nat (length (qs_ready demo_acked) + size (qs_inflight demo_acked) + 0 + 1) ∧
  qs_sem demo_acked ≤ qs_cap demo_acked ∧ (1%nat ≠ 0%nat → is_Some (release_slot demo_acked)).
Proof.
  apply (queue_slots demo_queue_opts demo_queue
    (mkQWorld demo_acked [] [] 1 [sample "a"] [sample "a"] [])).
  - vm_compute. reflexivity.
  - exact demo_queue_run.
Defined.

(** C36. No message is lost or duplicated under any interleaving (up to the 2^63rd
    claim, where the epoch counter would wrap): the messages
    admitted are exactly those being enqueued, queued, leased, settled for
    good or evicted, and eviction only happens under OverflowDropOldest. *)
Theorem queue_conserves opts s w :
  NewQueueStore opts = inr s → rtc qstep (mkQWorld s [] [] 0 [] [] []) w →
  qw_in w ≡ₚ qw_enq w ++ held (qw_store w) ++ qw_out w ++ qw_evicted w ∧
  (qs_overflow (qw_store w) ≠ OverflowDropOldest → qw_evicted w = []).
Proof.
  intros Hs Hr. apply NewQueueStore_inv in Hs as [Hq _]. apply (qinv_reach _ _ Hr) in Hq. by destruct Hq.
Qed.

Lemma queue_conserves_witness :
  [sample "a"] ≡ₚ [] ++ held demo_acked ++ [sample "a"] ++ [] ∧
  (qs_overflow demo_acked ≠ OverflowDropOldest → ([] : list msg) = []).
Proof.
  apply (queue_conserves demo_queue_opts demo_queue
    (mkQWorld demo_acked [] [] 1 [sample "a"] [sample "a"] [])).
  - vm_compute. reflexivity.
  - exact demo_queue_run.
Defined.

(** The claiming loop, which compacts the queue in place while it ranges over
    it, delivers the first [max] visible messages in the order of the queue,
    leaves the others in their order, and leases each delivery under a fresh
    epoch. *)
Theorem claim_fifo now max s :
  0 ≤ qs_epoch s → qs_epoch s + Z.of_nat (length (qs_ready s)) ≤ MaxInt64 →
  let '(ds, s') := QueueStore_Claim now max s in
  ds.*1 = e_msg <$> take (Z.to_nat max) (filter (λ e, e_visibleAt e ≤ now) (qs_ready s)) ∧
  ds.*2 = seqZ (qs_epoch s + 1) (Z.of_nat (length ds)) ∧
  qs_ready s' `sublist_of` qs_ready s ∧
  (e_msg <$> qs_ready s) ≡ₚ ds.*1 ++ (e_msg <$> qs_ready s').
Proof.
  intros He Hw.
  destruct (claim_spec (Z.to_nat max) now (qs_epoch s) (qs_ready s)) as [taken kept] eqn:Es.
  rewrite (Claim_spec _ _ _ _ _ He Hw Es).
  destruct (claim_spec_fifo _ _ _ _ _ _ Es) as (Hf & Hp & Hsub).
  assert ((delivered taken).*1 = e_msg <$> taken.*1) as Hd
    by (unfold delivered; by rewrite <- !list_fmap_compose).
  split; [by rewrite Hd, Hf|]. split; [|split; [done|by rewrite Hd, <- Hp, fmap_app]].
  unfold delivered. rewrite length_fmap, <- (claim_spec_epochs _ _ _ _ _ _ Es).
  by rewrite <- list_fmap_compose.
Qed.

Definition demo_ready : QueueStore :=
  mkQueueStore 4 3 OverflowBlock
    [mkEntry (sample "a") 1 0; mkEntry (sample "late") 9 0; mkEntry (sample "b") 2 0] ∅ 7.

Lemma claim_fifo_witness :
  let '(ds, s') := QueueStore_Claim 5 2 demo_ready in
  ds.*1 = e_msg <$> take 2 (filter (λ e, e_visibleAt e ≤ 5) (qs_ready demo_ready)) ∧
  ds.*2 = seqZ 8 (Z.of_nat (length ds)) ∧
  qs_ready s' `sublist_of` qs_ready demo_ready ∧
  (e_msg <$> qs_ready demo_ready) ≡ₚ ds.*1 ++ (e_msg <$> qs_ready s').
Proof. apply (claim_fifo 5 2 demo_ready); vm_compute; discriminate. Defined.

(** A delivery is settled at most once: once its lease is gone, its Ack and
    Nack closures change nothing, in any later state and whatever else runs,
    so that a late or repeated settlement cannot free a slot, drop or requeue
    another delivery. *)
Theorem settlement_fenced w w' k now requeue delay :
  qinv w → k ≤ qs_epoch (qw_store w) → qs_inflight (qw_store w) !! k = None → rtc qstep w w' →
  ackClosure k (qw_store w') = Some (qw_store w') ∧
  nackClosure now k requeue delay (qw_store w') = Some (qw_store w').
Proof.
  intros Hq Hk Hn Hr. pose proof (settled_reach k w w' Hr Hq Hk Hn) as Hn'.
  unfold ackClosure, nackClosure, ack_locked, nack_locked. rewrite Hn'. cbn.
  unfold set_inflight. rewrite delete_id by done. by destruct (qw_store w').
Qed.

Lemma settlement_fenced_witness :
  ackClosure 1 demo_acked = Some demo_acked ∧ nackClosure 9 1 true 0 demo_acked = Some demo_acked.
Proof.
  apply (settlement_fenced (mkQWorld demo_acked [] [] 1 [sample "a"] [sample "a"] [])
           (mkQWorld demo_acked [] [] 1 [sample "a"] [sample "a"] []) 1 9 true 0).
  - apply (qinv_reach _ _ demo_queue_run). apply (NewQueueStore_inv demo_queue_opts). vm_compute. reflexivity.
  - vm_compute. discriminate.
  - vm_compute. reflexivity.
  - apply rtc_refl.
Defined.

(** ** The queue channel *)

(** What a channel store offers its channel ([store.go]): the outcome of an
    Enqueue may be to block. *)
Class ChannelStore (S : Type) : Type := {
  Enqueue : Z → bool → bool → error → msg → S → enq_result * S;
  Claim : Z → Z → S → (error + list (msg * Z)) * S;
  EmitsLiveValue : S → bool
}.

#[export] Instance QueueStore_ChannelStore : ChannelStore QueueStore := {
  Enqueue := QueueStore_Enqueue;
  Claim now max s := let '(ds, s') := QueueStore_Claim now max s in (inr ds, s');
  EmitsLiveValue := QueueStore_EmitsLiveValue
}.

(** A channel over a store; [native] is the store's NativeReliability, the pair
    of its answers, when it implements that interface. *)
Record QueueChannel (S : Type) : Type := mkQueueChannel {
  qc_store : S;
  qc_native : option (bool * bool)
}.
Arguments mkQueueChannel {S} _ _.
Arguments qc_store {S} _.
Arguments qc_native {S} _.

Definition NewQueueChannel {S} (store : option (S * option (bool * bool))) : error + QueueChannel S :=
  match store with
  | None => inl (Sentinel ErrNilStore)
  | Some (s, native) => inr (mkQueueChannel s native)
  end.

Definition QueueChannel_Send {S} `{ChannelStore S} (now : Z) (ctx_done pick : bool) (ctx_err : error)
    (m : msg) (q : QueueChannel S) : enq_result * QueueChannel S :=
  let '(r, s) := Enqueue now ctx_done pick ctx_err m (qc_store q) in (r, mkQueueChannel s (qc_native q)).
Definition QueueChannel_Poll {S} `{ChannelStore S} (now max : Z) (q : QueueChannel S)
    : (error + list (msg * Z)) * QueueChannel S :=
  let '(r, s) := Claim now max (qc_store q) in (r, mkQueueChannel s (qc_native q)).
Definition NativeRedelivery {S} (q : QueueChannel S) : bool :=
  match qc_native q with Some nr => nr.1 | None => false end.
Definition NativeDeadLetter {S} (q : QueueChannel S) : bool :=
  match qc_native q with Some nr => nr.2 | None => false end.

(** Messages sent one after the other. *)
Fixpoint send_all (now : Z) (ms : list msg) (q : QueueChannel QueueStore) : QueueChannel QueueStore :=
  match ms with
  | [] => q
  | m :: rest => send_all now rest (QueueChannel_Send now false false (Sentinel ErrOverflowDropped) m q).2
  end.

Lemma Enqueue_room now ctx_err m s :
  qs_sem s < qs_cap s →
  QueueStore_Enqueue now false false ctx_err m s = (EnqDone None, append_ready now m (set_sem (qs_sem s + 1) s)).
Proof.
  intros Hr%Z.ltb_lt. unfold QueueStore_Enqueue, acquire. rewrite Hr. by destruct (qs_overflow s).
Qed.

Lemma send_all_spec now ms q :
  qs_sem (qc_store q) + Z.of_nat (length ms) ≤ qs_cap (qc_store q) →
  let s' := qc_store (send_all now ms q) in
  qs_ready s' = qs_ready (qc_store q) ++ ((λ m, mkEntry m now 0) <$> ms) ∧
  qs_epoch s' = qs_epoch (qc_store q).
Proof.
  revert q. induction ms as [|m ms IH]; intros q Hroom; cbn [send_all]; [by rewrite app_nil_r|].
  cbn [length] in Hroom. unfold QueueChannel_Send at 1 2. cbn [Enqueue QueueStore_ChannelStore].
  rewrite Enqueue_room by lia. cbn [snd].
  destruct (IH (mkQueueChannel (append_ready now m (set_sem (qs_sem (qc_store q) + 1) (qc_store q))) (qc_native q)))
    as [H1 H2]; [cbn; lia|].
  rewrite H1, H2. cbn. by rewrite <- app_assoc.
Qed.

(** A queue channel over the memory store is a FIFO queue end to end: with
    room for them, messages sent one after the other to an empty channel and
    then polled come out in the order they were sent, up to the number asked
    for. *)
Theorem channel_fifo now now' max ms q :
  qs_ready (qc_store q) = [] → qs_sem (qc_store q) + Z.of_nat (length ms) ≤ qs_cap (qc_store q) →
  0 ≤ qs_epoch (qc_store q) → qs_epoch (qc_store q) + Z.of_nat (length ms) ≤ MaxInt64 → now ≤ now' →
  ∃ ds q', QueueChannel_Poll now' max (send_all now ms q) = (inr ds, q') ∧ ds.*1 = take (Z.to_nat max) ms.
Proof.
  intros Hempty Hroom He Hw Hnow. destruct (send_all_spec now ms q Hroom) as [Hr Hep].
  rewrite Hempty in Hr. cbn in Hr. set (s := qc_store (send_all now ms q)) in *.
  unfold QueueChannel_Poll. fold s. cbn [Claim QueueStore_ChannelStore].
  destruct (claim_spec (Z.to_nat max) now' (qs_epoch s) (qs_ready s)) as [taken kept] eqn:Es.
  rewrite (Claim_spec now' max s taken kept); [|lia|rewrite Hr, length_fmap; lia|done].
  eexists _, _. split; [done|]. destruct (claim_spec_fifo _ _ _ _ _ _ Es) as (Hf & _ & _).
  unfold delivered. rewrite <- list_fmap_compose. change ((fst ∘ (λ p, (e_msg p.1, p.2))) <$> taken)
    with ((e_msg ∘ fst) <$> taken). rewrite list_fmap_compose, Hf, Hr.
  rewrite filter_all by (apply Forall_fmap, Forall_true; done).
  by rewrite <- fmap_take, <- list_fmap_compose, list_fmap_id.
Qed.

Definition demo_channel : QueueChannel QueueStore :=
  mkQueueChannel (mkQueueStore 4 0 OverflowBlock [] ∅ 0) None.

Lemma channel_fifo_witness :
  ∃ ds q', QueueChannel_Poll 3 2 (send_all 1 [sample "a"; sample "b"; sample "c"] demo_channel) = (inr ds, q') ∧
    ds.*1 = take 2 [sample "a"; sample "b"; sample "c"].
Proof.
  apply (channel_fifo 1 3 2 [sample "a"; sample "b"; sample "c"] demo_channel);
    vm_compute; (reflexivity || discriminate).
Defined.

(** ** The broker *)

(** [Broker]: the buffer size of its channel and the latched fault. *)
Record Broker : Type := mkBroker {
  br_cap : Z;
  br_err : option error
}.

Definition maxBufferCeiling : Z := Z.shiftl 1 20.

(** First fault wins. *)
Definition latch (err : error) (b : Broker) : Broker :=
  match br_err b with None => mkBroker (br_cap b) (Some err) | Some _ => b end.

Definition WithBuffer (n : Z) (b : Broker) : Broker :=
  match checkRange (permanentError (Sentinel ErrInvalidCapacity)) "memory.WithBuffer" n 0 maxBufferCeiling with
  | Some err => latch err b
  | None => mkBroker n (br_err b)
  end.

(** The options of [New] are nil or a [WithBuffer]: no other option can set the
    unexported fields. *)
Definition nil_fault (i : nat) : error :=
  Errorf [permanentError (Sentinel ErrNilFunc)] [FStr "memory.New"; FInt (Z.of_nat i)].

Fixpoint New_from (i : nat) (opts : list (option Z)) (b : Broker) : Broker :=
  match opts with
  | [] => b
  | None :: rest => New_from (S i) rest (latch (nil_fault i) b)
  | Some n :: rest => New_from (S i) rest (WithBuffer n b)
  end.
Definition Broker_New (opts : list (option Z)) : Broker := New_from 0 opts (mkBroker 0 None).

(** The arm of a select that was chosen. *)
Inductive arm : Type := ArmChannel | ArmDone.

(** [Send]: the error, or the message handed to the channel. *)
Definition Broker_Send (chosen : arm) (ctx_err : error) (b : Broker) (m : msg) (ch : list msg)
    : option error * list msg :=
  match br_err b with
  | Some err => (Some err, ch)
  | None =>
      match chosen with
      | ArmChannel => (None, ch ++ [m])
      | ArmDone => (Some ctx_err, ch)
      end
  end.

Definition nackFunc (chosen : arm) (ctx_err : error) (b : Broker) (m : msg) (requeue : bool)
    (ch : list msg) : option error * list msg :=
  if negb requeue then (None, ch) else Broker_Send chosen ctx_err b m ch.

(** The fault an option causes, if any, and the buffer it sets. *)
Definition fault_at (i : nat) (o : option Z) : option error :=
  match o with
  | None => Some (nil_fault i)
  | Some n => checkRange (permanentError (Sentinel ErrInvalidCapacity)) "memory.WithBuffer" n 0 maxBufferCeiling
  end.
Definition in_range (n : Z) : bool := (0 <=? n) && (n <=? maxBufferCeiling).

Lemma New_from_spec i opts b :
  br_err (New_from i opts b) =
    match br_err b with
    | Some e => Some e
    | None => head (omap id (imap (λ j o, fault_at (i + j) o) opts))
    end ∧
  br_cap (New_from i opts b) = default (br_cap b) (last (filter in_range (omap id opts))).
Proof.
  revert i b. induction opts as [|o opts IH]; intros i b; [split; [cbn; by destruct (br_err b)|done]|].
  cbn [imap omap list_omap]. rewrite Nat.add_0_r.
  assert (imap (λ j o, fault_at (i + S j) o) opts = imap (λ j o, fault_at (S i + j) o) opts) as Hs
    by (apply imap_ext; intros; by rewrite Nat.add_succ_comm).
  unfold compose. rewrite Hs. destruct o as [n|]; cbn [New_from fault_at id].
  - destruct (IH (S i) (WithBuffer n b)) as [-> ->]. unfold WithBuffer, checkRange.
    fold (in_range n). rewrite filter_cons. destruct (in_range n) eqn:Er.
    + rewrite decide_True by done. rewrite last_cons. split; [done|]. by destruct (last _).
    + rewrite decide_False by (by intros []). destruct b as [c [e|]]; by split.
  - destruct (IH (S i) (latch (nil_fault i) b)) as [-> ->]. destruct b as [c [e|]]; by split.
Qed.

(** The broker's construction latch is first-fault-wins and last-buffer-wins:
    after any options, the fault it reports is that of the first nil or
    out-of-range option, a later valid option does not clear it, and its
    buffer is the last one in range (0 without any), so that no channel out of
    range is ever made; a faulty broker refuses every Send with that fault,
    which is permanent, and hands nothing over. *)
Theorem broker_latches opts chosen ctx_err m ch :
  let b := Broker_New opts in
  br_err b = head (omap id (imap fault_at opts)) ∧
  br_cap b = default 0 (last (filter in_range (omap id opts))) ∧
  0 ≤ br_cap b ≤ maxBufferCeiling ∧
  (∀ e, br_err b = Some e →
     IsPermanent (Some e) = true ∧ Broker_Send chosen ctx_err b m ch = (Some e, ch)).
Proof.
  intros b. destruct (New_from_spec 0 opts (mkBroker 0 None)) as [He Hc]. cbn in He, Hc.
  fold (Broker_New opts) in *. fold b in He, Hc. split; [done|]. split; [done|]. split.
  - rewrite Hc. destruct (last _) as [n|] eqn:El; cbn; [|vm_compute; split; discriminate].
    apply last_Some_elem_of in El. apply list_elem_of_filter in El as [Hn _].
    unfold in_range in Hn. apply Is_true_true in Hn. bool_to_prop. lia.
  - intros e Hb. split; [|unfold Broker_Send; by rewrite Hb]. rewrite He in Hb.
    apply head_Some_elem_of in Hb. apply list_elem_of_omap in Hb as (o & Hin & Ho).
    apply list_elem_of_lookup in Hin as (j & Hj). rewrite list_lookup_imap in Hj.
    destruct (opts !! j) as [x|]; [|done]. injection Hj as <-. unfold id, fault_at in Ho.
    destruct x; [|by injection Ho as <-]. unfold checkRange in Ho. destruct (_ && _); [done|].
    by injection Ho as <-.
Qed.
