(* ===== verification/Consumer.v ===== *)
(** * The consumer: dispatch, settlement and admission

    [endpoint/consumer.go], [endpoint/attempts.go], [endpoint/credit.go],
    [endpoint/flowcontrol.go] and the retry policy of [retry.go].

    A call into user code (handler, codec, sinks, hooks, governors, the
    delivery's Ack and Nack) runs over an external state [E] and may panic.
    The state [cstate] holds what the consumer shares between its calls: the
    attempt tracker, the credit gate, the once-flag of the delivery's credit,
    the log suppression, and a trace of everything observable that happened. *)

From S2P Require Import Prelude Message QueueStore.

Local Open Scope Z_scope.

(** ** Observable events *)

Inductive sinkname : Type := InvalidSink | DeadLetterSink.
Inductive hookname : Type := OnRetry | OnDeadLetter | OnInvalidMessage | OnAck.

Inductive cevent : Type :=
  | EvHandled (r : option error)
  | EvAck (r : outcome (option error))
  | EvNack (requeue : bool) (delay : Z) (r : outcome (option error))
  | EvSend (sink : sinkname) (m : msg) (r : outcome (option error))
  | EvHook (h : hookname) (err : option error)
  | EvRecord (success : bool)
  | EvLog (what : string)
  | EvLogCause (what : string) (cause : error + sentinel).

#[export] Instance sinkname_eq_dec : EqDecision sinkname.
Proof. solve_decision. Defined.

(** ** The attempt tracker *)

Record attemptEntry : Type := mkAttempt {
  at_count : Z;
  at_lastSeen : Z
}.

Abbreviation attemptTracker := (gmap string attemptEntry).

Definition observe (now : Z) (id : string) (t : attemptTracker) : Z * attemptTracker :=
  let e := default (mkAttempt 0 0) (t !! id) in
  let e := mkAttempt (wrap64 (at_count e + 1)) now in
  (at_count e, <[id := e]> t).

Definition evict (id : string) (t : attemptTracker) : attemptTracker := delete id t.

Definition sweep (now ttl : Z) (t : attemptTracker) : attemptTracker :=
  filter (λ p, ¬ (ttl ≤ now - at_lastSeen p.2)) t.

(** ** State *)

Record cstate (E : Type) : Type := mkCState {
  cs_ext : E;
  cs_trace : list cevent;
  cs_tracker : attemptTracker;
  cs_tokens : Z;
  cs_released : bool;
  cs_panicLogged : gset string;
  cs_fallbackLogged : bool
}.
Arguments mkCState {E} _ _ _ _ _ _ _.
Arguments cs_ext {E} _.
Arguments cs_trace {E} _.
Arguments cs_tracker {E} _.
Arguments cs_tokens {E} _.
Arguments cs_released {E} _.
Arguments cs_panicLogged {E} _.
Arguments cs_fallbackLogged {E} _.

Section consumer.
Context {E T : Type} `{GoType T}.
Abbreviation S := (cstate E).

Definition emit (ev : cevent) : M S unit := modify (λ s,
  mkCState (cs_ext s) (cs_trace s ++ [ev]) (cs_tracker s) (cs_tokens s) (cs_released s)
    (cs_panicLogged s) (cs_fallbackLogged s)).
Definition set_tracker (t : attemptTracker) (s : S) : S :=
  mkCState (cs_ext s) (cs_trace s) t (cs_tokens s) (cs_released s) (cs_panicLogged s)
    (cs_fallbackLogged s).
Definition set_ext (e : E) (s : S) : S :=
  mkCState e (cs_trace s) (cs_tracker s) (cs_tokens s) (cs_released s) (cs_panicLogged s)
    (cs_fallbackLogged s).

(** Run user code. *)
Definition user {A} (m : M E A) : M S A := zoom cs_ext set_ext m.

(** Run user code and record what came of it, a panic included. *)
Definition traced {A} (ev : outcome A → cevent) (m : M E A) : M S A := λ s,
  let '(o, s') := user m s in (o, (emit (ev o) s').2).

(** ** Configuration *)

(** A policy; [rp_Backoff] is the delay before the retry of an attempt. *)
Record RetryPolicy : Type := mkRetryPolicy {
  rp_MaxAttempts : Z;
  rp_Backoff : option (Z → M E Z);
  rp_DeadLetter : option (msg → M E (option error))
}.

Definition Validate (p : RetryPolicy) : option error :=
  if rp_MaxAttempts p <? 0 then Some (Sentinel ErrInvalidMaxAttempts)
  else if (0 <? rp_MaxAttempts p) && bool_decide (rp_DeadLetter p = None)
  then Some (Sentinel ErrNoDeadLetter)
  else None.

Record CircuitBreaker : Type := mkCircuitBreaker {
  cb_Allow : M E bool;
  cb_Record : bool → M E unit;
  cb_HalfOpen : M E nat;
  cb_TryProbe : option (M E bool)
}.

Record Hooks : Type := mkHooks {
  h_OnRetry : option (msg → option error → M E unit);
  h_OnDeadLetter : option (msg → option error → M E unit);
  h_OnInvalidMessage : option (msg → option error → M E unit);
  h_OnAck : option (msg → option error → M E unit)
}.
Definition hook_of (h : Hooks) (n : hookname) : option (msg → option error → M E unit) :=
  match n with
  | OnRetry => h_OnRetry h
  | OnDeadLetter => h_OnDeadLetter h
  | OnInvalidMessage => h_OnInvalidMessage h
  | OnAck => h_OnAck h
  end.

Record consumerConfig : Type := mkConsumerConfig {
  cc_concurrency : Z;
  cc_codec : option (PayloadCodec T);
  cc_codecSet : bool;
  cc_policy : RetryPolicy;
  cc_invalidSink : option (msg → M E (option error));
  cc_hooks : Hooks;
  cc_shutdownTimeout : Z;
  cc_clock : E → Z;
  cc_maxInFlight : Z;
  cc_maxInFlightSet : bool;
  cc_rateLimiter : option (M E (option error));
  cc_handlerTimeout : Z;
  cc_breaker : option CircuitBreaker;
  cc_overflow : OverflowPolicy;
  cc_attemptTTL : Z;
  cc_attemptTTLSet : bool;
  cc_maxPayloadBytes : Z;
  cc_pollInterval : Z;
  cc_pollIntervalSet : bool;
  cc_pollMaxBatch : Z;
  cc_pollMaxBatchSet : bool
}.

(** The options; one that is given nil for a clock, a limiter or a breaker keeps what
    is set.  Loggers have no effect. *)
Definition WithConcurrency (n : Z) (c : consumerConfig) : consumerConfig :=
  mkConsumerConfig n (cc_codec c) (cc_codecSet c) (cc_policy c) (cc_invalidSink c) (cc_hooks c)
    (cc_shutdownTimeout c) (cc_clock c) (cc_maxInFlight c) (cc_maxInFlightSet c) (cc_rateLimiter c)
    (cc_handlerTimeout c) (cc_breaker c) (cc_overflow c) (cc_attemptTTL c) (cc_attemptTTLSet c)
    (cc_maxPayloadBytes c) (cc_pollInterval c) (cc_pollIntervalSet c) (cc_pollMaxBatch c)
    (cc_pollMaxBatchSet c).
Definition WithConsumerCodec (codec : option (PayloadCodec T)) (c : consumerConfig) : consumerConfig :=
  mkConsumerConfig (cc_concurrency c) codec true (cc_policy c) (cc_invalidSink c) (cc_hooks c)
    (cc_shutdownTimeout c) (cc_clock c) (cc_maxInFlight c) (cc_maxInFlightSet c) (cc_rateLimiter c)
    (cc_handlerTimeout c) (cc_breaker c) (cc_overflow c) (cc_attemptTTL c) (cc_attemptTTLSet c)
    (cc_maxPayloadBytes c) (cc_pollInterval c) (cc_pollIntervalSet c) (cc_pollMaxBatch c)
    (cc_pollMaxBatchSet c).
Definition WithRetryPolicy (p : RetryPolicy) (c : consumerConfig) : consumerConfig :=
  mkConsumerConfig (cc_concurrency c) (cc_codec c) (cc_codecSet c) p (cc_invalidSink c) (cc_hooks c)
    (cc_shutdownTimeout c) (cc_clock c) (cc_maxInFlight c) (cc_maxInFlightSet c) (cc_rateLimiter c)
    (cc_handlerTimeout c) (cc_breaker c) (cc_overflow c) (cc_attemptTTL c) (cc_attemptTTLSet c)
    (cc_maxPayloadBytes c) (cc_pollInterval c) (cc_pollIntervalSet c) (cc_pollMaxBatch c)
    (cc_pollMaxBatchSet c).
Definition WithInvalidMessageSink (out : option (msg → M E (option error))) (c : consumerConfig) : consumerConfig :=
  mkConsumerConfig (cc_concurrency c) (cc_codec c) (cc_codecSet c) (cc_policy c) out (cc_hooks c)
    (cc_shutdownTimeout c) (cc_clock c) (cc_maxInFlight c) (cc_maxInFlightSet c) (cc_rateLimiter c)
    (cc_handlerTimeout c) (cc_breaker c) (cc_overflow c) (cc_attemptTTL c) (cc_attemptTTLSet c)
    (cc_maxPayloadBytes c) (cc_pollInterval c) (cc_pollIntervalSet c) (cc_pollMaxBatch c)
    (cc_pollMaxBatchSet c).
Definition WithHooks (h : Hooks) (c : consumerConfig) : consumerConfig :=
  mkConsumerConfig (cc_concurrency c) (cc_codec c) (cc_codecSet c) (cc_policy c) (cc_invalidSink c) h
    (cc_shutdownTimeout c) (cc_clock c) (cc_maxInFlight c) (cc_maxInFlightSet c) (cc_rateLimiter c)
    (cc_handlerTimeout c) (cc_breaker c) (cc_overflow c) (cc_attemptTTL c) (cc_attemptTTLSet c)
    (cc_maxPayloadBytes c) (cc_pollInterval c) (cc_pollIntervalSet c) (cc_pollMaxBatch c)
    (cc_pollMaxBatchSet c).
Definition WithShutdownTimeout (d : Z) (c : consumerConfig) : consumerConfig :=
  mkConsumerConfig (cc_concurrency c) (cc_codec c) (cc_codecSet c) (cc_policy c) (cc_invalidSink c)
    (cc_hooks c) d (cc_clock c) (cc_maxInFlight c) (cc_maxInFlightSet c) (cc_rateLimiter c)
    (cc_handlerTimeout c) (cc_breaker c) (cc_overflow c) (cc_attemptTTL c) (cc_attemptTTLSet c)
    (cc_maxPayloadBytes c) (cc_pollInterval c) (cc_pollIntervalSet c) (cc_pollMaxBatch c)
    (cc_pollMaxBatchSet c).
Definition WithConsumerClock (clk : option (E → Z)) (c : consumerConfig) : consumerConfig :=
  mkConsumerConfig (cc_concurrency c) (cc_codec c) (cc_codecSet c) (cc_policy c) (cc_invalidSink c)
    (cc_hooks c) (cc_shutdownTimeout c) (match clk with None => cc_clock c | Some x => x end)
    (cc_maxInFlight c) (cc_maxInFlightSet c) (cc_rateLimiter c) (cc_handlerTimeout c) (cc_breaker c)
    (cc_overflow c) (cc_attemptTTL c) (cc_attemptTTLSet c) (cc_maxPayloadBytes c) (cc_pollInterval c)
    (cc_pollIntervalSet c) (cc_pollMaxBatch c) (cc_pollMaxBatchSet c).
Definition WithMaxInFlight (n : Z) (c : consumerConfig) : consumerConfig :=
  mkConsumerConfig (cc_concurrency c) (cc_codec c) (cc_codecSet c) (cc_policy c) (cc_invalidSink c)
    (cc_hooks c) (cc_shutdownTimeout c) (cc_clock c) n true (cc_rateLimiter c) (cc_handlerTimeout c)
    (cc_breaker c) (cc_overflow c) (cc_attemptTTL c) (cc_attemptTTLSet c) (cc_maxPayloadBytes c)
    (cc_pollInterval c) (cc_pollIntervalSet c) (cc_pollMaxBatch c) (cc_pollMaxBatchSet c).
Definition WithRateLimit (r : option (M E (option error))) (c : consumerConfig) : consumerConfig :=
  mkConsumerConfig (cc_concurrency c) (cc_codec c) (cc_codecSet c) (cc_policy c) (cc_invalidSink c)
    (cc_hooks c) (cc_shutdownTimeout c) (cc_clock c) (cc_maxInFlight c) (cc_maxInFlightSet c)
    (match r with None => cc_rateLimiter c | Some x => Some x end) (cc_handlerTimeout c) (cc_breaker c)
    (cc_overflow c) (cc_attemptTTL c) (cc_attemptTTLSet c) (cc_maxPayloadBytes c) (cc_pollInterval c)
    (cc_pollIntervalSet c) (cc_pollMaxBatch c) (cc_pollMaxBatchSet c).
Definition WithHandlerTimeout (d : Z) (c : consumerConfig) : consumerConfig :=
  mkConsumerConfig (cc_concurrency c) (cc_codec c) (cc_codecSet c) (cc_policy c) (cc_invalidSink c)
    (cc_hooks c) (cc_shutdownTimeout c) (cc_clock c) (cc_maxInFlight c) (cc_maxInFlightSet c)
    (cc_rateLimiter c) d (cc_breaker c) (cc_overflow c) (cc_attemptTTL c) (cc_attemptTTLSet c)
    (cc_maxPayloadBytes c) (cc_pollInterval c) (cc_pollIntervalSet c) (cc_pollMaxBatch c)
    (cc_pollMaxBatchSet c).
Definition WithCircuitBreaker (b : option CircuitBreaker) (c : consumerConfig) : consumerConfig :=
  mkConsumerConfig (cc_concurrency c) (cc_codec c) (cc_codecSet c) (cc_policy c) (cc_invalidSink c)
    (cc_hooks c) (cc_shutdownTimeout c) (cc_clock c) (cc_maxInFlight c) (cc_maxInFlightSet c)
    (cc_rateLimiter c) (cc_handlerTimeout c) (match b with None => cc_breaker c | Some x => Some x end)
    (cc_overflow c) (cc_attemptTTL c) (cc_attemptTTLSet c) (cc_maxPayloadBytes c) (cc_pollInterval c)
    (cc_pollIntervalSet c) (cc_pollMaxBatch c) (cc_pollMaxBatchSet c).
Definition WithConsumerOverflow (p : OverflowPolicy) (c : consumerConfig) : consumerConfig :=
  mkConsumerConfig (cc_concurrency c) (cc_codec c) (cc_codecSet c) (cc_policy c) (cc_invalidSink c)
    (cc_hooks c) (cc_shutdownTimeout c) (cc_clock c) (cc_maxInFlight c) (cc_maxInFlightSet c)
    (cc_rateLimiter c) (cc_handlerTimeout c) (cc_breaker c) p (cc_attemptTTL c) (cc_attemptTTLSet c)
    (cc_maxPayloadBytes c) (cc_pollInterval c) (cc_pollIntervalSet c) (cc_pollMaxBatch c)
    (cc_pollMaxBatchSet c).
Definition WithAttemptTTL (d : Z) (c : consumerConfig) : consumerConfig :=
  mkConsumerConfig (cc_concurrency c) (cc_codec c) (cc_codecSet c) (cc_policy c) (cc_invalidSink c)
    (cc_hooks c) (cc_shutdownTimeout c) (cc_clock c) (cc_maxInFlight c) (cc_maxInFlightSet c)
    (cc_rateLimiter c) (cc_handlerTimeout c) (cc_breaker c) (cc_overflow c) d true (cc_maxPayloadBytes c)
    (cc_pollInterval c) (cc_pollIntervalSet c) (cc_pollMaxBatch c) (cc_pollMaxBatchSet c).
Definition WithMaxPayloadBytes (n : Z) (c : consumerConfig) : consumerConfig :=
  mkConsumerConfig (cc_concurrency c) (cc_codec c) (cc_codecSet c) (cc_policy c) (cc_invalidSink c)
    (cc_hooks c) (cc_shutdownTimeout c) (cc_clock c) (cc_maxInFlight c) (cc_maxInFlightSet c)
    (cc_rateLimiter c) (cc_handlerTimeout c) (cc_breaker c) (cc_overflow c) (cc_attemptTTL c)
    (cc_attemptTTLSet c) n (cc_pollInterval c) (cc_pollIntervalSet c) (cc_pollMaxBatch c)
    (cc_pollMaxBatchSet c).
Definition WithPollInterval (d : Z) (c : consumerConfig) : consumerConfig :=
  mkConsumerConfig (cc_concurrency c) (cc_codec c) (cc_codecSet c) (cc_policy c) (cc_invalidSink c)
    (cc_hooks c) (cc_shutdownTimeout c) (cc_clock c) (cc_maxInFlight c) (cc_maxInFlightSet c)
    (cc_rateLimiter c) (cc_handlerTimeout c) (cc_breaker c) (cc_overflow c) (cc_attemptTTL c)
    (cc_attemptTTLSet c) (cc_maxPayloadBytes c) d true (cc_pollMaxBatch c) (cc_pollMaxBatchSet c).
Definition WithPollMaxBatch (n : Z) (c : consumerConfig) : consumerConfig :=
  mkConsumerConfig (cc_concurrency c) (cc_codec c) (cc_codecSet c) (cc_policy c) (cc_invalidSink c)
    (cc_hooks c) (cc_shutdownTimeout c) (cc_clock c) (cc_maxInFlight c) (cc_maxInFlightSet c)
    (cc_rateLimiter c) (cc_handlerTimeout c) (cc_breaker c) (cc_overflow c) (cc_attemptTTL c)
    (cc_attemptTTLSet c) (cc_maxPayloadBytes c) (cc_pollInterval c) (cc_pollIntervalSet c) n true.

Definition concurrencyCeiling : Z := Z.shiftl 1 16.
Definition defaultMaxInFlight : Z := 1024.
Definition maxInFlightCeiling : Z := Z.shiftl 1 20.
Definition defaultAttemptTTL : Z := 5 * minute.
Definition defaultPollInterval : Z := 1 * second.
Definition defaultPollMaxBatch : Z := 100.

(** A source, as the dynamic type tests of [NewConsumer] see it. *)
Record Source : Type := mkSource {
  src_eventDriven : bool;
  src_polling : bool;
  src_emitsLiveValue : option bool;
  src_NativeDeadLetter : option (M E bool)
}.

Inductive ingress : Type := StreamIngress | PollIngress.

Record consumer : Type := mkConsumer {
  c_ingress : ingress;
  c_handler : Message T → M E (option error);
  c_codec : option (PayloadCodec T);
  c_liveValue : bool;
  c_workers : Z;
  c_policy : RetryPolicy;
  c_invalidSink : option (msg → M E (option error));
  c_hooks : Hooks;
  c_shutdownTimeout : Z;
  c_clock : E → Z;
  c_NativeDeadLetter : M E bool;
  c_attemptTTL : Z;
  c_maxInFlight : Z;
  c_rateLimiter : option (M E (option error));
  c_handlerTimeout : Z;
  c_breaker : option CircuitBreaker;
  c_overflow : OverflowPolicy;
  c_maxPayloadBytes : Z;
  c_pollInterval : Z;
  c_pollMaxBatch : Z
}.

Definition isLiveValue (live : option bool) : bool :=
  match live with Some b => b | None => false end.

(** [json] is the default codec, [JSONPayloadCodec[T]]. *)
Definition resolveCodec (json : PayloadCodec T) (live : option bool) (codec : option (PayloadCodec T))
    (codecSet : bool) : error + (option (PayloadCodec T) * bool) :=
  let live := isLiveValue live in
  if live && codecSet then inl (Sentinel ErrUnexpectedCodec)
  else if negb live && bool_decide (codec = None) then inr (Some json, live)
  else inr (codec, live).

(** A setting that is defaulted when unset and otherwise has to pass a check. *)
Definition setting (isSet : bool) (v dflt : Z) (invalid : Z → option error) : error + Z :=
  if isSet then match invalid v with Some err => inl err | None => inr v end else inr dflt.

Definition NewConsumer (json : PayloadCodec T) (real_clock : E → Z) (src : option Source)
    (h : option (Message T → M E (option error)))
    (opts : list (option (consumerConfig → consumerConfig))) : error + consumer :=
  match src, h with
  | None, _ => inl (Sentinel ErrNilAdapter)
  | Some _, None => inl (nilFuncAt "endpoint.NewConsumer: nil handler")
  | Some src, Some h =>
      match apply_opts opts (mkConsumerConfig 1 None false (mkRetryPolicy 0 None None) None
              (mkHooks None None None None) 0 real_clock 0 false None 0 None OverflowBlock
              0 false 0 0 false 0 false) with
      | inl i => inl (nilOptionAt "endpoint.NewConsumer" i)
      | inr cfg =>
          match checkRange (Sentinel ErrInvalidConcurrency) "endpoint.WithConcurrency"
                  (cc_concurrency cfg) 1 concurrencyCeiling with
          | Some err => inl err
          | None =>
          match Validate (cc_policy cfg) with
          | Some err => inl err
          | None =>
          match setting (cc_maxInFlightSet cfg) (cc_maxInFlight cfg) defaultMaxInFlight
                  (λ n, checkRange (Sentinel ErrInvalidMaxInFlight) "endpoint.WithMaxInFlight"
                          n 1 maxInFlightCeiling) with
          | inl err => inl err
          | inr maxInFlight =>
          match setting (cc_attemptTTLSet cfg) (cc_attemptTTL cfg) defaultAttemptTTL
                  (λ d, if d <=? 0 then Some (Sentinel ErrInvalidAttemptTTL) else None) with
          | inl err => inl err
          | inr attemptTTL =>
          match setting (cc_pollIntervalSet cfg) (cc_pollInterval cfg) defaultPollInterval
                  (λ d, if d <=? 0 then Some (Sentinel ErrInvalidPollInterval) else None) with
          | inl err => inl err
          | inr pollInterval =>
          match setting (cc_pollMaxBatchSet cfg) (cc_pollMaxBatch cfg) defaultPollMaxBatch
                  (λ n, if n <? 1 then Some (Sentinel ErrInvalidPollMaxBatch) else None) with
          | inl err => inl err
          | inr pollMaxBatch =>
          match resolveCodec json (src_emitsLiveValue src) (cc_codec cfg) (cc_codecSet cfg) with
          | inl err => inl err
          | inr (codec, live) =>
          match (if src_eventDriven src then Some StreamIngress
                 else if src_polling src then Some PollIngress else None) with
          | None => inl (Sentinel ErrUnsupportedSource)
          | Some ing =>
              inr (mkConsumer ing h codec live (cc_concurrency cfg) (cc_policy cfg)
                (cc_invalidSink cfg) (cc_hooks cfg) (cc_shutdownTimeout cfg) (cc_clock cfg)
                (default (mret false) (src_NativeDeadLetter src)) attemptTTL maxInFlight
                (cc_rateLimiter cfg) (cc_handlerTimeout cfg) (cc_breaker cfg) (cc_overflow cfg)
                (cc_maxPayloadBytes cfg) pollInterval pollMaxBatch)
          end end end end end end end end
      end
  end.

(** ** Credits and managed deliveries *)

(** A delivery; its closures run over the consumer's state because managing it
    makes them release a credit. *)
Record Delivery : Type := mkDelivery {
  d_Msg : msg;
  d_Ack : M S (option error);
  d_Nack : bool → Z → M S (option error)
}.

(** A delivery as its source hands it over. *)
Definition source_delivery (m : msg) (ack : M E (option error))
    (nack : bool → Z → M E (option error)) : Delivery :=
  mkDelivery m (traced EvAck ack)
    (λ requeue delay, traced (EvNack requeue delay) (nack requeue delay)).

(** [sync.OnceFunc(gate.release)]: the first call takes a token back out. *)
Definition release_once : M S unit := modify (λ s,
  if cs_released s then s
  else mkCState (cs_ext s) (cs_trace s) (cs_tracker s) (cs_tokens s - 1) true
         (cs_panicLogged s) (cs_fallbackLogged s)).

Definition manage (d : Delivery) : Delivery :=
  mkDelivery (d_Msg d)
    (_ ← release_once; d_Ack d)
    (λ requeue delay, _ ← release_once; d_Nack d requeue delay).

(** ** Containment of user panics *)

(** [governorPanic]: the first panic of each method is logged. *)
Definition governorPanic (method : string) : M S unit := λ s,
  if bool_decide (method ∈ cs_panicLogged s) then (Ret tt, s)
  else (Ret tt, mkCState (cs_ext s) (cs_trace s ++ [EvLog ("governor panicked: " +:+ method)])
                  (cs_tracker s) (cs_tokens s) (cs_released s) ({[method]} ∪ cs_panicLogged s)
                  (cs_fallbackLogged s)).

(** A governor call that fails open: on a panic it answers [open]. *)
Definition failing_open {A} (method : string) (open : A) (m : M S A) : M S A :=
  recovering (λ _, _ ← governorPanic method; mret open) m.

Definition safeLimiterWait (wait : M E (option error)) : M S (option error) :=
  failing_open "RateLimiter.Wait" None (user wait).
Definition safeAllow (b : CircuitBreaker) : M S bool :=
  failing_open "CircuitBreaker.Allow" true (user (cb_Allow b)).
Definition safeTryProbe (probe : M E bool) : M S bool :=
  failing_open "ProbeGate.TryProbe" true (user probe).
Definition safeRecord (b : CircuitBreaker) (success : bool) : M S unit :=
  failing_open "CircuitBreaker.Record" tt (_ ← emit (EvRecord success); user (cb_Record b success)).
(** The channel, or [None] after a panic. *)
Definition safeHalfOpen (b : CircuitBreaker) : M S (option nat) :=
  failing_open "CircuitBreaker.HalfOpen" None (ch ← user (cb_HalfOpen b); mret (Some ch)).

Definition finish (err : option error) : M S unit :=
  match err with
  | Some _ => emit (EvLog "settle failed")
  | None => mret tt
  end.

Definition panicked (what v : string) : error := Errorf [] [FStr what; FStr v].

Definition safeAck (d : Delivery) : M S (option error) :=
  recovering (λ v, _ ← emit (EvLog "Delivery.Ack panicked"); mret (Some (panicked "Delivery.Ack panicked" v)))
    (d_Ack d).
Definition safeNack (d : Delivery) (requeue : bool) (delay : Z) : M S (option error) :=
  recovering (λ v, _ ← emit (EvLog "Delivery.Nack panicked"); mret (Some (panicked "Delivery.Nack panicked" v)))
    (d_Nack d requeue delay).

Definition safeFire (c : consumer) (h : hookname) (m : msg) (cause : option error) : M S unit :=
  match hook_of (c_hooks c) h with
  | None => mret tt
  | Some hook =>
      recovering (λ _, emit (EvLog "hook panicked")) (_ ← emit (EvHook h cause); user (hook m cause))
  end.

(** A sink by its name; calling a nil sink panics. *)
Definition sink_of (c : consumer) (n : sinkname) : option (msg → M E (option error)) :=
  match n with
  | InvalidSink => c_invalidSink c
  | DeadLetterSink => rp_DeadLetter (c_policy c)
  end.
Definition safeSend (c : consumer) (sink : sinkname) (m : msg) : M S (option error) :=
  recovering (λ v, _ ← emit (EvLog "OutboundAdapter.Send panicked");
                   mret (Some (panicked "OutboundAdapter.Send panicked" v)))
    (traced (EvSend sink m)
       (match sink_of c sink with Some send => send m | None => panic "nil dereference" end)).

Definition safeHandle (c : consumer) (m : Message T) : M S (option error) :=
  r ← recovering (λ v, mret (Some (Errorf [Sentinel ErrHandlerPanic] [FStr v]))) (user (c_handler c m));
  _ ← emit (EvHandled r);
  mret r.

(** ** Decoding *)

Definition safeDecode (c : consumer) (b : bytes) : M S (error + T) :=
  match c_codec c with
  | Some codec =>
      match Decode codec b with
      | Ret (inr v) => mret (inr v)
      | Ret (inl err) => mret (inl (Errorf [Sentinel ErrPayloadDecode] [FStr "decode"]))
      | Panic v =>
          _ ← emit (EvLog "PayloadCodec.Decode panicked");
          mret (inl (Errorf [Sentinel ErrPayloadDecode] [FStr v]))
      end
  | None =>
      _ ← emit (EvLog "PayloadCodec.Decode panicked");
      mret (inl (Errorf [Sentinel ErrPayloadDecode] [FStr "nil dereference"]))
  end.

Definition decode (c : consumer) (m : msg) : M S (error + T) :=
  if c_liveValue c then
    match type_assert (msg_payload m) with
    | None => mret (inl (Sentinel ErrPayloadType))
    | Some v => mret (inr v)
    end
  else
    match type_assert (msg_payload m) : option bytes with
    | None => mret (inl (Sentinel ErrPayloadType))
    | Some b =>
        if (0 <? c_maxPayloadBytes c) && (c_maxPayloadBytes c <? Z.of_nat (length b))
        then mret (inl (Sentinel ErrPayloadTooLarge))
        else safeDecode c b
    end.

(** ** Terminal diverts *)

Definition retryDelay (p : RetryPolicy) (attempt : Z) : M S Z :=
  match rp_Backoff p with
  | None => mret 0
  | Some delay => user (delay (wrap64 (attempt - 1)))
  end.

Definition invalidTarget (c : consumer) (cause : error) : option sinkname * bool :=
  if bool_decide (is_Some (c_invalidSink c)) then (Some InvalidSink, false)
  else if Is cause ErrPayloadTooLarge then (None, false)
  else if bool_decide (is_Some (rp_DeadLetter (c_policy c))) then (Some DeadLetterSink, true)
  else (None, false).

Definition warnInvalidFallback : M S unit := λ s,
  if cs_fallbackLogged s then (Ret tt, s)
  else (Ret tt, mkCState (cs_ext s) (cs_trace s ++ [EvLog "invalid message sent to the dead-letter sink"])
                  (cs_tracker s) (cs_tokens s) (cs_released s) (cs_panicLogged s) true).

(** What the log renders of a cause: the full error, or, for an undecodable
    payload, the sentinel alone. *)
Definition causeForLog (cause : error) : error + sentinel :=
  if Is cause ErrPayloadDecode then inr ErrPayloadDecode else inl cause.

(** [settle_done] is [ctx.Err() != nil] of the settlement context. *)
Definition divertTerminal (c : consumer) (settle_done : E → bool) (sink : option sinkname)
    (d : Delivery) (terminalHook : hookname) (cause : error) : M S bool :=
  go ← (match sink with
        | None =>
            _ ← emit (EvLogCause (if Is cause ErrPayloadTooLarge then "discarding over-size message"
                                  else "discarding message") (causeForLog cause));
            mret (Some (Some cause))
        | Some sink =>
            r ← safeSend c sink (d_Msg d);
            match r with
            | None => mret (Some (Some cause))
            | Some err =>
                shutting ← gets (λ s, settle_done (cs_ext s));
                if (shutting : bool) then
                  _ ← emit (EvLogCause "invalid-message divert aborted by shutdown" (causeForLog cause));
                  n ← safeNack d true 0;
                  _ ← finish n;
                  mret None
                else
                  _ ← emit (EvLogCause "discarding invalid message; the sink rejected it" (causeForLog cause));
                  mret (Some (Join [Some cause; Some err]))
            end
        end);
  match go with
  | None => mret false
  | Some hookErr =>
      _ ← safeFire c terminalHook (d_Msg d) hookErr;
      ackErr ← safeAck d;
      _ ← finish ackErr;
      mret (bool_decide (ackErr = None))
  end.

Definition divert (c : consumer) (sink : sinkname) (d : Delivery) (terminalHook : hookname)
    (cause : error) (attempt : Z) : M S bool :=
  r ← safeSend c sink (d_Msg d);
  match r with
  | Some _ =>
      _ ← safeFire c OnRetry (d_Msg d) (Some cause);
      delay ← retryDelay (c_policy c) attempt;
      n ← safeNack d true delay;
      _ ← finish n;
      mret false
  | None =>
      _ ← safeFire c terminalHook (d_Msg d) (Some cause);
      ackErr ← safeAck d;
      _ ← finish ackErr;
      mret (bool_decide (ackErr = None))
  end.

(** ** Dispatch *)

Definition tracker_observe (c : consumer) (id : string) : M S Z := λ s,
  let '(n, t) := observe (c_clock c (cs_ext s)) id (cs_tracker s) in (Ret n, set_tracker t s).
Definition tracker_evict (id : string) : M S unit := modify (λ s, set_tracker (evict id (cs_tracker s)) s).

Definition attempts (c : consumer) (d : Delivery) : M S Z :=
  match Headers_Int (msg_headers (d_Msg d)) HeaderDeliveryCount with
  | Some dc => mret dc
  | None => tracker_observe c (ID (d_Msg d))
  end.

(** The two ways to an invalid message: undecodable, or rejected for good. *)
Definition divert_invalid (c : consumer) (settle_done : E → bool) (d : Delivery) (cause : error)
    : M S unit :=
  let '(sink, fellBack) := invalidTarget c cause in
  _ ← (if (fellBack : bool) then warnInvalidFallback else mret tt);
  settled ← divertTerminal c settle_done sink d OnInvalidMessage cause;
  if (settled : bool) then tracker_evict (ID (d_Msg d)) else mret tt.

Definition dispatch (c : consumer) (settle_done : E → bool) (d : Delivery) : M S (option error) :=
  let id := ID (d_Msg d) in
  r ← decode c (d_Msg d);
  match r with
  | inl derr => _ ← divert_invalid c settle_done d derr; mret (Some derr)
  | inr payload =>
      r ← safeHandle c (NewMessage payload (msg_headers (d_Msg d)));
      match r with
      | None =>
          ackErr ← safeAck d;
          _ ← finish ackErr;
          match ackErr with
          | None => _ ← safeFire c OnAck (d_Msg d) None; _ ← tracker_evict id; mret None
          | Some _ => mret None
          end
      | Some err =>
          if IsPermanent (Some err) then
            _ ← divert_invalid c settle_done d err; mret (Some err)
          else
            n ← attempts c d;
            exhausted ← (if (0 <? rp_MaxAttempts (c_policy c)) && (rp_MaxAttempts (c_policy c) <=? n)
                         then nativeDL ← user (c_NativeDeadLetter c); mret (negb nativeDL)
                         else mret false);
            if (exhausted : bool) then
              settled ← divert c DeadLetterSink d OnDeadLetter err n;
              _ ← (if (settled : bool) then tracker_evict id else mret tt);
              mret (Some err)
            else
              _ ← safeFire c OnRetry (d_Msg d) (Some err);
              delay ← retryDelay (c_policy c) n;
              nk ← safeNack d true delay;
              _ ← finish nk;
              mret (Some err)
      end
  end.

(** ** Processing a managed delivery *)

Definition dispatchAllowed (b : CircuitBreaker) : M S bool :=
  match cb_TryProbe b with
  | Some probe => safeTryProbe probe
  | None => safeAllow b
  end.

Definition process (c : consumer) (drain_done settle_done : E → bool) (d : Delivery) : M S unit :=
  deferring (λ _, release_once)
    (draining ← gets (λ s, drain_done (cs_ext s));
     if (draining : bool) then n ← safeNack d true 0; finish n
     else
       allowed ← (match c_breaker c with Some b => dispatchAllowed b | None => mret true end);
       if negb allowed then n ← safeNack d true 0; finish n
       else
         err ← dispatch c settle_done d;
         match c_breaker c with
         | Some b => safeRecord b (bool_decide (err = None) || IsPermanent err)
         | None => mret tt
         end).

(** ** Admission on the push path *)

(** The gate: a credit is a token in the channel. *)
Definition tryAcquire (c : consumer) : M S bool := λ s,
  if cs_tokens s <? c_maxInFlight c then
    (Ret true, mkCState (cs_ext s) (cs_trace s) (cs_tracker s) (cs_tokens s + 1) (cs_released s)
                 (cs_panicLogged s) (cs_fallbackLogged s))
  else (Ret false, s).

(** [gate.acquire(ctx)]: whether the credit was taken, or [None] while the call
    blocks; [pick] is the random choice of a select with both arms ready. *)
Definition gate_acquire (c : consumer) (ctx_done : E → bool) (pick : bool) : M S (option bool) :=
  done ← gets (λ s, ctx_done (cs_ext s));
  if (done : bool) && pick then mret (Some false)
  else
    got ← tryAcquire c;
    if (got : bool) then mret (Some true)
    else mret (if (done : bool) then Some false else None).

(** [admitBreaker]: [wait ch] blocks until the channel is closed (true) or the
    context is done (false); [None] is out of fuel. *)
Fixpoint admit_loop (fuel : nat) (b : CircuitBreaker) (wait : nat → M E bool) : M S (option bool) :=
  match fuel with
  | O => mret None
  | Datatypes.S fuel =>
      allowed ← safeAllow b;
      if (allowed : bool) then mret (Some true)
      else
        wake ← safeHalfOpen b;
        match wake with
        | None => mret (Some true)
        | Some ch =>
            allowed ← safeAllow b;
            if (allowed : bool) then mret (Some true)
            else
              woken ← user (wait ch);
              if (woken : bool) then admit_loop fuel b wait else mret (Some false)
        end
  end.
Definition admitBreaker (fuel : nat) (c : consumer) (wait : nat → M E bool) : M S (option bool) :=
  match c_breaker c with
  | None => mret (Some true)
  | Some b => admit_loop fuel b wait
  end.

(** How [consumer_admit] ends: with its Go result, whether the delivery went to the
    workers, or not yet. *)
Inductive admitted : Type :=
  | Handed
  | PutBack (goOn : bool)
  | Waiting.

(** Put the delivery back (or drop it) and report whether to go on. *)
Definition refuse (d : Delivery) (requeue goOn : bool) : M S admitted :=
  n ← safeNack d requeue 0;
  _ ← finish n;
  mret (PutBack goOn).

(** [room] says whether the handoff arm of the last select is chosen. *)
Definition consumer_admit (fuel : nat) (c : consumer) (ctx_done : E → bool) (pick room : bool)
    (wait : nat → M E bool) (d : Delivery) : M S admitted :=
  paced ← (match c_rateLimiter c with
           | None => mret None
           | Some w => safeLimiterWait w
           end);
  match (paced : option error) with
  | Some _ => refuse d true false
  | None =>
      go ← admitBreaker fuel c wait;
      match go with
      | None => mret Waiting
      | Some false => refuse d true false
      | Some true =>
          credit ← (match c_overflow c with
                    | OverflowDropNewest | OverflowDropOldest | OverflowReject =>
                        got ← tryAcquire c; mret (Some (got : bool))
                    | _ => gate_acquire c ctx_done pick
                    end);
          match credit, c_overflow c with
          | None, _ => mret Waiting
          | Some false, (OverflowDropNewest | OverflowDropOldest | OverflowReject) =>
              _ ← safeFire c OnRetry (d_Msg d) (Some (Sentinel ErrOverflowDropped));
              refuse d false true
          | Some false, _ => refuse d true false
          | Some true, _ =>
              _ ← modify (λ s, mkCState (cs_ext s) (cs_trace s) (cs_tracker s) (cs_tokens s) false
                                 (cs_panicLogged s) (cs_fallbackLogged s));
              if room then mret Handed else refuse (manage d) true false
          end
      end
  end.

(** ** Reasoning about runs *)

(** The events that decide the fate of a message. *)
Definition is_core (ev : cevent) : bool :=
  match ev with
  | EvHandled _ | EvAck _ | EvNack _ _ _ | EvSend _ _ _ | EvRecord _ => true
  | EvHook _ _ | EvLog _ | EvLogCause _ _ => false
  end.
Definition core (evs : list cevent) : list cevent := filter is_core evs.

Lemma core_app evs evs' : core (evs ++ evs') = core evs ++ core evs'.
Proof. apply list.filter_app. Qed.

Lemma core_snoc evs ev :
  core (evs ++ [ev]) = core evs ++ (if is_core ev then [ev] else []).
Proof.
  rewrite core_app. f_equal. unfold core. destruct (is_core ev) eqn:Hc.
  - by rewrite filter_cons_True by (by rewrite Hc).
  - by rewrite filter_cons_False by (rewrite Hc; intros []).
Qed.

(** From [s] to [s'] the core events [evs] happened, and the tracker, the gate
    and the once-flag did not change. *)
Record adv (evs : list cevent) (s s' : S) : Prop := {
  adv_core : core (cs_trace s') = core (cs_trace s) ++ evs;
  adv_tracker : cs_tracker s' = cs_tracker s;
  adv_released : cs_released s' = cs_released s;
  adv_tokens : cs_tokens s' = cs_tokens s
}.

Lemma adv_refl s : adv [] s s.
Proof. split; [by rewrite app_nil_r|done..]. Qed.

Lemma adv_trans evs evs' s1 s2 s3 : adv evs s1 s2 → adv evs' s2 s3 → adv (evs ++ evs') s1 s3.
Proof. intros [] []. split; [by rewrite app_assoc; congruence|congruence..]. Qed.

Lemma adv_ext e s : adv [] s (set_ext e s).
Proof. split; [by rewrite app_nil_r|done..]. Qed.

(** [runs m P]: from any state, [m] returns and makes some progress [P]. *)
Definition runs {A} (m : M S A) (P : A → S → S → Prop) : Prop := ∀ s, wp m (λ a s', P a s s') s.

(** A computation of which nothing of the core is observed. *)
Definition silent {A} (m : M S A) : Prop := runs m (λ _, adv []).

Lemma silent_emit ev : is_core ev = false → silent (emit ev).
Proof.
  intros Hc s. split; cbn; [|done..]. by rewrite core_snoc, Hc.
Qed.

Lemma silent_ret {A} (a : A) : silent (mret a).
Proof. intros s. apply adv_refl. Qed.

Lemma silent_bind {A B} (m : M S A) (k : A → M S B) :
  silent m → (∀ a, silent (k a)) → silent (m ≫= k).
Proof.
  intros Hm Hk s. apply wp_bind. eapply wp_mono; [apply Hm|]. intros a s1 H1. cbn in H1.
  eapply wp_mono; [apply Hk|]. intros b s2 H2. apply (adv_trans [] [] _ _ _ H1 H2).
Qed.

(** User code leaves no core event, whether it returns or panics. *)
Lemma silent_user_recover {A} (h : string → M S A) (m : M E A) :
  (∀ v, silent (h v)) → silent (recovering h (user m)).
Proof.
  intros Hh s. unfold wp, recovering, user, zoom. destruct (m (cs_ext s)) as [[a|v] e].
  - apply adv_ext.
  - pose proof (Hh v (set_ext e s)) as Hv. unfold wp in Hv.
    destruct (h v (set_ext e s)) as [[a|v'] s']; [|done].
    apply (adv_trans [] [] _ _ _ (adv_ext e s) Hv).
Qed.

Lemma silent_user {A} (m : M E A) : panic_free m → silent (user m).
Proof.
  intros Hm s. unfold wp, user, zoom. destruct (Hm (cs_ext s)) as (a & e & ->). apply adv_ext.
Qed.

Lemma silent_governorPanic method : silent (governorPanic method).
Proof.
  intros s. unfold wp, governorPanic. case_bool_decide; [apply adv_refl|].
  split; cbn; [|done..]. by rewrite core_snoc.
Qed.

Lemma silent_failing_open {A} method (open : A) (m : M E A) : silent (failing_open method open (user m)).
Proof.
  apply silent_user_recover. intros v. apply silent_bind; [apply silent_governorPanic|].
  intros _. apply silent_ret.
Qed.

Lemma silent_warn : silent warnInvalidFallback.
Proof.
  intros s. unfold wp, warnInvalidFallback. destruct (cs_fallbackLogged s); [apply adv_refl|].
  split; cbn; [|done..]. by rewrite core_snoc.
Qed.

Lemma silent_finish err : silent (finish err).
Proof. destruct err; [by apply silent_emit|apply silent_ret]. Qed.

(** A recovered computation that first emits and then runs user code. *)
Lemma runs_emit_user {A} (h : string → M S A) ev (m : M E A) :
  (∀ v, silent (h v)) →
  runs (recovering h (_ ← emit ev; user m)) (λ _, adv (if is_core ev then [ev] else [])).
Proof.
  intros Hh s. pose proof (silent_user_recover h m Hh ((emit ev s).2)) as Hu.
  assert (adv (if is_core ev then [ev] else []) s (emit ev s).2) as He
    by (split; cbn; [by rewrite core_snoc|done..]).
  unfold wp, recovering, mbind, M_bind in *. cbn [emit modify] in *.
  revert He Hu. generalize (if is_core ev then [ev] else []). intros evs He Hu.
  rewrite <- (app_nil_r evs). destruct (user m _) as [[a|v] s1]; [by apply (adv_trans _ [] _ _ _ He)|].
  destruct (h v s1) as [[a|v'] s2]; [by apply (adv_trans _ [] _ _ _ He)|done].
Qed.

Lemma silent_fire c h m cause : silent (safeFire c h m cause).
Proof.
  unfold safeFire. destruct (hook_of _ _); [|apply silent_ret].
  apply (runs_emit_user _ (EvHook h cause)). intros v. by apply silent_emit.
Qed.

Lemma runs_record b success : runs (safeRecord b success) (λ _, adv [EvRecord success]).
Proof.
  apply (runs_emit_user _ (EvRecord success)). intros v. apply silent_bind; [apply silent_governorPanic|].
  intros _. apply silent_ret.
Qed.

(** *** Settling a managed delivery *)

(** The core events [evs] happened, one of them a settlement: the delivery's
    credit is back, exactly once. *)
Record settled (evs : list cevent) (s s' : S) : Prop := {
  set_core : core (cs_trace s') = core (cs_trace s) ++ evs;
  set_tracker_eq : cs_tracker s' = cs_tracker s;
  set_released : cs_released s' = true;
  set_tokens : cs_tokens s' = cs_tokens s - (if cs_released s then 0 else 1)
}.

Lemma adv_settled evs evs' s1 s2 s3 : adv evs s1 s2 → settled evs' s2 s3 → settled (evs ++ evs') s1 s3.
Proof.
  intros [Hc Ht Hr Hk] []. split; [by rewrite app_assoc; congruence|congruence|done|].
  by rewrite <- Hr, <- Hk.
Qed.

Lemma settled_adv evs s1 s2 s3 : settled evs s1 s2 → adv [] s2 s3 → settled evs s1 s3.
Proof.
  intros [] [Hc Ht Hr Hk]. split; [rewrite Hc, app_nil_r; done|congruence|congruence|congruence].
Qed.

Lemma runs_traced {A} (ev : outcome A → cevent) (m : M E A) s :
  (∀ o, is_core (ev o) = true) →
  ∃ o s', traced ev m s = (o, s') ∧ adv [ev o] s s'.
Proof.
  intros Hc. unfold traced, user, zoom. destruct (m (cs_ext s)) as [o e].
  exists o, (emit (ev o) (set_ext e s)).2. split; [done|]. split; cbn; [|done..].
  by rewrite core_snoc, Hc.
Qed.

(** A recovered, traced call: the result is nil iff the call returned nil. *)
Lemma runs_recovered (ev : outcome (option error) → cevent) (h : string → M S (option error))
    (m : M E (option error)) s :
  (∀ o, is_core (ev o) = true) → (∀ v, runs (h v) (λ r s s', adv [] s s' ∧ r ≠ None)) →
  wp (recovering h (traced ev m)) (λ r s', ∃ o, adv [ev o] s s' ∧ (r = None ↔ o = Ret None)) s.
Proof.
  intros Hc Hh. destruct (runs_traced ev m s Hc) as (o & s1 & E1 & H1).
  unfold wp, recovering. rewrite E1. destruct o as [r|v].
  - exists (Ret r). split; [done|]. naive_solver.
  - pose proof (Hh v s1) as Hv. unfold wp in Hv. destruct (h v s1) as [[r|v'] s2]; [|done].
    destruct Hv as [H2 Hr]. exists (Panic v). split; [apply (adv_trans _ [] _ _ _ H1 H2)|]. naive_solver.
Qed.

Lemma runs_log_error ev (e : error) : is_core ev = false →
  runs (_ ← emit ev; mret (Some e) : M S (option error)) (λ r s s', adv [] s s' ∧ r ≠ None).
Proof.
  intros Hc s. apply wp_bind. eapply wp_mono; [by apply silent_emit|]. intros [] s' Hs. by apply wp_ret.
Qed.

Lemma runs_safeSend c k m :
  runs (safeSend c k m) (λ r s s', ∃ o, adv [EvSend k m o] s s' ∧ (r = None ↔ o = Ret None)).
Proof. intros s. apply (runs_recovered (EvSend k m)); [done|]. intros v. by apply runs_log_error. Qed.

(** Releasing first, then running the source's own closure. *)
Lemma runs_settle (ev : outcome (option error) → cevent) (h : string → M S (option error))
    (m : M E (option error)) :
  (∀ o, is_core (ev o) = true) → (∀ v, runs (h v) (λ r s s', adv [] s s' ∧ r ≠ None)) →
  runs (recovering h (_ ← release_once; traced ev m))
    (λ r s s', ∃ o, settled [ev o] s s' ∧ (r = None ↔ o = Ret None)).
Proof.
  intros Hc Hh s. set (s1 := (release_once s).2).
  pose proof (runs_recovered ev h m s1 Hc Hh) as Hw. eapply wp_mono.
  { unfold wp, recovering, mbind, M_bind in *. cbn [release_once modify]. exact Hw. }
  intros r s' (o & [H1 H2 H3 H4] & Hr). exists o. split; [|done]. unfold s1, release_once in *. cbn in *.
  destruct (cs_released s) eqn:Er; cbn in *; split; try rewrite ?Er; try done; try congruence; try lia.
Qed.

(** ** What a dispatch may do

    The settlement protocol of one managed delivery: the core events of a
    dispatch, the error it reports to the breaker, and the tracker before and
    after. *)
Section protocol.
Context (c : consumer) (m : msg).

Definition exhausted (n : Z) : Prop :=
  0 < rp_MaxAttempts (c_policy c) ∧ rp_MaxAttempts (c_policy c) ≤ n.

(** The delay the policy asks for after attempt [n]. *)
Definition delay_for (n delay : Z) : Prop :=
  match rp_Backoff (c_policy c) with
  | None => delay = 0
  | Some f => ∃ e e', f (wrap64 (n - 1)) e = (Ret delay, e')
  end.

(** The attempt count of this delivery: the transport's, or one more than the
    tracker's. *)
Definition counted (t : attemptTracker) (n : Z) (t' : attemptTracker) : Prop :=
  match Headers_Int (msg_headers m) HeaderDeliveryCount with
  | Some dc => n = dc ∧ t' = t
  | None => ∃ now, observe now (ID m) t = (n, t')
  end.

(** The entry is evicted once the delivery is acknowledged for good. *)
Definition accepted (r : outcome (option error)) : bool :=
  match r with Ret None => true | _ => false end.
Definition evicted (r : outcome (option error)) (t : attemptTracker) : attemptTracker :=
  if accepted r then evict (ID m) t else t.

Inductive invalid_fate (cause : error) (t : attemptTracker) : list cevent → attemptTracker → Prop :=
  | FateDiscarded r :
      (invalidTarget c cause).1 = None →
      invalid_fate cause t [EvAck r] (evicted r t)
  | FateDiverted k o r :
      (invalidTarget c cause).1 = Some k →
      invalid_fate cause t [EvSend k m o; EvAck r] (evicted r t)
  | FateAborted k o r :
      (invalidTarget c cause).1 = Some k → o ≠ Ret None →
      invalid_fate cause t [EvSend k m o; EvNack true 0 r] t.

Inductive transient_fate (n : Z) (t : attemptTracker) : list cevent → attemptTracker → Prop :=
  | FateRetried delay r :
      delay_for n delay →
      transient_fate n t [EvNack true delay r] t
  | FateDeadLettered r :
      exhausted n →
      transient_fate n t [EvSend DeadLetterSink m (Ret None); EvAck r] (evicted r t)
  | FateDeadLetterRefused delay o r :
      exhausted n → o ≠ Ret None → delay_for n delay →
      transient_fate n t [EvSend DeadLetterSink m o; EvNack true delay r] t.

Inductive protocol (t : attemptTracker) : option error → list cevent → attemptTracker → Prop :=
  | PHandled r :
      protocol t None [EvHandled None; EvAck r] (evicted r t)
  | PUndecodable e evs t' :
      IsPermanent (Some e) = true → invalid_fate e t evs t' →
      protocol t (Some e) evs t'
  | PPermanent e evs t' :
      IsPermanent (Some e) = true → invalid_fate e t evs t' →
      protocol t (Some e) (EvHandled (Some e) :: evs) t'
  | PTransient e n evs t1 t' :
      IsPermanent (Some e) = false → counted t n t1 → transient_fate n t1 evs t' →
      (exhausted n → c_NativeDeadLetter c = mret false → ∃ o, EvSend DeadLetterSink m o ∈ evs) →
      protocol t (Some e) (EvHandled (Some e) :: evs) t'.
End protocol.

(** A dispatch that is over: its core events, its tracker, its credit back. *)
Record finished (evs : list cevent) (t' : attemptTracker) (s s' : S) : Prop := {
  fin_core : core (cs_trace s') = core (cs_trace s) ++ evs;
  fin_tracker : cs_tracker s' = t';
  fin_released : cs_released s' = true;
  fin_tokens : cs_tokens s' = cs_tokens s - (if cs_released s then 0 else 1)
}.

Lemma settled_finished evs s s' : settled evs s s' → finished evs (cs_tracker s) s s'.
Proof. intros []. by split. Qed.

Lemma finished_evict evs s s' id :
  settled evs s s' → finished evs (evict id (cs_tracker s)) s (tracker_evict id s').2.
Proof. intros [H1 H2 H3 H4]. split; cbn; try done. by rewrite H2. Qed.

Lemma adv_finished evs evs' t s1 s2 s3 : adv evs s1 s2 → finished evs' t s2 s3 → finished (evs ++ evs') t s1 s3.
Proof.
  intros [Hc Ht Hr Hk] []. split; [by rewrite app_assoc; congruence|done|done|].
  by rewrite <- Hr, <- Hk.
Qed.

Lemma silent_safeDecode c b :
  runs (safeDecode c b) (λ r s s', adv [] s s' ∧ ∀ e, r = inl e → IsPermanent (Some e) = true).
Proof.
  intros s. unfold safeDecode. destruct (c_codec c) as [codec|]; [destruct (Decode codec b) as [[e|v]|v]|].
  1, 2: apply wp_ret; split; [apply adv_refl|]; naive_solver.
  all: apply wp_bind; eapply wp_mono; [by apply silent_emit|]; intros [] s' Hs; apply wp_ret;
    split; [done|]; naive_solver.
Qed.

Lemma runs_decode c m :
  runs (decode c m) (λ r s s', adv [] s s' ∧ ∀ e, r = inl e → IsPermanent (Some e) = true).
Proof.
  intros s. unfold decode. destruct (c_liveValue c).
  - destruct (type_assert _); (apply wp_ret; split; [apply adv_refl|]; naive_solver).
  - destruct (type_assert _); [|apply wp_ret; split; [apply adv_refl|]; naive_solver].
    destruct (_ && _); [apply wp_ret; split; [apply adv_refl|]; naive_solver|]. apply silent_safeDecode.
Qed.

Lemma runs_safeHandle c m : runs (safeHandle c m) (λ r, adv [EvHandled r]).
Proof.
  intros s. unfold safeHandle. apply wp_bind. eapply wp_mono.
  { apply silent_user_recover. intros v. apply silent_ret. }
  intros r s1 H1. apply wp_bind. unfold wp. cbn. destruct H1 as [Hc ? ? ?].
  split; cbn; [|done..]. rewrite core_snoc, Hc, app_nil_r. done.
Qed.

(** *** The dispatch follows the protocol *)
Section dispatch.
Context (c : consumer) (settle_done : E → bool).
Context (m : msg) (ack : M E (option error)) (nack : bool → Z → M E (option error)).
Let d := manage (source_delivery m ack nack).
Hypothesis Hnative : panic_free (c_NativeDeadLetter c).
Hypothesis Hbackoff : ∀ f n, rp_Backoff (c_policy c) = Some f → panic_free (f n).

Lemma runs_ack : runs (safeAck d) (λ r s s', ∃ o, settled [EvAck o] s s' ∧ (r = None ↔ o = Ret None)).
Proof. apply (runs_settle EvAck); [done|]. intros v. by apply runs_log_error. Qed.

Lemma runs_nack rq dl :
  runs (safeNack d rq dl) (λ r s s', ∃ o, settled [EvNack rq dl o] s s' ∧ (r = None ↔ o = Ret None)).
Proof. apply (runs_settle (EvNack rq dl)); [done|]. intros v. by apply runs_log_error. Qed.

(** Acknowledge, log a failure, and report whether it worked. *)
Lemma runs_ack_finish :
  runs (ackErr ← safeAck d; _ ← finish ackErr; mret (bool_decide (ackErr = None)))
    (λ b s s', ∃ o, settled [EvAck o] s s' ∧ b = accepted o).
Proof.
  intros s. apply wp_bind. eapply wp_mono; [apply runs_ack|]. intros r s1 (o & Hs & Hr).
  apply wp_bind. eapply wp_mono; [apply silent_finish|]. intros [] s2 H2. apply wp_ret.
  exists o. split; [by apply (settled_adv _ _ _ _ Hs H2)|].
  destruct o as [[|]|]; cbn; (apply bool_decide_eq_true_2 || apply bool_decide_eq_false_2); naive_solver.
Qed.

Lemma runs_nack_finish {A} rq dl (x : A) :
  runs (n ← safeNack d rq dl; _ ← finish n; mret x)
    (λ b s s', b = x ∧ ∃ o, settled [EvNack rq dl o] s s').
Proof.
  intros s. apply wp_bind. eapply wp_mono; [apply runs_nack|]. intros r s1 (o & Hs & Hr).
  apply wp_bind. eapply wp_mono; [apply silent_finish|]. intros [] s2 H2. apply wp_ret.
  split; [done|]. exists o. by apply (settled_adv _ _ _ _ Hs H2).
Qed.

(** Fire a hook, then acknowledge. *)
Lemma runs_fire_ack h he evs0 s s0 :
  adv evs0 s s0 →
  wp (_ ← safeFire c h m he;
      ackErr ← safeAck d; _ ← finish ackErr; mret (bool_decide (ackErr = None)))
    (λ b s', ∃ o, settled (evs0 ++ [EvAck o]) s s' ∧ b = accepted o) s0.
Proof.
  intros Hadv. apply wp_bind. eapply wp_mono; [apply silent_fire|].
  intros [] s1 H1. eapply wp_mono; [apply runs_ack_finish|]. intros b s2 (o & Hs & ->).
  exists o. split; [|done]. apply (adv_settled evs0 _ _ _ _ Hadv). by apply (adv_settled [] _ _ _ _ H1).
Qed.

Lemma runs_divertTerminal cause t :
  runs (divertTerminal c settle_done (invalidTarget c cause).1 d OnInvalidMessage cause)
    (λ b s s', ∃ evs, settled evs s s' ∧
       invalid_fate c m cause t evs (if b then evict (ID m) t else t)).
Proof.
  intros s. unfold divertTerminal.
  destruct ((invalidTarget c cause).1) as [k|] eqn:Hk; apply wp_bind, wp_bind.
  - eapply wp_mono; [apply runs_safeSend|]. intros r s1 (o & H1 & Hr). cbn beta.
    destruct r as [err|].
    + apply wp_bind, wp_gets. destruct (settle_done (cs_ext s1)) eqn:Ed.
      * apply wp_bind. eapply wp_mono; [by apply silent_emit|]. intros [] s2 H2.
        eapply wp_mono; [apply runs_nack_finish|]. intros go s3 (-> & o' & Hs). apply wp_ret.
        exists [EvSend k m o; EvNack true 0 o']. split; [|apply FateAborted; naive_solver].
        apply (adv_settled [_] _ _ _ _ H1). by apply (adv_settled [] _ _ _ _ H2).
      * apply wp_bind. eapply wp_mono; [by apply silent_emit|]. intros [] s2 H2. apply wp_ret.
        eapply wp_mono; [apply (runs_fire_ack _ _ _ _ _ (adv_trans _ _ _ _ _ H1 H2))|].
        intros b s3 (o' & Hs & ->). eexists. split; [exact Hs|]. by apply FateDiverted.
    + apply wp_ret. eapply wp_mono; [apply (runs_fire_ack _ _ _ _ _ H1)|].
      intros b s3 (o' & Hs & ->). eexists. split; [exact Hs|]. by apply FateDiverted.
  - eapply wp_mono; [by apply silent_emit|]. intros [] s1 H1. apply wp_ret.
    eapply wp_mono; [apply (runs_fire_ack _ _ _ _ _ H1)|].
    intros b s3 (o' & Hs & ->). eexists. split; [exact Hs|]. by apply FateDiscarded.
Qed.

Lemma runs_divert_invalid cause :
  runs (divert_invalid c settle_done d cause)
    (λ _ s s', ∃ evs t', invalid_fate c m cause (cs_tracker s) evs t' ∧ finished evs t' s s').
Proof.
  intros s. unfold divert_invalid. destruct (invalidTarget c cause) as [sink fb] eqn:Ei.
  apply wp_bind. eapply (wp_mono _ (λ _ s', adv [] s s')).
  { destruct fb; [apply silent_warn|apply silent_ret]. }
  intros [] s1 H1. apply wp_bind.
  pose proof (runs_divertTerminal cause (cs_tracker s) s1) as Hd. rewrite Ei in Hd.
  eapply wp_mono; [exact Hd|]. intros b s2 (evs & Hs & Hf). cbn in Hs, Hf.
  pose proof (adv_settled [] _ _ _ _ H1 Hs) as Hs'. cbn in Hs'. destruct b.
  - eexists _, _. split; [exact Hf|]. by apply finished_evict.
  - eexists _, _. split; [exact Hf|]. by apply settled_finished.
Qed.

Lemma runs_retryDelay n :
  runs (retryDelay (c_policy c) n) (λ delay s s', adv [] s s' ∧ delay_for c n delay).
Proof.
  intros s. unfold retryDelay, delay_for. destruct (rp_Backoff (c_policy c)) as [f|] eqn:Ef.
  - destruct (Hbackoff f (wrap64 (n - 1)) eq_refl (cs_ext s)) as (delay & e & E1).
    unfold wp, user, zoom. rewrite E1. split; [apply adv_ext|]. by eexists _, _.
  - apply wp_ret. split; [apply adv_refl|done].
Qed.

(** Fire OnRetry, ask for the delay, and put the message back. *)
Lemma runs_retry {A} n cause evs0 s s0 (x : A) :
  adv evs0 s s0 →
  wp (_ ← safeFire c OnRetry m cause; delay ← retryDelay (c_policy c) n;
      nk ← safeNack d true delay; _ ← finish nk; mret x)
    (λ b s', b = x ∧ ∃ delay o, delay_for c n delay ∧ settled (evs0 ++ [EvNack true delay o]) s s') s0.
Proof.
  intros Hadv. apply wp_bind. eapply wp_mono; [apply silent_fire|]. intros [] s1 H1.
  apply wp_bind. eapply wp_mono; [apply runs_retryDelay|]. intros delay s2 [H2 Hd].
  eapply wp_mono; [apply runs_nack_finish|]. intros b s3 (-> & o & Hs). split; [done|].
  exists delay, o. split; [done|]. apply (adv_settled evs0 _ _ _ _ Hadv).
  apply (adv_settled [] _ _ _ _ H1). by apply (adv_settled [] _ _ _ _ H2).
Qed.

Lemma runs_divert n cause t :
  exhausted c n →
  runs (divert c DeadLetterSink d OnDeadLetter cause n)
    (λ b s s', ∃ evs o, settled evs s s' ∧ EvSend DeadLetterSink m o ∈ evs ∧
       transient_fate c m n t evs (if b then evict (ID m) t else t)).
Proof.
  intros Hex s. unfold divert. apply wp_bind. eapply wp_mono; [apply runs_safeSend|].
  intros r s1 (o & H1 & Hr). destruct r as [err|].
  - eapply wp_mono; [apply (runs_retry n _ _ _ _ _ H1)|]. intros b s2 (-> & delay & o' & Hd & Hs).
    eexists _, o. split; [exact Hs|]. split; [left|]. apply FateDeadLetterRefused; naive_solver.
  - assert (o = Ret None) as -> by naive_solver.
    eapply wp_mono; [apply (runs_fire_ack _ _ _ _ _ H1)|]. intros b s2 (o' & Hs & ->).
    eexists _, (Ret None). split; [exact Hs|]. split; [left|]. by apply FateDeadLettered.
Qed.

Lemma runs_attempts s :
  wp (attempts c d) (λ n s', ∃ t1, counted m (cs_tracker s) n t1 ∧ s' = set_tracker t1 s) s.
Proof.
  unfold attempts, counted. cbn [d_Msg manage source_delivery d].
  destruct (Headers_Int _ _) as [dc|].
  - apply wp_ret. exists (cs_tracker s). split; [done|]. by destruct s.
  - unfold wp, tracker_observe. destruct (observe _ _ _) as [n t1] eqn:Eo.
    exists t1. split; [|done]. by eexists.
Qed.

Lemma finished_counted evs t' t1 s s' : finished evs t' (set_tracker t1 s) s' → finished evs t' s s'.
Proof. intros []. by split. Qed.

(** What happens to a message whose handler failed with a transient error. *)
Lemma runs_transient err :
  IsPermanent (Some err) = false →
  runs (n ← attempts c d;
        exhausted ← (if (0 <? rp_MaxAttempts (c_policy c)) && (rp_MaxAttempts (c_policy c) <=? n)
                     then nativeDL ← user (c_NativeDeadLetter c); mret (negb nativeDL)
                     else mret false);
        if (exhausted : bool) then
          settled ← divert c DeadLetterSink d OnDeadLetter err n;
          _ ← (if (settled : bool) then tracker_evict (ID m) else mret tt);
          mret (Some err)
        else
          _ ← safeFire c OnRetry m (Some err);
          delay ← retryDelay (c_policy c) n;
          nk ← safeNack d true delay;
          _ ← finish nk;
          mret (Some err))
    (λ r s s', r = Some err ∧ ∃ evs n t1 t', counted m (cs_tracker s) n t1 ∧
       transient_fate c m n t1 evs t' ∧ finished evs t' s s' ∧
       (exhausted c n → c_NativeDeadLetter c = mret false → ∃ o, EvSend DeadLetterSink m o ∈ evs)).
Proof.
  intros Hp s. apply wp_bind. eapply wp_mono; [apply runs_attempts|].
  intros n s1 (t1 & Hcnt & Es1). apply wp_bind.
  eapply (wp_mono _ (λ ex s', adv [] s1 s' ∧ (ex = true → exhausted c n) ∧
    (exhausted c n → c_NativeDeadLetter c = mret false → ex = true))).
  { unfold exhausted. destruct (_ && _) eqn:Ex.
    - apply wp_bind. unfold wp. pose proof (silent_user (c_NativeDeadLetter c) Hnative s1) as Hu.
      unfold wp in Hu. destruct (user (c_NativeDeadLetter c) s1) as [[b|v] s2] eqn:Eu; [|done].
      split; [exact Hu|]. bool_to_prop. split; [lia|]. intros _ Hn. rewrite Hn in Eu. by injection Eu as <- _.
    - apply wp_ret. split; [apply adv_refl|]. split; [done|]. intros [H1%Z.ltb_lt H2%Z.leb_le].
      by rewrite H1, H2 in Ex. }
  intros ex s2 (H2 & Hex & Hnat). destruct ex.
  - apply wp_bind. eapply wp_mono; [by apply (runs_divert n err t1), Hex|].
    intros b s3 (evs & o & Hs & Hin & Hf). pose proof (adv_settled [] _ _ _ _ H2 Hs) as Hs'. cbn in Hs'.
    assert (cs_tracker s1 = t1) as Ht1 by (by rewrite Es1).
    apply wp_bind. destruct b; apply wp_ret; apply wp_ret; (split; [done|]); eexists evs, n, t1, _;
      (split; [done|]); (split; [exact Hf|]); (split; [|by eexists]); apply (finished_counted _ _ t1);
      rewrite <- Es1, <- Ht1; [by apply finished_evict|by apply settled_finished].
  - eapply wp_mono; [apply (runs_retry n _ _ _ _ _ H2)|]. intros r s3 (-> & delay & o & Hd & Hs).
    split; [done|]. eexists _, n, t1, t1. split; [done|]. split; [by apply FateRetried|].
    split; [|intros He Hn; by specialize (Hnat He Hn)]. apply (finished_counted _ _ t1).
    assert (cs_tracker s1 = t1) as Ht1 by (by rewrite Es1). rewrite <- Es1, <- Ht1 at 1.
    by apply settled_finished.
Qed.

Lemma dispatch_runs :
  runs (dispatch c settle_done d)
    (λ err s s', ∃ evs t', protocol c m (cs_tracker s) err evs t' ∧ finished evs t' s s').
Proof.
  intros s. unfold dispatch. cbn [d_Msg manage source_delivery d].
  apply wp_bind. eapply wp_mono; [apply runs_decode|]. intros r s1 [H1 Hperm].
  pose proof (adv_tracker _ _ _ H1) as Ht1. destruct r as [derr|payload].
  { apply wp_bind. eapply wp_mono; [apply runs_divert_invalid|]. intros [] s2 (evs & t' & Hf & Hfin).
    apply wp_ret. exists evs, t'. rewrite Ht1 in Hf. split; [apply PUndecodable; auto|].
    by apply (adv_finished [] _ _ _ _ _ H1). }
  apply wp_bind. eapply wp_mono; [apply runs_safeHandle|]. intros r s2 H2.
  pose proof (adv_trans [] _ _ _ _ H1 H2) as H12. pose proof (adv_tracker _ _ _ H12) as Ht2.
  destruct r as [err|].
  - destruct (IsPermanent (Some err)) eqn:Ep.
    + apply wp_bind. eapply wp_mono; [apply runs_divert_invalid|]. intros [] s3 (evs & t' & Hf & Hfin).
      apply wp_ret. rewrite Ht2 in Hf. exists (EvHandled (Some err) :: evs), t'.
      split; [by apply PPermanent|]. by apply (adv_finished [_] _ _ _ _ _ H12).
    + eapply wp_mono; [by apply runs_transient|]. intros r s3 (-> & evs & n & t1 & t' & Hc & Hf & Hfin & Hx).
      rewrite Ht2 in Hc. exists (EvHandled (Some err) :: evs), t'.
      split; [by eapply PTransient|]. by apply (adv_finished [_] _ _ _ _ _ H12).
  - apply wp_bind. eapply wp_mono; [apply runs_ack|]. intros r s3 (o & Hs & Hr).
    apply wp_bind. eapply wp_mono; [apply silent_finish|]. intros [] s4 H4.
    pose proof (adv_settled _ _ _ _ _ H12 (settled_adv _ _ _ _ Hs H4)) as Hs4. cbn in Hs4.
    destruct r as [e|].
    + apply wp_ret. exists [EvHandled None; EvAck o], (cs_tracker s). split; [|by apply settled_finished].
      assert (accepted o = false) as Ho by (destruct o as [[|]|]; naive_solver).
      pose proof (PHandled c m (cs_tracker s) o) as Hp. unfold evicted in Hp. by rewrite Ho in Hp.
    + assert (o = Ret None) as -> by naive_solver.
      apply wp_bind. eapply wp_mono; [apply silent_fire|]. intros [] s5 H5.
      apply wp_bind, wp_modify, wp_ret.
      exists [EvHandled None; EvAck (Ret None)], (evict (ID m) (cs_tracker s)).
      split; [apply (PHandled c m _ (Ret None))|].
      exact (finished_evict _ s s5 (ID m) (settled_adv _ _ _ _ Hs4 H5)).
Qed.
End dispatch.

(** *** Processing *)

Lemma silent_dispatchAllowed b : silent (dispatchAllowed b).
Proof. unfold dispatchAllowed. destruct (cb_TryProbe b); apply silent_failing_open. Qed.

(** Releasing after a settlement changes nothing. *)
Lemma release_settled s : cs_released s = true → release_once s = (Ret tt, s).
Proof. intros Hr. unfold release_once, modify. by rewrite Hr. Qed.

Lemma wp_deferring_settled {A} (p : M S A) (Q : A → S → Prop) s :
  wp p (λ a s', cs_released s' = true ∧ Q a s') s → wp (deferring (λ _, release_once) p) Q s.
Proof.
  unfold wp, deferring. destruct (p s) as [[a|v] s']; [|done]. intros [Hr HQ].
  by rewrite (release_settled s' Hr).
Qed.

(** The fate of a delivery a worker received: put back undispatched, or
    dispatched, with the breaker told of the outcome. *)
Definition recorded (c : consumer) (err : option error) : list cevent :=
  match c_breaker c with
  | Some _ => [EvRecord (bool_decide (err = None) || IsPermanent err)]
  | None => []
  end.

Inductive process_fate (c : consumer) (drain_done : E → bool) (m : msg) (t : attemptTracker)
    : list cevent → attemptTracker → Prop :=
  | ProcRequeued r :
      (∃ e, drain_done e = true) ∨ is_Some (c_breaker c) →
      process_fate c drain_done m t [EvNack true 0 r] t
  | ProcDispatched err evs t' :
      protocol c m t err evs t' →
      process_fate c drain_done m t (evs ++ recorded c err) t'.

Lemma finished_adv evs evs' t s1 s2 s3 : finished evs t s1 s2 → adv evs' s2 s3 → finished (evs ++ evs') t s1 s3.
Proof.
  intros [Hc Ht Hr Hk] [Hc' Ht' Hr' Hk']. split; [by rewrite Hc', Hc, app_assoc|congruence..].
Qed.

Lemma process_runs c drain_done settle_done m ack nack :
  panic_free (c_NativeDeadLetter c) →
  (∀ f n, rp_Backoff (c_policy c) = Some f → panic_free (f n)) →
  runs (process c drain_done settle_done (manage (source_delivery m ack nack)))
    (λ _ s s', ∃ evs t', process_fate c drain_done m (cs_tracker s) evs t' ∧ finished evs t' s s').
Proof.
  intros Hnat Hback s. unfold process. apply wp_deferring_settled.
  set (d := manage (source_delivery m ack nack)).
  assert (∀ s0, adv [] s s0 → (∃ e, drain_done e = true) ∨ is_Some (c_breaker c) →
    wp (n ← safeNack d true 0; finish n) (λ _ s', cs_released s' = true ∧
      ∃ evs t', process_fate c drain_done m (cs_tracker s) evs t' ∧ finished evs t' s s') s0) as Hput.
  { intros s0 H0 Hwhy. apply wp_bind. eapply wp_mono; [apply runs_nack|]. intros r s1 (o & Hs & _).
    eapply wp_mono; [apply silent_finish|]. intros [] s2 H2.
    pose proof (adv_settled [] _ _ _ _ H0 (settled_adv _ _ _ _ Hs H2)) as Hs2.
    split; [apply Hs2|]. eexists _, _. split; [by apply (ProcRequeued _ _ _ _ o)|].
    by apply settled_finished. }
  apply wp_bind, wp_gets. destruct (drain_done (cs_ext s)) eqn:Ed.
  { apply Hput; [apply adv_refl|left; by eexists]. }
  apply wp_bind. eapply (wp_mono _ (λ b s', adv [] s s' ∧ (b = false → is_Some (c_breaker c)))).
  { destruct (c_breaker c) as [b|] eqn:Eb; [|apply wp_ret; split; [apply adv_refl|done]].
    eapply wp_mono; [apply silent_dispatchAllowed|]. by intros. }
  intros allowed s1 [H1 Hbr]. destruct allowed; cbn [negb]; [|apply Hput; auto].
  apply wp_bind. eapply wp_mono; [by apply dispatch_runs|]. intros err s2 (evs & t' & Hp & Hf).
  rewrite (adv_tracker _ _ _ H1) in Hp. pose proof (adv_finished [] _ _ _ _ _ H1 Hf) as Hf'. cbn in Hf'.
  pose proof (ProcDispatched c drain_done m (cs_tracker s) err evs t' Hp) as Hfate.
  unfold recorded in Hfate. destruct (c_breaker c) as [b|].
  - eapply wp_mono; [apply runs_record|]. intros [] s3 H3. pose proof (finished_adv _ _ _ _ _ _ Hf' H3) as Hf3.
    split; [apply Hf3|]. by eexists _, _.
  - apply wp_ret. rewrite app_nil_r in Hfate. split; [apply Hf'|]. by eexists _, _.
Qed.

(** *** Admission *)

Lemma runs_raw_nack m ack nack rq dl :
  runs (safeNack (source_delivery m ack nack) rq dl) (λ r s s', ∃ o, adv [EvNack rq dl o] s s').
Proof.
  intros s. eapply wp_mono.
  { apply (runs_recovered (EvNack rq dl)); [done|]. intros v. by apply runs_log_error. }
  intros r s' (o & Ha & _). by eexists.
Qed.

Lemma runs_refuse m ack nack rq go :
  runs (refuse (source_delivery m ack nack) rq go)
    (λ r s s', r = PutBack go ∧ ∃ o, adv [EvNack rq 0 o] s s').
Proof.
  intros s. apply wp_bind. eapply wp_mono; [apply runs_raw_nack|]. intros r s1 [o H1].
  apply wp_bind. eapply wp_mono; [apply silent_finish|]. intros [] s2 H2. apply wp_ret.
  split; [done|]. exists o. apply (adv_trans [_] [] _ _ _ H1 H2).
Qed.

Lemma silent_admit_loop fuel b wait : (∀ ch, panic_free (wait ch)) → silent (admit_loop fuel b wait).
Proof.
  intros Hw. induction fuel as [|fuel IH]; cbn [admit_loop]; [apply silent_ret|].
  apply silent_bind; [apply silent_failing_open|]. intros [|]; [apply silent_ret|].
  apply silent_bind.
  { unfold safeHalfOpen, failing_open. intros s. unfold wp, recovering, mbind, M_bind, user, zoom.
    destruct (cb_HalfOpen b (cs_ext s)) as [[ch|v] e]; [apply adv_ext|].
    pose proof (silent_governorPanic "CircuitBreaker.HalfOpen" (set_ext e s)) as Hg. unfold wp in Hg.
    destruct (governorPanic _ _) as [[[]|v'] s']; [|done]. apply (adv_trans [] [] _ _ _ (adv_ext e s) Hg). }
  intros [ch|]; [|apply silent_ret]. apply silent_bind; [apply silent_failing_open|].
  intros [|]; [apply silent_ret|]. apply silent_bind; [by apply silent_user|].
  intros [|]; [done|apply silent_ret].
Qed.

(** A credit taken from [s]: one more token, within the capacity. *)
Record took (c : consumer) (s s' : S) : Prop := {
  took_core : core (cs_trace s') = core (cs_trace s);
  took_tracker : cs_tracker s' = cs_tracker s;
  took_tokens : cs_tokens s' = cs_tokens s + 1;
  took_cap : cs_tokens s' ≤ c_maxInFlight c
}.

Lemma runs_tryAcquire c :
  runs (tryAcquire c) (λ got s s', if got then took c s s' else s' = s ∧ c_maxInFlight c ≤ cs_tokens s).
Proof.
  intros s. unfold wp, tryAcquire. destruct (_ <? _) eqn:El; bool_to_prop; [|done].
  split; cbn; try done. lia.
Qed.

Lemma runs_gate_acquire c ctx_done pick :
  runs (gate_acquire c ctx_done pick)
    (λ r s s', match r with Some true => took c s s' | _ => s' = s end).
Proof.
  intros s. apply wp_bind, wp_gets. destruct (_ && _); [by apply wp_ret|].
  apply wp_bind. eapply wp_mono; [apply runs_tryAcquire|]. intros [|] s' Hs; [by apply wp_ret|].
  destruct Hs as [-> _]. apply wp_ret. by destruct (ctx_done _).
Qed.

Definition sheds (p : OverflowPolicy) : bool :=
  match p with OverflowDropNewest | OverflowDropOldest | OverflowReject => true | _ => false end.

(** Where an admission leaves the delivery. *)
Definition admission (c : consumer) (r : admitted) (s s' : S) : Prop :=
  match r with
  | Handed => core (cs_trace s') = core (cs_trace s) ∧ cs_released s' = false ∧
      cs_tokens s' = cs_tokens s + 1 ∧ cs_tokens s' ≤ c_maxInFlight c
  | Waiting => core (cs_trace s') = core (cs_trace s) ∧ cs_tokens s' = cs_tokens s
  | PutBack goOn => ∃ o, core (cs_trace s') = core (cs_trace s) ++ [EvNack (negb goOn) 0 o] ∧
      cs_tokens s' = cs_tokens s ∧
      (goOn = true → sheds (c_overflow c) = true ∧ c_maxInFlight c ≤ cs_tokens s)
  end.

Lemma admission_put_back c o s s' : adv [EvNack true 0 o] s s' → admission c (PutBack false) s s'.
Proof. intros []. by exists o. Qed.

Lemma runs_credited c m ack nack room s s1 :
  took c s s1 →
  wp (_ ← modify (λ s, mkCState (cs_ext s) (cs_trace s) (cs_tracker s) (cs_tokens s) false
                         (cs_panicLogged s) (cs_fallbackLogged s));
      if (room : bool) then mret Handed else refuse (manage (source_delivery m ack nack)) true false)
    (λ r s', admission c r s s') s1.
Proof.
  intros []. apply wp_bind, wp_modify. destruct room; [by apply wp_ret|].
  apply wp_bind. eapply wp_mono; [apply runs_nack|]. intros r s2 (o & [H1 H2 H3 H4] & _).
  apply wp_bind. eapply wp_mono; [apply silent_finish|]. intros [] s3 [H5 H6 H7 H8]. apply wp_ret.
  exists o. cbn [cs_trace cs_tokens cs_released] in *. rewrite H5, H1, took_core0, app_nil_r.
  split; [done|]. split; [lia|done].
Qed.

Lemma runs_admit fuel c ctx_done pick room wait m ack nack :
  (∀ ch, panic_free (wait ch)) →
  runs (consumer_admit fuel c ctx_done pick room wait (source_delivery m ack nack)) (admission c).
Proof.
  intros Hw s. set (d := source_delivery m ack nack). unfold consumer_admit. apply wp_bind.
  eapply (wp_mono _ (λ _ s', adv [] s s')).
  { destruct (c_rateLimiter c); [apply silent_failing_open|apply silent_ret]. }
  assert (∀ s1, adv [] s s1 → wp (refuse d true false) (λ r s', admission c r s s') s1) as Hback.
  { intros s1 H1. eapply wp_mono; [apply runs_refuse|]. intros r s2 (-> & o & H2).
    eapply admission_put_back, (adv_trans [] _ _ _ _ H1 H2). }
  intros [err|] s1 H1; [by apply Hback|]. apply wp_bind. eapply (wp_mono _ (λ _ s', adv [] s s')).
  { unfold admitBreaker. destruct (c_breaker c) as [b|]; [|by apply wp_ret].
    eapply wp_mono; [by apply silent_admit_loop|]. intros r s2 H2. apply (adv_trans [] [] _ _ _ H1 H2). }
  intros [[|]|] s2 H2; [|by apply Hback|apply wp_ret; destruct H2 as [Hc _ _ Ht]; cbn; by rewrite Hc, app_nil_r].
  assert (∀ s3, took c s2 s3 → took c s s3) as Htook.
  { intros s3 [Ha Hb Hd He]. destruct H2 as [Hc Hk _ Ht]. rewrite app_nil_r in Hc. split; congruence. }
  apply wp_bind. destruct (c_overflow c) eqn:Eo.
  1, 5: eapply wp_mono; [apply runs_gate_acquire|]; intros [[|]|] s3 H3;
    [apply runs_credited; by apply Htook|subst; by apply Hback|].
  1, 2: subst; apply wp_ret; destruct H2 as [Hc _ _ Ht]; cbn; by rewrite Hc, app_nil_r.
  all: apply wp_bind; eapply wp_mono; [apply runs_tryAcquire|]; intros [|] s3 H3; apply wp_ret;
    [apply runs_credited; by apply Htook|]; destruct H3 as [-> Hfull].
  all: apply wp_bind; eapply wp_mono; [apply silent_fire|]; intros [] s4 H4;
    eapply wp_mono; [apply runs_refuse|]; intros r s5 (-> & o & H5);
    destruct (adv_trans [] _ _ _ _ H2 (adv_trans [] _ _ _ _ H4 H5)) as [Hc _ _ Ht];
    exists o; rewrite Hc, Ht, Eo; (split; [done|]); (split; [done|]); intros _; (split; [done|]);
    by rewrite <- (adv_tokens _ _ _ H2).
Qed.
End consumer.

Arguments consumer : clear implicits.
Arguments RetryPolicy : clear implicits.
Arguments CircuitBreaker : clear implicits.
Arguments Hooks : clear implicits.
Arguments consumerConfig : clear implicits.
Arguments Source : clear implicits.
Arguments Delivery : clear implicits.

(** ** Consequences of the protocol *)

Arguments IsPermanent : simpl never.

Definition is_settlement (ev : cevent) : bool :=
  match ev with EvAck _ | EvNack _ _ _ => true | _ => false end.
Definition settlements (evs : list cevent) : nat := length (filter is_settlement evs).

Section consequences.
Context {E T : Type} `{GoType T} (c : consumer E T) (m : msg).

Lemma invalid_fate_once cause t evs t' : invalid_fate c m cause t evs t' → settlements evs = 1%nat.
Proof. by destruct 1. Qed.

Lemma transient_fate_once n t evs t' : transient_fate c m n t evs t' → settlements evs = 1%nat.
Proof. by destruct 1. Qed.

Lemma protocol_once t err evs t' : protocol c m t err evs t' → settlements evs = 1%nat.
Proof.
  destruct 1 as [r|e evs t' _ Hf|e evs t' _ Hf|e n evs t1 t' _ _ Hf _]; [done|..].
  - by eapply invalid_fate_once.
  - rewrite <- (invalid_fate_once _ _ _ _ Hf). done.
  - rewrite <- (transient_fate_once _ _ _ _ Hf). done.
Qed.

(** The settlement is an Ack, or a Nack that requeues. *)
Lemma protocol_settled t err evs t' :
  protocol c m t err evs t' → (∃ r, EvAck r ∈ evs) ∨ (∃ dl r, EvNack true dl r ∈ evs).
Proof.
  destruct 1 as [r|e evs t' _ Hf|e evs t' _ Hf|e n evs t1 t' _ _ Hf _]; [|destruct Hf..];
    (left; eexists; by repeat econstructor) || (right; do 2 eexists; by repeat econstructor).
Qed.

Lemma settlements_app evs evs' : settlements (evs ++ evs') = (settlements evs + settlements evs')%nat.
Proof. unfold settlements. by rewrite list.filter_app, length_app. Qed.

Lemma process_fate_once drain_done t evs t' :
  process_fate c drain_done m t evs t' → settlements evs = 1%nat.
Proof.
  destruct 1 as [r _|err evs t' Hp]; [done|]. rewrite settlements_app, (protocol_once _ _ _ _ Hp).
  unfold recorded. by destruct (c_breaker c).
Qed.

(** Whether the handler failed transiently shows in the events. *)
Definition transient_failure (evs : list cevent) : Prop :=
  ∃ e, EvHandled (Some e) ∈ evs ∧ IsPermanent (Some e) = false.

Lemma fate_no_handled evs :
  (∃ cause t t', invalid_fate c m cause t evs t') ∨ (∃ n t t', transient_fate c m n t evs t') →
  ∀ r, EvHandled r ∉ evs.
Proof.
  intros [(cause & t & t' & Hf)|(n & t & t' & Hf)] r; destruct Hf;
    rewrite ?not_elem_of_cons; (split_and!; try done; apply not_elem_of_nil).
Qed.

Lemma protocol_transient t err evs t' :
  protocol c m t err evs t' →
  transient_failure evs ↔ bool_decide (err = None) || IsPermanent err = false.
Proof.
  destruct 1 as [r|e evs t' Hp Hf|e evs t' Hp Hf|e n evs t1 t' Hp _ Hf _].
  - split; [|done]. intros (e & [[=]|[[=]|[]%elem_of_nil]%elem_of_cons]%elem_of_cons & _).
  - cbn. rewrite Hp. split; [|done]. intros (e' & Hin & _). exfalso. revert Hin.
    apply fate_no_handled. left. eauto.
  - cbn. rewrite Hp. split; [|done]. intros (e' & [[= ->]|Hin]%elem_of_cons & Hp'); [congruence|].
    exfalso. revert Hin. apply fate_no_handled. left. eauto.
  - cbn. rewrite Hp. split; [done|]. intros _. exists e. split; [left|done].
Qed.

Lemma no_record t err evs t' b : protocol c m t err evs t' → EvRecord b ∉ evs.
Proof.
  destruct 1 as [r|e evs t' _ Hf|e evs t' _ Hf|e n evs t1 t' _ _ Hf _]; [|destruct Hf..];
    rewrite ?not_elem_of_cons; split_and!; try done; apply not_elem_of_nil.
Qed.
End consequences.

(** ** Properties *)

(** A consumer of live strings whose handler fails on "bad" and panics on
    "boom", whose dead-letter sink accepts, and which gives up after two
    attempts; its external state is the list of messages dead-lettered. *)
Definition demo_consumer : consumer (list msg) string :=
  mkConsumer StreamIngress
    (λ m, if bool_decide (msg_payload m = "bad") then mret (Some (Sentinel (OtherSentinel "bad")))
          else if bool_decide (msg_payload m = "boom") then panic "boom" else mret None)
    None true 1
    (mkRetryPolicy 2 (Some (λ n, mret (100 * n))) (Some (λ m l, (Ret None, l ++ [m]))))
    None (mkHooks None None None None) 0 (λ _, 7) (mret false) 1000 10 None 0
    (Some (mkCircuitBreaker (mret true) (λ _, mret tt) (mret 0%nat) None)) OverflowBlock 0 1 1.

Definition demo_state : cstate (list msg) := mkCState [] [] ∅ 1 false ∅ false.
Definition demo_delivery (id : string) : Delivery (list msg) :=
  manage (source_delivery (sample id) (mret None) (λ _ _, mret None)).

Lemma demo_native : panic_free (c_NativeDeadLetter demo_consumer).
Proof. apply panic_free_ret. Qed.
Lemma demo_backoff f n : rp_Backoff (c_policy demo_consumer) = Some f → panic_free (f n).
Proof. intros [= <-]. apply panic_free_ret. Qed.

(** C3. Every delivery a worker takes is settled exactly once and its credit
    returned exactly once, whatever the handler, codec, sinks, hooks, breaker
    and the delivery's own Ack and Nack do, panics included (only a panic of
    the policy's Backoff or of the source's NativeDeadLetter is not
    contained). *)
Theorem process_settles_once {E T} `{GoType T} (c : consumer E T) drain_done settle_done m ack nack s :
  panic_free (c_NativeDeadLetter c) →
  (∀ f n, rp_Backoff (c_policy c) = Some f → panic_free (f n)) →
  cs_released s = false →
  ∃ s' evs, process c drain_done settle_done (manage (source_delivery m ack nack)) s = (Ret tt, s') ∧
    core (cs_trace s') = core (cs_trace s) ++ evs ∧ settlements evs = 1%nat ∧
    cs_released s' = true ∧ cs_tokens s' = cs_tokens s - 1.
Proof.
  intros Hn Hb Hr. destruct (wp_run _ _ _ (process_runs c drain_done settle_done m ack nack Hn Hb s))
    as ([] & s' & Hp & evs & t' & Hf & []). exists s', evs. rewrite Hr in fin_tokens0.
  split; [done|]. split; [done|]. split; [by eapply process_fate_once|done].
Qed.

Lemma process_settles_once_witness :
  ∃ s' evs, process demo_consumer (λ _, false) (λ _, false) (demo_delivery "boom") demo_state = (Ret tt, s') ∧
    core (cs_trace s') = [] ++ evs ∧ settlements evs = 1%nat ∧
    cs_released s' = true ∧ cs_tokens s' = 1 - 1.
Proof.
  apply (process_settles_once demo_consumer (λ _, false) (λ _, false) (sample "boom") (mret None)
           (λ _ _, mret None) demo_state).
  - exact demo_native.
  - exact demo_backoff.
  - reflexivity.
Defined.

(** C26. A message is acknowledged only with a reason, and put back otherwise: a
    dispatch settles it exactly once; if by an Ack, then the handler returned
    nil, or the failure is permanent, or the dead-letter sink accepted the
    message; if not by an Ack, then by a Nack that requeues it, and the
    dispatch reports the failure. *)
Theorem ack_needs_reason {E T} `{GoType T} (c : consumer E T) settle_done m ack nack s err s' :
  panic_free (c_NativeDeadLetter c) →
  (∀ f n, rp_Backoff (c_policy c) = Some f → panic_free (f n)) →
  dispatch c settle_done (manage (source_delivery m ack nack)) s = (Ret err, s') →
  ∃ evs, core (cs_trace s') = core (cs_trace s) ++ evs ∧ settlements evs = 1%nat ∧
  (∀ r, EvAck r ∈ evs →
     match err with
     | None => EvHandled None ∈ evs
     | Some e => IsPermanent (Some e) = true ∨ EvSend DeadLetterSink m (Ret None) ∈ evs
     end) ∧
  (∀ rq dl r, EvNack rq dl r ∈ evs → rq = true ∧ err ≠ None) ∧
  ((∃ r, EvAck r ∈ evs) ∨ (∃ dl r, EvNack true dl r ∈ evs)).
Proof.
  intros Hn Hb Hd. pose proof (dispatch_runs c settle_done m ack nack Hn Hb s) as Hw.
  unfold wp in Hw. rewrite Hd in Hw. destruct Hw as (evs & t' & Hp & []). exists evs. split; [done|].
  split; [by eapply protocol_once|]. pose proof (protocol_settled _ _ _ _ _ _ Hp) as Hset.
  destruct Hp as [r|e evs t' Hperm Hf|e evs t' Hperm Hf|e n evs t1 t' _ _ Hf _]; [set_solver|..];
    destruct Hf; set_solver.
Qed.

Lemma ack_needs_reason_witness :
  let s' := (dispatch demo_consumer (λ _, false) (demo_delivery "bad") demo_state).2 in
  ∃ evs, core (cs_trace s') = [] ++ evs ∧ settlements evs = 1%nat ∧
  (∀ r, EvAck r ∈ evs →
     IsPermanent (Some (Sentinel (OtherSentinel "bad"))) = true ∨
     EvSend DeadLetterSink (sample "bad") (Ret None) ∈ evs) ∧
  (∀ rq dl r, EvNack rq dl r ∈ evs → rq = true ∧ Some (Sentinel (OtherSentinel "bad")) ≠ None) ∧
  ((∃ r, EvAck r ∈ evs) ∨ (∃ dl r, EvNack true dl r ∈ evs)).
Proof.
  apply (ack_needs_reason demo_consumer (λ _, false) (sample "bad") (mret None) (λ _ _, mret None)
           demo_state (Some (Sentinel (OtherSentinel "bad")))).
  - exact demo_native.
  - exact demo_backoff.
  - vm_compute. reflexivity.
Defined.



(** An over-size message never reaches the handler or the dead-letter sink:
    a wire payload above the byte cap is sent, if anywhere, to the
    invalid-message sink, and settled. *)
Theorem oversize_never_dead_lettered {E T} `{GoType T} (c : consumer E T) settle_done m ack nack s b :
  c_liveValue c = false → msg_payload m = ABytes b →
  0 < c_maxPayloadBytes c < Z.of_nat (length b) →
  ∃ s' evs, dispatch c settle_done (manage (source_delivery m ack nack)) s =
      (Ret (Some (Sentinel ErrPayloadTooLarge)), s') ∧
    core (cs_trace s') = core (cs_trace s) ++ evs ∧ settlements evs = 1%nat ∧
    (∀ r, EvHandled r ∉ evs) ∧ (∀ m' r, EvSend DeadLetterSink m' r ∉ evs).
Proof.
  intros Hl Hb Hsz.
  assert (wp (dispatch c settle_done (manage (source_delivery m ack nack))) (λ err s', err =
    Some (Sentinel ErrPayloadTooLarge) ∧ ∃ evs t', invalid_fate c m (Sentinel ErrPayloadTooLarge)
      (cs_tracker s) evs t' ∧ finished evs t' s s') s) as Hw.
  { unfold dispatch, decode. cbn [d_Msg manage source_delivery]. rewrite Hl, Hb. cbn [type_assert GoType_bytes].
    replace (_ && _) with true by (symmetry; apply andb_true_iff; rewrite !Z.ltb_lt; lia).
    apply wp_bind, wp_ret, wp_bind. eapply wp_mono; [apply runs_divert_invalid|].
    intros [] s' Hf. by apply wp_ret. }
  destruct (wp_run _ _ _ Hw) as (err & s' & Hd & -> & evs & t' & Hf & []).
  exists s', evs. split; [done|]. split; [done|]. split; [by eapply invalid_fate_once|].
  split; [apply (fate_no_handled c m); left; eauto|]. intros m' r.
  assert ((invalidTarget c (Sentinel ErrPayloadTooLarge)).1 ≠ Some DeadLetterSink) as Ht
    by (unfold invalidTarget; by case_bool_decide).
  destruct Hf; rewrite ?not_elem_of_cons; split_and!; try done; try apply not_elem_of_nil; congruence.
Qed.

Definition demo_wire : consumer (list msg) string :=
  mkConsumer StreamIngress (λ _, mret None)
    (Some (mkCodec (λ _, Ret (inl (Sentinel ErrPayloadDecode))) (λ _, Panic "codec"))) false 1
    (mkRetryPolicy 2 None (Some (λ m l, (Ret None, l ++ [m]))))
    None (mkHooks None None None None) 0 (λ _, 7) (mret false) 1000 10 None 0 None OverflowBlock 2 1 1.
Definition demo_oversize : msg := NewMessage (ABytes (String.list_ascii_of_string "abc")) (mkHeaders None).

Lemma oversize_never_dead_lettered_witness :
  ∃ s' evs, dispatch demo_wire (λ _, false)
      (manage (source_delivery demo_oversize (mret None) (λ _ _, mret None))) demo_state =
      (Ret (Some (Sentinel ErrPayloadTooLarge)), s') ∧
    core (cs_trace s') = [] ++ evs ∧ settlements evs = 1%nat ∧
    (∀ r, EvHandled r ∉ evs) ∧ (∀ m' r, EvSend DeadLetterSink m' r ∉ evs).
Proof.
  apply (oversize_never_dead_lettered demo_wire (λ _, false) demo_oversize (mret None) (λ _ _, mret None)
    demo_state (String.list_ascii_of_string "abc")).
  - reflexivity.
  - reflexivity.
  - vm_compute. split; reflexivity.
Defined.

Definition is_record (ev : cevent) : bool := match ev with EvRecord _ => true | _ => false end.

(** The breaker is told the truth: processing a delivery records at most one
    outcome, and it records a failure exactly when the handler failed with a
    transient error; a success, a permanent failure and an undecodable message
    count as healthy, and a message put back undispatched is not counted. *)
Theorem breaker_signal {E T} `{GoType T} (c : consumer E T) drain_done settle_done m ack nack s :
  panic_free (c_NativeDeadLetter c) →
  (∀ f n, rp_Backoff (c_policy c) = Some f → panic_free (f n)) →
  is_Some (c_breaker c) →
  ∃ s' evs, process c drain_done settle_done (manage (source_delivery m ack nack)) s = (Ret tt, s') ∧
    core (cs_trace s') = core (cs_trace s) ++ evs ∧
    (EvRecord false ∈ evs ↔ transient_failure evs) ∧ (length (filter is_record evs) ≤ 1)%nat.
Proof.
  intros Hn Hb [b Hbr]. destruct (wp_run _ _ _ (process_runs c drain_done settle_done m ack nack Hn Hb s))
    as ([] & s' & Hp & evs & t' & Hf & []). exists s', evs. split; [done|]. split; [done|].
  destruct Hf as [r _|err evs t' Hproto].
  - split; [|rewrite filter_cons_False by (by intros []); cbn; lia]. split; [set_solver|]. intros (e & Hin & _). set_solver.
  - pose proof (protocol_transient c m _ _ _ _ Hproto) as Ht.
    assert (∀ b, EvRecord b ∉ evs) as Hnr by (intros b'; by eapply no_record).
    unfold recorded. rewrite Hbr. split.
    + assert (transient_failure (evs ++ [EvRecord (bool_decide (err = None) || IsPermanent err)]) ↔
        transient_failure evs) as ->.
      { unfold transient_failure. split; intros (e & Hin & He); exists e; (split; [|done]); set_solver. }
      rewrite Ht, elem_of_app, list_elem_of_singleton. split; [naive_solver|]. intros ->. by right.
    + rewrite list.filter_app, length_app. rewrite (filter_none is_record evs); [done|].
      apply Forall_forall. intros ev Hin Hev. destruct ev; try done. by eapply Hnr.
Qed.

Lemma breaker_signal_witness :
  ∃ s' evs, process demo_consumer (λ _, false) (λ _, false) (demo_delivery "boom") demo_state = (Ret tt, s') ∧
    core (cs_trace s') = [] ++ evs ∧
    (EvRecord false ∈ evs ↔ transient_failure evs) ∧ (length (filter is_record evs) ≤ 1)%nat.
Proof.
  apply (breaker_signal demo_consumer (λ _, false) (λ _, false) (sample "boom") (mret None)
           (λ _ _, mret None) demo_state).
  - exact demo_native.
  - exact demo_backoff.
  - by eexists.
Defined.

Lemma setting_ok isSet v dflt invalid n (P : Z → Prop) :
  setting isSet v dflt invalid = inr n → P dflt → (∀ v, invalid v = None → P v) → P n.
Proof.
  unfold setting. destruct isSet; [|by intros [= <-]].
  destruct (invalid v) eqn:Ei; [done|]. intros [= <-] _ HP. by apply HP.
Qed.

(** C23. A consumer that is accepted is well configured: its worker, credit, poll
    and tracker settings are in range, a finite attempt budget comes with the
    dead-letter sink it needs, a wire source has a codec and a live-value
    source has none forced on it, and no option was nil. *)
Theorem new_consumer_sound {E T} `{GoType T} json clock src h opts (c : consumer E T) :
  NewConsumer json clock src h opts = inr c →
  1 ≤ c_workers c ≤ 65536 ∧ 1 ≤ c_maxInFlight c ≤ 1048576 ∧
  0 < c_attemptTTL c ∧ 0 < c_pollInterval c ∧ 1 ≤ c_pollMaxBatch c ∧
  0 ≤ rp_MaxAttempts (c_policy c) ∧
  (0 < rp_MaxAttempts (c_policy c) → is_Some (rp_DeadLetter (c_policy c))) ∧
  (c_liveValue c = false → is_Some (c_codec c)) ∧
  is_Some src ∧ is_Some h ∧ None ∉ opts.
Proof.
  unfold NewConsumer. destruct src as [src|]; [|done]. destruct h as [h|]; [|done].
  match goal with |- context [apply_opts opts ?cfg0] => pose proof (apply_opts_cases opts cfg0) as Hopts end.
  destruct (apply_opts opts _) as [i|cfg]; [done|].
  destruct (checkRange _ _ _ _ _) eqn:Hcc; [done|]. apply checkRange_ok in Hcc.
  change concurrencyCeiling with 65536 in Hcc.
  destruct (Validate _) eqn:Hv; [done|].
  destruct (setting (cc_maxInFlightSet cfg) _ _ _) as [|mi] eqn:Hmi; [done|].
  destruct (setting (cc_attemptTTLSet cfg) _ _ _) as [|ttl] eqn:Httl; [done|].
  destruct (setting (cc_pollIntervalSet cfg) _ _ _) as [|pi] eqn:Hpi; [done|].
  destruct (setting (cc_pollMaxBatchSet cfg) _ _ _) as [|pb] eqn:Hpb; [done|].
  destruct (resolveCodec _ _ _ _) as [|[codec live]] eqn:Hres; [done|].
  destruct (if src_eventDriven src then _ else _); [|done]. intros [= <-]. cbn.
  apply (setting_ok _ _ _ _ _ (λ n, 1 ≤ n ≤ 1048576)) in Hmi;
    [|vm_compute; split; discriminate|intros v Hr; by apply checkRange_ok in Hr].
  apply (setting_ok _ _ _ _ _ (λ n, 0 < n)) in Httl; [|done|intros v; destruct (v <=? 0) eqn:Ev; by bool_to_prop].
  apply (setting_ok _ _ _ _ _ (λ n, 0 < n)) in Hpi; [|done|intros v; destruct (v <=? 0) eqn:Ev; by bool_to_prop].
  apply (setting_ok _ _ _ _ _ (λ n, 1 ≤ n)) in Hpb; [|done|intros v; destruct (v <? 1) eqn:Ev; by bool_to_prop].
  unfold Validate in Hv. destruct (_ <? 0) eqn:H0; [done|]. destruct (_ && _) eqn:H1; [done|]. bool_to_prop.
  split_and!; try done; try lia.
  - intros Hpos%Z.ltb_lt. rewrite Hpos in H1. cbn in H1. bool_to_prop. by apply not_eq_None_Some.
  - intros ->. unfold resolveCodec in Hres. destruct (isLiveValue _); cbn in Hres.
    + by destruct (cc_codecSet cfg).
    + case_bool_decide as Hc; injection Hres as <-; [done|]. by apply not_eq_None_Some.
Qed.

Lemma new_consumer_sound_witness :
  let src := mkSource true false (Some true) None in
  match NewConsumer (E := unit) (T := string) (mkCodec (λ _, Ret (inr [])) (λ _, Ret (inr "")))
          (λ _, 0) (Some src) (Some (λ _, mret None)) [] with
  | inr c => 1 ≤ c_workers c ≤ 65536
  | inl _ => False
  end.
Proof.
  eapply (new_consumer_sound (E := unit) (T := string) (mkCodec (λ _, Ret (inr [])) (λ _, Ret (inr "")))
    (λ _, 0) (Some (mkSource true false (Some true) None)) (Some (λ _, mret None)) []). reflexivity.
Defined.

(** A range is checked whatever else is set: a consumer with a worker count or an
    in-flight limit out of its range is refused, and the last setting is the one that
    counts. *)
Theorem consumer_limits_exact {E T} `{GoType T} json clock src h n n' k :
  let c := NewConsumer (E := E) (T := T) json clock (Some src) (Some h)
             [Some (WithConcurrency n'); Some (WithConcurrency n); Some (WithMaxInFlight k)] in
  src_eventDriven src = true →
  match c with
  | inr c => c_workers c = n ∧ c_maxInFlight c = k ∧ 1 ≤ n ≤ 65536 ∧ 1 ≤ k ≤ 1048576
  | inl err => (¬ 1 ≤ n ≤ 65536 ∧ Is err ErrInvalidConcurrency = true) ∨
               (¬ 1 ≤ k ≤ 1048576 ∧ Is err ErrInvalidMaxInFlight = true)
  end.
Proof.
  intros c Hs. unfold c, NewConsumer. clear c. cbn [apply_opts apply_opts_from]. cbn -[checkRange concurrencyCeiling maxInFlightCeiling resolveCodec].
  change concurrencyCeiling with 65536. change maxInFlightCeiling with 1048576.
  unfold checkRange. destruct ((1 <=? n) && (n <=? 65536)) eqn:En; [|left; split; [lia|done]].
  destruct ((1 <=? k) && (k <=? 1048576)) eqn:Ek; [|right; split; [lia|done]].
  unfold resolveCodec. rewrite andb_false_r, Hs. destruct (isLiveValue _); cbn; lia.
Qed.

(** Admission on the push path neither loses a delivery nor a credit, also
    when the rate limiter or the breaker panic: a delivery is handed to the
    workers with exactly one credit, within the in-flight limit, or it is
    Nacked exactly once and holds no credit; and it is Nacked without a
    requeue only under a shedding overflow policy with all credits taken, in
    which case ingestion goes on. *)
Theorem admit_accounts {E T} `{GoType T} fuel (c : consumer E T) ctx_done pick room wait m ack nack s :
  (∀ ch, panic_free (wait ch)) →
  ∃ r s', consumer_admit fuel c ctx_done pick room wait (source_delivery m ack nack) s = (Ret r, s') ∧
  match r with
  | Handed => core (cs_trace s') = core (cs_trace s) ∧ cs_released s' = false ∧
      cs_tokens s' = cs_tokens s + 1 ∧ cs_tokens s' ≤ c_maxInFlight c
  | Waiting => core (cs_trace s') = core (cs_trace s) ∧ cs_tokens s' = cs_tokens s
  | PutBack goOn => ∃ o, core (cs_trace s') = core (cs_trace s) ++ [EvNack (negb goOn) 0 o] ∧
      cs_tokens s' = cs_tokens s ∧
      (goOn = true → sheds (c_overflow c) = true ∧ c_maxInFlight c ≤ cs_tokens s)
  end.
Proof. intros Hw. exact (wp_run _ _ _ (runs_admit fuel c ctx_done pick room wait m ack nack Hw s)). Qed.

Lemma admit_accounts_witness :
  ∃ r s', consumer_admit 3 demo_consumer (λ _, true) false true (λ _, mret true)
            (source_delivery (sample "a") (mret None) (λ _ _, panic "nack")) demo_state = (Ret r, s') ∧
  match r with
  | Handed => core (cs_trace s') = [] ∧ cs_released s' = false ∧
      cs_tokens s' = 1 + 1 ∧ cs_tokens s' ≤ 10
  | Waiting => core (cs_trace s') = [] ∧ cs_tokens s' = 1
  | PutBack goOn => ∃ o, core (cs_trace s') = [] ++ [EvNack (negb goOn) 0 o] ∧
      cs_tokens s' = 1 ∧ (goOn = true → sheds OverflowBlock = true ∧ 10 ≤ 1)
  end.
Proof.
  apply (admit_accounts 3 demo_consumer (λ _, true) false true (λ _, mret true) (sample "a") (mret None)
    (λ _ _, panic "nack") demo_state). intros ch. apply panic_free_ret.
Defined.
