(* ===== verification/ConsumerRun.v ===== *)
(** * A consumer running over the in-memory broker

    The goroutines of [Run] in [endpoint/consumer.go] (the caller's, on which
    [Stream] runs and which then drains; the ingress; the workers) composed with
    the broker of [adapter/memory/memory.go] they read from and requeue into, as
    one machine: a step is one channel operation, one acquisition or release of a
    credit, or the end of a user's call.  What a worker does between taking a
    delivery and settling it is [Consumer.process], which settles once and
    releases the credit first; here it is the time it takes and how it ends.

    A send on a full channel waits in the channel's queue of senders, which is
    served in order.  The ends of the limiter's and the breaker's waits and of the
    handlers, the timer and the cancellation come at any time. *)

From S2P Require Import Prelude.
Local Open Scope Z_scope.

(** Messages, by identity. *)
Abbreviation message := nat (only parsing).

Inductive sender : Type := Producer | Worker (i : nat) | Ingress.
#[export] Instance sender_eq_dec : EqDecision sender.
Proof. solve_decision. Defined.

(** [Stream]: receiving from the broker, handing a delivery on, returned. *)
Inductive stream_at : Type := SRecv | SSend (m : message) | SDone.
(** [ingest] and [admit]: receiving, in the limiter or the breaker, acquiring a
    credit, handing on to the workers, putting the delivery back, waiting in the
    broker to do so, returned. *)
Inductive ingress_at : Type :=
  | IRecv | IAdmit (m : message) | IAcquire (m : message) | IHand (m : message)
  | IPut (m : message) | IWait | IExit.
(** A worker: at its range, processing a delivery, waiting in the broker to put
    it back, returned. *)
Inductive worker_at : Type := WIdle | WRun (m : message) | WWait | WExit.
(** [Run]: in [Stream], draining before and after the timeout, joining the
    ingress, returned. *)
Inductive main_at : Type := MStream | MDrain | MLate | MJoin | MReturned.

Record run : Type := mkRun {
  r_ctx : bool;                        (** the context is done *)
  r_buf : list message;                (** the broker's channel *)
  r_sendq : list (sender * message);   (** and the senders waiting on it *)
  r_stream : stream_at;
  r_ingress : ingress_at;
  r_ch : list message;                 (** [workerCh] *)
  r_workers : list worker_at;
  r_tokens : Z;                        (** the credits taken *)
  r_main : main_at;
  r_produced : list message;           (** everything producers have sent *)
  r_done : list message;               (** settled without a requeue, or shed *)
  r_lost : list message                (** given up by a cancelled send *)
}.

Section machine.
(** [WithBuffer], [WithConcurrency], [WithMaxInFlight], and whether the overflow
    policy sheds. *)
Context (B N : nat) (M : Z) (shed : bool).

Definition Start : run :=
  mkRun false [] [] SRecv IRecv [] (replicate N WIdle) 0 MStream [] [] [].

Definition with_broker (s : run) buf sendq : run :=
  mkRun (r_ctx s) buf sendq (r_stream s) (r_ingress s) (r_ch s) (r_workers s) (r_tokens s) (r_main s)
    (r_produced s) (r_done s) (r_lost s).
Definition with_stream (s : run) st : run :=
  mkRun (r_ctx s) (r_buf s) (r_sendq s) st (r_ingress s) (r_ch s) (r_workers s) (r_tokens s) (r_main s)
    (r_produced s) (r_done s) (r_lost s).
Definition with_ingress (s : run) i : run :=
  mkRun (r_ctx s) (r_buf s) (r_sendq s) (r_stream s) i (r_ch s) (r_workers s) (r_tokens s) (r_main s)
    (r_produced s) (r_done s) (r_lost s).
Definition with_ch (s : run) ch : run :=
  mkRun (r_ctx s) (r_buf s) (r_sendq s) (r_stream s) (r_ingress s) ch (r_workers s) (r_tokens s) (r_main s)
    (r_produced s) (r_done s) (r_lost s).
Definition with_worker (s : run) (i : nat) w : run :=
  mkRun (r_ctx s) (r_buf s) (r_sendq s) (r_stream s) (r_ingress s) (r_ch s) (<[i := w]> (r_workers s))
    (r_tokens s) (r_main s) (r_produced s) (r_done s) (r_lost s).
Definition with_tokens (s : run) n : run :=
  mkRun (r_ctx s) (r_buf s) (r_sendq s) (r_stream s) (r_ingress s) (r_ch s) (r_workers s) n (r_main s)
    (r_produced s) (r_done s) (r_lost s).
Definition with_main (s : run) m : run :=
  mkRun (r_ctx s) (r_buf s) (r_sendq s) (r_stream s) (r_ingress s) (r_ch s) (r_workers s) (r_tokens s) m
    (r_produced s) (r_done s) (r_lost s).
Definition finished_with (s : run) (m : message) : run :=
  mkRun (r_ctx s) (r_buf s) (r_sendq s) (r_stream s) (r_ingress s) (r_ch s) (r_workers s) (r_tokens s)
    (r_main s) (r_produced s) (r_done s ++ [m]) (r_lost s).

Definition losing (s : run) (m : message) : run :=
  mkRun (r_ctx s) (r_buf s) (r_sendq s) (r_stream s) (r_ingress s) (r_ch s) (r_workers s) (r_tokens s)
    (r_main s) (r_produced s) (r_done s) (r_lost s ++ [m]).

Definition producing (s : run) (m : message) : run :=
  mkRun (r_ctx s) (r_buf s) (r_sendq s) (r_stream s) (r_ingress s) (r_ch s) (r_workers s) (r_tokens s)
    (r_main s) (r_produced s ++ [m]) (r_done s) (r_lost s).
Definition cancelled (s : run) : run :=
  mkRun true (r_buf s) (r_sendq s) (r_stream s) (r_ingress s) (r_ch s) (r_workers s) (r_tokens s)
    (r_main s) (r_produced s) (r_done s) (r_lost s).

(** [b.ch <- m]: at once into the buffer, or into the queue of senders. *)
Definition room (s : run) : bool := bool_decide (length (r_buf s) < B)%nat.
Definition send (s : run) (who : sender) (m : message) : run :=
  if room s then with_broker s (r_buf s ++ [m]) (r_sendq s)
  else with_broker s (r_buf s) (r_sendq s ++ [(who, m)]).
(** [<-b.ch] *)
Definition recv (s : run) : option (message * run) :=
  match r_buf s, r_sendq s with
  | m :: buf, [] => Some (m, with_broker s buf [])
  | m :: buf, (_, m') :: q => Some (m, with_broker s (buf ++ [m']) q)
  | [], (_, m) :: q => Some (m, with_broker s [] q)
  | [], [] => None
  end.
Definition waiting (s : run) (who : sender) : bool := bool_decide (who ∈ (r_sendq s).*1).
(** A cancelled send leaves the queue, and its message with it. *)
Definition withdraw (s : run) (who : sender) : run :=
  mkRun (r_ctx s) (r_buf s) (filter (λ wm, wm.1 ≠ who) (r_sendq s)) (r_stream s) (r_ingress s) (r_ch s)
    (r_workers s) (r_tokens s) (r_main s) (r_produced s) (r_done s)
    (r_lost s ++ (filter (λ wm, wm.1 = who) (r_sendq s)).*2).
(** A send on the settlement's context is refused, or gives up, once the drain's
    timeout has cancelled it. *)
Definition late (s : run) : bool := match r_main s with MLate => true | _ => false end.

Inductive step : Type :=
  | Produce (m : message)
  | Cancel
  | StreamRecv | StreamSend | StreamReturn
  | IngressAdmit | IngressAcquire | IngressHand | IngressStop
  | IngressPut (refused : bool) | IngressPutDone | IngressGiveUp
  | WorkerTake (i : nat) | WorkerExit (i : nat)
  | WorkerFinish (i : nat) (requeue refused : bool) | WorkerPutDone (i : nat) | WorkerGiveUp (i : nat)
  | MainDrain | MainTimeout | MainJoin | MainReturn.

(** [Stream], which hands on what it receives until the context is done. *)
Definition Stream_turn (s : run) (st : step) : option run :=
  match st with
  | StreamRecv =>
      match r_stream s, recv s with
      | SRecv, Some (m, s') => Some (with_stream s' (SSend m))
      | _, _ => None
      end
  | StreamSend =>
      match r_stream s, r_ingress s with
      | SSend m, IRecv => Some (with_ingress (with_stream s SRecv) (IAdmit m))
      | _, _ => None
      end
  | StreamReturn =>
      if r_ctx s then
        match r_stream s with
        | SRecv => Some (with_stream s SDone)
        | SSend m => Some (with_stream (losing s m) SDone)
        | SDone => None
        end
      else None
  | _ => None
  end.
(** [ingest] and [admit]. *)
Definition ingest_turn (s : run) (st : step) : option run :=
  match st with
  | IngressAdmit =>
      match r_ingress s with IAdmit m => Some (with_ingress s (IAcquire m)) | _ => None end
  | IngressAcquire =>
      match r_ingress s with
      | IAcquire m =>
          if r_tokens s <? M then Some (with_ingress (with_tokens s (r_tokens s + 1)) (IHand m))
          else if shed then Some (with_ingress (finished_with s m) IRecv) else None
      | _ => None
      end
  | IngressHand =>
      match r_ingress s with
      | IHand m =>
          if Z.of_nat (length (r_ch s)) <? M
          then Some (with_ingress (with_ch s (r_ch s ++ [m])) IRecv) else None
      | _ => None
      end
  | IngressStop =>
      match r_ingress s with
      | IRecv =>
          if r_ctx s || (match r_main s with MStream => false | _ => true end)
          then Some (with_ingress s IExit) else None
      | IAdmit m => if r_ctx s then Some (with_ingress s (IPut m)) else None
      | IAcquire m => if r_ctx s && negb shed then Some (with_ingress s (IPut m)) else None
      | IHand m => if r_ctx s then Some (with_ingress (with_tokens s (r_tokens s - 1)) (IPut m)) else None
      | _ => None
      end
  | IngressPut refused =>
      match r_ingress s with
      | IPut m =>
          if refused then if late s then Some (with_ingress (losing s m) IExit) else None
          else Some (with_ingress (send s Ingress m) (if room s then IExit else IWait))
      | _ => None
      end
  | IngressPutDone =>
      match r_ingress s with
      | IWait => if waiting s Ingress then None else Some (with_ingress s IExit)
      | _ => None
      end
  | IngressGiveUp =>
      match r_ingress s with
      | IWait => if late s then Some (with_ingress (withdraw s Ingress) IExit) else None
      | _ => None
      end
  | _ => None
  end.
(** The workers; [workerCh] is closed when the ingress has returned. *)
Definition worker_turn (s : run) (st : step) : option run :=
  match st with
  | WorkerTake i =>
      match r_workers s !! i, r_ch s with
      | Some WIdle, m :: ch => Some (with_worker (with_ch s ch) i (WRun m))
      | _, _ => None
      end
  | WorkerExit i =>
      match r_workers s !! i, r_ch s, r_ingress s with
      | Some WIdle, [], IExit => Some (with_worker s i WExit)
      | _, _, _ => None
      end
  | WorkerFinish i requeue refused =>
      match r_workers s !! i with
      | Some (WRun m) =>
          let s1 := with_tokens s (r_tokens s - 1) in
          if requeue then
            if refused then if late s then Some (with_worker (losing s1 m) i WIdle) else None
            else Some (with_worker (send s1 (Worker i) m) i (if room s then WIdle else WWait))
          else Some (with_worker (finished_with s1 m) i WIdle)
      | _ => None
      end
  | WorkerPutDone i =>
      match r_workers s !! i with
      | Some WWait => if waiting s (Worker i) then None else Some (with_worker s i WIdle)
      | _ => None
      end
  | WorkerGiveUp i =>
      match r_workers s !! i with
      | Some WWait => if late s then Some (with_worker (withdraw s (Worker i)) i WIdle) else None
      | _ => None
      end
  | _ => None
  end.
(** [drainWorkers] *)
Definition drain_turn (s : run) (st : step) : option run :=
  match st with
  | MainTimeout => match r_main s with MDrain => Some (with_main s MLate) | _ => None end
  | MainJoin =>
      match r_main s with
      | MDrain | MLate =>
          if forallb (λ w, match w with WExit => true | _ => false end) (r_workers s)
          then Some (with_main s MJoin) else None
      | _ => None
      end
  | _ => None
  end.
(** [Run] around the two: the stream's end closes the ingress's channel, and the
    ingress is joined last. *)
Definition Run_turn (s : run) (st : step) : option run :=
  match st with
  | MainDrain =>
      match r_main s, r_stream s with MStream, SDone => Some (with_main s MDrain) | _, _ => None end
  | MainReturn =>
      match r_main s, r_ingress s with MJoin, IExit => Some (with_main s MReturned) | _, _ => None end
  | _ => None
  end.

Definition run_step (s : run) (st : step) : option run :=
  match st with
  | Produce m => Some (producing (send s Producer m) m)
  | Cancel => Some (cancelled s)
  | StreamRecv | StreamSend | StreamReturn => Stream_turn s st
  | IngressAdmit | IngressAcquire | IngressHand | IngressStop
  | IngressPut _ | IngressPutDone | IngressGiveUp => ingest_turn s st
  | WorkerTake _ | WorkerExit _ | WorkerFinish _ _ _ | WorkerPutDone _ | WorkerGiveUp _ => worker_turn s st
  | MainTimeout | MainJoin => drain_turn s st
  | MainDrain | MainReturn => Run_turn s st
  end.

Fixpoint run_exec (sts : list step) (s : run) : option run :=
  match sts with
  | [] => Some s
  | st :: sts => run_step s st ≫= run_exec sts
  end.
Definition reachable (s : run) : Prop := ∃ sts, run_exec sts Start = Some s.

(** ** What a run keeps *)

Abbreviation cnt l m := (count_occ Nat.eq_dec l m).
Definition stream_has (a : stream_at) : list message := match a with SSend m => [m] | _ => [] end.
Definition ingress_has (a : ingress_at) : list message :=
  match a with IAdmit m | IAcquire m | IHand m | IPut m => [m] | _ => [] end.
Definition worker_has (w : worker_at) : list message := match w with WRun m => [m] | _ => [] end.
Definition workers_have (ws : list worker_at) : list message := concat (map worker_has ws).
Definition handing (a : ingress_at) : nat := match a with IHand _ => 1 | _ => 0 end.
(** Where the messages are. *)
Definition placed (s : run) : list message :=
  r_buf s ++ (r_sendq s).*2 ++ stream_has (r_stream s) ++ ingress_has (r_ingress s) ++ r_ch s ++
  workers_have (r_workers s) ++ r_done s ++ r_lost s.

Record run_ok (s : run) : Prop := mkOk {
  ok_tokens :
    r_tokens s = Z.of_nat (length (r_ch s) + length (workers_have (r_workers s)) + handing (r_ingress s));
  ok_bound : r_tokens s ≤ M;
  ok_placed : ∀ m, cnt (r_produced s) m = cnt (placed s) m;
  ok_length : length (r_workers s) = N;
  ok_lost : r_ctx s = false → r_lost s = [];
  ok_stream : r_main s ≠ MStream → r_stream s = SDone;
  ok_ctx : r_stream s = SDone → r_ctx s = true;
  ok_exit : WExit ∈ r_workers s → r_ch s = [] ∧ r_ingress s = IExit;
  ok_joined : r_main s = MJoin ∨ r_main s = MReturned → Forall (.= WExit) (r_workers s)
}.

Definition one (x m : nat) : nat := if Nat.eq_dec x m then 1 else 0.
Lemma cnt_cons x (l : list nat) m : cnt (x :: l) m = (one x m + cnt l m)%nat.
Proof. unfold one. cbn. by destruct (Nat.eq_dec x m). Qed.
Lemma cnt_nil m : cnt [] m = 0%nat.
Proof. done. Qed.
Lemma cnt_one x m : cnt [x] m = one x m.
Proof. rewrite cnt_cons. cbn. lia. Qed.
Lemma cnt_insert (ws : list worker_at) i w0 w m :
  ws !! i = Some w0 →
  (cnt (workers_have (<[i:=w]> ws)) m + cnt (worker_has w0) m =
   cnt (workers_have ws) m + cnt (worker_has w) m)%nat.
Proof.
  unfold workers_have. revert i. induction ws as [|v ws IH]; intros [|i]; cbn; try done.
  - intros [= ->]. rewrite !count_occ_app. lia.
  - intros Hi. rewrite !count_occ_app. specialize (IH i Hi). unfold insert in *. lia.
Qed.
Lemma have_insert (ws : list worker_at) i w0 w :
  ws !! i = Some w0 →
  (length (workers_have (<[i:=w]> ws)) + length (worker_has w0) =
   length (workers_have ws) + length (worker_has w))%nat.
Proof.
  unfold workers_have. revert i. induction ws as [|v ws IH]; intros [|i]; cbn; try done.
  - intros [= ->]. rewrite !length_app. lia.
  - intros Hi. rewrite !length_app. specialize (IH i Hi). unfold insert in *. lia.
Qed.
Lemma cnt_withdraw (who : sender) (q : list (sender * message)) m :
  (cnt (filter (λ wm, wm.1 ≠ who) q).*2 m + cnt (filter (λ wm, wm.1 = who) q).*2 m = cnt q.*2 m)%nat.
Proof.
  induction q as [|[w n] q IH]; [done|]. rewrite !filter_cons. cbn [fst].
  destruct (decide (w = who)) as [->|Hn].
  - rewrite decide_False by tauto. rewrite !fmap_cons. cbn [snd]. rewrite !(cnt_cons n). lia.
  - rewrite decide_True by done. rewrite !fmap_cons. cbn [snd]. rewrite !(cnt_cons n). lia.
Qed.
Lemma cnt_recv s m0 s' m :
  recv s = Some (m0, s') →
  (cnt (r_buf s') m + cnt (r_sendq s').*2 m + one m0 m = cnt (r_buf s) m + cnt (r_sendq s).*2 m)%nat.
Proof.
  unfold recv. destruct (r_buf s) as [|b buf], (r_sendq s) as [|[w n] q]; intros [= <- <-];
    cbn -[count_occ]; rewrite ?count_occ_app, ?cnt_cons; cbn; lia.
Qed.
Lemma cnt_send s who m0 m :
  (cnt (r_buf (send s who m0)) m + cnt (r_sendq (send s who m0)).*2 m =
   cnt (r_buf s) m + cnt (r_sendq s).*2 m + one m0 m)%nat.
Proof.
  unfold send. destruct (room s); cbn -[count_occ]; rewrite ?fmap_app, ?count_occ_app; cbn -[count_occ];
    rewrite ?cnt_cons; cbn; lia.
Qed.
(** Neither touches anything but the broker. *)
Definition but_broker (s s' : run) : Prop := s' = with_broker s (r_buf s') (r_sendq s').
Lemma send_broker s who m : but_broker s (send s who m).
Proof. unfold but_broker, send. by destruct (room s). Qed.
Lemma recv_broker s m s' : recv s = Some (m, s') → but_broker s s'.
Proof.
  unfold but_broker, recv. destruct (r_buf s), (r_sendq s) as [|[]]; by intros [= _ <-].
Qed.

(** The cases of a step. *)
Ltac step_cases :=
  unfold run_step, Stream_turn, ingest_turn, worker_turn, drain_turn, Run_turn; intros; repeat (case_match || simplify_option_eq); simplify_eq.

#[local] Arguments count_occ : simpl never.
#[local] Arguments workers_have : simpl never.
#[local] Arguments send : simpl never.
Lemma placed_send s who m0 m :
  cnt (placed (send s who m0)) m = (cnt (placed s) m + one m0 m)%nat.
Proof.
  pose proof (cnt_send s who m0 m). unfold placed. rewrite !count_occ_app.
  rewrite (send_broker s who m0). cbn. lia.
Qed.
Lemma placed_recv s m0 s' m :
  recv s = Some (m0, s') → cnt (placed s) m = (cnt (placed s') m + one m0 m)%nat.
Proof.
  intros H. pose proof (cnt_recv _ _ _ m H). unfold placed. rewrite !count_occ_app.
  rewrite (recv_broker _ _ _ H). cbn. lia.
Qed.
Lemma placed_withdraw s who m : cnt (placed (withdraw s who)) m = cnt (placed s) m.
Proof.
  pose proof (cnt_withdraw who (r_sendq s) m). unfold placed. cbn.
  rewrite !count_occ_app. lia.
Qed.
Lemma placed_stream s a m :
  (cnt (placed (with_stream s a)) m + cnt (stream_has (r_stream s)) m =
   cnt (placed s) m + cnt (stream_has a) m)%nat.
Proof. unfold placed. cbn. rewrite !count_occ_app. lia. Qed.
Lemma placed_ingress s a m :
  (cnt (placed (with_ingress s a)) m + cnt (ingress_has (r_ingress s)) m =
   cnt (placed s) m + cnt (ingress_has a) m)%nat.
Proof. unfold placed. cbn. rewrite !count_occ_app. lia. Qed.
Lemma placed_worker s i w0 w m :
  r_workers s !! i = Some w0 →
  (cnt (placed (with_worker s i w)) m + cnt (worker_has w0) m =
   cnt (placed s) m + cnt (worker_has w) m)%nat.
Proof.
  intros H. pose proof (cnt_insert _ _ _ w m H). unfold placed. cbn.
  rewrite !count_occ_app. lia.
Qed.
Lemma placed_ch s ch m :
  (cnt (placed (with_ch s ch)) m + cnt (r_ch s) m = cnt (placed s) m + cnt ch m)%nat.
Proof. unfold placed. cbn. rewrite !count_occ_app. lia. Qed.
Lemma placed_done s m0 m : cnt (placed (finished_with s m0)) m = (cnt (placed s) m + one m0 m)%nat.
Proof. unfold placed. cbn. rewrite !count_occ_app, cnt_one. lia. Qed.
Lemma placed_lost s m0 m : cnt (placed (losing s m0)) m = (cnt (placed s) m + one m0 m)%nat.
Proof. unfold placed. cbn. rewrite !count_occ_app, cnt_one. lia. Qed.
Lemma placed_tokens s n m : cnt (placed (with_tokens s n)) m = cnt (placed s) m.
Proof. done. Qed.
Lemma placed_producing s n m : cnt (placed (producing s n)) m = cnt (placed s) m.
Proof. done. Qed.
Lemma placed_main s n m : cnt (placed (with_main s n)) m = cnt (placed s) m.
Proof. done. Qed.

#[local] Arguments placed : simpl never.

(** The broker's operations touch nothing else. *)
Lemma send_keeps {A} (f : run → A) s who m :
  (∀ b q, f (with_broker s b q) = f s) → f (send s who m) = f s.
Proof. intros H. rewrite (send_broker s who m). apply H. Qed.
Lemma recv_keeps {A} (f : run → A) s m s' :
  recv s = Some (m, s') → (∀ b q, f (with_broker s b q) = f s) → f s' = f s.
Proof. intros E H. rewrite (recv_broker _ _ _ E). apply H. Qed.
Ltac keeps :=
  repeat match goal with
  | H : recv ?s = Some (?m, ?s') |- _ =>
      rewrite ?(recv_keeps r_ctx _ _ _ H) in * by done;
      rewrite ?(recv_keeps r_stream _ _ _ H) in * by done;
      rewrite ?(recv_keeps r_ingress _ _ _ H) in * by done;
      rewrite ?(recv_keeps r_ch _ _ _ H) in * by done;
      rewrite ?(recv_keeps r_workers _ _ _ H) in * by done;
      rewrite ?(recv_keeps r_tokens _ _ _ H) in * by done;
      rewrite ?(recv_keeps r_main _ _ _ H) in * by done;
      rewrite ?(recv_keeps r_produced _ _ _ H) in * by done;
      rewrite ?(recv_keeps r_lost _ _ _ H) in * by done;
      pose proof (λ x, placed_recv _ _ _ x H); clear H
  end;
  rewrite ?(send_keeps r_ctx), ?(send_keeps r_stream), ?(send_keeps r_ingress), ?(send_keeps r_ch),
    ?(send_keeps r_workers), ?(send_keeps r_tokens), ?(send_keeps r_main), ?(send_keeps r_produced),
    ?(send_keeps r_lost) in * by done.

(** What each part of a step does to the tally. *)
Ltac tally m :=
  try match goal with |- context [with_stream ?s ?a] => pose proof (placed_stream s a m) end;
  try match goal with |- context [with_ingress ?s ?a] => pose proof (placed_ingress s a m) end;
  try match goal with
      | H : r_workers _ !! ?i = Some ?w0 |- context [with_worker ?s ?i ?w] =>
          pose proof (placed_worker s i w0 w m ltac:(cbn; rewrite ?(send_keeps r_workers) by done; exact H))
      end;
  try match goal with |- context [with_ch ?s ?a] => pose proof (placed_ch s a m) end;
  try match goal with |- context [finished_with ?s ?a] => pose proof (placed_done s a m) end;
  try match goal with |- context [losing ?s ?a] => pose proof (placed_lost s a m) end;
  try match goal with |- context [producing ?s ?a] => pose proof (placed_producing s a m) end;
  try match goal with |- context [with_tokens ?s ?a] => pose proof (placed_tokens s a m) end;
  try match goal with |- context [withdraw ?s ?a] => pose proof (placed_withdraw s a m) end;
  try match goal with |- context [send ?s ?w ?a] => pose proof (placed_send s w a m) end.

(** No step creates a message, or forgets one that is not among the lost. *)
Lemma step_placed s st s' :
  run_step s st = Some s' → (∀ m, cnt (r_produced s) m = cnt (placed s) m) →
  ∀ m, cnt (r_produced s') m = cnt (placed s') m.
Proof.
  intros Hs Hp m. specialize (Hp m). destruct st; step_cases; try done.
  all: tally m; keeps; cbn in *; keeps; repeat match goal with
     | H : r_ingress _ = _, H' : context [r_ingress _] |- _ => rewrite H in H'
     | H : r_stream _ = _, H' : context [r_stream _] |- _ => rewrite H in H'
     | H : r_ch _ = _, H' : context [r_ch _] |- _ => rewrite H in H'
     | H : r_produced _ = _ |- context [r_produced _] => rewrite H
     | H : ∀ _ : nat, _ |- _ => specialize (H m) end;
    cbn in *; rewrite ?count_occ_app, ?cnt_one, ?cnt_cons, ?cnt_nil in *; try lia.
Qed.

(** Every credit taken is that of a delivery in [workerCh], at a worker or on its
    way there. *)
Lemma step_tokens s st s' :
  run_step s st = Some s' →
  r_tokens s = Z.of_nat (length (r_ch s) + length (workers_have (r_workers s)) + handing (r_ingress s)) →
  r_tokens s ≤ M →
  r_tokens s' = Z.of_nat (length (r_ch s') + length (workers_have (r_workers s')) + handing (r_ingress s')) ∧
  r_tokens s' ≤ M.
Proof.
  destruct st; step_cases.
  all: keeps; cbn in *; keeps; cbn in *; rewrite ?length_app; cbn in *.
  all: repeat match goal with
     | H : r_ingress _ = _ |- _ => rewrite H in *; clear H | H : r_ch _ = _ |- _ => rewrite H in *; clear H
     | H : (_ <? _) = _ |- _ => apply Z.ltb_lt in H end.
  all: try match goal with H : r_workers _ !! ?i = Some ?w0 |- context [insert ?i ?w _] =>
     pose proof (have_insert _ i w0 w H) end.
  all: cbn in *; unfold insert in *; split; congruence || lia.
Qed.

Lemma exit_insert (ws : list worker_at) i w : WExit ∈ <[i:=w]> ws → w = WExit ∨ WExit ∈ ws.
Proof.
  intros [j Hj]%list_elem_of_lookup. apply list_lookup_insert_Some in Hj as [(_&?&_)|[_ Hj]]; [by left|].
  right. by eapply list_elem_of_lookup_2.
Qed.
Lemma joined_worker (ws : list worker_at) i w : Forall (.= WExit) ws → ws !! i = Some w → w = WExit.
Proof. intros H Hi. by apply (Forall_lookup_1 _ _ _ _ H Hi). Qed.
Lemma all_exited ws :
  forallb (λ w, match w with WExit => true | _ => false end) ws = true ↔ Forall (.= WExit) ws.
Proof.
  induction ws as [|w ws IH]; cbn; [done|]. rewrite andb_true_iff, IH, Forall_cons.
  destruct w; split; intros []; by try split.
Qed.

Lemma step_control s st s' : run_ok s → run_step s st = Some s' →
  length (r_workers s') = N ∧ (r_ctx s' = false → r_lost s' = []) ∧
  (r_main s' ≠ MStream → r_stream s' = SDone) ∧ (r_stream s' = SDone → r_ctx s' = true).
Proof.
  intros [_ _ _ Hl Hlost Hst Hc _ _]. destruct st; step_cases; keeps; cbn in *; keeps; rewrite ?length_insert.
  all: repeat split; try done; try congruence; try solve [intuition congruence].
  all: try (intros ?; etrans; [eassumption|]; apply Hlost; congruence).
  all: intros; exfalso; enough (r_ctx s = true) by congruence; apply Hc, Hst; intros Hm; unfold late in *;
    rewrite Hm in *; discriminate.
Qed.
Lemma step_exits s st s' : run_ok s → run_step s st = Some s' →
  (WExit ∈ r_workers s' → r_ch s' = [] ∧ r_ingress s' = IExit) ∧
  (r_main s' = MJoin ∨ r_main s' = MReturned → Forall (.= WExit) (r_workers s')).
Proof.
  intros [_ _ _ _ _ _ _ Hx Hj]. destruct st; step_cases; keeps; cbn in *; keeps.
  all: split; [intros Hw; try apply exit_insert in Hw as [|Hw]; try discriminate;
    try (apply Hx in Hw as []); try (split; congruence) | intros Hm].
  all: try by apply all_exited.
  all: try (apply Hj; destruct Hm; first [left; congruence | right; congruence]).
  all: specialize (Hj Hm); eapply joined_worker in Hj; [|eassumption]; discriminate.
Qed.

Lemma run_step_ok s st s' : run_ok s → run_step s st = Some s' → run_ok s'.
Proof.
  intros Hok Hs. destruct (step_control _ _ _ Hok Hs) as (?&?&?&?), (step_exits _ _ _ Hok Hs).
  destruct (step_tokens _ _ _ Hs (ok_tokens _ Hok) (ok_bound _ Hok)).
  by constructor; try done; apply (step_placed _ _ _ Hs), Hok.
Qed.
Lemma workers_idle n : workers_have (replicate n WIdle) = [].
Proof. by induction n. Qed.
Lemma Start_ok : 0 ≤ M → run_ok Start.
Proof.
  intros HM. constructor; cbn; rewrite ?workers_idle; try done.
  - intros m. unfold placed. cbn. by rewrite workers_idle.
  - apply length_replicate.
  - by intros [? _]%elem_of_replicate.
  - by intros [].
Qed.
Lemma run_exec_app sts sts' s : run_exec (sts ++ sts') s = run_exec sts s ≫= run_exec sts'.
Proof. revert s. induction sts as [|st sts IH]; intros s; cbn; [done|]. by destruct (run_step s st); cbn. Qed.
Lemma run_exec_ok sts s s' : run_ok s → run_exec sts s = Some s' → run_ok s'.
Proof.
  revert s. induction sts as [|st sts IH]; intros s Hok; cbn; [by intros [= <-]|].
  destruct (run_step s st) eqn:E; cbn; [|done]. apply IH. by eapply run_step_ok.
Qed.
Lemma reachable_ok s : 0 ≤ M → reachable s → run_ok s.
Proof. intros HM [sts H]. eapply run_exec_ok; [by apply Start_ok|done]. Qed.

(** ** The drain ends *)

(** The steps of the run itself; producers and the canceller are outside it. *)
Definition own (st : step) : bool := match st with Produce _ | Cancel => false | _ => true end.
Definition own_steps (sts : list step) : nat := sum_list_with (λ st, if own st then 1 else 0)%nat sts.
Definition ingress_left (a : ingress_at) : nat :=
  match a with IExit => 0 | IRecv | IWait => 1 | IPut _ => 2 | IHand _ => 5 | IAcquire _ => 6 | IAdmit _ => 7 end.
Definition worker_left (w : worker_at) : nat :=
  match w with WExit => 0 | WIdle => 1 | WWait => 2 | WRun _ => 3 end.
Definition workers_left (ws : list worker_at) : nat := sum_list_with worker_left ws.
Definition main_left (a : main_at) : nat :=
  match a with MStream => 4 | MDrain => 3 | MLate => 2 | MJoin => 1 | MReturned => 0 end.
Definition stream_left (a : stream_at) : nat := match a with SDone => 0 | SRecv => 1 | SSend _ => 9 end.
(** How many steps are left, at most, if [Stream] takes nothing more from the broker. *)
Definition left_to_do (s : run) : nat :=
  main_left (r_main s) + stream_left (r_stream s) + ingress_left (r_ingress s) + 3 * length (r_ch s) +
  workers_left (r_workers s).
(** The messages [Stream] takes in a sequence of steps. *)
Definition receives (st : step) : bool := match st with StreamRecv => true | _ => false end.
Definition received (sts : list step) : nat := sum_list_with (λ st, if receives st then 1 else 0)%nat sts.

Lemma left_insert (ws : list worker_at) i w0 w :
  ws !! i = Some w0 → (workers_left (<[i:=w]> ws) + worker_left w0 = workers_left ws + worker_left w)%nat.
Proof.
  unfold workers_left. revert i. induction ws as [|v ws IH]; intros [|i]; cbn; try done.
  - intros [= ->]. lia.
  - intros Hi. specialize (IH i Hi). unfold insert in *. lia.
Qed.
Lemma left_le ws : (workers_left ws ≤ 3 * length ws)%nat.
Proof. unfold workers_left. induction ws as [|[] ws IH]; cbn in *; lia. Qed.
#[local] Arguments workers_left : simpl never.

Lemma step_left s st s' : run_step s st = Some s' →
  if receives st then left_to_do s' = (left_to_do s + 8)%nat
  else if own st then (left_to_do s' < left_to_do s)%nat else left_to_do s' = left_to_do s.
Proof.
  unfold left_to_do. destruct st; step_cases; keeps; cbn in *; keeps; cbn in *.
  all: repeat match goal with
     | H : r_ingress _ = _ |- _ => rewrite H in *; clear H | H : r_ch _ = _ |- _ => rewrite H in *; clear H
     | H : r_stream _ = _ |- _ => rewrite H in *; clear H
     | H : r_main _ = _ |- _ => rewrite H in *; clear H end.
  all: try match goal with H : r_workers _ !! ?i = Some ?w0 |- context [insert ?i ?w _] =>
     pose proof (left_insert _ i w0 w H) end.
  all: cbn in *; rewrite ?length_app; cbn in *; unfold insert in *; congruence || lia.
Qed.
(** A stream that has returned takes nothing more, and a run that drains stays there. *)
Lemma step_draining s st s' : run_ok s → r_main s ≠ MStream → run_step s st = Some s' →
  r_main s' ≠ MStream ∧ receives st = false.
Proof.
  intros Hok Hm Hs. pose proof (ok_stream _ Hok Hm) as Hst. revert Hs.
  destruct st; step_cases; keeps; cbn in *; keeps; split; congruence.
Qed.
Lemma step_ctx s st s' : run_step s st = Some s' → r_ctx s = true → r_ctx s' = true.
Proof. destruct st; step_cases; keeps; cbn in *; keeps; congruence. Qed.

(** A step of the run's own that takes no new message. *)
Definition finishing (st : step) : bool := own st && negb (receives st).
Definition enabled (s : run) : Prop := ∃ st s', finishing st = true ∧ run_step s st = Some s'.
Lemma enables s st : finishing st = true → is_Some (run_step s st) → enabled s.
Proof. intros Ho [s' H]. by exists st, s'. Qed.

(** A sender that waits in the broker is let go, or the timeout will see to it. *)
Lemma waiting_enabled s st : run_ok s → r_main s = MDrain ∨ r_main s = MLate → finishing st = true →
  (r_main s = MLate → is_Some (run_step s st)) → enabled s.
Proof.
  intros _ Hm Ho Hl. destruct Hm as [Hm|Hm].
  - apply (enables s MainTimeout); [done|]. cbn. by rewrite Hm.
  - eapply enables; [done|]. by apply Hl.
Qed.
Lemma worker_enabled s i w : run_ok s → r_main s = MDrain ∨ r_main s = MLate → r_ingress s = IExit →
  r_workers s !! i = Some w → w ≠ WExit → enabled s.
Proof.
  intros Hok Hm Hi Hw Hx. destruct w as [|m| |]; [| | |done].
  - destruct (r_ch s) eqn:E.
    + apply (enables s (WorkerExit i)); [done|]. cbn. by rewrite Hw, E, Hi.
    + apply (enables s (WorkerTake i)); [done|]. cbn. by rewrite Hw, E.
  - apply (enables s (WorkerFinish i false false)); [done|]. cbn. by rewrite Hw.
  - apply (waiting_enabled s (WorkerGiveUp i)); [done..|].
    intros E. cbn. unfold late. by rewrite Hw, E.
Qed.
Lemma some_worker ws : Forall (.= WExit) ws ∨ ∃ i w, ws !! i = Some w ∧ w ≠ WExit.
Proof.
  induction ws as [|w ws [IH|(i&w'&?&?)]]; [by left| |right; by exists (S i), w'].
  destruct w; [right; exists O; eauto..|left; by constructor].
Qed.
Lemma drain_workers_enabled s : run_ok s → r_main s = MDrain ∨ r_main s = MLate →
  r_ingress s = IExit → enabled s.
Proof.
  intros Hok Hm Hi. destruct (some_worker (r_workers s)) as [Hall|(i&w&Hw&Hx)]; [|by eapply worker_enabled].
  apply (enables s MainJoin); [done|]. cbn. apply all_exited in Hall. rewrite Hall. by destruct Hm as [-> | ->].
Qed.
Lemma drain_enabled s : (1 ≤ N)%nat → run_ok s → r_main s ≠ MStream → r_main s ≠ MReturned → enabled s.
Proof.
  intros HN Hok Hms Hmr. pose proof (ok_ctx _ Hok (ok_stream _ Hok Hms)) as Hc.
  assert (Hj : r_main s = MJoin → r_ingress s = IExit).
  { intros Hm. destruct (r_workers s) as [|w ws] eqn:E; [pose proof (ok_length _ Hok); rewrite E in *; cbn in *; lia|].
    apply (ok_exit _ Hok). pose proof (ok_joined _ Hok (or_introl Hm)) as Hall. rewrite E in *.
    apply Forall_cons in Hall as [-> _]. left. }
  assert (Hd : r_main s = MJoin ∨ r_main s = MDrain ∨ r_main s = MLate) by (destruct (r_main s); tauto).
  destruct Hd as [Hm|Hd].
  { apply (enables s MainReturn); [done|]. cbn. by rewrite Hm, Hj. }
  destruct (r_ingress s) eqn:Ei.
  - apply (enables s IngressStop); [done|]. cbn. by rewrite Ei, Hc.
  - apply (enables s IngressAdmit); [done|]. cbn. by rewrite Ei.
  - destruct (r_tokens s <? M) eqn:Et; [|destruct shed eqn:Esh].
    1,2: apply (enables s IngressAcquire); [done|]; cbn; rewrite Ei, Et; by rewrite ?Esh.
    apply (enables s IngressStop); [done|]. cbn. by rewrite Ei, Hc, Esh.
  - apply (enables s IngressStop); [done|]. cbn. by rewrite Ei, Hc.
  - apply (enables s (IngressPut false)); [done|]. cbn. by rewrite Ei.
  - apply (waiting_enabled s IngressGiveUp); [done..|]. intros E. cbn. unfold late. by rewrite Ei, E.
  - by apply drain_workers_enabled.
Qed.

Lemma stream_enabled s : run_ok s → r_ctx s = true → r_main s = MStream → enabled s.
Proof.
  intros Hok Hc Hm. destruct (r_stream s) eqn:E.
  1,2: apply (enables s StreamReturn); [done|]; cbn; by rewrite Hc, E.
  apply (enables s MainDrain); [done|]. cbn. by rewrite Hm, E.
Qed.
Lemma exec_left sts s s' : run_exec sts s = Some s' →
  (own_steps sts + left_to_do s' ≤ left_to_do s + 9 * received sts)%nat.
Proof.
  revert s. induction sts as [|st sts IH]; intros s; cbn; [intros [= <-]; lia|].
  destruct (run_step s st) as [s1|] eqn:E; cbn; [|done]. intros Hs%IH.
  apply step_left in E. unfold own_steps, received in *. cbn. destruct st; cbn in *; lia.
Qed.
Lemma exec_draining sts s s' : run_ok s → r_main s ≠ MStream → run_exec sts s = Some s' → received sts = 0%nat.
Proof.
  revert s. induction sts as [|st sts IH]; intros s Hok Hm; cbn; [done|].
  destruct (run_step s st) as [s1|] eqn:E; cbn; [|done]. intros Hs.
  destruct (step_draining _ _ _ Hok Hm E) as [Hm1 Hr]. unfold received in *. cbn. rewrite Hr.
  by apply (IH s1 (run_step_ok _ _ _ Hok E) Hm1).
Qed.
Lemma exec_ctx sts s s' : run_exec sts s = Some s' → r_ctx s = true → r_ctx s' = true.
Proof.
  revert s. induction sts as [|st sts IH]; intros s; cbn; [by intros [= <-]|].
  destruct (run_step s st) as [s1|] eqn:E; cbn; [|done]. intros Hs Hc. apply (IH s1 Hs). by eapply step_ctx.
Qed.
Lemma left_bound s : run_ok s → (left_to_do s ≤ 20 + 3 * Z.to_nat M + 3 * N)%nat.
Proof.
  intros Hok. pose proof (ok_tokens _ Hok). pose proof (ok_bound _ Hok). pose proof (ok_length _ Hok).
  pose proof (left_le (r_workers s)). unfold left_to_do.
  assert (main_left (r_main s) ≤ 4)%nat by (destruct (r_main s); cbn; lia).
  assert (stream_left (r_stream s) ≤ 9)%nat by (destruct (r_stream s); cbn; lia).
  assert (ingress_left (r_ingress s) ≤ 7)%nat by (destruct (r_ingress s); cbn; lia). lia.
Qed.
End machine.

(** ** The run wedged by its requeues *)

Section wedge.
Context (B N : nat) (M : Z).
Abbreviation step_of := (run_step B M false).
Abbreviation exec_of := (run_exec B M false).

(** [Stream] waits for the ingress, the ingress for a credit, and the workers, who
    hold none, in the broker for [Stream]; the credits are those of [workerCh]. *)
Record wedged (s : run) : Prop := mkWedged {
  w_ctx : r_ctx s = false;
  w_stream : ∃ m, r_stream s = SSend m;
  w_ingress : ∃ m, r_ingress s = IAcquire m;
  w_main : r_main s = MStream;
  w_tokens : M ≤ r_tokens s;
  w_workers : ∀ i w, r_workers s !! i = Some w → w = WWait ∧ Worker i ∈ (r_sendq s).*1
}.

Lemma wedged_stuck s st : wedged s → own st = true → step_of s st = None.
Proof.
  intros [Hc [m Hs] [m' Hi] Hm Ht Hw] Ho.
  assert (Hlt : (r_tokens s <? M) = false) by (apply Z.ltb_ge; lia).
  destruct st; cbn; rewrite ?Hc, ?Hs, ?Hi, ?Hm, ?Hlt; try done.
  all: destruct (r_workers s !! i) eqn:E; [|done]; destruct (Hw _ _ E) as [-> Hq]; try done.
  all: unfold waiting, late; rewrite ?Hm; try done.
  by rewrite bool_decide_true.
Qed.
Lemma wedged_produce s m s' : wedged s → step_of s (Produce m) = Some s' → wedged s'.
Proof.
  intros [Hc Hs Hi Hm Ht Hw] [= <-]. unfold send. destruct (room B s); split; cbn; try done.
  intros i w H. destruct (Hw i w H) as [-> Hq]. split; [done|]. rewrite fmap_app, elem_of_app. by left.
Qed.
Lemma wedged_produces ms s s' : wedged s → exec_of (map Produce ms) s = Some s' → wedged s'.
Proof.
  revert s. induction ms as [|m ms IH]; intros s Hw; cbn [map run_exec]; [by intros [= <-]|].
  destruct (step_of s (Produce m)) eqn:E; cbn; [|done]. apply IH. by eapply wedged_produce.
Qed.

(** *** How it comes to that *)

(** The states on the way: nothing done or lost, every message called 0. *)
Definition mid buf q st ing (ch : nat) ws t (made : nat) : run :=
  mkRun false buf q st ing (replicate ch 0%nat) ws t MStream (replicate made 0%nat) [] [].
Lemma replicate_snoc {A} n (x : A) : replicate n x ++ [x] = replicate (S n) x.
Proof. by rewrite replicate_S_end. Qed.
Lemma replicate_cons_snoc {A} n (x : A) l : replicate n x ++ x :: l = replicate (S n) x ++ l.
Proof. by rewrite <- replicate_snoc, <- app_assoc. Qed.

Lemma make_one buf q ch ws t made st ing :
  step_of (mid buf q st ing ch ws t made) (Produce 0%nat) =
  Some (if bool_decide (length buf < B)%nat
        then mid (buf ++ [0%nat]) q st ing ch ws t (S made)
        else mid buf (q ++ [(Producer, 0%nat)]) st ing ch ws t (S made)).
Proof.
  unfold mid. rewrite <- (replicate_snoc made). cbn. unfold send, room. cbn. by case_bool_decide.
Qed.
(** A message made and received at once leaves an empty broker as it was. *)
Lemma make_recv ch ws t made ing :
  exec_of [Produce 0%nat; StreamRecv] (mid [] [] SRecv ing ch ws t made) =
  Some (mid [] [] (SSend 0%nat) ing ch ws t (S made)).
Proof. cbn -[run_step]. rewrite make_one. cbn -[run_step]. by case_bool_decide. Qed.

Definition admit_one : list step :=
  [Produce 0%nat; StreamRecv] ++ [StreamSend; IngressAdmit; IngressAcquire; IngressHand].
Lemma admit_one_exec k ws t made :
  t < M → Z.of_nat k < M →
  exec_of admit_one (mid [] [] SRecv IRecv k ws t made) = Some (mid [] [] SRecv IRecv (S k) ws (t + 1) (S made)).
Proof.
  intros Ht Hk. unfold admit_one. rewrite run_exec_app, make_recv. unfold mid. cbn -[replicate].
  apply Z.ltb_lt in Ht, Hk. rewrite Ht. cbn -[replicate]. rewrite length_replicate, Hk. cbn -[replicate].
  by rewrite <- (replicate_snoc k).
Qed.
Lemma admit_exec n k ws made :
  Z.of_nat (k + n) ≤ M →
  exec_of (concat (replicate n admit_one)) (mid [] [] SRecv IRecv k ws (Z.of_nat k) made) =
  Some (mid [] [] SRecv IRecv (k + n) ws (Z.of_nat (k + n)) (made + n)).
Proof.
  revert k made. induction n as [|n IH]; intros k made Hn; [by rewrite !Nat.add_0_r|].
  cbn [replicate concat]. rewrite run_exec_app, admit_one_exec by lia. cbn [mbind option_bind].
  replace (Z.of_nat k + 1) with (Z.of_nat (S k)) by lia. rewrite IH by lia.
  do 2 f_equal; lia.
Qed.
Lemma take_exec n pre ch t made :
  exec_of (map WorkerTake (seq (length pre) n))
    (mid [] [] SRecv IRecv (n + ch) (pre ++ replicate n WIdle) t made) =
  Some (mid [] [] SRecv IRecv ch (pre ++ replicate n (WRun 0%nat)) t made).
Proof.
  revert pre. induction n as [|n IH]; intros pre; [done|]. cbn [seq map run_exec].
  unfold mid. cbn [replicate Nat.add run_step Stream_turn ingest_turn worker_turn r_workers r_ch]. rewrite list_lookup_middle by done.
  cbn [mbind option_bind].
  unfold with_worker, with_ch. cbn. rewrite insert_app_r_alt, Nat.sub_diag by lia. cbn.
  specialize (IH (pre ++ [WRun 0%nat])). rewrite length_app in IH. cbn in IH.
  rewrite Nat.add_1_r, <- !app_assoc in IH. apply IH.
Qed.
Lemma fill_exec n b q ch ws t made st ing :
  (b + n ≤ B)%nat →
  exec_of (replicate n (Produce 0%nat)) (mid (replicate b 0%nat) q st ing ch ws t made) =
  Some (mid (replicate (b + n) 0%nat) q st ing ch ws t (made + n)).
Proof.
  revert b made. induction n as [|n IH]; intros b made Hn; [by rewrite !Nat.add_0_r|].
  cbn [replicate run_exec]. rewrite make_one, length_replicate, bool_decide_true by lia.
  cbn [mbind option_bind]. rewrite replicate_snoc, IH by lia. by rewrite !Nat.add_succ_comm.
Qed.
Lemma queue_exec n p ch ws t made st ing :
  exec_of (replicate n (Produce 0%nat)) (mid (replicate B 0%nat) (replicate p (Producer, 0%nat)) st ing ch ws t made) =
  Some (mid (replicate B 0%nat) (replicate (p + n) (Producer, 0%nat)) st ing ch ws t (made + n)).
Proof.
  revert p made. induction n as [|n IH]; intros p made; [by rewrite !Nat.add_0_r|].
  cbn [replicate run_exec]. rewrite make_one, length_replicate, bool_decide_false by lia.
  cbn [mbind option_bind]. rewrite replicate_snoc, IH by lia. by rewrite !Nat.add_succ_comm.
Qed.

(** A worker puts its delivery back; the ingress takes the credit it released, and
    [Stream] the next message. *)
Definition requeue_one (i : nat) : list step :=
  [WorkerFinish i true false; IngressAcquire; IngressHand; StreamSend; IngressAdmit; StreamRecv].
Lemma recv_full x q st ing ch ws t made :
  recv (mid (replicate B 0%nat) ((x, 0%nat) :: q) st ing ch ws t made) =
  Some (0%nat, mid (replicate B 0%nat) q st ing ch ws t made).
Proof. destruct B as [|b]; [done|]. cbn. unfold with_broker. cbn. by rewrite replicate_snoc. Qed.
Lemma finish_mid i q st ing ch ws t made :
  ws !! i = Some (WRun 0%nat) →
  step_of (mid (replicate B 0%nat) q st ing ch ws t made) (WorkerFinish i true false) =
  Some (mid (replicate B 0%nat) (q ++ [(Worker i, 0%nat)]) st ing ch (<[i:=WWait]> ws) (t - 1) made).
Proof.
  intros Hi. cbn [run_step Stream_turn ingest_turn worker_turn drain_turn Run_turn mid r_workers]. rewrite Hi. unfold send, room. cbn [with_tokens r_buf mid].
  by rewrite length_replicate, bool_decide_false by lia.
Qed.
Lemma acquire_mid buf q st ch ws t made :
  t < M →
  step_of (mid buf q st (IAcquire 0%nat) ch ws t made) IngressAcquire =
  Some (mid buf q st (IHand 0%nat) ch ws (t + 1) made).
Proof. intros Ht%Z.ltb_lt. cbn [run_step Stream_turn ingest_turn worker_turn drain_turn Run_turn mid r_ingress r_tokens]. by rewrite Ht. Qed.
Lemma hand_mid buf q st ch ws t made :
  Z.of_nat ch < M →
  step_of (mid buf q st (IHand 0%nat) ch ws t made) IngressHand =
  Some (mid buf q st IRecv (S ch) ws t made).
Proof.
  intros Ht%Z.ltb_lt. unfold mid. cbn [run_step Stream_turn ingest_turn worker_turn drain_turn Run_turn r_ingress r_ch]. rewrite length_replicate, Ht, <- (replicate_snoc ch).
  done.
Qed.
Lemma recv_mid x q ing ch ws t made :
  step_of (mid (replicate B 0%nat) ((x, 0%nat) :: q) SRecv ing ch ws t made) StreamRecv =
  Some (mid (replicate B 0%nat) q (SSend 0%nat) ing ch ws t made).
Proof. cbn [run_step Stream_turn]. by rewrite recv_full. Qed.
Lemma requeue_one_exec i q ch ws made :
  ws !! i = Some (WRun 0%nat) → Z.of_nat ch < M →
  exec_of (requeue_one i) (mid (replicate B 0%nat) ((Producer, 0%nat) :: q) (SSend 0%nat) (IAcquire 0%nat) ch ws M made) =
  Some (mid (replicate B 0%nat) (q ++ [(Worker i, 0%nat)]) (SSend 0%nat) (IAcquire 0%nat) (S ch) (<[i:=WWait]> ws) M made).
Proof.
  intros Hi Hch. unfold requeue_one. cbn [run_exec]. rewrite finish_mid by done. cbn [mbind option_bind].
  rewrite acquire_mid by lia. cbn [mbind option_bind]. rewrite hand_mid by done. cbn [mbind option_bind].
  change (step_of (mid ?a ?b (SSend 0%nat) IRecv ?c ?d ?e ?f) StreamSend)
    with (Some (mid a b SRecv (IAdmit 0%nat) c d e f)). cbn [mbind option_bind].
  change (step_of (mid ?a ?b ?g (IAdmit 0%nat) ?c ?d ?e ?f) IngressAdmit)
    with (Some (mid a b g (IAcquire 0%nat) c d e f)). cbn [mbind option_bind].
  rewrite <- app_comm_cons, recv_mid. cbn [mbind option_bind]. by rewrite Z.sub_add.
Qed.
Lemma requeue_exec n pre q ch made :
  Z.of_nat (ch + n) ≤ M →
  exec_of (concat (map requeue_one (seq (length pre) n)))
    (mid (replicate B 0%nat) (replicate n (Producer, 0%nat) ++ q) (SSend 0%nat) (IAcquire 0%nat) ch
       (pre ++ replicate n (WRun 0%nat)) M made) =
  Some (mid (replicate B 0%nat) (q ++ map (λ i, (Worker i, 0%nat)) (seq (length pre) n)) (SSend 0%nat)
    (IAcquire 0%nat) (ch + n) (pre ++ replicate n WWait) M made).
Proof.
  revert pre q ch. induction n as [|n IH]; intros pre q ch Hn; [cbn; by rewrite Nat.add_0_r, !app_nil_r|].
  cbn [seq map concat replicate]. rewrite run_exec_app, <- app_comm_cons, requeue_one_exec; [|by apply list_lookup_middle|lia].
  cbn [mbind option_bind]. rewrite insert_app_r_alt, Nat.sub_diag by lia.
  specialize (IH (pre ++ [WWait]) (q ++ [(Worker (length pre), 0%nat)]) (S ch)).
  rewrite length_app in IH. cbn [length] in IH. rewrite Nat.add_1_r, <- !app_assoc in IH. rewrite <- app_assoc. cbn in IH |- *.
  rewrite IH by lia. by rewrite Nat.add_succ_r.
Qed.

(** Every credit out, [Stream] and the ingress waiting, the broker full with a
    producer waiting for each worker; then every worker puts its delivery back. *)
Definition wedging : list step :=
  concat (replicate (Z.to_nat M) admit_one) ++ map WorkerTake (seq 0 N) ++
  ([Produce 0%nat; StreamRecv] ++ [StreamSend; IngressAdmit]) ++ [Produce 0%nat; StreamRecv] ++
  replicate B (Produce 0%nat) ++ replicate N (Produce 0%nat) ++ concat (map requeue_one (seq 0 N)).
Definition wedge : run :=
  mid (replicate B 0%nat) (map (λ i, (Worker i, 0%nat)) (seq 0 N)) (SSend 0%nat) (IAcquire 0%nat)
    (Z.to_nat M) (replicate N WWait) M (Z.to_nat M + 2 + B + N).
Lemma wedging_exec : Z.of_nat N ≤ M → exec_of wedging (Start N) = Some wedge.
Proof.
  intros HM. unfold wedging. change (Start N) with (mid [] [] SRecv IRecv 0 (replicate N WIdle) (Z.of_nat 0) 0).
  rewrite run_exec_app, admit_exec by lia. cbn [mbind option_bind Nat.add]. rewrite Z2Nat.id by lia.
  replace (Z.to_nat M) with (N + (Z.to_nat M - N))%nat at 1 by lia.
  rewrite run_exec_app, (take_exec N []). cbn [mbind option_bind].
  rewrite run_exec_app, run_exec_app, make_recv. cbn [mbind option_bind].
  change (exec_of [StreamSend; IngressAdmit] (mid ?a ?b (SSend 0%nat) IRecv ?c ?d ?e ?f))
    with (Some (mid a b SRecv (IAcquire 0%nat) c d e f)). cbn [mbind option_bind].
  rewrite run_exec_app, make_recv. cbn [mbind option_bind].
  rewrite run_exec_app, (fill_exec B 0) by lia. cbn [mbind option_bind Nat.add].
  rewrite run_exec_app, (queue_exec N 0). cbn [mbind option_bind Nat.add].
  rewrite <- (app_nil_r (replicate N (Producer, 0%nat))), (requeue_exec N []) by lia.
  unfold wedge. do 2 f_equal; lia.
Qed.
Lemma wedge_wedged : wedged wedge.
Proof.
  constructor; cbn; eauto; [done|]. intros i w [-> Hi]%lookup_replicate. split; [done|].
  apply list_elem_of_fmap. exists (Worker i, 0%nat). split; [done|]. apply list_elem_of_fmap.
  exists i. split; [done|]. apply elem_of_seq. lia.
Qed.
End wedge.

(** ** What Run promises *)

Section promises.
Context (B N : nat) (M : Z) (shed : bool).

(** C4. [Run] always returns.  Once its context is done, the steps its goroutines take
    are at most a number fixed by its limits and nine for every message that [Stream]
    still takes from the broker, however producers go on sending; [Stream] need not
    take any, since from then on it can return instead whenever it could receive, and
    takes none once it has returned; and until [Run] has returned, one of its
    goroutines can take a step that receives nothing. *)
Theorem run_returns s sts s' :
  (1 ≤ N)%nat → 0 ≤ M → reachable B N M shed s → r_ctx s = true → run_exec B M shed sts s = Some s' →
  (own_steps sts ≤ 20 + 3 * Z.to_nat M + 3 * N + 9 * received sts)%nat ∧
  (r_stream s' = SRecv → is_Some (run_step B M shed s' StreamReturn)) ∧
  (r_main s ≠ MStream → received sts = 0%nat) ∧
  (r_main s' = MReturned ∨ enabled B M shed s').
Proof.
  intros HN HM Hr Hc Hs. pose proof (reachable_ok _ _ _ _ _ HM Hr) as Hok.
  pose proof (run_exec_ok _ _ _ _ _ _ _ Hok Hs) as Hok'. pose proof (exec_ctx _ _ _ _ _ _ Hs Hc) as Hc'.
  split; [|split; [|split]].
  - pose proof (exec_left _ _ _ _ _ _ Hs). pose proof (left_bound _ _ _ Hok). lia.
  - intros E. cbn. by rewrite Hc', E.
  - intros Hm. exact (exec_draining B N M shed sts s s' Hok Hm Hs).
  - destruct (r_main s') eqn:E; [right; by eapply stream_enabled| | | |by left]; right;
      eapply drain_enabled; rewrite ?E; done.
Qed.

(** C5. [Run] loses no delivery before its context is done: what producers have sent
    is at all times somewhere in the broker, with [Stream], the ingress or a worker,
    or settled; when [Run] has returned it is in the broker, settled, or was given
    up by [Stream] or by a requeue that the shutdown cut off, and every credit is
    back. *)
Theorem run_accounts s :
  (1 ≤ N)%nat → 0 ≤ M → reachable B N M shed s →
  r_produced s ≡ₚ placed s ∧ (r_ctx s = false → r_lost s = []) ∧
  (r_main s = MReturned →
     r_tokens s = 0 ∧ r_produced s ≡ₚ r_buf s ++ (r_sendq s).*2 ++ r_done s ++ r_lost s).
Proof.
  intros HN HM Hr. pose proof (reachable_ok _ _ _ _ _ HM Hr) as Hok.
  assert (Hp : r_produced s ≡ₚ placed s).
  { apply (Permutation_count_occ Nat.eq_dec). apply (ok_placed _ _ _ Hok). }
  split; [done|]. split; [apply Hok|]. intros Hm.
  pose proof (ok_joined _ _ _ Hok (or_intror Hm)) as Hall.
  assert (Hx : r_ch s = [] ∧ r_ingress s = IExit).
  { apply (ok_exit _ _ _ Hok). pose proof (ok_length _ _ _ Hok) as Hl.
    destruct (r_workers s); cbn in Hl; [lia|]. apply Forall_cons in Hall as [-> _]. left. }
  destruct Hx as [Hch Hi]. assert (Hw : workers_have (r_workers s) = []).
  { clear -Hall. induction Hall as [|w ws -> _ IH]; [done|]. exact IH. }
  split; [by rewrite (ok_tokens _ _ _ Hok), Hch, Hi, Hw|]. rewrite Hp. unfold placed.
  by rewrite (ok_stream _ _ _ Hok), Hch, Hi, Hw by congruence.
Qed.

(** [workerCh] never makes the ingress wait: a delivery that has its credit finds
    room there, since every delivery in the channel or at a worker holds one of the
    gate's [maxInFlight] credits. *)
Theorem handoff_never_blocks s m :
  0 ≤ M → reachable B N M shed s → r_ingress s = IHand m →
  run_step B M shed s IngressHand = Some (with_ingress (with_ch s (r_ch s ++ [m])) IRecv) ∧
  (length (r_ch s) + length (workers_have (r_workers s)) < Z.to_nat M)%nat.
Proof.
  intros HM Hr Hi. pose proof (reachable_ok _ _ _ _ _ HM Hr) as Hok.
  pose proof (ok_tokens _ _ _ Hok) as Ht. pose proof (ok_bound _ _ _ Hok). rewrite Hi in Ht. cbn in Ht.
  split; [|lia]. cbn. rewrite Hi. by replace (Z.of_nat (length (r_ch s)) <? M) with true by lia.
Qed.

(** C6. Requeues can wedge a running consumer: for every buffer of the broker, every
    concurrency and every [maxInFlight] no smaller, under the blocking overflow
    policy, there is a reachable state, its context not done, in which no goroutine
    of the run can take a step, whatever producers send. *)
Theorem requeue_deadlock :
  Z.of_nat N ≤ M →
  ∃ s, reachable B N M false s ∧ r_ctx s = false ∧ r_main s = MStream ∧ length (r_ch s) = Z.to_nat M ∧
    ∀ ms s', run_exec B M false (map Produce ms) s = Some s' →
    ∀ st, own st = true → run_step B M false s' st = None.
Proof.
  intros HM. exists (wedge B N M). split; [by exists (wedging B N M); apply wedging_exec|].
  split; [done|]. split; [done|]. split; [apply length_replicate|].
  intros ms s' Hs st Ho. apply wedged_stuck; [|done].
  eapply wedged_produces; [apply wedge_wedged|exact Hs].
Qed.
End promises.

(** ** The promises at work *)

(** A run of one worker, cancelled while it holds one delivery and the ingress
    another, and drained by the timeout. *)
Definition drained_run : list step :=
  [Produce 1%nat; Produce 2%nat; StreamRecv; StreamSend; IngressAdmit; IngressAcquire; IngressHand;
   WorkerTake 0; StreamRecv; StreamSend; IngressAdmit; Cancel; StreamReturn; MainDrain].
Definition drain_rest : list step :=
  [IngressStop; IngressPut false; WorkerFinish 0 true false; MainTimeout; IngressGiveUp; WorkerGiveUp 0; WorkerExit 0; MainJoin;
   MainReturn].
Definition drained_state : run := from_option id (Start 1) (run_exec 0 1 false drained_run (Start 1)).
Definition returned_state : run := from_option id (Start 1) (run_exec 0 1 false drain_rest drained_state).

(** From the moment the context is done on. *)
Definition cancelled_state : run :=
  from_option id (Start 1) (run_exec 0 1 false (take 12 drained_run) (Start 1)).
Lemma run_returns_witness :
  (own_steps (drop 12 drained_run ++ drain_rest) ≤ 20 + 3 * Z.to_nat 1 + 3 * 1 + 9 * 0)%nat ∧
  (r_main returned_state = MReturned ∨ enabled 0 1 false returned_state).
Proof.
  destruct (run_returns 0 1 1 false cancelled_state (drop 12 drained_run ++ drain_rest) returned_state)
    as (H1 & _ & _ & H2).
  - lia.
  - lia.
  - exists (take 12 drained_run). vm_compute. reflexivity.
  - vm_compute. reflexivity.
  - vm_compute. reflexivity.
  - split; [exact H1|exact H2].
Defined.
Lemma run_accounts_witness :
  r_main returned_state = MReturned ∧ r_tokens returned_state = 0 ∧
  r_produced returned_state ≡ₚ
    r_buf returned_state ++ (r_sendq returned_state).*2 ++ r_done returned_state ++ r_lost returned_state.
Proof.
  assert (Hm : r_main returned_state = MReturned) by (vm_compute; reflexivity).
  split; [exact Hm|]. refine (proj2 (proj2 (run_accounts 0 1 1 false returned_state _ _ _)) Hm); [lia..|].
  exists (drained_run ++ drain_rest). vm_compute. reflexivity.
Defined.
Definition handing_run : list step :=
  [Produce 1%nat; StreamRecv; StreamSend; IngressAdmit; IngressAcquire; IngressHand; Produce 2%nat; StreamRecv;
   StreamSend; IngressAdmit; IngressAcquire].
Definition handing_state : run := from_option id (Start 1) (run_exec 0 2 false handing_run (Start 1)).
Lemma handoff_never_blocks_witness :
  (length (r_ch handing_state) + length (workers_have (r_workers handing_state)) < Z.to_nat 2)%nat.
Proof.
  refine (proj2 (handoff_never_blocks 0 1 2 false handing_state 2%nat _ _ _));
    [lia|exists handing_run; vm_compute; reflexivity|vm_compute; reflexivity].
Defined.
Lemma requeue_deadlock_witness :
  ∃ s, reachable 8 4 1024 false s ∧ r_ctx s = false ∧ r_main s = MStream ∧ length (r_ch s) = Z.to_nat 1024 ∧
    ∀ ms s', run_exec 8 1024 false (map Produce ms) s = Some s' →
    ∀ st, own st = true → run_step 8 1024 false s' st = None.
Proof. apply (requeue_deadlock 8 4 1024). lia. Defined.
