(* ===== verification/Poller.v ===== *)
(** * The poll loop and the credit gate

    [endpoint/poller.go] and the goroutines [Run] of [endpoint/consumer.go]
    starts on the pull path.

    The loop is a step relation over its program counter, the gate's tokens,
    the buffered worker channel and the workers.  A row is named by a value of
    type [D]; the ledger of rows fetched, put back and settled is part of the
    state.  A step that Go would block on has no successor; a step that would
    panic leads to [PPanic]. *)

From S2P Require Import Prelude.

Local Open Scope Z_scope.

(** ** Pure parts *)

Definition maxPollErrorBackoff : Z := 30 * second.

(** [for i := 1; i < n && d < maxPollErrorBackoff; i++ { d *= 2 }]: [k] is the
    number of iterations left by [n]. *)
Fixpoint double_until (k : nat) (d : Z) : Z :=
  match k with
  | O => d
  | S k => if d <? maxPollErrorBackoff then double_until k (wrap64 (d * 2)) else d
  end.

Definition pollErrorBackoff (pollInterval n : Z) : Z :=
  Z.min (double_until (Z.to_nat (n - 1)) pollInterval) maxPollErrorBackoff.

(** [releaseN]: the tokens left, or why it does not return. *)
Inductive release_result : Type := Released (tokens : Z) | ReleaseBlocks | ReleasePanics.

Definition releaseN (tokens n : Z) : release_result :=
  if n <? 0 then ReleasePanics
  else if tokens <? n then ReleaseBlocks
  else Released (tokens - n).

Section poller.
Context {D : Type}.
Context (maxInFlight pollMaxBatch pollInterval : Z).

(** [clampExcess]: the rows to nack and the credited prefix. *)
Definition clampExcess (rows : list D) (held : Z) : list D * list D :=
  (drop (Z.to_nat held) rows, take (Z.to_nat held) rows).

(** ** State *)

Inductive pc : Type :=
  | PAcquire
  | PTopUp (held : Z)
  | PPoll (held : Z)
  | PHandoff (rows : list D) (empty : bool)
  | PSleep (d : Z)
  | PDone
  | PPanic.

Record pstate : Type := mkPState {
  p_pc : pc;
  p_errN : Z;
  p_tokens : Z;
  p_queue : list D;
  p_busy : list D;
  p_fetched : list D;
  p_nacked : list D;
  p_settled : list D
}.

Definition goto (l : pc) (s : pstate) : pstate :=
  mkPState l (p_errN s) (p_tokens s) (p_queue s) (p_busy s) (p_fetched s) (p_nacked s) (p_settled s).
Definition with_tokens (n : Z) (s : pstate) : pstate :=
  mkPState (p_pc s) (p_errN s) n (p_queue s) (p_busy s) (p_fetched s) (p_nacked s) (p_settled s).

(** Go on to [l] after releasing [n] credits. *)
Definition after_release (n : Z) (l : pc) (s : pstate) : option pstate :=
  match releaseN (p_tokens s) n with
  | Released t => Some (goto l (with_tokens t s))
  | ReleaseBlocks => None
  | ReleasePanics => Some (goto PPanic s)
  end.

(** What the loop does with the answer of [safePoll]. *)
Definition on_poll_error (held : Z) (s : pstate) : option pstate :=
  let s := mkPState (p_pc s) (wrap64 (p_errN s + 1)) (p_tokens s) (p_queue s) (p_busy s)
             (p_fetched s) (p_nacked s) (p_settled s) in
  after_release held (PSleep (pollErrorBackoff pollInterval (p_errN s))) s.

Definition on_poll_rows (held : Z) (rows : list D) (s : pstate) : option pstate :=
  let '(excess, rows') :=
    if held <? Z.of_nat (length rows) then clampExcess rows held else ([], rows) in
  let s := mkPState (p_pc s) 0 (p_tokens s) (p_queue s) (p_busy s)
             (rows ++ p_fetched s) (excess ++ p_nacked s) (p_settled s) in
  after_release (held - Z.of_nat (length rows'))
    (PHandoff rows' (bool_decide (rows' = []))) s.

(** [ctx.Done()] during a handoff: the wrapped Nack returns this row's credit,
    [releaseN] those of the rows after it. *)
Definition on_shutdown (d : D) (rest : list D) (s : pstate) : option pstate :=
  let s := mkPState (p_pc s) (p_errN s) (p_tokens s - 1) (p_queue s) (p_busy s) (p_fetched s)
             (d :: rest ++ p_nacked s) (p_settled s) in
  after_release (Z.of_nat (length rest)) PDone s.

(** ** Steps *)

Inductive pstep : pstate → pstate → Prop :=
  | SAcquire s :
      p_pc s = PAcquire → p_tokens s < maxInFlight →
      pstep s (goto (PTopUp 1) (with_tokens (p_tokens s + 1) s))
  | SAcquireDone s :
      p_pc s = PAcquire → pstep s (goto PDone s)
  | STopUp s held :
      p_pc s = PTopUp held → held < pollMaxBatch → p_tokens s < maxInFlight →
      pstep s (goto (PTopUp (held + 1)) (with_tokens (p_tokens s + 1) s))
  | STopUpEnd s held :
      p_pc s = PTopUp held → (pollMaxBatch ≤ held ∨ maxInFlight ≤ p_tokens s) →
      pstep s (goto (PPoll held) s)
  | SPollError s held s' :
      p_pc s = PPoll held → on_poll_error held s = Some s' → pstep s s'
  | SPollRows s held rows s' :
      p_pc s = PPoll held → on_poll_rows held rows s = Some s' → pstep s s'
  | SHand s d rest b :
      p_pc s = PHandoff (d :: rest) b → Z.of_nat (length (p_queue s)) < maxInFlight →
      pstep s (mkPState (PHandoff rest b) (p_errN s) (p_tokens s) (p_queue s ++ [d]) (p_busy s)
                 (p_fetched s) (p_nacked s) (p_settled s))
  | SHandDone s d rest b s' :
      p_pc s = PHandoff (d :: rest) b → on_shutdown d rest s = Some s' → pstep s s'
  | SPace s b :
      p_pc s = PHandoff [] b → pstep s (goto (if b then PSleep pollInterval else PAcquire) s)
  | SSleep s d :
      p_pc s = PSleep d → pstep s (goto PAcquire s)
  | SSleepDone s d :
      p_pc s = PSleep d → 0 < d → pstep s (goto PDone s)
  | STake s d rest :
      p_queue s = d :: rest →
      pstep s (mkPState (p_pc s) (p_errN s) (p_tokens s) rest (d :: p_busy s) (p_fetched s)
                 (p_nacked s) (p_settled s))
  | SSettle s i d :
      p_busy s !! i = Some d → 0 < p_tokens s →
      pstep s (mkPState (p_pc s) (p_errN s) (p_tokens s - 1) (p_queue s) (delete i (p_busy s))
                 (p_fetched s) (p_nacked s) (d :: p_settled s)).

(** ** Invariant *)

Definition held (l : pc) : Z :=
  match l with
  | PTopUp h | PPoll h => h
  | PHandoff rows _ => Z.of_nat (length rows)
  | PAcquire | PSleep _ | PDone | PPanic => 0
  end.
Definition pending (l : pc) : list D := match l with PHandoff rows _ => rows | _ => [] end.

Record pinv (s : pstate) : Prop := {
  pi_tokens : p_tokens s = held (p_pc s) + Z.of_nat (length (p_queue s)) + Z.of_nat (length (p_busy s));
  pi_cap : p_tokens s ≤ maxInFlight;
  pi_held : 0 ≤ held (p_pc s);
  pi_ledger : p_fetched s ≡ₚ pending (p_pc s) ++ p_queue s ++ p_busy s ++ p_nacked s ++ p_settled s;
  pi_pc : p_pc s ≠ PPanic
}.

Lemma after_release_ok n l s :
  0 ≤ n ≤ p_tokens s → after_release n l s = Some (goto l (with_tokens (p_tokens s - n) s)).
Proof.
  intros [H1 H2]. unfold after_release, releaseN.
  replace (n <? 0) with false by (symmetry; apply Z.ltb_ge; lia).
  by replace (p_tokens s <? n) with false by (symmetry; apply Z.ltb_ge; lia).
Qed.

Lemma clamp_split (rows : list D) h :
  0 ≤ h →
  let '(excess, rows') := if h <? Z.of_nat (length rows) then clampExcess rows h else ([], rows) in
  rows ≡ₚ excess ++ rows' ∧ Z.of_nat (length rows') ≤ h ∧ rows' `prefix_of` rows.
Proof.
  intros Hh. destruct (_ <? _) eqn:E; bool_to_prop; cbn.
  - split; [by rewrite Permutation_app_comm, take_drop|].
    split; [rewrite length_take; lia|]. exists (drop (Z.to_nat h) rows). by rewrite take_drop.
  - split; [done|]. split; [lia|done].
Qed.

Lemma on_poll_error_eq h s :
  p_pc s = PPoll h → pinv s →
  ∃ s', on_poll_error h s = Some s' ∧ pinv s' ∧
    p_pc s' = PSleep (pollErrorBackoff pollInterval (wrap64 (p_errN s + 1))).
Proof.
  intros Hpc []. rewrite Hpc in *. cbn in *. unfold on_poll_error. rewrite after_release_ok by (cbn; lia).
  eexists. split; [done|]. split; [|done]. split; cbn; try done; lia.
Qed.

Lemma on_poll_rows_eq h rows s :
  p_pc s = PPoll h → pinv s → ∃ s', on_poll_rows h rows s = Some s' ∧ pinv s' ∧
    p_fetched s' = rows ++ p_fetched s ∧ Z.of_nat (length (pending (p_pc s'))) ≤ h.
Proof.
  intros Hpc []. rewrite Hpc in *. cbn in *. unfold on_poll_rows.
  pose proof (clamp_split rows h pi_held0) as Hc.
  destruct (if h <? _ then _ else _) as [excess rows']. destruct Hc as (Hp & Hl & _).
  rewrite after_release_ok by (cbn; lia). eexists. split; [done|].
  split; [|done]. split; cbn; try done; try lia.
  rewrite pi_ledger0, Hp, (Permutation_app_comm excess), <- !app_assoc. f_equiv.
  rewrite (Permutation_app_swap_app excess (p_queue s)). f_equiv. apply Permutation_app_swap_app.
Qed.

Lemma on_shutdown_eq d rest b s :
  p_pc s = PHandoff (d :: rest) b → pinv s → ∃ s', on_shutdown d rest s = Some s' ∧ pinv s' ∧ p_pc s' = PDone.
Proof.
  intros Hpc []. rewrite Hpc in *. cbn in *. unfold on_shutdown. rewrite after_release_ok by (cbn; lia).
  eexists. split; [done|]. split; [|done]. split; cbn; try done; try lia.
  rewrite pi_ledger0. rewrite <- !Permutation_middle. constructor. rewrite <- !app_assoc.
  rewrite (Permutation_app_swap_app rest (p_queue s)). f_equiv. apply Permutation_app_swap_app.
Qed.

Lemma pinv_step s s' : pstep s s' → pinv s → pinv s'.
Proof.
  intros Hstep Hinv. destruct Hstep as [s Hpc Ht|s Hpc|s h Hpc Hb Ht|s h Hpc Hb|s h s' Hpc He|s h rows s' Hpc He|
    s d rest b Hpc Hq|s d rest b s' Hpc He|s b Hpc|s d Hpc|s d Hpc Hd|s d rest Hq|s i d Hi Ht].
  1-4: destruct Hinv; rewrite Hpc in *; cbn in *; split; cbn; (done || lia).
  - destruct (on_poll_error_eq h s Hpc Hinv) as (s2 & E & Hi & _). congruence.
  - destruct (on_poll_rows_eq h rows s Hpc Hinv) as (s2 & E & Hi & _). congruence.
  - destruct Hinv. rewrite Hpc in *. cbn in *. split; cbn; try done; try lia.
    + rewrite length_app. cbn. lia.
    + rewrite pi_ledger0, <- app_assoc. cbn. by rewrite <- !Permutation_middle.
  - destruct (on_shutdown_eq d rest b s Hpc Hinv) as (s2 & E & Hi & _). congruence.
  - destruct Hinv; rewrite Hpc in *; destruct b; cbn in *; split; cbn; done.
  - destruct Hinv; rewrite Hpc in *; cbn in *; split; cbn; done.
  - destruct Hinv; rewrite Hpc in *; cbn in *; split; cbn; done.
  - destruct Hinv. rewrite Hq in *. cbn in *. split; cbn; try done; try lia.
    rewrite pi_ledger0. by rewrite <- !Permutation_middle.
  - destruct Hinv. pose proof (delete_perm _ _ _ Hi) as Hp. pose proof (Permutation_length Hp) as Hl. cbn in Hl.
    split; cbn; try done; try lia.
    rewrite Hp in pi_ledger0. rewrite pi_ledger0. cbn. by rewrite <- !Permutation_middle.
Qed.

Lemma pinv_reach s s' : rtc pstep s s' → pinv s → pinv s'.
Proof. induction 1 as [|s1 s2 s3 Hs _ IH]; [done|]. intros Hi. by eapply IH, pinv_step. Qed.

Definition pinitial : pstate := mkPState PAcquire 0 0 [] [] [] [] [].

Lemma pinitial_inv : 0 ≤ maxInFlight → pinv pinitial.
Proof. intros Hm. by split. Qed.

(** ** Properties *)

(** C28. Credits are accounted for exactly, whatever the source answers (errors
    and more rows than asked for included) and however workers and the loop
    interleave: the gate's tokens are those the loop holds plus one for every
    row queued or in a worker, at most maxInFlight; so the handoff to the
    worker channel never blocks, a worker can always return its credit, the
    loop always gets past the answer of a poll and past a shutdown, and the
    negative-count tripwire of releaseN is never hit. *)
Theorem poller_credits s :
  0 ≤ maxInFlight → rtc pstep pinitial s →
  p_tokens s = held (p_pc s) + Z.of_nat (length (p_queue s)) + Z.of_nat (length (p_busy s)) ∧
  p_tokens s ≤ maxInFlight ∧ p_pc s ≠ PPanic ∧
  (∀ d rest b, p_pc s = PHandoff (d :: rest) b →
     Z.of_nat (length (p_queue s)) < maxInFlight ∧ is_Some (on_shutdown d rest s)) ∧
  (∀ h rows, p_pc s = PPoll h → is_Some (on_poll_error h s) ∧ is_Some (on_poll_rows h rows s)) ∧
  (p_busy s ≠ [] → 0 < p_tokens s).
Proof.
  intros Hm Hr. pose proof (pinv_reach _ _ Hr (pinitial_inv Hm)) as Hinv.
  split; [apply Hinv|]. split; [apply Hinv|]. split; [apply Hinv|]. split_and!.
  - intros d rest b Hpc. destruct (on_shutdown_eq d rest b s Hpc Hinv) as (s' & E & _).
    destruct Hinv. rewrite Hpc in *. cbn in *. split; [lia|by eexists].
  - intros h rows Hpc. destruct (on_poll_error_eq h s Hpc Hinv) as (s1 & E1 & _).
    destruct (on_poll_rows_eq h rows s Hpc Hinv) as (s2 & E2 & _). split; by eexists.
  - intros Hb. destruct Hinv, (p_busy s); [done|]. cbn in *. lia.
Qed.

(** No row is lost or delivered twice: the rows fetched are exactly those
    waiting for the handoff, queued, in a worker, put back or settled; and
    once the loop has ended and the workers are idle, every row was put back
    or settled and every credit is back. *)
Theorem poller_conserves s :
  0 ≤ maxInFlight → rtc pstep pinitial s →
  p_fetched s ≡ₚ pending (p_pc s) ++ p_queue s ++ p_busy s ++ p_nacked s ++ p_settled s ∧
  (p_pc s = PDone → p_queue s = [] → p_busy s = [] →
     p_fetched s ≡ₚ p_nacked s ++ p_settled s ∧ p_tokens s = 0).
Proof.
  intros Hm Hr. destruct (pinv_reach _ _ Hr (pinitial_inv Hm)). split; [done|].
  intros Hpc Hq Hb. rewrite Hpc, Hq, Hb in *. done.
Qed.
End poller.

Definition demo_polled : pstate :=
  mkPState (PHandoff [2%nat] false) 0 2 [1%nat] [] [1; 2; 3]%nat [3%nat] [].

Lemma demo_poll : rtc (pstep 2 5 100) pinitial demo_polled.
Proof.
  eapply rtc_l; [by apply (SAcquire 2 5 100)|].
  eapply rtc_l; [by eapply (STopUp 2 5 100)|].
  eapply rtc_l; [eapply (STopUpEnd 2 5 100); [done|right; vm_compute; discriminate]|].
  eapply rtc_l; [eapply (SPollRows 2 5 100 _ _ [1; 2; 3]%nat); [done|vm_compute; reflexivity]|].
  eapply rtc_l; [by eapply (SHand 2 5 100)|].
  apply rtc_refl.
Qed.

Lemma poller_credits_witness :
  p_tokens demo_polled = held (p_pc demo_polled) + Z.of_nat (length (p_queue demo_polled)) +
    Z.of_nat (length (p_busy demo_polled)) ∧
  p_tokens demo_polled ≤ 2 ∧ p_pc demo_polled ≠ PPanic ∧
  (∀ d rest b, p_pc demo_polled = PHandoff (d :: rest) b →
     Z.of_nat (length (p_queue demo_polled)) < 2 ∧ is_Some (on_shutdown d rest demo_polled)) ∧
  (∀ h rows, p_pc demo_polled = PPoll h →
     is_Some (on_poll_error 100 h demo_polled) ∧ is_Some (on_poll_rows h rows demo_polled)) ∧
  (p_busy demo_polled ≠ [] → 0 < p_tokens demo_polled).
Proof.
  apply (poller_credits 2 5 100 demo_polled).
  - lia.
  - exact demo_poll.
Defined.

Lemma poller_conserves_witness :
  p_fetched demo_polled ≡ₚ pending (p_pc demo_polled) ++ p_queue demo_polled ++ p_busy demo_polled ++
    p_nacked demo_polled ++ p_settled demo_polled ∧
  (p_pc demo_polled = PDone → p_queue demo_polled = [] → p_busy demo_polled = [] →
     p_fetched demo_polled ≡ₚ p_nacked demo_polled ++ p_settled demo_polled ∧ p_tokens demo_polled = 0).
Proof.
  apply (poller_conserves 2 5 100 demo_polled).
  - lia.
  - exact demo_poll.
Defined.

Lemma double_until_spec k d :
  0 < d → Z.min (double_until k d) maxPollErrorBackoff = Z.min (d * 2 ^ Z.of_nat k) maxPollErrorBackoff.
Proof.
  revert d. induction k as [|k IH]; intros d Hd; cbn [double_until].
  { by rewrite Z.mul_1_r. }
  destruct (d <? maxPollErrorBackoff) eqn:E; bool_to_prop.
  - assert (maxPollErrorBackoff = 30000000000) as Hc by reflexivity.
    rewrite wrap64_id by (unfold int64_range, MinInt64, MaxInt64; lia).
    rewrite IH by lia. f_equal. rewrite Nat2Z.inj_succ, Z.pow_succ_r by lia. lia.
  - assert (1 ≤ 2 ^ Z.of_nat (S k)) by (pose proof (Z.pow_pos_nonneg 2 (Z.of_nat (S k))); lia).
    rewrite !Z.min_r; nia.
Qed.

(** The pause after the n-th poll error in a row is the poll interval doubled
    n-1 times and capped at thirty seconds; the doubling never overflows,
    whatever the interval. *)
Theorem poll_backoff_exact pollInterval n :
  0 < pollInterval ≤ MaxInt64 → 1 ≤ n →
  pollErrorBackoff pollInterval n = Z.min (pollInterval * 2 ^ (n - 1)) (30 * second) ∧
  0 < pollErrorBackoff pollInterval n ≤ 30 * second.
Proof.
  intros Hp Hn. unfold pollErrorBackoff. rewrite double_until_spec by lia.
  rewrite Z2Nat.id by lia. split; [done|].
  pose proof (Z.pow_pos_nonneg 2 (n - 1)). unfold maxPollErrorBackoff, second. nia.
Qed.

Lemma poll_backoff_exact_witness :
  pollErrorBackoff 1 40 = Z.min (1 * 2 ^ (40 - 1)) (30 * second) ∧ 0 < pollErrorBackoff 1 40 ≤ 30 * second.
Proof. apply (poll_backoff_exact 1 40); [vm_compute; split; congruence|lia]. Defined.
