(* ===== verification/Producer.v ===== *)
(** * The producer: encoding, bounded retry and dead-lettering

    [endpoint/producer.go].  User code (the outbound adapter, the backoff, the
    dead-letter sink, the hooks) runs over an external state [E], which also
    carries the clock; a trace records the attempts, the waits and the
    dead-lettering. *)

From S2P Require Import Prelude Message QueueStore Consumer.

Local Open Scope Z_scope.

Inductive pevent : Type :=
  | PAttempt (r : option error)
  | PWait (d : Z) (r : option error)
  | PDead (r : outcome (option error)).

Record pworld (E : Type) : Type := mkPWorld {
  pw_ext : E;
  pw_trace : list pevent
}.
Arguments mkPWorld {E} _ _.
Arguments pw_ext {E} _.
Arguments pw_trace {E} _.

(** The result of the retry loop, or out of fuel. *)
Inductive sendres : Type :=
  | Sent (err : option error)
  | SendOutOfFuel.

Section producer.
Context {E T : Type} `{GoType T}.
Abbreviation W := (pworld E).

(** ** Configuration *)

Record producerConfig : Type := mkProducerConfig {
  pc_codec : option (PayloadCodec T);
  pc_codecSet : bool;
  pc_clock : E → Z;
  pc_retry : RetryPolicy E;
  pc_retrySet : bool;
  pc_retryAfterCap : Z;
  pc_retryAfterCapSet : bool;
  pc_retryBudget : Z;
  pc_retryBudgetSet : bool;
  pc_deadLetterTimeout : Z;
  pc_deadLetterTimeoutSet : bool;
  pc_hooks : Hooks E
}.

(** The options; a nil clock keeps what is set. *)
Definition WithProducerCodec (codec : option (PayloadCodec T)) (c : producerConfig) : producerConfig :=
  mkProducerConfig codec true (pc_clock c) (pc_retry c) (pc_retrySet c) (pc_retryAfterCap c)
    (pc_retryAfterCapSet c) (pc_retryBudget c) (pc_retryBudgetSet c) (pc_deadLetterTimeout c)
    (pc_deadLetterTimeoutSet c) (pc_hooks c).
Definition WithProducerClock (clk : option (E → Z)) (c : producerConfig) : producerConfig :=
  mkProducerConfig (pc_codec c) (pc_codecSet c) (default (pc_clock c) clk) (pc_retry c) (pc_retrySet c)
    (pc_retryAfterCap c) (pc_retryAfterCapSet c) (pc_retryBudget c) (pc_retryBudgetSet c)
    (pc_deadLetterTimeout c) (pc_deadLetterTimeoutSet c) (pc_hooks c).
Definition WithProducerRetry (p : RetryPolicy E) (c : producerConfig) : producerConfig :=
  mkProducerConfig (pc_codec c) (pc_codecSet c) (pc_clock c) p true (pc_retryAfterCap c)
    (pc_retryAfterCapSet c) (pc_retryBudget c) (pc_retryBudgetSet c) (pc_deadLetterTimeout c)
    (pc_deadLetterTimeoutSet c) (pc_hooks c).
Definition WithProducerRetryAfterCap (d : Z) (c : producerConfig) : producerConfig :=
  mkProducerConfig (pc_codec c) (pc_codecSet c) (pc_clock c) (pc_retry c) (pc_retrySet c) d true
    (pc_retryBudget c) (pc_retryBudgetSet c) (pc_deadLetterTimeout c) (pc_deadLetterTimeoutSet c)
    (pc_hooks c).
Definition WithProducerRetryBudget (d : Z) (c : producerConfig) : producerConfig :=
  mkProducerConfig (pc_codec c) (pc_codecSet c) (pc_clock c) (pc_retry c) (pc_retrySet c)
    (pc_retryAfterCap c) (pc_retryAfterCapSet c) d true (pc_deadLetterTimeout c)
    (pc_deadLetterTimeoutSet c) (pc_hooks c).
Definition WithProducerDeadLetterTimeout (d : Z) (c : producerConfig) : producerConfig :=
  mkProducerConfig (pc_codec c) (pc_codecSet c) (pc_clock c) (pc_retry c) (pc_retrySet c)
    (pc_retryAfterCap c) (pc_retryAfterCapSet c) (pc_retryBudget c) (pc_retryBudgetSet c) d true
    (pc_hooks c).
Definition WithProducerHooks (h : Hooks E) (c : producerConfig) : producerConfig :=
  mkProducerConfig (pc_codec c) (pc_codecSet c) (pc_clock c) (pc_retry c) (pc_retrySet c)
    (pc_retryAfterCap c) (pc_retryAfterCapSet c) (pc_retryBudget c) (pc_retryBudgetSet c)
    (pc_deadLetterTimeout c) (pc_deadLetterTimeoutSet c) h.

Definition defaultRetryAfterCap : Z := 60 * second.
Definition defaultRetryBudget : Z := 2 * minute.
Definition defaultDeadLetterTimeout : Z := 30 * second.
Definition minRetryDelay : Z := 100 * millisecond.

(** An outbound adapter, with its scheduled sender when it has one, and whether
    it consumes live values. *)
Record OutboundAdapter : Type := mkOutbound {
  oa_Send : msg → M E (option error);
  oa_SendAfter : option (msg → Z → M E (option error));
  oa_emitsLiveValue : option bool
}.

Record producer : Type := mkProducer {
  pr_out : OutboundAdapter;
  pr_codec : option (PayloadCodec T);
  pr_liveValue : bool;
  pr_clock : E → Z;
  pr_retry : RetryPolicy E;
  pr_retrySet : bool;
  pr_retryAfterCap : Z;
  pr_retryBudget : Z;
  pr_deadLetterTimeout : Z;
  pr_hooks : Hooks E
}.

Definition positive_setting (isSet : bool) (v dflt : Z) (s : sentinel) : error + Z :=
  setting isSet v dflt (λ d, if d <=? 0 then Some (Sentinel s) else None).

Definition NewProducer (json : PayloadCodec T) (real_clock : E → Z) (out : option OutboundAdapter)
    (opts : list (option (producerConfig → producerConfig))) : error + producer :=
  match out with
  | None => inl (Sentinel ErrNilAdapter)
  | Some out =>
      match apply_opts opts (mkProducerConfig None false real_clock (mkRetryPolicy 0 None None)
              false 0 false 0 false 0 false (mkHooks None None None None)) with
      | inl i => inl (nilOptionAt "endpoint.NewProducer" i)
      | inr cfg =>
          match resolveCodec json (oa_emitsLiveValue out) (pc_codec cfg) (pc_codecSet cfg) with
          | inl err => inl err
          | inr (codec, live) =>
          match (if pc_retrySet cfg then
                   match Validate (pc_retry cfg) with
                   | Some err => Some err
                   | None =>
                       if (rp_MaxAttempts (pc_retry cfg) =? 0) && bool_decide (rp_Backoff (pc_retry cfg) = None)
                       then Some (Sentinel ErrUnboundedRetry) else None
                   end
                 else None) with
          | Some err => inl err
          | None =>
          match positive_setting (pc_retryAfterCapSet cfg) (pc_retryAfterCap cfg) defaultRetryAfterCap
                  ErrInvalidRetryAfterCap with
          | inl err => inl err
          | inr cap =>
          match positive_setting (pc_retryBudgetSet cfg) (pc_retryBudget cfg) defaultRetryBudget
                  ErrInvalidRetryBudget with
          | inl err => inl err
          | inr budget =>
          match positive_setting (pc_deadLetterTimeoutSet cfg) (pc_deadLetterTimeout cfg)
                  defaultDeadLetterTimeout ErrInvalidDeadLetterTimeout with
          | inl err => inl err
          | inr dlTimeout =>
              inr (mkProducer out codec live (pc_clock cfg) (pc_retry cfg) (pc_retrySet cfg)
                     cap budget dlTimeout (pc_hooks cfg))
          end end end end end
      end
  end.

(** ** Operations *)

Definition ext {A} (m : M E A) : M W A := zoom pw_ext (λ e w, mkPWorld e (pw_trace w)) m.
Definition record (ev : pevent) : M W unit := modify (λ w, mkPWorld (pw_ext w) (pw_trace w ++ [ev])).

(** A nil codec is dereferenced: a panic. *)
Definition box (p : producer) (m : Message T) : M W (error + msg) :=
  if pr_liveValue p then mret (inr (boxMessage m))
  else match pr_codec p with
  | None => panic "nil dereference"
  | Some codec =>
      match Encode codec (msg_payload m) with
      | Panic v => panic v
      | Ret (inl err) => mret (inl (Errorf [err] [FStr "msgin: producer encode failed"]))
      | Ret (inr b) => mret (inr (NewMessage (ABytes b) (msg_headers m)))
      end
  end.

Definition fireHook (h : option (msg → option error → M E unit)) (m : msg) (err : option error)
    : M W unit :=
  match h with
  | None => mret tt
  | Some hook => recovering (λ _, mret tt) (ext (hook m err))
  end.

Definition retry_delay (p : producer) (attempt : Z) : M W Z :=
  match rp_Backoff (pr_retry p) with
  | None => mret 0
  | Some delay => ext (delay (wrap64 (attempt - 1)))
  end.

Definition nextDelay (p : producer) (attempt : Z) (err : error) : M W Z :=
  d ← retry_delay p attempt;
  let d := match RetryAfterOf (Some err) with
           | Some server => Z.max d (Z.min server (pr_retryAfterCap p))
           | None => d
           end in
  mret (Z.max d minRetryDelay).

Definition safeDeadLetter (sink : msg → M E (option error)) (m : msg) : M W (option error) :=
  λ w, match ext (sink m) w with
  | (Ret r, w') => (Ret r, (record (PDead (Ret r)) w').2)
  | (Panic v, w') => (Ret (Some (panicked "producer DeadLetter.Send panicked" v)),
                      (record (PDead (Panic v)) w').2)
  end.

Definition deadLetter (p : producer) (m : msg) (cause : error) : M W error :=
  match rp_DeadLetter (pr_retry p) with
  | None => mret cause
  | Some sink =>
      r ← safeDeadLetter sink m;
      let out := match r with
                 | Some dlErr => JoinErr [cause; dlErr]
                 | None => Errorf [Sentinel ErrDeadLettered; cause] []
                 end in
      _ ← fireHook (h_OnDeadLetter (pr_hooks p)) m (Some out);
      mret out
  end.

(** [wait d] blocks for [d] on the clock (nil) or until the context is done. *)
Context (wait : Z → M E (option error)).

Fixpoint send_loop (fuel : nat) (p : producer) (m : msg) (deadline attempt : Z) : M W sendres :=
  match fuel with
  | O => mret SendOutOfFuel
  | S fuel =>
      r ← ext (oa_Send (pr_out p) m);
      _ ← record (PAttempt r);
      match r with
      | None => mret (Sent None)
      | Some err =>
          if IsPermanent (Some err) then mret (Sent (Some err))
          else if (0 <? rp_MaxAttempts (pr_retry p)) && (rp_MaxAttempts (pr_retry p) <=? attempt)
          then out ← deadLetter p m err; mret (Sent (Some out))
          else
            d ← nextDelay p attempt err;
            now ← gets (λ w, pr_clock p (pw_ext w));
            if deadline <? now + d then
              out ← deadLetter p m (Errorf [Sentinel ErrRetryBudgetExhausted; err] []);
              mret (Sent (Some out))
            else
              _ ← fireHook (h_OnRetry (pr_hooks p)) m (Some err);
              waitErr ← ext (wait d);
              _ ← record (PWait d waitErr);
              match waitErr with
              | Some werr => out ← deadLetter p m err; mret (Sent (Some (JoinErr [out; werr])))
              | None => send_loop fuel p m deadline (wrap64 (attempt + 1))
              end
      end
  end.

Definition sendRetrying (fuel : nat) (p : producer) (m : msg) : M W sendres :=
  now ← gets (λ w, pr_clock p (pw_ext w));
  send_loop fuel p m (now + pr_retryBudget p) 1.

Definition Send (fuel : nat) (p : producer) (m : Message T) : M W sendres :=
  r ← box p m;
  match r with
  | inl err => mret (Sent (Some err))
  | inr boxed =>
      if negb (pr_retrySet p) then
        r ← ext (oa_Send (pr_out p) boxed); _ ← record (PAttempt r); mret (Sent r)
      else sendRetrying fuel p boxed
  end.

Definition SendAfter (p : producer) (m : Message T) (delay : Z) : M W (option error) :=
  match oa_SendAfter (pr_out p) with
  | None => mret (Some (Sentinel ErrScheduledSendUnsupported))
  | Some sched =>
      let delay := if delay <? 0 then 0 else delay in
      r ← box p m;
      match r with
      | inl err => mret (Some err)
      | inr boxed => ext (sched boxed delay)
      end
  end.

Definition SendAt (p : producer) (m : Message T) (t : Z) : M W (option error) :=
  now ← gets (λ w, pr_clock p (pw_ext w));
  SendAfter p m (time_Sub t now).

(** ** Termination *)

Lemma dead_letter_sent p m cause (k : error → option error) w :
  ((deadLetter p m cause ≫= λ out, mret (Sent (k out))) w).1 ≠ Ret SendOutOfFuel.
Proof. unfold mbind, M_bind. by destruct (deadLetter p m cause w) as [[]]. Qed.

(** The code around the clock never turns it back, and a wait that ends without
    an error lasted its duration. *)
Record timely (p : producer) : Prop := {
  tm_send m e : pr_clock p e ≤ pr_clock p (oa_Send (pr_out p) m e).2;
  tm_backoff f n e : rp_Backoff (pr_retry p) = Some f → pr_clock p e ≤ pr_clock p (f n e).2;
  tm_hook f m err e : h_OnRetry (pr_hooks p) = Some f → pr_clock p e ≤ pr_clock p (f m err e).2;
  tm_wait d e e' : wait d e = (Ret None, e') → pr_clock p e + d ≤ pr_clock p e'
}.

Lemma nextDelay_time p attempt err w :
  timely p →
  let '(o, w') := nextDelay p attempt err w in
  pr_clock p (pw_ext w) ≤ pr_clock p (pw_ext w') ∧ pw_trace w' = pw_trace w ∧
  (∀ d, o = Ret d → minRetryDelay ≤ d).
Proof.
  intros Ht. unfold nextDelay, mbind, M_bind, retry_delay.
  destruct (rp_Backoff (pr_retry p)) as [f|] eqn:Ef.
  - pose proof (tm_backoff p Ht f (wrap64 (attempt - 1)) (pw_ext w) Ef) as Hb. unfold ext, zoom.
    destruct (f _ (pw_ext w)) as [[d|v] e]; cbn in *; (split; [done|]); (split; [done|]); [|done].
    intros d' [= <-]. lia.
  - cbn. split; [done|]. split; [done|]. intros d' [= <-]. lia.
Qed.

Lemma fireHook_time p m err w :
  timely p →
  ∃ w', fireHook (h_OnRetry (pr_hooks p)) m err w = (Ret tt, w') ∧
    pr_clock p (pw_ext w) ≤ pr_clock p (pw_ext w') ∧ pw_trace w' = pw_trace w.
Proof.
  intros Ht. unfold fireHook. destruct (h_OnRetry (pr_hooks p)) as [f|] eqn:Ef; [|by exists w].
  pose proof (tm_hook p Ht f m err (pw_ext w) Ef) as Hh. unfold recovering, ext, zoom.
  destruct (f m err (pw_ext w)) as [[[]|v] e]; by eexists.
Qed.

Lemma send_loop_in_budget fuel p m deadline attempt w :
  timely p → (1 ≤ fuel)%nat → deadline - pr_clock p (pw_ext w) < Z.of_nat fuel * minRetryDelay →
  (send_loop fuel p m deadline attempt w).1 ≠ Ret SendOutOfFuel.
Proof.
  intros Ht. revert attempt w. induction fuel as [|fuel IH]; intros attempt w Hf Hd; [lia|].
  cbn [send_loop]. pose proof (tm_send p Ht m (pw_ext w)) as Hs. unfold mbind at 1, M_bind at 1, ext at 1, zoom at 1.
  destruct (oa_Send (pr_out p) m (pw_ext w)) as [[r|v] e1]; [|done]. cbn [fst snd] in *.
  unfold mbind at 1, M_bind at 1, record at 1, modify at 1. set (w1 := mkPWorld _ _).
  destruct r as [err|]; [|done]. destruct (IsPermanent _); [done|].
  destruct (_ && _); [apply dead_letter_sent|].
  pose proof (nextDelay_time p attempt err w1 Ht) as Hn. unfold mbind at 1, M_bind at 1.
  destruct (nextDelay p attempt err w1) as [[d|v] w2]; [|done]. destruct Hn as (Hn & _ & Hmin).
  specialize (Hmin d eq_refl). unfold mbind at 1, M_bind at 1, gets at 1.
  destruct (deadline <? _) eqn:Eb; [apply dead_letter_sent|]. bool_to_prop.
  destruct (fireHook_time p m (Some err) w2 Ht) as (w3 & E3 & H3 & _). rewrite (bind_eq _ _ _ _ _ E3).
  unfold mbind at 1, M_bind at 1, ext at 1, zoom at 1.
  destruct (wait d (pw_ext w3)) as [[[werr|]|v] e4] eqn:Ew; [apply dead_letter_sent| |done].
  apply (tm_wait p Ht) in Ew. cbn [record modify mbind M_bind]. cbn in Hn, Hs.
  assert (minRetryDelay = 100000000) as Hm by reflexivity. apply IH; cbn; nia.
Qed.

Lemma send_loop_in_attempts fuel p m deadline attempt w :
  0 < rp_MaxAttempts (pr_retry p) ≤ MaxInt64 → 1 ≤ attempt → (1 ≤ fuel)%nat →
  rp_MaxAttempts (pr_retry p) - attempt < Z.of_nat fuel →
  (send_loop fuel p m deadline attempt w).1 ≠ Ret SendOutOfFuel.
Proof.
  intros Hmax. revert attempt w. induction fuel as [|fuel IH]; intros attempt w Ha Hf Hd; [lia|].
  cbn [send_loop]. unfold mbind at 1, M_bind at 1.
  destruct (ext (oa_Send (pr_out p) m) w) as [[r|v] w0]; [|done].
  unfold mbind at 1, M_bind at 1, record at 1, modify at 1.
  destruct r as [err|]; [|done]. destruct (IsPermanent _); [done|].
  destruct (_ && _) eqn:Ex; [apply dead_letter_sent|].
  unfold mbind at 1, M_bind at 1. destruct (nextDelay p attempt err _) as [[d|v] w2]; [|done].
  unfold mbind at 1, M_bind at 1, gets at 1. destruct (deadline <? _); [apply dead_letter_sent|].
  unfold mbind at 1, M_bind at 1. destruct (fireHook _ m (Some err) w2) as [[[]|v] w3]; [|done].
  unfold mbind at 1, M_bind at 1. destruct (ext (wait d) w3) as [[[werr|]|v] w4]; [apply dead_letter_sent| |done].
  cbn [record modify mbind M_bind].
  assert (attempt < rp_MaxAttempts (pr_retry p)) as Hlt.
  { replace (0 <? _) with true in Ex by (symmetry; apply Z.ltb_lt; lia). cbn in Ex. by apply Z.leb_gt in Ex. }
  apply IH; rewrite ?wrap64_id by (unfold int64_range, MinInt64, MaxInt64 in *; lia); lia.
Qed.

(** ** What a send may report *)

(** The dead-lettering of [cause]: its events and the error reported. *)
Inductive dead (p : producer) (cause : error) : list pevent → error → Prop :=
  | DeadNoSink :
      rp_DeadLetter (pr_retry p) = None → dead p cause [] cause
  | DeadDiverted :
      dead p cause [PDead (Ret None)] (Errorf [Sentinel ErrDeadLettered; cause] [])
  | DeadRefused o dlErr :
      o ≠ Ret None → dead p cause [PDead o] (JoinErr [cause; dlErr]).

Inductive send_fate (p : producer) : list pevent → option error → Prop :=
  | FateSent :
      send_fate p [PAttempt None] None
  | FatePermanent e :
      IsPermanent (Some e) = true → send_fate p [PAttempt (Some e)] (Some e)
  | FateExhausted e evs out :
      IsPermanent (Some e) = false → dead p e evs out →
      send_fate p (PAttempt (Some e) :: evs) (Some out)
  | FateOverBudget e evs out :
      IsPermanent (Some e) = false → dead p (Errorf [Sentinel ErrRetryBudgetExhausted; e] []) evs out →
      send_fate p (PAttempt (Some e) :: evs) (Some out)
  | FateCancelled e d werr evs out :
      IsPermanent (Some e) = false → dead p e evs out →
      send_fate p (PAttempt (Some e) :: PWait d (Some werr) :: evs) (Some (JoinErr [out; werr]))
  | FateAgain e d evs r :
      IsPermanent (Some e) = false → minRetryDelay ≤ d → send_fate p evs r →
      send_fate p (PAttempt (Some e) :: PWait d None :: evs) r.

Lemma ext_inv {A} (m : M E A) w a w' : ext m w = (Ret a, w') → pw_trace w' = pw_trace w.
Proof. unfold ext, zoom. destruct (m (pw_ext w)) as [o e]. by intros [= _ <-]. Qed.

Lemma fireHook_trace h m err w : ∃ w', fireHook h m err w = (Ret tt, w') ∧ pw_trace w' = pw_trace w.
Proof.
  unfold fireHook. destruct h as [f|]; [|by exists w]. unfold recovering, ext, zoom.
  destruct (f m err (pw_ext w)) as [[[]|v] e]; by eexists.
Qed.

Lemma deadLetter_runs p m cause w :
  ∃ out w' evs, deadLetter p m cause w = (Ret out, w') ∧ pw_trace w' = pw_trace w ++ evs ∧ dead p cause evs out.
Proof.
  unfold deadLetter. destruct (rp_DeadLetter (pr_retry p)) as [sink|] eqn:Es.
  2: { exists cause, w, []. rewrite app_nil_r. split; [done|]. split; [done|]. by apply DeadNoSink. }
  unfold mbind, M_bind, safeDeadLetter, ext, zoom.
  destruct (sink m (pw_ext w)) as [[[dlErr|]|v] e]; cbn.
  all: match goal with |- context [fireHook ?h ?m ?x ?w] =>
    destruct (fireHook_trace h m x w) as (w' & -> & Hw') end; cbn in Hw'.
  - eexists _, w', [PDead (Ret (Some dlErr))]. split; [done|]. split; [done|]. by apply DeadRefused.
  - eexists _, w', [PDead (Ret None)]. split; [done|]. split; [done|]. apply DeadDiverted.
  - eexists _, w', [PDead (Panic v)]. split; [done|]. split; [done|]. by apply DeadRefused.
Qed.

Lemma nextDelay_inv p attempt err w d w' :
  nextDelay p attempt err w = (Ret d, w') → pw_trace w' = pw_trace w ∧ minRetryDelay ≤ d ∧
    (∀ server, RetryAfterOf (Some err) = Some server → Z.min server (pr_retryAfterCap p) ≤ d).
Proof.
  unfold nextDelay. intros (d0 & w0 & E0 & E1)%bind_inv. injection E1 as <- <-. split.
  - unfold retry_delay in E0. destruct (rp_Backoff _); [by apply ext_inv in E0|by injection E0 as _ <-].
  - split; [lia|]. intros server Hs. cbn in Hs |- *. rewrite Hs. lia.
Qed.

Lemma dead_letter_tail p m cause (k : error → option error) w r w' :
  (deadLetter p m cause ≫= λ out, mret (Sent (k out))) w = (Ret (Sent r), w') →
  ∃ out evs, dead p cause evs out ∧ r = k out ∧ pw_trace w' = pw_trace w ++ evs.
Proof.
  destruct (deadLetter_runs p m cause w) as (out & w1 & evs & E1 & Ht & Hd).
  rewrite (bind_eq _ _ _ _ _ E1). intros [= <- <-]. eauto.
Qed.

Lemma send_loop_fate fuel p m deadline attempt w r w' :
  send_loop fuel p m deadline attempt w = (Ret (Sent r), w') →
  ∃ evs, pw_trace w' = pw_trace w ++ evs ∧ send_fate p evs r.
Proof.
  revert attempt w. induction fuel as [|fuel IH]; intros attempt w; [done|]. cbn [send_loop].
  intros (r0 & w0 & E0%ext_inv & Hk)%bind_inv. apply bind_inv in Hk as ([] & w1 & [= <-] & Hk).
  destruct r0 as [err|]; [|injection Hk as <- <-; exists [PAttempt None]; cbn; rewrite E0; split; [done|constructor]].
  destruct (IsPermanent (Some err)) eqn:Hp.
  { injection Hk as <- <-. exists [PAttempt (Some err)]. cbn. rewrite E0. split; [done|by constructor]. }
  destruct (_ && _).
  { apply (dead_letter_tail p m err Some) in Hk as (out & evs & Hd & -> & Ht). cbn in Ht.
    exists (PAttempt (Some err) :: evs). rewrite Ht, E0, <- app_assoc. split; [done|by apply FateExhausted]. }
  apply bind_inv in Hk as (d & w2 & (Ht2 & Hmin & _)%nextDelay_inv & Hk). cbn in Ht2.
  apply bind_inv in Hk as (now & w2' & [= <- <-] & Hk). destruct (deadline <? _).
  { apply (dead_letter_tail p m _ Some) in Hk as (out & evs & Hd & -> & Ht).
    exists (PAttempt (Some err) :: evs). rewrite Ht, Ht2, E0, <- app_assoc. split; [done|by apply FateOverBudget]. }
  destruct (fireHook_trace (h_OnRetry (pr_hooks p)) m (Some err) w2) as (w3 & E3 & Ht3).
  rewrite (bind_eq _ _ _ _ _ E3) in Hk. apply bind_inv in Hk as (werr & w4 & Ht4%ext_inv & Hk).
  apply bind_inv in Hk as ([] & w5 & [= <-] & Hk). destruct werr as [werr|].
  - apply (dead_letter_tail p m _ (λ out, Some (JoinErr [out; werr]))) in Hk as (out & evs & Hd & -> & Ht).
    cbn in Ht. exists (PAttempt (Some err) :: PWait d (Some werr) :: evs).
    rewrite Ht, Ht4, Ht3, Ht2, E0, <- !app_assoc. split; [done|by apply FateCancelled].
  - destruct (IH _ _ Hk) as (evs & Ht & Hf). cbn in Ht. exists (PAttempt (Some err) :: PWait d None :: evs).
    rewrite Ht, Ht4, Ht3, Ht2, E0, <- !app_assoc. split; [done|by apply FateAgain].
Qed.
End producer.

Arguments producer : clear implicits.
Arguments producerConfig : clear implicits.
Arguments OutboundAdapter : clear implicits.

(** ** Consequences *)

Section consequences.
Context {E T : Type} `{GoType T} (p : producer E T).

(** The error of the last attempt, if it failed. *)
Fixpoint last_attempt (evs : list pevent) : option (option error) :=
  match evs with
  | [] => None
  | ev :: rest =>
      match last_attempt rest with
      | Some r => Some r
      | None => match ev with PAttempt r => Some r | _ => None end
      end
  end.

Definition is_dead (ev : pevent) : bool := match ev with PDead _ => true | _ => false end.

(** Dead-lettering a cause keeps it visible, happens at most once, and says so
    when it worked. *)
Lemma dead_reports cause evs out :
  dead p cause evs out →
  (∀ s, Is cause s = true → Is out s = true) ∧ last_attempt evs = None ∧
  (countb is_dead evs ≤ 1)%nat ∧
  (PDead (Ret None) ∈ evs → Is out ErrDeadLettered = true).
Proof.
  destruct 1 as [Hn| |o dlErr Ho].
  - split_and!; [done|done|cbn; lia|set_solver].
  - split_and!; [|done|cbn; lia|done]. intros s Hs. rewrite Is_Errorf. cbn. by rewrite Hs, orb_true_r.
  - split_and!; [|done|cbn; lia|set_solver]. intros s Hs. cbn. by rewrite Hs.
Qed.

Lemma send_fate_reports evs r :
  send_fate p evs r →
  (∃ a, last_attempt evs = Some a ∧
     match a with
     | None => r = None
     | Some e => ∃ out, r = Some out ∧ ∀ s, Is e s = true → Is out s = true
     end) ∧
  (countb is_dead evs ≤ 1)%nat ∧
  (PDead (Ret None) ∈ evs → IsOpt r ErrDeadLettered = true).
Proof.
  induction 1 as [|e Hp|e evs out Hp Hd|e evs out Hp Hd|e d werr evs out Hp Hd|e d evs r Hp Hmin _ IH].
  - split_and!; [by eexists|cbn; lia|set_solver].
  - split_and!; [eexists; split; [done|by eexists]|cbn; lia|set_solver].
  - destruct (dead_reports _ _ _ Hd) as (H1 & H2 & H3 & H4). cbn. rewrite H2.
    split_and!; [eexists; split; [done|by eexists]|lia|set_solver].
  - destruct (dead_reports _ _ _ Hd) as (H1 & H2 & H3 & H4). cbn. rewrite H2.
    split_and!; [|lia|set_solver]. eexists. split; [done|]. eexists. split; [done|].
    intros s Hs. apply H1. rewrite Is_Errorf. cbn. by rewrite Hs, orb_true_r.
  - destruct (dead_reports _ _ _ Hd) as (H1 & H2 & H3 & H4). cbn. rewrite H2.
    split_and!; [|lia|].
    + eexists. split; [done|]. eexists. split; [done|]. intros s Hs. cbn. by rewrite H1.
    + intros Hin. rewrite H4; [done|]. set_solver.
  - destruct IH as ((a & Ha & Hr) & H2 & H3). cbn. rewrite Ha. split_and!; [by eexists|lia|set_solver].
Qed.
End consequences.

(** ** Properties *)

(** A producer of live strings whose clock is its state; the adapter fails
    transiently, each attempt takes one millisecond, waiting takes its time. *)
Definition demo_out : OutboundAdapter Z :=
  mkOutbound (λ _ t, (Ret (Some (Sentinel (OtherSentinel "down"))), t + millisecond)) None (Some true).
Definition demo_retry : RetryPolicy Z :=
  mkRetryPolicy 0 (Some (λ n, mret (n * second))) (Some (λ _, mret None)).
Definition demo_producer : producer Z string :=
  mkProducer demo_out None true (λ t, t) demo_retry true (60 * second) (2 * minute) (30 * second)
    (mkHooks None None None None).
Definition demo_wait (d : Z) : M Z (option error) := λ t, (Ret None, t + d).

Lemma demo_timely : timely demo_wait demo_producer.
Proof.
  split; cbn; intros *; unfold millisecond; try lia; try done.
  - intros [= <-]. cbn. lia.
  - unfold demo_wait. intros [= <-]. lia.
Qed.

(** A retrying send ends: whatever the adapter answers, and with any backoff,
    the retry loop makes at most one attempt per 100 milliseconds of its
    budget plus one (1201 by default), and at most MaxAttempts when that is
    set, as long as the clock does not run backwards and a timer does not
    fire early. *)
Theorem producer_terminates {E T} `{GoType T} wait (p : producer E T) m w :
  timely wait p → 0 < pr_retryBudget p →
  (sendRetrying wait (S (Z.to_nat (pr_retryBudget p / minRetryDelay))) p m w).1 ≠ Ret SendOutOfFuel ∧
  (0 < rp_MaxAttempts (pr_retry p) ≤ MaxInt64 →
   (sendRetrying wait (Z.to_nat (rp_MaxAttempts (pr_retry p))) p m w).1 ≠ Ret SendOutOfFuel).
Proof.
  intros Ht Hb. unfold sendRetrying. unfold mbind, M_bind, gets. split.
  - apply send_loop_in_budget; [done|lia|].
    rewrite Nat2Z.inj_succ, Z2Nat.id by (apply Z.div_pos; [lia|done]).
    pose proof (Z.mul_succ_div_gt (pr_retryBudget p) minRetryDelay). cbn in *.
    assert (minRetryDelay = 100000000) by reflexivity. lia.
  - intros Hmax. apply send_loop_in_attempts; lia.
Qed.

Lemma producer_terminates_witness :
  (sendRetrying demo_wait (S (Z.to_nat (2 * minute / minRetryDelay))) demo_producer (sample "a")
     (mkPWorld 0 [])).1 ≠ Ret SendOutOfFuel ∧
  (0 < 0 ≤ MaxInt64 →
   (sendRetrying demo_wait (Z.to_nat 0) demo_producer (sample "a") (mkPWorld 0 [])).1 ≠ Ret SendOutOfFuel).
Proof.
  apply (producer_terminates demo_wait demo_producer (sample "a") (mkPWorld 0 [])).
  - exact demo_timely.
  - vm_compute. reflexivity.
Defined.

(** A retrying send reports faithfully: it returns nil exactly when its last
    attempt was accepted, otherwise an error that matches everything the last
    attempt's error matches; it dead-letters at most once, and when the sink
    took the message the error says so (ErrDeadLettered). *)
Theorem producer_reports {E T} `{GoType T} wait fuel (p : producer E T) m w r w' :
  sendRetrying wait fuel p m w = (Ret (Sent r), w') →
  ∃ evs, pw_trace w' = pw_trace w ++ evs ∧
  (∃ a, last_attempt evs = Some a ∧
     match a with
     | None => r = None
     | Some e => ∃ out, r = Some out ∧ ∀ s, Is e s = true → Is out s = true
     end) ∧
  (countb is_dead evs ≤ 1)%nat ∧
  (PDead (Ret None) ∈ evs → IsOpt r ErrDeadLettered = true).
Proof.
  intros Hs. apply (send_loop_fate wait) in Hs as (evs & Ht & Hf). exists evs. split; [done|].
  by eapply send_fate_reports.
Qed.

Definition demo_sent := sendRetrying demo_wait 20 demo_producer (sample "a") (mkPWorld 0 []).
Definition demo_error : option error :=
  Some (Errorf [Sentinel ErrDeadLettered;
    Errorf [Sentinel ErrRetryBudgetExhausted; Sentinel (OtherSentinel "down")] []] []).

Lemma producer_reports_witness :
  ∃ evs, pw_trace demo_sent.2 = [] ++ evs ∧
  (∃ a, last_attempt evs = Some a ∧
     match a with
     | None => demo_error = None
     | Some e => ∃ out, demo_error = Some out ∧ ∀ s, Is e s = true → Is out s = true
     end) ∧
  (countb is_dead evs ≤ 1)%nat ∧
  (PDead (Ret None) ∈ evs → IsOpt demo_error ErrDeadLettered = true).
Proof.
  apply (producer_reports demo_wait 20 demo_producer (sample "a") (mkPWorld 0 []) demo_error demo_sent.2).
  vm_compute. reflexivity.
Defined.
