(* ===== verification/Exchange.v ===== *)
(** * Request and reply: the correlator, the exchange and the gateways

    [endpoint/exchange.go] and [endpoint/gateway.go].

    Concurrent exchanges, replies arriving on the reply channel and a Close
    share the correlator.  Its critical sections are functions; [xstep]
    interleaves them with the channel operations outside the lock: a delivery
    sends to the slot after it has unlocked, and an exchange that gives up may
    find its slot already taken. *)

From S2P Require Import Prelude Message Flow.

Local Open Scope Z_scope.

(** ** The correlator *)

(** A slot is a channel of capacity one, named by the number of its creation. *)
Record replyCorrelator : Type := mkCorrelator {
  rc_waiters : gmap string nat;
  rc_closed : bool;
  rc_next : nat
}.

Definition newReplyCorrelator : replyCorrelator := mkCorrelator ∅ false 0.

Definition register (id : string) (c : replyCorrelator) : (error + nat) * replyCorrelator :=
  if rc_closed c then (inl (Sentinel ErrGatewayClosed), c)
  else match rc_waiters c !! id with
  | Some _ => (inl (Sentinel ErrDuplicateCorrelation), c)
  | None =>
      let slot := rc_next c in
      (inr slot, mkCorrelator (<[id := slot]> (rc_waiters c)) (rc_closed c) (S slot))
  end.

(** The closure [register] returns. *)
Definition deregister (id : string) (slot : nat) (c : replyCorrelator) : bool * replyCorrelator :=
  match rc_waiters c !! id with
  | Some s =>
      if (s =? slot)%nat
      then (true, mkCorrelator (delete id (rc_waiters c)) (rc_closed c) (rc_next c))
      else (false, c)
  | None => (false, c)
  end.

(** The locked part of [deliver]: the slot to send the reply to. *)
Definition claim_slot (id : string) (c : replyCorrelator) : option nat * replyCorrelator :=
  match rc_waiters c !! id with
  | Some slot => (Some slot, mkCorrelator (delete id (rc_waiters c)) (rc_closed c) (rc_next c))
  | None => (None, c)
  end.

(** [closeAll]: the slots it closes. *)
Definition closeAll (c : replyCorrelator) : list nat * replyCorrelator :=
  if rc_closed c then ([], c)
  else ((map_to_list (rc_waiters c)).*2, mkCorrelator ∅ true (rc_next c)).

(** ** Concurrent exchanges *)

(** A slot's channel. *)
Inductive slot_state : Type := SlotEmpty | SlotFull (reply : msg) | SlotClosed.

(** [id, _ := m.Headers().String(HeaderCorrelationID)]. *)
Definition correlation_of (m : msg) : string :=
  default "" (Headers_String (msg_headers m) HeaderCorrelationID).

(** What a call of [Exchange] ends with. *)
Abbreviation xresult := (outcome (error + msg)).

(** An exchange that has registered, identified by its slot: in
    [request.Send], in the select, in giveUp's receive, or over. *)
Inductive phase : Type :=
  | Sending (id : string)
  | Waiting (id : string)
  | Draining (id : string) (r : xresult)
  | Over (id : string) (r : xresult).

Definition phase_id (ph : phase) : string :=
  match ph with Sending id | Waiting id | Draining id _ | Over id _ => id end.
Definition active (ph : phase) : bool := match ph with Sending _ | Waiting _ => true | _ => false end.
Definition over (ph : phase) : bool := match ph with Over _ _ => true | _ => false end.

(** The start of [Exchange]: its id and slot, or the error it returns. *)
Definition Exchange_begin (req : msg) (c : replyCorrelator)
    : (error + (string * nat)) * replyCorrelator :=
  let id := correlation_of req in
  if decide (id = "") then (inl (Sentinel ErrNoCorrelation), c)
  else match register id c with
  | (inl err, c') => (inl err, c')
  | (inr slot, c') => (inr (id, slot), c')
  end.

(** The exits of [Exchange] that leave [settled] false, which run giveUp. *)
Inductive abandons : phase → xresult → Prop :=
  | SendFailed id err : abandons (Sending id) (Ret (inl err))
  | SendPanicked id v : abandons (Sending id) (Panic v)
  | CtxDone id err : abandons (Waiting id) (Ret (inl err))
  | TimedOut id : abandons (Waiting id) (Ret (inl (Sentinel ErrReplyTimeout))).

(** [xw_unmatched] are the replies passed to routeUnmatched. *)
Record xworld : Type := mkXWorld {
  xw_corr : replyCorrelator;
  xw_slots : gmap nat slot_state;
  xw_phase : gmap nat phase;
  xw_sending : list (nat * msg);
  xw_arrived : list msg;
  xw_unmatched : list msg
}.

Definition xset_phase (n : nat) (ph : phase) (w : xworld) : xworld :=
  mkXWorld (xw_corr w) (xw_slots w) (<[n := ph]> (xw_phase w)) (xw_sending w) (xw_arrived w)
    (xw_unmatched w).
Definition close_slots (ns : list nat) (slots : gmap nat slot_state) : gmap nat slot_state :=
  foldr (λ n m, <[n := SlotClosed]> m) slots ns.

Inductive xstep : xworld → xworld → Prop :=
  (* Exchange up to its registration; on an error it returns without effect *)
  | XBegin req id n c' w :
      Exchange_begin req (xw_corr w) = (inr (id, n), c') →
      xstep w (mkXWorld c' (<[n := SlotEmpty]> (xw_slots w)) (<[n := Sending id]> (xw_phase w))
                 (xw_sending w) (xw_arrived w) (xw_unmatched w))
  (* request.Send returned nil *)
  | XSent n id w :
      xw_phase w !! n = Some (Sending id) → xstep w (xset_phase n (Waiting id) w)
  (* the receiver on the reply channel: deliver up to its unlock *)
  | XDeliver n c' reply w :
      claim_slot (correlation_of reply) (xw_corr w) = (Some n, c') →
      xstep w (mkXWorld c' (xw_slots w) (xw_phase w) ((n, reply) :: xw_sending w)
                 (reply :: xw_arrived w) (xw_unmatched w))
  | XUnmatched c' reply w :
      claim_slot (correlation_of reply) (xw_corr w) = (None, c') →
      xstep w (mkXWorld c' (xw_slots w) (xw_phase w) (xw_sending w) (reply :: xw_arrived w)
                 (reply :: xw_unmatched w))
  (* deliver's [slot <- reply] *)
  | XPut i n reply w :
      xw_sending w !! i = Some (n, reply) → xw_slots w !! n = Some SlotEmpty →
      xstep w (mkXWorld (xw_corr w) (<[n := SlotFull reply]> (xw_slots w)) (xw_phase w)
                 (delete i (xw_sending w)) (xw_arrived w) (xw_unmatched w))
  | XClose ns c' w :
      closeAll (xw_corr w) = (ns, c') →
      xstep w (mkXWorld c' (close_slots ns (xw_slots w)) (xw_phase w) (xw_sending w) (xw_arrived w)
                 (xw_unmatched w))
  (* the select's receive *)
  | XReceive n id reply w :
      xw_phase w !! n = Some (Waiting id) → xw_slots w !! n = Some (SlotFull reply) →
      xstep w (mkXWorld (xw_corr w) (<[n := SlotEmpty]> (xw_slots w))
                 (<[n := Over id (Ret (inr reply))]> (xw_phase w))
                 (xw_sending w) (xw_arrived w) (xw_unmatched w))
  | XReceiveClosed n id w :
      xw_phase w !! n = Some (Waiting id) → xw_slots w !! n = Some SlotClosed →
      xstep w (xset_phase n (Over id (Ret (inl (Sentinel ErrGatewayClosed)))) w)
  (* the deferred giveUp *)
  | XGiveUp n ph r c' w :
      xw_phase w !! n = Some ph → abandons ph r →
      deregister (phase_id ph) n (xw_corr w) = (true, c') →
      xstep w (mkXWorld c' (xw_slots w) (<[n := Over (phase_id ph) r]> (xw_phase w)) (xw_sending w)
                 (xw_arrived w) (xw_unmatched w))
  | XGiveUpLate n ph r c' w :
      xw_phase w !! n = Some ph → abandons ph r →
      deregister (phase_id ph) n (xw_corr w) = (false, c') →
      xstep w (xset_phase n (Draining (phase_id ph) r) w)
  | XDrain n id r reply w :
      xw_phase w !! n = Some (Draining id r) → xw_slots w !! n = Some (SlotFull reply) →
      xstep w (mkXWorld (xw_corr w) (<[n := SlotEmpty]> (xw_slots w)) (<[n := Over id r]> (xw_phase w))
                 (xw_sending w) (xw_arrived w) (reply :: xw_unmatched w))
  | XDrainClosed n id r w :
      xw_phase w !! n = Some (Draining id r) → xw_slots w !! n = Some SlotClosed →
      xstep w (xset_phase n (Over id r) w).

Definition xinitial : xworld := mkXWorld newReplyCorrelator ∅ ∅ [] [] [].

(** ** Invariant *)

(** Where the one permission to write to a slot is: with the waiters' table,
    with a delivery about to send, or used up. *)
Definition registered (w : xworld) (n : nat) : Prop := ∃ id, rc_waiters (xw_corr w) !! id = Some n.
Definition sending (w : xworld) (n : nat) : Prop := n ∈ (xw_sending w).*1.
Definition written (slots : gmap nat slot_state) (n : nat) : Prop :=
  ∃ st, slots !! n = Some st ∧ st ≠ SlotEmpty.

Definition result_ok (ph : phase) : Prop :=
  match ph with
  | Over id (Ret (inr reply)) => id = correlation_of reply
  | Draining _ (Ret (inr _)) => False
  | _ => True
  end.

Record xinv (w : xworld) : Prop := {
  xi_fresh n : (rc_next (xw_corr w) ≤ n)%nat → xw_slots w !! n = None ∧ xw_phase w !! n = None;
  xi_table id n : rc_waiters (xw_corr w) !! id = Some n →
    xw_slots w !! n = Some SlotEmpty ∧ ¬ sending w n ∧
    ∃ ph, xw_phase w !! n = Some ph ∧ active ph = true ∧ phase_id ph = id;
  xi_sending n reply : (n, reply) ∈ xw_sending w →
    xw_slots w !! n = Some SlotEmpty ∧
    ∃ ph, xw_phase w !! n = Some ph ∧ over ph = false ∧ phase_id ph = correlation_of reply;
  xi_full n reply : xw_slots w !! n = Some (SlotFull reply) →
    ∃ ph, xw_phase w !! n = Some ph ∧ over ph = false ∧ phase_id ph = correlation_of reply;
  xi_nodup : NoDup (xw_sending w).*1;
  xi_phase n ph : xw_phase w !! n = Some ph → result_ok ph ∧
    (over ph = false →
     (active ph = true ∧ rc_waiters (xw_corr w) !! phase_id ph = Some n) ∨ sending w n ∨
     written (xw_slots w) n)
}.

Lemma sending_spec w n : sending w n ↔ ∃ reply, (n, reply) ∈ xw_sending w.
Proof.
  unfold sending. rewrite list_elem_of_fmap. split.
  - intros ([n' r] & -> & Hin). by exists r.
  - intros [r Hin]. by exists (n, r).
Qed.

Lemma abandons_active ph r : abandons ph r → active ph = true ∧ ∀ reply, r ≠ Ret (inr reply).
Proof. by destruct 1. Qed.

(** *** Preservation *)

Lemma sending_delete i n r w :
  xw_sending w !! i = Some (n, r) → NoDup (xw_sending w).*1 →
  (∀ p, p ∈ delete i (xw_sending w) → p ∈ xw_sending w ∧ p.1 ≠ n) ∧
  (∀ k, sending w k → k = n ∨ k ∈ (delete i (xw_sending w)).*1) ∧
  NoDup (delete i (xw_sending w)).*1.
Proof.
  intros Hi Hnd. set (rest := delete i (xw_sending w)).
  assert (xw_sending w ≡ₚ (n, r) :: rest) as Hp by (by apply delete_perm).
  unfold sending. rewrite Hp in *. cbn in *. apply NoDup_cons in Hnd as [Hn Hnd].
  split; [|split; [|done]].
  - intros [k rk] Hk. split; [rewrite Hp; by right|]. cbn. intros ->. apply Hn, list_elem_of_fmap. by exists (n, rk).
  - intros k. rewrite Hp. cbn. by rewrite elem_of_cons.
Qed.

Lemma Exchange_begin_ok req c id n c' :
  Exchange_begin req c = (inr (id, n), c') →
  id = correlation_of req ∧ id ≠ "" ∧ rc_closed c = false ∧ rc_waiters c !! id = None ∧ n = rc_next c ∧
  c' = mkCorrelator (<[id := n]> (rc_waiters c)) false (S n).
Proof.
  unfold Exchange_begin, register. destruct (decide _); [done|]. destruct (rc_closed c); [done|].
  destruct (rc_waiters c !! correlation_of req) eqn:Hid; [done|]. intros [= <- <- <-]. done.
Qed.

Lemma xinv_begin w req id n c' :
  Exchange_begin req (xw_corr w) = (inr (id, n), c') → xinv w →
  xinv (mkXWorld c' (<[n := SlotEmpty]> (xw_slots w)) (<[n := Sending id]> (xw_phase w))
          (xw_sending w) (xw_arrived w) (xw_unmatched w)).
Proof.
  intros (_ & _ & _ & Hid & -> & ->)%Exchange_begin_ok Hw. set (n := rc_next (xw_corr w)).
  destruct (xi_fresh w Hw n (le_n _)) as [Hs0 Hp0].
  assert (¬ sending w n) as Hns.
  { intros [r Hr]%sending_spec. destruct (xi_sending w Hw _ _ Hr). congruence. }
  split; cbn [xw_corr xw_slots xw_phase xw_sending rc_next rc_waiters]; [..|apply Hw|].
  - intros k Hk. rewrite !lookup_insert_ne by lia. apply (xi_fresh w Hw). lia.
  - intros id' k. destruct (decide (id = id')) as [<-|Hne].
    + rewrite !lookup_insert_eq. intros [= <-]. rewrite !lookup_insert_eq. naive_solver.
    + rewrite lookup_insert_ne by done. intros Ht. destruct (xi_table w Hw _ _ Ht) as (H1 & H2 & H3).
      assert (k ≠ n) by congruence. by rewrite !lookup_insert_ne by done.
  - intros k r Hs. assert (k ≠ n) by (intros ->; apply Hns, sending_spec; eauto).
    rewrite !lookup_insert_ne by done. by apply (xi_sending w Hw).
  - intros k r. destruct (decide (k = n)) as [->|]; [by rewrite lookup_insert_eq|].
    rewrite !lookup_insert_ne by done. apply (xi_full w Hw).
  - intros k ph. destruct (decide (k = n)) as [->|Hne].
    + rewrite lookup_insert_eq. intros [= <-]. split; [done|]. left. cbn. by rewrite lookup_insert_eq.
    + rewrite lookup_insert_ne by done. intros Hph. destruct (xi_phase w Hw k ph Hph) as [Hr Hsv].
      split; [done|]. intros Ho. destruct (Hsv Ho) as [[Ha Ht]|[Hsd|(st & Hst)]]; [|by auto|].
      * left. split; [done|]. rewrite lookup_insert_ne; [done|]. congruence.
      * right; right. exists st. by rewrite lookup_insert_ne.
Qed.

Lemma claim_slot_some id c n c' :
  claim_slot id c = (Some n, c') → rc_waiters c !! id = Some n ∧
    c' = mkCorrelator (delete id (rc_waiters c)) (rc_closed c) (rc_next c).
Proof. unfold claim_slot. destruct (rc_waiters c !! id); naive_solver. Qed.

(** Distinct entries of the table have distinct slots. *)
Lemma table_inj w id id' n :
  xinv w → rc_waiters (xw_corr w) !! id = Some n → rc_waiters (xw_corr w) !! id' = Some n → id = id'.
Proof.
  intros Hw H1 H2. destruct (xi_table w Hw _ _ H1) as (_ & _ & ph & Hp & _ & <-).
  destruct (xi_table w Hw _ _ H2) as (_ & _ & ph' & Hp' & _ & <-). congruence.
Qed.

Lemma xinv_deliver w n c' reply :
  claim_slot (correlation_of reply) (xw_corr w) = (Some n, c') → xinv w →
  xinv (mkXWorld c' (xw_slots w) (xw_phase w) ((n, reply) :: xw_sending w)
          (reply :: xw_arrived w) (xw_unmatched w)).
Proof.
  intros [Hid ->]%claim_slot_some Hw. destruct (xi_table w Hw _ _ Hid) as (Hs & Hns & ph0 & Hp & Ha & Hphid).
  split; cbn [xw_corr xw_slots xw_phase xw_sending rc_next rc_waiters]; [apply Hw|..].
  - intros id' k [Hne Ht]%lookup_delete_Some. destruct (xi_table w Hw _ _ Ht) as (H1 & H2 & H3).
    split; [done|]. split; [|done]. unfold sending. cbn. intros [->|?]%elem_of_cons; [|done].
    by apply Hne, (table_inj w _ _ n).
  - intros k r [[= -> ->]|Hr]%elem_of_cons; [|by apply (xi_sending w Hw)]. split; [done|].
    exists ph0. split; [done|]. split; [by destruct ph0|done].
  - apply Hw.
  - cbn. constructor; [done|apply Hw].
  - intros k ph Hph. destruct (xi_phase w Hw k ph Hph) as [Hr Hsv]. split; [done|]. intros Ho.
    unfold sending. cbn. rewrite elem_of_cons.
    destruct (decide (k = n)) as [->|Hne]; [by auto|].
    destruct (Hsv Ho) as [[Hac Ht]|[Hx|Hx]]; [left|by auto|by auto]. split; [done|].
    rewrite lookup_delete_ne; [done|]. intros Heq. rewrite <- Heq in Ht. congruence.
Qed.

Lemma xinv_put w i n reply :
  xw_sending w !! i = Some (n, reply) → xw_slots w !! n = Some SlotEmpty → xinv w →
  xinv (mkXWorld (xw_corr w) (<[n := SlotFull reply]> (xw_slots w)) (xw_phase w)
          (delete i (xw_sending w)) (xw_arrived w) (xw_unmatched w)).
Proof.
  intros Hi Hsl Hw. destruct (sending_delete i n reply w Hi (xi_nodup w Hw)) as (Hin & Hout & Hnd).
  assert ((n, reply) ∈ xw_sending w) as Hn by (by eapply list_elem_of_lookup_2).
  split; cbn [xw_corr xw_slots xw_phase xw_sending]; [..|done|].
  - intros k Hk. destruct (xi_fresh w Hw k Hk) as [H1 H2]. split; [|done].
    rewrite lookup_insert_ne; [done|]. intros ->. congruence.
  - intros id k Ht. destruct (xi_table w Hw _ _ Ht) as (H1 & H2 & H3).
    assert (k ≠ n) by (intros ->; apply H2, sending_spec; eauto). rewrite lookup_insert_ne by done.
    split; [done|]. split; [|done]. intros [r [Hr _]%Hin]%sending_spec. apply H2, sending_spec. eauto.
  - intros k r [Hr Hne]%Hin. cbn in Hne. rewrite lookup_insert_ne by done. by apply (xi_sending w Hw).
  - intros k r. destruct (decide (k = n)) as [->|Hne].
    + rewrite lookup_insert_eq. intros [= <-]. destruct (xi_sending w Hw _ _ Hn) as (_ & ph & ?). naive_solver.
    + rewrite lookup_insert_ne by done. apply (xi_full w Hw).
  - intros k ph Hph. destruct (xi_phase w Hw k ph Hph) as [Hr Hsv]. split; [done|]. intros Ho.
    destruct (decide (k = n)) as [->|Hne].
    + right; right. exists (SlotFull reply). by rewrite lookup_insert_eq.
    + destruct (Hsv Ho) as [Ht|[Hx|(st & Hst & Hne')]]; [by auto| |].
      * destruct (Hout k Hx) as [->|]; [done|]. by right; left.
      * right; right. exists st. by rewrite lookup_insert_ne.
Qed.

(** An exchange whose slot nobody will write to any more may end. *)
Lemma xinv_over w n sl ph0 id r c' arr unm :
  xinv w → xw_phase w !! n = Some ph0 → ¬ sending w n → result_ok (Over id r) →
  (∀ reply, sl ≠ SlotFull reply) → rc_next c' = rc_next (xw_corr w) →
  (∀ id n', rc_waiters c' !! id = Some n' ↔ rc_waiters (xw_corr w) !! id = Some n' ∧ n' ≠ n) →
  xinv (mkXWorld c' (<[n := sl]> (xw_slots w)) (<[n := Over id r]> (xw_phase w)) (xw_sending w) arr unm).
Proof.
  intros Hw Hph0 Hns Hres Hsl Hnext Htab. split; cbn [xw_corr xw_slots xw_phase xw_sending]; [..|apply Hw|].
  - intros k Hk. rewrite Hnext in Hk. destruct (xi_fresh w Hw k Hk) as [H1 H2].
    assert (k ≠ n) by congruence. by rewrite !lookup_insert_ne.
  - intros id' k [Ht Hne]%Htab. rewrite !lookup_insert_ne by done. by apply (xi_table w Hw).
  - intros k reply Hs. assert (k ≠ n) by (intros ->; apply Hns, sending_spec; eauto).
    rewrite !lookup_insert_ne by done. by apply (xi_sending w Hw).
  - intros k reply. destruct (decide (k = n)) as [->|Hne].
    + rewrite lookup_insert_eq. intros [= ->]. by destruct (Hsl reply).
    + rewrite !lookup_insert_ne by done. apply (xi_full w Hw).
  - intros k ph. destruct (decide (k = n)) as [->|Hne].
    + rewrite lookup_insert_eq. by intros [= <-].
    + rewrite lookup_insert_ne by done. intros Hph. destruct (xi_phase w Hw k ph Hph) as [Hr Hsv].
      split; [done|]. intros Ho. destruct (Hsv Ho) as [[Ha Ht]|[Hx|(st & Hst)]]; [|by auto|].
      * left. split; [done|]. by apply Htab.
      * right; right. exists st. by rewrite lookup_insert_ne.
Qed.

(** A slot that has been written to is not in the table and not being sent to. *)
Lemma written_off w n :
  xinv w → written (xw_slots w) n →
  ¬ sending w n ∧ ∀ id n', rc_waiters (xw_corr w) !! id = Some n' ↔
    rc_waiters (xw_corr w) !! id = Some n' ∧ n' ≠ n.
Proof.
  intros Hw (st & Hsl & Hst). split.
  - intros [r [Hs _]%(xi_sending w Hw)]%sending_spec. congruence.
  - intros id n'. split; [|tauto]. intros Ht. split; [done|]. intros ->.
    destruct (xi_table w Hw _ _ Ht) as [Hs _]. congruence.
Qed.

Lemma lookup_close_slots ns (slots : gmap nat slot_state) n :
  close_slots ns slots !! n = if decide (n ∈ ns) then Some SlotClosed else slots !! n.
Proof.
  induction ns as [|n' ns IH]; [by rewrite decide_False by apply not_elem_of_nil|].
  change (close_slots (n' :: ns) slots) with (<[n' := SlotClosed]> (close_slots ns slots)).
  destruct (decide (n = n')) as [->|Hne].
  - rewrite lookup_insert_eq, decide_True by (by left). done.
  - rewrite lookup_insert_ne, IH by done. apply decide_ext. rewrite elem_of_cons. naive_solver.
Qed.

Lemma xinv_close w ns c' :
  closeAll (xw_corr w) = (ns, c') → xinv w →
  xinv (mkXWorld c' (close_slots ns (xw_slots w)) (xw_phase w) (xw_sending w) (xw_arrived w)
          (xw_unmatched w)).
Proof.
  unfold closeAll. destruct (rc_closed _); intros [= <- <-] Hw; [by destruct w|].
  assert (∀ n, n ∈ (map_to_list (rc_waiters (xw_corr w))).*2 ↔ registered w n) as Hreg.
  { intros n. rewrite list_elem_of_fmap. split.
    - intros ([id n'] & -> & Hin%elem_of_map_to_list). by exists id.
    - intros [id Hid]. exists (id, n). split; [done|]. by apply elem_of_map_to_list. }
  split; cbn [xw_corr xw_slots xw_phase xw_sending rc_next rc_waiters]; [..|apply Hw|].
  - intros n Hn. rewrite lookup_close_slots. destruct (xi_fresh w Hw n Hn) as [H1 H2].
    rewrite decide_False; [done|]. intros [id Hid]%Hreg. destruct (xi_table w Hw _ _ Hid). congruence.
  - intros id n. by rewrite lookup_empty.
  - intros n r Hs. rewrite lookup_close_slots, decide_False; [by apply (xi_sending w Hw)|].
    intros [id Hid]%Hreg. destruct (xi_table w Hw _ _ Hid) as (_ & Hns & _). apply Hns, sending_spec. eauto.
  - intros n r. rewrite lookup_close_slots. case_decide; [done|]. apply (xi_full w Hw).
  - intros n ph Hph. destruct (xi_phase w Hw n ph Hph) as [Hr Hsv]. split; [done|]. intros Ho. right.
    unfold written. rewrite lookup_close_slots.
    destruct (decide (n ∈ _)) as [Hin|Hin]; [right; by eexists|].
    destruct (Hsv Ho) as [[Ha Ht]|Hx]; [|done]. destruct Hin. apply Hreg. by eexists.
Qed.

Lemma deregister_true id n c c' :
  deregister id n c = (true, c') → rc_waiters c !! id = Some n ∧
    c' = mkCorrelator (delete id (rc_waiters c)) (rc_closed c) (rc_next c).
Proof.
  unfold deregister. destruct (rc_waiters c !! id) as [s|]; [|done].
  destruct (s =? n)%nat eqn:E; [|done]. apply Nat.eqb_eq in E as ->. naive_solver.
Qed.

Lemma deregister_false id n c c' : deregister id n c = (false, c') → rc_waiters c !! id ≠ Some n.
Proof.
  unfold deregister. destruct (rc_waiters c !! id) as [s|]; [|done].
  destruct (s =? n)%nat eqn:E; [done|]. apply Nat.eqb_neq in E. naive_solver.
Qed.

(** An exchange moves on without touching the correlator; while it is in the
    table it stays active. *)
Lemma xinv_phase w n ph ph' :
  xw_phase w !! n = Some ph → phase_id ph' = phase_id ph → over ph' = false → result_ok ph' →
  over ph = false → (rc_waiters (xw_corr w) !! phase_id ph = Some n → active ph' = true) →
  xinv w → xinv (xset_phase n ph' w).
Proof.
  intros Hph Hid Ho' Hres Ho Hact Hw.
  split; cbn [xset_phase xw_corr xw_slots xw_phase xw_sending]; [..|apply Hw|].
  - intros k Hk. destruct (xi_fresh w Hw k Hk) as [H1 H2]. assert (k ≠ n) by congruence.
    by rewrite lookup_insert_ne.
  - intros id' k Ht. destruct (xi_table w Hw _ _ Ht) as (H1 & H2 & ph1 & H3 & H4 & H5).
    split; [done|]. split; [done|]. destruct (decide (k = n)) as [->|].
    + rewrite lookup_insert_eq. exists ph'. assert (ph1 = ph) as -> by congruence. subst id'. auto.
    + rewrite lookup_insert_ne by done. eauto.
  - intros k r Hs. destruct (xi_sending w Hw _ _ Hs) as (H1 & ph1 & H3 & H4 & H5). split; [done|].
    destruct (decide (k = n)) as [->|]; [rewrite lookup_insert_eq|rewrite lookup_insert_ne by done; by eauto].
    exists ph'. assert (ph1 = ph) as -> by congruence. rewrite Hid. auto.
  - intros k r Hf. destruct (xi_full w Hw _ _ Hf) as (ph1 & H3 & H4 & H5).
    destruct (decide (k = n)) as [->|]; [rewrite lookup_insert_eq|rewrite lookup_insert_ne by done; by eauto].
    exists ph'. assert (ph1 = ph) as -> by congruence. rewrite Hid. auto.
  - intros k ph1. destruct (decide (k = n)) as [->|Hne].
    + rewrite lookup_insert_eq. intros [= <-]. split; [done|]. intros _.
      destruct (xi_phase w Hw n ph Hph) as [_ Hsv]. rewrite Hid.
      destruct (Hsv Ho) as [[_ Ht]|Hx]; [left; auto|by right].
    + rewrite lookup_insert_ne by done. apply (xi_phase w Hw).
Qed.

Lemma xinv_receive w n ph id r reply unm :
  xinv w → xw_phase w !! n = Some ph → xw_slots w !! n = Some (SlotFull reply) → result_ok (Over id r) →
  xinv (mkXWorld (xw_corr w) (<[n := SlotEmpty]> (xw_slots w)) (<[n := Over id r]> (xw_phase w))
          (xw_sending w) (xw_arrived w) unm).
Proof.
  intros Hw Hph Hs Hr. destruct (written_off w n Hw) as [H1 H2]; [by eexists|]. by eapply xinv_over.
Qed.

Lemma xinv_closed w n ph id r :
  xinv w → xw_phase w !! n = Some ph → xw_slots w !! n = Some SlotClosed → result_ok (Over id r) →
  xinv (xset_phase n (Over id r) w).
Proof.
  intros Hw Hph Hs Hr. destruct (written_off w n Hw) as [H1 H2]; [by eexists|]. unfold xset_phase.
  rewrite <- (insert_id (xw_slots w) n SlotClosed Hs) at 1. by eapply xinv_over.
Qed.

Lemma xinv_give_up w n ph r c' :
  xinv w → xw_phase w !! n = Some ph → abandons ph r →
  deregister (phase_id ph) n (xw_corr w) = (true, c') →
  xinv (mkXWorld c' (xw_slots w) (<[n := Over (phase_id ph) r]> (xw_phase w)) (xw_sending w)
          (xw_arrived w) (xw_unmatched w)).
Proof.
  intros Hw Hph [Ha Hr]%abandons_active [Ht ->]%deregister_true.
  destruct (xi_table w Hw _ _ Ht) as (H1 & H2 & H3).
  rewrite <- (insert_id (xw_slots w) n SlotEmpty H1).
  eapply xinv_over; [done|done|done| |done|done|].
  - destruct r as [[|reply]|]; [done|by destruct (Hr reply)|done].
  - cbn. intros id' n'. rewrite lookup_delete_Some. split.
    + intros [Hne Ht']. split; [done|]. intros ->. by apply Hne, (table_inj w _ _ n).
    + intros [Ht' Hne]. split; [|done]. congruence.
Qed.

Lemma xinv_step w w' : xstep w w' → xinv w → xinv w'.
Proof.
  intros Hstep Hw. destruct Hstep as [req id n c' w Hr|n id w Hph|n c' reply w Hc|c' reply w Hc|
    i n reply w Hi Hs|ns c' w Hc|n id reply w Hph Hs|n id w Hph Hs|n ph r c' w Hph Hab Hd|
    n ph r c' w Hph Hab Hd|n id r reply w Hph Hs|n id r w Hph Hs].
  - by eapply xinv_begin.
  - by eapply xinv_phase.
  - by eapply xinv_deliver.
  - unfold claim_slot in Hc. destruct (rc_waiters _ !! _); [done|]. injection Hc as <-. by destruct Hw.
  - by apply xinv_put.
  - by apply xinv_close.
  - eapply xinv_receive; [done..|]. destruct (xi_full w Hw _ _ Hs) as (ph & Hp & _ & Hid).
    rewrite Hph in Hp. by injection Hp as <-.
  - by eapply xinv_closed.
  - by apply xinv_give_up.
  - apply abandons_active in Hab as [Ha Hr]. apply deregister_false in Hd.
    eapply xinv_phase; [done|done|done| |by destruct ph|done|done].
    destruct r as [[|reply]|]; [done|by destruct (Hr reply)|done].
  - eapply xinv_receive; [done..|]. destruct (xi_phase w Hw n _ Hph) as [Hr _].
    by destruct r as [[|]|].
  - eapply xinv_closed; [done..|]. destruct (xi_phase w Hw n _ Hph) as [Hr _].
    by destruct r as [[|]|].
Qed.

(** *** The ledger of replies *)

Section collect.
Context {A : Type} (f : A → list msg).

Definition collect (m : gmap nat A) : list msg := map_to_list m ≫= λ p, f p.2.

Lemma collect_take m n a : m !! n = Some a → collect m ≡ₚ f a ++ collect (delete n m).
Proof. intros Hn. unfold collect. by rewrite <- (map_to_list_delete _ _ _ Hn). Qed.

Lemma collect_insert m n a : collect (<[n := a]> m) ≡ₚ f a ++ collect (delete n m).
Proof.
  rewrite <- insert_delete_eq. unfold collect. rewrite map_to_list_insert by apply lookup_delete_eq. done.
Qed.

Lemma collect_nil m : (∀ n a, m !! n = Some a → f a = []) → collect m = [].
Proof.
  intros Hf. unfold collect. apply elem_of_nil_inv. intros x ([n a] & Hx & Hin%elem_of_map_to_list)%list_elem_of_bind.
  cbn in Hx. rewrite (Hf n a Hin) in Hx. by apply not_elem_of_nil in Hx.
Qed.

Lemma collect_same m n a : default [] (f <$> m !! n) = f a → collect (<[n := a]> m) ≡ₚ collect m.
Proof.
  intros Hf. rewrite collect_insert. destruct (m !! n) as [a0|] eqn:Hn; cbn in Hf.
  - by rewrite (collect_take _ _ _ Hn), Hf.
  - by rewrite <- Hf, delete_id.
Qed.

Lemma collect_gain m n a0 a :
  m !! n = Some a0 → f a0 = [] → collect (<[n := a]> m) ≡ₚ f a ++ collect m.
Proof. intros Hn Hf. by rewrite collect_insert, (collect_take _ _ _ Hn), Hf. Qed.

Lemma collect_lose m n a0 a :
  m !! n = Some a0 → f a = [] → collect m ≡ₚ f a0 ++ collect (<[n := a]> m).
Proof. intros Hn Hf. by rewrite collect_insert, (collect_take _ _ _ Hn), Hf. Qed.
End collect.

(** The reply in a slot; the reply an exchange returned. *)
Definition reply_in (st : slot_state) : list msg := match st with SlotFull r => [r] | _ => [] end.
Definition returned_by (ph : phase) : list msg :=
  match ph with Over _ (Ret (inr reply)) => [reply] | _ => [] end.

Definition xledger (w : xworld) : Prop :=
  xw_arrived w ≡ₚ (xw_sending w).*2 ++ collect reply_in (xw_slots w) ++
    collect returned_by (xw_phase w) ++ xw_unmatched w.

Lemma collect_close ns slots :
  (∀ n, n ∈ ns → slots !! n = Some SlotEmpty) →
  collect reply_in (close_slots ns slots) ≡ₚ collect reply_in slots.
Proof.
  induction ns as [|n ns IH]; intros Hall; [done|].
  change (close_slots (n :: ns) slots) with (<[n := SlotClosed]> (close_slots ns slots)).
  rewrite collect_same; [apply IH; intros n' Hn'; apply Hall; by right|].
  rewrite lookup_close_slots. case_decide; [done|]. by rewrite Hall by (by left).
Qed.

Lemma abandons_returned ph id r : abandons ph r → returned_by ph = returned_by (Over id r).
Proof. by destruct 1. Qed.

Lemma xledger_step w w' : xstep w w' → xinv w → xledger w → xledger w'.
Proof.
  intros Hstep Hw. unfold xledger.
  destruct Hstep as [req id n c' w Hr|n id w Hph|n c' reply w Hc|c' reply w Hc|
    i n reply w Hi Hs|ns c' w Hc|n id reply w Hph Hs|n id w Hph Hs|n ph r c' w Hph Hab Hd|
    n ph r c' w Hph Hab Hd|n id r reply w Hph Hs|n id r w Hph Hs]; intros Hl;
    cbn [xw_sending xw_slots xw_phase xw_arrived xw_unmatched xset_phase].
  - apply Exchange_begin_ok in Hr as (_ & _ & _ & _ & -> & _).
    destruct (xi_fresh w Hw (rc_next (xw_corr w)) (le_n _)) as [H1 H2].
    rewrite !collect_same; [done|by rewrite H2|by rewrite H1].
  - rewrite collect_same; [done|]. by rewrite Hph.
  - by rewrite Hl.
  - rewrite Hl. by rewrite <- !Permutation_middle.
  - rewrite (collect_gain _ _ _ _ _ Hs eq_refl). rewrite (delete_perm _ _ _ Hi) in Hl.
    cbn in *. by rewrite Hl, <- Permutation_middle.
  - rewrite collect_close; [done|]. unfold closeAll in Hc. destruct (rc_closed _); injection Hc as <- <-.
    + intros n Hn. by apply not_elem_of_nil in Hn.
    + intros n ([id n'] & -> & Hin%elem_of_map_to_list)%list_elem_of_fmap. by apply (xi_table w Hw id).
  - rewrite (collect_lose _ _ _ _ _ Hs (eq_refl : reply_in SlotEmpty = [])) in Hl.
    rewrite (collect_gain _ _ _ _ _ Hph eq_refl). cbn in *. rewrite Hl. by rewrite <- !Permutation_middle.
  - rewrite collect_same; [done|]. by rewrite Hph.
  - rewrite collect_same; [done|]. rewrite Hph. by apply abandons_returned.
  - rewrite collect_same; [done|]. rewrite Hph. by destruct Hab.
  - destruct (xi_phase w Hw n _ Hph) as [Hr _].
    rewrite (collect_lose _ _ _ _ _ Hs (eq_refl : reply_in SlotEmpty = [])) in Hl.
    rewrite (collect_same returned_by) by (rewrite Hph; by destruct r as [[|]|]).
    cbn in *. rewrite Hl. by rewrite <- !Permutation_middle.
  - destruct (xi_phase w Hw n _ Hph) as [Hr _]. rewrite collect_same; [done|].
    rewrite Hph. by destruct r as [[|]|].
Qed.

Lemma xinitial_inv : xinv xinitial.
Proof.
  split; cbn.
  - intros n _. by rewrite !lookup_empty.
  - intros id n. by rewrite lookup_empty.
  - intros n r Hn. by apply not_elem_of_nil in Hn.
  - intros n r. by rewrite lookup_empty.
  - constructor.
  - intros n ph. by rewrite lookup_empty.
Qed.

Lemma xreach w : rtc xstep xinitial w → xinv w ∧ xledger w.
Proof.
  intros Hr. assert (xinv xinitial ∧ xledger xinitial) as Hi by (split; [apply xinitial_inv|by vm_compute]).
  induction Hr as [|w1 w2 w3 Hs _ IH]; [done|].
  apply IH. destruct Hi as [Hw Hl]. split; [by eapply xinv_step|by eapply xledger_step].
Qed.

(** ** Properties *)

(** The correlator never blocks, panics or strands an exchange, however
    concurrent exchanges, replies and a Close interleave: a delivery that has
    claimed a slot finds it open and empty, so its send returns at once and
    cannot hit a closed channel; and an exchange that gave up too late, by an
    error, a timeout or a panic, always has its slot filled, closed or about
    to be filled, so its drain ends. *)
Theorem exchange_never_stuck w :
  rtc xstep xinitial w →
  (∀ n reply, (n, reply) ∈ xw_sending w → xw_slots w !! n = Some SlotEmpty) ∧
  (∀ n id r, xw_phase w !! n = Some (Draining id r) →
     (∃ reply, (n, reply) ∈ xw_sending w) ∨
     xw_slots w !! n = Some SlotClosed ∨ ∃ reply, xw_slots w !! n = Some (SlotFull reply)).
Proof.
  intros Hr. destruct (xreach w Hr) as [Hw _]. split.
  - intros n reply Hin. by eapply (xi_sending w Hw).
  - intros n id r Hph. destruct (xi_phase w Hw n _ Hph) as [_ Hsv].
    destruct (Hsv eq_refl) as [[Ha _]|[Hs%sending_spec|(st & Hst & Hne)]]; [done|by left|].
    right. destruct st; [done|by right; eexists|by left].
Qed.

Definition request_of (id : string) : msg := WithHeader (sample id) HeaderCorrelationID (AString id).
(** Two exchanges; the reply to the first is in flight when it gives up, and
    the exchange is closed before the second got one. *)
Definition demo_exchange : xworld :=
  mkXWorld (mkCorrelator ∅ true 2) (<[1%nat := SlotClosed]> (<[0%nat := SlotEmpty]> ∅))
    (<[0%nat := Draining "a" (Ret (inl (Sentinel ErrReplyTimeout)))]> (<[1%nat := Sending "b"]> ∅))
    [(0%nat, request_of "a")] [request_of "a"] [].

Lemma demo_exchange_run : rtc xstep xinitial demo_exchange.
Proof.
  eapply rtc_l; [by apply (XBegin (request_of "a") "a" 0)|].
  eapply rtc_l; [by apply (XBegin (request_of "b") "b" 1)|].
  eapply rtc_l; [by apply (XSent 0 "a")|].
  eapply rtc_l; [by eapply (XDeliver 0 _ (request_of "a"))|].
  eapply rtc_l; [by eapply (XGiveUpLate 0 (Waiting "a")); [|apply TimedOut|vm_compute; reflexivity]|].
  eapply rtc_l; [eapply (XClose [1%nat]); vm_compute; reflexivity|].
  vm_compute. apply rtc_refl.
Qed.

Lemma exchange_never_stuck_witness :
  xw_slots demo_exchange !! 0%nat = Some SlotEmpty ∧
  ((∃ reply, (0%nat, reply) ∈ xw_sending demo_exchange) ∨
   xw_slots demo_exchange !! 0%nat = Some SlotClosed ∨
   ∃ reply, xw_slots demo_exchange !! 0%nat = Some (SlotFull reply)).
Proof.
  destruct (exchange_never_stuck demo_exchange demo_exchange_run) as [H1 H2].
  split; [apply (H1 0%nat (request_of "a")); by left|by eapply H2].
Defined.

(** C27. No reply is lost, used twice or given to the wrong caller: the replies that
    arrived are exactly those on their way to a slot, in a slot, returned by
    an exchange, or handed to the unmatched-reply handling; a reply on its way
    to a slot or in one belongs to an exchange of its correlation id that has
    not ended, so that none is stranded: once every exchange has ended, each
    reply that arrived was returned or handed to the unmatched-reply handling;
    and an exchange only ever returns a reply that carries its own correlation
    id. *)
Theorem exchange_conserves_replies w :
  rtc xstep xinitial w →
  xw_arrived w ≡ₚ (xw_sending w).*2 ++ collect reply_in (xw_slots w) ++
    collect returned_by (xw_phase w) ++ xw_unmatched w ∧
  (∀ n reply, (n, reply) ∈ xw_sending w ∨ xw_slots w !! n = Some (SlotFull reply) →
     ∃ ph, xw_phase w !! n = Some ph ∧ over ph = false ∧ phase_id ph = correlation_of reply) ∧
  ((∀ n ph, xw_phase w !! n = Some ph → over ph = true) →
     xw_arrived w ≡ₚ collect returned_by (xw_phase w) ++ xw_unmatched w) ∧
  ∀ n id reply, xw_phase w !! n = Some (Over id (Ret (inr reply))) → correlation_of reply = id.
Proof.
  intros Hr. destruct (xreach w Hr) as [Hw Hl].
  assert (∀ n reply, (n, reply) ∈ xw_sending w ∨ xw_slots w !! n = Some (SlotFull reply) →
    ∃ ph, xw_phase w !! n = Some ph ∧ over ph = false ∧ phase_id ph = correlation_of reply) as Hlive.
  { intros n reply [Hn|Hn]; [by eapply xi_sending|by apply xi_full]. }
  split; [done|]. split; [done|]. split.
  - intros Hover. unfold xledger in Hl.
    assert (∀ n reply, ¬ ((n, reply) ∈ xw_sending w ∨ xw_slots w !! n = Some (SlotFull reply))) as Hno.
    { intros n reply (ph & Hph & Ho & _)%Hlive. by rewrite (Hover n ph Hph) in Ho. }
    rewrite (collect_nil reply_in) in Hl.
    2:{ intros n [|reply|] Hn; [done| |done]. destruct (Hno n reply). by right. }
    destruct (xw_sending w) as [|[n reply] l] eqn:Hs; [done|]. destruct (Hno n reply). left. left.
  - intros n id reply Hph. by destruct (xi_phase w Hw n _ Hph).
Qed.

(** Two exchanges: one got its reply, and the other gave up when its reply was
    already on its way. *)
Definition demo_answered : xworld :=
  mkXWorld (mkCorrelator ∅ false 2) (<[1%nat := SlotEmpty]> (<[0%nat := SlotEmpty]> ∅))
    (<[1%nat := Over "b" (Ret (inl (Sentinel ErrReplyTimeout)))]>
      (<[0%nat := Over "a" (Ret (inr (request_of "a")))]> ∅))
    [] [request_of "b"; request_of "a"] [request_of "b"].

(** After the first of the two. *)
Definition demo_first : xworld :=
  mkXWorld (mkCorrelator ∅ false 1) (<[0%nat := SlotEmpty]> ∅)
    (<[0%nat := Over "a" (Ret (inr (request_of "a")))]> ∅) [] [request_of "a"] [].

Lemma demo_first_run : rtc xstep xinitial demo_first.
Proof.
  eapply rtc_l; [by apply (XBegin (request_of "a") "a" 0)|].
  eapply rtc_l; [by eapply (XDeliver 0 _ (request_of "a"))|].
  eapply rtc_l; [by apply (XPut 0 0 (request_of "a"))|].
  eapply rtc_l; [by apply (XSent 0 "a")|].
  eapply rtc_l; [by apply (XReceive 0 "a" (request_of "a"))|].
  vm_compute. apply rtc_refl.
Qed.

Lemma demo_answered_run : rtc xstep xinitial demo_answered.
Proof.
  etrans; [apply demo_first_run|].
  eapply rtc_l; [by apply (XBegin (request_of "b") "b" 1)|].
  eapply rtc_l; [by apply (XSent 1 "b")|].
  eapply rtc_l; [by eapply (XDeliver 1 _ (request_of "b"))|].
  eapply rtc_l; [by eapply (XGiveUpLate 1 (Waiting "b")); [|apply TimedOut|vm_compute; reflexivity]|].
  eapply rtc_l; [by apply (XPut 0 1 (request_of "b"))|].
  eapply rtc_l; [by apply (XDrain 1 "b" (Ret (inl (Sentinel ErrReplyTimeout))) (request_of "b"))|].
  vm_compute. apply rtc_refl.
Qed.

Lemma exchange_conserves_replies_witness :
  [request_of "b"; request_of "a"] ≡ₚ collect returned_by (xw_phase demo_answered) ++ [request_of "b"] ∧
  correlation_of (request_of "a") = "a".
Proof.
  destruct (exchange_conserves_replies demo_answered demo_answered_run) as (_ & _ & H1 & H2).
  split; [|by apply (H2 0%nat)]. apply H1. intros n ph. unfold demo_answered. cbn [xw_phase].
  intros [[_ <-]|[_ [[_ <-]|[_ Hn]]%lookup_insert_Some]]%lookup_insert_Some; [done..|by rewrite lookup_empty in Hn].
Defined.

(** ** The gateways *)

Section gateway.
Context {W : Type}.

(** A request-reply exchange as the gateways use it. *)
Definition RequestReplyExchange : Type := msg → M W (error + msg).

(** [random] are the bytes [NewID] draws. *)
Definition nilExchangeStep (position : string) : Step W :=
  Some (λ _, failing ErrNilExchange [FStr position]).

Definition OutboundGateway (random : bytes) (x : option RequestReplyExchange) : Step W :=
  match x with
  | None => nilExchangeStep "endpoint.OutboundGateway: nil exchange"
  | Some x => Some (λ next msg,
      let saved := Header msg HeaderCorrelationID in
      r ← x (WithHeader msg HeaderCorrelationID (AString (NewID random)));
      match r with
      | inl err => mret (Some err)
      | inr reply =>
          next (match saved with
                | Some v => WithHeader reply HeaderCorrelationID v
                | None => WithoutHeader reply HeaderCorrelationID
                end)
      end)
  end.

Definition Request {Req Rep} `{GoType Req, GoType Rep} (now : Z) (id random : bytes)
    (x : RequestReplyExchange) (req : Req) : M W (error + Rep) :=
  let m := WithHeader (New now id req []) HeaderCorrelationID (AString (NewID random)) in
  r ← x (boxMessage m);
  match r with
  | inl err => mret (inl err)
  | inr reply =>
      match PayloadOf reply with
      | inl err => mret (inl err)
      | inr out => mret (inr (msg_payload out))
      end
  end.

(** *** Building an exchange *)

Definition defaultReplyTimeout : Z := 30 * 1000000000.

(** The clock and the logger have no effect of their own and are left out. *)
Record exchangeConfig : Type := mkExchangeConfig {
  ec_timeout : Z;
  ec_timeoutSet : bool;
  ec_unmatched : option (Sender W);
  ec_allowShared : bool
}.

Definition WithReplyTimeout (d : Z) (c : exchangeConfig) : exchangeConfig :=
  mkExchangeConfig d true (ec_unmatched c) (ec_allowShared c).
Definition WithUnmatchedReplySink (out : option (Sender W)) (c : exchangeConfig) : exchangeConfig :=
  match out with
  | Some _ => mkExchangeConfig (ec_timeout c) (ec_timeoutSet c) out (ec_allowShared c)
  | None => c
  end.
Definition WithSharedReplyChannel (c : exchangeConfig) : exchangeConfig :=
  mkExchangeConfig (ec_timeout c) (ec_timeoutSet c) (ec_unmatched c) true.

(** A subscribable channel: its SingleSubscriber probe, if it has one, and
    Subscribe, whose subscription is the Cancel it offers, or nil. *)
Record SubscribableChannel : Type := mkSubscribable {
  sc_SingleSubscriber : option (M W bool);
  sc_Subscribe : MessageHandler W → M W (error + option (M W unit))
}.

(** [request], [replySub] and [unmatched] are [ChannelExchange]'s fields; the
    correlator starts as [newReplyCorrelator]. *)
Record ChannelExchange : Type := mkChannelExchange {
  ce_request : Sender W;
  ce_replySub : M W unit;
  ce_timeout : Z;
  ce_unmatched : option (Sender W)
}.

Definition safeSingleSubscriber (probe : M W bool) : M W (bool * option error) :=
  recovering (λ r, mret (false, Some (Errorf [] [FStr "SingleSubscriber panicked: "; FStr r])))
    (b ← probe; mret (b, None)).

(** The probe of [NewChannelExchange]: [None] lets the construction go on. *)
Definition probeReply (cfg : exchangeConfig) (reply : SubscribableChannel) : M W (option error) :=
  if ec_allowShared cfg then mret None
  else match sc_SingleSubscriber reply with
  | None => mret None
  | Some probe =>
      r ← safeSingleSubscriber probe;
      match r with
      | (true, _) => mret None
      | (false, Some cause) => mret (Some (Errorf [Sentinel ErrSharedReplyChannel; cause] []))
      | (false, None) => mret (Some (Sentinel ErrSharedReplyChannel))
      end
  end.

(** [receiver] is the handler the exchange subscribes, given its unmatched
    sink. *)
Definition NewChannelExchange (receiver : option (Sender W) → MessageHandler W)
    (request : option (Sender W)) (reply : option SubscribableChannel)
    (opts : list (option (exchangeConfig → exchangeConfig))) : M W (error + ChannelExchange) :=
  match request, reply with
  | Some request, Some reply =>
      match apply_opts opts (mkExchangeConfig defaultReplyTimeout false None false) with
      | inl i => mret (inl (nilOptionAt "endpoint.NewChannelExchange" i))
      | inr cfg =>
          if ec_timeoutSet cfg && (ec_timeout cfg <=? 0)
          then mret (inl (Sentinel ErrInvalidReplyTimeout))
          else
            p ← probeReply cfg reply;
            match p with
            | Some err => mret (inl err)
            | None =>
                r ← sc_Subscribe reply (receiver (ec_unmatched cfg));
                match r with
                | inl err => mret (inl err)
                | inr None => mret (inl (Sentinel ErrNilSubscription))
                | inr (Some sub) =>
                    mret (inr (mkChannelExchange request sub (ec_timeout cfg) (ec_unmatched cfg)))
                end
            end
      end
  | _, _ => mret (inl (Sentinel ErrNilChannel))
  end.

Definition routeUnmatched (unmatched : option (Sender W)) (reply : msg) : M W unit :=
  match unmatched with
  | Some sink => _ ← sink reply; mret tt
  | None => mret tt
  end.

(** The handler subscribed to the reply channel, which never fails: the slot the
    correlator gives it, to which it then sends the reply, or the unmatched-reply
    handling. *)
Definition receiver (unmatched : option (Sender W)) (corr : replyCorrelator) (reply : msg)
    : M W (option nat * replyCorrelator) :=
  match claim_slot (correlation_of reply) corr with
  | (Some slot, corr) => mret (Some slot, corr)
  | (None, corr) => _ ← routeUnmatched unmatched reply; mret (None, corr)
  end.

(** [Close], with the slots it closes; the correlator is closed before the
    subscription is cancelled. *)
Definition Exchange_Close (e : ChannelExchange) (corr : replyCorrelator) : M W (list nat * replyCorrelator) :=
  let '(slots, corr) := closeAll corr in
  _ ← ce_replySub e;
  mret (slots, corr).

(** A gateway is the exchange it was given; its options set nothing yet. *)
Record gatewayConfig : Type := mkGatewayConfig {}.
Definition NewGateway (x : option RequestReplyExchange) (opts : list (option (gatewayConfig → gatewayConfig)))
    : error + RequestReplyExchange :=
  match x with
  | None => inl (Sentinel ErrNilExchange)
  | Some x =>
      match apply_opts opts mkGatewayConfig with
      | inl i => inl (nilOptionAt "endpoint.NewGateway" i)
      | inr _ => inr x
      end
  end.

(** *** The gateways' properties *)

(** Closing an exchange takes it out of service: its subscription is cancelled once,
    every pending waiter's slot is closed, and from then on no exchange is registered,
    a reply still on its way finds no waiter and goes to the unmatched-reply handling,
    and closing it again closes nothing. *)
Theorem exchange_close_exact e corr w w' :
  ce_replySub e w = (Ret tt, w') →
  ∃ slots corr', Exchange_Close e corr w = (Ret (slots, corr'), w') ∧
    (rc_closed corr = false → ∀ n, n ∈ slots ↔ ∃ id, rc_waiters corr !! id = Some n) ∧
    (rc_closed corr = false ∨ rc_waiters corr = ∅ →
      (∀ id, register id corr' = (inl (Sentinel ErrGatewayClosed), corr')) ∧
      (∀ unmatched reply w, (receiver unmatched corr' reply w) =
         (_ ← routeUnmatched unmatched reply; mret (None, corr')) w) ∧
      ∀ w1 w1', ce_replySub e w1 = (Ret tt, w1') → Exchange_Close e corr' w1 = (Ret ([], corr'), w1')).
Proof.
  intros Hsub. unfold Exchange_Close, closeAll. destruct (rc_closed corr) eqn:Ec.
  - exists [], corr. unfold mbind, M_bind. rewrite Hsub. split; [done|]. split; [done|]. intros [?|Hw]; [done|].
    split_and!.
    + intros id. unfold register. by rewrite Ec.
    + intros un reply w0. unfold receiver, claim_slot. by rewrite Hw, lookup_empty.
    + intros w1 w1' H1. by rewrite Ec, H1.
  - eexists _, _. unfold mbind, M_bind. rewrite Hsub. split; [done|]. split.
    + intros _ n. rewrite list_elem_of_fmap. setoid_rewrite <- elem_of_map_to_list. split.
      * intros ([id n'] & -> & Hin). by exists id.
      * intros [id Hin]. by exists (id, n).
    + intros _. split_and!; try done.
      intros w1 w1' H1. cbn. by rewrite H1.
Qed.
Theorem new_gateway_exact (x : option RequestReplyExchange) opts g :
  NewGateway x opts = inr g ↔ x = Some g ∧ None ∉ opts.
Proof.
  unfold NewGateway. destruct x as [x|]; [|by split; [|intros []]].
  pose proof (apply_opts_cases opts mkGatewayConfig) as Hc.
  destruct (apply_opts opts mkGatewayConfig) as [i|c].
  - split; [done|]. intros [_ Hn]. destruct Hn. by eapply list_elem_of_lookup_2.
  - split; [by intros [= ->]|]. by intros [[= ->] _].
Qed.

(** An outbound gateway in a flow is transparent to correlation: the exchange
    sees a fresh correlation id, and the message handed on is the reply with
    exactly the correlation header the request came with, or without one if
    it had none; every other header is the reply's. *)
Theorem outbound_gateway_restores random x next m w reply w1 step :
  OutboundGateway random (Some x) = Some step →
  x (WithHeader m HeaderCorrelationID (AString (NewID random))) w = (Ret (inr reply), w1) →
  ∃ m', step next m w = next m' w1 ∧ msg_payload m' = msg_payload reply ∧
    Header m' HeaderCorrelationID = Header m HeaderCorrelationID ∧
    ∀ k, k ≠ HeaderCorrelationID → Header m' k = Header reply k.
Proof.
  intros [= <-] Hx. rewrite (bind_eq _ _ _ _ _ Hx). destruct (Header m HeaderCorrelationID) as [v|] eqn:Hs.
  - eexists. split; [done|]. split; [done|]. rewrite Header_WithHeader, decide_True by done. split; [done|].
    intros k Hk. by rewrite Header_WithHeader, decide_False.
  - eexists. split; [done|]. split; [done|]. rewrite Header_WithoutHeader, decide_True by done. split; [done|].
    intros k Hk. by rewrite Header_WithoutHeader, decide_False.
Qed.

(** A reply channel that may be shared is refused before it is touched: unless
    the caller opted out, a channel whose probe answers no, or panics, makes
    the construction fail with an error matching ErrSharedReplyChannel, and
    nothing after the probe has run, so no subscription is left behind. *)
Theorem shared_reply_refused receiver request reply opts cfg probe w o w1 :
  apply_opts opts (mkExchangeConfig defaultReplyTimeout false None false) = inr cfg →
  ec_allowShared cfg = false → ec_timeoutSet cfg && (ec_timeout cfg <=? 0) = false →
  sc_SingleSubscriber reply = Some probe → probe w = (o, w1) → o ≠ Ret true →
  ∃ err, NewChannelExchange receiver (Some request) (Some reply) opts w = (Ret (inl err), w1) ∧
    Is err ErrSharedReplyChannel = true.
Proof.
  intros Hopts Hsh Hto Hp Hrun Ho. unfold NewChannelExchange. rewrite Hopts, Hto.
  assert (∃ err, probeReply cfg reply w = (Ret (Some err), w1) ∧ Is err ErrSharedReplyChannel = true)
    as (err & Herr & Hi).
  { unfold probeReply, safeSingleSubscriber, recovering. rewrite Hsh, Hp.
    unfold mbind, M_bind. rewrite Hrun. destruct o as [[|]|v]; [done|by eexists|by eexists]. }
  exists err. by rewrite (bind_eq _ _ _ _ _ Herr).
Qed.
End gateway.

(** An exchange that echoes the request with an extra header. *)
Definition demo_echo : RequestReplyExchange (W := nat) :=
  λ m n, (Ret (inr (WithHeader m "echo" (AInt 1))), S n).

Lemma outbound_gateway_restores_witness :
  ∃ m' : msg, Header m' HeaderCorrelationID = Some (AString "group") ∧ Header m' "echo" = Some (AInt 1).
Proof.
  destruct (outbound_gateway_restores [] demo_echo discardHandler (request_of "group") 0%nat
    (WithHeader (WithHeader (request_of "group") HeaderCorrelationID (AString "")) "echo" (AInt 1)) 1%nat _
    eq_refl eq_refl) as (m' & _ & _ & Hc & Hk).
  exists m'. split; [by rewrite Hc|]. by rewrite Hk.
Defined.

(** A channel that counts its subscribers and whose probe panics. *)
Definition demo_shared : SubscribableChannel (W := nat) :=
  mkSubscribable (Some (panic "probe")) (λ _ n, (Ret (inr (Some (mret tt))), S n)).

Lemma shared_reply_refused_witness :
  ∃ err, NewChannelExchange (λ _, discardHandler) (Some discardHandler) (Some demo_shared)
    [Some (WithReplyTimeout 5)] 0%nat = (Ret (inl err), 0%nat) ∧ Is err ErrSharedReplyChannel = true.
Proof.
  by eapply (shared_reply_refused (λ _, discardHandler) discardHandler demo_shared
    [Some (WithReplyTimeout 5)] _ (panic "probe") 0%nat (Panic "probe") 0%nat).
Defined.
