(* ===== verification/Channels.v ===== *)
(** * Subscribable channels: direct, publish-subscribe, and the topic registry

    [channel/direct.go], [channel/pubsub.go] and [channel/pubsub_registry.go].

    Channels, subscriptions and handlers are references in the code: a handler
    is a value of [H] that [Handle] runs, a subscription and a topic channel are
    named by the number of their creation, and a send reads the channel from the
    world the handlers run in, so that a handler may subscribe or cancel. *)

From S2P Require Import Prelude Message Flow.

Local Open Scope Z_scope.

(** ** DirectChannel *)

Section direct.
Context {W H : Type} (Handle : H → MessageHandler W).

(** [dc_next] numbers the [directSubscription]s. *)
Record DirectChannel : Type := mkDirect {
  dc_handler : option H;
  dc_sub : option nat;
  dc_next : nat
}.

Definition NewDirectChannel : DirectChannel := mkDirect None None 0.

Definition DirectChannel_Subscribe (h : option H) (c : DirectChannel) : (error + nat) * DirectChannel :=
  match h with
  | None => (inl (Sentinel ErrNilHandler), c)
  | Some h =>
      match dc_handler c with
      | Some _ => (inl (Sentinel ErrChannelSubscribed), c)
      | None => (inr (dc_next c), mkDirect (Some h) (Some (dc_next c)) (S (dc_next c)))
      end
  end.

(** [release], which Cancel runs. *)
Definition DirectChannel_release (s : nat) (c : DirectChannel) : DirectChannel :=
  if decide (dc_sub c = Some s) then mkDirect None None (dc_next c) else c.

Definition DirectChannel_Send (chan : W → DirectChannel) (m : msg) : M W (option error) :=
  h ← gets (λ w, dc_handler (chan w));
  match h with
  | None => mret (Some (Sentinel ErrNoSubscriber))
  | Some h => Handle h m
  end.

(** Subscriptions and cancels in any order, a cancel of any subscription ever
    made. *)
Inductive direct_op : Type := DSubscribe (h : H) | DCancel (s : nat).
Definition direct_run1 (c : DirectChannel) (op : direct_op) : DirectChannel :=
  match op with
  | DSubscribe h => (DirectChannel_Subscribe (Some h) c).2
  | DCancel s => DirectChannel_release s c
  end.
End direct.

(** ** PublishSubscribeChannel *)

Inductive FanOutPolicy : Type := FanOutAllSucceed | FanOutBestEffort | FanOutOther (n : Z).

Definition isBestEffort (p : FanOutPolicy) : bool :=
  match p with FanOutBestEffort => true | _ => false end.

(** The logger has no effect of its own. *)
Record pubSubConfig : Type := mkPubSubConfig {
  pc_policy : FanOutPolicy;
  pc_single : bool
}.

Definition defaultPubSubConfig : pubSubConfig := mkPubSubConfig FanOutAllSucceed false.
Definition WithFanOut (p : FanOutPolicy) (c : pubSubConfig) : pubSubConfig := mkPubSubConfig p (pc_single c).
Definition WithSingleSubscriber (c : pubSubConfig) : pubSubConfig := mkPubSubConfig (pc_policy c) true.
Definition withConfig (cfg : pubSubConfig) (_ : pubSubConfig) : pubSubConfig := cfg.

(** [for i, opt := range opts]: the first nil element is latched, the others
    are applied. *)
Fixpoint latch_opts (ctor : string) (i : nat) (opts : list (option (pubSubConfig → pubSubConfig)))
    (cfg : pubSubConfig) (err : option error) : pubSubConfig * option error :=
  match opts with
  | [] => (cfg, err)
  | None :: rest =>
      latch_opts ctor (S i) rest cfg
        (match err with
         | None => Some (Errorf [permanentError (Sentinel ErrNilFunc)] [FStr ctor; FInt (Z.of_nat i)])
         | Some _ => err
         end)
  | Some opt :: rest => latch_opts ctor (S i) rest (opt cfg) err
  end.

Section pubsub.
Context {H : Type}.

Record subscription : Type := mkSubscription { su_id : nat; su_handler : H }.

(** [ps_next] numbers the subscriptions. *)
Record PublishSubscribeChannel : Type := mkPubSubChannel {
  ps_subs : list subscription;
  ps_cfg : pubSubConfig;
  ps_err : option error;
  ps_next : nat
}.

Definition NewPublishSubscribeChannel (opts : list (option (pubSubConfig → pubSubConfig)))
    : PublishSubscribeChannel :=
  match latch_opts "channel.NewPublishSubscribeChannel" 0 opts defaultPubSubConfig None with
  | (cfg, err) => mkPubSubChannel [] cfg err 0
  end.

Definition PS_Subscribe (h : option H) (c : PublishSubscribeChannel)
    : (error + nat) * PublishSubscribeChannel :=
  match ps_err c, h with
  | Some err, _ => (inl err, c)
  | None, None => (inl (Sentinel ErrNilHandler), c)
  | None, Some h =>
      if pc_single (ps_cfg c) && (0 <? Z.of_nat (length (ps_subs c)))
      then (inl (Sentinel ErrChannelSubscribed), c)
      else (inr (ps_next c),
            mkPubSubChannel (ps_subs c ++ [mkSubscription (ps_next c) h]) (ps_cfg c) (ps_err c) (S (ps_next c)))
  end.

(** The loop of [remove]: the first element that is [s]. *)
Fixpoint remove_sub (s : nat) (subs : list subscription) : list subscription :=
  match subs with
  | [] => []
  | x :: rest => if (su_id x =? s)%nat then rest else x :: remove_sub s rest
  end.
Definition PS_remove (s : nat) (c : PublishSubscribeChannel) : PublishSubscribeChannel :=
  mkPubSubChannel (remove_sub s (ps_subs c)) (ps_cfg c) (ps_err c) (ps_next c).

Definition isEmpty (c : PublishSubscribeChannel) : bool := (length (ps_subs c) =? 0)%nat.

Section send.
Context {W : Type} (Handle : H → MessageHandler W) (chan : W → PublishSubscribeChannel).

Definition safeFanOut (h : H) (m : msg) : M W (option error) :=
  recovering (λ r, mret (Some (Errorf [Sentinel ErrHandlerPanic] [FStr r]))) (Handle h m).

(** The loop of [Send] over the snapshot, with the errors so far. *)
Fixpoint fan_out (policy : FanOutPolicy) (snapshot : list subscription) (m : msg) (errs : list error)
    : M W (list error) :=
  match snapshot with
  | [] => mret errs
  | s :: rest =>
      err ← safeFanOut (su_handler s) m;
      match err with
      | None => fan_out policy rest m errs
      | Some err =>
          if isBestEffort policy then fan_out policy rest m errs
          else fan_out policy rest m (errs ++ [err])
      end
  end.

Definition PS_Send (m : msg) : M W (option error) :=
  c ← gets chan;
  match ps_err c with
  | Some err => mret (Some err)
  | None =>
      errs ← fan_out (pc_policy (ps_cfg c)) (ps_subs c) m [];
      mret (Join (Some <$> errs))
  end.

(** *** Specification: every subscriber, in order, in the world the previous
    ones left. *)
Fixpoint delivered (hs : list H) (m : msg) (w : W) : list (option error) * W :=
  match hs with
  | [] => ([], w)
  | h :: rest =>
      match Handle h m w with
      | (Ret err, w1) => let '(errs, w2) := delivered rest m w1 in (err :: errs, w2)
      | (Panic v, w1) =>
          let '(errs, w2) := delivered rest m w1 in
          (Some (Errorf [Sentinel ErrHandlerPanic] [FStr v]) :: errs, w2)
      end
  end.

Lemma fan_out_delivered policy subs m errs w :
  fan_out policy subs m errs w =
  let '(rs, w') := delivered (su_handler <$> subs) m w in
  (Ret (errs ++ if isBestEffort policy then [] else omap id rs), w').
Proof.
  revert errs w. induction subs as [|s subs IH]; intros errs w; cbn.
  - destruct (isBestEffort policy); by rewrite app_nil_r.
  - unfold mbind, M_bind, safeFanOut, recovering.
    destruct (Handle (su_handler s) m w) as [[[err|]|v] w1]; cbn [mret M_ret].
    all: rewrite ?IH; destruct (delivered _ m w1) as [rs w2] eqn:E.
    + destruct (isBestEffort policy); rewrite IH, E; [done|]. cbn. by rewrite <- app_assoc.
    + done.
    + destruct (isBestEffort policy); rewrite IH, E; [done|]. cbn. by rewrite <- app_assoc.
Qed.
End send.
End pubsub.

Arguments subscription : clear implicits.
Arguments PublishSubscribeChannel : clear implicits.

Lemma Join_Some es : Join (Some <$> es) = match es with [] => None | _ => Some (JoinErr es) end.
Proof. unfold Join. replace (omap id (Some <$> es)) with es; [by destruct es|]. induction es; cbn; congruence. Qed.

Lemma omap_id_nil (rs : list (option error)) : omap id rs = [] ↔ Forall (λ r, r = None) rs.
Proof.
  induction rs as [|[e|] rs IH]; [by split| |].
  - split; [done|]. by intros [? _]%Forall_cons.
  - rewrite Forall_cons, <- IH. by split; [|intros [_ ?]].
Qed.

Lemma IsOpt_Join_Some es s : IsOpt (Join (Some <$> es)) s = existsb (λ e, Is e s) es.
Proof. rewrite Join_Some. by destruct es. Qed.

(** A publish-subscribe channel delivers to everyone: a send runs each handler
    that was subscribed when it started exactly once, in subscription order,
    whatever the earlier ones returned and even if they panicked or changed
    the subscriptions, and never panics itself. Under best effort it reports
    success; otherwise it fails exactly when some subscriber failed or
    panicked, with an error that matches a sentinel exactly when one of
    their errors does, and is permanent as soon as one of them is. *)
Theorem fan_out_reaches_all {W H} (Handle : H → MessageHandler W) chan m w rs w' :
  ps_err (chan w) = None →
  delivered Handle (su_handler <$> ps_subs (chan w)) m w = (rs, w') →
  ∃ res, PS_Send Handle chan m w = (Ret res, w') ∧
    if isBestEffort (pc_policy (ps_cfg (chan w))) then res = None
    else (res = None ↔ Forall (λ r, r = None) rs) ∧
         (∀ s, IsOpt res s = existsb (λ r, IsOpt r s) rs) ∧
         (existsb IsPermanent rs = true → IsPermanent res = true).
Proof.
  intros Hok Hd. eexists. split.
  { unfold PS_Send. rewrite (bind_eq (gets chan) _ w (chan w) w eq_refl), Hok.
    erewrite bind_eq; [done|]. by rewrite fan_out_delivered, Hd. }
  cbn. destruct (isBestEffort _); [done|]. clear Hd.
  assert (∀ s, IsOpt (Join (Some <$> omap id rs)) s = existsb (λ r, IsOpt r s) rs) as His.
  { intros s. rewrite IsOpt_Join_Some. induction rs as [|[e|] rs IH]; cbn; [done|by rewrite <- IH|done]. }
  split; [|split; [done|]].
  - rewrite Join_Some, <- omap_id_nil. by destruct (omap id rs).
  - intros Hp. apply existsb_exists in Hp as ([e|] & Hin & He); [|done].
    pose proof (His ErrPayloadType) as H1. pose proof (His ErrPayloadDecode) as H2.
    pose proof (His ErrPayloadTooLarge) as H3. rewrite Join_Some in *.
    assert (e ∈ omap id rs) as Hin' by (apply list_elem_of_omap; exists (Some e); by rewrite list_elem_of_In).
    destruct (omap id rs) as [|e0 es] eqn:Eo; [by apply not_elem_of_nil in Hin'|]. cbn in H1, H2, H3 |- *.
    cbn in He. destruct (As_permanent e) eqn:Ep.
    + replace (As_permanent e0 || existsb As_permanent es) with true; [done|]. symmetry.
      change (existsb As_permanent (e0 :: es) = true). apply existsb_exists. exists e. by rewrite <- list_elem_of_In.
    + destruct (As_permanent e0 || _); [done|]. rewrite H1, H2, H3.
      rewrite !orb_true_iff, !existsb_exists in *. naive_solver.
Qed.

(** Three subscribers over a log: the first panics, the second fails, the third
    succeeds; each logs its number. *)
Definition demo_handle (h : nat) : MessageHandler (PublishSubscribeChannel nat * list nat) :=
  λ m w, let w' := (w.1, w.2 ++ [h]) in
    match h with
    | 0%nat => (Panic "boom", w')
    | 1%nat => (Ret (Some (Sentinel ErrPayloadType)), w')
    | _ => (Ret None, w')
    end.
Definition demo_chan : PublishSubscribeChannel nat :=
  mkPubSubChannel [mkSubscription 0 0%nat; mkSubscription 1 1%nat; mkSubscription 2 2%nat]
    defaultPubSubConfig None 3.

Lemma fan_out_reaches_all_witness :
  ∃ res, PS_Send demo_handle fst (sample "a") (demo_chan, []) = (Ret res, (demo_chan, [0; 1; 2]%nat)) ∧
    IsOpt res ErrHandlerPanic = true ∧ IsPermanent res = true.
Proof.
  destruct (fan_out_reaches_all demo_handle fst (sample "a") (demo_chan, [])
    [Some (Errorf [Sentinel ErrHandlerPanic] [FStr "boom"]); Some (Sentinel ErrPayloadType); None]
    (demo_chan, [0; 1; 2]%nat) eq_refl eq_refl) as (res & Hs & _ & Hi & Hp).
  exists res. split; [done|]. split; [by rewrite Hi|by apply Hp].
Defined.

(** *** DirectChannel: a cancel only ever ends its own subscription *)

Section direct_inv.
Context {H : Type}.
Implicit Types (c : DirectChannel (H := H)).

Definition direct_inv c : Prop :=
  (is_Some (dc_handler c) ↔ is_Some (dc_sub c)) ∧ ∀ s, dc_sub c = Some s → (s < dc_next c)%nat.

Lemma direct_run_inv c op : direct_inv c → direct_inv (direct_run1 c op).
Proof.
  intros Hc. pose proof Hc as [Hh Hs]. destruct op as [h|s]; cbn.
  - destruct (dc_handler c) eqn:E; [done|]. split; cbn; [by split; eexists|].
    intros s [= <-]. lia.
  - unfold DirectChannel_release. case_decide; [|done].
    split; cbn; [by split; intros [??]|done].
Qed.

Lemma direct_reach_inv ops : direct_inv (foldl direct_run1 NewDirectChannel ops).
Proof.
  assert (direct_inv NewDirectChannel) as H0 by (by split; [split; intros [??]|]).
  revert H0. generalize (NewDirectChannel (H := H)). induction ops as [|op ops IH]; [done|].
  intros c0 Hc0. by apply IH, direct_run_inv.
Qed.

(** A subscribed handler stays until its own cancel. *)
Lemma direct_keeps h s c op :
  direct_inv c → dc_handler c = Some h → dc_sub c = Some s → op ≠ DCancel s →
  dc_handler (direct_run1 c op) = Some h ∧ dc_sub (direct_run1 c op) = Some s.
Proof.
  intros Hc Hh Hs Hop. destruct op as [h'|s']; cbn; [by rewrite Hh|].
  unfold DirectChannel_release. rewrite decide_False; [done|]. congruence.
Qed.

Lemma direct_run_keeps h s ops c :
  direct_inv c → dc_handler c = Some h → dc_sub c = Some s → DCancel s ∉ ops →
  dc_handler (foldl direct_run1 c ops) = Some h ∧ dc_sub (foldl direct_run1 c ops) = Some s.
Proof.
  revert c. induction ops as [|op ops IH]; intros c Hc Hh Hs Hni; [done|]. cbn.
  apply not_elem_of_cons in Hni as [Hne Hni].
  destruct (direct_keeps h s c op Hc Hh Hs) as [Hh' Hs']; [by intros ->|].
  by apply IH; [apply direct_run_inv|..].
Qed.
End direct_inv.

(** A direct channel has one subscriber, who keeps it until its own Cancel: on
    any channel reached from a new one, after a Subscribe that succeeded and
    any subscribes and cancels, old subscriptions' repeated cancels included,
    that are not this subscription's Cancel, sends still go to its handler and
    every further Subscribe is refused. *)
Theorem direct_subscriber_stable {W H} (Handle : H → MessageHandler W) before h s c ops chan w m h' :
  DirectChannel_Subscribe (Some h) (foldl direct_run1 NewDirectChannel before) = (inr s, c) →
  DCancel s ∉ ops → chan w = foldl direct_run1 c ops →
  DirectChannel_Send Handle chan m w = Handle h m w ∧
  DirectChannel_Subscribe (Some h') (chan w) = (inl (Sentinel ErrChannelSubscribed), chan w).
Proof.
  intros Hsub Hni Hw.
  pose proof (direct_reach_inv before) as Hinv.
  pose proof (direct_run_inv _ (DSubscribe h) Hinv) as Hinv'. cbn [direct_run1] in Hinv'. rewrite Hsub in Hinv'.
  assert (dc_handler c = Some h ∧ dc_sub c = Some s) as [Hh Hs].
  { cbn in Hsub. destruct (dc_handler _); [done|]. by injection Hsub as <- <-. }
  destruct (direct_run_keeps h s ops c Hinv' Hh Hs Hni) as [Hh' Hs'].
  unfold DirectChannel_Send, DirectChannel_Subscribe. rewrite (bind_eq (gets _) _ w (Some h) w); [|unfold gets; by rewrite Hw, Hh'].
  by rewrite Hw, Hh'.
Qed.

Lemma direct_subscriber_stable_witness :
  DirectChannel_Subscribe (Some 8%nat)
    (foldl direct_run1 (mkDirect (Some 7%nat) (Some 1%nat) 2) [DCancel 0; DSubscribe 9%nat]) =
  (inl (Sentinel ErrChannelSubscribed), mkDirect (Some 7%nat) (Some 1%nat) 2).
Proof.
  apply (direct_subscriber_stable (λ _, discardHandler (W := DirectChannel (H := nat)))
    [DSubscribe 5%nat; DCancel 0] 7%nat 1 (mkDirect (Some 7%nat) (Some 1%nat) 2) [DCancel 0; DSubscribe 9%nat]
    id (mkDirect (Some 7%nat) (Some 1%nat) 2) (sample "a") 8%nat); [done| |done].
  rewrite !not_elem_of_cons. split; [done|]. split; [done|]. apply not_elem_of_nil.
Defined.

(** ** The topic registry *)

Section registry.
Context {H : Type}.

(** [pb_heap] holds the topic channels ever made, by their number. *)
Record PubSub : Type := mkPubSub {
  pb_topics : gmap string nat;
  pb_heap : gmap nat (PublishSubscribeChannel H);
  pb_cfg : pubSubConfig;
  pb_err : option error;
  pb_next : nat
}.

Definition NewPubSub (opts : list (option (pubSubConfig → pubSubConfig))) : PubSub :=
  match latch_opts "channel.NewPubSub" 0 opts defaultPubSubConfig None with
  | (cfg, err) => mkPubSub ∅ ∅ cfg err 0
  end.

Record topicSubscription : Type := mkTopicSub { ts_topic : string; ts_ch : nat; ts_inner : nat }.

(** The channel [Publish] sends to: [None] when the topic has none. *)
Definition topic_channel (topic : string) (p : PubSub) : option (PublishSubscribeChannel H) :=
  a ← pb_topics p !! topic; pb_heap p !! a.

Definition Publish {W} (Handle : H → MessageHandler W) (reg : W → PubSub) (topic : string) (m : msg)
    : M W (option error) :=
  p ← gets reg;
  match pb_err p with
  | Some err => mret (Some err)
  | None =>
      match pb_topics p !! topic with
      | None => mret None
      | Some a =>
          PS_Send Handle (λ w, default (NewPublishSubscribeChannel []) (pb_heap (reg w) !! a)) m
      end
  end.

(** The locked part is one step: a concurrent [remove], which takes the
    channel's lock alone, commutes with the lookup of the topic. *)
Definition PubSub_Subscribe (topic : string) (h : option H) (p : PubSub)
    : (error + topicSubscription) * PubSub :=
  match pb_err p, h with
  | Some err, _ => (inl err, p)
  | None, None => (inl (Sentinel ErrNilHandler), p)
  | None, Some h =>
      let '(a, topics, next) :=
        match pb_topics p !! topic with
        | Some a => (a, pb_topics p, pb_next p)
        | None => (pb_next p, <[topic := pb_next p]> (pb_topics p), S (pb_next p))
        end in
      let ch := match pb_topics p !! topic with
                | Some a => default (NewPublishSubscribeChannel []) (pb_heap p !! a)
                | None => NewPublishSubscribeChannel [Some (withConfig (pb_cfg p))]
                end in
      match PS_Subscribe (Some h) ch with
      | (r, ch') =>
          let p' := mkPubSub topics (<[a := ch']> (pb_heap p)) (pb_cfg p) (pb_err p) next in
          match r with
          | inl err => (inl err, p')
          | inr inner => (inr (mkTopicSub topic a inner), p')
          end
      end
  end.

(** [s.inner.Cancel()]. *)
Definition cancel_inner (s : topicSubscription) (p : PubSub) : PubSub :=
  mkPubSub (pb_topics p) (alter (PS_remove (ts_inner s)) (ts_ch s) (pb_heap p)) (pb_cfg p) (pb_err p) (pb_next p).

(** The locked rest of [topicSubscription.Cancel]. *)
Definition drop_topic (s : topicSubscription) (p : PubSub) : PubSub :=
  match pb_topics p !! ts_topic s with
  | Some cur =>
      if (cur =? ts_ch s)%nat && from_option isEmpty true (pb_heap p !! cur)
      then mkPubSub (delete (ts_topic s) (pb_topics p)) (pb_heap p) (pb_cfg p) (pb_err p) (pb_next p)
      else p
  | None => p
  end.

Definition TopicCount (p : PubSub) : nat := size (pb_topics p).

(** Concurrent Subscribes and Cancels: [rw_live] the subscriptions whose Cancel
    has not started, with their handlers; [rw_cancelling] those between the
    two halves of their first Cancel; [rw_cancelled] those past it, whose
    Cancel may be called again. *)
Record rworld : Type := mkRWorld {
  rw_reg : PubSub;
  rw_live : list (topicSubscription * H);
  rw_cancelling : list topicSubscription;
  rw_cancelled : list topicSubscription
}.

Inductive rstep : rworld → rworld → Prop :=
  | RSubscribe topic h ts p' w :
      PubSub_Subscribe topic (Some h) (rw_reg w) = (inr ts, p') →
      rstep w (mkRWorld p' ((ts, h) :: rw_live w) (rw_cancelling w) (rw_cancelled w))
  | RRefused topic h err p' w :
      PubSub_Subscribe topic h (rw_reg w) = (inl err, p') →
      rstep w (mkRWorld p' (rw_live w) (rw_cancelling w) (rw_cancelled w))
  | RCancel i ts h w :
      rw_live w !! i = Some (ts, h) →
      rstep w (mkRWorld (cancel_inner ts (rw_reg w)) (delete i (rw_live w)) (ts :: rw_cancelling w)
                 (rw_cancelled w))
  | RDrop i ts w :
      rw_cancelling w !! i = Some ts →
      rstep w (mkRWorld (drop_topic ts (rw_reg w)) (rw_live w) (delete i (rw_cancelling w))
                 (ts :: rw_cancelled w))
  | RCancelAgain ts w :
      ts ∈ rw_cancelling w ++ rw_cancelled w →
      rstep w (mkRWorld (drop_topic ts (rw_reg w)) (rw_live w) (rw_cancelling w) (rw_cancelled w)).

Definition rinitial (opts : list (option (pubSubConfig → pubSubConfig))) : rworld :=
  mkRWorld (NewPubSub opts) [] [] [].

(** *** Invariant *)

Definition chan_ok (cfg : pubSubConfig) (ch : PublishSubscribeChannel H) : Prop :=
  ps_err ch = None ∧ ps_cfg ch = cfg ∧ NoDup (su_id <$> ps_subs ch) ∧
  (∀ s, s ∈ ps_subs ch → (su_id s < ps_next ch)%nat) ∧
  (pc_single cfg = true → (length (ps_subs ch) ≤ 1)%nat).

Definition sub_key (x : topicSubscription * H) : nat * nat := (ts_ch x.1, ts_inner x.1).

Record rinv (w : rworld) : Prop := {
  ri_topics t a : pb_topics (rw_reg w) !! t = Some a → is_Some (pb_heap (rw_reg w) !! a);
  ri_inj t t' a : pb_topics (rw_reg w) !! t = Some a → pb_topics (rw_reg w) !! t' = Some a → t = t';
  ri_heap a ch : pb_heap (rw_reg w) !! a = Some ch →
    (a < pb_next (rw_reg w))%nat ∧ chan_ok (pb_cfg (rw_reg w)) ch;
  ri_live ts h : (ts, h) ∈ rw_live w →
    pb_topics (rw_reg w) !! ts_topic ts = Some (ts_ch ts) ∧
    ∃ ch, pb_heap (rw_reg w) !! ts_ch ts = Some ch ∧ mkSubscription (ts_inner ts) h ∈ ps_subs ch;
  ri_subs a ch s : pb_heap (rw_reg w) !! a = Some ch → s ∈ ps_subs ch →
    ∃ ts, (ts, su_handler s) ∈ rw_live w ∧ ts_ch ts = a ∧ ts_inner ts = su_id s;
  ri_nodup : NoDup (sub_key <$> rw_live w);
  ri_empty t a ch : pb_topics (rw_reg w) !! t = Some a → pb_heap (rw_reg w) !! a = Some ch →
    ps_subs ch = [] → ∃ ts, ts ∈ rw_cancelling w ∧ ts_topic ts = t ∧ ts_ch ts = a
}.

Lemma PS_Subscribe_ok cfg h ch s ch' :
  chan_ok cfg ch → PS_Subscribe (Some h) ch = (inr s, ch') →
  chan_ok cfg ch' ∧ s = ps_next ch ∧ ps_subs ch' = ps_subs ch ++ [mkSubscription s h].
Proof.
  intros (He & Hc & Hnd & Hid & Hs). unfold PS_Subscribe. rewrite He, Hc.
  destruct (pc_single cfg && _) eqn:Hg; [done|]. intros [= <- <-]. split; [|done].
  split; [done|]. split; [done|]. cbn. split; [|split].
  - rewrite fmap_app. cbn. apply list.NoDup_app. split; [done|]. split; [|apply NoDup_singleton].
    intros x (y & -> & Hy)%list_elem_of_fmap Hx%list_elem_of_singleton. apply Hid in Hy. lia.
  - intros y [Hy| ->%list_elem_of_singleton]%elem_of_app; [apply Hid in Hy; lia|cbn; lia].
  - intros Hsg. rewrite Hsg in Hg. cbn in Hg. rewrite length_app. cbn. apply Z.ltb_ge in Hg. lia.
Qed.

Lemma PS_Subscribe_err (h : option H) ch err ch' : PS_Subscribe h ch = (inl err, ch') → ch' = ch.
Proof.
  unfold PS_Subscribe. destruct (ps_err ch); [naive_solver|]. destruct h; [|naive_solver].
  destruct (_ && _); naive_solver.
Qed.

Lemma remove_sub_spec s (subs : list (subscription H)) :
  NoDup (su_id <$> subs) →
  (∀ x, x ∈ remove_sub s subs ↔ x ∈ subs ∧ su_id x ≠ s) ∧ NoDup (su_id <$> remove_sub s subs) ∧
  (length (remove_sub s subs) ≤ length subs)%nat.
Proof.
  induction subs as [|y subs IH]; intros Hnd.
  { split; [|done]. intros x. cbn. split; [|by intros [? _]]. intros Hx. by apply not_elem_of_nil in Hx. }
  cbn in Hnd. apply NoDup_cons in Hnd as [Hy Hnd]. destruct (IH Hnd) as (H1 & H2 & H3). cbn.
  destruct (su_id y =? s)%nat eqn:E.
  - apply Nat.eqb_eq in E as <-. split; [|split; [done|lia]]. intros x. rewrite elem_of_cons. split.
    + intros Hx. split; [by right|]. intros Heq. apply Hy. rewrite <- Heq. apply list_elem_of_fmap. eauto.
    + by intros [[->|?] ?].
  - apply Nat.eqb_neq in E. split; [|split; [|cbn; lia]].
    + intros x. rewrite !elem_of_cons, H1. naive_solver.
    + cbn. constructor; [|done]. intros (z & Hz & [Hin _]%H1)%list_elem_of_fmap. apply Hy.
      rewrite Hz. apply list_elem_of_fmap. eauto.
Qed.

Lemma PS_remove_ok cfg s ch : chan_ok cfg ch → chan_ok cfg (PS_remove s ch).
Proof.
  intros (He & Hc & Hnd & Hid & Hs). destruct (remove_sub_spec s (ps_subs ch) Hnd) as (H1 & H2 & H3).
  split; [done|]. split; [done|]. cbn. split; [done|]. split.
  - intros x [Hx _]%H1. by apply Hid.
  - intros Hg. specialize (Hs Hg). lia.
Qed.

(** What a Subscribe that succeeded did: it appended to the channel of the
    topic, which it made if there was none. *)
Lemma PubSub_Subscribe_ok w topic h ts p' :
  rinv w → PubSub_Subscribe topic (Some h) (rw_reg w) = (inr ts, p') →
  ∃ a ch ch', ts = mkTopicSub topic a (ps_next ch) ∧ chan_ok (pb_cfg (rw_reg w)) ch ∧
    PS_Subscribe (Some h) ch = (inr (ps_next ch), ch') ∧ pb_heap p' = <[a := ch']> (pb_heap (rw_reg w)) ∧
    pb_cfg p' = pb_cfg (rw_reg w) ∧
    ((pb_topics (rw_reg w) !! topic = Some a ∧ pb_heap (rw_reg w) !! a = Some ch ∧
      pb_topics p' = pb_topics (rw_reg w) ∧ pb_next p' = pb_next (rw_reg w)) ∨
     (pb_topics (rw_reg w) !! topic = None ∧ pb_heap (rw_reg w) !! a = None ∧ ps_subs ch = [] ∧
      pb_topics p' = <[topic := a]> (pb_topics (rw_reg w)) ∧ a = pb_next (rw_reg w) ∧
      pb_next p' = S (pb_next (rw_reg w)))).
Proof.
  intros Hw. unfold PubSub_Subscribe. destruct (pb_err _); [done|].
  destruct (pb_topics (rw_reg w) !! topic) as [a|] eqn:Ht.
  - destruct (ri_topics w Hw _ _ Ht) as [ch Hch]. rewrite Hch. cbn [from_option id].
    destruct (ri_heap w Hw _ _ Hch) as [_ Hok].
    destruct (PS_Subscribe (Some h) ch) as [[err|inner] ch'] eqn:Hs; [done|]. intros [= <- <-].
    destruct (PS_Subscribe_ok _ _ _ _ _ Hok Hs) as (_ & -> & _). exists a, ch, ch'. naive_solver.
  - set (ch := NewPublishSubscribeChannel [Some (withConfig (pb_cfg (rw_reg w)))]).
    assert (chan_ok (pb_cfg (rw_reg w)) ch) as Hok.
    { split; [done|]. split; [done|]. split; [constructor|]. split; [|cbn; lia].
      intros s Hs. by apply not_elem_of_nil in Hs. }
    destruct (PS_Subscribe (Some h) ch) as [[err|inner] ch'] eqn:Hs; [done|]. intros [= <- <-].
    destruct (PS_Subscribe_ok _ _ _ _ _ Hok Hs) as (_ & -> & _). exists (pb_next (rw_reg w)), ch, ch'.
    assert (pb_heap (rw_reg w) !! pb_next (rw_reg w) = None) as Hf.
    { destruct (pb_heap (rw_reg w) !! _) eqn:E; [|done]. destruct (ri_heap w Hw _ _ E). lia. }
    cbn. naive_solver.
Qed.

(** The cases of [PubSub_Subscribe_ok] as the topics see them: only [topic]
    changes, to [a], which is no other topic's. *)
Lemma subscribe_topics w p' topic a ch :
  rinv w →
  (pb_topics (rw_reg w) !! topic = Some a ∧ pb_heap (rw_reg w) !! a = Some ch ∧
    pb_topics p' = pb_topics (rw_reg w) ∧ pb_next p' = pb_next (rw_reg w)) ∨
  (pb_topics (rw_reg w) !! topic = None ∧ pb_heap (rw_reg w) !! a = None ∧ ps_subs ch = [] ∧
    pb_topics p' = <[topic := a]> (pb_topics (rw_reg w)) ∧ a = pb_next (rw_reg w) ∧
    pb_next p' = S (pb_next (rw_reg w))) →
  pb_topics p' !! topic = Some a ∧
  (∀ t, t ≠ topic → pb_topics p' !! t = pb_topics (rw_reg w) !! t) ∧
  (∀ t a', pb_topics (rw_reg w) !! t = Some a' → pb_topics p' !! t = Some a') ∧
  (∀ t, pb_topics (rw_reg w) !! t = Some a → t = topic) ∧
  (∀ s, s ∈ ps_subs ch → pb_heap (rw_reg w) !! a = Some ch).
Proof.
  intros Hw Hcase.
  assert (pb_topics p' !! topic = Some a) as Htop
    by (destruct Hcase as [(? & ? & -> & ?)|(? & ? & ? & -> & ?)]; [done|apply lookup_insert_eq]).
  assert (∀ t, t ≠ topic → pb_topics p' !! t = pb_topics (rw_reg w) !! t) as Hother
    by (intros t Ht; destruct Hcase as [(? & ? & -> & ?)|(? & ? & ? & -> & ?)]; [done|by apply lookup_insert_ne]).
  assert (∀ t a', pb_topics (rw_reg w) !! t = Some a' → pb_topics p' !! t = Some a') as Hgrow.
  { intros t a' Ht. destruct (decide (t = topic)) as [->|]; [|by rewrite Hother].
    destruct Hcase as [(H1 & ?)|(? & ?)]; congruence. }
  assert (∀ t, pb_topics (rw_reg w) !! t = Some a → t = topic) as Huniq.
  { intros t Ht. destruct Hcase as [(H1 & ?)|(? & H1 & ?)]; [by eapply (ri_inj w Hw)|].
    destruct (ri_topics w Hw _ _ Ht). congruence. }
  assert (∀ s, s ∈ ps_subs ch → pb_heap (rw_reg w) !! a = Some ch) as Hold.
  { intros s Hin. destruct Hcase as [(? & ? & ?)|(? & ? & Hnil & ?)]; [done|].
    rewrite Hnil in Hin. by apply not_elem_of_nil in Hin. }
  auto.
Qed.

Lemma rinv_subscribe w topic h ts p' :
  rinv w → PubSub_Subscribe topic (Some h) (rw_reg w) = (inr ts, p') →
  rinv (mkRWorld p' ((ts, h) :: rw_live w) (rw_cancelling w) (rw_cancelled w)).
Proof.
  intros Hw Hsub. destruct (PubSub_Subscribe_ok w topic h ts p' Hw Hsub)
    as (a & ch & ch' & -> & Hok & Hs & Hheap & Hcfg & Hcase).
  destruct (PS_Subscribe_ok _ _ _ _ _ Hok Hs) as (Hok' & _ & Hsubs').
  set (inner := ps_next ch) in *.
  destruct (subscribe_topics _ _ _ _ _ Hw Hcase) as (Htop & Hother & Hgrow & Huniq & Hold).
  split; cbn [rw_reg rw_live rw_cancelling rw_cancelled].
  - intros t a' Ht. rewrite Hheap. destruct (decide (a' = a)) as [->|]; [by rewrite lookup_insert_eq|].
    rewrite lookup_insert_ne by done. apply (ri_topics w Hw t). rewrite <- Hother; [done|]. congruence.
  - intros t t' a' Ht Ht'. destruct (decide (t = topic)) as [->|Hn], (decide (t' = topic)) as [->|Hn']; try done.
    + rewrite Htop in Ht. injection Ht as <-. symmetry. apply Huniq. by rewrite <- Hother.
    + rewrite Htop in Ht'. injection Ht' as <-. apply Huniq. by rewrite <- Hother.
    + rewrite Hother in Ht, Ht' by done. by eapply (ri_inj w Hw).
  - intros a' ch1. rewrite Hheap, Hcfg. destruct (decide (a' = a)) as [->|].
    + rewrite lookup_insert_eq. intros [= <-]. split; [|done].
      destruct Hcase as [(? & Hh & ? & ->)|(? & ? & ? & ? & -> & ->)]; [by apply (ri_heap w Hw) in Hh as [? _]|lia].
    + rewrite lookup_insert_ne by done. intros Hh. destruct (ri_heap w Hw _ _ Hh). split; [|done].
      destruct Hcase as [(? & ? & ? & ->)|(? & ? & ? & ? & ? & ->)]; lia.
  - intros ts h0 [[= -> ->]|Hin]%elem_of_cons; cbn [ts_topic ts_ch ts_inner].
    + split; [done|]. exists ch'. rewrite Hheap, lookup_insert_eq, Hsubs'. split; [done|].
      apply elem_of_app. right. by left.
    + destruct (ri_live w Hw _ _ Hin) as (Ht & ch1 & Hh & Hs1). split; [by apply Hgrow|].
      rewrite Hheap. destruct (decide (ts_ch ts = a)) as [Heq|]; [|rewrite lookup_insert_ne by done; by eauto].
      rewrite Heq in *. exists ch'. rewrite lookup_insert_eq, Hsubs'. split; [done|]. apply elem_of_app. left.
      destruct Hcase as [(? & Hh' & ?)|(? & ? & ?)]; congruence.
  - intros a' ch1 s. rewrite Hheap. destruct (decide (a' = a)) as [->|].
    + rewrite lookup_insert_eq. intros [= <-]. rewrite Hsubs'.
      intros [Hin| ->%list_elem_of_singleton]%elem_of_app.
      * destruct (ri_subs w Hw _ _ _ (Hold s Hin) Hin) as (ts & ? & ?). exists ts. split; [by right|done].
      * eexists. split; [by left|done].
    + rewrite lookup_insert_ne by done. intros Hh Hin.
      destruct (ri_subs w Hw _ _ _ Hh Hin) as (ts & ? & ?). exists ts. split; [by right|done].
  - cbn. constructor; [|apply Hw]. intros ([ts h0] & [= Ha Hi] & Hin)%list_elem_of_fmap. cbn in Ha, Hi.
    destruct (ri_live w Hw _ _ Hin) as (_ & ch1 & Hh & Hs1). rewrite <- Ha in Hh.
    destruct Hcase as [(? & Hh' & ?)|(? & ? & ?)]; [|congruence].
    assert (ch1 = ch) as -> by congruence. destruct Hok as (_ & _ & _ & Hid & _). apply Hid in Hs1. cbn in Hs1.
    rewrite <- Hi in Hs1. unfold inner in Hs1. lia.
  - intros t a' ch1 Ht. rewrite Hheap. destruct (decide (a' = a)) as [->|].
    + rewrite lookup_insert_eq. intros [= <-]. rewrite Hsubs'. by destruct (ps_subs ch).
    + rewrite lookup_insert_ne by done. apply (ri_empty w Hw). rewrite <- Hother; [done|]. congruence.
Qed.

(** A Subscribe that is refused changes nothing. *)
Lemma PubSub_Subscribe_err w topic h err p' :
  rinv w → PubSub_Subscribe topic h (rw_reg w) = (inl err, p') → p' = rw_reg w.
Proof.
  intros Hw. unfold PubSub_Subscribe. destruct (pb_err _) eqn:He; [naive_solver|].
  destruct h as [h|]; [|naive_solver]. destruct (pb_topics (rw_reg w) !! topic) as [a|] eqn:Ht.
  - destruct (ri_topics w Hw _ _ Ht) as [ch Hch]. rewrite Hch. cbn [from_option id].
    destruct (PS_Subscribe (Some h) ch) as [[e|inner] ch'] eqn:Hs; [|done]. intros [= <- <-].
    apply PS_Subscribe_err in Hs as ->. rewrite insert_id by done. clear Hch Ht. destruct (rw_reg w); cbn in *; congruence.
  - cbn. by rewrite andb_false_r.
Qed.

Lemma rinv_cancel w i ts h :
  rinv w → rw_live w !! i = Some (ts, h) →
  rinv (mkRWorld (cancel_inner ts (rw_reg w)) (delete i (rw_live w)) (ts :: rw_cancelling w) (rw_cancelled w)).
Proof.
  intros Hw Hi. set (rest := delete i (rw_live w)).
  assert (rw_live w ≡ₚ (ts, h) :: rest) as Hp by (by apply delete_perm).
  pose proof (ri_nodup w Hw) as Hnd. rewrite Hp in Hnd. cbn in Hnd. apply NoDup_cons in Hnd as [Hni Hnd].
  assert (∀ ts' h', (ts', h') ∈ rest → (ts', h') ∈ rw_live w) as Hin by (intros; rewrite Hp; by right).
  destruct (ri_live w Hw ts h) as (Ht & ch & Hch & Hsub); [rewrite Hp; by left|].
  destruct (ri_heap w Hw _ _ Hch) as [_ Hok].
  pose proof Hok as (_ & _ & Hnds & _). destruct (remove_sub_spec (ts_inner ts) _ Hnds) as (Hrm & _).
  assert (∀ a, alter (PS_remove (ts_inner ts)) (ts_ch ts) (pb_heap (rw_reg w)) !! a =
    if decide (a = ts_ch ts) then Some (PS_remove (ts_inner ts) ch) else pb_heap (rw_reg w) !! a) as Halt.
  { intros a. destruct (decide (a = ts_ch ts)) as [->|]; [by rewrite lookup_alter_eq, Hch|by rewrite lookup_alter_ne]. }
  split; cbn [rw_reg rw_live rw_cancelling rw_cancelled cancel_inner pb_topics pb_heap pb_cfg pb_next]; [..|done|].
  - intros t a Hta. rewrite Halt. case_decide; [done|]. by eapply (ri_topics w Hw).
  - apply Hw.
  - intros a ch1. rewrite Halt. case_decide; [|apply (ri_heap w Hw)]. subst. intros [= <-].
    split; [by apply (ri_heap w Hw) in Hch as [? _]|by apply PS_remove_ok].
  - intros ts' h' Hr. destruct (ri_live w Hw _ _ (Hin _ _ Hr)) as (H1 & ch1 & Hh & Hs1). split; [done|].
    rewrite Halt. case_decide as Heq; [|by eauto]. eexists. split; [done|]. apply Hrm.
    rewrite Heq in Hh. assert (ch1 = ch) as -> by congruence. split; [done|]. cbn. intros Hi'.
    apply Hni, list_elem_of_fmap. exists (ts', h'). split; [|done]. unfold sub_key. cbn. congruence.
  - intros a ch1 s. rewrite Halt. case_decide as Heq.
    + subst a. intros [= <-] [Hs1 Hne]%Hrm. destruct (ri_subs w Hw _ _ _ Hch Hs1) as (ts' & Hl & H2 & H3).
      exists ts'. split; [|done]. rewrite Hp, elem_of_cons in Hl. destruct Hl as [[= -> _]|]; [congruence|done].
    + intros Hh Hs1. destruct (ri_subs w Hw _ _ _ Hh Hs1) as (ts' & Hl & H2 & H3). exists ts'. split; [|done].
      rewrite Hp, elem_of_cons in Hl. destruct Hl as [[= -> _]|]; [congruence|done].
  - intros t a ch1 Hta. rewrite Halt. case_decide as Heq.
    + intros _ _. exists ts. split; [by left|]. subst a. split; [|done]. by eapply (ri_inj w Hw).
    + intros Hh Hnil. destruct (ri_empty w Hw _ _ _ Hta Hh Hnil) as (ts' & ? & ?). exists ts'. split; [by right|done].
Qed.

(** Dropping the topic of a subscription whose channel is empty: no other topic
    changes, and no live subscription is on it. *)
Lemma rinv_drop w ts canc canc' :
  rinv w → (∀ ts', ts' ∈ rw_cancelling w → ts' = ts ∨ ts' ∈ canc) →
  rinv (mkRWorld (drop_topic ts (rw_reg w)) (rw_live w) canc canc').
Proof.
  intros Hw Hcanc. unfold drop_topic. destruct (pb_topics (rw_reg w) !! ts_topic ts) as [cur|] eqn:Ht.
  2: { split; try apply Hw. cbn. intros t a ch Hta Hch Hnil.
       destruct (ri_empty w Hw _ _ _ Hta Hch Hnil) as (ts' & Hin & H1 & H2).
       destruct (Hcanc _ Hin) as [->|]; [congruence|eauto]. }
  destruct (ri_topics w Hw _ _ Ht) as [ch Hch]. rewrite Hch. cbn [from_option].
  destruct (cur =? ts_ch ts)%nat eqn:Hcur; [apply Nat.eqb_eq in Hcur as ->|apply Nat.eqb_neq in Hcur].
  2: { split; try apply Hw. cbn. intros t a ch1 Hta Hch1 Hnil.
       destruct (ri_empty w Hw _ _ _ Hta Hch1 Hnil) as (ts' & Hin & H1 & H2).
       destruct (Hcanc _ Hin) as [->|]; [congruence|eauto]. }
  destruct (isEmpty ch) eqn:He; unfold isEmpty in He;
    [apply Nat.eqb_eq, nil_length_inv in He|apply Nat.eqb_neq in He]; cbn [andb].
  2: { split; try apply Hw. cbn. intros t a ch1 Hta Hch1 Hnil.
       destruct (ri_empty w Hw _ _ _ Hta Hch1 Hnil) as (ts' & Hin & H1 & H2).
       destruct (Hcanc _ Hin) as [->|]; [|eauto]. subst a. rewrite Hch in Hch1. injection Hch1 as <-.
       by rewrite Hnil in He. }
  split; try apply Hw; cbn.
  - intros t a [_ Hta]%lookup_delete_Some. by eapply (ri_topics w Hw).
  - intros t t' a [_ H1]%lookup_delete_Some [_ H2]%lookup_delete_Some. by eapply (ri_inj w Hw).
  - intros ts' h Hin. destruct (ri_live w Hw _ _ Hin) as (H1 & ch1 & Hh & Hs). split; [|by eauto].
    rewrite lookup_delete_ne; [done|]. intros Heq. rewrite <- Heq, Ht in H1. injection H1 as H1.
    rewrite <- H1, Hch in Hh. injection Hh as <-. rewrite He in Hs. by apply not_elem_of_nil in Hs.
  - intros t a ch1 [Hne Hta]%lookup_delete_Some Hch1 Hnil.
    destruct (ri_empty w Hw _ _ _ Hta Hch1 Hnil) as (ts' & Hin & H1 & H2).
    destruct (Hcanc _ Hin) as [->|]; [congruence|eauto].
Qed.

Lemma rinv_step w w' : rstep w w' → rinv w → rinv w'.
Proof.
  intros Hs Hw. destruct Hs as [topic h ts p' w Hs|topic h err p' w Hs|i ts h w Hi|i ts w Hi|ts w Hin].
  - by eapply rinv_subscribe.
  - apply PubSub_Subscribe_err in Hs as ->; [|done]. by destruct w.
  - by eapply rinv_cancel.
  - apply rinv_drop; [done|]. intros ts'. rewrite (delete_perm _ _ _ Hi) at 1. by rewrite elem_of_cons.
  - apply rinv_drop; [done|]. auto.
Qed.

Lemma rinv_initial opts : rinv (rinitial opts).
Proof.
  unfold rinitial, NewPubSub. destruct (latch_opts _ _ _ _ _) as [cfg err].
  split; cbn; try (intros *; by rewrite lookup_empty); [|constructor].
  intros ts h Hin. by apply not_elem_of_nil in Hin.
Qed.

Lemma rreach opts w : rtc rstep (rinitial opts) w → rinv w.
Proof.
  intros Hr. pose proof (rinv_initial opts) as Hi. induction Hr as [|w1 w2 w3 Hs _ IH]; [done|].
  by apply IH, (rinv_step w1).
Qed.
End registry.

Lemma topic_channel_Some {H} t (p : PubSub (H := H)) ch :
  topic_channel t p = Some ch ↔ ∃ a, pb_topics p !! t = Some a ∧ pb_heap p !! a = Some ch.
Proof. unfold topic_channel. rewrite bind_Some. done. Qed.

(** C38. The topic registry never strands a subscriber and never keeps a dead topic,
    however concurrent Subscribes and Cancels interleave: every subscription
    whose Cancel has not started is on the channel Publish finds under its
    topic; every subscriber of that channel is one of these; with
    WithSingleSubscriber there is at most one; and once no Cancel is half way,
    every topic still registered has a subscriber. *)
Theorem topic_registry_sound {H} opts (w : rworld (H := H)) :
  rtc rstep (rinitial opts) w →
  (∀ ts h, (ts, h) ∈ rw_live w →
     ∃ ch, topic_channel (ts_topic ts) (rw_reg w) = Some ch ∧ mkSubscription (ts_inner ts) h ∈ ps_subs ch) ∧
  (∀ t ch s, topic_channel t (rw_reg w) = Some ch → s ∈ ps_subs ch →
     ∃ ts, (ts, su_handler s) ∈ rw_live w ∧ ts_topic ts = t ∧ ts_inner ts = su_id s) ∧
  (∀ t ch, topic_channel t (rw_reg w) = Some ch →
     (pc_single (pb_cfg (rw_reg w)) = true → (length (ps_subs ch) ≤ 1)%nat) ∧
     (rw_cancelling w = [] → ps_subs ch ≠ [])).
Proof.
  intros Hw%rreach. split; [|split].
  - intros ts h Hin. destruct (ri_live w Hw _ _ Hin) as (Ht & ch & Hch & Hs).
    exists ch. split; [|done]. apply topic_channel_Some. eauto.
  - intros t ch s (a & Ht & Hch)%topic_channel_Some Hs.
    destruct (ri_subs w Hw _ _ _ Hch Hs) as (ts & Hl & <- & Hi). exists ts. split; [done|]. split; [|done].
    destruct (ri_live w Hw _ _ Hl) as [Ht' _]. by eapply (ri_inj w Hw).
  - intros t ch (a & Ht & Hch)%topic_channel_Some. split.
    + by destruct (ri_heap w Hw _ _ Hch) as (_ & _ & _ & _ & _ & ?).
    + intros Hc Hnil. destruct (ri_empty w Hw _ _ _ Ht Hch Hnil) as (ts & Hin & _).
      rewrite Hc in Hin. by apply not_elem_of_nil in Hin.
Qed.

(** Two subscribers of a topic, one cancelled; and one of another topic half way
    through its Cancel. *)
Definition demo_registry : rworld (H := nat) :=
  mkRWorld
    (mkPubSub (<["u" := 1%nat]> (<["t" := 0%nat]> ∅))
       (<[1%nat := mkPubSubChannel [] defaultPubSubConfig None 1]>
         (<[0%nat := mkPubSubChannel [mkSubscription 1 6%nat] defaultPubSubConfig None 2]> ∅))
       defaultPubSubConfig None 2)
    [(mkTopicSub "t" 0 1, 6%nat)] [mkTopicSub "u" 1 0] [mkTopicSub "t" 0 0].

Lemma demo_registry_run : rtc rstep (rinitial []) demo_registry.
Proof.
  eapply rtc_l; [by apply (RSubscribe "t" 5%nat (mkTopicSub "t" 0 0))|].
  eapply rtc_l; [by apply (RSubscribe "t" 6%nat (mkTopicSub "t" 0 1))|].
  eapply rtc_l; [by apply (RSubscribe "u" 7%nat (mkTopicSub "u" 1 0))|].
  eapply rtc_l; [by apply (RCancel 2 (mkTopicSub "t" 0 0) 5%nat)|].
  eapply rtc_l; [by apply (RDrop 0 (mkTopicSub "t" 0 0))|].
  eapply rtc_l; [by apply (RCancel 0 (mkTopicSub "u" 1 0) 7%nat)|].
  vm_compute. apply rtc_refl.
Qed.

Lemma topic_registry_sound_witness :
  ∃ ch, topic_channel "t" (rw_reg demo_registry) = Some ch ∧ mkSubscription 1 6%nat ∈ ps_subs ch.
Proof.
  apply (proj1 (topic_registry_sound [] demo_registry demo_registry_run) (mkTopicSub "t" 0 1) 6%nat). by left.
Defined.
