(* ===== verification/SSE.v ===== *)
(** * Server-Sent Events: the encoder and the parser

    [adapter/http/sse.go].  The encoder writes one event in the WHATWG wire
    format; the parser reads a byte stream one byte at a time, with a cap on a
    line and on an event's data.  A Go string is a sequence of bytes, and a
    reader is the bytes still to come and the error it then keeps returning. *)

From Stdlib Require Import Ascii.
From S2P Require Import Prelude Message.

Local Open Scope Z_scope.

(** ** Bytes *)

Abbreviation bytes_of := String.list_ascii_of_string.
Abbreviation string_of := String.string_of_list_ascii.

Definition LF : ascii := "010"%char.
Definition CR : ascii := "013"%char.
Definition NUL : ascii := "000"%char.
Definition COLON : ascii := ":"%char.
Definition SP : ascii := " "%char.

(** [strings.ReplaceAll(s, "\r\n", "\n")]. *)
Fixpoint replace_crlf (s : bytes) : bytes :=
  match s with
  | [] => []
  | a :: rest =>
      match rest with
      | b :: rest' => if bool_decide (a = CR ∧ b = LF) then LF :: replace_crlf rest' else a :: replace_crlf rest
      | [] => [a]
      end
  end.

(** [strings.ReplaceAll(s, "\r", "\n")]. *)
Definition replace_cr (s : bytes) : bytes := (λ b, if bool_decide (b = CR) then LF else b) <$> s.

(** [strings.Split(s, "\n")]: never empty. *)
Fixpoint split_lf (s : bytes) : list bytes :=
  match s with
  | [] => [[]]
  | b :: rest =>
      if bool_decide (b = LF) then [] :: split_lf rest
      else match split_lf rest with
      | l :: ls => (b :: l) :: ls
      | [] => [[b]]
      end
  end.

(** ** Encoding *)

Record SSEEvent : Type := mkSSEEvent { ev_ID : string; ev_Name : string; ev_Data : bytes }.

#[export] Instance SSEEvent_eq_dec : EqDecision SSEEvent.
Proof. solve_decision. Defined.

(** The package's sentinels. *)
Definition ErrInvalidEventField : sentinel := OtherSentinel "msghttp.ErrInvalidEventField".
Definition ErrEventTooLarge : sentinel := OtherSentinel "msghttp.ErrEventTooLarge".
Definition ErrUnsupportedPayload : sentinel := OtherSentinel "msghttp.ErrUnsupportedPayload".
Definition io_EOF : sentinel := OtherSentinel "io.EOF".
Definition io_ErrUnexpectedEOF : sentinel := OtherSentinel "io.ErrUnexpectedEOF".

(** [!strings.ContainsAny(s, "\r\n\x00")]. *)
Definition validSSEField (s : string) : bool :=
  forallb (λ b, negb (bool_decide (b = CR ∨ b = LF ∨ b = NUL))) (bytes_of s).

(** The line terminators of a payload, each made a single LF. *)
Definition normalize (data : bytes) : bytes := replace_cr (replace_crlf data).

Definition field_line (name : string) (value : bytes) : bytes :=
  bytes_of name ++ [COLON; SP] ++ value ++ [LF].

(** What the builder holds when the loop over the lines ends. *)
Definition sse_frame (ev : SSEEvent) : bytes :=
  (if decide (ev_ID ev = "") then [] else field_line "id" (bytes_of (ev_ID ev))) ++
  (if decide (ev_Name ev = "") then [] else field_line "event" (bytes_of (ev_Name ev))) ++
  (split_lf (normalize (ev_Data ev)) ≫= field_line "data") ++ [LF].

Definition EncodeSSEEvent {W} (WriteString : bytes → M W (option error)) (ev : SSEEvent)
    : M W (option error) :=
  if negb (validSSEField (ev_ID ev)) || negb (validSSEField (ev_Name ev))
  then mret (Some (Sentinel ErrInvalidEventField))
  else WriteString (sse_frame ev).

Definition HeaderSSEEventName : string := "http.sse-event".
Definition HeaderSSEEventID : string := "http.sse-event-id".

(** [payloadBytes] of encode.go. *)
Definition payloadBytes (m : msg) : error + bytes :=
  match msg_payload m with
  | ABytes b => inr b
  | AString s => inr (bytes_of s)
  | _ => inl (Sentinel ErrUnsupportedPayload)
  end.

(** [eventName] is the configuration's default. *)
Definition SSEEventFromMessage (eventName : string) (m : msg) : error + SSEEvent :=
  match payloadBytes m with
  | inl err => inl err
  | inr data =>
      let name := match Headers_String (msg_headers m) HeaderSSEEventName with
                  | Some v => if decide (v = "") then eventName else v
                  | None => eventName
                  end in
      let ev := mkSSEEvent (ID m) name data in
      if negb (validSSEField (ev_ID ev)) || negb (validSSEField (ev_Name ev))
      then inl (Sentinel ErrInvalidEventField) else inr ev
  end.

(** ** The parser *)

(** The buffers of [SSEParser]. *)
Record SSEParser : Type := mkSSEParser {
  p_max : Z;
  p_end : error;
  p_dataBuf : bytes;
  p_typeBuf : string;
  p_idBuf : string;
  p_retry : Z;
  p_hasRetry : bool
}.

Definition sseBOM : bytes := [ascii_of_nat 239; ascii_of_nat 187; ascii_of_nat 191].

(** The parser and the bytes left after a byte order mark. *)
Definition newSSEParserWithCap (r : bytes) (r_end : error) (maxEventBytes : Z) : SSEParser * bytes :=
  (mkSSEParser maxEventBytes r_end [] "" "" 0 false,
   if decide (take 3 r = sseBOM) then drop 3 r else r).

Definition resetEventBuffers (p : SSEParser) : SSEParser :=
  mkSSEParser (p_max p) (p_end p) [] "" (p_idBuf p) (p_retry p) (p_hasRetry p).

(** After a CR: [Peek(1)] and, on an LF, [ReadByte]. *)
Definition skip_lf (r : bytes) : bytes :=
  match r with b :: rest => if bool_decide (b = LF) then rest else r | [] => [] end.

Fixpoint drainLine (r : bytes) : bytes :=
  match r with
  | [] => []
  | b :: rest =>
      if bool_decide (b = LF) then rest
      else if bool_decide (b = CR) then skip_lf rest
      else drainLine rest
  end.

(** The loop of [readLine] with the bytes of the line so far: the line, the
    error, and what is left to read. *)
Fixpoint readLine_from (max : Z) (r_end : error) (buf r : bytes) : (bytes * option error) * bytes :=
  match r with
  | [] =>
      (if Is r_end io_EOF
       then match buf with
            | [] => ([], Some (Sentinel io_EOF))
            | _ => (buf, Some (Sentinel io_ErrUnexpectedEOF))
            end
       else ([], Some r_end), [])
  | b :: rest =>
      if bool_decide (b = LF) then ((buf, None), rest)
      else if bool_decide (b = CR) then ((buf, None), skip_lf rest)
      else
        let buf := buf ++ [b] in
        if max <? Z.of_nat (length buf) then (([], Some (Sentinel ErrEventTooLarge)), drainLine rest)
        else readLine_from max r_end buf rest
  end.
Definition readLine (p : SSEParser) (r : bytes) : (bytes * option error) * bytes :=
  readLine_from (p_max p) (p_end p) [] r.

(** [bytes.IndexByte(line, ':')], as the parts around the colon. *)
Fixpoint cut_colon (line : bytes) : option (bytes * bytes) :=
  match line with
  | [] => None
  | b :: rest =>
      if bool_decide (b = COLON) then Some ([], rest)
      else match cut_colon rest with Some (f, v) => Some (b :: f, v) | None => None end
  end.

Definition is_digit (b : ascii) : bool :=
  (48 <=? Z.of_nat (nat_of_ascii b)) && (Z.of_nat (nat_of_ascii b) <=? 57).
(** [strconv.ParseInt(value, 10, 64)] on ASCII digits, before its range check. *)
Definition digits_value (ds : bytes) : Z :=
  foldl (λ acc b, acc * 10 + (Z.of_nat (nat_of_ascii b) - 48)) 0 ds.

Definition parseRetryMillis (value : bytes) : option Z :=
  match value with
  | [] => None
  | _ =>
      if forallb is_digit value then
        let ms := digits_value value in
        if ms <=? MaxInt64 then Some ms else None
      else None
  end.

(** A field line as its name and value, one leading space of the value gone. *)
Definition split_field (line : bytes) : bytes * bytes :=
  match cut_colon line with
  | Some (f, v) =>
      (f, match v with b :: v' => if bool_decide (b = SP) then v' else v | [] => [] end)
  | None => (line, [])
  end.

Definition processField (line : bytes) (p : SSEParser) : option error * SSEParser :=
  let '(field, value) := split_field line in
  if decide (field = bytes_of "data") then
    let data := p_dataBuf p ++ value ++ [LF] in
    (if p_max p <? Z.of_nat (length data) then Some (Sentinel ErrEventTooLarge) else None,
     mkSSEParser (p_max p) (p_end p) data (p_typeBuf p) (p_idBuf p) (p_retry p) (p_hasRetry p))
  else if decide (field = bytes_of "event") then
    (None, mkSSEParser (p_max p) (p_end p) (p_dataBuf p) (string_of value) (p_idBuf p) (p_retry p) (p_hasRetry p))
  else if decide (field = bytes_of "id") then
    (None,
     if existsb (λ b, bool_decide (b = NUL)) value then p
     else mkSSEParser (p_max p) (p_end p) (p_dataBuf p) (p_typeBuf p) (string_of value) (p_retry p) (p_hasRetry p))
  else if decide (field = bytes_of "retry") then
    (None,
     match parseRetryMillis value with
     | Some ms =>
         mkSSEParser (p_max p) (p_end p) (p_dataBuf p) (p_typeBuf p) (p_idBuf p) (wrap64 (ms * millisecond)) true
     | None => p
     end)
  else (None, p).

(** The switch of [Next] on a complete line: [None] goes on with the loop. *)
Definition onLine (line : bytes) (p : SSEParser) : option (error + SSEEvent) * SSEParser :=
  match line with
  | [] =>
      match p_dataBuf p with
      | [] => (None, mkSSEParser (p_max p) (p_end p) [] "" (p_idBuf p) (p_retry p) (p_hasRetry p))
      | data =>
          (Some (inr (mkSSEEvent (p_idBuf p) (p_typeBuf p) (removelast data))), resetEventBuffers p)
      end
  | b :: _ =>
      if bool_decide (b = COLON) then (None, p)
      else match processField line p with
      | (Some err, p') => (Some (inl err), resetEventBuffers p')
      | (None, p') => (None, p')
      end
  end.

(** The error [Next] returns for an error of [readLine]. *)
Definition onReadError (err : error) (p : SSEParser) : error * SSEParser :=
  if Is err io_EOF then
    if negb (bool_decide (p_dataBuf p = [])) || negb (bool_decide (p_typeBuf p = ""))
    then (Sentinel io_ErrUnexpectedEOF, resetEventBuffers p)
    else (Sentinel io_EOF, p)
  else if Is err io_ErrUnexpectedEOF then (Sentinel io_ErrUnexpectedEOF, resetEventBuffers p)
  else (err, resetEventBuffers p).

(** The loop of [Next]; every iteration that goes on has read a byte. *)
Fixpoint Next_loop (fuel : nat) (p : SSEParser) (r : bytes) : option ((error + SSEEvent) * SSEParser * bytes) :=
  match fuel with
  | O => None
  | S fuel =>
      match readLine p r with
      | ((_, Some err), r') => let '(e, p') := onReadError err p in Some (inl e, p', r')
      | ((line, None), r') =>
          match onLine line p with
          | (Some res, p') => Some (res, p', r')
          | (None, p') => Next_loop fuel p' r'
          end
      end
  end.

Definition Next (p : SSEParser) (r : bytes) : option ((error + SSEEvent) * SSEParser * bytes) :=
  Next_loop (S (length r)) p r.

Definition RetryDelay (p : SSEParser) : option Z := if p_hasRetry p then Some (p_retry p) else None.
Definition LastEventID (p : SSEParser) : string := p_idBuf p.

(** Read events until an error, which ends the stream for a client. *)
Fixpoint read_all (fuel : nat) (p : SSEParser) (r : bytes) : option (list SSEEvent * error * SSEParser) :=
  match fuel with
  | O => None
  | S fuel =>
      match Next p r with
      | None => None
      | Some (inl e, p', _) => Some ([], e, p')
      | Some (inr ev, p', r') =>
          match read_all fuel p' r' with
          | Some (evs, e, p'') => Some (ev :: evs, e, p'')
          | None => None
          end
      end
  end.

(** ** The reference: a stream as blocks of lines

    The stream is normalized and split into lines; a block is the lines up to a
    blank one.  An event is a block with a data field: its name is the block's
    last event field, its data all data fields joined, its id the last valid id
    field of the stream so far. *)

Definition is_comment (l : bytes) : bool := match l with b :: _ => bool_decide (b = COLON) | [] => false end.
Definition value_of (name : string) (l : bytes) : option bytes :=
  if is_comment l then None
  else let '(f, v) := split_field l in if decide (f = bytes_of name) then Some v else None.
Definition no_nul (v : bytes) : bool := negb (existsb (λ b, bool_decide (b = NUL)) v).

Definition block_data (blk : list bytes) : list bytes := omap (value_of "data") blk.
Definition block_name (blk : list bytes) : string :=
  from_option string_of "" (last (omap (value_of "event") blk)).
Definition block_id (id : string) (blk : list bytes) : string :=
  from_option string_of id (last (filter no_nul (omap (value_of "id") blk))).

Definition joined (ds : list bytes) : bytes := removelast (ds ≫= λ d, d ++ [LF]).

Definition block_event (id : string) (blk : list bytes) : list SSEEvent :=
  match block_data blk with
  | [] => []
  | ds => [mkSSEEvent (block_id id blk) (block_name blk) (joined ds)]
  end.

(** The events of complete lines, after the lines [blk] of an unfinished block;
    and the unfinished block they leave, with the id at its start. *)
Fixpoint ref_events (id : string) (blk : list bytes) (ls : list bytes)
    : list SSEEvent * (string * list bytes) :=
  match ls with
  | [] => ([], (id, blk))
  | [] :: rest =>
      let '(evs, st) := ref_events (block_id id blk) [] rest in (block_event id blk ++ evs, st)
  | l :: rest => ref_events id (blk ++ [l]) rest
  end.

(** How a stream ends in an unterminated last line and an unfinished block. *)
Definition ref_end (tail : bytes) (blk : list bytes) : error :=
  if bool_decide (tail = []) && bool_decide (block_data blk = []) && bool_decide (block_name blk = "")
  then Sentinel io_EOF else Sentinel io_ErrUnexpectedEOF.

(** Every line and every block's data within the cap. *)
Definition data_size (blk : list bytes) : Z :=
  Z.of_nat (length (block_data blk ≫= λ d, d ++ [LF])).
Fixpoint fits (max : Z) (blk : list bytes) (ls : list bytes) : bool :=
  match ls with
  | [] => true
  | [] :: rest => fits max [] rest
  | l :: rest =>
      (Z.of_nat (length l) <=? max) && (data_size (blk ++ [l]) <=? max) && fits max (blk ++ [l]) rest
  end.

(** The complete lines of a stream and its unterminated last one. *)
Definition stream_lines (r : bytes) : list bytes := removelast (split_lf (normalize r)).
Definition stream_tail (r : bytes) : bytes := List.last (split_lf (normalize r)) [].

(** *** Lines *)

(** The first line of a stream and what follows its terminator. *)
Fixpoint cut (r : bytes) : option (bytes * bytes) :=
  match r with
  | [] => None
  | b :: rest =>
      if bool_decide (b = LF) then Some ([], rest)
      else if bool_decide (b = CR) then Some ([], skip_lf rest)
      else match cut rest with Some (l, r') => Some (b :: l, r') | None => None end
  end.

Lemma drainLine_cut r : drainLine r = match cut r with Some (_, r') => r' | None => [] end.
Proof.
  induction r as [|b r IH]; [done|]. cbn. case_bool_decide; [done|]. case_bool_decide; [done|].
  rewrite IH. by destruct (cut r) as [[??]|].
Qed.

Lemma skip_lf_length r : (length (skip_lf r) ≤ length r)%nat.
Proof. destruct r as [|b r]; cbn; [lia|]. case_bool_decide; cbn; lia. Qed.

Lemma cut_length r l r' : cut r = Some (l, r') → (length r' < length r)%nat.
Proof.
  revert l. induction r as [|b r IH]; intros l; [done|]. cbn. case_bool_decide; [intros [= <- <-]; lia|].
  case_bool_decide; [intros [= <- <-]; pose proof (skip_lf_length r); lia|].
  destruct (cut r) as [[l' r'']|]; [|done]. intros [= <- <-]. specialize (IH l' eq_refl). lia.
Qed.

Definition at_end (r_end : error) (buf : bytes) : bytes * option error :=
  if Is r_end io_EOF
  then match buf with
       | [] => ([], Some (Sentinel io_EOF))
       | _ => (buf, Some (Sentinel io_ErrUnexpectedEOF))
       end
  else ([], Some r_end).

(** [readLine] takes the first line; one over the cap is taken whole too, and
    reported. *)
Lemma readLine_cut max r_end buf r :
  Z.of_nat (length buf) ≤ max →
  readLine_from max r_end buf r =
  match cut r with
  | Some (l, r') =>
      (if max <? Z.of_nat (length (buf ++ l)) then ([], Some (Sentinel ErrEventTooLarge)) else (buf ++ l, None), r')
  | None =>
      (if max <? Z.of_nat (length (buf ++ r)) then ([], Some (Sentinel ErrEventTooLarge))
       else at_end r_end (buf ++ r), [])
  end.
Proof.
  revert buf. induction r as [|b r IH]; intros buf Hb; cbn [readLine_from cut].
  { rewrite app_nil_r. rewrite (proj2 (Z.ltb_ge _ _)) by lia. done. }
  case_bool_decide; [rewrite app_nil_r, (proj2 (Z.ltb_ge _ _)) by lia; done|].
  case_bool_decide; [rewrite app_nil_r, (proj2 (Z.ltb_ge _ _)) by lia; done|].
  destruct (max <? Z.of_nat (length (buf ++ [b]))) eqn:Hm.
  - rewrite drainLine_cut. apply Z.ltb_lt in Hm. rewrite length_app in Hm. cbn in Hm.
    destruct (cut r) as [[l r']|];
      by rewrite (proj2 (Z.ltb_lt _ _)) by (rewrite length_app; cbn; lia).
  - apply Z.ltb_ge in Hm. rewrite IH by done.
    destruct (cut r) as [[l r']|]; by rewrite <- app_assoc.
Qed.

Lemma replace_crlf_cons a r : a ≠ CR → replace_crlf (a :: r) = a :: replace_crlf r.
Proof. intros Ha. destruct r as [|b r]; [done|]. cbn [replace_crlf]. by rewrite bool_decide_false by tauto. Qed.

Lemma normalize_cons a r : a ≠ CR → normalize (a :: r) = a :: normalize r.
Proof.
  intros Ha. unfold normalize. rewrite replace_crlf_cons by done. cbn. by rewrite bool_decide_false.
Qed.

Lemma normalize_cr r : normalize (CR :: r) = LF :: normalize (skip_lf r).
Proof.
  unfold normalize. destruct r as [|b r]; [done|]. cbn [replace_crlf skip_lf].
  destruct (decide (b = LF)) as [->|Hb]; [done|]. by rewrite !bool_decide_false by tauto.
Qed.

(** The reference's lines are those [readLine] takes one after the other. *)
Lemma split_cut r :
  split_lf (normalize r) =
  match cut r with Some (l, r') => l :: split_lf (normalize r') | None => [r] end.
Proof.
  induction r as [|b r IH]; [done|]. cbn [cut].
  destruct (decide (b = LF)) as [->|Hlf]; [by rewrite normalize_cons|].
  rewrite (bool_decide_false (b = LF)) by done.
  destruct (decide (b = CR)) as [->|Hcr]; [by rewrite normalize_cr|].
  rewrite (bool_decide_false (b = CR)), normalize_cons by done. cbn [split_lf].
  rewrite (bool_decide_false (b = LF)), IH by done. by destruct (cut r) as [[l r']|].
Qed.

Lemma split_lf_nonempty s : split_lf s ≠ [].
Proof. destruct s as [|b s]; [done|]. cbn. case_bool_decide; [done|]. by destruct (split_lf s). Qed.

Lemma stream_lines_cut r :
  stream_lines r = match cut r with Some (l, r') => l :: stream_lines r' | None => [] end.
Proof.
  unfold stream_lines. rewrite split_cut. destruct (cut r) as [[l r']|]; [|done].
  pose proof (split_lf_nonempty (normalize r')). by destruct (split_lf (normalize r')).
Qed.

Lemma stream_tail_cut r :
  stream_tail r = match cut r with Some (_, r') => stream_tail r' | None => r end.
Proof.
  unfold stream_tail. rewrite split_cut. destruct (cut r) as [[l r']|]; [|done].
  pose proof (split_lf_nonempty (normalize r')). by destruct (split_lf (normalize r')).
Qed.

(** *** The loop of Next *)

Lemma onLine_max l p : p_max (onLine l p).2 = p_max p ∧ p_end (onLine l p).2 = p_end p.
Proof.
  unfold onLine. destruct l as [|b l]; [by destruct (p_dataBuf p)|]. case_bool_decide; [done|].
  unfold processField. destruct (split_field _) as [f v].
  destruct (decide _); [by destruct (_ <? _)|]. destruct (decide _); [done|].
  destruct (decide _); [by destruct (existsb _ _)|]. destruct (decide _); [|done].
  by destruct (parseRetryMillis v).
Qed.

(** Enough fuel: more than there are bytes to read. *)
Lemma Next_fuel n m p r :
  0 ≤ p_max p → (length r < n)%nat → (length r < m)%nat → Next_loop n p r = Next_loop m p r.
Proof.
  revert m p r. induction n as [|n IH]; intros [|m] p r Hp Hn Hm; [lia..|]. cbn [Next_loop].
  unfold readLine. rewrite readLine_cut by done. destruct (cut r) as [[l r']|] eqn:Hc.
  - pose proof (cut_length _ _ _ Hc). destruct (_ <? _); [done|]. cbn [app].
    pose proof (proj1 (onLine_max l p)) as Hmax.
    destruct (onLine l p) as [[res|] p']; [done|]. cbn in Hmax. apply IH; lia.
  - destruct (_ <? _); [done|]. unfold at_end. destruct (Is _ _), r; done.
Qed.

Lemma Next_line p r l r' :
  0 ≤ p_max p → cut r = Some (l, r') → Z.of_nat (length l) ≤ p_max p →
  Next p r = match onLine l p with (Some res, p') => Some (res, p', r') | (None, p') => Next p' r' end.
Proof.
  intros Hp Hc Hl. unfold Next at 1. cbn [Next_loop]. unfold readLine. rewrite readLine_cut, Hc by done.
  cbn [app]. rewrite (proj2 (Z.ltb_ge _ _)) by done.
  pose proof (proj1 (onLine_max l p)) as Hmax. pose proof (cut_length _ _ _ Hc).
  destruct (onLine l p) as [[res|] p']; [done|]. cbn in Hmax. apply Next_fuel; lia.
Qed.

Lemma Next_tail p r :
  0 ≤ p_max p → cut r = None → Z.of_nat (length r) ≤ p_max p → Is (p_end p) io_EOF = true →
  Next p r = let '(e, p') := onReadError (match r with [] => Sentinel io_EOF | _ => Sentinel io_ErrUnexpectedEOF end) p
             in Some (inl e, p', []).
Proof.
  intros Hp Hc Hl He. unfold Next. cbn [Next_loop]. unfold readLine. rewrite readLine_cut, Hc by done.
  cbn [app]. rewrite (proj2 (Z.ltb_ge _ _)) by done. unfold at_end. rewrite He. by destruct r.
Qed.

(** Next returns on every stream. *)
Lemma Next_total p r : 0 ≤ p_max p → ∃ res p' r', Next p r = Some (res, p', r') ∧
  p_max p' = p_max p ∧ p_end p' = p_end p ∧ (length r' ≤ length r)%nat ∧
  (∀ ev, res = inr ev → (length r' < length r)%nat).
Proof.
  remember (length r) as n eqn:Hn. revert p r Hn. induction (lt_wf n) as [n _ IH]. intros p r -> Hp.
  unfold Next. cbn [Next_loop]. unfold readLine. rewrite readLine_cut by done.
  destruct (cut r) as [[l r']|] eqn:Hc.
  - pose proof (cut_length _ _ _ Hc). destruct (_ <? _).
    { cbn. eexists _, _, _. split; [done|]. cbn. split; [done|]. split; [done|]. split; [lia|done]. }
    cbn [app]. pose proof (onLine_max l p) as [Hmax Hend].
    destruct (onLine l p) as [[res|] p'] eqn:Ho; cbn in Hmax, Hend.
    + eexists _, _, _. split; [done|]. split; [done|]. split; [done|]. split; [lia|]. intros; lia.
    + rewrite (Next_fuel _ (S (length r'))) by lia.
      destruct (IH (length r') ltac:(lia) p' r' eq_refl) as (res & p2 & r2 & H1 & H2 & H3 & H4 & H5); [lia|].
      exists res, p2, r2. split; [done|]. rewrite H2, H3. split; [done|]. split; [done|]. split; [lia|].
      intros ev ->. specialize (H5 ev eq_refl). lia.
  - assert (∃ e, (if p_max p <? Z.of_nat (length ([] ++ r)) then ([], Some (Sentinel ErrEventTooLarge))
                  else at_end (p_end p) ([] ++ r)).2 = Some e) as [e He].
    { destruct (_ <? _); [by eexists|]. unfold at_end. destruct (Is _ _), r; by eexists. }
    match type of He with ?q.2 = _ => destruct q as [line oe] end. cbn in He. subst oe.
    destruct (onReadError e p) as [e' p'] eqn:Ho. exists (inl e'), p', [].
    split; [done|]. unfold onReadError in Ho. cbn.
    repeat case_match_hyp Ho; injection Ho as <- <-; (split; [done|]; split; [done|]; split; [lia|done]).
Qed.

Lemma read_all_fuel n m p r :
  0 ≤ p_max p → (length r < n)%nat → (length r < m)%nat → read_all n p r = read_all m p r.
Proof.
  revert m p r. induction n as [|n IH]; intros [|m] p r Hp Hn Hm; [lia..|]. cbn [read_all].
  destruct (Next_total p r Hp) as (res & p' & r' & -> & Hmax & _ & _ & Hlt).
  destruct res as [e|ev]; [done|]. specialize (Hlt ev eq_refl). by rewrite (IH m) by lia.
Qed.

Definition read_stream (p : SSEParser) (r : bytes) : option (list SSEEvent * error * SSEParser) :=
  read_all (S (length r)) p r.

Lemma read_stream_line p r l r' :
  0 ≤ p_max p → cut r = Some (l, r') → Z.of_nat (length l) ≤ p_max p →
  read_stream p r =
  match onLine l p with
  | (None, p') => read_stream p' r'
  | (Some (inl e), p') => Some ([], e, p')
  | (Some (inr ev), p') =>
      match read_stream p' r' with Some (evs, e, p'') => Some (ev :: evs, e, p'') | None => None end
  end.
Proof.
  intros Hp Hc Hl. unfold read_stream at 1. cbn [read_all]. rewrite (Next_line p r l r') by done.
  pose proof (cut_length _ _ _ Hc). pose proof (proj1 (onLine_max l p)) as Hmax.
  destruct (onLine l p) as [[[e|ev]|] p']; cbn in Hmax; [done| |].
  - unfold read_stream. by rewrite (read_all_fuel _ (S (length r'))) by lia.
  - unfold read_stream. cbn [read_all].
    destruct (Next_total p' r') as (res & p2 & r2 & -> & Hm2 & _ & _ & Hlt); [lia|].
    destruct res as [e|ev]; [done|]. specialize (Hlt ev eq_refl).
    by rewrite (read_all_fuel (length r) (length r')) by lia.
Qed.

(** *** The parser against the reference *)

(** The parser in the middle of block [blk], which started with last id [id]. *)
Record in_block (id : string) (blk : list bytes) (p : SSEParser) : Prop := {
  ib_data : p_dataBuf p = block_data blk ≫= λ d, d ++ [LF];
  ib_name : p_typeBuf p = block_name blk;
  ib_id : p_idBuf p = block_id id blk
}.

Lemma omap_snoc {A B} (f : A → option B) l x :
  omap f (l ++ [x]) = omap f l ++ from_option (λ y, [y]) [] (f x).
Proof. rewrite omap_app. cbn. by destruct (f x). Qed.

Lemma block_data_snoc blk l : block_data (blk ++ [l]) = block_data blk ++ from_option (λ y, [y]) [] (value_of "data" l).
Proof. apply omap_snoc. Qed.

Lemma block_name_snoc blk l :
  block_name (blk ++ [l]) = from_option string_of (block_name blk) (value_of "event" l).
Proof.
  unfold block_name. rewrite omap_snoc. destruct (value_of "event" l) as [v|]; cbn.
  - by rewrite last_snoc.
  - by rewrite app_nil_r.
Qed.

Lemma block_id_snoc id blk l :
  block_id id (blk ++ [l]) =
  match value_of "id" l with
  | Some v => if no_nul v then string_of v else block_id id blk
  | None => block_id id blk
  end.
Proof.
  unfold block_id. rewrite omap_snoc, list.filter_app. destruct (value_of "id" l) as [v|]; cbn [from_option].
  - destruct (no_nul v) eqn:Hn.
    + rewrite filter_cons_True by (by rewrite Hn). by rewrite filter_nil, last_snoc.
    + rewrite filter_cons_False by (by rewrite Hn; intros []). by rewrite filter_nil, app_nil_r.
  - by rewrite filter_nil, app_nil_r.
Qed.

Lemma value_of_comment name l : is_comment l = true → value_of name l = None.
Proof. intros H. unfold value_of. by rewrite H. Qed.

Lemma value_of_field name l f v :
  is_comment l = false → split_field l = (f, v) →
  value_of name l = if decide (f = bytes_of name) then Some v else None.
Proof. intros Hc Hs. unfold value_of. by rewrite Hc, Hs. Qed.

(** A line that is not blank becomes part of the block. *)
Lemma onLine_field id blk l p :
  l ≠ [] → in_block id blk p → data_size (blk ++ [l]) ≤ p_max p →
  ∃ p', onLine l p = (None, p') ∧ in_block id (blk ++ [l]) p' ∧ p_max p' = p_max p ∧ p_end p' = p_end p.
Proof.
  intros Hl [Hd Hn Hi] Hsz. unfold data_size in Hsz. rewrite block_data_snoc in Hsz.
  assert (∀ p', onLine l p = (None, p') → in_block id (blk ++ [l]) p' →
    ∃ p', onLine l p = (None, p') ∧ in_block id (blk ++ [l]) p' ∧ p_max p' = p_max p ∧ p_end p' = p_end p) as Hdone.
  { intros p' Ho Hb. pose proof (onLine_max l p) as [H1 H2]. rewrite Ho in H1, H2. by exists p'. }
  unfold onLine in *. destruct l as [|b l0]; [done|].
  destruct (is_comment (b :: l0)) eqn:Hc; cbn [is_comment] in Hc; rewrite Hc in *.
  { apply (Hdone p eq_refl). split.
    - by rewrite block_data_snoc, (value_of_comment "data"), app_nil_r.
    - by rewrite block_name_snoc, (value_of_comment "event").
    - by rewrite block_id_snoc, (value_of_comment "id"). }
  unfold processField in *. destruct (split_field (b :: l0)) as [f v] eqn:Hs.
  pose proof (λ name, value_of_field name (b :: l0) f v Hc Hs) as Hv.
  rewrite Hv in Hsz. set (line := b :: l0) in *.
  destruct (decide (f = bytes_of "data")) as [->|Hdata].
  { rewrite Hd, bind_app in *. cbn in Hsz. rewrite app_nil_r in Hsz.
    rewrite (proj2 (Z.ltb_ge _ _)) in * by done. eapply Hdone; [done|]. split; cbn.
    - by rewrite block_data_snoc, Hv, decide_True, bind_app by done; cbn; rewrite app_nil_r.
    - by rewrite block_name_snoc, Hv.
    - by rewrite block_id_snoc, Hv. }
  assert (block_data (blk ++ [line]) = block_data blk) as Hbd
    by (by rewrite block_data_snoc, Hv, decide_False, app_nil_r).
  destruct (decide (f = bytes_of "event")) as [->|Hev].
  { eapply Hdone; [done|]. split; cbn; [by rewrite Hbd|by rewrite block_name_snoc, Hv|by rewrite block_id_snoc, Hv]. }
  assert (block_name (blk ++ [line]) = block_name blk) as Hbn by (by rewrite block_name_snoc, Hv, decide_False).
  destruct (decide (f = bytes_of "id")) as [->|Hidf].
  { eapply Hdone; [done|]. assert (block_id id (blk ++ [line]) = if no_nul v then string_of v else block_id id blk)
      as Hbi by (by rewrite block_id_snoc, Hv). unfold no_nul in Hbi.
    destruct (existsb _ v); split; cbn in *; congruence. }
  assert (block_id id (blk ++ [line]) = block_id id blk) as Hbi by (by rewrite block_id_snoc, Hv, decide_False).
  destruct (decide (f = bytes_of "retry")) as [->|Hrt]; eapply Hdone; try done; [|split; congruence].
  destruct (parseRetryMillis v); split; cbn; congruence.
Qed.

(** A blank line dispatches the block. *)
Lemma onLine_blank id blk p :
  in_block id blk p →
  ∃ p', onLine [] p = (match block_event id blk with ev :: _ => Some (inr ev) | [] => None end, p') ∧
    in_block (block_id id blk) [] p' ∧ p_max p' = p_max p ∧ p_end p' = p_end p.
Proof.
  intros [Hd Hn Hi]. pose proof (onLine_max [] p) as [H1 H2]. unfold onLine in *. unfold block_event, joined.
  rewrite Hd in *. destruct (block_data blk) as [|d ds] eqn:Hb.
  - eexists. split; [done|]. by split.
  - remember ((d :: ds) ≫= λ d0, d0 ++ [LF]) as big eqn:Hbig.
    destruct big as [|x xs]; [by destruct d|]. rewrite Hi, Hn. eexists. split; [done|]. by split.
Qed.

Lemma block_event_cases id blk : block_event id blk = [] ∨ ∃ ev, block_event id blk = [ev].
Proof. unfold block_event. destruct (block_data blk); eauto. Qed.

(** The end of the stream. *)
Lemma Next_end id blk p r :
  0 ≤ p_max p → cut r = None → Z.of_nat (length r) ≤ p_max p → Is (p_end p) io_EOF = true →
  in_block id blk p → ∃ p', Next p r = Some (inl (ref_end r blk), p', []) ∧ p_idBuf p' = block_id id blk.
Proof.
  intros Hp Hc Hl He [Hd Hn Hi]. rewrite Next_tail by done. unfold onReadError, ref_end.
  rewrite Hd, Hn. destruct r as [|b r].
  - cbn [Is]. rewrite bool_decide_true by done.
    rewrite (bool_decide_true (@nil ascii = [])) by done. cbn [andb].
    destruct (block_data blk) as [|d ds].
    + cbn. destruct (bool_decide (block_name blk = "")); cbn; eexists; (split; [done|]); done.
    + case_bool_decide as Hz; [by destruct d|].
      cbn. eexists. split; [done|]. done.
  - cbn. eexists. split; [done|]. done.
Qed.

Lemma read_stream_ref id blk p r :
  0 ≤ p_max p → Is (p_end p) io_EOF = true → in_block id blk p →
  fits (p_max p) blk (stream_lines r) = true → Z.of_nat (length (stream_tail r)) ≤ p_max p →
  let '(evs, (id', blk')) := ref_events id blk (stream_lines r) in
  ∃ p', read_stream p r = Some (evs, ref_end (stream_tail r) blk', p') ∧ p_idBuf p' = block_id id' blk'.
Proof.
  remember (length r) as n eqn:Hn. revert id blk p r Hn. induction (lt_wf n) as [n _ IH].
  intros id blk p r -> Hp He Hb. rewrite stream_lines_cut, stream_tail_cut.
  destruct (cut r) as [[l r']|] eqn:Hc.
  2: { intros _ Hl. cbn [ref_events]. destruct (Next_end id blk p r) as (p' & Hnx & Hid); [done..|].
       exists p'. split; [|done]. unfold read_stream. cbn [read_all]. by rewrite Hnx. }
  pose proof (cut_length _ _ _ Hc) as Hlt. destruct l as [|b l].
  - cbn [fits ref_events]. intros Hf Ht.
    destruct (onLine_blank id blk p Hb) as (p1 & Ho & Hb1 & Hm1 & He1).
    specialize (IH (length r') Hlt (block_id id blk) [] p1 r' eq_refl).
    rewrite (read_stream_line p r [] r'), Ho by (done || cbn; lia). rewrite Hm1, He1 in IH.
    destruct (ref_events (block_id id blk) [] (stream_lines r')) as [evs [id' blk']].
    destruct IH as (p' & Hrs & Hid); [done..|].
    destruct (block_event_cases id blk) as [->|[ev ->]]; rewrite Hrs; by exists p'.
  - cbn [fits ref_events]. intros Hf Ht. bool_to_prop.
    destruct (onLine_field id blk (b :: l) p) as (p1 & Ho & Hb1 & Hm1 & He1); [done|done|done|].
    specialize (IH (length r') Hlt id (blk ++ [b :: l]) p1 r' eq_refl).
    rewrite (read_stream_line p r (b :: l) r'), Ho by done. rewrite Hm1, He1 in IH.
    by apply IH.
Qed.

(** *** What the encoder writes, read back *)

Definition clean (l : bytes) : Prop := Forall (λ b, b ≠ LF ∧ b ≠ CR) l.

Lemma cut_clean l r : clean l → cut (l ++ LF :: r) = Some (l, r).
Proof.
  induction 1 as [|b l [Hlf Hcr] _ IH]; [done|]. cbn. by rewrite !bool_decide_false, IH by done.
Qed.

Lemma stream_lines_clean l r : clean l → stream_lines (l ++ LF :: r) = l :: stream_lines r.
Proof. intros H. by rewrite stream_lines_cut, cut_clean. Qed.
Lemma stream_tail_clean l r : clean l → stream_tail (l ++ LF :: r) = stream_tail r.
Proof. intros H. by rewrite stream_tail_cut, cut_clean. Qed.

(** A field without its terminator. *)
Definition field (name : string) (value : bytes) : bytes := bytes_of name ++ [COLON; SP] ++ value.

Lemma field_line_eq name value : field_line name value = field name value ++ [LF].
Proof. unfold field_line, field. by rewrite <- !app_assoc. Qed.

(** Reading a run of clean lines, each with its terminator. *)
Lemma stream_run ls r :
  Forall clean ls →
  stream_lines ((ls ≫= λ l, l ++ [LF]) ++ r) = ls ++ stream_lines r ∧
  stream_tail ((ls ≫= λ l, l ++ [LF]) ++ r) = stream_tail r.
Proof.
  induction 1 as [|l ls Hl _ [IH1 IH2]]; [done|]. rewrite bind_cons, <- !app_assoc.
  change ([LF] ++ ?x) with (LF :: x). rewrite stream_lines_clean, stream_tail_clean, IH1, IH2 by done. done.
Qed.

Lemma validSSEField_clean s :
  validSSEField s = true → clean (bytes_of s) ∧ no_nul (bytes_of s) = true.
Proof.
  unfold validSSEField, no_nul, clean. generalize (bytes_of s). intros l. rewrite forallb_forall. intros H. split.
  - apply Forall_forall. intros b Hb%list_elem_of_In. specialize (H b Hb). bool_to_prop. tauto.
  - apply negb_true_iff. apply not_true_iff_false. intros (b & Hb & Hn)%existsb_exists.
    specialize (H b Hb). bool_to_prop. tauto.
Qed.

Lemma normalize_no_cr s : CR ∉ normalize s.
Proof.
  unfold normalize, replace_cr. intros (b & Hb & _)%list_elem_of_fmap. revert Hb. case_bool_decide; [done|congruence].
Qed.

Lemma split_lf_clean s : CR ∉ s → Forall clean (split_lf s).
Proof.
  induction s as [|b s IH]; intros Hs; [by repeat constructor|]. apply not_elem_of_cons in Hs as [Hb Hs].
  specialize (IH Hs). cbn. case_bool_decide; [by constructor; [constructor|]|].
  destruct (split_lf s) as [|l ls]; [by repeat constructor|]. apply Forall_cons in IH as [Hl Hls].
  constructor; [|done]. constructor; [|done]. split; congruence.
Qed.

Lemma split_lf_join s : (split_lf s ≫= λ d, d ++ [LF]) = s ++ [LF].
Proof.
  induction s as [|b s IH]; [done|]. cbn. case_bool_decide as Hb; cbn; [by rewrite IH, Hb|].
  pose proof (split_lf_nonempty s). destruct (split_lf s) as [|l ls]; [done|]. cbn in *. by rewrite IH.
Qed.

(** The lines of a frame, without the blank one that ends it. *)
Definition frame_block (ev : SSEEvent) : list bytes :=
  (if decide (ev_ID ev = "") then [] else [field "id" (bytes_of (ev_ID ev))]) ++
  (if decide (ev_Name ev = "") then [] else [field "event" (bytes_of (ev_Name ev))]) ++
  (field "data" <$> split_lf (normalize (ev_Data ev))).

Lemma sse_frame_lines ev : sse_frame ev = (frame_block ev ++ [[]]) ≫= λ l, l ++ [LF].
Proof.
  unfold sse_frame, frame_block. rewrite !bind_app, bind_singleton, <- !app_assoc. f_equal; [|f_equal].
  - destruct (decide _); [done|]. by rewrite bind_singleton, field_line_eq.
  - destruct (decide _); [done|]. by rewrite bind_singleton, field_line_eq.
  - f_equal. induction (split_lf (normalize (ev_Data ev))) as [|l ls IH]; [done|].
    rewrite fmap_cons, !bind_cons, IH. by rewrite field_line_eq.
Qed.

Definition event_valid (ev : SSEEvent) : bool := validSSEField (ev_ID ev) && validSSEField (ev_Name ev).

Lemma clean_app l1 l2 : clean l1 → clean l2 → clean (l1 ++ l2).
Proof. apply Forall_app_2. Qed.

Lemma clean_field name value : clean (bytes_of name) → clean value → clean (field name value).
Proof. intros Hn Hv. apply clean_app; [done|]. apply clean_app; [|done]. by apply (bool_decide_unpack _). Qed.

Lemma frame_block_clean ev : event_valid ev = true → Forall clean (frame_block ev ++ [[]]).
Proof.
  unfold event_valid, frame_block. intros [[Hi _]%validSSEField_clean [Hn _]%validSSEField_clean]%andb_true_iff.
  repeat (apply Forall_app_2).
  - destruct (decide _); [constructor|]. apply Forall_singleton, clean_field; [by apply (bool_decide_unpack _)|done].
  - destruct (decide _); [constructor|]. apply Forall_singleton, clean_field; [by apply (bool_decide_unpack _)|done].
  - apply Forall_fmap. eapply Forall_impl; [apply split_lf_clean, normalize_no_cr|].
    intros l Hl. apply clean_field; [by apply (bool_decide_unpack _)|done].
  - apply Forall_singleton. constructor.
Qed.

Lemma value_of_own name v :
  name ∈ ["data"; "event"; "id"] → ∀ k, k ∈ ["data"; "event"; "id"] →
  value_of k (field name v) = if decide (name = k) then Some v else None.
Proof.
  intros Hn k Hk. repeat (apply elem_of_cons in Hn as [->|Hn]; [|]); [..|by apply not_elem_of_nil in Hn];
    (repeat (apply elem_of_cons in Hk as [->|Hk]; [|]); [..|by apply not_elem_of_nil in Hk]); by cbn.
Qed.

Lemma omap_value_of name k vs :
  name ∈ ["data"; "event"; "id"] → k ∈ ["data"; "event"; "id"] →
  omap (value_of k) (field name <$> vs) = if decide (name = k) then vs else [].
Proof.
  intros Hn Hk. induction vs as [|v vs IH]; [by destruct (decide _)|].
  cbn. rewrite value_of_own by done. destruct (decide (name = k)); by rewrite IH.
Qed.

Definition opt_field (name value : string) : list bytes :=
  if decide (value = "") then [] else [field name (bytes_of value)].

Lemma omap_opt_field name k v :
  name ∈ ["data"; "event"; "id"] → k ∈ ["data"; "event"; "id"] →
  omap (value_of k) (opt_field name v) = if decide (name = k ∧ v ≠ "") then [bytes_of v] else [].
Proof.
  intros Hn Hk. unfold opt_field. destruct (decide (v = "")) as [->|Hv].
  - by rewrite decide_False by naive_solver.
  - change [field name (bytes_of v)] with (field name <$> [bytes_of v]). rewrite omap_value_of by done.
    destruct (decide (name = k)); [by rewrite decide_True|by rewrite decide_False by naive_solver].
Qed.

Lemma frame_block_eq ev :
  frame_block ev = opt_field "id" (ev_ID ev) ++ opt_field "event" (ev_Name ev) ++
                   (field "data" <$> split_lf (normalize (ev_Data ev))).
Proof. done. Qed.

Lemma frame_values k ev :
  k ∈ ["data"; "event"; "id"] →
  omap (value_of k) (frame_block ev) =
  (if decide ("id" = k ∧ ev_ID ev ≠ "") then [bytes_of (ev_ID ev)] else []) ++
  (if decide ("event" = k ∧ ev_Name ev ≠ "") then [bytes_of (ev_Name ev)] else []) ++
  (if decide ("data" = k) then split_lf (normalize (ev_Data ev)) else []).
Proof.
  intros Hk. rewrite frame_block_eq, !omap_app, !omap_opt_field, omap_value_of by (done || set_solver). done.
Qed.

Lemma frame_data ev : block_data (frame_block ev) = split_lf (normalize (ev_Data ev)).
Proof.
  unfold block_data. rewrite frame_values by set_solver.
  by rewrite !decide_False, decide_True by naive_solver.
Qed.

Lemma frame_name ev : block_name (frame_block ev) = ev_Name ev.
Proof.
  unfold block_name. rewrite frame_values by set_solver.
  rewrite (decide_False (P := "id" = "event" ∧ _)), (decide_False (P := "data" = "event")), app_nil_r by naive_solver.
  destruct (decide ("event" = "event" ∧ _)) as [_|Hn]; cbn; [apply String.string_of_list_ascii_of_string|].
  destruct (decide (ev_Name ev = "")) as [->|]; [done|]. by destruct Hn.
Qed.

Lemma frame_id id ev :
  event_valid ev = true → block_id id (frame_block ev) = if decide (ev_ID ev = "") then id else ev_ID ev.
Proof.
  unfold event_valid. intros [[_ Hi]%validSSEField_clean _]%andb_true_iff.
  unfold block_id. rewrite frame_values by set_solver.
  rewrite (decide_False (P := "event" = "id" ∧ _)), (decide_False (P := "data" = "id")), !app_nil_r by naive_solver.
  destruct (decide (ev_ID ev = "")) as [Hz|Hz].
  - by rewrite decide_False by naive_solver.
  - rewrite decide_True by done. rewrite filter_cons_True by (by rewrite Hi). rewrite filter_nil. cbn.
    apply String.string_of_list_ascii_of_string.
Qed.

(** An event under the cap: the longest line and the data. *)
Definition event_fits (max : Z) (ev : SSEEvent) : bool :=
  (Z.of_nat (length (bytes_of (ev_ID ev))) + 4 <=? max) &&
  (Z.of_nat (length (bytes_of (ev_Name ev))) + 7 <=? max) &&
  (Z.of_nat (length (normalize (ev_Data ev))) + 6 <=? max).

Lemma data_size_app b1 b2 : data_size (b1 ++ b2) = data_size b1 + data_size b2.
Proof. unfold data_size, block_data. rewrite omap_app, bind_app, length_app. lia. Qed.

Lemma data_size_nonneg b : 0 ≤ data_size b.
Proof. unfold data_size. lia. Qed.

(** A block under the cap, followed by lines under the cap. *)
Lemma fits_block max blk0 blk rest :
  Forall (λ l, l ≠ [] ∧ Z.of_nat (length l) ≤ max) blk → data_size (blk0 ++ blk) ≤ max →
  fits max [] rest = true → fits max blk0 (blk ++ [] :: rest) = true.
Proof.
  intros Hb. revert blk0. induction Hb as [|l blk [Hne Hl] _ IH]; intros blk0 Hsz Hr; [done|].
  destruct l as [|b l]; [done|]. cbn [app fits].
  rewrite cons_middle, app_assoc in Hsz. rewrite IH, andb_true_r by done.
  rewrite data_size_app in Hsz. pose proof (data_size_nonneg blk) as Hblk.
  apply andb_true_iff. split; apply Z.leb_le; [done|].
  assert (∀ x y, 0 ≤ y → x + y ≤ max → x ≤ max) as Hle by lia. exact (Hle _ _ Hblk Hsz).
Qed.

Lemma split_lf_length s l : l ∈ split_lf s → (length l ≤ length s)%nat.
Proof.
  revert l. induction s as [|b s IH]; intros l; cbn; [intros ->%list_elem_of_singleton; done|].
  case_bool_decide; [intros [->|H1]%elem_of_cons; [cbn; lia|apply IH in H1; lia]|].
  destruct (split_lf s) as [|l0 ls]; [intros ->%list_elem_of_singleton; cbn; lia|].
  intros [->|H1]%elem_of_cons; [cbn; assert (length l0 ≤ length s)%nat by (apply IH; by left); lia|].
  assert (length l ≤ length s)%nat by (apply IH; by right). lia.
Qed.

Lemma field_length name v : length (field name v) = (length (bytes_of name) + 2 + length v)%nat.
Proof. unfold field. rewrite !length_app. cbn [length]. lia. Qed.

Lemma frame_fits max ev rest :
  event_fits max ev = true → fits max [] rest = true → fits max [] (frame_block ev ++ [] :: rest) = true.
Proof.
  unfold event_fits. intros Hev Hr. bool_to_prop. apply fits_block; [|cbn|done].
  - rewrite frame_block_eq. unfold opt_field. repeat apply Forall_app_2.
    + destruct (decide _); [constructor|]. apply Forall_singleton. split; [done|]. rewrite field_length. cbn. lia.
    + destruct (decide _); [constructor|]. apply Forall_singleton. split; [done|]. rewrite field_length. cbn. lia.
    + apply Forall_fmap, Forall_forall. intros l Hl%split_lf_length. split; [done|]. cbn [compose].
      rewrite field_length. cbn. lia.
  - unfold data_size. rewrite frame_data, split_lf_join, length_app. cbn. lia.
Qed.

Lemma frame_block_nonblank ev : Forall (λ l, l ≠ []) (frame_block ev).
Proof.
  rewrite frame_block_eq. unfold opt_field. repeat apply Forall_app_2.
  - destruct (decide _); [constructor|by apply Forall_singleton].
  - destruct (decide _); [constructor|by apply Forall_singleton].
  - apply Forall_fmap, Forall_true. done.
Qed.

(** Lines that are not blank, then a blank one. *)
Lemma ref_events_block id blk0 blk rest :
  Forall (λ l, l ≠ []) blk →
  ref_events id blk0 (blk ++ [] :: rest) =
  let '(evs, st) := ref_events (block_id id (blk0 ++ blk)) [] rest in (block_event id (blk0 ++ blk) ++ evs, st).
Proof.
  intros Hb. revert blk0. induction Hb as [|l blk Hl _ IH]; intros blk0; [by rewrite app_nil_r|].
  destruct l as [|b l]; [done|]. cbn [app ref_events]. by rewrite IH, <- app_assoc.
Qed.

(** ** Properties *)

(** C30. The byte-at-a-time parser computes the reference: on a stream whose lines
    and events are within the cap, however its lines are terminated (LF, CR or
    CRLF) and whatever fields it has, reading it to the end returns exactly
    the events of its blocks, in order, then io.EOF when nothing is left over
    and io.ErrUnexpectedEOF otherwise, and keeps the stream's last id. *)
Theorem sse_parser_equiv max r p0 r0 :
  newSSEParserWithCap r (Sentinel io_EOF) max = (p0, r0) → 0 ≤ max →
  fits max [] (stream_lines r0) = true → Z.of_nat (length (stream_tail r0)) ≤ max →
  let '(evs, (id, blk)) := ref_events "" [] (stream_lines r0) in
  ∃ p', read_stream p0 r0 = Some (evs, ref_end (stream_tail r0) blk, p') ∧ LastEventID p' = block_id id blk.
Proof.
  intros [= <- _] Hmax Hf Ht. apply (read_stream_ref "" []); [done|done|by split|done|done].
Qed.

Definition demo_stream : bytes :=
  bytes_of "id: 7" ++ [CR] ++ bytes_of "data:a" ++ [CR; LF] ++ bytes_of "data" ++ [LF; LF] ++
  bytes_of ": note" ++ [LF] ++ bytes_of "event: x".
Lemma sse_parser_equiv_witness :
  ∃ p', read_stream (mkSSEParser 16 (Sentinel io_EOF) [] "" "" 0 false) demo_stream =
    Some ([mkSSEEvent "7" "" (bytes_of "a" ++ [LF])], Sentinel io_ErrUnexpectedEOF, p') ∧ LastEventID p' = "7".
Proof.
  apply (sse_parser_equiv 16 demo_stream (mkSSEParser 16 (Sentinel io_EOF) [] "" "" 0 false) demo_stream);
    vm_compute; (reflexivity || discriminate).
Defined.

(** What a server writes: events and heartbeat comments. *)
Definition sseHeartbeat : bytes := bytes_of ": ping" ++ [LF; LF].
Definition wire (fs : list (option SSEEvent)) : bytes :=
  fs ≫= λ f, match f with Some ev => sse_frame ev | None => sseHeartbeat end.

(** What a client then receives: data with its line terminators made LF, and
    for an event without an id the last id before it. *)
Fixpoint received (id : string) (fs : list (option SSEEvent)) : list SSEEvent :=
  match fs with
  | [] => []
  | None :: rest => received id rest
  | Some ev :: rest =>
      let id' := if decide (ev_ID ev = "") then id else ev_ID ev in
      mkSSEEvent id' (ev_Name ev) (normalize (ev_Data ev)) :: received id' rest
  end.

Definition frame_ok (max : Z) (f : option SSEEvent) : bool :=
  match f with Some ev => event_valid ev && event_fits max ev | None => 6 <=? max end.

Lemma wire_lines max id fs :
  forallb (frame_ok max) fs = true →
  fits max [] (stream_lines (wire fs)) = true ∧ stream_tail (wire fs) = [] ∧
  ∃ id', ref_events id [] (stream_lines (wire fs)) = (received id fs, (id', [])).
Proof.
  revert id. induction fs as [|f fs IH]; intros id; [intros _; split; [done|]; split; [done|]; by exists id|].
  cbn [forallb]. intros [Hf Hfs]%andb_true_iff. unfold wire. rewrite bind_cons. fold (wire fs).
  destruct f as [ev|].
  - cbn [frame_ok] in Hf. apply andb_true_iff in Hf as [Hv Hfit]. rewrite sse_frame_lines.
    destruct (stream_run (frame_block ev ++ [[]]) (wire fs) (frame_block_clean ev Hv)) as [-> ->].
    rewrite <- app_assoc. cbn [app received].
    destruct (IH (if decide (ev_ID ev = "") then id else ev_ID ev) Hfs) as (H1 & H2 & id' & H3).
    split; [by apply frame_fits|]. split; [done|]. exists id'.
    rewrite ref_events_block by apply frame_block_nonblank.
    cbn [app]. rewrite frame_id, H3 by done. unfold block_event. rewrite frame_data, frame_name, frame_id by done.
    pose proof (split_lf_nonempty (normalize (ev_Data ev))).
    unfold joined. pose proof (split_lf_join (normalize (ev_Data ev))) as Hj.
    destruct (split_lf (normalize (ev_Data ev))) as [|d ds]; [done|]. rewrite Hj, removelast_last. done.
  - assert (sseHeartbeat ++ wire fs = ([bytes_of ": ping"; []] ≫= λ l, l ++ [LF]) ++ wire fs) as -> by done.
    destruct (stream_run [bytes_of ": ping"; []] (wire fs)) as [-> ->].
    { repeat constructor; by apply (bool_decide_unpack _). }
    destruct (IH id Hfs) as (H1 & H2 & id' & H3). cbn [app received].
    split; [|split; [done|]; exists id'].
    2:{ etrans; [apply (ref_events_block id [] [bytes_of ": ping"]); by repeat constructor|].
        change (block_id id ([] ++ [bytes_of ": ping"])) with id. by rewrite H3. }
    apply Z.leb_le in Hf. apply (fits_block max [] [bytes_of ": ping"]); [|change (0 ≤ max); lia|done].
    apply Forall_singleton. split; [done|]. cbn. lia.
Qed.

Lemma wire_no_bom fs : take 3 (wire fs) ≠ sseBOM.
Proof.
  destruct fs as [|[ev|] fs]; [done| |done]. unfold wire. rewrite bind_cons. cbv iota beta.
  unfold sse_frame, field_line. rewrite <- !app_assoc. destruct (decide (ev_ID ev = "")); [|done].
  destruct (decide (ev_Name ev = "")); [|done].
  pose proof (split_lf_nonempty (normalize (ev_Data ev))). by destruct (split_lf (normalize (ev_Data ev))).
Qed.

(** A client that reads what the frames put on the wire. *)
Lemma parse_wire max fs p0 r0 :
  forallb (frame_ok max) fs = true → 0 ≤ max →
  newSSEParserWithCap (wire fs) (Sentinel io_EOF) max = (p0, r0) →
  ∃ p', read_stream p0 r0 = Some (received "" fs, Sentinel io_EOF, p').
Proof.
  intros Hfs Hmax [= <- Hr]. rewrite decide_False in Hr by apply wire_no_bom. subst r0.
  destruct (wire_lines max "" fs Hfs) as (H1 & H2 & id' & H3).
  pose proof (read_stream_ref "" [] (mkSSEParser max (Sentinel io_EOF) [] "" "" 0 false) (wire fs)) as Hrs.
  cbn [p_max p_end] in Hrs. rewrite H2, H3 in Hrs. destruct Hrs as (p' & Hp & _); [done|done|by split|done|cbn; lia|].
  by exists p'.
Qed.

(** C31. Encoding and parsing is a round trip that nothing in a payload can break:
    any sequence of valid events under the cap, with heartbeats in between,
    is parsed back as exactly these events, each with its own name, its data
    with line terminators normalized, and its id or, without one, the last
    id before it; then comes a clean io.EOF. So no byte of a payload, an id
    or a name can forge a field or an event. *)
Theorem sse_roundtrip max fs p0 r0 :
  forallb (frame_ok max) fs = true → 0 ≤ max →
  newSSEParserWithCap (wire fs) (Sentinel io_EOF) max = (p0, r0) →
  ∃ p', read_stream p0 r0 = Some (received "" fs, Sentinel io_EOF, p').
Proof. apply parse_wire. Qed.

(** A payload that looks like fields, with every kind of line terminator. *)
Definition demo_frames : list (option SSEEvent) :=
  [Some (mkSSEEvent "1" "tick" (bytes_of "id: 9" ++ [CR; LF; CR] ++ bytes_of " x")); None;
   Some (mkSSEEvent "" "" [])].
Lemma sse_roundtrip_witness :
  ∃ p', read_stream (mkSSEParser 32 (Sentinel io_EOF) [] "" "" 0 false) (wire demo_frames) =
    Some ([mkSSEEvent "1" "tick" (bytes_of "id: 9" ++ [LF; LF] ++ bytes_of " x"); mkSSEEvent "1" "" []],
          Sentinel io_EOF, p').
Proof.
  apply (sse_roundtrip 32 demo_frames (mkSSEParser 32 (Sentinel io_EOF) [] "" "" 0 false) (wire demo_frames));
    vm_compute; (reflexivity || discriminate).
Defined.

(** An event over the cap is not skipped as a whole: when one of its lines trips
    the cap, Next reports ErrEventTooLarge and goes on with the event's next
    line, so that the rest of the same event is returned as an event of its
    own. *)
Theorem oversized_event_truncated :
  let p := mkSSEParser 12 (Sentinel io_EOF) [] "" "" 0 false in
  let r := sse_frame (mkSSEEvent "" "" (bytes_of "0123456789" ++ [LF] ++ bytes_of "end")) in
  let rest := bytes_of "data: end" ++ [LF; LF] in
  Next p r = Some (inl (Sentinel ErrEventTooLarge), p, rest) ∧
  Next p rest = Some (inr (mkSSEEvent "" "" (bytes_of "end")), p, []).
Proof. split; vm_compute; reflexivity. Qed.
