(* ===== verification/NetHttp.v ===== *)
(** * net/http as the HTTP adapter uses it

    Header maps with canonical names, requests, responses and clients, and the
    response writer a handler is given: which status reaches the client when a
    handler writes none, one or several, or an invalid one. *)

From Stdlib Require Import Ascii.
From S2P Require Import Prelude Message SSE.

Local Open Scope Z_scope.

(** ** Headers *)

(** [http.Header]: canonical names to values. *)
Abbreviation HttpHeader := (gmap string (list string)).

Definition code (b : ascii) : Z := Z.of_nat (nat_of_ascii b).
Definition is_lower (b : ascii) : bool := (97 <=? code b) && (code b <=? 122).
Definition is_upper (b : ascii) : bool := (65 <=? code b) && (code b <=? 90).
Definition to_upper (b : ascii) : ascii := if is_lower b then ascii_of_nat (nat_of_ascii b - 32) else b.
Definition to_lower (b : ascii) : ascii := if is_upper b then ascii_of_nat (nat_of_ascii b + 32) else b.

(** The bytes of an RFC 7230 token. *)
Definition validHeaderFieldByte (b : ascii) : bool :=
  is_lower b || is_upper b || is_digit b ||
  bool_decide (b ∈ bytes_of "!#$%&'*+-.^_`|~").

(** The loop of [textproto.canonicalMIMEHeaderKey]. *)
Fixpoint canonical_from (upper : bool) (s : bytes) : bytes :=
  match s with
  | [] => []
  | b :: rest =>
      let c := if upper then to_upper b else to_lower b in
      c :: canonical_from (bool_decide (c = "-"%char)) rest
  end.
Definition CanonicalHeaderKey (s : string) : string :=
  if forallb validHeaderFieldByte (bytes_of s) then string_of (canonical_from true (bytes_of s)) else s.

(** [h.Get(name)]: the first value, "" without one. *)
Definition header_Get (h : HttpHeader) (name : string) : string :=
  match h !! CanonicalHeaderKey name with Some (v :: _) => v | _ => "" end.
Definition header_Set (name value : string) (h : HttpHeader) : HttpHeader :=
  <[CanonicalHeaderKey name := [value]]> h.
Definition header_Add (name value : string) (h : HttpHeader) : HttpHeader :=
  <[CanonicalHeaderKey name := default [] (h !! CanonicalHeaderKey name) ++ [value]]> h.

(** ** Requests, responses and clients *)

(** A body as the bytes it yields and the error after them. *)
Record Request : Type := mkRequest {
  r_Method : string;
  r_Path : string;
  r_RawQuery : string;
  r_RemoteAddr : string;
  r_Header : HttpHeader;
  r_Body : option (bytes * error)
}.

Inductive redirect : Type := ErrUseLastResponse | CallerRedirect (n : nat).
Record Client : Type := mkClient { cl_Timeout : Z; cl_CheckRedirect : option redirect }.

Record Response : Type := mkResponse {
  resp_StatusCode : Z;
  resp_Header : HttpHeader;
  resp_Body : option (bytes * error)
}.

(** ** http.ResponseWriter

    The status line is written once; informational statuses go out before it and
    do not count.  The connection takes [n] more bytes of the body when it is
    [Some (n, err)], and then fails with [err]. *)
Record ResponseWriter : Type := mkRW {
  rw_header : HttpHeader;
  rw_info : list Z;
  rw_status : option Z;
  rw_sent : HttpHeader;
  rw_body : bytes;
  rw_conn : option (nat * error)
}.

Definition set_header (f : HttpHeader → HttpHeader) (w : ResponseWriter) : ResponseWriter :=
  mkRW (f (rw_header w)) (rw_info w) (rw_status w) (rw_sent w) (rw_body w) (rw_conn w).

Definition ErrBodyNotAllowed : sentinel := OtherSentinel "http.ErrBodyNotAllowed".
Definition body_allowed (code : Z) : bool :=
  negb ((100 <=? code) && (code <=? 199)) && negb (code =? 204) && negb (code =? 304).

(** [response.WriteHeader]: a second call is dropped with a log line, a code
    outside [100, 999] panics. *)
Definition rw_WriteHeader (code : Z) : M ResponseWriter unit := λ w,
  match rw_status w with
  | Some _ => (Ret tt, w)
  | None =>
      if (code <? 100) || (999 <? code) then (Panic "invalid WriteHeader code", w)
      else if (code <=? 199) && negb (code =? 101)
      then (Ret tt, mkRW (rw_header w) (rw_info w ++ [code]) None (rw_sent w) (rw_body w) (rw_conn w))
      else (Ret tt, mkRW (rw_header w) (rw_info w) (Some code) (rw_header w) (rw_body w) (rw_conn w))
  end.

Definition conn_write (b : bytes) (w : ResponseWriter) : option error * ResponseWriter :=
  match rw_conn w with
  | Some (n, err) =>
      if (length b <=? n)%nat
      then (None, mkRW (rw_header w) (rw_info w) (rw_status w) (rw_sent w) (rw_body w ++ b) (Some (n - length b, err)%nat))
      else (Some err, mkRW (rw_header w) (rw_info w) (rw_status w) (rw_sent w) (rw_body w ++ take n b) (Some (0%nat, err)))
  | None => (None, mkRW (rw_header w) (rw_info w) (rw_status w) (rw_sent w) (rw_body w ++ b) None)
  end.

(** [response.Write]: the first write sends a 200. *)
Definition rw_Write (b : bytes) : M ResponseWriter (option error) :=
  _ ← rw_WriteHeader 200;
  w ← get;
  if body_allowed (default 200 (rw_status w))
  then let '(e, w') := conn_write b w in _ ← put w'; mret e
  else mret (Some (Sentinel ErrBodyNotAllowed)).

(** What net/http does after the handler returned. *)
Definition finishRequest : M ResponseWriter unit := rw_WriteHeader 200.
Definition run_finish (w : ResponseWriter) : ResponseWriter := (finishRequest w).2.

(** [http.Error]. *)
Definition http_Error (text : string) (code : Z) : M ResponseWriter unit :=
  _ ← modify (set_header (λ h, header_Set "X-Content-Type-Options" "nosniff"
        (header_Set "Content-Type" "text/plain; charset=utf-8" (delete "Content-Length" h))));
  _ ← rw_WriteHeader code;
  _ ← rw_Write (bytes_of text ++ [LF]);
  mret tt.

(** A writer no handler has touched. *)
Definition fresh_rw (w : ResponseWriter) : Prop :=
  rw_info w = [] ∧ rw_status w = None ∧ rw_body w = [].
