(* ===== verification/HttpConfig.v ===== *)
(** * Configuration of the HTTP adapter

    [adapter/http/options.go], the error sentinels of [adapter/http/errors.go] and
    [DefaultErrorStatus] of [adapter/http/encode.go].

    Callbacks a caller configures may panic, and so return an [outcome].  The
    logger has no effect, and the clocks are read from the environment; both are
    left out of [Config]. *)

From Stdlib Require Import Ascii.
From S2P Require Import Prelude Message SSE NetHttp.

Local Open Scope Z_scope.

(** ** Errors *)

Definition ErrInvalidMaxBodyBytes : sentinel := OtherSentinel "msghttp.ErrInvalidMaxBodyBytes".
Definition ErrInvalidStatusCode : sentinel := OtherSentinel "msghttp.ErrInvalidStatusCode".
Definition ErrDecodeRequest : sentinel := OtherSentinel "msghttp.ErrDecodeRequest".
Definition ErrWriteResponse : sentinel := OtherSentinel "msghttp.ErrWriteResponse".
Definition ErrInvalidMaxResponseBytes : sentinel := OtherSentinel "msghttp.ErrInvalidMaxResponseBytes".
Definition ErrInvalidMaxEventBytes : sentinel := OtherSentinel "msghttp.ErrInvalidMaxEventBytes".
Definition ErrInvalidMaxConnections : sentinel := OtherSentinel "msghttp.ErrInvalidMaxConnections".
Definition ErrInvalidConnectionBuffer : sentinel := OtherSentinel "msghttp.ErrInvalidConnectionBuffer".
Definition ErrInvalidSlowClientPolicy : sentinel := OtherSentinel "msghttp.ErrInvalidSlowClientPolicy".
Definition ErrInvalidReplayBuffer : sentinel := OtherSentinel "msghttp.ErrInvalidReplayBuffer".
Definition ErrInvalidHeartbeat : sentinel := OtherSentinel "msghttp.ErrInvalidHeartbeat".
Definition ErrInvalidWriteTimeout : sentinel := OtherSentinel "msghttp.ErrInvalidWriteTimeout".
Definition ErrInvalidReconnectBackoff : sentinel := OtherSentinel "msghttp.ErrInvalidReconnectBackoff".
Definition ErrInvalidReadTimeout : sentinel := OtherSentinel "msghttp.ErrInvalidReadTimeout".

(** A [*http.MaxBytesError] in an error tree; [errors.As] finds it as
    [errors.Is] finds a sentinel. *)
Definition MaxBytesError : sentinel := OtherSentinel "http.MaxBytesError".

Definition DefaultErrorStatus (err : error) : Z :=
  if Is err ErrReplyTimeout then 504
  else if Is err ErrGatewayClosed then 503
  else if Is err ErrDuplicateCorrelation then 409
  else if Is err ErrNoCorrelation || Is err ErrUnsupportedPayload || Is err ErrWriteResponse then 500
  else if Is err MaxBytesError then 413
  else if Is err ErrDecodeRequest then 400
  else 500.

(** ** Config *)

Definition defaultMaxBodyBytes : Z := Z.shiftl 1 20.
Definition defaultMaxResponseBytes : Z := Z.shiftl 1 20.
Definition defaultMaxEventBytes : Z := Z.shiftl 1 20.
Definition byteCapCeiling : Z := 2 ^ 31 - 1.
Definition defaultMaxConnections : Z := 1024.
Definition maxConnectionsCeiling : Z := Z.shiftl 1 16.
Definition defaultConnectionBuffer : Z := 16.
Definition maxConnBufferCeiling : Z := Z.shiftl 1 16.
Definition replayBufferCeiling : Z := Z.shiftl 1 16.
Definition defaultWriteTimeout : Z := 30 * second.
Definition defaultHTTPClientTimeout : Z := 30 * second.
Definition defaultReconnectMin : Z := 500 * millisecond.
Definition defaultReconnectMax : Z := 30 * second.

Inductive SlowClientPolicy : Type := SlowClientDrop | SlowClientDisconnect | SlowClientOther (n : Z).

#[export] Instance SlowClientPolicy_eq_dec : EqDecision SlowClientPolicy.
Proof. solve_decision. Defined.

(** A field with its [...Set] flag. *)
Record setting (V : Type) : Type := mkSetting { st_val : V; st_set : bool }.
Arguments mkSetting {V} _ _.
Arguments st_val {V} _.
Arguments st_set {V} _.

Record Config : Type := mkConfig {
  ht_maxBodyBytes : setting Z;
  ht_successStatus : setting Z;
  ht_correlationID : option (Request → outcome string);
  ht_trustedCorrelation : option (Request → outcome string);
  ht_requestHeaders : list string;
  ht_responseHeaders : list string;
  ht_errorStatus : option (error → outcome Z);
  ht_httpClient : option Client;
  ht_followRedirects : bool;
  ht_outboundHeaders : list string;
  ht_replyHeaders : list string;
  ht_maxResponseBytes : setting Z;
  ht_errorBodyExcerpt : bool;
  ht_eventName : setting string;
  ht_maxEventBytes : setting Z;
  ht_maxConnections : setting Z;
  ht_connectionBuffer : setting Z;
  ht_slowClientPolicy : setting SlowClientPolicy;
  ht_replayBuffer : setting Z;
  ht_heartbeat : setting Z;
  ht_writeTimeout : setting Z;
  ht_httpClientSet : bool;
  ht_connectHeaders : option HttpHeader;
  ht_reconnect : setting (Z * Z);
  ht_readTimeout : setting Z
}.

Definition set_maxBodyBytes (v : setting Z) (c : Config) : Config :=
  mkConfig v (ht_successStatus c) (ht_correlationID c) (ht_trustedCorrelation c)
    (ht_requestHeaders c) (ht_responseHeaders c) (ht_errorStatus c) (ht_httpClient c)
    (ht_followRedirects c) (ht_outboundHeaders c) (ht_replyHeaders c) (ht_maxResponseBytes c)
    (ht_errorBodyExcerpt c) (ht_eventName c) (ht_maxEventBytes c) (ht_maxConnections c)
    (ht_connectionBuffer c) (ht_slowClientPolicy c) (ht_replayBuffer c) (ht_heartbeat c)
    (ht_writeTimeout c) (ht_httpClientSet c) (ht_connectHeaders c) (ht_reconnect c)
    (ht_readTimeout c).
Definition set_successStatus (v : setting Z) (c : Config) : Config :=
  mkConfig (ht_maxBodyBytes c) v (ht_correlationID c) (ht_trustedCorrelation c) (ht_requestHeaders
    c) (ht_responseHeaders c) (ht_errorStatus c) (ht_httpClient c) (ht_followRedirects c)
    (ht_outboundHeaders c) (ht_replyHeaders c) (ht_maxResponseBytes c) (ht_errorBodyExcerpt c)
    (ht_eventName c) (ht_maxEventBytes c) (ht_maxConnections c) (ht_connectionBuffer c)
    (ht_slowClientPolicy c) (ht_replayBuffer c) (ht_heartbeat c) (ht_writeTimeout c)
    (ht_httpClientSet c) (ht_connectHeaders c) (ht_reconnect c) (ht_readTimeout c).
Definition set_correlationID (v : option (Request → outcome string)) (c : Config) : Config :=
  mkConfig (ht_maxBodyBytes c) (ht_successStatus c) v (ht_trustedCorrelation c) (ht_requestHeaders
    c) (ht_responseHeaders c) (ht_errorStatus c) (ht_httpClient c) (ht_followRedirects c)
    (ht_outboundHeaders c) (ht_replyHeaders c) (ht_maxResponseBytes c) (ht_errorBodyExcerpt c)
    (ht_eventName c) (ht_maxEventBytes c) (ht_maxConnections c) (ht_connectionBuffer c)
    (ht_slowClientPolicy c) (ht_replayBuffer c) (ht_heartbeat c) (ht_writeTimeout c)
    (ht_httpClientSet c) (ht_connectHeaders c) (ht_reconnect c) (ht_readTimeout c).
Definition set_trustedCorrelation (v : option (Request → outcome string)) (c : Config) : Config :=
  mkConfig (ht_maxBodyBytes c) (ht_successStatus c) (ht_correlationID c) v (ht_requestHeaders c)
    (ht_responseHeaders c) (ht_errorStatus c) (ht_httpClient c) (ht_followRedirects c)
    (ht_outboundHeaders c) (ht_replyHeaders c) (ht_maxResponseBytes c) (ht_errorBodyExcerpt c)
    (ht_eventName c) (ht_maxEventBytes c) (ht_maxConnections c) (ht_connectionBuffer c)
    (ht_slowClientPolicy c) (ht_replayBuffer c) (ht_heartbeat c) (ht_writeTimeout c)
    (ht_httpClientSet c) (ht_connectHeaders c) (ht_reconnect c) (ht_readTimeout c).
Definition set_requestHeaders (v : list string) (c : Config) : Config :=
  mkConfig (ht_maxBodyBytes c) (ht_successStatus c) (ht_correlationID c) (ht_trustedCorrelation c)
    v (ht_responseHeaders c) (ht_errorStatus c) (ht_httpClient c) (ht_followRedirects c)
    (ht_outboundHeaders c) (ht_replyHeaders c) (ht_maxResponseBytes c) (ht_errorBodyExcerpt c)
    (ht_eventName c) (ht_maxEventBytes c) (ht_maxConnections c) (ht_connectionBuffer c)
    (ht_slowClientPolicy c) (ht_replayBuffer c) (ht_heartbeat c) (ht_writeTimeout c)
    (ht_httpClientSet c) (ht_connectHeaders c) (ht_reconnect c) (ht_readTimeout c).
Definition set_responseHeaders (v : list string) (c : Config) : Config :=
  mkConfig (ht_maxBodyBytes c) (ht_successStatus c) (ht_correlationID c) (ht_trustedCorrelation c)
    (ht_requestHeaders c) v (ht_errorStatus c) (ht_httpClient c) (ht_followRedirects c)
    (ht_outboundHeaders c) (ht_replyHeaders c) (ht_maxResponseBytes c) (ht_errorBodyExcerpt c)
    (ht_eventName c) (ht_maxEventBytes c) (ht_maxConnections c) (ht_connectionBuffer c)
    (ht_slowClientPolicy c) (ht_replayBuffer c) (ht_heartbeat c) (ht_writeTimeout c)
    (ht_httpClientSet c) (ht_connectHeaders c) (ht_reconnect c) (ht_readTimeout c).
Definition set_errorStatus (v : option (error → outcome Z)) (c : Config) : Config :=
  mkConfig (ht_maxBodyBytes c) (ht_successStatus c) (ht_correlationID c) (ht_trustedCorrelation c)
    (ht_requestHeaders c) (ht_responseHeaders c) v (ht_httpClient c) (ht_followRedirects c)
    (ht_outboundHeaders c) (ht_replyHeaders c) (ht_maxResponseBytes c) (ht_errorBodyExcerpt c)
    (ht_eventName c) (ht_maxEventBytes c) (ht_maxConnections c) (ht_connectionBuffer c)
    (ht_slowClientPolicy c) (ht_replayBuffer c) (ht_heartbeat c) (ht_writeTimeout c)
    (ht_httpClientSet c) (ht_connectHeaders c) (ht_reconnect c) (ht_readTimeout c).
Definition set_httpClient (v : option Client) (c : Config) : Config :=
  mkConfig (ht_maxBodyBytes c) (ht_successStatus c) (ht_correlationID c) (ht_trustedCorrelation c)
    (ht_requestHeaders c) (ht_responseHeaders c) (ht_errorStatus c) v (ht_followRedirects c)
    (ht_outboundHeaders c) (ht_replyHeaders c) (ht_maxResponseBytes c) (ht_errorBodyExcerpt c)
    (ht_eventName c) (ht_maxEventBytes c) (ht_maxConnections c) (ht_connectionBuffer c)
    (ht_slowClientPolicy c) (ht_replayBuffer c) (ht_heartbeat c) (ht_writeTimeout c)
    (ht_httpClientSet c) (ht_connectHeaders c) (ht_reconnect c) (ht_readTimeout c).
Definition set_followRedirects (v : bool) (c : Config) : Config :=
  mkConfig (ht_maxBodyBytes c) (ht_successStatus c) (ht_correlationID c) (ht_trustedCorrelation c)
    (ht_requestHeaders c) (ht_responseHeaders c) (ht_errorStatus c) (ht_httpClient c) v
    (ht_outboundHeaders c) (ht_replyHeaders c) (ht_maxResponseBytes c) (ht_errorBodyExcerpt c)
    (ht_eventName c) (ht_maxEventBytes c) (ht_maxConnections c) (ht_connectionBuffer c)
    (ht_slowClientPolicy c) (ht_replayBuffer c) (ht_heartbeat c) (ht_writeTimeout c)
    (ht_httpClientSet c) (ht_connectHeaders c) (ht_reconnect c) (ht_readTimeout c).
Definition set_outboundHeaders (v : list string) (c : Config) : Config :=
  mkConfig (ht_maxBodyBytes c) (ht_successStatus c) (ht_correlationID c) (ht_trustedCorrelation c)
    (ht_requestHeaders c) (ht_responseHeaders c) (ht_errorStatus c) (ht_httpClient c)
    (ht_followRedirects c) v (ht_replyHeaders c) (ht_maxResponseBytes c) (ht_errorBodyExcerpt c)
    (ht_eventName c) (ht_maxEventBytes c) (ht_maxConnections c) (ht_connectionBuffer c)
    (ht_slowClientPolicy c) (ht_replayBuffer c) (ht_heartbeat c) (ht_writeTimeout c)
    (ht_httpClientSet c) (ht_connectHeaders c) (ht_reconnect c) (ht_readTimeout c).
Definition set_replyHeaders (v : list string) (c : Config) : Config :=
  mkConfig (ht_maxBodyBytes c) (ht_successStatus c) (ht_correlationID c) (ht_trustedCorrelation c)
    (ht_requestHeaders c) (ht_responseHeaders c) (ht_errorStatus c) (ht_httpClient c)
    (ht_followRedirects c) (ht_outboundHeaders c) v (ht_maxResponseBytes c) (ht_errorBodyExcerpt
    c) (ht_eventName c) (ht_maxEventBytes c) (ht_maxConnections c) (ht_connectionBuffer c)
    (ht_slowClientPolicy c) (ht_replayBuffer c) (ht_heartbeat c) (ht_writeTimeout c)
    (ht_httpClientSet c) (ht_connectHeaders c) (ht_reconnect c) (ht_readTimeout c).
Definition set_maxResponseBytes (v : setting Z) (c : Config) : Config :=
  mkConfig (ht_maxBodyBytes c) (ht_successStatus c) (ht_correlationID c) (ht_trustedCorrelation c)
    (ht_requestHeaders c) (ht_responseHeaders c) (ht_errorStatus c) (ht_httpClient c)
    (ht_followRedirects c) (ht_outboundHeaders c) (ht_replyHeaders c) v (ht_errorBodyExcerpt c)
    (ht_eventName c) (ht_maxEventBytes c) (ht_maxConnections c) (ht_connectionBuffer c)
    (ht_slowClientPolicy c) (ht_replayBuffer c) (ht_heartbeat c) (ht_writeTimeout c)
    (ht_httpClientSet c) (ht_connectHeaders c) (ht_reconnect c) (ht_readTimeout c).
Definition set_errorBodyExcerpt (v : bool) (c : Config) : Config :=
  mkConfig (ht_maxBodyBytes c) (ht_successStatus c) (ht_correlationID c) (ht_trustedCorrelation c)
    (ht_requestHeaders c) (ht_responseHeaders c) (ht_errorStatus c) (ht_httpClient c)
    (ht_followRedirects c) (ht_outboundHeaders c) (ht_replyHeaders c) (ht_maxResponseBytes c) v
    (ht_eventName c) (ht_maxEventBytes c) (ht_maxConnections c) (ht_connectionBuffer c)
    (ht_slowClientPolicy c) (ht_replayBuffer c) (ht_heartbeat c) (ht_writeTimeout c)
    (ht_httpClientSet c) (ht_connectHeaders c) (ht_reconnect c) (ht_readTimeout c).
Definition set_eventName (v : setting string) (c : Config) : Config :=
  mkConfig (ht_maxBodyBytes c) (ht_successStatus c) (ht_correlationID c) (ht_trustedCorrelation c)
    (ht_requestHeaders c) (ht_responseHeaders c) (ht_errorStatus c) (ht_httpClient c)
    (ht_followRedirects c) (ht_outboundHeaders c) (ht_replyHeaders c) (ht_maxResponseBytes c)
    (ht_errorBodyExcerpt c) v (ht_maxEventBytes c) (ht_maxConnections c) (ht_connectionBuffer c)
    (ht_slowClientPolicy c) (ht_replayBuffer c) (ht_heartbeat c) (ht_writeTimeout c)
    (ht_httpClientSet c) (ht_connectHeaders c) (ht_reconnect c) (ht_readTimeout c).
Definition set_maxEventBytes (v : setting Z) (c : Config) : Config :=
  mkConfig (ht_maxBodyBytes c) (ht_successStatus c) (ht_correlationID c) (ht_trustedCorrelation c)
    (ht_requestHeaders c) (ht_responseHeaders c) (ht_errorStatus c) (ht_httpClient c)
    (ht_followRedirects c) (ht_outboundHeaders c) (ht_replyHeaders c) (ht_maxResponseBytes c)
    (ht_errorBodyExcerpt c) (ht_eventName c) v (ht_maxConnections c) (ht_connectionBuffer c)
    (ht_slowClientPolicy c) (ht_replayBuffer c) (ht_heartbeat c) (ht_writeTimeout c)
    (ht_httpClientSet c) (ht_connectHeaders c) (ht_reconnect c) (ht_readTimeout c).
Definition set_maxConnections (v : setting Z) (c : Config) : Config :=
  mkConfig (ht_maxBodyBytes c) (ht_successStatus c) (ht_correlationID c) (ht_trustedCorrelation c)
    (ht_requestHeaders c) (ht_responseHeaders c) (ht_errorStatus c) (ht_httpClient c)
    (ht_followRedirects c) (ht_outboundHeaders c) (ht_replyHeaders c) (ht_maxResponseBytes c)
    (ht_errorBodyExcerpt c) (ht_eventName c) (ht_maxEventBytes c) v (ht_connectionBuffer c)
    (ht_slowClientPolicy c) (ht_replayBuffer c) (ht_heartbeat c) (ht_writeTimeout c)
    (ht_httpClientSet c) (ht_connectHeaders c) (ht_reconnect c) (ht_readTimeout c).
Definition set_connectionBuffer (v : setting Z) (c : Config) : Config :=
  mkConfig (ht_maxBodyBytes c) (ht_successStatus c) (ht_correlationID c) (ht_trustedCorrelation c)
    (ht_requestHeaders c) (ht_responseHeaders c) (ht_errorStatus c) (ht_httpClient c)
    (ht_followRedirects c) (ht_outboundHeaders c) (ht_replyHeaders c) (ht_maxResponseBytes c)
    (ht_errorBodyExcerpt c) (ht_eventName c) (ht_maxEventBytes c) (ht_maxConnections c) v
    (ht_slowClientPolicy c) (ht_replayBuffer c) (ht_heartbeat c) (ht_writeTimeout c)
    (ht_httpClientSet c) (ht_connectHeaders c) (ht_reconnect c) (ht_readTimeout c).
Definition set_slowClientPolicy (v : setting SlowClientPolicy) (c : Config) : Config :=
  mkConfig (ht_maxBodyBytes c) (ht_successStatus c) (ht_correlationID c) (ht_trustedCorrelation c)
    (ht_requestHeaders c) (ht_responseHeaders c) (ht_errorStatus c) (ht_httpClient c)
    (ht_followRedirects c) (ht_outboundHeaders c) (ht_replyHeaders c) (ht_maxResponseBytes c)
    (ht_errorBodyExcerpt c) (ht_eventName c) (ht_maxEventBytes c) (ht_maxConnections c)
    (ht_connectionBuffer c) v (ht_replayBuffer c) (ht_heartbeat c) (ht_writeTimeout c)
    (ht_httpClientSet c) (ht_connectHeaders c) (ht_reconnect c) (ht_readTimeout c).
Definition set_replayBuffer (v : setting Z) (c : Config) : Config :=
  mkConfig (ht_maxBodyBytes c) (ht_successStatus c) (ht_correlationID c) (ht_trustedCorrelation c)
    (ht_requestHeaders c) (ht_responseHeaders c) (ht_errorStatus c) (ht_httpClient c)
    (ht_followRedirects c) (ht_outboundHeaders c) (ht_replyHeaders c) (ht_maxResponseBytes c)
    (ht_errorBodyExcerpt c) (ht_eventName c) (ht_maxEventBytes c) (ht_maxConnections c)
    (ht_connectionBuffer c) (ht_slowClientPolicy c) v (ht_heartbeat c) (ht_writeTimeout c)
    (ht_httpClientSet c) (ht_connectHeaders c) (ht_reconnect c) (ht_readTimeout c).
Definition set_heartbeat (v : setting Z) (c : Config) : Config :=
  mkConfig (ht_maxBodyBytes c) (ht_successStatus c) (ht_correlationID c) (ht_trustedCorrelation c)
    (ht_requestHeaders c) (ht_responseHeaders c) (ht_errorStatus c) (ht_httpClient c)
    (ht_followRedirects c) (ht_outboundHeaders c) (ht_replyHeaders c) (ht_maxResponseBytes c)
    (ht_errorBodyExcerpt c) (ht_eventName c) (ht_maxEventBytes c) (ht_maxConnections c)
    (ht_connectionBuffer c) (ht_slowClientPolicy c) (ht_replayBuffer c) v (ht_writeTimeout c)
    (ht_httpClientSet c) (ht_connectHeaders c) (ht_reconnect c) (ht_readTimeout c).
Definition set_writeTimeout (v : setting Z) (c : Config) : Config :=
  mkConfig (ht_maxBodyBytes c) (ht_successStatus c) (ht_correlationID c) (ht_trustedCorrelation c)
    (ht_requestHeaders c) (ht_responseHeaders c) (ht_errorStatus c) (ht_httpClient c)
    (ht_followRedirects c) (ht_outboundHeaders c) (ht_replyHeaders c) (ht_maxResponseBytes c)
    (ht_errorBodyExcerpt c) (ht_eventName c) (ht_maxEventBytes c) (ht_maxConnections c)
    (ht_connectionBuffer c) (ht_slowClientPolicy c) (ht_replayBuffer c) (ht_heartbeat c) v
    (ht_httpClientSet c) (ht_connectHeaders c) (ht_reconnect c) (ht_readTimeout c).
Definition set_httpClientSet (v : bool) (c : Config) : Config :=
  mkConfig (ht_maxBodyBytes c) (ht_successStatus c) (ht_correlationID c) (ht_trustedCorrelation c)
    (ht_requestHeaders c) (ht_responseHeaders c) (ht_errorStatus c) (ht_httpClient c)
    (ht_followRedirects c) (ht_outboundHeaders c) (ht_replyHeaders c) (ht_maxResponseBytes c)
    (ht_errorBodyExcerpt c) (ht_eventName c) (ht_maxEventBytes c) (ht_maxConnections c)
    (ht_connectionBuffer c) (ht_slowClientPolicy c) (ht_replayBuffer c) (ht_heartbeat c)
    (ht_writeTimeout c) v (ht_connectHeaders c) (ht_reconnect c) (ht_readTimeout c).
Definition set_connectHeaders (v : option HttpHeader) (c : Config) : Config :=
  mkConfig (ht_maxBodyBytes c) (ht_successStatus c) (ht_correlationID c) (ht_trustedCorrelation c)
    (ht_requestHeaders c) (ht_responseHeaders c) (ht_errorStatus c) (ht_httpClient c)
    (ht_followRedirects c) (ht_outboundHeaders c) (ht_replyHeaders c) (ht_maxResponseBytes c)
    (ht_errorBodyExcerpt c) (ht_eventName c) (ht_maxEventBytes c) (ht_maxConnections c)
    (ht_connectionBuffer c) (ht_slowClientPolicy c) (ht_replayBuffer c) (ht_heartbeat c)
    (ht_writeTimeout c) (ht_httpClientSet c) v (ht_reconnect c) (ht_readTimeout c).
Definition set_reconnect (v : setting (Z * Z)) (c : Config) : Config :=
  mkConfig (ht_maxBodyBytes c) (ht_successStatus c) (ht_correlationID c) (ht_trustedCorrelation c)
    (ht_requestHeaders c) (ht_responseHeaders c) (ht_errorStatus c) (ht_httpClient c)
    (ht_followRedirects c) (ht_outboundHeaders c) (ht_replyHeaders c) (ht_maxResponseBytes c)
    (ht_errorBodyExcerpt c) (ht_eventName c) (ht_maxEventBytes c) (ht_maxConnections c)
    (ht_connectionBuffer c) (ht_slowClientPolicy c) (ht_replayBuffer c) (ht_heartbeat c)
    (ht_writeTimeout c) (ht_httpClientSet c) (ht_connectHeaders c) v (ht_readTimeout c).
Definition set_readTimeout (v : setting Z) (c : Config) : Config :=
  mkConfig (ht_maxBodyBytes c) (ht_successStatus c) (ht_correlationID c) (ht_trustedCorrelation c)
    (ht_requestHeaders c) (ht_responseHeaders c) (ht_errorStatus c) (ht_httpClient c)
    (ht_followRedirects c) (ht_outboundHeaders c) (ht_replyHeaders c) (ht_maxResponseBytes c)
    (ht_errorBodyExcerpt c) (ht_eventName c) (ht_maxEventBytes c) (ht_maxConnections c)
    (ht_connectionBuffer c) (ht_slowClientPolicy c) (ht_replayBuffer c) (ht_heartbeat c)
    (ht_writeTimeout c) (ht_httpClientSet c) (ht_connectHeaders c) (ht_reconnect c) v.

Definition zeroConfig : Config :=
  mkConfig (mkSetting 0 false) (mkSetting 0 false) None None [] [] None None false [] []
    (mkSetting 0 false) false (mkSetting "" false) (mkSetting 0 false) (mkSetting 0 false)
    (mkSetting 0 false) (mkSetting SlowClientDrop false) (mkSetting 0 false) (mkSetting 0 false)
    (mkSetting 0 false) false None (mkSetting (0, 0) false) (mkSetting 0 false).

(** *** Options *)

Definition WithMaxBodyBytes (n : Z) : Config → Config := set_maxBodyBytes (mkSetting n true).
Definition WithAdvisoryCorrelationID (f : option (Request → outcome string)) (c : Config) : Config :=
  match f with Some _ => set_correlationID f c | None => c end.
Definition WithTrustedCorrelationID (f : option (Request → outcome string)) (c : Config) : Config :=
  match f with Some _ => set_trustedCorrelation f c | None => c end.
Definition WithRequestHeaders (headers : list string) : Config → Config := set_requestHeaders headers.
Definition WithResponseHeaders (headers : list string) : Config → Config := set_responseHeaders headers.
Definition WithSuccessStatus (code : Z) : Config → Config := set_successStatus (mkSetting code true).
Definition WithErrorStatus (f : option (error → outcome Z)) (c : Config) : Config :=
  match f with Some _ => set_errorStatus f c | None => c end.
Definition WithHTTPClient (cl : option Client) (c : Config) : Config :=
  match cl with Some _ => set_httpClientSet true (set_httpClient cl c) | None => c end.
Definition WithFollowRedirects : Config → Config := set_followRedirects true.
Definition WithOutboundHeaders (names : list string) : Config → Config := set_outboundHeaders names.
Definition WithOutboundReplyHeaders (names : list string) : Config → Config := set_replyHeaders names.
Definition WithMaxResponseBytes (n : Z) : Config → Config := set_maxResponseBytes (mkSetting n true).
Definition WithErrorBodyExcerpt : Config → Config := set_errorBodyExcerpt true.
Definition WithEventName (name : string) : Config → Config := set_eventName (mkSetting name true).
Definition WithMaxEventBytes (n : Z) : Config → Config := set_maxEventBytes (mkSetting n true).
Definition WithMaxConnections (n : Z) : Config → Config := set_maxConnections (mkSetting n true).
Definition WithConnectionBuffer (n : Z) : Config → Config := set_connectionBuffer (mkSetting n true).
Definition WithSlowClientPolicy (p : SlowClientPolicy) : Config → Config := set_slowClientPolicy (mkSetting p true).
Definition WithReplayBuffer (n : Z) : Config → Config := set_replayBuffer (mkSetting n true).
Definition WithHeartbeat (d : Z) : Config → Config := set_heartbeat (mkSetting d true).
Definition WithWriteTimeout (d : Z) : Config → Config := set_writeTimeout (mkSetting d true).
Definition WithReconnectBackoff (min max : Z) : Config → Config := set_reconnect (mkSetting (min, max) true).
Definition WithReadTimeout (d : Z) : Config → Config := set_readTimeout (mkSetting d true).

Definition reservedConnectHeaderNames : list string := ["Accept"; "Cache-Control"; "Last-Event-ID"].

(** [EqualFold] is strings.EqualFold, Unicode's simple case folding. *)
Definition WithConnectHeaders (EqualFold : string → string → bool) (h : option HttpHeader) (c : Config)
    : Config :=
  match h with
  | None => c
  | Some h =>
      set_connectHeaders
        (Some (filter (λ p, ¬ existsb (EqualFold p.1) reservedConnectHeaderNames) h)) c
  end.

(** An option of the package: only its constructors can set the unexported
    fields. *)
Inductive Option : Type :=
  | OMaxBodyBytes (n : Z) | OAdvisoryCorrelationID (f : option (Request → outcome string))
  | OTrustedCorrelationID (f : option (Request → outcome string))
  | ORequestHeaders (hs : list string) | OResponseHeaders (hs : list string)
  | OSuccessStatus (n : Z) | OErrorStatus (f : option (error → outcome Z)) | OLogger
  | OHTTPClient (c : option Client) | OFollowRedirects | OOutboundHeaders (hs : list string)
  | OOutboundReplyHeaders (hs : list string) | OMaxResponseBytes (n : Z) | OOutboundClock
  | OErrorBodyExcerpt | OEventName (s : string) | OMaxEventBytes (n : Z) | OMaxConnections (n : Z)
  | OConnectionBuffer (n : Z) | OSlowClientPolicy (p : SlowClientPolicy) | OReplayBuffer (n : Z)
  | OHeartbeat (d : Z) | OWriteTimeout (d : Z) | OSSEClock
  | OConnectHeaders (fold : string → string → bool) (h : option HttpHeader)
  | OReconnectBackoff (min max : Z) | OReadTimeout (d : Z).

Definition option_fn (o : Option) : Config → Config :=
  match o with
  | OMaxBodyBytes n => WithMaxBodyBytes n
  | OAdvisoryCorrelationID f => WithAdvisoryCorrelationID f
  | OTrustedCorrelationID f => WithTrustedCorrelationID f
  | ORequestHeaders hs => WithRequestHeaders hs
  | OResponseHeaders hs => WithResponseHeaders hs
  | OSuccessStatus n => WithSuccessStatus n
  | OErrorStatus f => WithErrorStatus f
  | OHTTPClient c => WithHTTPClient c
  | OFollowRedirects => WithFollowRedirects
  | OOutboundHeaders hs => WithOutboundHeaders hs
  | OOutboundReplyHeaders hs => WithOutboundReplyHeaders hs
  | OMaxResponseBytes n => WithMaxResponseBytes n
  | OErrorBodyExcerpt => WithErrorBodyExcerpt
  | OEventName s => WithEventName s
  | OMaxEventBytes n => WithMaxEventBytes n
  | OMaxConnections n => WithMaxConnections n
  | OConnectionBuffer n => WithConnectionBuffer n
  | OSlowClientPolicy p => WithSlowClientPolicy p
  | OReplayBuffer n => WithReplayBuffer n
  | OHeartbeat d => WithHeartbeat d
  | OWriteTimeout d => WithWriteTimeout d
  | OConnectHeaders fold h => WithConnectHeaders fold h
  | OReconnectBackoff min max => WithReconnectBackoff min max
  | OReadTimeout d => WithReadTimeout d
  | OLogger | OOutboundClock | OSSEClock => λ c, c
  end.

(** *** Validation *)

(** [if !c.xSet { c.x = dflt } else if invalid(c.x) { return err }]. *)
Definition resolved {V} (s : setting V) (dflt : V) (invalid : V → option error) : error + setting V :=
  if st_set s then match invalid (st_val s) with Some err => inl err | None => inr s end
  else inr (mkSetting dflt false).

Definition in_range (sent : sentinel) (site : string) (hi n : Z) : option error :=
  checkRange (Sentinel sent) site n 1 hi.
Definition reject (sent : sentinel) (bad : bool) : option error :=
  if bad then Some (Sentinel sent) else None.

Definition NewConfig (opts : list (option Option)) : error + Config :=
  match apply_opts ((λ o : option Option, option_fn <$> o) <$> opts) zeroConfig with
  | inl i => inl (nilOptionAt "msghttp.NewConfig" i)
  | inr c =>
      let? maxBody := resolved (ht_maxBodyBytes c) defaultMaxBodyBytes
        (in_range ErrInvalidMaxBodyBytes "msghttp.WithMaxBodyBytes" byteCapCeiling) in
      let? status := resolved (ht_successStatus c) 202
        (λ n, reject ErrInvalidStatusCode ((n <? 100) || (599 <? n))) in
      let? maxResponse := resolved (ht_maxResponseBytes c) defaultMaxResponseBytes
        (in_range ErrInvalidMaxResponseBytes "msghttp.WithMaxResponseBytes" byteCapCeiling) in
      let? eventName := resolved (ht_eventName c) (st_val (ht_eventName c))
        (λ s, reject ErrInvalidEventField (negb (validSSEField s))) in
      let? maxEvent := resolved (ht_maxEventBytes c) defaultMaxEventBytes
        (in_range ErrInvalidMaxEventBytes "msghttp.WithMaxEventBytes" byteCapCeiling) in
      let? maxConns := resolved (ht_maxConnections c) defaultMaxConnections
        (in_range ErrInvalidMaxConnections "msghttp.WithMaxConnections" maxConnectionsCeiling) in
      let? buffer := resolved (ht_connectionBuffer c) defaultConnectionBuffer
        (in_range ErrInvalidConnectionBuffer "msghttp.WithConnectionBuffer" maxConnBufferCeiling) in
      let? policy := resolved (ht_slowClientPolicy c) SlowClientDrop
        (λ p, reject ErrInvalidSlowClientPolicy
                (negb (bool_decide (p = SlowClientDrop)) && negb (bool_decide (p = SlowClientDisconnect)))) in
      let? replay := resolved (ht_replayBuffer c) (st_val (ht_replayBuffer c))
        (in_range ErrInvalidReplayBuffer "msghttp.WithReplayBuffer" replayBufferCeiling) in
      let? heartbeat := resolved (ht_heartbeat c) (st_val (ht_heartbeat c))
        (λ d, reject ErrInvalidHeartbeat (d <=? 0)) in
      let? writeTimeout := resolved (ht_writeTimeout c) defaultWriteTimeout
        (λ d, reject ErrInvalidWriteTimeout (d <=? 0)) in
      let? reconnect := resolved (ht_reconnect c) (defaultReconnectMin, defaultReconnectMax)
        (λ mm, reject ErrInvalidReconnectBackoff ((mm.1 <=? 0) || (mm.2 <? mm.1))) in
      let? readTimeout := resolved (ht_readTimeout c) (st_val (ht_readTimeout c))
        (λ d, reject ErrInvalidReadTimeout (d <=? 0)) in
      inr (mkConfig maxBody status (ht_correlationID c) (ht_trustedCorrelation c) (ht_requestHeaders c)
        (ht_responseHeaders c)
        (match ht_errorStatus c with Some f => Some f | None => Some (λ e, Ret (DefaultErrorStatus e)) end)
        (match ht_httpClient c with Some cl => Some cl | None => Some (mkClient defaultHTTPClientTimeout None) end)
        (ht_followRedirects c) (ht_outboundHeaders c) (ht_replyHeaders c) maxResponse (ht_errorBodyExcerpt c)
        eventName maxEvent maxConns buffer policy replay heartbeat writeTimeout (ht_httpClientSet c)
        (ht_connectHeaders c) reconnect readTimeout)
  end.

(** The delegating constructors check their own options for nil first. *)
Fixpoint first_nil {A} (i : nat) (opts : list (option A)) : option nat :=
  match opts with
  | [] => None
  | None :: _ => Some i
  | Some _ :: rest => first_nil (S i) rest
  end.
Definition config_at (ctor : string) (opts : list (option Option)) : error + Config :=
  match first_nil 0 opts with
  | Some i => inl (nilOptionAt ctor i)
  | None => NewConfig opts
  end.

Definition NewSSEParser (r : bytes) (r_end : error) (opts : list (option Option)) : error + (SSEParser * bytes) :=
  let? cfg := config_at "msghttp.NewSSEParser" opts in
  inr (newSSEParserWithCap r r_end (st_val (ht_maxEventBytes cfg))).

(** *** Accessors: a nil or hand-built configuration falls back to the defaults *)

Definition maxBody (c : option Config) : Z :=
  match c with
  | Some c => if st_val (ht_maxBodyBytes c) <=? 0 then defaultMaxBodyBytes else st_val (ht_maxBodyBytes c)
  | None => defaultMaxBodyBytes
  end.
Definition successStatusOrDefault (c : option Config) : Z :=
  match c with
  | Some c =>
      let n := st_val (ht_successStatus c) in if (n <? 100) || (599 <? n) then 202 else n
  | None => 202
  end.
Definition errStatus (c : option Config) : error → outcome Z :=
  match c with
  | Some c => match ht_errorStatus c with Some f => f | None => λ e, Ret (DefaultErrorStatus e) end
  | None => λ e, Ret (DefaultErrorStatus e)
  end.
Definition advisoryCorrelationID (c : option Config) : option (Request → outcome string) :=
  c ≫= ht_correlationID.
Definition trustedCorrelationID (c : option Config) : option (Request → outcome string) :=
  c ≫= ht_trustedCorrelation.
Definition allowedRequestHeaders (c : option Config) : list string := from_option ht_requestHeaders [] c.
Definition allowedResponseHeaders (c : option Config) : list string := from_option ht_responseHeaders [] c.
Definition allowedOutboundHeaders (c : option Config) : list string := from_option ht_outboundHeaders [] c.
Definition errorBodyExcerptEnabled (c : option Config) : bool := from_option ht_errorBodyExcerpt false c.
Definition eventNameOrDefault (c : option Config) : string := from_option (λ c, st_val (ht_eventName c)) "" c.

Definition allowedReplyHeaders (c : Config) : list string := ht_replyHeaders c.
Definition maxConns (c : Config) : Z := st_val (ht_maxConnections c).
Definition connBuffer (c : Config) : Z := st_val (ht_connectionBuffer c).
Definition heartbeatInterval (c : Config) : Z := st_val (ht_heartbeat c).
Definition perWriteTimeout (c : Config) : Z := st_val (ht_writeTimeout c).
Definition slowPolicy (c : Config) : SlowClientPolicy := st_val (ht_slowClientPolicy c).
Definition replaySize (c : Config) : Z := st_val (ht_replayBuffer c).

(** ** Properties *)

(** The fields that keep their zero value when they are not set. *)
Definition zero_unset (c : Config) : Prop :=
  (st_set (ht_eventName c) = false → st_val (ht_eventName c) = "") ∧
  (st_set (ht_replayBuffer c) = false → st_val (ht_replayBuffer c) = 0) ∧
  (st_set (ht_heartbeat c) = false → st_val (ht_heartbeat c) = 0) ∧
  (st_set (ht_readTimeout c) = false → st_val (ht_readTimeout c) = 0).

Lemma option_zero_unset o c : zero_unset c → zero_unset (option_fn o c).
Proof.
  unfold zero_unset. intros (H1 & H2 & H3 & H4).
  destruct o as [| | | | | | | | | | | | | | | | | | | | | | | |fold h| |];
    try match goal with |- context [option_fn (_ ?x)] => is_var x; destruct x end;
    try (destruct h); cbn; split_and!; done.
Qed.

Lemma options_zero_unset i opts c c' :
  zero_unset c → apply_opts_from i ((λ o : option Option, option_fn <$> o) <$> opts) c = inr c' → zero_unset c'.
Proof.
  revert i c. induction opts as [|[o|] opts IH]; intros i c Hc; cbn; [by intros [= <-]| |done].
  by apply IH, option_zero_unset.
Qed.

Lemma resolved_ok {V} (s : setting V) dflt invalid s' :
  resolved s dflt invalid = inr s' →
  (st_set s' = st_set s) ∧ (st_set s' = true → invalid (st_val s') = None) ∧ (st_set s' = false → st_val s' = dflt).
Proof.
  unfold resolved. destruct (st_set s) eqn:E; [destruct (invalid _) eqn:Hi; [done|]|]; intros [= <-]; cbn; [|done].
  by rewrite E.
Qed.

Lemma resolved_prop {V} (P : V → Prop) (s : setting V) dflt invalid s' :
  resolved s dflt invalid = inr s' → (st_set s = false → P dflt) → (∀ v, invalid v = None → P v) → P (st_val s').
Proof.
  intros (Hs & H1 & H2)%resolved_ok Hd Hi. destruct (st_set s') eqn:E; [auto|].
  rewrite H2 by done. apply Hd. congruence.
Qed.

Lemma reject_ok sent bad : reject sent bad = None → bad = false.
Proof. by destruct bad. Qed.

(** The settings the package's parts rely on. *)
Record config_ok (c : Config) : Prop := {
  co_body : 1 ≤ st_val (ht_maxBodyBytes c) ≤ byteCapCeiling;
  co_status : 100 ≤ st_val (ht_successStatus c) ≤ 599;
  co_response : 1 ≤ st_val (ht_maxResponseBytes c) ≤ byteCapCeiling;
  co_event : validSSEField (st_val (ht_eventName c)) = true;
  co_eventBytes : 1 ≤ st_val (ht_maxEventBytes c) ≤ byteCapCeiling;
  co_conns : 1 ≤ st_val (ht_maxConnections c) ≤ maxConnectionsCeiling;
  co_buffer : 1 ≤ st_val (ht_connectionBuffer c) ≤ maxConnBufferCeiling;
  co_policy : st_val (ht_slowClientPolicy c) = SlowClientDrop ∨
              st_val (ht_slowClientPolicy c) = SlowClientDisconnect;
  co_replay : 0 ≤ st_val (ht_replayBuffer c) ≤ replayBufferCeiling;
  co_heartbeat : 0 ≤ st_val (ht_heartbeat c);
  co_writeTimeout : 0 < st_val (ht_writeTimeout c);
  co_reconnect : 0 < (st_val (ht_reconnect c)).1 ≤ (st_val (ht_reconnect c)).2;
  co_readTimeout : st_set (ht_readTimeout c) = true → 0 < st_val (ht_readTimeout c);
  co_errorStatus : is_Some (ht_errorStatus c);
  co_client : is_Some (ht_httpClient c)
}.

(** The value [resolved] leaves in a field satisfies [P]: the default does, and
    what the field's check accepts does. *)
Ltac resolve P :=
  match goal with H : resolved _ _ _ = inr ?s |- context [st_val ?s] =>
    apply (resolved_prop P _ _ _ _ H);
    [intros Hunset; repeat match goal with Hz : _ = false → _ |- _ => first [rewrite (Hz Hunset)|clear Hz] end;
     vm_compute; intuition (done || discriminate)
    |intros v Hv; first [apply checkRange_ok in Hv; lia | apply reject_ok in Hv; first
       [bool_to_prop; lia | by apply negb_false_iff in Hv | apply andb_false_iff in Hv as [Hv|Hv];
        apply negb_false_iff, bool_decide_eq_true in Hv; tauto]]]
  end.

Lemma config_resolved opts c : NewConfig opts = inr c → config_ok c.
Proof.
  unfold NewConfig. destruct (apply_opts _ _) as [i|c0] eqn:Happ; [done|].
  apply options_zero_unset in Happ as (Hz1 & Hz2 & Hz3 & Hz4); [|done].
  rewrite sum_bind_inr. intros (b & Hb & H). repeat (apply sum_bind_inr in H as (? & ? & H)).
  injection H as <-. split; cbn.
  - resolve (λ n, 1 ≤ n ≤ byteCapCeiling).
  - resolve (λ n, 100 ≤ n ≤ 599).
  - resolve (λ n, 1 ≤ n ≤ byteCapCeiling).
  - resolve (λ s, validSSEField s = true).
  - resolve (λ n, 1 ≤ n ≤ byteCapCeiling).
  - resolve (λ n, 1 ≤ n ≤ maxConnectionsCeiling).
  - resolve (λ n, 1 ≤ n ≤ maxConnBufferCeiling).
  - resolve (λ p, p = SlowClientDrop ∨ p = SlowClientDisconnect).
  - resolve (λ n, 0 ≤ n ≤ replayBufferCeiling).
  - resolve (λ n, 0 ≤ n).
  - resolve (λ n, 0 < n).
  - resolve (λ p, 0 < p.1 ≤ p.2).
  - intros Hset. match goal with Hr : resolved (ht_readTimeout c0) _ _ = inr _ |- _ =>
      apply resolved_ok in Hr as (_ & Hr & _); specialize (Hr Hset); apply reject_ok in Hr end.
    bool_to_prop. lia.
  - by destruct (ht_errorStatus c0).
  - by destruct (ht_httpClient c0).
Qed.

(** A configuration [NewConfig] accepts satisfies every bound the HTTP parts
    rely on, whatever options were given in whatever order: the byte caps, the
    connection, buffer and replay limits lie within their ceilings, the status is
    an HTTP status, the SSE event name cannot break a frame, the slow-client
    policy is one of the two declared ones, the timeouts are positive, the
    reconnect bounds are ordered, and the client and the error mapping are never
    nil.  A nil option is an error naming its index. *)
Theorem new_config_sound (opts : list (option Option)) :
  match NewConfig opts with
  | inr c => config_ok c
  | inl err => (∃ i, opts !! i = Some None ∧ err = nilOptionAt "msghttp.NewConfig" i) ∨ None ∉ opts
  end.
Proof.
  destruct (NewConfig opts) as [err|c] eqn:E; [|by apply config_resolved in E].
  unfold NewConfig in E.
  pose proof (apply_opts_cases ((λ o : option Option, option_fn <$> o) <$> opts) zeroConfig) as Happ.
  destruct (apply_opts _ _) as [i|c0].
  - injection E as <-. left. exists i. split; [|done].
    rewrite list_lookup_fmap in Happ. by destruct (opts !! i) as [[]|].
  - right. contradict Happ. apply list_elem_of_fmap. by exists None.
Qed.
