(* ===== verification/SSEServer.v ===== *)
(** * The Server-Sent Events hub

    [adapter/http/sse_server.go]: an [SSEServer] registers each GET request as a
    connection and [Send] fans a message out to all of them.  Each connection
    has a bounded channel of frames between [Send] and the handler goroutine
    that writes them, a snapshot of the replay ring taken when it registered,
    and a response writer whose body is what the client has received.

    The goroutines interleave at the operations they synchronize on: the locked
    blocks of [ServeHTTP], [Send] and [Close], a channel receive, a write, a
    cancellation.  [sse_step] is one such operation.  A client may stop reading
    and go on later; a write to one that has stopped ends only by its deadline,
    with an error, and not at all where none could be set.  A connection may
    also fail in the middle of a frame, at a point its response writer has. *)

From Stdlib Require Import Ascii.
From S2P Require Import Prelude Message SSE NetHttp HttpConfig.

Local Open Scope Z_scope.

Definition ErrSSEServerClosed : sentinel := OtherSentinel "msghttp.ErrSSEServerClosed".

(** ** State *)

Record ringEntry : Type := mkRingEntry { re_id : string; re_frame : bytes }.

(** Where the handler goroutine of a connection is in [runWriter]. *)
Inductive wphase : Type :=
  | PStart
  | PReplay (todo : list bytes)
  | PSelect
  | PWrite (ping : bool) (frame : bytes)
  | PExit
  | PDone.

#[export] Instance wphase_eq_dec : EqDecision wphase.
Proof. solve_decision. Defined.

(** [done] is closed when the phase is [PDone]; [sc_deadline] says whether the
    response writer supports SetWriteDeadline, [sc_stalled] that the client has
    stopped reading and the socket takes no more bytes. *)
Record sseConn : Type := mkConn {
  sc_frames : list bytes;
  sc_cancelled : bool;
  sc_replay : list bytes;
  sc_remote : string;
  sc_warned : bool;
  sc_dropped : Z;
  sc_phase : wphase;
  sc_deadline : bool;
  sc_stalled : bool;
  sc_rw : ResponseWriter
}.

Inductive sselog : Type :=
  | LNotFlusher
  | LDeadlineUnsupported
  | LDrop (remote : string) (count : Z) (warn : bool).

(** The connections by address; [ss_conns] are the registered ones. *)
Record SSEServer : Type := mkServer {
  ss_conns : gset nat;
  ss_closed : bool;
  ss_ring : list ringEntry;
  ss_deadlineUnsupportedWarned : bool;
  ss_heap : gmap nat sseConn;
  ss_log : list sselog
}.

Definition NewSSEServer (opts : list (option Option)) : error + (Config * SSEServer) :=
  let? cfg := config_at "msghttp.NewSSEServer" opts in
  inr (cfg, mkServer ∅ false [] false ∅ []).

Definition set_phase (p : wphase) (c : sseConn) : sseConn :=
  mkConn (sc_frames c) (sc_cancelled c) (sc_replay c) (sc_remote c) (sc_warned c) (sc_dropped c) p
    (sc_deadline c) (sc_stalled c) (sc_rw c).
Definition set_rw (w : ResponseWriter) (c : sseConn) : sseConn :=
  mkConn (sc_frames c) (sc_cancelled c) (sc_replay c) (sc_remote c) (sc_warned c) (sc_dropped c) (sc_phase c)
    (sc_deadline c) (sc_stalled c) w.
Definition set_frames (fs : list bytes) (c : sseConn) : sseConn :=
  mkConn fs (sc_cancelled c) (sc_replay c) (sc_remote c) (sc_warned c) (sc_dropped c) (sc_phase c)
    (sc_deadline c) (sc_stalled c) (sc_rw c).
Definition cancel (c : sseConn) : sseConn :=
  mkConn (sc_frames c) true (sc_replay c) (sc_remote c) (sc_warned c) (sc_dropped c) (sc_phase c)
    (sc_deadline c) (sc_stalled c) (sc_rw c).

Definition set_stalled (b : bool) (c : sseConn) : sseConn :=
  mkConn (sc_frames c) (sc_cancelled c) (sc_replay c) (sc_remote c) (sc_warned c) (sc_dropped c) (sc_phase c)
    (sc_deadline c) b (sc_rw c).

Definition set_conn (id : nat) (c : sseConn) (s : SSEServer) : SSEServer :=
  mkServer (ss_conns s) (ss_closed s) (ss_ring s) (ss_deadlineUnsupportedWarned s) (<[id := c]> (ss_heap s)) (ss_log s).
Definition sse_log (l : list sselog) (s : SSEServer) : SSEServer :=
  mkServer (ss_conns s) (ss_closed s) (ss_ring s) (ss_deadlineUnsupportedWarned s) (ss_heap s) (ss_log s ++ l).

(** ** The replay ring *)

(** [copy] moves the surviving entries to the front. *)
Definition appendRing (cfg : Config) (e : ringEntry) (ring : list ringEntry) : list ringEntry :=
  let max := replaySize cfg in
  let len := Z.of_nat (length ring) in
  (if max <=? len then drop (Z.to_nat (len - max + 1)) ring else ring) ++ [e].

(** The index of the last entry with the id, -1 without one. *)
Fixpoint last_index (lastID : string) (i idx : Z) (ring : list ringEntry) : Z :=
  match ring with
  | [] => idx
  | e :: rest => last_index lastID (i + 1) (if decide (re_id e = lastID) then i else idx) rest
  end.
Definition replayAfter (lastID : string) (ring : list ringEntry) : list bytes :=
  let idx := last_index lastID 0 (-1) ring in
  if idx <? 0 then [] else re_frame <$> drop (Z.to_nat (idx + 1)) ring.

(** ** ServeHTTP *)

(** The response writer after [m]; [http.Error] does not panic with the codes
    used here. *)
Definition run_rw {A} (m : M ResponseWriter A) (w : ResponseWriter) : ResponseWriter := (m w).2.

(** [ServeHTTP] up to the deferred function: [Some w'] is the response of a guard,
    [None] a registered connection at address [id].  [flusher] is the result of
    the assertion [w.(http.Flusher)]. *)
Definition ServeHTTP (cfg : Config) (id : nat) (flusher deadline : bool) (r : Request) (w : ResponseWriter)
    (s : SSEServer) : option ResponseWriter * SSEServer :=
  if decide (r_Method r ≠ "GET") then
    (Some (run_rw (_ ← modify (set_header (header_Set "Allow" "GET"));
                   http_Error "SSE endpoint accepts GET only" 405) w), s)
  else if ss_closed s then (Some (run_rw (http_Error "SSE server is closed" 503) w), s)
  else if maxConns cfg <=? Z.of_nat (size (ss_conns s)) then
    (Some (run_rw (http_Error "SSE connection limit reached" 503) w), s)
  else if negb flusher then
    (Some (run_rw (http_Error "SSE streaming is unsupported by this server" 500) w), sse_log [LNotFlusher] s)
  else
    let lastID := header_Get (r_Header r) "Last-Event-ID" in
    let replay := if (0 <? replaySize cfg) && negb (bool_decide (lastID = ""))
                  then replayAfter lastID (ss_ring s) else [] in
    let conn := mkConn [] false replay (r_RemoteAddr r) false 0 PStart deadline false w in
    (None, mkServer ({[id]} ∪ ss_conns s) (ss_closed s) (ss_ring s) (ss_deadlineUnsupportedWarned s)
             (<[id := conn]> (ss_heap s)) (ss_log s)).

(** The deferred function. *)
Definition unregister (id : nat) (c : sseConn) (s : SSEServer) : SSEServer :=
  mkServer (ss_conns s ∖ {[id]}) (ss_closed s) (ss_ring s) (ss_deadlineUnsupportedWarned s)
    (<[id := set_phase PDone (cancel c)]> (ss_heap s)) (ss_log s).

(** ** runWriter *)

Definition warnWriteDeadlineUnsupported (s : SSEServer) : SSEServer :=
  if ss_deadlineUnsupportedWarned s then s
  else mkServer (ss_conns s) (ss_closed s) (ss_ring s) true (ss_heap s) (ss_log s ++ [LDeadlineUnsupported]).
(** Whether the write that follows has a deadline. *)
Definition applyWriteDeadline (c : sseConn) (s : SSEServer) : bool * SSEServer :=
  if sc_deadline c then (true, s) else (false, warnWriteDeadlineUnsupported s).

(** The write to a client that reads: the new phase is [ok] when it succeeds and
    [PExit] when it fails. *)
Definition written (frame : bytes) (ok : wphase) (c : sseConn) : sseConn :=
  match rw_Write frame (sc_rw c) with
  | (Ret None, w) => set_phase ok (set_rw w c)
  | (_, w) => set_phase PExit (set_rw w c)
  end.
(** [None] is a write that does not return: the client is not reading, and the
    write has no deadline. *)
Definition writeFrame (id : nat) (frame : bytes) (ok : wphase) (c : sseConn) (s : SSEServer) : option SSEServer :=
  let '(armed, s) := applyWriteDeadline c s in
  if sc_stalled c then
    if armed then Some (set_conn id (set_phase PExit c) s) else None
  else Some (set_conn id (written frame ok c) s).

(** A connection after a deadline has passed: no byte goes out any more. *)
Definition timed_out (w : ResponseWriter) : ResponseWriter :=
  mkRW (rw_header w) (rw_info w) (rw_status w) (rw_sent w) (rw_body w) (Some (0%nat, Opaque "i/o timeout")).

Definition sse_preamble : M ResponseWriter unit :=
  _ ← modify (set_header (λ h, header_Set "Connection" "keep-alive" (header_Set "Cache-Control" "no-cache"
                 (header_Set "Content-Type" "text/event-stream" h))));
  rw_WriteHeader 200.
(** The headers and their Flush, which has no result: where its deadline passes,
    the handler goes on, and its next write fails. *)
Definition flush_preamble (id : nat) (c : sseConn) (s : SSEServer) : option SSEServer :=
  let '(armed, s) := applyWriteDeadline c s in
  let w := run_rw sse_preamble (sc_rw c) in
  let go w := set_conn id (set_phase (PReplay (sc_replay c)) (set_rw w c)) s in
  if sc_stalled c then if armed then Some (go (timed_out w)) else None else Some (go w).

(** The arm of the select statement that is taken. *)
Inductive arm : Type := ArmDone | ArmFrame | ArmTick.

(** The next operation of the handler goroutine; [None] when the arm is not
    ready, when a write does not return, or when the handler has returned. *)
Definition runWriter (cfg : Config) (id : nat) (a : arm) (c : sseConn) (s : SSEServer) : option SSEServer :=
  match sc_phase c with
  | PStart => flush_preamble id c s
  | PReplay (frame :: todo) => writeFrame id frame (PReplay todo) c s
  | PReplay [] => Some (set_conn id (set_phase PSelect c) s)
  | PSelect =>
      match a with
      | ArmDone => if sc_cancelled c then Some (set_conn id (set_phase PExit c) s) else None
      | ArmFrame =>
          match sc_frames c with
          | frame :: rest => Some (set_conn id (set_phase (PWrite false frame) (set_frames rest c)) s)
          | [] => None
          end
      | ArmTick =>
          if 0 <? heartbeatInterval cfg then Some (set_conn id (set_phase (PWrite true sseHeartbeat) c) s) else None
      end
  | PWrite _ frame => writeFrame id frame PSelect c s
  | PExit => Some (unregister id c s)
  | PDone => None
  end.

(** ** Send *)

(** The body of the loop over the connections: a non-blocking send, and the
    slow-client policy when the buffer is full. *)
Definition offer (cfg : Config) (frame : bytes) (c : sseConn) : sseConn * list sselog :=
  if Z.of_nat (length (sc_frames c)) <? connBuffer cfg then (set_frames (sc_frames c ++ [frame]) c, [])
  else if decide (slowPolicy cfg = SlowClientDisconnect) then (cancel c, [])
  else (mkConn (sc_frames c) (sc_cancelled c) (sc_replay c) (sc_remote c) true (sc_dropped c + 1) (sc_phase c)
          (sc_deadline c) (sc_stalled c) (sc_rw c),
        [LDrop (sc_remote c) (sc_dropped c + 1) (negb (sc_warned c))]).

(** The loop: the range over the map reaches every registered connection once,
    and what it does to one is independent of the others. *)
Definition fan_out (cfg : Config) (frame : bytes) (s : SSEServer) : gmap nat sseConn :=
  map_imap (λ id c, Some (if decide (id ∈ ss_conns s) then (offer cfg frame c).1 else c)) (ss_heap s).
Definition notices (cfg : Config) (frame : bytes) (s : SSEServer) : list sselog :=
  elements (ss_conns s) ≫= λ id, match ss_heap s !! id with Some c => (offer cfg frame c).2 | None => [] end.

(** A [bytes.Buffer] as the writer of [EncodeSSEEvent]. *)
Definition buffer_Write (b : bytes) : M bytes (option error) := _ ← modify (λ buf, buf ++ b); mret None.

Definition Send (cfg : Config) (m : msg) (s : SSEServer) : option error * SSEServer :=
  match SSEEventFromMessage (eventNameOrDefault (Some cfg)) m with
  | inl err => (Permanent (Some err), s)
  | inr ev =>
      let frame := (EncodeSSEEvent buffer_Write ev []).2 in
      if ss_closed s then (Permanent (Some (Sentinel ErrSSEServerClosed)), s)
      else
        let ring := if (0 <? replaySize cfg) && negb (bool_decide (ev_ID ev = ""))
                    then appendRing cfg (mkRingEntry (ev_ID ev) frame) (ss_ring s) else ss_ring s in
        (None, mkServer (ss_conns s) (ss_closed s) ring (ss_deadlineUnsupportedWarned s) (fan_out cfg frame s)
                 (ss_log s ++ notices cfg frame s))
  end.

(** ** Close *)

(** The locked block: the connections to cancel and join. *)
Definition Close_lock (s : SSEServer) : list nat * SSEServer :=
  (elements (ss_conns s),
   mkServer (ss_conns s) true (ss_ring s) (ss_deadlineUnsupportedWarned s) (ss_heap s) (ss_log s)).
Definition cancel_conn (id : nat) (s : SSEServer) : SSEServer :=
  match ss_heap s !! id with Some c => set_conn id (cancel c) s | None => s end.
Definition is_done (s : SSEServer) (id : nat) : bool :=
  match ss_heap s !! id with Some c => match sc_phase c with PDone => true | _ => false end | None => false end.

(** The join loop: [None] while a select blocks, otherwise what [Close] returns;
    a select with both arms ready may take either ([prefer_ctx]). *)
Fixpoint Close_join (ctxErr : option error) (prefer_ctx : bool) (conns : list nat) (s : SSEServer) : option (option error) :=
  match conns with
  | [] => Some None
  | id :: rest =>
      match ctxErr with
      | Some e => if prefer_ctx || negb (is_done s id) then Some (Some e) else Close_join ctxErr prefer_ctx rest s
      | None => if is_done s id then Close_join ctxErr prefer_ctx rest s else None
      end
  end.

(** ** The interleaved system *)

Inductive action : Type :=
  | AServe (id : nat) (flusher deadline : bool) (r : Request) (w : ResponseWriter)
  | AWriter (id : nat) (a : arm)
  | ASend (m : msg)
  | ACloseLock
  | ACancel (id : nat)
  | AStall (id : nat) (b : bool).

(** One operation of one goroutine.  [ACancel] is a cancellation by [Close] or by
    the end of the request, [AStall] a client that stops reading or goes on.  A
    request comes with a fresh response writer, and its connection gets a fresh
    address. *)
Definition sse_step (cfg : Config) (a : action) (s : SSEServer) : option SSEServer :=
  match a with
  | AServe id flusher deadline r w =>
      if decide (ss_heap s !! id = None ∧ fresh_rw w) then Some (ServeHTTP cfg id flusher deadline r w s).2 else None
  | AWriter id a => match ss_heap s !! id with Some c => runWriter cfg id a c s | None => None end
  | ASend m => Some (Send cfg m s).2
  | ACloseLock => Some (Close_lock s).2
  | ACancel id => Some (cancel_conn id s)
  | AStall id b => match ss_heap s !! id with Some c => Some (set_conn id (set_stalled b c) s) | None => None end
  end.

(** ** What the hub promises

    The history of a run: the events accepted by [Send], and for every connection
    how long the history was when it registered and unregistered, with the
    Last-Event-ID it came with. *)
Record sub : Type := mkSub { su_start : nat; su_last : string; su_stop : option nat }.
Record history : Type := mkHistory { hs_log : list SSEEvent; hs_subs : gmap nat sub }.

Definition observe (cfg : Config) (a : action) (s : SSEServer) (h : history) : history :=
  match a with
  | AServe id flusher deadline r w =>
      match (ServeHTTP cfg id flusher deadline r w s).1 with
      | Some _ => h
      | None => mkHistory (hs_log h)
                  (<[id := mkSub (length (hs_log h)) (header_Get (r_Header r) "Last-Event-ID") None]> (hs_subs h))
      end
  | AWriter id _ =>
      match ss_heap s !! id, hs_subs h !! id with
      | Some c, Some su =>
          match sc_phase c with
          | PExit => mkHistory (hs_log h)
                       (<[id := mkSub (su_start su) (su_last su) (Some (length (hs_log h)))]> (hs_subs h))
          | _ => h
          end
      | _, _ => h
      end
  | ASend m =>
      match SSEEventFromMessage (eventNameOrDefault (Some cfg)) m, (Send cfg m s).1 with
      | inr ev, None => mkHistory (hs_log h ++ [ev]) (hs_subs h)
      | _, _ => h
      end
  | _ => h
  end.

Inductive reachable (cfg : Config) : history → SSEServer → Prop :=
  | reach_init : reachable cfg (mkHistory [] ∅) (mkServer ∅ false [] false ∅ [])
  | reach_step h s a s' : reachable cfg h s → sse_step cfg a s = Some s' → reachable cfg (observe cfg a s h) s'.

(** The last [n] elements, the events that carry an id, and the events after the
    last one with a given id. *)
Definition lastN {A} (n : nat) (l : list A) : list A := drop (length l - n) l.
Definition with_id (l : list SSEEvent) : list SSEEvent := filter (λ e, ev_ID e ≠ "") l.
Fixpoint after_last (id : string) (l : list SSEEvent) : option (list SSEEvent) :=
  match l with
  | [] => None
  | e :: rest =>
      match after_last id rest with
      | Some r => Some r
      | None => if decide (ev_ID e = id) then Some rest else None
      end
  end.

(** The events a connection is promised: those it resumes with, and those
    accepted while it was registered. *)
Definition retained (cfg : Config) (log : list SSEEvent) : list SSEEvent := lastN (Z.to_nat (replaySize cfg)) (with_id log).
Definition resumed (cfg : Config) (log : list SSEEvent) (su : sub) : list SSEEvent :=
  if decide (su_last su = "") then [] else default [] (after_last (su_last su) (retained cfg (take (su_start su) log))).
Definition live (log : list SSEEvent) (su : sub) : list SSEEvent :=
  take (default (length log) (su_stop su) - su_start su) (drop (su_start su) log).

(** The frames a handler still has in hand. *)
Definition pending (c : sseConn) : list bytes :=
  match sc_phase c with
  | PStart => sc_replay c
  | PReplay todo => todo
  | PWrite false frame => [frame]
  | _ => []
  end.
Definition running (c : sseConn) : bool := match sc_phase c with PExit | PDone => false | _ => true end.

Definition entry (e : SSEEvent) : ringEntry := mkRingEntry (ev_ID e) (sse_frame e).

(** [taken] of the live events reached the channel of [c]. *)
Record stream_inv (cfg : Config) (rep lv taken : list SSEEvent) (c : sseConn) : Prop := {
  st_replay : sc_replay c = sse_frame <$> rep;
  st_body : ∃ items tail lost pend queue,
    rw_body (sc_rw c) = wire items ++ tail ∧ (running c = true → tail = [] ∧ lost = []) ∧
    pending c = sse_frame <$> pend ∧ sc_frames c = sse_frame <$> queue ∧
    omap (λ f, f) items ++ lost ++ pend ++ queue = rep ++ taken;
  st_ping : ∀ f, sc_phase c = PWrite true f → f = sseHeartbeat;
  st_status : if decide (sc_phase c = PStart) then fresh_rw (sc_rw c) else rw_status (sc_rw c) = Some 200;
  st_sub : taken `sublist_of` lv;
  st_dropped : 0 ≤ sc_dropped c;
  st_count : slowPolicy cfg ≠ SlowClientDisconnect → Z.of_nat (length taken) + sc_dropped c = Z.of_nat (length lv);
  st_kept : slowPolicy cfg = SlowClientDisconnect → sc_cancelled c = false → taken = lv;
  st_buffer : Z.of_nat (length (sc_frames c)) ≤ connBuffer cfg
}.

Record conn_inv (cfg : Config) (log : list SSEEvent) (su : sub) (registered : bool) (c : sseConn) : Prop := {
  ci_reg : if registered then su_stop su = None ∧ sc_phase c ≠ PDone else is_Some (su_stop su) ∧ sc_phase c = PDone;
  ci_start : (su_start su ≤ default (length log) (su_stop su) ≤ length log)%nat;
  ci_stream : ∃ taken, stream_inv cfg (resumed cfg log su) (live log su) taken c
}.

Record server_inv (cfg : Config) (h : history) (s : SSEServer) : Prop := {
  si_size : Z.of_nat (size (ss_conns s)) ≤ maxConns cfg;
  si_ring : ss_ring s = entry <$> retained cfg (hs_log h);
  si_valid : Forall (λ e, event_valid e = true) (hs_log h);
  si_conns : ∀ id, id ∈ ss_conns s → is_Some (ss_heap s !! id);
  si_conn : ∀ id c, ss_heap s !! id = Some c →
    ∃ su, hs_subs h !! id = Some su ∧ conn_inv cfg (hs_log h) su (bool_decide (id ∈ ss_conns s)) c
}.

(** *** The ring *)

Lemma lastN_snoc {A} n (l : list A) x :
  (1 ≤ n)%nat → lastN n (l ++ [x]) = (if (n <=? length (lastN n l))%nat then drop 1 (lastN n l) else lastN n l) ++ [x].
Proof.
  intros Hn. unfold lastN. rewrite length_app, length_drop. cbn [length].
  destruct (Nat.leb_spec n (length l - (length l - n))).
  - rewrite drop_drop, drop_app_le by lia. do 2 f_equal. lia.
  - rewrite drop_app_le by lia. do 2 f_equal. lia.
Qed.

Lemma lastN_length {A} n (l : list A) : (length (lastN n l) ≤ n)%nat.
Proof. unfold lastN. rewrite length_drop. lia. Qed.

Lemma appendRing_lastN cfg l e :
  1 ≤ replaySize cfg →
  appendRing cfg (entry e) (entry <$> lastN (Z.to_nat (replaySize cfg)) l) =
  entry <$> lastN (Z.to_nat (replaySize cfg)) (l ++ [e]).
Proof.
  intros Hn. rewrite lastN_snoc by lia. unfold appendRing. rewrite length_fmap.
  pose proof (lastN_length (Z.to_nat (replaySize cfg)) l) as Hl.
  destruct (Z.leb_spec (replaySize cfg) (Z.of_nat (length (lastN (Z.to_nat (replaySize cfg)) l)))).
  - rewrite (proj2 (Nat.leb_le _ _)) by lia. rewrite fmap_app, <-fmap_drop. do 3 f_equal. lia.
  - rewrite (proj2 (Nat.leb_gt _ _)) by lia. by rewrite fmap_app.
Qed.

Lemma last_index_spec id l i idx :
  last_index id i idx (entry <$> l) =
  match after_last id l with Some r => i + Z.of_nat (length l) - Z.of_nat (length r) - 1 | None => idx end.
Proof.
  revert i idx. induction l as [|e l IH]; intros i idx; [done|]. cbn [fmap list_fmap last_index after_last length].
  rewrite IH. destruct (after_last id l) as [r|]; [lia|]. cbn [entry re_id]. destruct (decide _); lia.
Qed.

Lemma after_last_drop id l r : after_last id l = Some r → ∃ n, (n < length l)%nat ∧ r = drop (S n) l.
Proof.
  revert r. induction l as [|e l IH]; cbn; [done|]. intros r.
  destruct (after_last id l) as [r'|].
  - intros [= <-]. destruct (IH _ eq_refl) as (n & Hn & ->). exists (S n). split; [lia|done].
  - destruct (decide _); [|done]. intros [= <-]. exists 0%nat. split; [lia|done].
Qed.

Lemma replayAfter_spec id l : replayAfter id (entry <$> l) = sse_frame <$> default [] (after_last id l).
Proof.
  unfold replayAfter. rewrite last_index_spec. destruct (after_last id l) as [r|] eqn:E; [|done].
  apply after_last_drop in E as (n & Hn & ->). rewrite length_drop. cbn [default].
  rewrite (proj2 (Z.ltb_ge _ _)) by lia. rewrite <-fmap_drop, <-list_fmap_compose.
  replace (Z.to_nat _) with (S n) by lia. done.
Qed.

(** *** The history grows *)

Lemma resumed_snoc cfg log ev su : (su_start su ≤ length log)%nat → resumed cfg (log ++ [ev]) su = resumed cfg log su.
Proof. intros. unfold resumed. by rewrite take_app_le. Qed.

Lemma live_snoc log ev su :
  (su_start su ≤ length log)%nat → su_stop su = None → live (log ++ [ev]) su = live log su ++ [ev].
Proof.
  intros Hs E. unfold live. rewrite E. cbn [default]. rewrite drop_app_le by done.
  rewrite !take_ge; [done|rewrite length_drop; lia|rewrite !length_app, length_drop; cbn; lia].
Qed.

Lemma live_stopped log ev su n :
  su_stop su = Some n → (su_start su ≤ n ≤ length log)%nat → live (log ++ [ev]) su = live log su.
Proof.
  intros E H. unfold live. rewrite E. cbn [default id]. rewrite drop_app_le, take_app_le; [done| |lia].
  rewrite length_drop. lia.
Qed.

(** *** The operations on one connection *)

Lemma conn_write_body b w :
  let '(e, w') := conn_write b w in
  rw_status w' = rw_status w ∧
  match e with None => rw_body w' = rw_body w ++ b | Some _ => ∃ n, rw_body w' = rw_body w ++ take n b end.
Proof. unfold conn_write. destruct (rw_conn w) as [[n err]|]; [destruct (_ <=? _)%nat|]; cbn; eauto. Qed.

Lemma rw_Write_200 b w : rw_status w = Some 200 → rw_Write b w = let '(e, w') := conn_write b w in (Ret e, w').
Proof.
  intros E. unfold rw_Write. unfold mbind, M_bind, rw_WriteHeader, get. rewrite E. cbn. rewrite E. cbn.
  by destruct (conn_write b w).
Qed.

(** A write of a frame in hand: it is received whole, or the handler exits. *)
Lemma written_spec cfg rep lv taken frame ping ok c :
  stream_inv cfg rep lv taken c → running c = true → sc_phase c ≠ PStart →
  (if ping : bool then frame = sseHeartbeat ∧ pending (set_phase ok c) = pending c
   else pending c = frame :: pending (set_phase ok c)) →
  running (set_phase ok c) = true → ok ≠ PStart → (∀ f, ok ≠ PWrite true f) →
  stream_inv cfg rep lv taken (written frame ok c).
Proof.
  intros [Hr (items & tail & lost & pend & queue & Hb & Hrun & Hp & Hq & Hs) Hping Hst Hsub Hd Hc Hk Hbuf]
    Hrunning Hns Hpend Hok Hoks Hokp.
  rewrite decide_False in Hst by done. destruct (Hrun Hrunning) as [-> ->].
  unfold written. rewrite rw_Write_200 by done. pose proof (conn_write_body frame (sc_rw c)) as Hw.
  destruct (conn_write frame (sc_rw c)) as [[e|] w']; destruct Hw as [Hst' Hbody].
  - destruct Hbody as [n Hbody]. split; cbn; try done; try (by rewrite Hst').
    eexists items, _, pend, [], queue. split; [rewrite Hbody, Hb, app_nil_r; reflexivity|]. by split_and!.
  - split; cbn; try done; try (rewrite decide_False by done; by rewrite Hst').
    + destruct ping.
      * destruct Hpend as [-> Hpend]. exists (items ++ [None]), [], [], pend, queue.
        split_and!; try done; try (by rewrite <-Hp, <-Hpend).
        -- rewrite Hbody, Hb, !app_nil_r. unfold wire. by rewrite bind_app, bind_singleton.
        -- by rewrite omap_app, app_nil_r.
      * rewrite Hpend in Hp. destruct pend as [|ev pend]; [done|]. injection Hp as -> Hp.
        exists (items ++ [Some ev]), [], [], pend, queue. split_and!; try done.
        -- rewrite Hbody, Hb, !app_nil_r. unfold wire. by rewrite bind_app, bind_singleton.
        -- rewrite omap_app. cbn. by rewrite <-app_assoc.
    + intros f E. by destruct (Hokp f).
Qed.

(** A change of the phase, and of the channel, that moves no frame. *)
Lemma phase_spec cfg rep lv taken fs' p' c :
  stream_inv cfg rep lv taken c → sc_phase c ≠ PStart → running c = true →
  (pending (set_phase p' c) ++ fs' = pending c ++ sc_frames c) → p' ≠ PStart →
  (∀ f, p' = PWrite true f → f = sseHeartbeat) → Z.of_nat (length fs') ≤ connBuffer cfg →
  stream_inv cfg rep lv taken (set_phase p' (set_frames fs' c)).
Proof.
  intros [Hr (items & tail & lost & pend & queue & Hb & Hrun & Hp & Hq & Hs) Hping Hst Hsub Hd Hc Hk Hbuf]
    Hns Hrunning Hmove Hp' Hping' Hlen.
  rewrite decide_False in Hst by done. destruct (Hrun Hrunning) as [-> ->].
  rewrite Hp, Hq, <-fmap_app in Hmove. 
  symmetry in Hmove. apply fmap_app_inv in Hmove as (pend' & queue' & Hp2 & Hq2 & Hpq).
  split; cbn; try done; [|by rewrite decide_False].
  exists items, [], [], pend', queue'. split_and!; try done. rewrite Hpq in Hs. done.
Qed.

Lemma phase_ok cfg rep lv taken p' c :
  stream_inv cfg rep lv taken c → sc_phase c ≠ PStart → running c = true →
  pending (set_phase p' c) = pending c → p' ≠ PStart → (∀ f, p' = PWrite true f → f = sseHeartbeat) →
  stream_inv cfg rep lv taken (set_phase p' c).
Proof.
  intros Hinv ? ? Hp ? ?. pose proof (st_buffer _ _ _ _ _ Hinv).
  apply (phase_spec _ _ _ _ (sc_frames c) p') in Hinv; try done. by rewrite Hp.
Qed.

Lemma written_phase frame ok c : ok ≠ PDone → sc_phase (written frame ok c) ≠ PDone.
Proof. unfold written. intros. by repeat case_match. Qed.

(** What the other goroutines do to a connection: an offer, a cancellation. *)
Lemma offer_spec cfg rep lv taken ev c :
  stream_inv cfg rep lv taken c → ∃ taken', stream_inv cfg rep (lv ++ [ev]) taken' (offer cfg (sse_frame ev) c).1.
Proof.
  intros [Hr (items & tail & lost & pend & queue & Hb & Hrun & Hp & Hq & Hs) Hping Hst Hsub Hd Hc Hk Hbuf].
  unfold offer. destruct (Z.ltb_spec (Z.of_nat (length (sc_frames c))) (connBuffer cfg)).
  - exists (taken ++ [ev]). split; cbn; try done.
    + exists items, tail, lost, pend, (queue ++ [ev]). rewrite fmap_app, Hq. split_and!; try done.
      by rewrite (app_assoc rep), <-Hs, <-!app_assoc.
    + by apply sublist_app.
    + rewrite !length_app. cbn. intros Hpol. specialize (Hc Hpol). lia.
    + intros Hpol Hcan. by rewrite Hk.
    + rewrite length_app. cbn. lia.
  - exists taken. destruct (decide (slowPolicy cfg = _)); (split; cbn; try done; try lia).
    all: try (by exists items, tail, lost, pend, queue).
    all: try (by apply sublist_inserts_r).
    all: intros Hpol; try congruence.
    rewrite length_app. cbn. specialize (Hc Hpol). lia.
Qed.

(** The client stops or goes on; a write that fails without a byte. *)
Lemma stalled_spec cfg rep lv taken b c : stream_inv cfg rep lv taken c → stream_inv cfg rep lv taken (set_stalled b c).
Proof. intros []. by split. Qed.

Lemma timeout_spec cfg rep lv taken c :
  stream_inv cfg rep lv taken c → running c = true → sc_phase c ≠ PStart →
  stream_inv cfg rep lv taken (set_phase PExit c).
Proof.
  intros [Hr (items & tail & lost & pend & queue & Hb & Hrun & Hp & Hq & Hs) Hping Hst Hsub Hd Hc Hk Hbuf] Hrunning Hns.
  rewrite decide_False in Hst by done. destruct (Hrun Hrunning) as [-> ->]. split; cbn; try done.
  exists items, [], pend, [], queue. by split_and!.
Qed.

Lemma cancel_spec cfg rep lv taken c : stream_inv cfg rep lv taken c → stream_inv cfg rep lv taken (cancel c).
Proof. intros []. by split. Qed.

(** The preamble: the writer has its status, and no byte of a body. *)
Lemma preamble_spec cfg rep lv taken w c :
  stream_inv cfg rep lv taken c → sc_phase c = PStart →
  rw_body w = rw_body (run_rw sse_preamble (sc_rw c)) → rw_status w = rw_status (run_rw sse_preamble (sc_rw c)) →
  stream_inv cfg rep lv taken (set_phase (PReplay (sc_replay c)) (set_rw w c)).
Proof.
  intros [Hr (items & tail & lost & pend & queue & Hb & Hrun & Hp & Hq & Hs) Hping Hst Hsub Hd Hc Hk Hbuf] Hph.
  rewrite decide_True in Hst by done. destruct Hst as (Hi & Hs0 & Hb0).
  assert (Hpre : rw_body (run_rw sse_preamble (sc_rw c)) = rw_body (sc_rw c) ∧
                 rw_status (run_rw sse_preamble (sc_rw c)) = Some 200).
  { unfold run_rw, sse_preamble, mbind, M_bind, modify, rw_WriteHeader. cbn. by rewrite Hs0. }
  destruct Hpre as [-> ->]. intros Hbody Hstatus. split; cbn; try done.
  exists items, tail, lost, pend, queue. rewrite Hbody. unfold running, pending in *. rewrite Hph in *. by split_and!.
Qed.

(** *** One operation of a handler *)

Lemma applyWriteDeadline_frame c s :
  ss_conns (applyWriteDeadline c s).2 = ss_conns s ∧ ss_ring (applyWriteDeadline c s).2 = ss_ring s ∧
  ss_heap (applyWriteDeadline c s).2 = ss_heap s ∧ ss_closed (applyWriteDeadline c s).2 = ss_closed s.
Proof. unfold applyWriteDeadline, warnWriteDeadlineUnsupported. by repeat case_match. Qed.

(** What a write changes: its own connection, which has the frame, or has lost
    its client. *)
Lemma writeFrame_conn id frame ok c s s' :
  writeFrame id frame ok c s = Some s' →
  ∃ c', ss_heap s' = <[id := c']> (ss_heap s) ∧ ss_conns s' = ss_conns s ∧ ss_ring s' = ss_ring s ∧
    ss_closed s' = ss_closed s ∧ (c' = written frame ok c ∨ c' = set_phase PExit c).
Proof.
  unfold writeFrame. pose proof (applyWriteDeadline_frame c s) as (Hf1 & Hf2 & Hf3 & Hf4).
  destruct (applyWriteDeadline c s) as [armed s1]. cbn in *.
  destruct (sc_stalled c); [destruct armed; [|done]|]; intros [= <-]; (eexists; cbn; rewrite Hf1, Hf2, Hf3, Hf4; do 4 (split; [done|]); auto).
Qed.

Lemma flush_preamble_conn id c s s' :
  flush_preamble id c s = Some s' →
  ∃ w, ss_heap s' = <[id := set_phase (PReplay (sc_replay c)) (set_rw w c)]> (ss_heap s) ∧
    ss_conns s' = ss_conns s ∧ ss_ring s' = ss_ring s ∧ ss_closed s' = ss_closed s ∧
    rw_body w = rw_body (run_rw sse_preamble (sc_rw c)) ∧ rw_status w = rw_status (run_rw sse_preamble (sc_rw c)).
Proof.
  unfold flush_preamble. pose proof (applyWriteDeadline_frame c s) as (Hf1 & Hf2 & Hf3 & Hf4).
  destruct (applyWriteDeadline c s) as [armed s1]. cbn in *.
  destruct (sc_stalled c); [destruct armed; [|done]|]; intros [= <-]; eexists; cbn; by rewrite Hf1, Hf2, Hf3, Hf4.
Qed.

(** A handler that has not exited changes only its own connection. *)
Lemma runWriter_conn cfg id a c s s' rep lv taken :
  stream_inv cfg rep lv taken c → runWriter cfg id a c s = Some s' → sc_phase c ≠ PExit →
  ∃ c', ss_heap s' = <[id := c']> (ss_heap s) ∧ ss_conns s' = ss_conns s ∧ ss_ring s' = ss_ring s ∧
    ss_closed s' = ss_closed s ∧ sc_phase c' ≠ PDone ∧ stream_inv cfg rep lv taken c'.
Proof.
  intros Hinv Hrun Hne. unfold runWriter in Hrun.
  destruct (sc_phase c) as [|[|f todo]| |ping f| |] eqn:Hph; try done.
  - apply flush_preamble_conn in Hrun as (w & Hh & ? & ? & ? & Hb & Hs). eexists. split_and!; [done..|by apply preamble_spec].
  - injection Hrun as <-. eexists. cbn. split_and!; try done. apply phase_ok; try done; unfold running, pending; by rewrite Hph.
  - apply writeFrame_conn in Hrun as (c' & Hh & ? & ? & ? & Hc'). exists c'. split_and!; [done..| |];
      destruct Hc' as [->| ->]; [by apply written_phase|done| |].
    + apply (written_spec _ _ _ _ _ false); try done; unfold running, pending; by rewrite ?Hph.
    + apply timeout_spec; [done| |by rewrite Hph]. unfold running. by rewrite Hph.
  - destruct a.
    + destruct (sc_cancelled c); [|done]. injection Hrun as <-. eexists. cbn. split_and!; try done.
      apply phase_ok; try done; unfold running, pending; by rewrite Hph.
    + destruct (sc_frames c) as [|fr rest] eqn:Hfr; [done|]. injection Hrun as <-. eexists. cbn. split_and!; try done.
      pose proof (st_buffer _ _ _ _ _ Hinv) as Hb. rewrite Hfr in Hb. cbn in Hb.
      apply phase_spec; try done; [..|lia]; unfold running, pending; rewrite Hph; cbn; by rewrite ?Hfr.
    + destruct (0 <? _); [|done]. injection Hrun as <-. eexists. cbn. split_and!; try done.
      apply phase_ok; try done; unfold running, pending; rewrite ?Hph; try done. by intros f [= <-].
  - apply writeFrame_conn in Hrun as (c' & Hh & ? & ? & ? & Hc'). exists c'. split_and!; [done..| |];
      destruct Hc' as [->| ->]; [by apply written_phase|done| |].
    + apply (written_spec _ _ _ _ _ ping); try done; unfold running, pending; rewrite ?Hph; try done.
      destruct ping; [|done]. split; [|done]. by apply (st_ping _ _ _ _ _ Hinv).
    + apply timeout_spec; [done| |by rewrite Hph]. unfold running. by rewrite Hph.
Qed.

(** *** The invariant *)

Section invariant.
Context (cfg : Config) (Hcfg : config_ok cfg).

(** A step that changes one connection and nothing the invariant reads. *)
Lemma inv_update h s s' id c' su :
  server_inv cfg h s → is_Some (ss_heap s !! id) → ss_conns s' = ss_conns s → ss_ring s' = ss_ring s →
  ss_heap s' = <[id := c']> (ss_heap s) → hs_subs h !! id = Some su →
  conn_inv cfg (hs_log h) su (bool_decide (id ∈ ss_conns s)) c' → server_inv cfg h s'.
Proof.
  intros [H1 H2 H3 H4 H5] Hid Hc Hr Hh Hsu Hinv. split; rewrite ?Hc, ?Hr; try done.
  - intros i Hi. rewrite Hh. apply lookup_insert_is_Some'. right. by apply H4.
  - intros i c. rewrite Hh. destruct (decide (id = i)) as [<-|Hne].
    + rewrite lookup_insert_eq. intros [= <-]. by exists su.
    + rewrite lookup_insert_ne by done. apply H5.
Qed.

(** The snapshot of the ring at registration. *)
Lemma snapshot_resumed log ring lastID :
  ring = entry <$> retained cfg log →
  (if (0 <? replaySize cfg) && negb (bool_decide (lastID = "")) then replayAfter lastID ring else []) =
  sse_frame <$> resumed cfg log (mkSub (length log) lastID None).
Proof.
  intros ->. unfold resumed. cbn. rewrite firstn_all.
  destruct (decide _) as [E|E]; [by rewrite (bool_decide_true _ E), andb_false_r|].
  rewrite (bool_decide_false _ E), andb_true_r, replayAfter_spec.
  destruct (Z.ltb_spec 0 (replaySize cfg)); [done|]. pose proof (co_replay _ Hcfg) as [? _].
  unfold retained, lastN. replace (Z.to_nat (replaySize cfg)) with 0%nat by (unfold replaySize in *; lia).
  by rewrite Nat.sub_0_r, drop_all.
Qed.

Lemma serve_inv h s id flusher deadline r w :
  server_inv cfg h s → ss_heap s !! id = None → fresh_rw w →
  server_inv cfg (observe cfg (AServe id flusher deadline r w) s h) (ServeHTTP cfg id flusher deadline r w s).2.
Proof.
  intros [H1 H2 H3 H4 H5] Hid Hw. cbn [observe]. unfold ServeHTTP.
  destruct (decide (r_Method r ≠ "GET")); [by split|]. destruct (ss_closed s) eqn:Hcl; [by split|].
  destruct (Z.leb_spec (maxConns cfg) (Z.of_nat (size (ss_conns s)))); [by split|].
  destruct flusher; [cbn [negb fst snd]|by split].
  assert (Hnew : id ∉ ss_conns s) by (intros Hin%H4; rewrite Hid in Hin; by destruct Hin).
  split; cbn [ss_conns ss_ring ss_heap hs_log hs_subs]; try done.
  - rewrite size_union, size_singleton by set_solver. lia.
  - intros i Hi. apply lookup_insert_is_Some'. destruct (decide (id = i)); [by left|]. right. apply H4. set_solver.
  - intros i c. destruct (decide (id = i)) as [<-|Hne].
    + rewrite !lookup_insert_eq. intros [= <-]. eexists. split; [done|].
      rewrite bool_decide_true by set_solver. split; cbn; [done|lia|]. exists [].
      unfold live. cbn. rewrite Nat.sub_diag, take_0. split; cbn; try done.
      * by apply snapshot_resumed.
      * destruct Hw as (? & ? & Hb). exists [], [], []. exists (resumed cfg (hs_log h) (mkSub (length (hs_log h)) (header_Get (r_Header r) "Last-Event-ID") None)), [].
        rewrite Hb. split_and!; try done.
        by apply snapshot_resumed.
      * pose proof (co_buffer _ Hcfg). unfold connBuffer. lia.
    + rewrite !lookup_insert_ne by done. intros Hc. destruct (H5 _ _ Hc) as (su & Hsu & Hinv). exists su. split; [done|].
      by rewrite (bool_decide_ext _ (i ∈ ss_conns s)) by set_solver.
Qed.

Lemma writer_inv h s id a c s' :
  server_inv cfg h s → ss_heap s !! id = Some c → runWriter cfg id a c s = Some s' →
  server_inv cfg (observe cfg (AWriter id a) s h) s'.
Proof.
  intros Hinv Hid Hrun. cbn [observe]. rewrite Hid.
  destruct (si_conn _ _ _ Hinv _ _ Hid) as (su & Hsu & [Hreg Hstart (taken & Hst)]). rewrite Hsu.
  destruct (decide (sc_phase c = PExit)) as [E|E].
  - unfold runWriter in Hrun. rewrite E in *. injection Hrun as <-.
    destruct (decide (id ∈ ss_conns s)) as [Hin|Hin]; [rewrite bool_decide_true in Hreg by done|
      rewrite bool_decide_false in Hreg by done; by destruct Hreg].
    destruct Hreg as [Hstop _]. destruct Hinv as [H1 H2 H3 H4 H5].
    split; cbn [unregister ss_conns ss_ring ss_heap hs_log hs_subs]; try done.
    + rewrite size_difference by set_solver. lia.
    + intros i Hi. apply lookup_insert_is_Some'. right. apply H4. set_solver.
    + intros i c'. destruct (decide (id = i)) as [<-|Hne].
      * rewrite !lookup_insert_eq. intros [= <-]. eexists. split; [done|].
        rewrite bool_decide_false by set_solver. rewrite Hstop in Hstart. cbn in Hstart.
        split; cbn; [by split|lia|]. exists taken.
        unfold live, resumed in *. rewrite Hstop in Hst. cbn in *. destruct Hst as [Hr Hb Hp Hs]. 
        unfold running, pending in Hb. rewrite E in *. by split.
      * rewrite !lookup_insert_ne by done. intros Hc. destruct (H5 _ _ Hc) as (su' & Hsu' & Hinv'). exists su'.
        split; [done|]. by rewrite (bool_decide_ext _ (i ∈ ss_conns s)) by set_solver.
  - destruct (runWriter_conn _ _ _ _ _ _ _ _ _ Hst Hrun E) as (c' & Hh & Hc & Hr & _ & Hd & Hst').
    assert (server_inv cfg h s'); [|by destruct (sc_phase c)].
    eapply inv_update; [done|by eexists|done..|]. split; [|done|by eexists].
    case_bool_decide; [by destruct Hreg|]. destruct Hreg as [_ Hdone]. unfold runWriter in Hrun. by rewrite Hdone in Hrun.
Qed.

Lemma frame_encoded ev : event_valid ev = true → (EncodeSSEEvent buffer_Write ev []).2 = sse_frame ev.
Proof.
  unfold event_valid, EncodeSSEEvent. intros [H1 H2]%andb_true_iff. by rewrite H1, H2.
Qed.

Lemma event_from_valid name m ev : SSEEventFromMessage name m = inr ev → event_valid ev = true.
Proof.
  unfold SSEEventFromMessage, event_valid. destruct (payloadBytes m); [done|].
  destruct (negb _ || negb _) eqn:E; [done|]. intros [= <-].
  apply orb_false_iff in E as [E1%negb_false_iff E2%negb_false_iff]. by rewrite E1, E2.
Qed.

Lemma with_id_snoc log ev : with_id (log ++ [ev]) = if decide (ev_ID ev = "") then with_id log else with_id log ++ [ev].
Proof.
  unfold with_id. rewrite list.filter_app, filter_cons, filter_nil.
  repeat destruct (decide _); try done. by rewrite app_nil_r.
Qed.

Lemma send_inv h s m : server_inv cfg h s → server_inv cfg (observe cfg (ASend m) s h) (Send cfg m s).2.
Proof.
  intros [H1 H2 H3 H4 H5]. cbn [observe]. unfold Send.
  destruct (SSEEventFromMessage _ m) as [err|ev] eqn:Hev; [by split|].
  apply event_from_valid in Hev. rewrite (frame_encoded _ Hev).
  destruct (ss_closed s) eqn:Hcl; [by split|]. cbn [fst snd].
  split; cbn [ss_conns ss_ring ss_heap hs_log hs_subs]; try done.
  - unfold retained in *. rewrite H2, with_id_snoc. pose proof (co_replay _ Hcfg) as [? _].
    destruct (decide (ev_ID ev = "")) as [E|E]; [by rewrite (bool_decide_true _ E), andb_false_r|].
    rewrite (bool_decide_false _ E), andb_true_r. destruct (Z.ltb_spec 0 (replaySize cfg)).
    + rewrite <-appendRing_lastN by lia. done.
    + unfold lastN. replace (Z.to_nat (replaySize cfg)) with 0%nat by (unfold replaySize in *; lia).
      by rewrite !Nat.sub_0_r, !drop_all.
  - apply Forall_app. by split; [|constructor].
  - intros id Hid. unfold fan_out. rewrite map_lookup_imap. destruct (H4 _ Hid) as [c ->]. by eexists.
  - intros id c'. unfold fan_out. rewrite map_lookup_imap. destruct (ss_heap s !! id) as [c|] eqn:Hc; [|done].
    cbn. intros [= <-]. destruct (H5 _ _ Hc) as (su & Hsu & [Hreg Hstart (taken & Hst)]). exists su. split; [done|].
    destruct (decide (id ∈ ss_conns s)) as [Hin|Hin].
    + rewrite bool_decide_true in * by done. destruct Hreg as [Hstop Hph]. rewrite Hstop in Hstart. cbn in Hstart.
      destruct (offer_spec _ _ _ _ ev _ Hst) as [taken' Hst']. split.
      * split; [done|]. unfold offer. by repeat case_match.
      * rewrite Hstop, length_app. cbn. lia.
      * exists taken'. by rewrite resumed_snoc, live_snoc by (done || lia).
    + rewrite bool_decide_false in * by done. destruct Hreg as [[n Hstop] Hph]. rewrite Hstop in Hstart. cbn in Hstart.
      split; [by split|rewrite Hstop, length_app; cbn; lia|]. exists taken.
      by rewrite resumed_snoc, (live_stopped _ _ _ n) by (done || lia).
Qed.

Lemma reachable_inv h s : reachable cfg h s → server_inv cfg h s.
Proof.
  induction 1 as [|h s a s' Hr IH Hstep].
  - pose proof (co_conns _ Hcfg). split; try done. unfold maxConns. cbn [ss_conns]. rewrite size_empty. lia.
  - destruct a as [id fl dl r w|id a|m| |id|id b]; cbn [sse_step] in Hstep.
    + destruct (decide _) as [[]|]; [|done]. injection Hstep as <-. by apply serve_inv.
    + destruct (ss_heap s !! id) as [c|] eqn:Hc; [|done]. by eapply writer_inv.
    + injection Hstep as <-. by apply send_inv.
    + injection Hstep as <-. by destruct IH.
    + injection Hstep as <-. cbn [observe]. unfold cancel_conn. destruct (ss_heap s !! id) as [c|] eqn:Hc; [|done].
      destruct (si_conn _ _ _ IH _ _ Hc) as (su & Hsu & [Hreg Hstart (taken & Hst)]).
      eapply inv_update; [done|by eexists|done..|]. split; [done|done|]. exists taken. by apply cancel_spec.
    + cbn [observe]. destruct (ss_heap s !! id) as [c|] eqn:Hc; [|done]. injection Hstep as <-.
      destruct (si_conn _ _ _ IH _ _ Hc) as (su & Hsu & [Hreg Hstart (taken & Hst)]).
      eapply inv_update; [done|by eexists|done..|]. split; [done|done|]. exists taken. by apply stalled_spec.
Qed.

End invariant.

(** ** Properties *)

Lemma new_server_config opts cfg s : NewSSEServer opts = inr (cfg, s) → config_ok cfg ∧ s = mkServer ∅ false [] false ∅ [].
Proof.
  unfold NewSSEServer. intros (c & Hc & [= <- <-])%sum_bind_inr. split; [|done]. unfold config_at in Hc.
  destruct (first_nil 0 opts); [done|]. by eapply config_resolved.
Qed.

(** The hub's memory is bounded on every interleaving of registrations, sends,
    handlers and closes: never more connections than WithMaxConnections, never
    more frames in a connection's channel than WithConnectionBuffer, and the
    replay ring holds exactly the last WithReplayBuffer events that carry an id,
    in the order they were sent. *)
Theorem sse_server_bounded opts cfg s0 h s :
  NewSSEServer opts = inr (cfg, s0) → reachable cfg h s →
  Z.of_nat (size (ss_conns s)) ≤ maxConns cfg ≤ maxConnectionsCeiling ∧
  (∀ id c, ss_heap s !! id = Some c → Z.of_nat (length (sc_frames c)) ≤ connBuffer cfg) ∧
  Z.of_nat (length (ss_ring s)) ≤ replaySize cfg ∧
  ss_ring s = entry <$> lastN (Z.to_nat (replaySize cfg)) (with_id (hs_log h)) ∧
  (∀ id, id ∈ ss_conns s ↔ ∃ c, ss_heap s !! id = Some c ∧ sc_phase c ≠ PDone).
Proof.
  intros [Hcfg _]%new_server_config Hr%(reachable_inv _ Hcfg). destruct Hr as [H1 H2 H3 H4 H5].
  pose proof (co_conns _ Hcfg). pose proof (co_replay _ Hcfg). split_and!; try done; try (unfold maxConns in *; lia).
  - intros id c Hc. destruct (H5 _ _ Hc) as (su & _ & [_ _ [taken Hst]]). by eapply st_buffer.
  - rewrite H2, length_fmap. unfold retained. pose proof (lastN_length (Z.to_nat (replaySize cfg)) (with_id (hs_log h))).
    unfold replaySize in *. lia.
  - intros id. split.
    + intros Hin. destruct (H4 _ Hin) as [c Hc]. exists c. split; [done|].
      destruct (H5 _ _ Hc) as (su & _ & [Hreg _ _]). rewrite bool_decide_true in Hreg by done. by destruct Hreg.
    + intros (c & Hc & Hph). destruct (H5 _ _ Hc) as (su & _ & [Hreg _ _]). case_bool_decide; [done|]. by destruct Hreg.
Qed.

(** C7. What a client receives is what the hub promises it, on every interleaving: the
    bytes written to a connection are whole frames of a prefix of the retained
    events after its Last-Event-ID followed by events sent while it was
    registered, in order and without a gap between the two, with heartbeats
    anywhere, and at most one unfinished frame at the end of a connection whose
    write failed. Under SlowClientDrop the events missing from the live part
    are exactly as many as the connection's drop counter says; what is not yet
    written is in the handler's hand or in the channel. *)
Theorem sse_stream_exact opts cfg s0 h s id c :
  NewSSEServer opts = inr (cfg, s0) → reachable cfg h s → ss_heap s !! id = Some c →
  ∃ su items tail rest taken,
    hs_subs h !! id = Some su ∧ rw_body (sc_rw c) = wire items ++ tail ∧
    omap (λ f, f) items ++ rest = resumed cfg (hs_log h) su ++ taken ∧
    taken `sublist_of` live (hs_log h) su ∧
    (slowPolicy cfg = SlowClientDrop → Z.of_nat (length taken) + sc_dropped c = Z.of_nat (length (live (hs_log h) su))) ∧
    (running c = true → tail = [] ∧ sse_frame <$> rest = pending c ++ sc_frames c).
Proof.
  intros [Hcfg _]%new_server_config Hr%(reachable_inv _ Hcfg) Hc.
  destruct (si_conn _ _ _ Hr _ _ Hc) as (su & Hsu & [_ _ (taken & Hst)]).
  destruct (st_body _ _ _ _ _ Hst) as (items & tail & lost & pend & queue & Hb & Hrun & Hp & Hq & Hs).
  exists su, items, tail, (lost ++ pend ++ queue), taken. split_and!; try done.
  - by eapply st_sub.
  - intros Hpol. apply (st_count _ _ _ _ _ Hst). by rewrite Hpol.
  - intros [-> ->]%Hrun. by rewrite Hp, Hq, <-fmap_app.
Qed.

(** *** End to end *)

Lemma received_events id items : received id items = received id (Some <$> omap (λ f, f) items).
Proof. revert id. induction items as [|[ev|] items IH]; intros id; cbn; [done|by rewrite <-IH|done]. Qed.

Lemma elem_of_drop_sub {A} n (l : list A) x : x ∈ drop n l → x ∈ l.
Proof. intros H. rewrite <-(take_drop n l). apply elem_of_app. by right. Qed.
Lemma elem_of_take_sub {A} n (l : list A) x : x ∈ take n l → x ∈ l.
Proof. intros H. rewrite <-(take_drop n l). apply elem_of_app. by left. Qed.

Lemma after_last_sub id l r e : after_last id l = Some r → e ∈ r → e ∈ l.
Proof. intros (n & _ & ->)%after_last_drop. apply elem_of_drop_sub. Qed.

Lemma promised_log cfg log su e : e ∈ resumed cfg log su ++ live log su → e ∈ log.
Proof.
  rewrite elem_of_app. intros [H|H].
  - unfold resumed in H. destruct (decide _); [by apply not_elem_of_nil in H|].
    destruct (after_last _ _) as [r|] eqn:E; [|by apply not_elem_of_nil in H].
    apply (after_last_sub _ _ _ _ E) in H. unfold retained, lastN, with_id in H.
    apply elem_of_drop_sub, list_elem_of_filter in H as [_ H]. by eapply elem_of_take_sub.
  - unfold live in H. by apply elem_of_take_sub, elem_of_drop_sub in H.
Qed.

Lemma sublist_full {A} (l k : list A) : l `sublist_of` k → length l = length k → l = k.
Proof.
  induction 1 as [|x l k H IH|x l k H IH]; cbn; [done| |]; intros E; [f_equal; auto|].
  apply sublist_length in H. lia.
Qed.

(** A connection whose handler is idle has received what it is promised. *)
Lemma idle_body cfg h s id c :
  config_ok cfg → reachable cfg h s → ss_heap s !! id = Some c → sc_phase c = PSelect → sc_frames c = [] →
  slowPolicy cfg = SlowClientDrop → sc_dropped c = 0 →
  ∃ su items, hs_subs h !! id = Some su ∧ rw_body (sc_rw c) = wire items ∧
    omap (λ f, f) items = resumed cfg (hs_log h) su ++ live (hs_log h) su ∧
    Forall (λ e, event_valid e = true) (omap (λ f, f) items).
Proof.
  intros Hcfg Hr%(reachable_inv _ Hcfg) Hc Hph Hfr Hpol Hd.
  destruct (si_conn _ _ _ Hr _ _ Hc) as (su & Hsu & [_ _ (taken & Hst)]).
  destruct (st_body _ _ _ _ _ Hst) as (items & tail & lost & pend & queue & Hb & Hrun & Hp & Hq & Hs).
  destruct Hrun as [-> ->]; [unfold running; by rewrite Hph|].
  unfold pending in Hp. rewrite Hph in Hp. rewrite Hfr in Hq.
  symmetry in Hp, Hq. apply fmap_nil_inv in Hp as ->. apply fmap_nil_inv in Hq as ->.
  rewrite !app_nil_r in *. cbn in Hs.
  assert (taken = live (hs_log h) su) as ->.
  { apply sublist_full; [by eapply st_sub|]. assert (Hne : slowPolicy cfg ≠ SlowClientDisconnect) by by rewrite Hpol.
    pose proof (st_count _ _ _ _ _ Hst Hne). lia. }
  exists su, items. split_and!; try done. rewrite Hs. apply Forall_forall. intros e He%promised_log.
  pose proof (si_valid _ _ _ Hr) as Hv. rewrite Forall_forall in Hv. by apply Hv.
Qed.

(** C29. End to end, for a server under SlowClientDrop and a connection for which
    it has dropped no event: a client that parses
    the bytes of such a connection, once its handler has caught up, gets, with any cap its events and a heartbeat fit, exactly the events it missed
    since its Last-Event-ID and those sent since it connected: each once, in
    order, the payload with its line terminators normalized, whatever bytes
    the payloads hold and however handlers, sends and heartbeats interleaved. *)
Theorem sse_end_to_end opts cfg s0 h s id c max p0 r0 :
  NewSSEServer opts = inr (cfg, s0) → reachable cfg h s → ss_heap s !! id = Some c →
  sc_phase c = PSelect → sc_frames c = [] → slowPolicy cfg = SlowClientDrop → sc_dropped c = 0 → 6 ≤ max →
  Forall (λ e, event_fits max e = true) (hs_log h) → 
  newSSEParserWithCap (rw_body (sc_rw c)) (Sentinel io_EOF) max = (p0, r0) →
  ∃ su p', hs_subs h !! id = Some su ∧
    read_stream p0 r0 =
      Some (received "" (Some <$> (resumed cfg (hs_log h) su ++ live (hs_log h) su)), Sentinel io_EOF, p').
Proof.
  intros [Hcfg _]%new_server_config Hr Hc Hph Hfr Hpol Hd Hmax Hfit Hp.
  destruct (idle_body _ _ _ _ _ Hcfg Hr Hc Hph Hfr Hpol Hd) as (su & items & Hsu & Hb & Hi & Hv).
  rewrite Hb in Hp. eapply parse_wire in Hp as [p' Hp']; [|rewrite forallb_forall|lia].
  { exists su, p'. split; [done|]. by rewrite Hp', received_events, Hi. }
  intros [ev|] Hin; [|cbn; by apply Z.leb_le]. apply list_elem_of_In in Hin.
  assert (ev ∈ omap (λ f, f) items) as He by (apply list_elem_of_omap; eauto).
  cbn. rewrite Forall_forall in Hv, Hfit. rewrite (Hv _ He). rewrite Hi in He. by rewrite (Hfit _ (promised_log _ _ _ _ He)).
Qed.

(** *** Concrete runs *)

Fixpoint run (cfg : Config) (acts : list action) (hs : history * SSEServer) : option (history * SSEServer) :=
  match acts with
  | [] => Some hs
  | a :: rest =>
      match sse_step cfg a hs.2 with
      | Some s' => run cfg rest (observe cfg a hs.2 hs.1, s')
      | None => None
      end
  end.

Lemma run_reachable cfg acts h s h' s' : reachable cfg h s → run cfg acts (h, s) = Some (h', s') → reachable cfg h' s'.
Proof.
  revert h s. induction acts as [|a acts IH]; intros h s Hr; cbn; [by intros [= <- <-]|].
  destruct (sse_step cfg a s) as [s1|] eqn:E; [|done]. apply IH. by econstructor.
Qed.

Definition sse_init : history * SSEServer := (mkHistory [] ∅, mkServer ∅ false [] false ∅ []).
Definition config_of (opts : list (option Option)) : Config :=
  match NewSSEServer opts with inr (cfg, _) => cfg | inl _ => zeroConfig end.

Definition text (id body : string) : msg :=
  NewMessage (AString body) (mkHeaders (Some {[HeaderMessageID := AString id]})).
Definition get_request (last : string) : Request :=
  mkRequest "GET" "/" "" "10.0.0.1:5" {["Last-Event-Id" := [last]]} None.
Definition rw0 : ResponseWriter := mkRW ∅ [] None ∅ [] None.
Definition body_at (hs : option (history * SSEServer)) (id : nat) : option bytes :=
  hs ≫= λ hs, (λ c, rw_body (sc_rw c)) <$> ss_heap hs.2 !! id.

Definition demo_opts : list (option Option) :=
  [Some (OConnectionBuffer 1); Some (OReplayBuffer 2); Some (OHeartbeat second)].
(** Three events before a client resumes from the second; it falls behind once
    and then catches up. *)
Definition demo_acts : list action :=
  [ASend (text "1" "a"); ASend (text "2" "b"); ASend (text "3" "c"); AServe 7 true false (get_request "2") rw0;
   AWriter 7 ArmDone; ASend (text "4" "d"); AWriter 7 ArmDone; AWriter 7 ArmDone; AWriter 7 ArmTick;
   AWriter 7 ArmDone; AWriter 7 ArmFrame; AWriter 7 ArmDone].
Definition demo_state : history * SSEServer := default sse_init (run (config_of demo_opts) demo_acts sse_init).

Lemma demo_reachable : reachable (config_of demo_opts) demo_state.1 demo_state.2.
Proof. eapply (run_reachable _ demo_acts); [apply reach_init|]. vm_compute. reflexivity. Qed.

Lemma sse_server_bounded_witness :
  length (ss_ring demo_state.2) = 2%nat ∧ Z.of_nat (length (ss_ring demo_state.2)) ≤ replaySize (config_of demo_opts).
Proof.
  split; [vm_compute; reflexivity|].
  destruct (sse_server_bounded demo_opts (config_of demo_opts) sse_init.2 demo_state.1 demo_state.2)
    as (_ & _ & H & _); [vm_compute; reflexivity|exact demo_reachable|exact H].
Defined.

Definition demo_conn : sseConn :=
  default (mkConn [] false [] "" false 0 PDone false false rw0) (ss_heap demo_state.2 !! 7%nat).

Lemma sse_stream_exact_witness :
  ∃ su items tail rest taken,
    hs_subs demo_state.1 !! 7%nat = Some su ∧ rw_body (sc_rw demo_conn) = wire items ++ tail ∧
    omap (λ f, f) items ++ rest = resumed (config_of demo_opts) (hs_log demo_state.1) su ++ taken.
Proof.
  destruct (sse_stream_exact demo_opts (config_of demo_opts) sse_init.2 demo_state.1 demo_state.2 7 demo_conn)
    as (su & items & tail & rest & taken & H1 & H2 & H3 & _);
    [vm_compute; reflexivity|exact demo_reachable|vm_compute; reflexivity|].
  exists su, items, tail, rest, taken. exact (conj H1 (conj H2 H3)).
Defined.

Lemma sse_end_to_end_witness :
  ∃ su p', hs_subs demo_state.1 !! 7%nat = Some su ∧
    read_stream (mkSSEParser 32 (Sentinel io_EOF) [] "" "" 0 false) (rw_body (sc_rw demo_conn)) =
      Some (received "" (Some <$> (resumed (config_of demo_opts) (hs_log demo_state.1) su ++ live (hs_log demo_state.1) su)),
            Sentinel io_EOF, p').
Proof.
  apply (sse_end_to_end demo_opts (config_of demo_opts) sse_init.2 demo_state.1 demo_state.2 7 demo_conn 32);
    [vm_compute; reflexivity|exact demo_reachable|vm_compute; reflexivity..|discriminate| |vm_compute; reflexivity].
  repeat constructor.
Defined.

(** Send fails only for a reason no retry can fix, and then reaches nobody: every
    error is permanent and leaves the hub as it was (no frame queued, nothing
    added to the ring); it is ErrUnsupportedPayload, ErrInvalidEventField or,
    exactly for a valid event on a closed server, ErrSSEServerClosed. *)
Theorem sse_send_errors cfg m s :
  match Send cfg m s with
  | (Some err, s') =>
      s' = s ∧ IsPermanent (Some err) = true ∧
      (Is err ErrUnsupportedPayload = true ∨ Is err ErrInvalidEventField = true ∨
       (Is err ErrSSEServerClosed = true ∧ ss_closed s = true))
  | (None, s') =>
      ss_closed s = false ∧ ss_conns s' = ss_conns s ∧
      ∃ ev, SSEEventFromMessage (eventNameOrDefault (Some cfg)) m = inr ev ∧ event_valid ev = true
  end.
Proof.
  unfold Send. destruct (SSEEventFromMessage _ m) as [err|ev] eqn:Hev.
  - unfold SSEEventFromMessage, payloadBytes in Hev. split_and!; [done|apply IsPermanent_Permanent|]. repeat case_match; simplify_eq; auto.
  - pose proof (event_from_valid _ _ _ Hev). destruct (ss_closed s) eqn:Hcl; cbn.
    + split_and!; auto.
    + split_and!; eauto.
Qed.

(** *** Close *)

(** What the handler of a connection still does at most, heartbeats apart. *)
Definition work (c : sseConn) : nat :=
  (match sc_phase c with
   | PStart => length (sc_replay c) + 6
   | PReplay todo => length todo + 4
   | PSelect => 2
   | PWrite _ _ => 3
   | PExit => 1
   | PDone => 0
   end + match sc_phase c with PExit | PDone => 0 | _ => 3 * length (sc_frames c) end)%nat.

(** The operations of the handler of a connection, and those of them at which it
    may have taken the ticker's arm. *)
Definition writer_steps (id : nat) (acts : list action) : nat :=
  countb (λ a, match a with AWriter i _ => bool_decide (i = id) | _ => false end) acts.
Definition ticks (id : nat) (acts : list action) : nat :=
  countb (λ a, match a with AWriter i ArmTick => bool_decide (i = id) | _ => false end) acts.

Lemma written_work frame ok c :
  sc_frames (written frame ok c) = sc_frames c ∧ sc_cancelled (written frame ok c) = sc_cancelled c ∧
  sc_deadline (written frame ok c) = sc_deadline c ∧
  (sc_phase (written frame ok c) = ok ∨ sc_phase (written frame ok c) = PExit).
Proof. unfold written. repeat case_match; cbn; auto. Qed.

(** A connection after a write of its own: still cancelled, with the same
    channel and writer. *)
Lemma write_work id frame ok c s s' :
  writeFrame id frame ok c s = Some s' →
  ∃ c', ss_heap s' = <[id := c']> (ss_heap s) ∧ ss_closed s' = ss_closed s ∧
    sc_cancelled c' = sc_cancelled c ∧ sc_deadline c' = sc_deadline c ∧ sc_frames c' = sc_frames c ∧
    (sc_phase c' = ok ∨ sc_phase c' = PExit).
Proof.
  intros (c' & Hh & _ & _ & Hcl & [->| ->])%writeFrame_conn; (eexists; split; [done|split; [done|]]);
    [|cbn; auto]. destruct (written_work frame ok c) as (? & ? & ? & ?). by split_and!.
Qed.

(** A step of a handler leaves it less to do, a heartbeat apart. *)
Lemma writer_work cfg id arm c s s' :
  runWriter cfg id arm c s = Some s' →
  ∃ c', ss_heap s' = <[id := c']> (ss_heap s) ∧ ss_closed s' = ss_closed s ∧
    (sc_cancelled c = true → sc_cancelled c' = true) ∧ sc_deadline c' = sc_deadline c ∧
    (S (work c') ≤ work c + match arm with ArmTick => 2 | _ => 0 end)%nat.
Proof.
  unfold runWriter, work. destruct (sc_phase c) as [|[|f todo]| |ping f| |] eqn:Hph; [| | |destruct arm| | |]; try done.
  - intros (w & Hh & _ & _ & Hcl & _)%flush_preamble_conn. eexists. split; [done|]. split; [done|]. cbn. split_and!; [done..|lia].
  - intros [= <-]. eexists. cbn. split_and!; try done. cbn. lia.
  - intros (c' & Hh & Hcl & Hcan & Hdl & Hfr & Hp)%write_work. exists c'. rewrite Hcan, Hdl, Hfr.
    split_and!; [done..|]. destruct Hp as [-> | ->]; cbn; lia.
  - destruct (sc_cancelled c) eqn:Hcan; [|done]. intros [= <-]. eexists. cbn. split_and!; try done. cbn. lia.
  - destruct (sc_frames c) as [|fr rest]; [done|]. intros [= <-]. eexists. cbn. split_and!; try done. cbn. lia.
  - destruct (0 <? _); [|done]. intros [= <-]. eexists. cbn. split_and!; try done. cbn. lia.
  - intros (c' & Hh & Hcl & Hcan & Hdl & Hfr & Hp)%write_work. exists c'. rewrite Hcan, Hdl, Hfr.
    split_and!; [done..|]. destruct Hp as [-> | ->]; cbn; lia.
  - intros [= <-]. eexists. cbn. split_and!; try done. cbn. lia.
Qed.

(** On a closed server a step leaves every connection in place, with its writer,
    and cancelled ones cancelled. *)
Lemma closed_step cfg a s s' id c :
  ss_closed s = true → sse_step cfg a s = Some s' → ss_heap s !! id = Some c →
  ss_closed s' = true ∧ ∃ c', ss_heap s' !! id = Some c' ∧ (sc_cancelled c = true → sc_cancelled c' = true) ∧
    sc_deadline c' = sc_deadline c ∧ (writer_steps id [a] + work c' ≤ work c + 2 * ticks id [a])%nat.
Proof.
  intros Hcl Hstep Hc.
  assert (Hsame : ∀ c', sc_cancelled c' = sc_cancelled c ∨ sc_cancelled c' = true → sc_deadline c' = sc_deadline c →
    work c' = work c → writer_steps id [a] = 0%nat → (sc_cancelled c = true → sc_cancelled c' = true) ∧
    sc_deadline c' = sc_deadline c ∧ (writer_steps id [a] + work c' ≤ work c + 2 * ticks id [a])%nat).
  { intros c' Hcan Hdl Hw Hn. split; [intros; destruct Hcan; congruence|]. split; [done|]. lia. }
  destruct a as [i fl dl r w|i arm|m| |i|i b]; cbn [sse_step] in Hstep.
  - destruct (decide _); [|done]. injection Hstep as <-. unfold ServeHTTP. rewrite Hcl.
    destruct (decide _); (split; [done|]; exists c; split; [done|]; by apply Hsame; auto).
  - destruct (ss_heap s !! i) as [ci|] eqn:Hci; [|done].
    destruct (writer_work _ _ _ _ _ _ Hstep) as (c' & -> & -> & Hcan & Hdl & Hw). split; [done|].
    unfold writer_steps, ticks in *. cbn [countb] in *. destruct (decide (i = id)) as [->|Hne].
    + rewrite lookup_insert_eq. simplify_eq. exists c'. split_and!; [done..|].
      destruct arm; rewrite !bool_decide_true by done; lia.
    + rewrite lookup_insert_ne by done. exists c. split; [done|]. apply Hsame; auto.
      by rewrite bool_decide_false.
  - injection Hstep as <-. unfold Send. destruct (SSEEventFromMessage _ m); rewrite ?Hcl;
      (split; [done|]; exists c; split; [done|]; by apply Hsame; auto).
  - injection Hstep as <-. split; [done|]. exists c. split; [done|]. by apply Hsame; auto.
  - injection Hstep as <-. unfold cancel_conn. destruct (ss_heap s !! i) as [ci|] eqn:Hci.
    2:{ split; [done|]. exists c. split; [done|]. by apply Hsame; auto. }
    cbn. split; [done|]. destruct (decide (i = id)) as [->|Hne].
    + rewrite lookup_insert_eq. simplify_eq. eexists. split; [done|]. by apply Hsame; auto.
    + rewrite lookup_insert_ne by done. exists c. split; [done|]. by apply Hsame; auto.
  - destruct (ss_heap s !! i) as [ci|] eqn:Hci; [|done]. injection Hstep as <-. split; [done|]. cbn.
    destruct (decide (i = id)) as [->|Hne].
    + rewrite lookup_insert_eq. simplify_eq. eexists. split; [done|]. by apply Hsame; auto.
    + rewrite lookup_insert_ne by done. exists c. split; [done|]. by apply Hsame; auto.
Qed.

Lemma closed_run cfg acts h s h' s' id c :
  ss_closed s = true → run cfg acts (h, s) = Some (h', s') → ss_heap s !! id = Some c →
  ss_closed s' = true ∧ ∃ c', ss_heap s' !! id = Some c' ∧ (sc_cancelled c = true → sc_cancelled c' = true) ∧
    sc_deadline c' = sc_deadline c ∧ (writer_steps id acts + work c' ≤ work c + 2 * ticks id acts)%nat.
Proof.
  revert h s c. induction acts as [|a acts IH]; intros h s c Hcl; cbn [run fst snd].
  - intros [= <- <-] Hc. split; [done|]. exists c. split_and!; [done..|]. cbn. lia.
  - intros Hrun Hc. destruct (sse_step cfg a s) as [s1|] eqn:Hstep; [|done].
    destruct (closed_step _ _ _ _ _ _ Hcl Hstep Hc) as (Hcl1 & c1 & Hc1 & Hcan1 & Hdl1 & Hw1).
    destruct (IH _ _ _ Hcl1 Hrun Hc1) as (Hcl2 & c2 & Hc2 & Hcan2 & Hdl2 & Hw2). split; [done|]. exists c2.
    split_and!; [done|auto|congruence|]. unfold writer_steps, ticks in *. cbn [countb] in *. lia.
Qed.

(** With a deadline on its writes, or a client that reads, a cancelled handler
    can go on. *)
Lemma write_returns id frame ok c s :
  sc_deadline c = true ∨ sc_stalled c = false → is_Some (writeFrame id frame ok c s) ∧ is_Some (flush_preamble id c s).
Proof.
  unfold writeFrame, flush_preamble, applyWriteDeadline. intros [-> | ->].
  - destruct (sc_stalled c); split; by eexists.
  - destruct (sc_deadline c); split; by eexists.
Qed.

Lemma closed_progress cfg s id c :
  ss_heap s !! id = Some c → sc_cancelled c = true → sc_deadline c = true ∨ sc_stalled c = false →
  is_done s id = false → is_Some (sse_step cfg (AWriter id ArmDone) s).
Proof.
  unfold is_done. cbn. intros -> Hcan Hw Hd. unfold runWriter. rewrite Hcan.
  destruct (sc_phase c) as [|[|f todo]| |ping f| |]; try by eauto.
  - by apply (write_returns id [] PSelect c s).
  - by apply write_returns.
  - by apply write_returns.
Qed.

(** C39. Close can always be joined, also when clients have stopped reading: once
    the server is closed and a connection's context is cancelled, and if its
    writer takes deadlines, its handler always has a next operation until it
    has unregistered, whenever its client stops reading or goes on, since the
    deadline ends the write; and on every schedule of all the goroutines and
    clients it takes at most [work c] operations, whatever it still had to
    replay or had queued, and two for each heartbeat; no later send or request
    gives it more to do. *)
Theorem sse_close_joins cfg acts h s h' s' id c :
  ss_closed s = true → ss_heap s !! id = Some c → sc_cancelled c = true → sc_deadline c = true →
  run cfg acts (h, s) = Some (h', s') →
  (writer_steps id acts ≤ work c + 2 * ticks id acts)%nat ∧
  (writer_steps id acts = (work c + 2 * ticks id acts)%nat → is_done s' id = true) ∧
  (is_done s' id = false → is_Some (sse_step cfg (AWriter id ArmDone) s')).
Proof.
  intros Hcl Hc Hcan Hdl Hrun.
  destruct (closed_run _ _ _ _ _ _ _ _ Hcl Hrun Hc) as (_ & c' & Hc' & Hcan' & Hdl' & Hw).
  split_and!; [lia| |].
  - intros E. unfold is_done. rewrite Hc'. unfold work in Hw at 1. destruct (sc_phase c'); (done || lia).
  - apply (closed_progress cfg s' id c' Hc'); [auto|left; congruence].
Qed.

(** Without a deadline a handler in a write to a client that has stopped reading
    stays there, cancelled or not: what the warning is about. *)
Theorem stalled_without_deadline cfg s id c arm frame ping :
  ss_heap s !! id = Some c → sc_phase c = PWrite ping frame → sc_stalled c = true → sc_deadline c = false →
  sse_step cfg (AWriter id arm) s = None.
Proof.
  intros Hc Hph Hst Hdl. cbn. rewrite Hc. unfold runWriter, writeFrame, applyWriteDeadline. by rewrite Hph, Hst, Hdl.
Qed.

(** A client that stops reading in the middle of its stream, with a full buffer
    and a heartbeat due, when the server closes. *)
Definition close_acts : list action :=
  [AServe 7 true true (get_request "") rw0; AWriter 7 ArmDone; AWriter 7 ArmDone; ASend (text "1" "a"); AStall 7 true;
   AWriter 7 ArmFrame; ASend (text "2" "b"); ACloseLock; ACancel 7].
Definition close_state : history * SSEServer := default sse_init (run (config_of demo_opts) close_acts sse_init).
Definition close_conn : sseConn :=
  default (mkConn [] false [] "" false 0 PDone false false rw0) (ss_heap close_state.2 !! 7%nat).
Definition join_acts : list action := [AWriter 7 ArmTick; ASend (text "3" "c"); AWriter 7 ArmDone].
Definition joined_state : history * SSEServer := default sse_init (run (config_of demo_opts) join_acts close_state).

Lemma sse_close_joins_witness :
  (sc_stalled close_conn = true ∧ sc_frames close_conn ≠ []) ∧
  (writer_steps 7 join_acts ≤ work close_conn + 2 * ticks 7 join_acts)%nat ∧ is_done joined_state.2 7 = true.
Proof.
  split; [split; vm_compute; done|]. split; [|vm_compute; reflexivity].
  apply (sse_close_joins (config_of demo_opts) join_acts close_state.1 close_state.2 joined_state.1 joined_state.2 7 close_conn);
    vm_compute; reflexivity.
Defined.

(** SlowClientDisconnect does drop individual events of a client it goes on
    serving: a Send that finds the buffer full cancels the connection, which
    stays registered until its handler takes the Done arm, so that a later Send
    is queued and written. The client has then received an event after the one
    it missed, and the Last-Event-ID it reconnects with skips it for good,
    although the replay ring still holds it. *)
Theorem disconnect_policy_gap :
  let cfg := config_of [Some (OConnectionBuffer 1); Some (OReplayBuffer 8); Some (OSlowClientPolicy SlowClientDisconnect)] in
  let acts :=
    [AServe 1 true true (get_request "") rw0; AWriter 1 ArmDone; AWriter 1 ArmDone;
     ASend (text "1" "a"); ASend (text "2" "b"); AWriter 1 ArmFrame; AWriter 1 ArmDone;
     ASend (text "3" "c"); AWriter 1 ArmFrame; AWriter 1 ArmDone; AWriter 1 ArmDone; AWriter 1 ArmDone;
     AServe 2 true true (get_request "3") rw0; AWriter 2 ArmDone; AWriter 2 ArmDone] in
  let hs := run cfg acts sse_init in
  body_at hs 1 = Some (wire [Some (mkSSEEvent "1" "" (bytes_of "a")); Some (mkSSEEvent "3" "" (bytes_of "c"))]) ∧
  body_at hs 2 = Some [] ∧
  (λ hs, re_id <$> ss_ring hs.2) <$> hs = Some ["1"; "2"; "3"].
Proof. split_and!; vm_compute; reflexivity. Qed.
