(* ===== verification/HttpOutbound.v ===== *)
(** * The outbound HTTP adapters

    [adapter/http/outbound.go] and [adapter/http/exchange.go] with the helpers of
    [adapter/http/encode.go] they share with the inbound side: the request made
    of a message, the classification of a response into permanent, transient and
    retry-after errors, the webhook [Outbound] and the request-reply [Exchange].

    Of the standard library, [lower] is strings.ToLower, [trim] strings.TrimSpace,
    [url_Parse] url.Parse (its scheme and host), [ParseTime] http.ParseTime,
    [Quote] strconv.Quote, [Do] the client's round trip over an environment [W] and
    [Close] the release of a response's body; a body is the bytes it yields and
    the error after them. *)

From Stdlib Require Import Ascii.
From S2P Require Import Prelude Message SSE NetHttp HttpConfig.

Local Open Scope Z_scope.

Definition ErrEmptyURL : sentinel := OtherSentinel "msghttp.ErrEmptyURL".
Definition ErrInvalidURL : sentinel := OtherSentinel "msghttp.ErrInvalidURL".
Definition ErrReplyTooLarge : sentinel := OtherSentinel "msghttp.ErrReplyTooLarge".
Definition ErrNilResponse : sentinel := OtherSentinel "msghttp.ErrNilResponse".
Definition ErrOutboundStatus : sentinel := OtherSentinel "msghttp.ErrOutboundStatus".
Definition ErrOutboundTransport : sentinel := OtherSentinel "msghttp.ErrOutboundTransport".

(** ** Bodies *)

Definition body : Type := bytes * error.

(** [io.ReadAll(io.LimitReader(b, n))]: the bytes, the error, what is left. *)
Definition read_limited (n : Z) (b : body) : bytes * option error * body :=
  let '(data, err) := b in
  if n <=? Z.of_nat (length data) then (take (Z.to_nat n) data, None, (drop (Z.to_nat n) data, err))
  else (data, if Is err io_EOF then None else Some err, ([], err)).

(** [io.ReadFull(b, probe[:])] with one byte: how many were read, and the error. *)
Definition read_probe (b : body) : nat * option error * body :=
  match b with
  | (_ :: rest, err) => (1%nat, None, (rest, err))
  | ([], err) => (0%nat, Some err, b)
  end.

Definition drainBounded (b : body) (max : Z) : body := (drop (Z.to_nat max) b.1, b.2).

(** ** Encoding *)

Definition headerHTTPMethod : string := "http.method".
Definition headerHTTPPath : string := "http.path".
Definition headerHTTPQuery : string := "http.query".
Definition headerHTTPContentType : string := "http.content-type".
Definition headerHTTPCorrelationID : string := "http.correlation-id".
Definition reservedHeaderPrefix : string := "msgin.".
Definition defaultResponseContentType : string := "application/octet-stream".

(** [strings.ReplaceAll] of CR, then of LF, by the empty string. *)
Definition strip (b : ascii) (v : bytes) : bytes := filter (λ x, x ≠ b) v.
Definition sanitizeHeaderValue (v : string) : string := string_of (strip LF (strip CR (bytes_of v))).

Definition contentTypeOf (m : msg) : string :=
  let ct := default "" (Headers_String (msg_headers m) HeaderContentType) in
  let ct := sanitizeHeaderValue ct in
  if decide (ct = "") then defaultResponseContentType else ct.

(** [strings.HasPrefix(strings.ToLower(name), reservedHeaderPrefix)]. *)
Definition reserved (lower : string → string) (name : string) : bool :=
  String.prefix reservedHeaderPrefix (lower name).

Record OutRequest : Type := mkOutRequest {
  oq_Method : string;
  oq_URL : string;
  oq_Header : HttpHeader;
  oq_Body : bytes
}.

(** The loop over the allow-list. *)
Definition outbound_headers (lower : string → string) (m : msg) (allowed : list string) : HttpHeader :=
  foldl (λ h name,
           if reserved lower name then h
           else match Headers_String (msg_headers m) name with
                | Some v => header_Set name (sanitizeHeaderValue v) h
                | None => h
                end) ∅ allowed.

Definition EncodeRequest (lower : string → string) (url_Parse : string → error + string * string)
    (method url : string) (m : msg) (cfg : option Config) : error + OutRequest :=
  let? data := payloadBytes m in
  let? u := url_Parse url in
  inr (mkOutRequest method url
         (header_Set "Content-Type" (contentTypeOf m) (outbound_headers lower m (allowedOutboundHeaders cfg))) data).

(** ** Construction *)

Definition validateURL (trim : string → string) (url_Parse : string → error + string * string) (raw : string)
    : option error :=
  if decide (trim raw = "") then Some (Sentinel ErrEmptyURL)
  else match url_Parse raw with
       | inl _ => Some (Sentinel ErrInvalidURL)
       | inr (scheme, host) =>
           if negb (bool_decide (scheme = "http")) && negb (bool_decide (scheme = "https"))
           then Some (Sentinel ErrInvalidURL)
           else if decide (host = "") then Some (Sentinel ErrInvalidURL) else None
       end.

(** [cfg.httpClient] is set by [NewConfig]. *)
Definition resolveClient (cfg : Config) : option Client :=
  match ht_httpClient cfg with
  | None => None
  | Some c =>
      if ht_followRedirects cfg || bool_decide (is_Some (cl_CheckRedirect c)) then Some c
      else Some (mkClient (cl_Timeout c) (Some ErrUseLastResponse))
  end.

Record Outbound : Type := mkOutboundHTTP { ob_url : string; ob_client : option Client; ob_cfg : Config }.

Definition new_outbound (ctor : string) (trim : string → string) (url_Parse : string → error + string * string)
    (url : string) (opts : list (option Option)) : error + Outbound :=
  let? cfg := config_at ctor opts in
  match validateURL trim url_Parse url with
  | Some err => inl err
  | None => inr (mkOutboundHTTP url (resolveClient cfg) cfg)
  end.
Definition NewOutbound := new_outbound "msghttp.NewOutbound".
(** [Exchange] has the same three fields. *)
Definition NewExchange := new_outbound "msghttp.NewExchange".

(** ** Classification *)

Definition StatusError (code : Z) (excerpt : string) : error :=
  Errorf [Sentinel ErrOutboundStatus] [FInt code; FStr excerpt].

Definition maxRetryAfterSeconds : Z := MaxInt64 / second.
Definition errorBodyExcerptMax : Z := 256.

(** [strconv.ParseInt(v, 10, 64)]: a sign, digits, and the range of an int64. *)
Definition ParseInt (v : bytes) : option Z :=
  let '(neg, ds) := match v with
                    | c :: rest => if bool_decide (c = "-"%char) then (true, rest)
                                   else if bool_decide (c = "+"%char) then (false, rest) else (false, v)
                    | [] => (false, [])
                    end in
  if bool_decide (ds = []) || negb (forallb is_digit ds) then None
  else
    let n := if neg : bool then - digits_value ds else digits_value ds in
    if (MinInt64 <=? n) && (n <=? MaxInt64) then Some n else None.

Definition parseRetryAfter (trim : string → string) (ParseTime : string → option Z) (v : string) (now : Z)
    : option Z :=
  let v := trim v in
  if decide (v = "") then None
  else match ParseInt (bytes_of v) with
       | Some secs =>
           if (secs <? 0) || (maxRetryAfterSeconds <? secs) then None
           else Some (wrap64 (secs * second))
       | None =>
           match ParseTime v with
           | Some t => let d := time_Sub t now in if d <? 0 then Some 0 else Some d
           | None => None
           end
       end.

Definition sanitizeExcerpt (Quote : bytes → string) (b : bytes) : string := Quote b.
Definition readExcerpt (Quote : bytes → string) (b : body) : string * body :=
  let '(data, _, rest) := read_limited errorBodyExcerptMax b in (sanitizeExcerpt Quote data, rest).

(** The error, and the body with the excerpt read off it. *)
Definition ClassifyResponse (trim : string → string) (ParseTime : string → option Z) (Quote : bytes → string)
    (now : Z) (resp : option Response) (cfg : option Config) : option error * option body :=
  match resp with
  | None => (Some (Sentinel ErrNilResponse), None)
  | Some resp =>
      let code := resp_StatusCode resp in
      if (200 <=? code) && (code <? 300) then (None, resp_Body resp)
      else
        let '(excerpt, rest) :=
          match errorBodyExcerptEnabled cfg, resp_Body resp with
          | true, Some b => let '(x, rest) := readExcerpt Quote b in (x, Some rest)
          | _, b => ("", b)
          end in
        let statusErr := Some (StatusError code excerpt) in
        (if (code <? 500) && negb (code =? 408) && negb (code =? 429) then Permanent statusErr
         else if (code =? 429) || (code =? 503) then
           match parseRetryAfter trim ParseTime (header_Get (resp_Header resp) "Retry-After") now with
           | Some d => RetryAfter statusErr d
           | None => statusErr
           end
         else statusErr, rest)
  end.

(** ** Outbound.Send *)

(** What the client's [Do] fails with. *)
Inductive doError : Type :=
  | urlError (op url : string) (err : error)
  | plainError (err : error).

Definition redactTransport (e : doError) : error :=
  match e with
  | urlError op _ inner => Errorf [Sentinel ErrOutboundTransport; inner] [FStr op]
  | plainError err => Errorf [Sentinel ErrOutboundTransport; err] [FStr "Post"]
  end.

Definition permanentEncode (err : error) : option error := Permanent (Some err).

Section send.
Context {W : Type} (lower trim : string → string) (url_Parse : string → error + string * string)
  (ParseTime : string → option Z) (Quote : bytes → string) (clock : W → Z)
  (Do : option Client → OutRequest → M W (doError + Response)) (Close : option body → M W unit).

(** Nothing between [Do] and the return panics, so that the deferred close runs
    last; it is given what was left of the body. *)
Definition Outbound_Send (o : Outbound) (m : msg) : M W (option error) :=
  match EncodeRequest lower url_Parse "POST" (ob_url o) m (Some (ob_cfg o)) with
  | inl err => mret (permanentEncode err)
  | inr req =>
      r ← Do (ob_client o) req;
      match r with
      | inl err => mret (Some (redactTransport err))
      | inr resp =>
          now ← gets clock;
          let '(classifyErr, rest) := ClassifyResponse trim ParseTime Quote now (Some resp) (Some (ob_cfg o)) in
          _ ← Close ((λ b, drainBounded b (st_val (ht_maxResponseBytes (ob_cfg o)))) <$> rest);
          mret classifyErr
      end
  end.

(** ** Exchange *)

(** The loop over the allow-listed reply headers. *)
Definition reply_headers (resp : Response) (allowed : list string) (reply : msg) : msg :=
  foldl (λ reply name,
           if reserved lower name then reply
           else
             let v := header_Get (resp_Header resp) name in
             if decide (v = "") then reply else WithHeader reply name (AString (sanitizeHeaderValue v)))
    reply allowed.

Definition reply_seed (req : msg) : gmap string any :=
  delete headerHTTPContentType (delete headerHTTPQuery (delete headerHTTPPath (delete headerHTTPMethod
    (delete HeaderContentType (delete HeaderTimestamp (delete HeaderMessageID
       (list_to_map (Headers_All (msg_headers req))))))))).

Definition buildReply (cfg : Config) (now : Z) (random : bytes) (req : msg) (resp : Response) (data : bytes) : msg :=
  let reply : msg := New now random (ABytes data) [Some (WithHeaders (Some (reply_seed req)))] in
  let ct := header_Get (resp_Header resp) "Content-Type" in
  let reply := if decide (ct = "") then reply
               else WithHeader reply headerHTTPContentType (AString (sanitizeHeaderValue ct)) in
  reply_headers resp (allowedReplyHeaders cfg) reply.

(** The body of a 2xx response, within the cap, and what is left of it. *)
Definition read_reply (max : Z) (b : body) : (error + bytes) * body :=
  match read_limited max b with
  | (_, Some err, rest) => (inl err, rest)
  | (data, None, rest) =>
      if Z.of_nat (length data) =? max then
        match read_probe rest with
        | (n, probeErr, rest) =>
            (if (0 <? n)%nat then inl (Sentinel ErrReplyTooLarge)
             else match probeErr with
                  | Some e => if Is e io_EOF then inr data else inl e
                  | None => inr data
                  end, rest)
        end
      else (inr data, rest)
  end.

(** [random] is what the reply's id is made of, [real_now] its timestamp. *)
Definition Exchange_Exchange (real_now : W → Z) (random : W → bytes) (x : Outbound) (req : msg) : M W (error + msg) :=
  match EncodeRequest lower url_Parse "POST" (ob_url x) req (Some (ob_cfg x)) with
  | inl err => mret (inl (permanentError err))
  | inr httpReq =>
      r ← Do (ob_client x) httpReq;
      match r with
      | inl err => mret (inl (redactTransport err))
      | inr resp =>
          now ← gets clock;
          match ClassifyResponse trim ParseTime Quote now (Some resp) (Some (ob_cfg x)) with
          | (Some err, rest) =>
              _ ← Close ((λ b, drainBounded b (st_val (ht_maxResponseBytes (ob_cfg x)))) <$> rest);
              mret (inl err)
          | (None, rest) =>
              let '(res, unread) :=
                read_reply (st_val (ht_maxResponseBytes (ob_cfg x))) (default ([], Sentinel io_EOF) rest) in
              t ← gets real_now;
              rnd ← gets random;
              _ ← Close (Some unread);
              mret (match res with
                    | inl err => inl err
                    | inr data => inr (buildReply (ob_cfg x) t rnd req resp data)
                    end)
          end
      end
  end.
End send.

(** ** Facts about header values and names *)

Lemma string_of_bytes s : string_of (bytes_of s) = s.
Proof. apply String.string_of_list_ascii_of_string. Qed.
Lemma bytes_of_string l : bytes_of (string_of l) = l.
Proof. apply String.list_ascii_of_string_of_list_ascii. Qed.

Definition no_crlf (v : string) : Prop := (CR ∉ bytes_of v) ∧ (LF ∉ bytes_of v).

Lemma sanitize_no_crlf v : no_crlf (sanitizeHeaderValue v).
Proof.
  unfold no_crlf, sanitizeHeaderValue, strip. rewrite bytes_of_string.
  by split; rewrite !list_elem_of_filter; intros H; destruct_and!.
Qed.

Lemma content_type_ok m : contentTypeOf m ≠ "" ∧ no_crlf (contentTypeOf m).
Proof.
  unfold contentTypeOf. destruct (decide _) as [E|E]; [|by split; [|apply sanitize_no_crlf]].
  split; [done|]. split; by apply (bool_decide_unpack _).
Qed.

(** [name] starts with the reserved prefix, in any case. *)
Definition reserved_name (name : string) : bool :=
  bool_decide (take 6 (to_lower <$> bytes_of name) = bytes_of reservedHeaderPrefix).

Lemma to_lower_idem b : to_lower (to_lower b) = to_lower b.
Proof. destruct b as [[] [] [] [] [] [] [] []]; reflexivity. Qed.
Lemma to_lower_upper b : to_lower (to_upper b) = to_lower b.
Proof. destruct b as [[] [] [] [] [] [] [] []]; reflexivity. Qed.
Lemma to_lower_ascii b : code (to_lower b) < 128 → code b < 128.
Proof. destruct b as [[] [] [] [] [] [] [] []]; vm_compute; done. Qed.

Lemma canonical_lower u s : to_lower <$> canonical_from u s = to_lower <$> s.
Proof.
  revert u. induction s as [|b s IH]; intros u; [done|]. cbn. rewrite IH. f_equal.
  destruct u; [apply to_lower_upper|apply to_lower_idem].
Qed.

Lemma canonical_reserved name : reserved_name (CanonicalHeaderKey name) = reserved_name name.
Proof.
  unfold reserved_name, CanonicalHeaderKey. destruct (forallb _ _); [|done].
  by rewrite bytes_of_string, canonical_lower.
Qed.

Section lower.
Context (lower : string → string).

(** strings.ToLower maps rune by rune, and an ASCII byte is a rune. *)
Context (lower_ascii : ∀ c s, code c < 128 → lower (String c s) = String (to_lower c) (lower s)).

Lemma lower_prefix p name :
  Forall (λ b, code b < 128) p → take (length p) (to_lower <$> bytes_of name) = p →
  String.prefix (string_of p) (lower name) = true.
Proof.
  revert name. induction p as [|b p IH]; intros name Hp Ht; [by destruct (lower name)|].
  inversion Hp as [|? ? Hb Hp']; subst. destruct name as [|c name]; cbn in Ht; [discriminate|]. injection Ht as Hc Ht.
  rewrite lower_ascii; [|apply to_lower_ascii; by rewrite Hc]. cbn. rewrite Hc.
  destruct (ascii_dec b b); [|done]. by apply IH.
Qed.

Lemma reserved_lower name : reserved_name name = true → reserved lower name = true.
Proof.
  unfold reserved_name, reserved. rewrite bool_decide_eq_true. intros H.
  apply (lower_prefix (bytes_of reservedHeaderPrefix)); [|done].
  by repeat constructor.
Qed.

(** What the allow-list loop puts in the request. *)
Lemma outbound_headers_ok m allowed k vs :
  outbound_headers lower m allowed !! k = Some vs → Forall no_crlf vs ∧ reserved_name k = false.
Proof.
  unfold outbound_headers.
  assert (Hstep : ∀ h : HttpHeader, (∀ k vs, h !! k = Some vs → Forall no_crlf vs ∧ reserved_name k = false) →
    ∀ k vs, foldl (λ h name, if reserved lower name then h
           else match Headers_String (msg_headers m) name with
                | Some v => header_Set name (sanitizeHeaderValue v) h
                | None => h
                end) h allowed !! k = Some vs → Forall no_crlf vs ∧ reserved_name k = false).
  2: { apply Hstep. intros ? ? H. by rewrite lookup_empty in H. }
  clear k vs. induction allowed as [|name allowed IH]; intros h Hh k vs; cbn; [apply Hh|].
  apply IH. clear k vs. intros k vs. destruct (reserved lower name) eqn:Er; [apply Hh|].
  destruct (Headers_String _ name) as [v|]; [|apply Hh]. unfold header_Set.
  destruct (decide (CanonicalHeaderKey name = k)) as [<-|Hne].
  - rewrite lookup_insert_eq. intros [= <-]. split; [apply Forall_singleton, sanitize_no_crlf|].
    rewrite canonical_reserved. destruct (reserved_name name) eqn:E; [|done]. apply reserved_lower in E. congruence.
  - rewrite lookup_insert_ne by done. apply Hh.
Qed.

End lower.

(** Nothing in a message can break out of, or smuggle metadata into, the request
    made for it: the target URL and method are the caller's, the body is the
    payload's bytes, no header value holds a CR or LF, no header name carries
    the reserved msgin. prefix in any case, and Content-Type is always the
    resolved one, never empty. [lower_ascii] is strings.ToLower on ASCII. *)
Theorem encode_request_safe lower url_Parse method url m cfg req :
  (∀ c s, code c < 128 → lower (String c s) = String (to_lower c) (lower s)) →
  EncodeRequest lower url_Parse method url m cfg = inr req →
  oq_URL req = url ∧ oq_Method req = method ∧ payloadBytes m = inr (oq_Body req) ∧
  oq_Header req !! "Content-Type" = Some [contentTypeOf m] ∧ contentTypeOf m ≠ "" ∧
  (∀ k vs, oq_Header req !! k = Some vs → Forall no_crlf vs ∧ reserved_name k = false).
Proof.
  intros Hlow. unfold EncodeRequest. intros (data & Hd & (u & Hu & [= <-])%sum_bind_inr)%sum_bind_inr.
  cbn. destruct (content_type_ok m) as [Hne Hcr]. split_and!; try done; [by apply lookup_insert_eq|].
  intros k vs. unfold header_Set. destruct (decide (CanonicalHeaderKey "Content-Type" = k)) as [<-|Hk].
  - rewrite lookup_insert_eq. intros [= <-]. split; [by apply Forall_singleton|by vm_compute].
  - rewrite lookup_insert_ne by done. by apply outbound_headers_ok.
Qed.

(** A bytewise ToLower and a url.Parse that accepts one URL. *)
Fixpoint ascii_lower (s : string) : string :=
  match s with EmptyString => EmptyString | String c s => String (to_lower c) (ascii_lower s) end.
Definition demo_parse (s : string) : error + string * string :=
  if decide (s = "http://h/") then inr ("http", "h") else inl (Opaque "parse").
Definition demo_msg : msg :=
  NewMessage (AString "hi") (mkHeaders (Some {[HeaderMessageID := AString "7"; "X-A" := AString "1";
    HeaderContentType := AString "text/plain"]})).
Definition demo_cfg : Config := WithOutboundHeaders ["MSGIN.message-id"; HeaderMessageID; "X-A"] zeroConfig.

Lemma encode_request_safe_witness :
  contentTypeOf demo_msg = "text/plain" ∧
  ∃ req, EncodeRequest ascii_lower demo_parse "POST" "http://h/" demo_msg (Some demo_cfg) = inr req ∧
    (∀ k vs, oq_Header req !! k = Some vs → Forall no_crlf vs ∧ reserved_name k = false).
Proof.
  split; [vm_compute; reflexivity|].
  destruct (EncodeRequest ascii_lower demo_parse "POST" "http://h/" demo_msg (Some demo_cfg)) as [err|req] eqn:E;
    [exfalso; vm_compute in E; discriminate|].
  exists req. split; [reflexivity|].
  apply (encode_request_safe ascii_lower demo_parse "POST" "http://h/" demo_msg (Some demo_cfg) req); [reflexivity|exact E].
Defined.

(** ** Classification *)

Lemma parseRetryAfter_range trim ParseTime v now d : parseRetryAfter trim ParseTime v now = Some d → 0 ≤ d ≤ MaxInt64.
Proof.
  unfold parseRetryAfter. destruct (decide _); [done|]. destruct (ParseInt _) as [secs|].
  - destruct (_ || _) eqn:E; [done|]. apply orb_false_iff in E as [E1 E2]. bool_to_prop. intros [= <-].
    change maxRetryAfterSeconds with 9223372036 in E2. rewrite wrap64_id; unfold int64_range, MinInt64, MaxInt64, second in *; lia.
  - destruct (ParseTime _) as [t|]; [|done]. unfold time_Sub, MinInt64, MaxInt64.
    destruct (_ <? 0) eqn:E; intros [= <-]; bool_to_prop; lia.
Qed.

Lemma parseRetryAfter_seconds trim ParseTime v now secs :
  trim v ≠ "" → ParseInt (bytes_of (trim v)) = Some secs → 0 ≤ secs ≤ MaxInt64 / second →
  parseRetryAfter trim ParseTime v now = Some (secs * second).
Proof.
  intros Hne Hp Hs. unfold parseRetryAfter. rewrite decide_False by done. rewrite Hp.
  unfold maxRetryAfterSeconds. change (MaxInt64 / second) with 9223372036 in *.
  destruct (_ || _) eqn:E; [apply orb_true_iff in E as [E|E]; bool_to_prop; lia|].
  f_equal. apply wrap64_id. unfold int64_range, MinInt64, MaxInt64, second. lia.
Qed.

Lemma classify_cases trim ParseTime Quote now resp cfg :
  let code := resp_StatusCode resp in
  let err := (ClassifyResponse trim ParseTime Quote now (Some resp) cfg).1 in
  let d := parseRetryAfter trim ParseTime (header_Get (resp_Header resp) "Retry-After") now in
  ∃ x,
    (200 ≤ code < 300 ∧ err = None) ∨
    ((code < 200 ∨ 300 ≤ code < 500) ∧ code ≠ 408 ∧ code ≠ 429 ∧ err = Some (permanentError (StatusError code x))) ∨
    ((code = 429 ∨ code = 503) ∧ ∃ n, d = Some n ∧ err = Some (retryAfterError (StatusError code x) n)) ∨
    ((code = 408 ∨ code = 429 ∨ 500 ≤ code) ∧ (code = 429 ∨ code = 503 → d = None) ∧ err = Some (StatusError code x)).
Proof.
  cbn zeta. unfold ClassifyResponse. set (code := resp_StatusCode resp).
  destruct (_ && (code <? 300)) eqn:E2; [apply andb_true_iff in E2 as [? ?]; bool_to_prop; exists ""; by left|].
  apply andb_false_iff in E2. rewrite Z.leb_gt, Z.ltb_ge in E2.
  match goal with |- context [match ?p with (_, _) => _ end] => destruct p as [excerpt rest] end.
  cbn [fst]. exists excerpt. right.
  destruct (_ && negb (code =? 429)) eqn:E5.
  { left. apply andb_true_iff in E5 as [[? ?%negb_true_iff]%andb_true_iff ?%negb_true_iff]. bool_to_prop.
    split_and!; [lia|done..]. }
  right. assert (Ht : code = 408 ∨ code = 429 ∨ 500 ≤ code).
  { rewrite !andb_false_iff, !negb_false_iff, Z.ltb_ge, !Z.eqb_eq in E5. tauto. }
  destruct (_ || _) eqn:E4; [apply orb_true_iff in E4; rewrite !Z.eqb_eq in E4|
    apply orb_false_iff in E4; rewrite !Z.eqb_neq in E4; right; split_and!; [done|tauto|done]].
  destruct (parseRetryAfter _ _ _ _) as [d|] eqn:Ed; [left; split; [done|]|right; by split_and!].
  exists d. split; [done|]. apply parseRetryAfter_range in Ed. cbn. by rewrite (proj2 (Z.ltb_ge _ _)) by lia.
Qed.

(** A response is classified by its status alone into success, permanent and
    transient: 2xx is nil and nothing else is; 408, 429 and everything from 500
    are retryable, every other status is permanent; a retry-after delay is
    attached exactly to a 429 or 503 whose Retry-After parses, and it is never
    negative or overflowed; every error is an ErrOutboundStatus. *)
Theorem classify_response_correct trim ParseTime Quote now resp cfg :
  let code := resp_StatusCode resp in
  let err := (ClassifyResponse trim ParseTime Quote now (Some resp) cfg).1 in
  (err = None ↔ 200 ≤ code < 300) ∧
  (err ≠ None → IsOpt err ErrOutboundStatus = true) ∧
  (IsPermanent err = true ↔ (code < 200 ∨ 300 ≤ code < 500) ∧ code ≠ 408 ∧ code ≠ 429) ∧
  (∀ d, RetryAfterOf err = Some d ↔
     (code = 429 ∨ code = 503) ∧ parseRetryAfter trim ParseTime (header_Get (resp_Header resp) "Retry-After") now = Some d) ∧
  (∀ d, RetryAfterOf err = Some d → 0 ≤ d ≤ MaxInt64).
Proof.
  cbn zeta. pose proof (parseRetryAfter_range trim ParseTime (header_Get (resp_Header resp) "Retry-After") now) as Hr.
  destruct (classify_cases trim ParseTime Quote now resp cfg)
    as (x & [[? ->]|[(? & ? & ? & ->)|[(? & n & Hn & ->)|(? & Hd & ->)]]]); cbn.
  - split_and!; try done; split; (done || lia).
  - split_and!; try done; split; (done || lia).
  - rewrite Hn in *. split_and!; [split; (done || lia)|done|split; (done || lia)| |].
    + intros d. split; [intros [= <-]; auto|by intros [_ [= <-]]].
    + intros d [= <-]. auto.
  - split_and!; [split; (done || lia)|done|split; (done || lia)| |done].
    intros d. split; [done|]. intros [Hc Hp]. by rewrite Hd in Hp.
Qed.

(** ** The exchange *)

Lemma read_reply_whole max b :
  0 ≤ max →
  match read_reply max b with
  | (inr data, _) => data = b.1 ∧ Is b.2 io_EOF = true ∧ Z.of_nat (length data) ≤ max
  | (inl err, _) => Is b.2 io_EOF = false ∨ (max < Z.of_nat (length b.1) ∧ err = Sentinel ErrReplyTooLarge)
  end.
Proof.
  intros Hmax. unfold read_reply, read_limited. destruct b as [data err]. cbn [fst snd].
  destruct (Z.leb_spec max (Z.of_nat (length data))) as [Hl|Hl].
  - rewrite length_take, Nat.min_l, Z2Nat.id, Z.eqb_refl by lia.
    unfold read_probe. destruct (drop (Z.to_nat max) data) as [|c rest] eqn:Hdrop; cbn.
    + apply (f_equal length) in Hdrop. rewrite length_drop in Hdrop. cbn in Hdrop.
      destruct (Is err io_EOF) eqn:He; [|by left].
      rewrite take_ge by lia. split_and!; [done..|lia].
    + apply (f_equal length) in Hdrop. rewrite length_drop in Hdrop. cbn in Hdrop. right. split; [lia|done].
  - destruct (Is err io_EOF) eqn:He; [|by left]. rewrite (proj2 (Z.eqb_neq _ _)) by lia. split_and!; [done..|lia].
Qed.

Lemma reply_headers_cons lower resp name allowed reply :
  reply_headers lower resp (name :: allowed) reply = reply_headers lower resp allowed
    (if reserved lower name then reply
     else if decide (header_Get (resp_Header resp) name = "") then reply
     else WithHeader reply name (AString (sanitizeHeaderValue (header_Get (resp_Header resp) name)))).
Proof. reflexivity. Qed.

Lemma reply_headers_reserved lower resp allowed reply k :
  (∀ c s, code c < 128 → lower (String c s) = String (to_lower c) (lower s)) → reserved_name k = true →
  Header (reply_headers lower resp allowed reply) k = Header reply k ∧
  msg_payload (reply_headers lower resp allowed reply) = msg_payload reply.
Proof.
  intros Hlow Hk. revert reply. induction allowed as [|name allowed IH]; intros reply; [done|]. rewrite reply_headers_cons.
  destruct (reserved lower name) eqn:Er; [apply IH|]. destruct (decide _); [apply IH|].
  destruct (IH (WithHeader reply name (AString (sanitizeHeaderValue (header_Get (resp_Header resp) name))))) as [-> ->].
  split; [|done]. rewrite Header_WithHeader. destruct (decide _) as [E|E]; [|done].
  subst. apply (reserved_lower lower Hlow) in Hk. congruence.
Qed.

Lemma Headers_All_get h k : (list_to_map (Headers_All h) : gmap string any) !! k = Headers_Get h k.
Proof.
  unfold Headers_All, Headers_Get, gomap_get. destruct (hm h) as [m|]; cbn; [by rewrite list_to_map_to_list|].
  by rewrite lookup_empty.
Qed.

(** The core headers of a reply: its own identity, and the request's. *)
Definition reply_core (now : Z) (random : bytes) (req : msg) (k : string) : option any :=
  if decide (k = HeaderMessageID) then Some (AString (NewID random))
  else if decide (k = HeaderTimestamp) then Some (ATime now)
  else if decide (k = HeaderContentType) then None
  else Header req k.

Lemma buildReply_core lower cfg now random req resp data k :
  (∀ c s, code c < 128 → lower (String c s) = String (to_lower c) (lower s)) → reserved_name k = true →
  Header (buildReply lower cfg now random req resp data) k = reply_core now random req k ∧
  msg_payload (buildReply lower cfg now random req resp data) = ABytes data.
Proof.
  intros Hlow Hk. unfold buildReply.
  match goal with |- context [reply_headers _ _ _ ?r] => destruct (reply_headers_reserved lower resp (allowedReplyHeaders cfg) r k Hlow Hk) as [-> ->] end.
  assert (Hct : k ≠ headerHTTPContentType ∧ k ≠ headerHTTPMethod ∧ k ≠ headerHTTPPath ∧ k ≠ headerHTTPQuery).
  { split_and!; intros ->; by vm_compute in Hk. }
  destruct Hct as (H1 & H2 & H3 & H4). split; [|by destruct (decide _)].
  trans (Header (New now random (ABytes data) [Some (WithHeaders (Some (reply_seed req)))] : msg) k).
  { destruct (decide _); [done|]. by rewrite Header_WithHeader, decide_False by done. }
  unfold New, Header, Headers_Get, gomap_get, reply_core. cbn.
  destruct (decide (k = HeaderTimestamp)) as [->|Ht]; [by rewrite lookup_insert_eq|]. rewrite lookup_insert_ne by done.
  destruct (decide (k = HeaderMessageID)) as [->|Hi]; [by rewrite lookup_insert_eq|]. rewrite lookup_insert_ne by done.
  unfold reply_seed. rewrite !lookup_delete_ne by done.
  destruct (decide (k = HeaderContentType)) as [->|Hc]; [by rewrite lookup_delete_eq|].
  by rewrite !lookup_delete_ne, Headers_All_get by done.
Qed.

Lemma classify_ok trim ParseTime Quote now resp cfg rest :
  ClassifyResponse trim ParseTime Quote now (Some resp) cfg = (None, rest) →
  200 ≤ resp_StatusCode resp < 300 ∧ rest = resp_Body resp.
Proof.
  intros H. destruct (classify_cases trim ParseTime Quote now resp cfg)
    as (x & [[? _]|[(? & ? & ? & E)|[(? & n & Hn & E)|(? & Hd & E)]]]); try (by rewrite H in E).
  unfold ClassifyResponse in H. rewrite (proj2 (Z.leb_le _ _)), (proj2 (Z.ltb_lt _ _)) in H by lia.
  injection H as <-. done.
Qed.

(** The client and the body of a response as resources: a round trip that
    succeeds opens a body, and closing releases it. *)
Class BodyResource (W : Type) (Do : option Client → OutRequest → M W (doError + Response))
    (Close : option body → M W unit) (opened : W → Z) : Prop := {
  do_opens c r w : let '(res, w') := Do c r w in
    opened w' = opened w + match res with Ret (inr _) => 1 | _ => 0 end;
  close_releases b w : ∃ w', Close b w = (Ret tt, w') ∧ opened w' = opened w - 1
}.

Section exchange.
Context {W : Type} (lower trim : string → string) (url_Parse : string → error + string * string)
  (ParseTime : string → option Z) (Quote : bytes → string) (clock : W → Z)
  (Do : option Client → OutRequest → M W (doError + Response)) (Close : option body → M W unit).

(** C9. A reply message is made only of a complete 2xx response: its payload is the
    whole body, which ended cleanly within WithMaxResponseBytes (a truncated or
    over-cap body is an error, never a short reply), and the remote cannot
    forge core metadata: every header under the msgin. prefix, in any case, is
    the request's own, except a fresh message id and timestamp and no content
    type, whatever the response's headers and the allow-list are. *)
Theorem exchange_reply_sound real_now random x req w reply w' :
  (∀ c s, code c < 128 → lower (String c s) = String (to_lower c) (lower s)) →
  config_ok (ob_cfg x) →
  Exchange_Exchange lower trim url_Parse ParseTime Quote clock Do Close real_now random x req w = (Ret (inr reply), w') →
  ∃ httpReq resp w1 data err,
    EncodeRequest lower url_Parse "POST" (ob_url x) req (Some (ob_cfg x)) = inr httpReq ∧
    Do (ob_client x) httpReq w = (Ret (inr resp), w1) ∧ 200 ≤ resp_StatusCode resp < 300 ∧
    default ([], Sentinel io_EOF) (resp_Body resp) = (data, err) ∧ Is err io_EOF = true ∧
    Z.of_nat (length data) ≤ st_val (ht_maxResponseBytes (ob_cfg x)) ∧ msg_payload reply = ABytes data ∧
    (∀ k, reserved_name k = true → Header reply k = reply_core (real_now w1) (random w1) req k).
Proof.
  intros Hlow Hcfg. unfold Exchange_Exchange.
  destruct (EncodeRequest _ _ _ _ _ _) as [|httpReq]; [done|].
  intros (r & w1 & Hdo & Hr)%bind_inv. destruct r as [|resp]; [done|].
  apply bind_inv in Hr as (now & w2 & [= <- <-] & Hr).
  destruct (ClassifyResponse _ _ _ _ _ _) as [[err|] rest] eqn:Hcl; [by apply bind_inv in Hr as (? & ? & _ & [= ])|].
  apply classify_ok in Hcl as [Hcode ->].
  pose proof (read_reply_whole (st_val (ht_maxResponseBytes (ob_cfg x))) (default ([], Sentinel io_EOF) (resp_Body resp))) as Hrd.
  destruct (read_reply _ _) as [res unread].
  apply bind_inv in Hr as (t & w2 & [= <- <-] & Hr). apply bind_inv in Hr as (rnd & w2 & [= <- <-] & Hr).
  apply bind_inv in Hr as ([] & w2 & _ & Hr). destruct res as [|data]; [done|]. injection Hr as <- _.
  pose proof (co_response _ Hcfg). destruct Hrd as (Hd & He & Hlen); [lia|].
  exists httpReq, resp, w1, data, (default ([], Sentinel io_EOF) (resp_Body resp)).2.
  split_and!; try done; [lia|lia|rewrite Hd; apply surjective_pairing| |].
  - by apply (buildReply_core lower _ _ _ _ _ _ HeaderMessageID).
  - intros k Hk. by apply buildReply_core.
Qed.

(** No response body leaks: whatever the response, its status and its body are,
    and also when the round trip fails or panics, Send and Exchange end with
    exactly the bodies open that were open before. *)
Theorem outbound_no_leak `{BodyResource W Do Close opened} real_now random x m w :
  opened (Outbound_Send lower trim url_Parse ParseTime Quote clock Do Close x m w).2 = opened w ∧
  opened (Exchange_Exchange lower trim url_Parse ParseTime Quote clock Do Close real_now random x m w).2 = opened w.
Proof.
  unfold Outbound_Send, Exchange_Exchange. destruct (EncodeRequest _ _ _ _ _ _) as [|req]; [done|].
  pose proof (do_opens (ob_client x) req w) as Hdo.
  unfold mbind, M_bind, gets, mret, M_ret.
  destruct (Do (ob_client x) req w) as [[[err|resp]|v] w1]; [cbn; lia| |cbn; lia].
  destruct (ClassifyResponse _ _ _ _ _ _) as [e rest].
  assert (Hclose : ∀ b, ∃ w', Close b w1 = (Ret tt, w') ∧ opened w' = opened w).
  { intros b. destruct (close_releases b w1) as (w' & -> & Ho). exists w'. split; [done|lia]. }
  split.
  - destruct (Hclose ((λ b, drainBounded b (st_val (ht_maxResponseBytes (ob_cfg x)))) <$> rest)) as (w' & -> & Ho). done.
  - destruct e.
    + destruct (Hclose ((λ b, drainBounded b (st_val (ht_maxResponseBytes (ob_cfg x)))) <$> rest)) as (w' & -> & Ho). done.
    + destruct (read_reply _ _) as [res unread]. destruct (Hclose (Some unread)) as (w' & -> & Ho). done.
Qed.

End exchange.

(** A server that answers 200 with three bytes, over a counter of open bodies. *)
Definition demo_resp : Response :=
  mkResponse 200 {["Msgin.message-Id" := ["forged"]; "Content-Type" := ["text/html"]]} (Some (bytes_of "abc", Sentinel io_EOF)).
Definition demo_Do (_ : option Client) (_ : OutRequest) : M Z (doError + Response) :=
  _ ← modify (Z.add 1); mret (inr demo_resp).
Definition demo_Close (_ : option body) : M Z unit := modify (λ n, n - 1).
Definition demo_outbound : Outbound :=
  mkOutboundHTTP "http://h/" None
    (match NewConfig [Some (OMaxResponseBytes 3); Some (OOutboundReplyHeaders ["msgin.message-id"])] with
     | inr c => c | inl _ => zeroConfig end).

#[export] Instance demo_resource : BodyResource Z demo_Do demo_Close (λ n, n).
Proof. split; [intros c r w; change (1 + w = w + 1); lia|]. intros b w. exists (w - 1). done. Qed.

Definition demo_exchange : outcome (error + msg) * Z :=
  Exchange_Exchange ascii_lower (λ s, s) demo_parse (λ _, None) string_of (λ _, 0) demo_Do demo_Close (λ _, 5) (λ _, bytes_of "r")
    demo_outbound demo_msg 0.
Definition demo_reply : msg := match demo_exchange with (Ret (inr r), _) => r | _ => demo_msg end.

Lemma demo_config_ok : config_ok (ob_cfg demo_outbound).
Proof. by apply (config_resolved [Some (OMaxResponseBytes 3); Some (OOutboundReplyHeaders ["msgin.message-id"])]). Qed.

Lemma exchange_reply_sound_witness :
  ∃ data, msg_payload demo_reply = ABytes data ∧ Z.of_nat (length data) ≤ 3.
Proof.
  destruct (exchange_reply_sound ascii_lower (λ s, s) demo_parse (λ _, None) string_of (λ _, 0) demo_Do demo_Close (λ _, 5)
    (λ _, bytes_of "r") demo_outbound demo_msg 0 demo_reply 0)
    as (httpReq & resp & w1 & data & err & _ & _ & _ & _ & _ & Hlen & Hpay & _);
    [reflexivity|exact demo_config_ok|vm_compute; reflexivity|].
  exists data. split; [exact Hpay|exact Hlen].
Defined.

Lemma outbound_no_leak_witness :
  (Outbound_Send ascii_lower (λ s, s) demo_parse (λ _, None) string_of (λ _, 0) demo_Do demo_Close demo_outbound demo_msg 4).2 = 4.
Proof.
  exact (proj1 (outbound_no_leak (opened := λ n, n) ascii_lower (λ s, s) demo_parse (λ _, None) string_of (λ _, 0)
    demo_Do demo_Close (λ _, 5) (λ _, bytes_of "r") demo_outbound demo_msg 4)).
Defined.
