(* ===== verification/HttpInbound.v ===== *)
(** * The inbound HTTP handlers

    [adapter/http/inbound.go], the decoder and encoder of [adapter/http/encode.go]
    and the constructors of [adapter/http/stdlib/inbound.go]: a request becomes
    a message that is sent to a channel ([ServeAsync]) or exchanged for a reply
    ([ServeGateway]), and the response gets one status whatever the flow does,
    a panic included.

    The flow is [target] or [exchange], over an environment [W]; [lower] is
    strings.ToLower. *)

From Stdlib Require Import Ascii.
From S2P Require Import Prelude Message SSE NetHttp HttpConfig HttpOutbound.

Local Open Scope Z_scope.

Definition ErrNilTarget : sentinel := OtherSentinel "msghttp.ErrNilTarget".

(** ** Decoding *)

(** [io.ReadAll(http.MaxBytesReader(nil, body, max))]. *)
Definition read_capped (max : Z) (b : body) : error + bytes :=
  let '(data, err) := b in
  if max <? Z.of_nat (length data) then inl (Sentinel MaxBytesError)
  else if Is err io_EOF then inr data else inl err.

(** The headers copied from the request. *)
Definition allowed_headers (r : Request) (allowed : list string) : gmap string any :=
  foldl (λ h name, let v := header_Get (r_Header r) name in if decide (v = "") then h else <[name := AString v]> h)
    ∅ allowed.

(** The copied headers less the reserved ones, and the request's metadata. *)
Definition decoded_headers (lower : string → string) (r : Request) (cfg : option Config) : gmap string any :=
  let headers := filter (λ p, reserved lower p.1 = false) (allowed_headers r (allowedRequestHeaders cfg)) in
  let ct := header_Get (r_Header r) "Content-Type" in
  let headers := if decide (ct = "") then headers else <[headerHTTPContentType := AString ct]> headers in
  <[headerHTTPQuery := AString (r_RawQuery r)]>
    (<[headerHTTPPath := AString (r_Path r)]> (<[headerHTTPMethod := AString (r_Method r)]> headers)).

(** A callback of the configuration; "" without one. *)
Definition resolve (f : option (Request → outcome string)) (r : Request) : outcome string :=
  match f with Some f => f r | None => Ret "" end.

Definition DecodeRequest (lower : string → string) (now : Z) (random : bytes) (r : Request) (cfg : option Config)
    : outcome (error + msg) :=
  match read_capped (maxBody cfg) (default ([], Sentinel io_EOF) (r_Body r)) with
  | inl err => Ret (inl (Errorf [Sentinel ErrDecodeRequest; err] []))
  | inr raw =>
      let headers := decoded_headers lower r cfg in
      match resolve (advisoryCorrelationID cfg) r with
      | Panic v => Panic v
      | Ret adv =>
          let headers := if decide (adv = "") then headers else <[headerHTTPCorrelationID := AString adv]> headers in
          let m : msg := New now random (ABytes raw) [Some (WithHeaders (Some headers))] in
          match resolve (trustedCorrelationID cfg) r with
          | Panic v => Panic v
          | Ret tr =>
              let cid := if decide (tr = "") then ID m else tr in
              Ret (inr (WithHeader m HeaderCorrelationID (AString cid)))
          end
      end
  end.

(** ** The response *)

Record responseTracker : Type := mkTracker { rt_committed : bool; rt_rw : ResponseWriter }.

Definition set_rt_rw (w : ResponseWriter) (t : responseTracker) : responseTracker := mkTracker (rt_committed t) w.
Definition on_rw {A} (m : M ResponseWriter A) : M responseTracker A := zoom rt_rw set_rt_rw m.
Definition commit : M responseTracker unit := modify (λ t, mkTracker true (rt_rw t)).

Definition tracker_WriteHeader (code : Z) : M responseTracker unit :=
  t ← get;
  if rt_committed t then mret tt
  else _ ← commit; on_rw (rw_WriteHeader code).
Definition tracker_Write (b : bytes) : M responseTracker (option error) :=
  _ ← commit; on_rw (rw_Write b).

(** The loop over the allow-listed response headers. *)
Definition response_headers (m : msg) (allowed : list string) (h : HttpHeader) : HttpHeader :=
  foldl (λ h name, match Headers_String (msg_headers m) name with
                   | Some v => header_Set name (sanitizeHeaderValue v) h
                   | None => h
                   end) h allowed.

Definition EncodeResponse (m : msg) (cfg : option Config) : M responseTracker (option error) :=
  match payloadBytes m with
  | inl err => mret (Some err)
  | inr data =>
      _ ← on_rw (modify (set_header (response_headers m (allowedResponseHeaders cfg))));
      _ ← on_rw (modify (set_header (header_Set "Content-Type" (contentTypeOf m))));
      _ ← on_rw (modify (set_header (header_Set "X-Content-Type-Options" "nosniff")));
      _ ← tracker_WriteHeader 200;
      e ← tracker_Write data;
      mret (match e with Some e => Some (Errorf [Sentinel ErrWriteResponse; e] []) | None => None end)
  end.

(** ** The handler cores *)

(** The value of [http.ErrAbortHandler] as a panic value. *)
Definition ErrAbortHandler : string := "http.ErrAbortHandler".

Section serve.
Context {W : Type}.

(** The response and the environment of the flow. *)
Record serving : Type := mkServing { sv_tracker : responseTracker; sv_env : W }.
Definition on_tracker {A} (m : M responseTracker A) : M serving A :=
  zoom sv_tracker (λ t s, mkServing t (sv_env s)) m.
Definition on_env {A} (m : M W A) : M serving A := zoom sv_env (λ w s, mkServing (sv_tracker s) w) m.
Definition lift {S A} (o : outcome A) : M S A := λ s, (o, s).

(** The deferred [recoverHandler]. *)
Definition recoverHandler (m : M serving unit) : M serving unit :=
  recovering (λ v, if decide (v = ErrAbortHandler) then panic v else on_tracker (tracker_WriteHeader 500)) m.

Definition write_error (cfg : option Config) (err : error) : M serving unit :=
  status ← lift (errStatus cfg err);
  on_tracker (tracker_WriteHeader status).

Definition ServeAsync (lower : string → string) (now : Z) (random : bytes) (r : Request)
    (target : msg → M W (option error)) (cfg : option Config) : M serving unit :=
  recoverHandler (
    d ← lift (DecodeRequest lower now random r cfg);
    match d with
    | inl err => write_error cfg err
    | inr m =>
        e ← on_env (target m);
        match e with
        | Some err => write_error cfg err
        | None => on_tracker (tracker_WriteHeader (successStatusOrDefault cfg))
        end
    end).

Definition ServeGateway (lower : string → string) (now : Z) (random : bytes) (r : Request)
    (exchange : msg → M W (error + msg)) (cfg : option Config) : M serving unit :=
  recoverHandler (
    d ← lift (DecodeRequest lower now random r cfg);
    match d with
    | inl err => write_error cfg err
    | inr m =>
        x ← on_env (exchange m);
        match x with
        | inl err => write_error cfg err
        | inr reply =>
            e ← on_tracker (EncodeResponse reply cfg);
            match e with
            | Some err => if Is err ErrWriteResponse then mret tt else write_error cfg err
            | None => mret tt
            end
        end
    end).

(** What the client gets: the handler runs on a fresh response, and net/http
    finishes it. *)
Definition respond (h : M serving unit) (rw : ResponseWriter) (w : W) : outcome unit * (ResponseWriter * W) :=
  match h (mkServing (mkTracker false rw) w) with
  | (o, s) => (o, (match o with
                   | Ret _ => run_finish (rt_rw (sv_tracker s))
                   | Panic _ => rt_rw (sv_tracker s)
                   end, sv_env s))
  end.

(** *** stdlib *)

Definition NewInbound (lower : string → string) (target : option (msg → M W (option error))) (opts : list (option Option))
    : error + (Z → bytes → Request → M serving unit) :=
  let? cfg := config_at "stdlib.NewInbound" opts in
  match target with
  | None => inl (Sentinel ErrNilTarget)
  | Some target => inr (λ now random r, ServeAsync lower now random r target (Some cfg))
  end.
Definition NewInboundGateway (lower : string → string) (exchange : option (msg → M W (error + msg)))
    (opts : list (option Option)) : error + (Z → bytes → Request → M serving unit) :=
  let? cfg := config_at "stdlib.NewInboundGateway" opts in
  match exchange with
  | None => inl (Sentinel ErrNilExchange)
  | Some exchange => inr (λ now random r, ServeGateway lower now random r exchange (Some cfg))
  end.
End serve.

(** ** Decoding is safe *)

Lemma allowed_headers_filter lower r allowed k :
  (∀ c s, code c < 128 → lower (String c s) = String (to_lower c) (lower s)) → reserved_name k = true →
  filter (λ p, reserved lower p.1 = false) (allowed_headers r allowed) !! k = None.
Proof.
  intros Hlow Hk. apply map_lookup_filter_None_2. right. intros v _. cbn. by rewrite (reserved_lower lower Hlow).
Qed.

Lemma decoded_reserved lower r cfg k :
  (∀ c s, code c < 128 → lower (String c s) = String (to_lower c) (lower s)) → reserved_name k = true →
  decoded_headers lower r cfg !! k = None.
Proof.
  intros Hlow Hk. unfold decoded_headers.
  assert (k ≠ headerHTTPContentType ∧ k ≠ headerHTTPMethod ∧ k ≠ headerHTTPPath ∧ k ≠ headerHTTPQuery) as (H1 & H2 & H3 & H4).
  { split_and!; intros ->; by vm_compute in Hk. }
  rewrite !lookup_insert_ne by done. destruct (decide _); [|rewrite lookup_insert_ne by done]; by apply allowed_headers_filter.
Qed.

Lemma ID_New_headers {T} now random (p : T) h : ID (New now random p [Some (WithHeaders (Some h))]) = NewID random.
Proof.
  unfold ID, New, Headers_String, Headers_Get, gomap_get. cbn.
  by rewrite lookup_insert_ne, lookup_insert_eq by done.
Qed.

(** The core headers of a decoded message. *)
Definition decoded_core (now : Z) (random : bytes) (tr : string) (k : string) : option any :=
  if decide (k = HeaderCorrelationID) then Some (AString (if decide (tr = "") then NewID random else tr))
  else if decide (k = HeaderMessageID) then Some (AString (NewID random))
  else if decide (k = HeaderTimestamp) then Some (ATime now)
  else None.

(** C35. A client cannot forge core metadata or exceed the body cap: a decoded message
    carries the complete body, at most WithMaxBodyBytes long, and of the
    headers under the msgin. prefix, in any case, exactly a freshly minted id
    and timestamp and the correlation id, which is that id unless
    WithTrustedCorrelationID resolved one; no request header and no allow-list
    entry adds or changes one. *)
Theorem decode_request_trusted lower now random r cfg m :
  (∀ c s, code c < 128 → lower (String c s) = String (to_lower c) (lower s)) →
  DecodeRequest lower now random r cfg = Ret (inr m) →
  ∃ data err tr,
    default ([], Sentinel io_EOF) (r_Body r) = (data, err) ∧ Is err io_EOF = true ∧
    msg_payload m = ABytes data ∧ Z.of_nat (length data) ≤ maxBody cfg ∧
    resolve (trustedCorrelationID cfg) r = Ret tr ∧
    (∀ k, reserved_name k = true → Header m k = decoded_core now random tr k).
Proof.
  intros Hlow. unfold DecodeRequest, read_capped.
  destruct (default ([], Sentinel io_EOF) (r_Body r)) as [data err] eqn:Hbody.
  destruct (Z.ltb_spec (maxBody cfg) (Z.of_nat (length data))) as [|Hlen]; [done|].
  destruct (Is err io_EOF) eqn:Heof; [|done].
  destruct (resolve (advisoryCorrelationID cfg) r) as [adv|]; [|done].
  destruct (resolve (trustedCorrelationID cfg) r) as [tr|]; [|done]. intros [= <-].
  exists data, err, tr. split_and!; try done. intros k Hk.
  rewrite Header_WithHeader. unfold decoded_core.
  destruct (decide (HeaderCorrelationID = k)) as [<-|Hc]; [rewrite ID_New_headers; by destruct (decide (HeaderCorrelationID = HeaderCorrelationID))|].
  rewrite (decide_False (P := k = HeaderCorrelationID)) by done. unfold New, Header, Headers_Get, gomap_get. cbn.
  destruct (decide (k = HeaderTimestamp)) as [->|Ht]; [by rewrite lookup_insert_eq|]. rewrite lookup_insert_ne by done.
  destruct (decide (k = HeaderMessageID)) as [->|Hi]; [by rewrite lookup_insert_eq|]. rewrite lookup_insert_ne by done.
  assert (k ≠ headerHTTPCorrelationID) by (intros ->; by vm_compute in Hk).
  destruct (decide (adv = "")); [|rewrite lookup_insert_ne by done]; by apply decoded_reserved.
Qed.

Definition demo_request : Request :=
  mkRequest "POST" "/a" "" "10.0.0.2:7" {["Msgin.delivery-Count" := ["9"]; "X-A" := ["1"]]}
    (Some (bytes_of "abc", Sentinel io_EOF)).
Definition demo_in_cfg : Config := WithRequestHeaders ["msgin.delivery-count"; "MSGIN.correlation-id"; "X-A"] zeroConfig.
Definition demo_decoded : msg :=
  match DecodeRequest ascii_lower 3 (bytes_of "r") demo_request (Some demo_in_cfg) with
  | Ret (inr m) => m | _ => demo_msg end.

Lemma decode_request_trusted_witness :
  Header demo_decoded "X-A" = Some (AString "1") ∧ ∃ tr, ∀ k, reserved_name k = true → Header demo_decoded k = decoded_core 3 (bytes_of "r") tr k.
Proof.
  split; [vm_compute; reflexivity|].
  destruct (decode_request_trusted ascii_lower 3 (bytes_of "r") demo_request (Some demo_in_cfg) demo_decoded)
    as (data & err & tr & _ & _ & _ & _ & _ & H); [reflexivity|vm_compute; reflexivity|].
  exists tr. exact H.
Defined.

(** ** One status per request *)

(** A final status net/http accepts. *)
Definition final_code (n : Z) : Prop := 200 ≤ n ≤ 999.

(** The answer to an error: the mapped status, 500 when the mapper panics; [None]
    is a silent abort. *)
Definition mapped_status (cfg : option Config) (err : error) : option Z :=
  match errStatus cfg err with
  | Ret n => Some n
  | Panic v => if decide (v = ErrAbortHandler) then None else Some 500
  end.
Definition panic_status (v : string) : option Z := if decide (v = ErrAbortHandler) then None else Some 500.

Definition async_answer {W} (d : outcome (error + msg)) (target : msg → M W (option error)) (cfg : option Config) (w : W)
    : option Z * W :=
  match d with
  | Panic v => (panic_status v, w)
  | Ret (inl err) => (mapped_status cfg err, w)
  | Ret (inr m) =>
      match target m w with
      | (Panic v, w') => (panic_status v, w')
      | (Ret (Some err), w') => (mapped_status cfg err, w')
      | (Ret None, w') => (Some (successStatusOrDefault cfg), w')
      end
  end.

Definition gateway_answer {W} (d : outcome (error + msg)) (exchange : msg → M W (error + msg)) (cfg : option Config) (w : W)
    : option (Z * bytes) * W :=
  let plain (o : option Z) : option (Z * bytes) := (λ n, (n, [])) <$> o in
  match d with
  | Panic v => (plain (panic_status v), w)
  | Ret (inl err) => (plain (mapped_status cfg err), w)
  | Ret (inr m) =>
      match exchange m w with
      | (Panic v, w') => (plain (panic_status v), w')
      | (Ret (inl err), w') => (plain (mapped_status cfg err), w')
      | (Ret (inr reply), w') =>
          (match payloadBytes reply with
           | inr data => Some (200, data)
           | inl err => plain (mapped_status cfg err)
           end, w')
      end
  end.

(** The handler has answered with status [n] and [b] of the body, or aborted. *)
Definition ends {W} (rw : ResponseWriter) (w : W) (n : option (Z * bytes)) (res : outcome unit * serving) : Prop :=
  match n with
  | Some (n, b) => ∃ rw', res = (Ret tt, mkServing (mkTracker true rw') w) ∧
      rw_status rw' = Some n ∧ rw_info rw' = [] ∧ ∃ k, rw_body rw' = take k b ∧ (rw_conn rw = None → rw_body rw' = b)
  | None => res = (Panic ErrAbortHandler, mkServing (mkTracker false rw) w)
  end.

Section status.
Context {W : Type} (cfg : option Config).
Hypothesis Hmap : ∀ err n, errStatus cfg err = Ret n → final_code n.

(** Writing a final status on an uncommitted response. *)
Lemma write_final rw (w : W) n :
  fresh_rw rw → final_code n →
  on_tracker (tracker_WriteHeader n) (mkServing (mkTracker false rw) w) =
  (Ret tt, mkServing (mkTracker true (mkRW (rw_header rw) [] (Some n) (rw_header rw) [] (rw_conn rw))) w).
Proof.
  intros (Hi & Hs & Hb) [? ?]. unfold on_tracker, tracker_WriteHeader, on_rw, zoom, commit, rw_WriteHeader.
  unfold mbind, M_bind, get, modify. cbn. rewrite Hs.
  destruct (_ || _) eqn:E; [apply orb_true_iff in E as [?|?]; bool_to_prop; lia|].
  rewrite (proj2 (Z.leb_gt _ _)) by lia. cbn. by rewrite Hi, Hb.
Qed.

Lemma ends_final rw (w : W) n :
  fresh_rw rw → final_code n →
  ends rw w (Some (n, [])) (on_tracker (tracker_WriteHeader n) (mkServing (mkTracker false rw) w)).
Proof.
  intros Hrw Hn. rewrite write_final by done. eexists. split_and!; try done. exists 0%nat. done.
Qed.

Lemma ends_panic rw (w : W) v (m : M serving unit) s :
  fresh_rw rw → m s = (Panic v, mkServing (mkTracker false rw) w) →
  ends rw w ((λ n, (n, [])) <$> panic_status v) (recoverHandler m s).
Proof.
  intros Hrw Hm. unfold recoverHandler, recovering, panic_status. rewrite Hm.
  destruct (decide _) as [->|]; [done|]. by apply ends_final.
Qed.

Lemma ends_ret rw (w : W) n (m : M serving unit) s :
  ends rw w (Some n) (m s) → ends rw w (Some n) (recoverHandler m s).
Proof. destruct n as [n b]. intros (rw' & Hm & H). unfold recoverHandler, recovering. rewrite Hm. by exists rw'. Qed.

Lemma ends_error rw (w : W) err (m : M serving unit) s :
  fresh_rw rw → m s = write_error cfg err (mkServing (mkTracker false rw) w) →
  ends rw w ((λ n, (n, [])) <$> mapped_status cfg err) (recoverHandler m s).
Proof.
  intros Hrw Hm. unfold mapped_status. unfold write_error, mbind, M_bind, lift in Hm.
  destruct (errStatus cfg err) as [n|v] eqn:E.
  - apply ends_ret. rewrite Hm. apply ends_final; [done|by eapply Hmap].
  - apply (ends_panic _ _ v); [done|by rewrite Hm].
Qed.

(** [EncodeResponse] on an uncommitted response. *)
Lemma ends_encode rw (w : W) reply :
  fresh_rw rw →
  match payloadBytes reply with
  | inl err => on_tracker (EncodeResponse reply cfg) (mkServing (mkTracker false rw) w) =
      (Ret (Some err), mkServing (mkTracker false rw) w)
  | inr data => ∃ rw' e, on_tracker (EncodeResponse reply cfg) (mkServing (mkTracker false rw) w) =
      (Ret e, mkServing (mkTracker true rw') w) ∧ (∀ err, e = Some err → Is err ErrWriteResponse = true) ∧
      rw_status rw' = Some 200 ∧ rw_info rw' = [] ∧
      rw_sent rw' = header_Set "X-Content-Type-Options" "nosniff" (header_Set "Content-Type" (contentTypeOf reply)
                      (response_headers reply (allowedResponseHeaders cfg) (rw_header rw))) ∧
      ∃ k, rw_body rw' = take k data ∧ (rw_conn rw = None → rw_body rw' = data)
  end.
Proof.
  intros (Hi & Hs & Hb). unfold on_tracker, EncodeResponse. destruct (payloadBytes reply) as [err|data]; [done|].
  unfold on_rw, tracker_WriteHeader, tracker_Write, rw_Write, rw_WriteHeader, commit, on_rw, zoom, conn_write.
  unfold mbind, M_bind, get, put, modify, mret, M_ret. cbn. rewrite Hs. cbn. rewrite Hb, Hi.
  destruct (rw_conn rw) as [[n err]|] eqn:Hc; cbn.
  - destruct (length data <=? n)%nat eqn:El; cbn.
    + eexists _, None. split_and!; try done. exists (length data). by rewrite firstn_all.
    + eexists _, _. split_and!; [done| |done..|by exists n]. by intros ? [= <-].
  - eexists _, None. split_and!; try done. exists (length data). by rewrite firstn_all.
Qed.

Lemma ends_async lower now random r target (w : W) rw :
  fresh_rw rw → final_code (successStatusOrDefault cfg) →
  let '(n, w') := async_answer (DecodeRequest lower now random r cfg) target cfg w in
  ends rw w' ((λ n, (n, [])) <$> n) (ServeAsync lower now random r target cfg (mkServing (mkTracker false rw) w)).
Proof.
  intros Hrw Hok. unfold async_answer, ServeAsync.
  destruct (DecodeRequest lower now random r cfg) as [[err|m]|v] eqn:Hd; [by apply ends_error| |by apply ends_panic].
  destruct (target m w) as [[[err|]|v] w'] eqn:Ht.
  - apply ends_error; [done|]. unfold mbind, M_bind, lift, on_env, zoom. cbn. by rewrite Ht.
  - cbn [fmap option_fmap option_map]. apply ends_ret. unfold mbind, M_bind, lift, on_env, zoom. cbn. rewrite Ht. by apply ends_final.
  - apply ends_panic; [done|]. unfold mbind, M_bind, lift, on_env, zoom. cbn. by rewrite Ht.
Qed.

Lemma ends_gateway lower now random r exchange (w : W) rw :
  fresh_rw rw →
  let '(n, w') := gateway_answer (DecodeRequest lower now random r cfg) exchange cfg w in
  ends rw w' n (ServeGateway lower now random r exchange cfg (mkServing (mkTracker false rw) w)).
Proof.
  intros Hrw. unfold gateway_answer, ServeGateway.
  destruct (DecodeRequest lower now random r cfg) as [[err|m]|v] eqn:Hd; [by apply ends_error| |by apply ends_panic].
  destruct (exchange m w) as [[[err|reply]|v] w'] eqn:Hx.
  - apply ends_error; [done|]. unfold mbind, M_bind, lift, on_env, zoom. cbn. by rewrite Hx.
  - assert (Hrun : ∀ (k' : error + msg → M (serving (W := W)) unit) s1,
      (on_env (exchange m) ≫= k') (mkServing s1 w) = k' (inr reply) (mkServing s1 w')).
    { intros k' s1. unfold on_env, zoom, mbind, M_bind. cbn. by rewrite Hx. }
    pose proof (ends_encode rw w' reply Hrw) as He. destruct (payloadBytes reply) as [err|data] eqn:Hp.
    + apply ends_error; [done|]. erewrite bind_eq by done. cbv beta iota. rewrite Hrun.
      rewrite (bind_eq _ _ _ _ _ He). unfold payloadBytes in Hp.
      replace (Is err ErrWriteResponse) with false; [done|]. by destruct (msg_payload reply); simplify_eq.
    + destruct He as (rw' & e & He & Hwr & Hst & Hin & _ & Hbody). apply ends_ret.
      erewrite bind_eq by done. cbv beta iota. rewrite Hrun. rewrite (bind_eq _ _ _ _ _ He).
      exists rw'. split_and!; try done. destruct e as [e|]; [by rewrite Hwr|done].
  - apply ends_panic; [done|]. unfold mbind, M_bind, lift, on_env, zoom. cbn. by rewrite Hx.
Qed.

Lemma respond_ends (h : M serving unit) rw (w w' : W) n :
  fresh_rw rw → ends rw w' n (h (mkServing (mkTracker false rw) w)) →
  match n with
  | Some (n, b) => ∃ rw', respond h rw w = (Ret tt, (rw', w')) ∧ rw_status rw' = Some n ∧ rw_info rw' = [] ∧
      ∃ k, rw_body rw' = take k b ∧ (rw_conn rw = None → rw_body rw' = b)
  | None => respond h rw w = (Panic ErrAbortHandler, (rw, w'))
  end.
Proof.
  intros Hrw. unfold respond. destruct n as [[n b]|]; cbn.
  - intros (rw' & -> & Hs & H). exists rw'. split; [|done]. cbn. unfold run_finish, finishRequest, rw_WriteHeader. by rewrite Hs.
  - by intros ->.
Qed.
End status.

(** C8. Provided that the configured success status and every status the error
    mapper returns are final ones (200 to 999, which the options do not check;
    see [invalid_status_answered_200]), a request handled asynchronously gets
    exactly one status, and it says what happened: the mapped status of a decode or send error, 500 for a panic of
    the flow or of a callback, the success status otherwise; no body and no
    informational response precede it, the flow ran at most once, and no panic
    escapes but http.ErrAbortHandler, which leaves the response untouched. *)
Theorem serve_async_answers {W} (cfg : option Config) lower now random r (target : msg → M W (option error)) w rw :
  fresh_rw rw → final_code (successStatusOrDefault cfg) →
  (∀ err n, errStatus cfg err = Ret n → final_code n) →
  let '(n, w') := async_answer (DecodeRequest lower now random r cfg) target cfg w in
  match n with
  | Some n => ∃ rw', respond (ServeAsync lower now random r target cfg) rw w = (Ret tt, (rw', w')) ∧
      rw_status rw' = Some n ∧ rw_info rw' = [] ∧ rw_body rw' = []
  | None => respond (ServeAsync lower now random r target cfg) rw w = (Panic ErrAbortHandler, (rw, w'))
  end.
Proof.
  intros Hrw Hok Hmap. pose proof (ends_async cfg Hmap lower now random r target w rw Hrw Hok) as He.
  destruct (async_answer _ _ _ _) as [[n|] w']; apply respond_ends in He; try done.
  destruct He as (rw' & H1 & H2 & H3 & k & H4 & _). exists rw'. rewrite take_nil in H4. by split_and!.
Qed.

(** A request-reply gets exactly one status, and it says what happened: 200 with
    the reply's bytes (cut short only by a connection that fails), the mapped
    status of a decode, exchange or encode error with no body of the flow, 500
    for a panic; a write that fails after the 200 adds no second status. *)
Theorem serve_gateway_answers {W} (cfg : option Config) lower now random r (exchange : msg → M W (error + msg)) w rw :
  fresh_rw rw → (∀ err n, errStatus cfg err = Ret n → final_code n) →
  let '(n, w') := gateway_answer (DecodeRequest lower now random r cfg) exchange cfg w in
  match n with
  | Some (n, b) => ∃ rw', respond (ServeGateway lower now random r exchange cfg) rw w = (Ret tt, (rw', w')) ∧
      rw_status rw' = Some n ∧ rw_info rw' = [] ∧
      ∃ k, rw_body rw' = take k b ∧ (rw_conn rw = None → rw_body rw' = b)
  | None => respond (ServeGateway lower now random r exchange cfg) rw w = (Panic ErrAbortHandler, (rw, w'))
  end.
Proof.
  intros Hrw Hmap. pose proof (ends_gateway cfg Hmap lower now random r exchange w rw Hrw) as He.
  destruct (gateway_answer _ _ _ _) as [[[n b]|] w']; by apply respond_ends in He.
Qed.

(** A flow that panics on one payload and fails on another. *)
Definition demo_target (m : msg) : M nat (option error) :=
  _ ← modify S;
  if decide (msg_payload m = ABytes (bytes_of "abc")) then panic "boom" else mret (Some (Opaque "full")).
Definition rw_empty : ResponseWriter := mkRW ∅ [] None ∅ [] None.

Lemma default_final err n : errStatus None err = Ret n → final_code n.
Proof. cbn. unfold DefaultErrorStatus, final_code. intros [= <-]. repeat case_match; lia. Qed.

Lemma serve_async_answers_witness :
  ∃ rw', respond (ServeAsync ascii_lower 3 (bytes_of "r") demo_request demo_target None) rw_empty 0%nat = (Ret tt, (rw', 1%nat)) ∧
    rw_status rw' = Some 500 ∧ rw_info rw' = [] ∧ rw_body rw' = [].
Proof.
  apply (serve_async_answers None ascii_lower 3 (bytes_of "r") demo_request demo_target 0%nat rw_empty);
    [split_and!; reflexivity|unfold final_code; cbn; lia|exact default_final].
Defined.

(** A flow that echoes, over a connection that fails after two bytes. *)
Definition demo_echo (m : msg) : M nat (error + msg) := _ ← modify S; mret (inr m).
Definition rw_short : ResponseWriter := mkRW ∅ [] None ∅ [] (Some (2%nat, Opaque "reset")).
Lemma serve_gateway_answers_witness :
  ∃ rw', respond (ServeGateway ascii_lower 3 (bytes_of "r") demo_request demo_echo None) rw_short 0%nat = (Ret tt, (rw', 1%nat)) ∧
    rw_status rw' = Some 200 ∧ rw_info rw' = [] ∧
    ∃ k, rw_body rw' = take k (bytes_of "abc") ∧ (rw_conn rw_short = None → rw_body rw' = bytes_of "abc").
Proof.
  apply (serve_gateway_answers None ascii_lower 3 (bytes_of "r") demo_request demo_echo 0%nat rw_short);
    [split_and!; reflexivity|exact default_final].
Defined.

(** ** Response headers *)

Lemma response_headers_clean m allowed h k vs :
  (∀ k vs, h !! k = Some vs → Forall no_crlf vs) → response_headers m allowed h !! k = Some vs → Forall no_crlf vs.
Proof.
  unfold response_headers. revert h k vs. induction allowed as [|name allowed IH]; intros h k vs Hh; cbn; [apply Hh|].
  apply IH. clear k vs. intros k vs. destruct (Headers_String _ name) as [v|]; [|apply Hh]. unfold header_Set.
  destruct (decide (CanonicalHeaderKey name = k)) as [<-|Hne].
  - rewrite lookup_insert_eq. intros [= <-]. apply Forall_singleton, sanitize_no_crlf.
  - rewrite lookup_insert_ne by done. apply Hh.
Qed.

(** A reply cannot split the response or have its bytes sniffed: the headers sent
    with the 200 hold no CR or LF in any value, whatever the message's headers
    and the allow-list are, Content-Type is the resolved one and never empty,
    and X-Content-Type-Options is nosniff even if an allow-listed header names
    it; a reply whose payload is not bytes leaves the response untouched. *)
Theorem encode_response_safe reply cfg rw :
  fresh_rw rw → rw_header rw = ∅ →
  match EncodeResponse reply cfg (mkTracker false rw) with
  | (Ret e, t) =>
      match payloadBytes reply with
      | inl err => e = Some err ∧ t = mkTracker false rw
      | inr _ =>
          rw_status (rt_rw t) = Some 200 ∧
          rw_sent (rt_rw t) !! "Content-Type" = Some [contentTypeOf reply] ∧ contentTypeOf reply ≠ "" ∧
          rw_sent (rt_rw t) !! "X-Content-Type-Options" = Some ["nosniff"] ∧
          (∀ k vs, rw_sent (rt_rw t) !! k = Some vs → Forall no_crlf vs)
      end
  | (Panic _, _) => False
  end.
Proof.
  intros Hrw Hh. pose proof (ends_encode (W := unit) cfg rw tt reply Hrw) as He. unfold on_tracker, zoom in He. cbn in He.
  destruct (EncodeResponse reply cfg (mkTracker false rw)) as [o t].
  destruct (payloadBytes reply) as [err|data]; [by simplify_eq|].
  destruct He as (rw' & e & [= -> ->] & _ & Hst & _ & Hsent & _). cbn. rewrite Hsent, Hh.
  destruct (content_type_ok reply) as [Hct Hcr]. unfold header_Set.
  split_and!; [done|by rewrite lookup_insert_ne, lookup_insert_eq by done|done|by rewrite lookup_insert_eq|].
  intros k vs.
  destruct (decide (CanonicalHeaderKey "X-Content-Type-Options" = k)) as [<-|H1];
    [rewrite lookup_insert_eq; intros [= <-]; apply Forall_singleton; by apply (bool_decide_unpack _)|].
  rewrite lookup_insert_ne by done.
  destruct (decide (CanonicalHeaderKey "Content-Type" = k)) as [<-|H2];
    [rewrite lookup_insert_eq; intros [= <-]; by apply Forall_singleton|].
  rewrite lookup_insert_ne by done. apply response_headers_clean. intros ? ? H. by rewrite lookup_empty in H.
Qed.

Lemma encode_response_safe_witness :
  match EncodeResponse demo_msg (Some (WithResponseHeaders ["X-A"; "x-content-type-options"] zeroConfig)) (mkTracker false rw_empty) with
  | (Ret e, t) => rw_sent (rt_rw t) !! "X-Content-Type-Options" = Some ["nosniff"]
  | (Panic _, _) => False
  end.
Proof.
  pose proof (encode_response_safe demo_msg (Some (WithResponseHeaders ["X-A"; "x-content-type-options"] zeroConfig)) rw_empty) as H.
  assert (H1 : fresh_rw rw_empty) by (split_and!; reflexivity). specialize (H H1 eq_refl).
  destruct (EncodeResponse _ _ _) as [[e|v] t]; [|exact H]. exact (proj1 (proj2 (proj2 (proj2 H)))).
Defined.

(** A status mapper that returns an invalid code turns a failed request into a
    success: the tracker marks the response committed before net/http panics
    on the code, so that the recovered panic's 500 is dropped and net/http
    finishes the request with 200. *)
Theorem invalid_status_answered_200 :
  let cfg := WithErrorStatus (Some (λ _, Ret 0)) zeroConfig in
  let failing (m : msg) : M unit (option error) := mret (Some (Opaque "down")) in
  let '(o, (rw', _)) := respond (ServeAsync ascii_lower 3 (bytes_of "r") demo_request failing (Some cfg)) rw_empty tt in
  o = Ret tt ∧ rw_status rw' = Some 200.
Proof. vm_compute. split; reflexivity. Qed.
