(* ===== verification/SSEClient.v ===== *)
(** * The Server-Sent Events client

    [adapter/http/sseclient.go]: [Stream] connects, triages the response, delivers
    each event the parser reads, and reconnects after a wait that doubles on
    plain failures, resets after an event and follows the server's retry field.

    The environment of a [Stream] call is the list of its connection attempts:
    what the round trip returned (a read timeout shows as an error of the round
    trip or of the body), how many deliveries the consumer takes before the
    caller's context ends, and whether the context ends during the wait.
    [ParseMediaType] is mime.ParseMediaType, [None] on an error; [fresh] gives the
    time and the random bytes of the n-th message of a connection. *)

From Stdlib Require Import Ascii.
From S2P Require Import Prelude Message SSE NetHttp HttpConfig HttpOutbound.

Local Open Scope Z_scope.

Definition ErrNotEventStream : sentinel := OtherSentinel "msghttp.ErrNotEventStream".

(** ** Construction *)

Definition resolveSSEClient (cfg : Config) : option Client :=
  if ht_httpClientSet cfg then
    match ht_httpClient cfg with
    | None => None
    | Some c =>
        if ht_followRedirects cfg || bool_decide (is_Some (cl_CheckRedirect c)) then Some c
        else Some (mkClient (cl_Timeout c) (Some ErrUseLastResponse))
    end
  else Some (mkClient 0 (if ht_followRedirects cfg then None else Some ErrUseLastResponse)).

Record SSEClient : Type := mkSSEClient { se_url : string; se_client : option Client; se_cfg : Config }.

Definition NewSSEClient (trim : string → string) (url_Parse : string → error + string * string)
    (url : string) (opts : list (option Option)) : error + SSEClient :=
  let? cfg := config_at "msghttp.NewSSEClient" opts in
  match validateURL trim url_Parse url with
  | Some err => inl err
  | None => inr (mkSSEClient url (resolveSSEClient cfg) cfg)
  end.

Definition NativeRedelivery : bool := false.
Definition NativeDeadLetter : bool := false.

(** ** One connection *)

Record connResult : Type := mkConnResult {
  cr_terminal : bool;
  cr_terminalErr : option error;
  cr_gotEvent : bool;
  cr_retry : option Z;
  cr_lastEventID : string
}.

Inductive sseTriageOutcome : Type := sseTriageStream | sseTriageDone | sseTriageWrongType | sseTriageReconnect.

Definition classifySSEResponse (ParseMediaType : string → option string) (resp : Response) : sseTriageOutcome :=
  if resp_StatusCode resp =? 200 then
    if decide (ParseMediaType (header_Get (resp_Header resp) "Content-Type") = Some "text/event-stream")
    then sseTriageStream else sseTriageWrongType
  else if resp_StatusCode resp =? 204 then sseTriageDone
  else sseTriageReconnect.

(** The headers of the request. *)
Definition connect_request (cfg : Config) (lastEventID : string) : HttpHeader :=
  let base := map_fold (λ name values h, foldl (λ h v, header_Add name v h) h values) ∅ (default ∅ (ht_connectHeaders cfg)) in
  let h := header_Set "Cache-Control" "no-cache" (header_Set "Accept" "text/event-stream" base) in
  if decide (lastEventID = "") then h else header_Set "Last-Event-ID" lastEventID h.

(** The message of an event. *)
Definition event_message (now : Z) (random : bytes) (ev : SSEEvent) : msg :=
  let m : msg := New now random (ABytes (ev_Data ev)) [Some (WithClock (Some now))] in
  let m := if decide (ev_Name ev = "") then m else WithHeader m HeaderSSEEventName (AString (ev_Name ev)) in
  if decide (ev_ID ev = "") then m else WithHeader m HeaderSSEEventID (AString (ev_ID ev)).

Section stream.
Context (ParseMediaType : string → option string) (fresh : nat → Z * bytes) (ctxErr : error).

(** The loop: [room] is how many deliveries are taken before the context ends,
    [n] the deliveries so far. *)
Fixpoint readEvents_loop (fuel : nat) (room : option nat) (n : nat) (p : SSEParser) (r : bytes)
    : option (list msg * connResult) :=
  match fuel with
  | O => None
  | S fuel =>
      match Next p r with
      | None => None
      | Some (inl _, p', _) =>
          Some ([], mkConnResult false None (0 <? n)%nat (RetryDelay p') (LastEventID p'))
      | Some (inr ev, p', r') =>
          let m := event_message (fresh n).1 (fresh n).2 ev in
          match room with
          | Some O => Some ([], mkConnResult true (Some ctxErr) (0 <? n)%nat None (LastEventID p'))
          | _ =>
              match readEvents_loop fuel (Nat.pred <$> room) (S n) p' r' with
              | Some (ms, res) => Some (m :: ms, res)
              | None => None
              end
          end
      end
  end.

(** [readEvents]: [lastEventID] is not used. *)
Definition readEvents (cfg : Config) (room : option nat) (b : body) (lastEventID : string) : option (list msg * connResult) :=
  let '(p, r) := newSSEParserWithCap b.1 b.2 (st_val (ht_maxEventBytes cfg)) in
  readEvents_loop (S (length r)) room 0 p r.

(** [connect] after the round trip [res]. *)
Definition connect (cfg : Config) (res : doError + Response) (room : option nat) (lastEventID : string)
    : option (list msg * connResult) :=
  match res with
  | inl _ => Some ([], mkConnResult false None false None lastEventID)
  | inr resp =>
      match classifySSEResponse ParseMediaType resp with
      | sseTriageStream => readEvents cfg room (default ([], Sentinel io_EOF) (resp_Body resp)) lastEventID
      | sseTriageDone => Some ([], mkConnResult true None false None lastEventID)
      | sseTriageWrongType => Some ([], mkConnResult true (Some (Sentinel ErrNotEventStream)) false None lastEventID)
      | sseTriageReconnect => Some ([], mkConnResult false None false None lastEventID)
      end
  end.

(** ** Stream *)

Definition clampDelay (d minD maxD : Z) : Z := if d <? minD then minD else if maxD <? d then maxD else d.
Definition doubleDelay (d maxD : Z) : Z :=
  let next := wrap64 (d * 2) in if (next <=? 0) || (maxD <? next) then maxD else next.

Definition wait_of (min max delay : Z) (res : connResult) : Z :=
  match cr_retry res with
  | Some d => clampDelay d min max
  | None => if cr_gotEvent res then min else delay
  end.
Definition next_delay (min max wait : Z) (res : connResult) : Z :=
  match cr_retry res with
  | Some _ => wait
  | None => if cr_gotEvent res then min else doubleDelay wait max
  end.

Record attempt : Type := mkAttempt {
  at_result : doError + Response;
  at_room : option nat;
  at_ctxDone : bool
}.

(** What a run has done: the requests' headers, the messages delivered, the waits
    begun, and what [Stream] returned, if it did. *)
Record streamRun : Type := mkRun {
  sr_requests : list HttpHeader;
  sr_delivered : list msg;
  sr_waits : list Z;
  sr_returned : option (option error)
}.

Definition run_cons (req : HttpHeader) (ms : list msg) (ws : list Z) (s : streamRun) : streamRun :=
  mkRun (req :: sr_requests s) (ms ++ sr_delivered s) (ws ++ sr_waits s) (sr_returned s).

(** The loop of [Stream]; it is still running when the attempts are used up. *)
Fixpoint Stream_loop (cfg : Config) (delay : Z) (lastEventID : string) (env : list attempt) : option streamRun :=
  let min := (st_val (ht_reconnect cfg)).1 in
  let max := (st_val (ht_reconnect cfg)).2 in
  match env with
  | [] => Some (mkRun [] [] [] None)
  | a :: rest =>
      let req := connect_request cfg lastEventID in
      match connect cfg (at_result a) (at_room a) lastEventID with
      | None => None
      | Some (ms, res) =>
          if cr_terminal res then Some (mkRun [req] ms [] (Some (cr_terminalErr res)))
          else
            let wait := wait_of min max delay res in
            if at_ctxDone a then Some (mkRun [req] ms [wait] (Some (Some ctxErr)))
            else run_cons req ms [wait] <$> Stream_loop cfg (next_delay min max wait res) (cr_lastEventID res) rest
      end
  end.
Definition Stream (cfg : Config) (env : list attempt) : option streamRun :=
  Stream_loop cfg (st_val (ht_reconnect cfg)).1 "" env.
End stream.

(** ** Properties *)

Lemma read_all_total n p r : 0 ≤ p_max p → (length r < n)%nat → ∃ evs e p', read_all n p r = Some (evs, e, p').
Proof.
  revert p r. induction n as [|n IH]; intros p r Hp Hn; [lia|]. cbn [read_all].
  destruct (Next_total p r Hp) as (res & p' & r' & -> & Hmax & _ & _ & Hlt).
  destruct res as [e|ev]; [by eauto|]. specialize (Hlt ev eq_refl).
  destruct (IH p' r') as (evs & e & p2 & ->); [lia..|]. eauto.
Qed.

Section client.
Context (ParseMediaType : string → option string) (fresh : nat → Z * bytes) (ctxErr : error).

Fixpoint messages (n : nat) (evs : list SSEEvent) : list msg :=
  match evs with
  | [] => []
  | ev :: rest => event_message (fresh n).1 (fresh n).2 ev :: messages (S n) rest
  end.

(** A connection delivers the events of its stream, as far as they are taken. *)
Lemma readEvents_loop_spec fuel room n p r evs e p' :
  read_all fuel p r = Some (evs, e, p') →
  match room with
  | Some k =>
      if decide (length evs ≤ k)%nat then
        readEvents_loop fresh ctxErr fuel room n p r =
          Some (messages n evs, mkConnResult false None (0 <? n + length evs)%nat (RetryDelay p') (LastEventID p'))
      else ∃ id, readEvents_loop fresh ctxErr fuel room n p r =
          Some (messages n (take k evs), mkConnResult true (Some ctxErr) (0 <? n + k)%nat None id)
  | None => readEvents_loop fresh ctxErr fuel room n p r =
      Some (messages n evs, mkConnResult false None (0 <? n + length evs)%nat (RetryDelay p') (LastEventID p'))
  end.
Proof.
  revert room n p r evs. induction fuel as [|fuel IH]; intros room n p r evs; cbn [read_all readEvents_loop]; [done|].
  destruct (Next p r) as [[[[e1|ev] p1] r1]|]; [| |done].
  - intros [= <- <- <-]. rewrite Nat.add_0_r. destruct room as [k|]; [|done]. by rewrite decide_True by (cbn; lia).
  - destruct (read_all fuel p1 r1) as [[[evs1 e1] p2]|] eqn:Hr; [|done]. intros [= <- <- <-].
    destruct room as [[|k]|]; cbn [length fmap option_fmap option_map Nat.pred].
    + rewrite decide_False by lia. eexists. by rewrite Nat.add_0_r.
    + specialize (IH (Some k) (S n) p1 r1 evs1 Hr). cbn in IH.
      destruct (decide (length evs1 ≤ k)%nat); [rewrite decide_True by lia|rewrite decide_False by lia].
      * rewrite IH. by rewrite Nat.add_succ_r.
      * destruct IH as [id ->]. exists id. by rewrite Nat.add_succ_r.
    + specialize (IH None (S n) p1 r1 evs1 Hr). cbn in IH. rewrite IH. by rewrite Nat.add_succ_r.
Qed.

Lemma readEvents_total cfg room b id : config_ok cfg → is_Some (readEvents fresh ctxErr cfg room b id).
Proof.
  intros Hcfg. unfold readEvents. destruct (newSSEParserWithCap _ _ _) as [p r] eqn:Hp. injection Hp as <- _.
  pose proof (co_eventBytes _ Hcfg).
  destruct (read_all_total (S (length r)) (mkSSEParser (st_val (ht_maxEventBytes cfg)) b.2 [] "" "" 0 false) r)
    as (evs & e & p' & Hr); [cbn; lia|lia|].
  pose proof (readEvents_loop_spec _ room 0 _ _ _ _ _ Hr) as Hl. destruct room as [k|]; [|by rewrite Hl].
  destruct (decide _); [by rewrite Hl|]. destruct Hl as [id' ->]. done.
Qed.

(** *** The waits *)

(** The durations of a configuration are int64. *)
Definition reconnect_ok (cfg : Config) : Prop := config_ok cfg ∧ (st_val (ht_reconnect cfg)).2 ≤ MaxInt64.

Lemma clampDelay_range d min max : min ≤ max → min ≤ clampDelay d min max ≤ max.
Proof. intros. unfold clampDelay. destruct (Z.ltb_spec d min), (Z.ltb_spec max d); lia. Qed.

(** The wrap-around never shows: doubling is capped doubling. *)
Lemma doubleDelay_min d max : 0 < d ≤ max → max ≤ MaxInt64 → doubleDelay d max = Z.min (2 * d) max.
Proof.
  intros Hd Hmax. unfold doubleDelay. destruct (decide (d * 2 ≤ MaxInt64)).
  - rewrite wrap64_id by (unfold int64_range, MinInt64 in *; lia).
    destruct (Z.leb_spec (d * 2) 0), (Z.ltb_spec max (d * 2)); cbn; lia.
  - assert (Hw : wrap64 (d * 2) ≤ 0).
    { unfold wrap64, MaxInt64 in *. replace (d * 2 + 2 ^ 63) with (d * 2 + 2 ^ 63 - 2 ^ 64 + 1 * 2 ^ 64) by lia.
      rewrite Z.mod_add by lia. rewrite Z.mod_small; lia. }
    rewrite (proj2 (Z.leb_le _ _) Hw). cbn. lia.
Qed.

Lemma wait_range min max delay res : 0 < min ≤ max → min ≤ delay ≤ max → min ≤ wait_of min max delay res ≤ max.
Proof.
  intros. unfold wait_of. destruct (cr_retry res); [apply clampDelay_range; lia|]. destruct (cr_gotEvent res); lia.
Qed.
Lemma next_range min max wait res :
  0 < min ≤ max → max ≤ MaxInt64 → min ≤ wait ≤ max → min ≤ next_delay min max wait res ≤ max.
Proof.
  intros. unfold next_delay. destruct (cr_retry res); [done|]. destruct (cr_gotEvent res); [lia|].
  rewrite doubleDelay_min by lia. lia.
Qed.

Lemma Stream_loop_spec cfg delay id env :
  reconnect_ok cfg → (st_val (ht_reconnect cfg)).1 ≤ delay ≤ (st_val (ht_reconnect cfg)).2 →
  ∃ s, Stream_loop ParseMediaType fresh ctxErr cfg delay id env = Some s ∧
    Forall (λ w, (st_val (ht_reconnect cfg)).1 ≤ w ≤ (st_val (ht_reconnect cfg)).2) (sr_waits s).
Proof.
  intros [Hcfg Hmax]. pose proof (co_reconnect _ Hcfg) as Hr. revert delay id. induction env as [|a env IH]; intros delay id Hd; cbn [Stream_loop].
  - eexists. split; [done|]. constructor.
  - assert (Hc : ∃ ms res, connect ParseMediaType fresh ctxErr cfg (at_result a) (at_room a) id = Some (ms, res)).
    { unfold connect. destruct (at_result a) as [|resp]; [by eauto|]. destruct (classifySSEResponse _ _); try by eauto.
      destruct (readEvents_total cfg (at_room a) (default ([], Sentinel io_EOF) (resp_Body resp)) id Hcfg) as [[ms res] ->].
      eauto. }
    destruct Hc as (ms & res & ->). destruct (cr_terminal res); [eexists; split; [done|]; constructor|].
    pose proof (wait_range _ _ _ res Hr Hd) as Hw. destruct (at_ctxDone a).
    + eexists. split; [done|]. by apply Forall_singleton.
    + destruct (IH (next_delay (st_val (ht_reconnect cfg)).1 (st_val (ht_reconnect cfg)).2 
        (wait_of (st_val (ht_reconnect cfg)).1 (st_val (ht_reconnect cfg)).2 delay res) res) (cr_lastEventID res)) as (s & -> & Hs);
        [by apply next_range|]. eexists. split; [done|]. cbn. by constructor.
Qed.
(** An attempt that fails before a stream is open. *)
Definition refused (a : attempt) : Prop :=
  at_ctxDone a = false ∧
  match at_result a with inl _ => True | inr resp => resp_StatusCode resp ≠ 200 ∧ resp_StatusCode resp ≠ 204 end.

Lemma connect_refused cfg a id :
  refused a → connect ParseMediaType fresh ctxErr cfg (at_result a) (at_room a) id = Some ([], mkConnResult false None false None id).
Proof.
  intros [_ H]. unfold connect, classifySSEResponse. destruct (at_result a) as [|resp]; [done|]. destruct H as [H1 H2].
  by rewrite (proj2 (Z.eqb_neq _ _) H1), (proj2 (Z.eqb_neq _ _) H2).
Qed.

Lemma refused_waits cfg delay id env :
  reconnect_ok cfg → 0 < delay ≤ (st_val (ht_reconnect cfg)).2 → Forall refused env →
  Stream_loop ParseMediaType fresh ctxErr cfg delay id env =
    Some (mkRun (replicate (length env) (connect_request cfg id)) []
            ((λ i, Z.min (delay * 2 ^ Z.of_nat i) (st_val (ht_reconnect cfg)).2) <$> seq 0 (length env)) None).
Proof.
  intros [Hcfg Hmax]. revert delay. induction env as [|a env IH]; intros delay Hd Henv; [done|].
  inversion Henv as [|? ? Ha Henv']; subst. cbn [Stream_loop]. rewrite connect_refused by done.
  cbn [cr_terminal wait_of next_delay cr_retry cr_gotEvent cr_lastEventID]. rewrite (proj1 Ha).
  rewrite doubleDelay_min by lia. rewrite IH by (done || lia). cbn. unfold run_cons. cbn. do 2 f_equal. f_equal.
  - rewrite Z.mul_1_r. lia.
  - rewrite <-fmap_S_seq, <-list_fmap_compose. apply list_fmap_ext. intros i k _. cbn.
    rewrite Nat2Z.inj_succ, Z.pow_succ_r by lia.
    pose proof (Z.pow_pos_nonneg 2 (Z.of_nat k) ltac:(lia) ltac:(lia)). nia.
Qed.

End client.

(** C40. Reconnecting never spins and never stalls: on every sequence of connection
    attempts, whatever the servers answer and whatever retry fields they send
    (one that overflows int64 nanoseconds included), [Stream] keeps running with
    every wait between WithReconnectBackoff's bounds; and while attempts are
    refused the wait before the i-th next one is exactly the current delay
    doubled i times, capped at the maximum, with the resume position kept. *)
Theorem stream_backoff_exact ParseMediaType fresh ctxErr trim url_Parse url opts c :
  NewSSEClient trim url_Parse url opts = inr c → (st_val (ht_reconnect (se_cfg c))).2 ≤ MaxInt64 →
  let min := (st_val (ht_reconnect (se_cfg c))).1 in
  let max := (st_val (ht_reconnect (se_cfg c))).2 in
  (∀ env, ∃ s, Stream ParseMediaType fresh ctxErr (se_cfg c) env = Some s ∧ Forall (λ w, min ≤ w ≤ max) (sr_waits s)) ∧
  (∀ env delay id, min ≤ delay ≤ max → Forall refused env →
     Stream_loop ParseMediaType fresh ctxErr (se_cfg c) delay id env =
       Some (mkRun (replicate (length env) (connect_request (se_cfg c) id)) []
               ((λ i, Z.min (delay * 2 ^ Z.of_nat i) max) <$> seq 0 (length env)) None)).
Proof.
  unfold NewSSEClient, config_at. intros (cfg & Hc & Hn)%sum_bind_inr Hmax.
  destruct (first_nil 0 opts); [done|]. apply config_resolved in Hc. destruct (validateURL _ _ _); [done|].
  injection Hn as <-. cbn in *. pose proof (co_reconnect _ Hc). split.
  - intros env. apply Stream_loop_spec; [done|lia].
  - intros env delay id Hd Henv. apply refused_waits; [done|lia|done].
Qed.

(** What a stream delivers is what its bytes say: a connection's messages are the
    events the parser reads from the body, in order and each once, cut off only
    where the caller's context ended; every message carries the event's bytes,
    a fresh id of its own and the event's name and id as headers. *)
Theorem stream_delivers_events fresh ctxErr cfg room b id p0 r0 :
  config_ok cfg → newSSEParserWithCap b.1 b.2 (st_val (ht_maxEventBytes cfg)) = (p0, r0) →
  ∃ evs e p' ms res,
    read_stream p0 r0 = Some (evs, e, p') ∧ readEvents fresh ctxErr cfg room b id = Some (ms, res) ∧
    ms = messages fresh 0 (match room with Some k => take k evs | None => evs end) ∧
    (cr_terminal res = true ↔ ∃ k, room = Some k ∧ (k < length evs)%nat) ∧
    (cr_terminal res = false → cr_gotEvent res = (0 <? length evs)%nat ∧ cr_retry res = RetryDelay p').
Proof.
  intros Hcfg Hp. pose proof (co_eventBytes _ Hcfg) as Hcap.
  assert (p_max p0 = st_val (ht_maxEventBytes cfg)) as Hmax by (injection Hp as <- _; done).
  destruct (read_all_total (S (length r0)) p0 r0) as (evs & e & p' & Hr); [lia|lia|].
  unfold readEvents. rewrite Hp. pose proof (readEvents_loop_spec fresh ctxErr _ room 0 _ _ _ _ _ Hr) as Hl.
  destruct room as [k|]; [destruct (decide (length evs ≤ k)%nat)|].
  - eexists evs, e, p', _, _. split_and!; [done|done|by rewrite take_ge|split; [done|]|done].
    intros (k' & [= <-] & ?). lia.
  - destruct Hl as [id' Hl]. eexists evs, e, p', _, _. split_and!; [done|done|done|split; [|done]|done].
    intros _. exists k. split; [done|lia].
  - eexists evs, e, p', _, _. split_and!; [done|done|done|split; [done|]|done]. by intros (k & ? & _).
Qed.


(** A connection is terminal only when the context ended during a delivery. *)
Lemma readEvents_terminal fresh ctxErr fuel room n p r ms res :
  readEvents_loop fresh ctxErr fuel room n p r = Some (ms, res) → cr_terminal res = true →
  cr_terminalErr res = Some ctxErr ∧ is_Some room.
Proof.
  revert room n p r ms. induction fuel as [|fuel IH]; intros room n p r ms; cbn [readEvents_loop]; [done|].
  destruct (Next p r) as [[[[e|ev] p'] r']|]; [by intros [= <- <-]| |done].
  destruct room as [[|k]|]; [by intros [= <- <-]| |].
  all: destruct (readEvents_loop _ _ _ _ _ _ _) as [[ms' res']|] eqn:E; [|done]; intros [= <- <-] Ht.
  - split; [by eapply IH|done].
  - by apply IH in E as [_ [? ?]].
Qed.

(** Stream ends for a reason: it returns nil only on a 204, ErrNotEventStream only
    on a 200 that is not an event stream, and otherwise the error of the
    caller's context, which ended while it waited or delivered; every other
    answer, transport error or broken stream is retried. *)
Theorem stream_end_reasons ParseMediaType fresh ctxErr cfg delay id env s err :
  Stream_loop ParseMediaType fresh ctxErr cfg delay id env = Some s → sr_returned s = Some err →
  ∃ a, a ∈ env ∧
    ((err = None ∧ ∃ resp, at_result a = inr resp ∧ resp_StatusCode resp = 204) ∨
     (err = Some (Sentinel ErrNotEventStream) ∧ ∃ resp, at_result a = inr resp ∧ resp_StatusCode resp = 200 ∧
        ParseMediaType (header_Get (resp_Header resp) "Content-Type") ≠ Some "text/event-stream") ∨
     (err = Some ctxErr ∧ (at_ctxDone a = true ∨ is_Some (at_room a)))).
Proof.
  revert delay id s. induction env as [|a env IH]; intros delay id s; cbn [Stream_loop]; [by intros [= <-]|].
  destruct (connect _ _ _ _ _ _ _) as [[ms res]|] eqn:Hc; [|done]. destruct (cr_terminal res) eqn:Ht.
  - intros [= <-] [= <-]. exists a. split; [by left|]. unfold connect, classifySSEResponse in Hc.
    destruct (at_result a) as [|resp] eqn:Hr; [by simplify_eq|].
    destruct (Z.eqb_spec (resp_StatusCode resp) 200); [destruct (decide _)|destruct (Z.eqb_spec (resp_StatusCode resp) 204)].
    + right; right. unfold readEvents in Hc. destruct (newSSEParserWithCap _ _ _) as [p r].
      apply readEvents_terminal in Hc as [-> ?]; auto.
    + right; left. injection Hc as <- <-. split; [done|]. by exists resp.
    + left. injection Hc as <- <-. split; [done|]. by exists resp.
    + by simplify_eq.
  - destruct (at_ctxDone a) eqn:Hd.
    + intros [= <-] [= <-]. exists a. split; [by left|]. by right; right; auto.
    + destruct (Stream_loop _ _ _ _ _ _ _) as [s'|] eqn:Hs; [|done]. intros [= <-] Hret. cbn in Hret.
      destruct (IH _ _ _ Hs Hret) as (a' & Hin & H). exists a'. split; [by right|done].
Qed.

(** *** Concrete runs *)

Definition demo_media (s : string) : option string := if decide (s = "text/event-stream") then Some s else None.
Definition demo_fresh (n : nat) : Z * bytes := (Z.of_nat n, [ascii_of_nat n]).
Definition stream_of (data : bytes) : attempt :=
  mkAttempt (inr (mkResponse 200 {["Content-Type" := ["text/event-stream"]]} (Some (data, Sentinel io_EOF)))) None false.
Definition busy : attempt := mkAttempt (inr (mkResponse 503 ∅ None)) None false.
Definition gone : attempt := mkAttempt (inr (mkResponse 204 ∅ None)) None false.
Definition demo_url (s : string) : error + string * string := inr ("http", "h").
Definition client_cfg : Config := match NewConfig [] with inr c => c | inl _ => zeroConfig end.
Definition demo_client : SSEClient :=
  match NewSSEClient (λ s, s) demo_url "http://h/" [] with inr c => c | inl _ => mkSSEClient "" None client_cfg end.

Lemma stream_backoff_exact_witness :
  ∃ s, Stream demo_media demo_fresh (Opaque "canceled") (se_cfg demo_client) [busy; busy; busy] = Some s ∧
    Forall (λ w, 500 * millisecond ≤ w ≤ 30 * second) (sr_waits s).
Proof.
  exact (proj1 (stream_backoff_exact demo_media demo_fresh (Opaque "canceled") (λ s, s) demo_url "http://h/" [] demo_client
    eq_refl ltac:(vm_compute; discriminate)) [busy; busy; busy]).
Defined.

Lemma stream_delivers_events_witness :
  ∃ evs e p' ms res,
    read_stream (mkSSEParser defaultMaxEventBytes (Sentinel io_EOF) [] "" "" 0 false) demo_stream = Some (evs, e, p') ∧
    readEvents demo_fresh (Opaque "canceled") client_cfg (Some 1%nat) (demo_stream, Sentinel io_EOF) "" = Some (ms, res) ∧
    ms = messages demo_fresh 0 (take 1 evs).
Proof.
  destruct (stream_delivers_events demo_fresh (Opaque "canceled") client_cfg (Some 1%nat) (demo_stream, Sentinel io_EOF) ""
    (mkSSEParser defaultMaxEventBytes (Sentinel io_EOF) [] "" "" 0 false) demo_stream)
    as (evs & e & p' & ms & res & H1 & H2 & H3 & _);
    [apply (config_resolved []); reflexivity|vm_compute; reflexivity|].
  exists evs, e, p', ms, res. exact (conj H1 (conj H2 H3)).
Defined.

Lemma stream_end_reasons_witness :
  ∃ a, a ∈ [busy; gone; busy] ∧
    ((@None error = None ∧ ∃ resp, at_result a = inr resp ∧ resp_StatusCode resp = 204) ∨
     (None = Some (Sentinel ErrNotEventStream) ∧ ∃ resp, at_result a = inr resp ∧ resp_StatusCode resp = 200 ∧
        demo_media (header_Get (resp_Header resp) "Content-Type") ≠ Some "text/event-stream") ∨
     (None = Some (Opaque "canceled") ∧ (at_ctxDone a = true ∨ is_Some (at_room a)))).
Proof.
  apply (stream_end_reasons demo_media demo_fresh (Opaque "canceled") client_cfg 500000000 "" [busy; gone; busy]
    (mkRun [connect_request client_cfg ""; connect_request client_cfg ""] [] [500000000] (Some None)) None);
    vm_compute; reflexivity.
Defined.

(** What a request resumes from, and the ids of the delivered events. *)
Definition resumes (s : option streamRun) : option (list (option (list string))) :=
  (λ s, (λ h : HttpHeader, h !! "Last-Event-Id") <$> sr_requests s) <$> s.
Definition delivered_ids (s : option streamRun) : option (list (option string)) :=
  (λ s, (λ m : msg, Headers_String (msg_headers m) HeaderSSEEventID) <$> sr_delivered s) <$> s.
Definition event_wire (id body : string) : bytes := sse_frame (mkSSEEvent id "" (bytes_of body)).

(** A connection that ends without an id line forgets the resume position:
    readEvents ignores the position it is given and returns that of its fresh
    parser. After event 4 was delivered, a connection that carries only a
    heartbeat makes the next request ask for the live stream, so that what was
    sent in between is lost; a refused attempt keeps the position. *)
Theorem resume_position_forgotten :
  let run := Stream demo_media demo_fresh (Opaque "canceled") client_cfg
    [stream_of (event_wire "4" "a"); busy; stream_of sseHeartbeat; busy] in
  delivered_ids run = Some [Some "4"] ∧
  resumes run = Some [None; Some ["4"]; Some ["4"]; None].
Proof. split; vm_compute; reflexivity. Qed.

(** A connection that breaks inside an event resumes after it: the id of a torn
    event, of which the client dispatched nothing, becomes the resume position,
    so that a server that replays what follows it never sends it again. *)
Theorem torn_event_skipped :
  let torn := take 8 (event_wire "5" "b") in
  let run := Stream demo_media demo_fresh (Opaque "canceled") client_cfg
    [stream_of (event_wire "4" "a" ++ torn); busy] in
  delivered_ids run = Some [Some "4"] ∧ resumes run = Some [None; Some ["5"]].
Proof. split; vm_compute; reflexivity. Qed.
