(* ===== verification/SqlEngine.v ===== *)
(** * The SQL the group dialects issue

    The tables of the schema in [groupddl.go] (one per engine), each SQL
    statement of the three [groupdialect.go] files as an operation on them, and
    the transaction wrappers [pgRunInTx], [mysqlRunInTx] and
    [withImmediateConn].

    A database maps a table name to its rows, and a table of the schema is a
    finite map from its primary key.  A statement reads one [tick] of the
    environment: the error the driver or the server answers with, if any, and
    the server clock.  A failed statement has no effect; a failed COMMIT may or
    may not have taken effect on the server, which the tick says too.  Text
    compares by bytes, except that the order ORDER BY gives it is the
    database's collation, an argument. *)

From stdpp Require Import sorting.
From Stdlib Require Import Strings.Ascii.
From Stdlib Require OrderedTypeEx.
From S2P Require Import Prelude Message.
Local Open Scope Z_scope.

(** ** Identifiers *)

Definition ErrInvalidTableName : sentinel := OtherSentinel "msgin/sql: invalid table name".

Definition ident_start (c : ascii) : bool :=
  let n := nat_of_ascii c in
  ((65 <=? n) && (n <=? 90) || (97 <=? n) && (n <=? 122) || (n =? 95))%nat.
Definition ident_char (c : ascii) : bool :=
  let n := nat_of_ascii c in ident_start c || ((48 <=? n) && (n <=? 57))%nat.
Fixpoint all_chars (f : ascii → bool) (s : string) : bool :=
  match s with
  | EmptyString => true
  | String c s => f c && all_chars f s
  end.

(** [^[A-Za-z_][A-Za-z0-9_]*$] *)
Definition identPattern (name : string) : bool :=
  match name with
  | EmptyString => false
  | String c s => ident_start c && all_chars ident_char s
  end.

Definition ValidateIdent (name : string) : option error :=
  if negb (identPattern name) then Some (Errorf [Sentinel ErrInvalidTableName] [FStr name])
  else None.

(** [strings.ReplaceAll(name, q, q+q)] for a one-character [q]. *)
Fixpoint double_char (q : ascii) (s : string) : string :=
  match s with
  | EmptyString => EmptyString
  | String c s =>
      if Ascii.eqb c q then String c (String c (double_char q s))
      else String c (double_char q s)
  end.
Definition quote (q : ascii) (name : string) : string :=
  String q (double_char q name +:+ String q EmptyString).

Definition double_quote : ascii := ascii_of_nat 34.
Definition pgQuote : string → string := quote double_quote.
Definition sqliteQuote : string → string := quote double_quote.
Definition mysqlQuote : string → string := quote "`"%char.

(** How an engine reads a quoted identifier: up to the quote that ends it, a
    doubled quote being a quote of the name. *)
Fixpoint unquote_body (q : ascii) (s : string) : option string :=
  match s with
  | EmptyString => None
  | String c s =>
      if Ascii.eqb c q then
        match s with
        | EmptyString => Some EmptyString
        | String c' s => if Ascii.eqb c' q then String q <$> unquote_body q s else None
        end
      else String c <$> unquote_body q s
  end.
Definition unquote (q : ascii) (s : string) : option string :=
  match s with
  | EmptyString => None
  | String c s => if Ascii.eqb c q then unquote_body q s else None
  end.

Lemma unquote_quote q name : unquote q (quote q name) = Some name.
Proof.
  unfold unquote, quote. rewrite Ascii.eqb_refl.
  induction name as [|c s IH]; cbn [double_char]; unfold String.app in *;
    cbn [String.append unquote_body]; [by rewrite Ascii.eqb_refl|].
  destruct (Ascii.eqb c q) eqn:E; cbn [String.append unquote_body]; rewrite E; [|by rewrite IH].
  rewrite IH. apply Ascii.eqb_eq in E. by subst.
Qed.

(** ** The tables *)

Inductive engine : Type := Postgres | MySQL | SQLite.
Definition quote_char (e : engine) : ascii :=
  match e with MySQL => "`"%char | _ => double_quote end.

(** A row of the group table, less its key; [None] is NULL. *)
Record group_row : Type := mkGroupRow {
  created_at : Z;
  epoch : Z;
  locked_by : option string;
  locked_at : option Z
}.

(** A row of the member table, less its key (group_key, msg_id). *)
Record member_row : Type := mkMemberRow {
  mem_seq : Z;
  mem_headers : bytes;
  mem_payload : bytes;
  claimed_epoch : option Z
}.

Abbreviation group_table := (gmap string group_row).
Abbreviation member_table := (@gmap (string * string) prod_eq_dec prod_countable member_row).

(** A row of the queue table, less its key and [created_at], which no statement
    reads. *)
Record queue_row : Type := mkQueueRow {
  q_msg_id : string;
  q_headers : bytes;
  q_payload : bytes;
  q_locked_by : option string;
  q_locked_at : option Z;
  q_visible_after : Z;
  q_delivery_count : Z;
  q_lease_epoch : Z
}.

(** The queue table: its committed rows, the last value its id sequence gave,
    and the rows an open transaction has locked, each with the transaction and
    the row as it left it ([None]: deleted). *)
Record queue_table : Type := mkQueue {
  q_rows : gmap Z queue_row;
  q_last : Z;
  q_locks : gmap Z (nat * option queue_row)
}.
Definition empty_queue : queue_table := mkQueue ∅ 0 ∅.

(** The deduplication table: whether its [msg_id] column is unique, and each id
    with when it was recorded. *)
Record inbox_table : Type := mkInbox {
  i_unique : bool;
  i_rows : list (string * Z)
}.

Inductive relation : Type :=
  | RGroup (G : group_table)
  | RMember (M : member_table)
  | RQueue (Q : queue_table)
  | RInbox (I : inbox_table).

Abbreviation database := (gmap string relation).

(** ** Statements *)

Record tick : Type := mkTick {
  tk_fault : option error;  (** what the driver answers instead of a result *)
  tk_now : Z;               (** the server clock, in microseconds *)
  tk_applied : bool         (** whether a COMMIT that failed took effect *)
}.

Record session : Type := mkSession {
  s_db : database;
  s_ticks : nat → tick;
  s_pos : nat
}.

(** A function that issues statements and may return an error. *)
Definition Sq (A : Type) : Type := session → (error + A) * session.
#[export] Instance Sq_ret : MRet Sq := λ A a s, (inr a, s).
#[export] Instance Sq_bind : MBind Sq := λ A B k m s,
  match m s with
  | (inl e, s') => (inl e, s')
  | (inr a, s') => k a s'
  end.
Definition fail {A} (e : error) : Sq A := λ s, (inl e, s).

(** One statement; [clk] is the transaction's own clock where the engine has
    one. *)
Definition stmt {A} (clk : option Z) (f : Z → database → error + (A * database)) : Sq A := λ s,
  let t := s_ticks s (s_pos s) in
  match tk_fault t with
  | Some e => (inl e, mkSession (s_db s) (s_ticks s) (S (s_pos s)))
  | None =>
      match f (default (tk_now t) clk) (s_db s) with
      | inl e => (inl e, mkSession (s_db s) (s_ticks s) (S (s_pos s)))
      | inr (a, db) => (inr a, mkSession db (s_ticks s) (S (s_pos s)))
      end
  end.

Definition undefined_table : error := Opaque "no such table".
Definition sql_ErrNoRows : sentinel := OtherSentinel "sql.ErrNoRows".

Definition on_groups {A} (e : engine) (gt : string)
    (f : group_table → error + (A * group_table)) (db : database) : error + (A * database) :=
  match unquote (quote_char e) gt with
  | None => inl (Opaque "syntax error")
  | Some t =>
      match db !! t with
      | Some (RGroup G) =>
          let? r := f G in inr (r.1, <[t := RGroup r.2]> db)
      | _ => inl undefined_table
      end
  end.

Definition on_members {A} (e : engine) (mt : string)
    (f : member_table → error + (A * member_table)) (db : database) : error + (A * database) :=
  match unquote (quote_char e) mt with
  | None => inl (Opaque "syntax error")
  | Some t =>
      match db !! t with
      | Some (RMember M) =>
          let? r := f M in inr (r.1, <[t := RMember r.2]> db)
      | _ => inl undefined_table
      end
  end.

(** *** Predicates of the WHERE clauses; a comparison with NULL is not true. *)

(** [locked_by IS NULL OR locked_at <= now - ttl] *)
Definition stealable (now ttl : Z) (r : group_row) : bool :=
  match locked_by r with
  | None => true
  | Some _ => match locked_at r with Some a => a <=? now - ttl | None => false end
  end.
(** [locked_by IS NOT NULL AND locked_at > now - ttl], NULL read as false *)
Definition lease_live (now ttl : Z) (r : group_row) : bool :=
  match locked_by r with
  | None => false
  | Some _ => match locked_at r with Some a => now - ttl <? a | None => false end
  end.
(** [locked_by IS NOT NULL AND locked_at <= now - ttl] *)
Definition lease_dead (now ttl : Z) (r : group_row) : bool :=
  match locked_by r with
  | None => false
  | Some _ => match locked_at r with Some a => a <=? now - ttl | None => false end
  end.
(** [locked_by = by AND epoch = ep] *)
Definition holds (by_ : string) (ep : Z) (r : group_row) : bool :=
  bool_decide (locked_by r = Some by_) && (epoch r =? ep).
(** [claimed_epoch IS NULL], [claimed_epoch = ep],
    [claimed_epoch IS NULL OR claimed_epoch < ep] *)
Definition unclaimed (c : option Z) : bool := bool_decide (c = None).
Definition claimed_at (ep : Z) (c : option Z) : bool := bool_decide (c = Some ep).
Definition absorbable (ep : Z) (c : option Z) : bool :=
  match c with None => true | Some e => e <? ep end.

(** *** Relational operations on the member table *)

Definition set_claimed (c : option Z) (r : member_row) : member_row :=
  mkMemberRow (mem_seq r) (mem_headers r) (mem_payload r) c.

(** [UPDATE member SET claimed_epoch = c WHERE group_key = key AND p(claimed_epoch)] *)
Definition tag_rows (key : string) (p : option Z → bool) (c : option Z) (M : member_table)
    : member_table :=
  map_imap (λ k r, Some (if bool_decide (k.1 = key) && p (claimed_epoch r)
                         then set_claimed c r else r)) M.

(** [DELETE FROM member WHERE group_key = key AND p(claimed_epoch)] *)
Definition delete_rows (key : string) (p : option Z → bool) (M : member_table) : member_table :=
  filter (λ kr, bool_decide (kr.1.1 = key) && p (claimed_epoch kr.2) = false) M.

Definition group_rows (key : string) (M : member_table) : member_table :=
  filter (λ kr, kr.1.1 = key) M.
(** [SELECT count( * ) FROM member WHERE group_key = key] *)
Definition count_rows (key : string) (M : member_table) : Z :=
  Z.of_nat (size (group_rows key M)).

(** A fetched member. *)
Record MemberRow : Type := mkMember {
  MsgID : string;
  Seq : Z;
  mr_Headers : bytes;
  mr_Payload : bytes
}.
Definition fetched (id : string) (r : member_row) : MemberRow :=
  mkMember id (mem_seq r) (mem_headers r) (mem_payload r).

(** The order of a text column. *)
Class Collation : Type := {
  text_le : string → string → Prop;
  text_le_dec :: RelDecision text_le;
  text_le_trans :: Transitive text_le;
  text_le_total :: Total text_le
}.

(** The order of the C (binary) collation: by bytes. *)
Definition byte_le (a b : string) : Prop := OrderedTypeEx.String_as_OT.cmp a b ≠ Gt.
Lemma byte_le_alt a b : byte_le a b ↔ OrderedTypeEx.String_as_OT.lt a b ∨ a = b.
Proof.
  unfold byte_le. rewrite <- OrderedTypeEx.String_as_OT.cmp_lt, <- OrderedTypeEx.String_as_OT.cmp_eq.
  destruct (OrderedTypeEx.String_as_OT.cmp a b); naive_solver.
Qed.
#[export] Instance byte_le_dec : RelDecision byte_le.
Proof. intros a b. unfold byte_le. destruct (OrderedTypeEx.String_as_OT.cmp a b); [left|left|right]; congruence. Defined.
#[export] Instance byte_le_trans : Transitive byte_le.
Proof.
  intros a b c. rewrite !byte_le_alt. intros [H1|<-] [H2|<-]; auto.
  left. by eapply OrderedTypeEx.String_as_OT.lt_trans.
Qed.
#[export] Instance byte_le_total : Total byte_le.
Proof.
  intros a b. unfold byte_le. rewrite (OrderedTypeEx.String_as_OT.cmp_antisym b a).
  destruct (OrderedTypeEx.String_as_OT.cmp a b); cbn; [left|left|right]; congruence.
Qed.
Definition byte_collation : Collation := {| text_le := byte_le |}.

Section engine.
Context `{Collation}.

(** [ORDER BY seq, msg_id] *)
Definition member_le (a b : MemberRow) : Prop :=
  Seq a < Seq b ∨ (Seq a = Seq b ∧ text_le (MsgID a) (MsgID b)).

#[export] Instance member_le_dec : RelDecision member_le.
Proof. intros a b. unfold member_le. apply _. Defined.
#[export] Instance member_le_trans : Transitive member_le.
Proof.
  intros a b c [H1|[H1 H1']] [H2|[H2 H2']]; unfold member_le; [left; lia|left; lia|left; lia|].
  right. split; [lia|]. by etrans.
Qed.
#[export] Instance member_le_total : Total member_le.
Proof.
  intros a b. unfold member_le. destruct (Z.lt_trichotomy (Seq a) (Seq b)) as [?|[?|?]]; auto.
  destruct (text_le_total (MsgID a) (MsgID b)); auto.
Qed.

(** [SELECT msg_id, seq, headers, payload FROM member
     WHERE group_key = key AND p(claimed_epoch) ORDER BY seq, msg_id] *)
Definition select_rows (key : string) (p : option Z → bool) (M : member_table) : list MemberRow :=
  merge_sort member_le
    (omap (λ kr, if bool_decide (kr.1.1 = key) && p (claimed_epoch kr.2)
                 then Some (fetched kr.1.2 kr.2) else None) (map_to_list M)).
End engine.

(** ** The statements of the dialects *)

(** [INSERT INTO group (group_key, created_at, epoch) VALUES (key, now, 0)
     ON CONFLICT DO NOTHING] (sqlite) and its [ON DUPLICATE KEY UPDATE
     group_key = group_key] form (mysql). *)
Definition upsert_rows (now : Z) (key : string) (G : group_table) : group_table :=
  match G !! key with
  | Some _ => G
  | None => <[key := mkGroupRow now 0 None None]> G
  end.
Definition insert_group (e : engine) (clk : option Z) (gt key : string) : Sq unit :=
  stmt clk (λ now, on_groups e gt (λ G, inr (tt, upsert_rows now key G))).

(** [SELECT created_at, (locked_by IS NOT NULL AND locked_at > now - ttl)
     FROM group WHERE group_key = key], by [QueryRowContext]. *)
Definition select_created_live (e : engine) (clk : option Z) (gt key : string) (ttl : Z)
    : Sq (Z * bool) :=
  stmt clk (λ now, on_groups e gt (λ G,
    match G !! key with
    | None => inl (Sentinel sql_ErrNoRows)
    | Some r => inr ((created_at r, lease_live now ttl r), G)
    end)).

(** The upsert of postgres, which returns the two columns of the row. *)
Definition upsert_group_returning (e : engine) (clk : option Z) (gt key : string) (ttl : Z)
    : Sq (Z * bool) :=
  stmt clk (λ now, on_groups e gt (λ G,
    let G' := upsert_rows now key G in
    match G' !! key with
    | None => inl (Sentinel sql_ErrNoRows)
    | Some r => inr ((created_at r, lease_live now ttl r), G')
    end)).

(** [INSERT INTO member ... ON CONFLICT (group_key, msg_id) DO NOTHING]: the
    number of rows it inserts. *)
Definition insert_row (key id : string) (r : member_row) (M : member_table) : Z * member_table :=
  match M !! (key, id) with
  | Some _ => (0, M)
  | None => (1, <[(key, id) := r]> M)
  end.
Definition insert_member (e : engine) (mt key id : string) (r : member_row) : Sq Z :=
  stmt None (λ _, on_members e mt (λ M, inr (insert_row key id r M))).

(** [res.RowsAffected()], which a driver may fail. *)
Definition RowsAffected (n : Z) : Sq Z := stmt None (λ _ db, inr (n, db)).

Definition CountMembers (e : engine) (mt key : string) : Sq Z :=
  stmt None (λ _, on_members e mt (λ M, inr (count_rows key M, M))).

Definition SelectMembers `{Collation} (e : engine) (mt key : string) (p : option Z → bool)
    : Sq (list MemberRow) :=
  stmt None (λ _, on_members e mt (λ M, inr (select_rows key p M, M))).

(** [UPDATE group SET epoch = epoch + 1, locked_by = by, locked_at = now
     WHERE group_key = key AND (locked_by IS NULL OR locked_at <= now - ttl)]:
    the row it leaves, if it matches one.  The column is a BIGINT, so the sum of
    the largest epoch is out of range. *)
Definition lease_row (now ttl : Z) (key by_ : string) (G : group_table)
    : error + (option group_row * group_table) :=
  match G !! key with
  | None => inr (None, G)
  | Some r =>
      if stealable now ttl r then
        if MaxInt64 <=? epoch r then inl (Opaque "bigint out of range")
        else
          let r' := mkGroupRow (created_at r) (epoch r + 1) (Some by_) (Some now) in
          inr (Some r', <[key := r']> G)
      else inr (None, G)
  end.
Definition update_lease (e : engine) (clk : option Z) (gt key by_ : string) (ttl : Z) : Sq Z :=
  stmt clk (λ now, on_groups e gt (λ G,
    let? r := lease_row now ttl key by_ G in
    inr (match r.1 with Some _ => 1 | None => 0 end, r.2))).
(** Its [RETURNING epoch, created_at] form. *)
Definition update_lease_returning (e : engine) (clk : option Z) (gt key by_ : string) (ttl : Z)
    : Sq (option (Z * Z)) :=
  stmt clk (λ now, on_groups e gt (λ G,
    let? r := lease_row now ttl key by_ G in
    inr ((λ r, (epoch r, created_at r)) <$> r.1, r.2))).
(** [SELECT epoch, created_at FROM group WHERE group_key = key] *)
Definition select_epoch (e : engine) (gt key : string) : Sq (Z * Z) :=
  stmt None (λ _, on_groups e gt (λ G,
    match G !! key with
    | None => inl (Sentinel sql_ErrNoRows)
    | Some r => inr ((epoch r, created_at r), G)
    end)).

Definition tag_members (e : engine) (mt key : string) (p : option Z → bool) (c : option Z)
    : Sq unit :=
  stmt None (λ _, on_members e mt (λ M, inr (tt, tag_rows key p c M))).
Definition delete_members (e : engine) (mt key : string) (p : option Z → bool) : Sq unit :=
  stmt None (λ _, on_members e mt (λ M, inr (tt, delete_rows key p M))).

(** [SELECT 1 FROM group WHERE group_key = key] ([FOR UPDATE] on postgres and
    mysql): whether the row is there. *)
Definition GroupExists (e : engine) (gt key : string) : Sq bool :=
  stmt None (λ _, on_groups e gt (λ G, inr (bool_decide (is_Some (G !! key)), G))).

(** The three fenced statements that end a claim; each returns the rows it
    matched. *)
Definition fenced (key by_ : string) (ep : Z) (f : group_row → option group_row)
    (G : group_table) : Z * group_table :=
  match G !! key with
  | Some r => if holds by_ ep r then (1, partial_alter (λ _, f r) key G) else (0, G)
  | None => (0, G)
  end.
Definition unlock_reset (now : Z) (r : group_row) : option group_row :=
  Some (mkGroupRow now (epoch r) None None).
Definition unlock (r : group_row) : option group_row :=
  Some (mkGroupRow (created_at r) (epoch r) None None).
Definition update_unlock_reset (e : engine) (clk : option Z) (gt key by_ : string) (ep : Z) : Sq Z :=
  stmt clk (λ now, on_groups e gt (λ G, inr (fenced key by_ ep (unlock_reset now) G))).
Definition update_unlock (e : engine) (gt key by_ : string) (ep : Z) : Sq Z :=
  stmt None (λ _, on_groups e gt (λ G, inr (fenced key by_ ep unlock G))).
Definition delete_group_row (e : engine) (gt key by_ : string) (ep : Z) : Sq Z :=
  stmt None (λ _, on_groups e gt (λ G, inr (fenced key by_ ep (λ _, None) G))).

(** [SELECT group_key, created_at FROM group WHERE lease_dead OR
     (beforeSet AND locked_by IS NULL AND created_at < before)
     ORDER BY created_at LIMIT limit]; rows of one instant come in an order of
    the engine's. *)
Definition expired_row (now ttl : Z) (beforeSet : bool) (before : Z) (r : group_row) : bool :=
  lease_dead now ttl r ||
  (beforeSet && bool_decide (locked_by r = None) && (created_at r <? before)).
Definition older (a b : string * Z) : Prop := a.2 ≤ b.2.
#[export] Instance older_dec : RelDecision older.
Proof. intros a b. unfold older. apply _. Defined.
#[export] Instance older_trans : Transitive older.
Proof. intros a b c. unfold older. lia. Qed.
#[export] Instance older_total : Total older.
Proof. intros a b. unfold older. lia. Qed.
Definition expired_rows (now ttl : Z) (beforeSet : bool) (before : Z) (G : group_table)
    : list (string * Z) :=
  merge_sort older
    (omap (λ kr, if expired_row now ttl beforeSet before kr.2
                 then Some (kr.1, created_at kr.2) else None) (map_to_list G)).
Definition select_expired (e : engine) (clk : option Z) (gt : string) (ttl : Z) (beforeSet : bool)
    (before limit : Z) : Sq (list (string * Z)) :=
  stmt clk (λ now, on_groups e gt (λ G,
    inr (take (Z.to_nat limit) (expired_rows now ttl beforeSet before G), G))).

(** *** DDL and the schema probe *)

Definition create_table (e : engine) (qt : string) (rel : relation) : Sq unit :=
  stmt None (λ _ db,
    match unquote (quote_char e) qt with
    | None => inl (Opaque "syntax error")
    | Some t => inr (tt, match db !! t with Some _ => db | None => <[t := rel]> db end)
    end).
(** [CREATE INDEX IF NOT EXISTS]: no row changes, the table must exist. *)
Definition create_index (e : engine) (qt : string) : Sq unit :=
  stmt None (λ _ db,
    match unquote (quote_char e) qt with
    | None => inl (Opaque "syntax error")
    | Some t => match db !! t with Some _ => inr (tt, db) | None => inl undefined_table end
    end).
Definition select_schema (table : string) : Sq bool :=
  stmt None (λ _ db, inr (bool_decide (is_Some (db !! table)), db)).

(** ** Transactions *)

(** A [*sql.Tx]: its identity, and its start on the server clock. *)
Record Tx : Type := mkTx {
  tx_id : nat;
  tx_start : Z
}.

(** What a [Querier] is: the pool, a transaction of the caller's, or another
    type. *)
Inductive Querier : Type :=
  | QDB
  | QTx (tx : Tx)
  | QOther (ty : string).

(** A function run in a transaction returns its error with the variables it
    captured: [inl e] and [inr (c, Some e)] are both [return e], in the first
    the caller does not look at what was captured. *)
Abbreviation txfn C := (Sq (C * option error)).

(** What the tables are after ROLLBACK, or after a connection is discarded with
    its transaction. *)
Definition rolled_back (s s' : session) (stmts : nat) : session :=
  mkSession (s_db s) (s_ticks s') (s_pos s' + stmts).

(** BEGIN, [fn], and COMMIT or ROLLBACK; [fn] receives the clock at BEGIN. *)
Definition in_tx {C} (failed_commit : nat) (fn : Z → txfn C) : txfn C := λ s,
  match stmt None (λ now db, inr (now, db)) s with
  | (inl e, s1) => (inl e, s1)
  | (inr now, s1) =>
      match fn now s1 with
      | (inl e, s2) => (inl e, rolled_back s s2 1)
      | (inr (c, Some e), s2) => (inr (c, Some e), rolled_back s s2 1)
      | (inr (c, None), s2) =>
          let t := s_ticks s2 (s_pos s2) in
          match tk_fault t with
          | Some e =>
              (inl e, if tk_applied t
                      then mkSession (s_db s2) (s_ticks s2) (s_pos s2 + failed_commit)
                      else rolled_back s s2 failed_commit)
          | None => (inr (c, None), mkSession (s_db s2) (s_ticks s2) (S (s_pos s2)))
          end
      end
  end.

(** postgres: [now()] is the start of the transaction, in every statement. *)
Definition pgRunInTx {C} (q : Querier) (fn : option Z → txfn C) : txfn C :=
  match q with
  | QDB => in_tx 1 (λ now, fn (Some now))
  | QTx tx => fn (Some (tx_start tx))
  | QOther ty => fail (Errorf [] [FStr "msgin/sql/postgres: group ops require a *sql.DB or *sql.Tx Querier"; FStr ty])
  end.

(** mysql: the clock is read by each statement. *)
Definition mysqlRunInTx {C} (q : Querier) (fn : option Z → txfn C) : txfn C :=
  match q with
  | QDB => in_tx 1 (λ _, fn None)
  | QTx _ => fn None
  | QOther ty => fail (Errorf [] [FStr "msgin/sql/mysql: group ops require a *sql.DB or *sql.Tx Querier"; FStr ty])
  end.

(** sqlite: a dedicated connection, BEGIN IMMEDIATE, and a ROLLBACK after a
    COMMIT that fails. *)
Definition withImmediateConn {C} (q : Querier) (fn : option Z → txfn C)
    : Sq (C * option error) :=
  match q with
  | QDB =>
      _ ← stmt None (λ _ db, inr (tt, db));
      in_tx 2 (λ _, fn None)
  | QTx _ => fail (Errorf [] [FStr "msgin/sql/sqlite: group ops require a *sql.DB Querier"; FStr "*sql.Tx"])
  | QOther ty => fail (Errorf [] [FStr "msgin/sql/sqlite: group ops require a *sql.DB Querier"; FStr ty])
  end.

(** ** Reasoning about statements *)

(** The errors the driver injects, and the clock readings, from where [s]
    stands. *)
Definition faulted (s : session) (e : error) : Prop :=
  ∃ i, (s_pos s ≤ i)%nat ∧ tk_fault (s_ticks s i) = Some e.
Definition reads (s : session) (n : Z) : Prop :=
  ∃ i, (s_pos s ≤ i)%nat ∧ n = tk_now (s_ticks s i).

(** [wpq m E Q s]: run from [s], [m] fails with an error of [E] or returns a
    value and leaves a session of [Q]. *)
Definition wpq {A} (m : Sq A) (E : error → Prop) (Q : A → session → Prop) (s : session) : Prop :=
  match m s with
  | (inl e, _) => E e
  | (inr a, s') => Q a s'
  end.

Lemma wpq_ret {A} (a : A) (E : error → Prop) (Q : A → session → Prop) s :
  Q a s → wpq (mret a) E Q s.
Proof. done. Qed.

Lemma wpq_bind {A B} (m : Sq A) (k : A → Sq B) E Q s :
  wpq m E (λ a s', wpq (k a) E Q s') s → wpq (m ≫= k) E Q s.
Proof. unfold wpq, mbind, Sq_bind. by destruct (m s) as [[e|a] s']. Qed.

Lemma wpq_mono {A} (m : Sq A) E (P Q : A → session → Prop) s :
  wpq m E P s → (∀ a s', P a s' → Q a s') → wpq m E Q s.
Proof. unfold wpq. destruct (m s) as [[e|a] s']; auto. Qed.

(** The sessions an operation on the tables [gt] and [mt] goes through: all but
    those two stays as in [db0]. *)
Section tables.
Context (e : engine) (db0 : database) (o : nat → tick) (gt mt qgt qmt : string).
Context (Hne : gt ≠ mt).
Context (Hgt : unquote (quote_char e) qgt = Some gt) (Hmt : unquote (quote_char e) qmt = Some mt).

Definition put_tables (G : group_table) (M : member_table) : database :=
  <[mt := RMember M]> (<[gt := RGroup G]> db0).
Definition at_ (p : nat) (G : group_table) (M : member_table) : session :=
  mkSession (put_tables G M) o p.

Lemma put_group G M : put_tables G M !! gt = Some (RGroup G).
Proof using Hne.
  unfold put_tables. rewrite lookup_insert_ne by done. apply lookup_insert_eq.
Qed.
Lemma put_member G M : put_tables G M !! mt = Some (RMember M).
Proof. apply lookup_insert_eq. Qed.
Lemma put_group_twice G M G' : <[gt := RGroup G']> (put_tables G M) = put_tables G' M.
Proof using Hne.
  unfold put_tables. by rewrite insert_insert_ne, insert_insert_eq by done.
Qed.
Lemma put_member_twice G M M' : <[mt := RMember M']> (put_tables G M) = put_tables G M'.
Proof. unfold put_tables. by rewrite insert_insert_eq. Qed.

(** Where a statement on the group table leads. *)
Lemma wpq_groups {A} (clk : option Z) (f : Z → group_table → error + (A * group_table))
    (E : error → Prop) (Q : A → session → Prop) (p : nat) (G : group_table) (M : member_table) :
  (∀ err, tk_fault (o p) = Some err → E err) →
  match f (default (tk_now (o p)) clk) G with
  | inl err => E err
  | inr (a, G') => Q a (at_ (S p) G' M)
  end →
  wpq (stmt clk (λ now, on_groups e qgt (f now))) E Q (at_ p G M).
Proof using Hne Hgt.
  intros He HQ. unfold wpq, stmt, at_. cbn [s_ticks s_pos s_db].
  destruct (tk_fault (o p)) as [err|]; [by apply He|].
  unfold on_groups. rewrite Hgt, put_group.
  destruct (f _ G) as [err|[a G']]; [done|]. cbn. by rewrite put_group_twice.
Qed.

Lemma wpq_members {A} (clk : option Z) (f : Z → member_table → error + (A * member_table))
    (E : error → Prop) (Q : A → session → Prop) (p : nat) (G : group_table) (M : member_table) :
  (∀ err, tk_fault (o p) = Some err → E err) →
  match f (default (tk_now (o p)) clk) M with
  | inl err => E err
  | inr (a, M') => Q a (at_ (S p) G M')
  end →
  wpq (stmt clk (λ now, on_members e qmt (f now))) E Q (at_ p G M).
Proof using Hmt.
  intros He HQ. unfold wpq, stmt, at_. cbn [s_ticks s_pos s_db].
  destruct (tk_fault (o p)) as [err|]; [by apply He|].
  unfold on_members. rewrite Hmt, put_member.
  destruct (f _ M) as [err|[a M']]; [done|]. cbn. by rewrite put_member_twice.
Qed.

Lemma wpq_rows n E (Q : Z → session → Prop) p G M :
  (∀ err, tk_fault (o p) = Some err → E err) →
  Q n (at_ (S p) G M) → wpq (RowsAffected n) E Q (at_ p G M).
Proof.
  intros He HQ. unfold wpq, RowsAffected, stmt, at_. cbn [s_ticks s_pos s_db].
  destruct (tk_fault (o p)) as [err|]; [by apply He|done].
Qed.
End tables.

(** What a function that ran in a transaction of its own comes back with: an
    error and the tables it started from; a fault of COMMIT although the
    function's work is there; or the function's result, with its work undone
    when that result is an error. *)
Definition tx_result {C} (E : error → Prop) (Q : C → option error → session → Prop) (s : session)
    (r : (error + C * option error) * session) : Prop :=
  match r with
  | (inl err, s') =>
      (E err ∧ s_db s' = s_db s) ∨
      (faulted s err ∧ ∃ c s2, Q c None s2 ∧ s_db s' = s_db s2)
  | (inr (c, Some err), s') => s_db s' = s_db s ∧ ∃ s2, Q c (Some err) s2
  | (inr (c, None), s') => ∃ s2, Q c None s2 ∧ s_db s' = s_db s2
  end.

(** The clock a function in a transaction may be given. *)
Definition clock_ok (s : session) (clk : option Z) : Prop := ∀ n, clk = Some n → reads s n.

(** A wrapper that runs its argument in a transaction when it is given the
    pool. *)
Definition runs_in_tx (run : ∀ C, Querier → (option Z → txfn C) → txfn C) : Prop :=
  ∀ C (fn : option Z → txfn C) (E : error → Prop) (Q : C → option error → session → Prop) s,
  (∀ err, faulted s err → E err) →
  (∀ clk p, clock_ok s clk → (s_pos s ≤ p)%nat →
     wpq (fn clk) E (λ r s', s_ticks s' = s_ticks s ∧ (p ≤ s_pos s')%nat ∧ Q r.1 r.2 s')
       (mkSession (s_db s) (s_ticks s) p)) →
  tx_result E Q s (run C QDB fn s).

Lemma in_tx_spec {C} n (clk : Z → option Z) (fn : option Z → txfn C) (E : error → Prop)
    (Q : C → option error → session → Prop) s :
  (∀ now m, clk now = Some m → m = now) →
  (∀ err, faulted s err → E err) →
  (∀ clk p, clock_ok s clk → (s_pos s ≤ p)%nat →
     wpq (fn clk) E (λ r s', s_ticks s' = s_ticks s ∧ (p ≤ s_pos s')%nat ∧ Q r.1 r.2 s')
       (mkSession (s_db s) (s_ticks s) p)) →
  tx_result E Q s (in_tx n (λ now, fn (clk now)) s).
Proof.
  intros Hclk HE Hfn. unfold in_tx, stmt, tx_result.
  destruct (tk_fault (s_ticks s (s_pos s))) as [err|] eqn:Hf.
  { left. split; [apply HE; by exists (s_pos s)|done]. }
  cbn [default]. set (now := tk_now (s_ticks s (s_pos s))).
  specialize (Hfn (clk now) (S (s_pos s))). unfold wpq in Hfn.
  assert (clock_ok s (clk now)) as Hok.
  { intros m ->%Hclk. by exists (s_pos s). }
  specialize (Hfn Hok ltac:(lia)). destruct (fn _ _) as [[err|[c [err|]]] s2]; cbn in Hfn.
  - by left.
  - split; [done|]. exists s2. naive_solver.
  - destruct Hfn as (Ht & Hp & HQ).
    destruct (tk_fault (s_ticks s2 (s_pos s2))) as [err|] eqn:Hc; [|by exists s2].
    assert (faulted s err) by (exists (s_pos s2); rewrite <- Ht; split; [lia|done]).
    destruct (tk_applied _); [right; split; [done|by exists c, s2]|left; split; [by apply HE|done]].
Qed.

Lemma pgRunInTx_tx : runs_in_tx (@pgRunInTx).
Proof. intros C fn E Q s HE Hfn. apply (in_tx_spec 1 Some fn); [congruence|done..]. Qed.

Lemma mysqlRunInTx_tx : runs_in_tx (@mysqlRunInTx).
Proof. intros C fn E Q s HE Hfn. apply (in_tx_spec 1 (λ _, None) fn); [done..]. Qed.

Lemma withImmediateConn_tx : runs_in_tx (@withImmediateConn).
Proof.
  intros C fn E Q s HE Hfn. unfold withImmediateConn, mbind, Sq_bind, stmt.
  destruct (tk_fault (s_ticks s (s_pos s))) as [err|] eqn:Hf.
  { left. split; [apply HE; by exists (s_pos s)|done]. }
  set (s1 := mkSession (s_db s) (s_ticks s) (S (s_pos s))).
  assert (∀ err, faulted s1 err → faulted s err) as Hfs.
  { intros err (i & Hi & Ho). exists i. split; [cbn in Hi; lia|done]. }
  assert (∀ clk, clock_ok s1 clk → clock_ok s clk) as Hck.
  { intros clk Hc n Hn. destruct (Hc n Hn) as (i & Hi & Ho). exists i. split; [cbn in Hi; lia|done]. }
  assert (tx_result E Q s1 (in_tx 2 (λ _, fn None) s1)) as Hin.
  { apply (in_tx_spec 2 (λ _, None) fn); [done|by intros; apply HE, Hfs|].
    intros clk p Hc Hp. apply Hfn; [by apply Hck|cbn in Hp; lia]. }
  unfold tx_result in *. destruct (in_tx 2 _ s1) as [[err|[c [err|]]] s2]; [|done|done].
  destruct Hin as [Hin|[Hin ?]]; [by left|right; split; [by apply Hfs|done]].
Qed.

(** ** Statements that change no table *)

Definition read_only {A} (m : Sq A) : Prop := ∀ s, s_db (m s).2 = s_db s.

Lemma read_only_ret {A} (a : A) : read_only (mret a : Sq A).
Proof. done. Qed.

Lemma read_only_bind {A B} (m : Sq A) (k : A → Sq B) :
  read_only m → (∀ a, read_only (k a)) → read_only (m ≫= k).
Proof.
  intros Hm Hk s. unfold mbind, Sq_bind. specialize (Hm s).
  destruct (m s) as [[err|a] s']; cbn in *; [done|]. by rewrite Hk.
Qed.

Lemma read_only_stmt {A} clk (f : Z → database → error + (A * database)) :
  (∀ now db a db', f now db = inr (a, db') → db' = db) → read_only (stmt clk f).
Proof.
  intros Hf s. unfold stmt. destruct (tk_fault _); [done|].
  destruct (f _ _) as [err|[a db]] eqn:E; [done|]. by apply Hf in E.
Qed.

Lemma on_groups_same {A} e gt (f : group_table → error + (A * group_table)) db a db' :
  (∀ G a G', f G = inr (a, G') → G' = G) → on_groups e gt f db = inr (a, db') → db' = db.
Proof.
  intros Hf. unfold on_groups. destruct (unquote _ _) as [t|]; [|done].
  destruct (db !! t) as [[G| | |]|] eqn:Hd; try done. destruct (f G) as [|[a' G']] eqn:E; [done|].
  intros [= <- <-]. cbn. apply Hf in E as ->. by apply insert_id.
Qed.

Lemma on_members_same {A} (e : engine) (mt : string) (f : member_table → error + (A * member_table))
    (db : database) (a : A) (db' : database) :
  (∀ M a M', f M = inr (a, M') → M' = M) → on_members e mt f db = inr (a, db') → db' = db.
Proof.
  intros Hf. unfold on_members. destruct (unquote _ _) as [t|]; [|done].
  destruct (db !! t) as [[|M| |]|] eqn:Hd; try done. destruct (f M) as [|[a' M']] eqn:E; [done|].
  intros [= <- <-]. cbn. apply Hf in E as ->. by apply insert_id.
Qed.

Lemma SelectMembers_read_only `{Collation} e mt key p : read_only (SelectMembers e mt key p).
Proof. apply read_only_stmt. intros now db a db'. apply on_members_same. by intros ??? [= _ <-]. Qed.

Lemma select_expired_read_only e clk gt ttl b before limit :
  read_only (select_expired e clk gt ttl b before limit).
Proof. apply read_only_stmt. intros now db a db'. apply on_groups_same. by intros ??? [= _ <-]. Qed.

#[export] Hint Resolve read_only_ret read_only_bind SelectMembers_read_only
  select_expired_read_only : msgin.

(** ** A statement on a table that does not exist *)

(** [m] fails and leaves the tables and the ticks to come as they are. *)
Definition fails_clean {A} (m : Sq A) (s : session) : Prop :=
  ∃ err s', m s = (inl err, s') ∧ s_db s' = s_db s ∧ s_ticks s' = s_ticks s.

Lemma fails_clean_bind {A B} (m : Sq A) (k : A → Sq B) s : fails_clean m s → fails_clean (m ≫= k) s.
Proof. intros (err & s' & Hm & ?). exists err, s'. unfold mbind, Sq_bind. by rewrite Hm. Qed.

Lemma fails_clean_groups {A} clk e gt (f : Z → group_table → error + (A * group_table)) table s :
  unquote (quote_char e) gt = Some table → s_db s !! table = None →
  fails_clean (stmt clk (λ now, on_groups e gt (f now))) s.
Proof.
  intros Hg Hn. unfold fails_clean, stmt. destruct (tk_fault _) as [err|]; [by eexists _, _|].
  unfold on_groups. rewrite Hg, Hn. by eexists _, _.
Qed.

Definition runs_clean (run : ∀ C, Querier → (option Z → txfn C) → txfn C) : Prop :=
  ∀ C (fn : option Z → txfn C) s,
  (∀ clk p, fails_clean (fn clk) (mkSession (s_db s) (s_ticks s) p)) → fails_clean (run C QDB fn) s.

Lemma in_tx_clean {C} n (fn : Z → txfn C) s :
  (∀ now p, fails_clean (fn now) (mkSession (s_db s) (s_ticks s) p)) → fails_clean (in_tx n fn) s.
Proof.
  intros Hfn. unfold fails_clean, in_tx, stmt. destruct (tk_fault _) as [err|]; [by eexists _, _|].
  destruct (Hfn (default (tk_now (s_ticks s (s_pos s))) None) (S (s_pos s))) as (err & s' & Hm & Hdb & Ht).
  rewrite Hm. by eexists _, _.
Qed.

Lemma pgRunInTx_clean : runs_clean (@pgRunInTx).
Proof. intros C fn s Hfn. apply in_tx_clean. intros. apply Hfn. Qed.
Lemma mysqlRunInTx_clean : runs_clean (@mysqlRunInTx).
Proof. intros C fn s Hfn. apply in_tx_clean. intros. apply Hfn. Qed.
Lemma withImmediateConn_clean : runs_clean (@withImmediateConn).
Proof.
  intros C fn s Hfn. unfold fails_clean, withImmediateConn, mbind, Sq_bind, stmt.
  destruct (tk_fault _) as [err|]; [by eexists _, _|].
  apply (in_tx_clean 2 (λ _, fn None) (mkSession (s_db s) (s_ticks s) (S (s_pos s)))).
  intros. apply Hfn.
Qed.
