(* ===== verification/SqlGroup.v ===== *)
(** * The SQL group dialects

    [adapter/database/sql/groupdialect.go] (the SPI and the member cap), and the
    three implementations [postgres/groupdialect.go], [mysql/groupdialect.go]
    and [sqlite/groupdialect.go].  The mysql and sqlite files differ in the
    transaction wrapper, the quoting and the site they name only, and all three
    settle, abandon and scan alike; what is common is written once, over the
    engine, and each dialect is its instance.

    A method owns its transaction: another session's statements come before or
    after it, so an execution of any number of stores is a sequence of the
    operations below.  [ExpiredGroups] is not in a transaction; the tables are
    the same at each of its reads here. *)

From stdpp Require Import sorting.
From S2P Require Import Prelude Message SqlEngine.
Local Open Scope Z_scope.

(** ** groupdialect.go *)

Definition UnboundedGroupMembers : Z := -1.
Definition maxGroupMembersCeiling : Z := Z.shiftl 1 20.
Definition ErrMissingMsgID : sentinel :=
  OtherSentinel "msgin/sql: group member requires a non-empty message id".

Definition ValidateMaxMembers (site : string) (maxMembers : Z) : option error :=
  if maxMembers =? UnboundedGroupMembers then None
  else if (1 <=? maxMembers) && (maxMembers <=? maxGroupMembersCeiling) then None
  else Permanent (Some (Errorf [Sentinel ErrInvalidCapacity]
         [FStr site; FInt maxMembers; FInt 1; FInt maxGroupMembersCeiling;
          FInt UnboundedGroupMembers])).

Record GroupRows : Type := mkGroupRows {
  GroupKey : string;
  CreatedAt : Z;
  Members : list MemberRow
}.
(** [GroupRows{}] *)
Definition zeroGroupRows : GroupRows := mkGroupRows "" 0 [].

Record ClaimedGroup : Type := mkClaimedGroup {
  cg_GroupRows : GroupRows;
  cg_Epoch : Z
}.

(** [time.UnixMicro(us)], [t.UnixMicro()] and [d.Microseconds()]. *)
Definition unix_epoch : Z := 62135596800 * second.
Definition UnixMicro (us : Z) : Z := us * microsecond + unix_epoch.
Definition Time_UnixMicro (t : Z) : Z := wrap64 ((t - unix_epoch) / microsecond).
Definition Microseconds (d : Z) : Z := Z.quot d microsecond.

(** The SPI. *)
Record GroupDialect : Type := mkGroupDialect {
  AddMember : Querier → string → string → string → Z → bytes → bytes → Z → Z →
    session → (GroupRows * option error) * session;
  ClaimGroup : Querier → string → string → string → Z →
    session → (option ClaimedGroup * option error) * session;
  SettleGroup : Querier → string → string → string → Z → session → (bool * option error) * session;
  AbandonGroup : Querier → string → string → string → Z → session → (bool * option error) * session;
  ExpiredGroups : Querier → string → Z → Z → Z → session → (list GroupRows * option error) * session;
  EnsureGroupSchema : Querier → string → session → option error * session;
  SchemaExists : Querier → string → session → (bool * option error) * session
}.

(** ** What the three implementations share *)

(** [groupTables]: the quoted names of the two tables. *)
Definition groupTables (e : engine) (table : string) : error + (string * string) :=
  match ValidateIdent table with
  | Some err => inl err
  | None => inr (quote (quote_char e) table, quote (quote_char e) (table +:+ "_member"))
  end.

Definition groupOverflow (site groupKey : string) (n maxMembers : Z) (leaseLive : bool) : error :=
  let err := Errorf [Sentinel ErrOverflowDropped]
               [FStr site; FStr groupKey; FInt n; FInt maxMembers] in
  if leaseLive then err else permanentError err.

Definition withoutMember (members : list MemberRow) (msgID : string) : list MemberRow :=
  filter (λ m, MsgID m ≠ msgID) members.

(** A Go function's return, [zero] standing for the results beside an error the
    transaction ends with. *)
Definition go_return {A} (zero : A) (m : txfn A) (s : session) : (A * option error) * session :=
  match m s with
  | (inl err, s') => ((zero, Some err), s')
  | (inr (a, err), s') => ((a, err), s')
  end.

Section dialects.
Context `{Collation}.
Context (e : engine).

(** The rest of [AddMember]'s transaction, once the group row is read and the
    member row written: the cap, the fetch, the rejection. *)
Definition add_finish (site mt groupKey msgID : string) (maxMembers : Z)
    (created : Z) (leaseLive inserted : bool) : txfn GroupRows :=
  overflowErr ←
    (if inserted && negb (maxMembers =? UnboundedGroupMembers) then
       n ← CountMembers e mt groupKey;
       mret (if maxMembers <? n then Some (groupOverflow site groupKey n maxMembers leaseLive)
             else None)
     else mret None : Sq (option error));
  members ← SelectMembers e mt groupKey unclaimed;
  match overflowErr with
  | Some err => mret (mkGroupRows groupKey (UnixMicro created) (withoutMember members msgID), Some err)
  | None => mret (mkGroupRows groupKey (UnixMicro created) members, None)
  end.

(** [AddMember] of mysql and sqlite: two statements upsert the group and read
    it, and RowsAffected tells whether the member was stored. *)
Definition rows_add (site gt mt groupKey msgID : string) (seq : Z) (headers payload : bytes)
    (maxMembers leaseTTL : Z) (clk : option Z) : txfn GroupRows :=
  _ ← insert_group e clk gt groupKey;
  cl ← select_created_live e clk gt groupKey (Microseconds leaseTTL);
  res ← insert_member e mt groupKey msgID (mkMemberRow seq headers payload None);
  inserted ← RowsAffected res;
  add_finish site mt groupKey msgID maxMembers cl.1 cl.2 (0 <? inserted).

(** [AddMember] of postgres: RETURNING gives both. *)
Definition returning_add (site gt mt groupKey msgID : string) (seq : Z) (headers payload : bytes)
    (maxMembers leaseTTL : Z) (clk : option Z) : txfn GroupRows :=
  cl ← upsert_group_returning e clk gt groupKey (Microseconds leaseTTL);
  one ← insert_member e mt groupKey msgID (mkMemberRow seq headers payload None);
  add_finish site mt groupKey msgID maxMembers cl.1 cl.2 (negb (one =? 0)).

(** The rest of [ClaimGroup]'s transaction for the claimant that won. *)
Definition claim_finish (mt groupKey : string) (newEpoch created : Z) : txfn (option ClaimedGroup) :=
  _ ← tag_members e mt groupKey (absorbable newEpoch) (Some newEpoch);
  members ← SelectMembers e mt groupKey (claimed_at newEpoch);
  mret (Some (mkClaimedGroup (mkGroupRows groupKey (UnixMicro created) members) newEpoch), None).

Definition rows_claim (gt mt groupKey lockedBy : string) (leaseTTL : Z) (clk : option Z)
    : txfn (option ClaimedGroup) :=
  res ← update_lease e clk gt groupKey lockedBy (Microseconds leaseTTL);
  n ← RowsAffected res;
  if n =? 0 then mret (None, None)
  else
    ec ← select_epoch e gt groupKey;
    claim_finish mt groupKey ec.1 ec.2.

Definition returning_claim (gt mt groupKey lockedBy : string) (leaseTTL : Z) (clk : option Z)
    : txfn (option ClaimedGroup) :=
  row ← update_lease_returning e clk gt groupKey lockedBy (Microseconds leaseTTL);
  match row with
  | None => mret (None, None)
  | Some ec => claim_finish mt groupKey ec.1 ec.2
  end.

Definition settle (gt mt groupKey lockedBy : string) (epoch : Z) (clk : option Z) : txfn bool :=
  locked ← GroupExists e gt groupKey;
  if negb locked then mret (false, None)
  else
    _ ← delete_members e mt groupKey (claimed_at epoch);
    remaining ← CountMembers e mt groupKey;
    res ← (if 0 <? remaining then update_unlock_reset e clk gt groupKey lockedBy epoch
           else delete_group_row e gt groupKey lockedBy epoch);
    n ← RowsAffected res;
    mret (0 <? n, None).

Definition abandon (gt mt groupKey lockedBy : string) (epoch : Z) : txfn bool :=
  locked ← GroupExists e gt groupKey;
  if negb locked then mret (false, None)
  else
    _ ← tag_members e mt groupKey (claimed_at epoch) None;
    res ← update_unlock e gt groupKey lockedBy epoch;
    n ← RowsAffected res;
    mret (0 <? n, None).

Fixpoint fetch_groups (mt : string) (cands : list (string * Z)) : Sq (list GroupRows) :=
  match cands with
  | [] => mret []
  | (key, created) :: cands =>
      members ← SelectMembers e mt key unclaimed;
      out ← fetch_groups mt cands;
      mret (mkGroupRows key (UnixMicro created) members :: out)
  end.
Definition expired (gt mt : string) (before leaseTTL limit : Z) (clk : option Z)
    : txfn (list GroupRows) :=
  cands ← select_expired e clk gt (Microseconds leaseTTL) (negb (IsZero before))
            (Time_UnixMicro before) limit;
  out ← fetch_groups mt cands;
  mret (out, None).

Definition schema_exists (table : string) (s : session) : (bool * option error) * session :=
  match ValidateIdent table with
  | Some err => ((false, Some err), s)
  | None => go_return false (b ← select_schema table; mret (b, None)) s
  end.

(** The guards a method runs before its transaction. *)
Definition with_tables {A} (zero : A) (table : string) (m : string → string → txfn A)
    (s : session) : (A * option error) * session :=
  match groupTables e table with
  | inl err => ((zero, Some err), s)
  | inr (gt, mt) => go_return zero (m gt mt) s
  end.

Definition add_member (site table msgID : string) (maxMembers : Z)
    (m : string → string → txfn GroupRows) (s : session) : (GroupRows * option error) * session :=
  if bool_decide (msgID = "") then ((zeroGroupRows, Some (Sentinel ErrMissingMsgID)), s)
  else
    match ValidateMaxMembers site maxMembers with
    | Some err => ((zeroGroupRows, Some err), s)
    | None => with_tables zeroGroupRows table m s
    end.
End dialects.

(** ** postgres/groupdialect.go *)

Section postgres.
Context `{Collation}.
Definition pg_groupOverflowSite : string := "msgin/sql/postgres: AddMember".

(** [now()] of a statement outside a transaction of its own. *)
Definition pg_clock (q : Querier) : option Z :=
  match q with QTx tx => Some (tx_start tx) | _ => None end.

Definition pgAddMember (q : Querier) (table groupKey msgID : string) (seq : Z)
    (headers payload : bytes) (maxMembers leaseTTL : Z) : session → (GroupRows * option error) * session :=
  add_member Postgres pg_groupOverflowSite table msgID maxMembers (λ gt mt,
    pgRunInTx q (returning_add Postgres pg_groupOverflowSite gt mt groupKey msgID seq headers payload
                   maxMembers leaseTTL)).
Definition pgClaimGroup (q : Querier) (table groupKey lockedBy : string) (leaseTTL : Z)
    : session → (option ClaimedGroup * option error) * session :=
  with_tables Postgres None table (λ gt mt,
    pgRunInTx q (returning_claim Postgres gt mt groupKey lockedBy leaseTTL)).
Definition pgSettleGroup (q : Querier) (table groupKey lockedBy : string) (epoch : Z)
    : session → (bool * option error) * session :=
  with_tables Postgres false table (λ gt mt,
    pgRunInTx q (settle Postgres gt mt groupKey lockedBy epoch)).
Definition pgAbandonGroup (q : Querier) (table groupKey lockedBy : string) (epoch : Z)
    : session → (bool * option error) * session :=
  with_tables Postgres false table (λ gt mt,
    pgRunInTx q (λ _, abandon Postgres gt mt groupKey lockedBy epoch)).
Definition pgExpiredGroups (q : Querier) (table : string) (before leaseTTL limit : Z)
    : session → (list GroupRows * option error) * session :=
  with_tables Postgres [] table (λ gt mt,
    expired Postgres gt mt before leaseTTL limit (pg_clock q)).
Definition pgEnsureGroupSchema (q : Querier) (table : string) (s : session) : option error * session :=
  let r := with_tables Postgres tt table (λ gt mt,
    _ ← create_table Postgres gt (RGroup ∅);
    _ ← create_table Postgres mt (RMember ∅);
    _ ← create_index Postgres gt;
    _ ← create_index Postgres mt;
    mret (tt, None)) s in (r.1.2, r.2).
Definition pgSchemaExists (q : Querier) (table : string)
    : session → (bool * option error) * session := schema_exists table.

Definition postgresGroupDialect : GroupDialect :=
  mkGroupDialect pgAddMember pgClaimGroup pgSettleGroup pgAbandonGroup pgExpiredGroups
    pgEnsureGroupSchema pgSchemaExists.
End postgres.

(** ** mysql/groupdialect.go *)

Section mysql.
Context `{Collation}.
Definition mysql_groupOverflowSite : string := "msgin/sql/mysql: AddMember".

Definition mysqlAddMember (q : Querier) (table groupKey msgID : string) (seq : Z)
    (headers payload : bytes) (maxMembers leaseTTL : Z) : session → (GroupRows * option error) * session :=
  add_member MySQL mysql_groupOverflowSite table msgID maxMembers (λ gt mt,
    mysqlRunInTx q (rows_add MySQL mysql_groupOverflowSite gt mt groupKey msgID seq headers payload
                      maxMembers leaseTTL)).
Definition mysqlClaimGroup (q : Querier) (table groupKey lockedBy : string) (leaseTTL : Z)
    : session → (option ClaimedGroup * option error) * session :=
  with_tables MySQL None table (λ gt mt,
    mysqlRunInTx q (rows_claim MySQL gt mt groupKey lockedBy leaseTTL)).
Definition mysqlSettleGroup (q : Querier) (table groupKey lockedBy : string) (epoch : Z)
    : session → (bool * option error) * session :=
  with_tables MySQL false table (λ gt mt,
    mysqlRunInTx q (settle MySQL gt mt groupKey lockedBy epoch)).
Definition mysqlAbandonGroup (q : Querier) (table groupKey lockedBy : string) (epoch : Z)
    : session → (bool * option error) * session :=
  with_tables MySQL false table (λ gt mt,
    mysqlRunInTx q (λ _, abandon MySQL gt mt groupKey lockedBy epoch)).
Definition mysqlExpiredGroups (q : Querier) (table : string) (before leaseTTL limit : Z)
    : session → (list GroupRows * option error) * session :=
  with_tables MySQL [] table (λ gt mt, expired MySQL gt mt before leaseTTL limit None).
Definition mysqlEnsureGroupSchema (q : Querier) (table : string) (s : session) : option error * session :=
  let r := with_tables MySQL tt table (λ gt mt,
    _ ← create_table MySQL gt (RGroup ∅);
    _ ← create_table MySQL mt (RMember ∅);
    mret (tt, None)) s in (r.1.2, r.2).
Definition mysqlSchemaExists (q : Querier) (table : string)
    : session → (bool * option error) * session := schema_exists table.

Definition mysqlGroupDialect : GroupDialect :=
  mkGroupDialect mysqlAddMember mysqlClaimGroup mysqlSettleGroup mysqlAbandonGroup
    mysqlExpiredGroups mysqlEnsureGroupSchema mysqlSchemaExists.
End mysql.

(** ** sqlite/groupdialect.go *)

Section sqlite.
Context `{Collation}.
Definition sqlite_groupOverflowSite : string := "msgin/sql/sqlite: AddMember".

Definition sqliteAddMember (q : Querier) (table groupKey msgID : string) (seq : Z)
    (headers payload : bytes) (maxMembers leaseTTL : Z) : session → (GroupRows * option error) * session :=
  add_member SQLite sqlite_groupOverflowSite table msgID maxMembers (λ gt mt,
    withImmediateConn q (rows_add SQLite sqlite_groupOverflowSite gt mt groupKey msgID seq headers
                           payload maxMembers leaseTTL)).
Definition sqliteClaimGroup (q : Querier) (table groupKey lockedBy : string) (leaseTTL : Z)
    : session → (option ClaimedGroup * option error) * session :=
  with_tables SQLite None table (λ gt mt,
    withImmediateConn q (rows_claim SQLite gt mt groupKey lockedBy leaseTTL)).
Definition sqliteSettleGroup (q : Querier) (table groupKey lockedBy : string) (epoch : Z)
    : session → (bool * option error) * session :=
  with_tables SQLite false table (λ gt mt,
    withImmediateConn q (settle SQLite gt mt groupKey lockedBy epoch)).
Definition sqliteAbandonGroup (q : Querier) (table groupKey lockedBy : string) (epoch : Z)
    : session → (bool * option error) * session :=
  with_tables SQLite false table (λ gt mt,
    withImmediateConn q (λ _, abandon SQLite gt mt groupKey lockedBy epoch)).
Definition sqliteExpiredGroups (q : Querier) (table : string) (before leaseTTL limit : Z)
    : session → (list GroupRows * option error) * session :=
  with_tables SQLite [] table (λ gt mt, expired SQLite gt mt before leaseTTL limit None).
Definition sqliteEnsureGroupSchema (q : Querier) (table : string) (s : session) : option error * session :=
  let r := with_tables SQLite tt table (λ gt mt,
    _ ← create_table SQLite gt (RGroup ∅);
    _ ← create_table SQLite mt (RMember ∅);
    _ ← create_index SQLite gt;
    _ ← create_index SQLite mt;
    mret (tt, None)) s in (r.1.2, r.2).
Definition sqliteSchemaExists (q : Querier) (table : string)
    : session → (bool * option error) * session := schema_exists table.

Definition sqliteGroupDialect : GroupDialect :=
  mkGroupDialect sqliteAddMember sqliteClaimGroup sqliteSettleGroup sqliteAbandonGroup
    sqliteExpiredGroups sqliteEnsureGroupSchema sqliteSchemaExists.
End sqlite.

(** ** The reference semantics

    What an operation of the SPI means on the two tables, given the clock
    readings it takes; no statement, transaction or fault is left in it. *)

Record tables : Type := mkTables {
  t_groups : group_table;
  t_members : member_table
}.

Section spec.
Context `{Collation}.

Definition opened (n : Z) (key : string) (T : tables) : group_row :=
  default (mkGroupRow n 0 None None) (t_groups T !! key).

Definition spec_add (site : string) (n1 n2 : Z) (T : tables) (key id : string) (row : member_row)
    (maxMembers ttl : Z) : (GroupRows * option error) * tables :=
  let r := opened n1 key T in
  let G := <[key := r]> (t_groups T) in
  let M := <[(key, id) := row]> (t_members T) in
  let rows := mkGroupRows key (UnixMicro (created_at r)) in
  match t_members T !! (key, id) with
  | Some _ => ((rows (select_rows key unclaimed (t_members T)), None), mkTables G (t_members T))
  | None =>
      if negb (maxMembers =? UnboundedGroupMembers) && (maxMembers <? count_rows key M) then
        ((rows (withoutMember (select_rows key unclaimed M) id),
          Some (groupOverflow site key (count_rows key M) maxMembers (lease_live n2 ttl r))), T)
      else ((rows (select_rows key unclaimed M), None), mkTables G M)
  end.

Definition spec_claim (n : Z) (T : tables) (key by_ : string) (ttl : Z)
    : (option ClaimedGroup * option error) * tables :=
  match t_groups T !! key with
  | Some r =>
      if stealable n ttl r then
        if MaxInt64 <=? epoch r then ((None, Some (Opaque "bigint out of range")), T)
        else
          let ep := epoch r + 1 in
          let M := tag_rows key (absorbable ep) (Some ep) (t_members T) in
          ((Some (mkClaimedGroup (mkGroupRows key (UnixMicro (created_at r))
                    (select_rows key (claimed_at ep) M)) ep), None),
           mkTables (<[key := mkGroupRow (created_at r) ep (Some by_) (Some n)]> (t_groups T)) M)
      else ((None, None), T)
  | None => ((None, None), T)
  end.

Definition spec_settle (n : Z) (T : tables) (key by_ : string) (ep : Z)
    : (bool * option error) * tables :=
  match t_groups T !! key with
  | None => ((false, None), T)
  | Some r =>
      let M := delete_rows key (claimed_at ep) (t_members T) in
      if holds by_ ep r then
        ((true, None),
         mkTables (if 0 <? count_rows key M
                   then <[key := mkGroupRow n (epoch r) None None]> (t_groups T)
                   else delete key (t_groups T)) M)
      else ((false, None), mkTables (t_groups T) M)
  end.

Definition spec_abandon (T : tables) (key by_ : string) (ep : Z) : (bool * option error) * tables :=
  match t_groups T !! key with
  | None => ((false, None), T)
  | Some r =>
      let M := tag_rows key (claimed_at ep) None (t_members T) in
      if holds by_ ep r then
        ((true, None), mkTables (<[key := mkGroupRow (created_at r) (epoch r) None None]> (t_groups T)) M)
      else ((false, None), mkTables (t_groups T) M)
  end.

Definition spec_expired (n : Z) (T : tables) (before ttl limit : Z) : list GroupRows :=
  (λ kc, mkGroupRows kc.1 (UnixMicro kc.2) (select_rows kc.1 unclaimed (t_members T))) <$>
    take (Z.to_nat limit)
      (expired_rows n ttl (negb (IsZero before)) (Time_UnixMicro before) (t_groups T)).
End spec.

(** The two tables of base name [table]. *)
Definition member_name (table : string) : string := table +:+ "_member".
Definition has_tables (table : string) (db : database) (T : tables) : Prop :=
  db !! table = Some (RGroup (t_groups T)) ∧ db !! member_name table = Some (RMember (t_members T)).
Definition with_contents (table : string) (db : database) (T : tables) : database :=
  put_tables db table (member_name table) (t_groups T) (t_members T).

(** How an operation in a transaction of its own ends: as the reference says,
    or with a fault of the driver, in which case the tables are untouched or,
    when it was COMMIT that failed, as the reference says. *)
Definition tx_outcome {A} (zero : A) (table : string) (s : session) (r : (A * option error) * session)
    (spec : (A * option error) * tables) : Prop :=
  (r.1 = spec.1 ∧ s_db r.2 = with_contents table (s_db s) spec.2) ∨
  (∃ err, r.1 = (zero, Some err) ∧ faulted s err ∧
     (s_db r.2 = s_db s ∨
      (spec.1.2 = None ∧ s_db r.2 = with_contents table (s_db s) spec.2))).

(** A method that only fails. *)
Definition errs_clean {A} (zero : A) (m : session → (A * option error) * session) (s : session) : Prop :=
  ∃ err s', m s = ((zero, Some err), s') ∧ s_db s' = s_db s ∧ s_ticks s' = s_ticks s.

(** What an implementation of the SPI promises [sql.GroupStore]. *)
Class GroupDialectLaws `{Collation} (d : GroupDialect) (site : string) : Prop := {
  AddMember_no_id table s key seq headers payload maxMembers ttl q :
    AddMember d q table key "" seq headers payload maxMembers ttl s =
      ((zeroGroupRows, Some (Sentinel ErrMissingMsgID)), s);
  AddMember_bad_cap table s key id seq headers payload maxMembers ttl q err :
    id ≠ "" → ValidateMaxMembers site maxMembers = Some err →
    AddMember d q table key id seq headers payload maxMembers ttl s = ((zeroGroupRows, Some err), s);
  AddMember_law table s T key id seq headers payload maxMembers ttl :
    ValidateIdent table = None → has_tables table (s_db s) T → id ≠ "" →
    ValidateMaxMembers site maxMembers = None →
    ∃ n1 n2, reads s n1 ∧ reads s n2 ∧
      tx_outcome zeroGroupRows table s
        (AddMember d QDB table key id seq headers payload maxMembers ttl s)
        (spec_add site n1 n2 T key id (mkMemberRow seq headers payload None) maxMembers (Microseconds ttl));
  ClaimGroup_law table s T key by_ ttl :
    ValidateIdent table = None → has_tables table (s_db s) T →
    ∃ n, reads s n ∧
      tx_outcome None table s (ClaimGroup d QDB table key by_ ttl s)
        (spec_claim n T key by_ (Microseconds ttl));
  SettleGroup_law table s T key by_ ep :
    ValidateIdent table = None → has_tables table (s_db s) T →
    ∃ n, reads s n ∧
      tx_outcome false table s (SettleGroup d QDB table key by_ ep s) (spec_settle n T key by_ ep);
  AbandonGroup_law table s T key by_ ep :
    ValidateIdent table = None → has_tables table (s_db s) T →
      tx_outcome false table s (AbandonGroup d QDB table key by_ ep s) (spec_abandon T key by_ ep);
  ExpiredGroups_law table s T before ttl limit :
    ValidateIdent table = None → has_tables table (s_db s) T →
    ∃ n, reads s n ∧
      tx_outcome [] table s (ExpiredGroups d QDB table before ttl limit s)
        ((spec_expired n T before (Microseconds ttl) limit, None), T);
  SchemaExists_law table s q : SchemaExists d q table s = schema_exists table s;
  missing_table table s : ValidateIdent table = None → s_db s !! table = None →
    (∀ key id seq headers payload maxMembers ttl,
       id ≠ "" → ValidateMaxMembers site maxMembers = None →
       errs_clean zeroGroupRows (AddMember d QDB table key id seq headers payload maxMembers ttl) s) ∧
    (∀ key by_ ttl, errs_clean None (ClaimGroup d QDB table key by_ ttl) s) ∧
    (∀ key by_ ep, errs_clean false (SettleGroup d QDB table key by_ ep) s) ∧
    (∀ key by_ ep, errs_clean false (AbandonGroup d QDB table key by_ ep) s) ∧
    (∀ before ttl limit, errs_clean [] (ExpiredGroups d QDB table before ttl limit) s)
}.

(** ** The dialects keep the promise *)

Lemma member_name_ne table : table ≠ member_name table.
Proof.
  intros Heq. apply (f_equal String.length) in Heq. unfold member_name in Heq.
  assert (∀ a b, String.length (a +:+ b) = (String.length a + String.length b)%nat) as Hl.
  { induction a as [|c a IH]; intros b; [done|]. cbn. by rewrite <- IH. }
  rewrite Hl in Heq. cbn in Heq. lia.
Qed.

Lemma with_contents_id table db T : has_tables table db T → with_contents table db T = db.
Proof.
  intros [Hg Hm]. unfold with_contents, put_tables.
  rewrite (insert_id db) by done. by apply insert_id.
Qed.

Lemma has_with_contents table db T : has_tables table (with_contents table db T) T.
Proof. split; [apply put_group, member_name_ne|apply put_member]. Qed.

Lemma with_contents_twice table db T T' :
  with_contents table (with_contents table db T) T' = with_contents table db T'.
Proof.
  unfold with_contents. destruct T as [G M], T' as [G' M'].
  unfold put_tables at 1. cbn. rewrite put_group_twice by apply member_name_ne.
  apply put_member_twice.
Qed.

Lemma upsert_rows_opened n key T :
  upsert_rows n key (t_groups T) = <[key := opened n key T]> (t_groups T).
Proof.
  unfold upsert_rows, opened. destruct (t_groups T !! key) eqn:E; [|done].
  cbn. by rewrite insert_id.
Qed.

Section bodies.
Context `{Collation} (e : engine) (db0 : database) (o : nat → tick) (p0 : nat) (table : string).
Context (E : error → Prop).
Context (HE : ∀ i err, (p0 ≤ i)%nat → tk_fault (o i) = Some err → E err).
#[local] Abbreviation st := (λ p T, at_ db0 o table (member_name table) p (t_groups T) (t_members T)).
#[local] Abbreviation gt := (quote (quote_char e) table).
#[local] Abbreviation mt := (quote (quote_char e) (table +:+ "_member")).

Definition read_from (n : Z) : Prop := ∃ i, (p0 ≤ i)%nat ∧ n = tk_now (o i).

Lemma read_default clk i : (p0 ≤ i)%nat → (∀ n, clk = Some n → read_from n) →
  read_from (default (tk_now (o i)) clk).
Proof. intros Hi Hc. destruct clk as [n|]; cbn; [by apply Hc|by exists i]. Qed.

(** What a function in a transaction leaves, against a reference [spec] that
    depends on readings [n] of the clock. *)
Definition body_post {A N} (P : N → Prop) (spec : N → (A * option error) * tables) (p : nat)
    (r : A * option error) (s : session) : Prop :=
  s_ticks s = o ∧ (p ≤ s_pos s)%nat ∧
  ∃ n, P n ∧ r = (spec n).1 ∧ (r.2 = None → s_db s = with_contents table db0 (spec n).2).

(** One statement. *)
Ltac head_of t := lazymatch t with ?f _ => head_of f | _ => t end.
Ltac sql_step :=
  lazymatch goal with
  | |- wpq (mbind _ _) _ _ _ => apply wpq_bind; sql_step
  | |- wpq (mret _) _ _ _ => apply wpq_ret
  | |- wpq (RowsAffected _) _ _ _ => apply wpq_rows; [by intros; eapply HE; [|done]; lia|]
  | |- wpq (stmt _ (λ _, on_groups _ _ _)) _ _ _ =>
      eapply wpq_groups; [apply member_name_ne|apply unquote_quote|by intros; eapply HE; [|done]; lia|];
      cbv beta iota
  | |- wpq (stmt _ (λ _, on_members _ _ _)) _ _ _ =>
      eapply wpq_members; [apply unquote_quote|by intros; eapply HE; [|done]; lia|]; cbv beta iota
  | |- wpq ?m _ _ _ => let h := head_of m in unfold h; sql_step
  end.

Lemma add_finish_wpq site G M key id maxMembers created live inserted p :
  (p0 ≤ p)%nat →
  wpq (add_finish e site mt key id maxMembers created live inserted) E
    (λ r s, s_ticks s = o ∧ (p ≤ s_pos s)%nat ∧ s_db s = with_contents table db0 (mkTables G M) ∧
       let rows := mkGroupRows key (UnixMicro created) in
       r = if inserted && negb (maxMembers =? UnboundedGroupMembers) && (maxMembers <? count_rows key M)
           then (rows (withoutMember (select_rows key unclaimed M) id),
                 Some (groupOverflow site key (count_rows key M) maxMembers live))
           else (rows (select_rows key unclaimed M), None))
    (at_ db0 o table (member_name table) p G M).
Proof using HE.
  intros Hp. unfold add_finish. destruct (inserted && _); cbn [andb].
  - do 3 sql_step. destruct (maxMembers <? _); apply wpq_ret; repeat split; cbn; lia.
  - do 2 sql_step. apply wpq_ret. repeat split; cbn; lia.
Qed.

(** The reference, from the tables the upserts leave. *)
Lemma spec_add_finish site n1 n2 T key id row maxMembers ttl inserted M :
  insert_row key id row (t_members T) = (inserted, M) →
  let r := opened n1 key T in
  let rows := mkGroupRows key (UnixMicro (created_at r)) in
  let res :=
    if (0 <? inserted) && negb (maxMembers =? UnboundedGroupMembers) && (maxMembers <? count_rows key M)
    then (rows (withoutMember (select_rows key unclaimed M) id),
          Some (groupOverflow site key (count_rows key M) maxMembers (lease_live n2 ttl r)))
    else (rows (select_rows key unclaimed M), None) in
  (spec_add site n1 n2 T key id row maxMembers ttl).1 = res ∧
  (res.2 = None → (spec_add site n1 n2 T key id row maxMembers ttl).2 =
     mkTables (<[key := r]> (t_groups T)) M).
Proof.
  unfold insert_row, spec_add. destruct (t_members T !! (key, id)) eqn:Hk; intros [= <- <-]; [done|].
  cbn [Z.ltb Z.compare andb]. by destruct (_ && _).
Qed.

Lemma opened_lookup n key T : (<[key := opened n key T]> (t_groups T)) !! key = Some (opened n key T).
Proof. apply lookup_insert_eq. Qed.

Definition add_readings (n : Z * Z) : Prop := read_from n.1 ∧ read_from n.2.

Lemma rows_add_wpq site T key id seq headers payload maxMembers ttl clk p :
  (p0 ≤ p)%nat → (∀ n, clk = Some n → read_from n) →
  wpq (rows_add e site gt mt key id seq headers payload maxMembers ttl clk) E
    (body_post add_readings (λ n, spec_add site n.1 n.2 T key id
       (mkMemberRow seq headers payload None) maxMembers (Microseconds ttl)) p)
    (st p T).
Proof using HE.
  intros Hp Hc. unfold rows_add. do 2 sql_step. rewrite upsert_rows_opened, opened_lookup.
  sql_step. destruct (insert_row _ _ _ _) as [n M] eqn:Hi. sql_step.
  set (n1 := default (tk_now (o p)) clk). set (n2 := default (tk_now (o (S p))) clk).
  eapply wpq_mono; [apply add_finish_wpq; lia|]. intros r s (Ht & Hpos & Hdb & Hr).
  split; [done|]. split; [lia|]. exists (n1, n2).
  split; [split; apply read_default; (lia || done)|].
  destruct (spec_add_finish site n1 n2 T key id (mkMemberRow seq headers payload None)
    maxMembers (Microseconds ttl) n M Hi) as [Hs1 Hs2].
  cbn [fst snd] in *. rewrite Hs1. split; [exact Hr|]. intros Hn.
  rewrite Hs2; [done|]. rewrite <- Hr. done.
Qed.

Lemma returning_add_wpq site T key id seq headers payload maxMembers ttl clk p :
  (p0 ≤ p)%nat → (∀ n, clk = Some n → read_from n) →
  wpq (returning_add e site gt mt key id seq headers payload maxMembers ttl clk) E
    (body_post add_readings (λ n, spec_add site n.1 n.2 T key id
       (mkMemberRow seq headers payload None) maxMembers (Microseconds ttl)) p)
    (st p T).
Proof using HE.
  intros Hp Hc. unfold returning_add. sql_step. rewrite upsert_rows_opened, opened_lookup.
  sql_step. destruct (insert_row _ _ _ _) as [n M] eqn:Hi.
  set (n1 := default (tk_now (o p)) clk).
  assert (negb (n =? 0) = (0 <? n)) as ->.
  { revert Hi. unfold insert_row. destruct (_ !! _); by intros [= <- <-]. }
  eapply wpq_mono; [apply add_finish_wpq; lia|]. intros r s (Ht & Hpos & Hdb & Hr).
  split; [done|]. split; [lia|]. exists (n1, n1).
  split; [split; apply read_default; (lia || done)|].
  destruct (spec_add_finish site n1 n1 T key id (mkMemberRow seq headers payload None)
    maxMembers (Microseconds ttl) n M Hi) as [Hs1 Hs2].
  cbn [fst snd] in *. rewrite Hs1. split; [exact Hr|]. intros Hn.
  rewrite Hs2; [done|]. rewrite <- Hr. done.
Qed.

Lemma claim_finish_wpq n T key by_ ttl r p :
  (p0 ≤ p)%nat → read_from n → t_groups T !! key = Some r → stealable n ttl r = true →
  (MaxInt64 <=? epoch r) = false →
  wpq (claim_finish e mt key (epoch r + 1) (created_at r)) E
    (body_post read_from (λ n, spec_claim n T key by_ ttl) p)
    (at_ db0 o table (member_name table) p
       (<[key := mkGroupRow (created_at r) (epoch r + 1) (Some by_) (Some n)]> (t_groups T))
       (t_members T)).
Proof using HE.
  intros Hp Hn Hr Hst Hmax. unfold claim_finish. do 2 sql_step. apply wpq_ret.
  split; [done|]. split; [cbn; lia|]. exists n. split; [done|].
  unfold spec_claim. by rewrite Hr, Hst, Hmax.
Qed.

(** The error an UPDATE of the lease may end a claim with. *)
Definition claim_errors (T : tables) (key by_ : string) (ttl : Z) : Prop :=
  ∀ n err, read_from n → (spec_claim n T key by_ ttl).1 = (None, Some err) → E err.

Lemma rows_claim_wpq T key by_ ttl clk p :
  (p0 ≤ p)%nat → (∀ n, clk = Some n → read_from n) → claim_errors T key by_ (Microseconds ttl) →
  wpq (rows_claim e gt mt key by_ ttl clk) E
    (body_post read_from (λ n, spec_claim n T key by_ (Microseconds ttl)) p) (st p T).
Proof using HE.
  intros Hp Hc Herr. unfold rows_claim. sql_step.
  set (n := default (tk_now (o p)) clk).
  assert (read_from n) as Hn by (apply read_default; (lia || done)).
  specialize (Herr n). unfold lease_row in *.
  destruct (t_groups T !! key) as [r|] eqn:Hr; [destruct (stealable _ _ _) eqn:Hst;
    [destruct (MaxInt64 <=? _) eqn:Hmax|]|]; cbn [sum_bind fst snd].
  - apply Herr; [done|]. unfold spec_claim. by rewrite Hr, Hst, Hmax.
  - sql_step. cbn [Z.eqb]. sql_step. rewrite lookup_insert_eq. cbn [epoch created_at fst snd].
    eapply wpq_mono; [apply (claim_finish_wpq n T key by_ (Microseconds ttl) r); (lia || done)|].
    intros a s (? & ? & ?). split; [done|]. split; [lia|done].
  - sql_step. cbn [Z.eqb]. apply wpq_ret. split; [done|]. split; [cbn; lia|]. exists n.
    split; [done|]. unfold spec_claim. by rewrite Hr, Hst.
  - sql_step. cbn [Z.eqb]. apply wpq_ret. split; [done|]. split; [cbn; lia|]. exists n.
    split; [done|]. unfold spec_claim. by rewrite Hr.
Qed.

Lemma returning_claim_wpq T key by_ ttl clk p :
  (p0 ≤ p)%nat → (∀ n, clk = Some n → read_from n) → claim_errors T key by_ (Microseconds ttl) →
  wpq (returning_claim e gt mt key by_ ttl clk) E
    (body_post read_from (λ n, spec_claim n T key by_ (Microseconds ttl)) p) (st p T).
Proof using HE.
  intros Hp Hc Herr. unfold returning_claim. sql_step.
  set (n := default (tk_now (o p)) clk).
  assert (read_from n) as Hn by (apply read_default; (lia || done)).
  specialize (Herr n). unfold lease_row in *.
  destruct (t_groups T !! key) as [r|] eqn:Hr; [destruct (stealable _ _ _) eqn:Hst;
    [destruct (MaxInt64 <=? _) eqn:Hmax|]|]; cbn [sum_bind fst snd fmap option_fmap option_map].
  - apply Herr; [done|]. unfold spec_claim. by rewrite Hr, Hst, Hmax.
  - cbn [epoch created_at].
    eapply wpq_mono; [apply (claim_finish_wpq n T key by_ (Microseconds ttl) r); (lia || done)|].
    intros a s (? & ? & ?). split; [done|]. split; [lia|done].
  - apply wpq_ret. split; [done|]. split; [cbn; lia|]. exists n.
    split; [done|]. unfold spec_claim. by rewrite Hr, Hst.
  - apply wpq_ret. split; [done|]. split; [cbn; lia|]. exists n.
    split; [done|]. unfold spec_claim. by rewrite Hr.
Qed.

Lemma settle_wpq T key by_ ep clk p :
  (p0 ≤ p)%nat → (∀ n, clk = Some n → read_from n) →
  wpq (settle e gt mt key by_ ep clk) E
    (body_post read_from (λ n, spec_settle n T key by_ ep) p) (st p T).
Proof using HE.
  intros Hp Hc. unfold settle. sql_step. destruct (t_groups T !! key) as [r|] eqn:Hr.
  2: { apply wpq_ret. split; [done|]. split; [cbn; lia|]. exists (tk_now (o p)).
       split; [by exists p|]. unfold spec_settle. by rewrite Hr. }
  rewrite bool_decide_eq_true_2 by done. cbn [negb]. do 2 sql_step.
  set (M := delete_rows key (claimed_at ep) (t_members T)).
  set (n := default (tk_now (o (S (S (S p))))) clk).
  assert (read_from n) as Hn by (apply read_default; (lia || done)).
  destruct (0 <? count_rows key M) eqn:Hcnt; sql_step; unfold fenced; rewrite Hr;
    (destruct (holds by_ ep r) eqn:Hh; sql_step; apply wpq_ret;
     (split; [done|]; split; [cbn; lia|]; exists n; split; [done|];
      unfold spec_settle; rewrite Hr, Hh; fold M; rewrite ?Hcnt; done)).
Qed.

Lemma abandon_wpq T key by_ ep p :
  (p0 ≤ p)%nat →
  wpq (abandon e gt mt key by_ ep) E
    (body_post read_from (λ _, spec_abandon T key by_ ep) p) (st p T).
Proof using HE.
  intros Hp. assert (read_from (tk_now (o p))) as Hn by (by exists p).
  unfold abandon. sql_step. destruct (t_groups T !! key) as [r|] eqn:Hr.
  2: { apply wpq_ret. split; [done|]. split; [cbn; lia|]. exists (tk_now (o p)).
       split; [done|]. unfold spec_abandon. by rewrite Hr. }
  rewrite bool_decide_eq_true_2 by done. cbn [negb]. do 2 sql_step. unfold fenced. rewrite Hr.
  destruct (holds by_ ep r) eqn:Hh; sql_step; apply wpq_ret;
    (split; [done|]; split; [cbn; lia|]; exists (tk_now (o p)); split; [done|];
     unfold spec_abandon; rewrite Hr, Hh; done).
Qed.

Lemma fetch_groups_wpq T cands p :
  (p0 ≤ p)%nat →
  wpq (fetch_groups e mt cands) E
    (λ r s, s_ticks s = o ∧ (p ≤ s_pos s)%nat ∧ s_db s = with_contents table db0 T ∧
       r = (λ kc, mkGroupRows kc.1 (UnixMicro kc.2) (select_rows kc.1 unclaimed (t_members T))) <$> cands)
    (st p T).
Proof using HE.
  revert p. induction cands as [|[key created] cands IH]; intros p Hp; cbn [fetch_groups].
  - apply wpq_ret. repeat split; cbn; lia.
  - sql_step. apply wpq_bind. eapply wpq_mono; [apply IH; lia|].
    intros r s (Ht & Hpos & Hdb & ->). apply wpq_ret. split; [done|]. split; [lia|done].
Qed.

Lemma expired_wpq T before ttl limit clk p :
  (p0 ≤ p)%nat → (∀ n, clk = Some n → read_from n) →
  wpq (expired e gt mt before ttl limit clk) E
    (body_post read_from (λ n, ((spec_expired n T before (Microseconds ttl) limit, None), T)) p)
    (st p T).
Proof using HE.
  intros Hp Hc. unfold expired. sql_step. apply wpq_bind.
  eapply wpq_mono; [apply fetch_groups_wpq; lia|]. intros r s (Ht & Hpos & Hdb & ->).
  apply wpq_ret. split; [done|]. split; [lia|]. exists (default (tk_now (o p)) clk).
  split; [apply read_default; (lia || done)|done].
Qed.
End bodies.

(** From a function's transaction to the method that runs it. *)
Lemma tx_law {A N} (run : ∀ C, Querier → (option Z → txfn C) → txfn C) (zero : A)
    (fn : option Z → txfn A) (P : N → Prop) (spec : N → (A * option error) * tables) table s T :
  runs_in_tx run → has_tables table (s_db s) T → (∃ n, P n) →
  (∀ n err, (spec n).1.2 = Some err → (spec n).2 = T) →
  (∀ E clk p,
     (∀ i err, (s_pos s ≤ i)%nat → tk_fault (s_ticks s i) = Some err → E err) →
     (∀ n err, P n → (spec n).1 = (zero, Some err) → E err) →
     clock_ok s clk → (s_pos s ≤ p)%nat →
     wpq (fn clk) E (body_post (s_db s) (s_ticks s) table P spec p)
       (at_ (s_db s) (s_ticks s) table (member_name table) p (t_groups T) (t_members T))) →
  ∃ n, P n ∧ tx_outcome zero table s (go_return zero (run A QDB fn) s) (spec n).
Proof.
  intros Hrun HT [n0 Hn0] Herr Hfn.
  set (E := λ err, faulted s err ∨ ∃ n, P n ∧ (spec n).1 = (zero, Some err)).
  set (Q := λ (c : A) err s', ∃ n, P n ∧ (c, err) = (spec n).1 ∧
     (err = None → s_db s' = with_contents table (s_db s) (spec n).2)).
  assert (tx_result E Q s (run A QDB fn s)) as Hr.
  { apply Hrun; [by left|]. intros clk p Hc Hp.
    specialize (Hfn E clk p). rewrite <- (with_contents_id table (s_db s) T HT) at 1.
    eapply wpq_mono; [apply Hfn; [|by right; exists n|done|done]|].
    - intros i err Hi Hf. left. by exists i.
    - intros [c err] s' (Ht & Hp' & n & Hn & Hsp & Hdb). split; [done|]. split; [done|].
      exists n. auto. }
  unfold go_return, tx_outcome, tx_result in *.
  destruct (run A QDB fn s) as [[err|[c [err|]]] s']; cbn [fst snd].
  - destruct Hr as [[[Hf|(n & Hn & Hsp)] Hdb]|(Hf & c & s2 & (n & Hn & Hsp & Hdb) & Hs2)].
    + exists n0. split; [done|]. right. exists err. auto.
    + exists n. split; [done|]. left. split; [done|]. rewrite (Herr n err) by by rewrite Hsp.
      by rewrite with_contents_id.
    + exists n. split; [done|]. right. exists err. split; [done|]. split; [done|]. right.
      rewrite <- Hsp. split; [done|]. rewrite Hs2. by apply Hdb.
  - destruct Hr as (Hdb & s2 & n & Hn & Hsp & _). exists n. split; [done|]. left. split; [done|].
    rewrite (Herr n err) by by rewrite <- Hsp. by rewrite with_contents_id.
  - destruct Hr as (s2 & (n & Hn & Hsp & Hdb) & Hs2). exists n. split; [done|]. left.
    split; [done|]. rewrite Hs2. by apply Hdb.
Qed.

Lemma spec_add_err `{Collation} site n1 n2 T key id row maxMembers ttl err :
  (spec_add site n1 n2 T key id row maxMembers ttl).1.2 = Some err →
  (spec_add site n1 n2 T key id row maxMembers ttl).2 = T.
Proof. unfold spec_add. destruct (_ !! (key, id)); [done|]. by destruct (_ && _). Qed.

Lemma spec_claim_err `{Collation} n T key by_ ttl err :
  (spec_claim n T key by_ ttl).1.2 = Some err → (spec_claim n T key by_ ttl).2 = T.
Proof. unfold spec_claim. by repeat case_match_goal. Qed.

Lemma spec_settle_ok n T key by_ ep : (spec_settle n T key by_ ep).1.2 = None.
Proof. unfold spec_settle. by repeat case_match_goal. Qed.

Lemma spec_abandon_ok T key by_ ep : (spec_abandon T key by_ ep).1.2 = None.
Proof. unfold spec_abandon. by repeat case_match_goal. Qed.

Lemma reads_here s : reads s (tk_now (s_ticks s (s_pos s))).
Proof. by exists (s_pos s). Qed.
#[export] Hint Resolve reads_here : msgin.

(** The part of a method before its transaction. *)
Lemma with_tables_ok {A} e (zero : A) table m s :
  ValidateIdent table = None →
  with_tables e zero table m s =
  go_return zero (m (quote (quote_char e) table) (quote (quote_char e) (table +:+ "_member"))) s.
Proof. intros Hv. unfold with_tables, groupTables. by rewrite Hv. Qed.

Lemma add_member_ok e site table id maxMembers m s :
  ValidateIdent table = None → id ≠ "" → ValidateMaxMembers site maxMembers = None →
  add_member e site table id maxMembers m s =
  go_return zeroGroupRows (m (quote (quote_char e) table) (quote (quote_char e) (table +:+ "_member"))) s.
Proof.
  intros Hv Hid Hm. unfold add_member. rewrite bool_decide_eq_false_2, Hm by done.
  by apply with_tables_ok.
Qed.

Lemma fetch_groups_read_only `{Collation} e mt cands : read_only (fetch_groups e mt cands).
Proof. induction cands as [|[key c] cands IH]; cbn; auto with msgin. Qed.
#[export] Hint Resolve fetch_groups_read_only : msgin.

Lemma expired_read_only `{Collation} e gt mt before ttl limit clk :
  read_only (expired e gt mt before ttl limit clk).
Proof. unfold expired. auto 6 with msgin. Qed.

Lemma add_member_bad_cap e site table id maxMembers m s err :
  id ≠ "" → ValidateMaxMembers site maxMembers = Some err →
  add_member e site table id maxMembers m s = ((zeroGroupRows, Some err), s).
Proof. intros Hid Hm. unfold add_member. by rewrite bool_decide_eq_false_2, Hm. Qed.

(** The methods, for any wrapper that runs them in a transaction. *)
Section methods.
Context `{Collation} (e : engine) (run : ∀ C, Querier → (option Z → txfn C) → txfn C).
Context (Hrun : runs_in_tx run).
Context (table : string) (s : session) (T : tables).
Context (Hv : ValidateIdent table = None) (HT : has_tables table (s_db s) T).
#[local] Abbreviation gt := (quote (quote_char e) table).
#[local] Abbreviation mt := (quote (quote_char e) (table +:+ "_member")).

Lemma add_outcome site key id seq headers payload maxMembers ttl
    (body : option Z → txfn GroupRows) :
  (∀ E clk p,
     (∀ i err, (s_pos s ≤ i)%nat → tk_fault (s_ticks s i) = Some err → E err) →
     (s_pos s ≤ p)%nat → (∀ n, clk = Some n → read_from (s_ticks s) (s_pos s) n) →
     wpq (body clk) E (body_post (s_db s) (s_ticks s) table (add_readings (s_ticks s) (s_pos s))
        (λ n, spec_add site n.1 n.2 T key id (mkMemberRow seq headers payload None) maxMembers
                (Microseconds ttl)) p)
       (at_ (s_db s) (s_ticks s) table (member_name table) p (t_groups T) (t_members T))) →
  ∃ n1 n2, reads s n1 ∧ reads s n2 ∧
    tx_outcome zeroGroupRows table s (go_return zeroGroupRows (run _ QDB body) s)
      (spec_add site n1 n2 T key id (mkMemberRow seq headers payload None) maxMembers (Microseconds ttl)).
Proof using Hrun HT.
  intros Hb.
  destruct (tx_law run zeroGroupRows body (add_readings (s_ticks s) (s_pos s))
    (λ n, spec_add site n.1 n.2 T key id (mkMemberRow seq headers payload None) maxMembers
            (Microseconds ttl)) table s T Hrun HT) as ([n1 n2] & [Hn1 Hn2] & Ho).
  - exists (tk_now (s_ticks s (s_pos s)), tk_now (s_ticks s (s_pos s))). split; apply reads_here.
  - intros n err. apply spec_add_err.
  - intros E clk p HE _ Hc Hp. by apply Hb.
  - by exists n1, n2.
Qed.

Lemma claim_outcome key by_ ttl (body : option Z → txfn (option ClaimedGroup)) :
  (∀ E clk p,
     (∀ i err, (s_pos s ≤ i)%nat → tk_fault (s_ticks s i) = Some err → E err) →
     (s_pos s ≤ p)%nat → (∀ n, clk = Some n → read_from (s_ticks s) (s_pos s) n) →
     claim_errors (s_ticks s) (s_pos s) E T key by_ (Microseconds ttl) →
     wpq (body clk) E (body_post (s_db s) (s_ticks s) table (read_from (s_ticks s) (s_pos s))
        (λ n, spec_claim n T key by_ (Microseconds ttl)) p)
       (at_ (s_db s) (s_ticks s) table (member_name table) p (t_groups T) (t_members T))) →
  ∃ n, reads s n ∧
    tx_outcome None table s (go_return None (run _ QDB body) s) (spec_claim n T key by_ (Microseconds ttl)).
Proof using Hrun HT.
  intros Hb. apply (tx_law run None body (read_from (s_ticks s) (s_pos s))
    (λ n, spec_claim n T key by_ (Microseconds ttl)) table s T Hrun HT).
  - eexists. apply reads_here.
  - intros n err. apply spec_claim_err.
  - intros E clk p HE Herr Hc Hp. apply Hb; [done..|]. intros n err Hn. by apply Herr.
Qed.

Lemma settle_outcome key by_ ep :
  ∃ n, reads s n ∧
    tx_outcome false table s (go_return false (run _ QDB (settle e gt mt key by_ ep)) s)
      (spec_settle n T key by_ ep).
Proof using Hrun HT.
  apply (tx_law run false (settle e gt mt key by_ ep) (read_from (s_ticks s) (s_pos s))
    (λ n, spec_settle n T key by_ ep) table s T Hrun HT).
  - eexists. apply reads_here.
  - intros n err. by rewrite spec_settle_ok.
  - intros E clk p HE _ Hc Hp. by apply settle_wpq.
Qed.

Lemma abandon_outcome key by_ ep :
  tx_outcome false table s (go_return false (run _ QDB (λ _, abandon e gt mt key by_ ep)) s)
    (spec_abandon T key by_ ep).
Proof using Hrun HT.
  destruct (tx_law run false (λ _, abandon e gt mt key by_ ep) (read_from (s_ticks s) (s_pos s))
    (λ _, spec_abandon T key by_ ep) table s T Hrun HT) as (n & _ & Ho); [| | |done].
  - eexists. apply reads_here.
  - intros _ err. by rewrite spec_abandon_ok.
  - intros E clk p HE _ Hc Hp. by apply abandon_wpq.
Qed.

Lemma expired_outcome before ttl limit :
  ∃ n, reads s n ∧
    tx_outcome [] table s (go_return [] (expired e gt mt before ttl limit None) s)
      ((spec_expired n T before (Microseconds ttl) limit, None), T).
Proof using HT.
  set (E := λ err, faulted s err).
  assert (wpq (expired e gt mt before ttl limit None) E
    (body_post (s_db s) (s_ticks s) table (read_from (s_ticks s) (s_pos s))
       (λ n, ((spec_expired n T before (Microseconds ttl) limit, None), T)) (s_pos s)) s) as Hw.
  { pose proof (expired_wpq e (s_db s) (s_ticks s) (s_pos s) table E) as Hx.
    specialize (Hx ltac:(intros i err ??; by exists i) T before ttl limit None (s_pos s)).
    specialize (Hx ltac:(lia) ltac:(done)). unfold at_ in Hx.
    change (put_tables (s_db s) table (member_name table) (t_groups T) (t_members T))
      with (with_contents table (s_db s) T) in Hx.
    rewrite with_contents_id in Hx by done. by destruct s. }
  pose proof (expired_read_only e gt mt before ttl limit None s) as Hro.
  unfold wpq, go_return, tx_outcome in *.
  destruct (expired _ _ _ _ _ _ _ s) as [[err|[r err]] s']; cbn [fst snd] in *.
  - eexists. split; [apply reads_here|]. right. exists err. auto.
  - destruct Hw as (_ & _ & n & Hn & Hr & _). exists n. split; [done|]. left. cbn in Hr.
    simplify_eq. split; [done|]. by rewrite with_contents_id, Hro.
Qed.
End methods.

Lemma with_tables_clean {A} e (zero : A) table m s :
  ValidateIdent table = None →
  errs_clean zero (go_return zero (m (quote (quote_char e) table) (quote (quote_char e) (table +:+ "_member")))) s →
  errs_clean zero (with_tables e zero table m) s.
Proof. intros Hv (err & s' & Hm & ?). exists err, s'. by rewrite with_tables_ok. Qed.

Lemma add_member_clean e site table id maxMembers m s :
  ValidateIdent table = None → id ≠ "" → ValidateMaxMembers site maxMembers = None →
  errs_clean zeroGroupRows (go_return zeroGroupRows
    (m (quote (quote_char e) table) (quote (quote_char e) (table +:+ "_member")))) s →
  errs_clean zeroGroupRows (add_member e site table id maxMembers m) s.
Proof. intros Hv Hid Hm (err & s' & Hr & ?). exists err, s'. by rewrite add_member_ok. Qed.

(** On a missing group table every function fails at its first statement. *)
Lemma go_return_clean {A} (zero : A) (m : txfn A) s :
  fails_clean m s → errs_clean zero (go_return zero m) s.
Proof. intros (err & s' & Hm & ?). exists err, s'. unfold go_return. by rewrite Hm. Qed.

Ltac sql_missing :=
  intros; apply fails_clean_bind; eapply fails_clean_groups; [apply unquote_quote|done].

Section missing.
Context `{Collation} (e : engine) (table : string) (s : session) (Hn : s_db s !! table = None).
#[local] Abbreviation gt := (quote (quote_char e) table).

Lemma rows_add_missing site mt key id seq hs pl m ttl clk :
  fails_clean (rows_add e site gt mt key id seq hs pl m ttl clk) s.
Proof using Hn. unfold rows_add. sql_missing. Qed.
Lemma returning_add_missing site mt key id seq hs pl m ttl clk :
  fails_clean (returning_add e site gt mt key id seq hs pl m ttl clk) s.
Proof using Hn. unfold returning_add. sql_missing. Qed.
Lemma rows_claim_missing mt key by_ ttl clk : fails_clean (rows_claim e gt mt key by_ ttl clk) s.
Proof using Hn. unfold rows_claim. sql_missing. Qed.
Lemma returning_claim_missing mt key by_ ttl clk :
  fails_clean (returning_claim e gt mt key by_ ttl clk) s.
Proof using Hn. unfold returning_claim. sql_missing. Qed.
Lemma settle_missing mt key by_ ep clk : fails_clean (settle e gt mt key by_ ep clk) s.
Proof using Hn. unfold settle. sql_missing. Qed.
Lemma abandon_missing mt key by_ ep : fails_clean (abandon e gt mt key by_ ep) s.
Proof using Hn. unfold abandon. sql_missing. Qed.
Lemma expired_missing mt before ttl limit clk :
  fails_clean (expired e gt mt before ttl limit clk) s.
Proof using Hn. unfold expired. sql_missing. Qed.
End missing.

(** A dialect made of the shared bodies, over a wrapper that runs them in a
    transaction, keeps the promise if its two own bodies do. *)
Lemma dialect_laws `{Collation} (e : engine) (run : ∀ C, Querier → (option Z → txfn C) → txfn C)
    (d : GroupDialect) (site : string)
    (add : string → string → string → string → Z → bytes → bytes → Z → Z → option Z → txfn GroupRows)
    (claim : string → string → string → string → Z → option Z → txfn (option ClaimedGroup)) :
  runs_in_tx run → runs_clean run →
  AddMember d = (λ q table key id seq hs pl m ttl, add_member e site table id m (λ gt mt,
    run _ q (add gt mt key id seq hs pl m ttl))) →
  ClaimGroup d = (λ q table key by_ ttl, with_tables e None table (λ gt mt,
    run _ q (claim gt mt key by_ ttl))) →
  SettleGroup d = (λ q table key by_ ep, with_tables e false table (λ gt mt,
    run _ q (settle e gt mt key by_ ep))) →
  AbandonGroup d = (λ q table key by_ ep, with_tables e false table (λ gt mt,
    run _ q (λ _, abandon e gt mt key by_ ep))) →
  ExpiredGroups d QDB = (λ table before ttl limit, with_tables e [] table (λ gt mt,
    expired e gt mt before ttl limit None)) →
  SchemaExists d = (λ _, schema_exists) →
  (∀ db0 o p0 table (E : error → Prop) T key id seq hs pl m ttl clk p,
     (∀ i err, (p0 ≤ i)%nat → tk_fault (o i) = Some err → E err) →
     (p0 ≤ p)%nat → (∀ n, clk = Some n → read_from o p0 n) →
     wpq (add (quote (quote_char e) table) (quote (quote_char e) (table +:+ "_member"))
            key id seq hs pl m ttl clk) E
       (body_post db0 o table (add_readings o p0) (λ n, spec_add site n.1 n.2 T key id
          (mkMemberRow seq hs pl None) m (Microseconds ttl)) p)
       (at_ db0 o table (member_name table) p (t_groups T) (t_members T))) →
  (∀ db0 o p0 table (E : error → Prop) T key by_ ttl clk p,
     (∀ i err, (p0 ≤ i)%nat → tk_fault (o i) = Some err → E err) →
     (p0 ≤ p)%nat → (∀ n, clk = Some n → read_from o p0 n) →
     claim_errors o p0 E T key by_ (Microseconds ttl) →
     wpq (claim (quote (quote_char e) table) (quote (quote_char e) (table +:+ "_member"))
            key by_ ttl clk) E
       (body_post db0 o table (read_from o p0) (λ n, spec_claim n T key by_ (Microseconds ttl)) p)
       (at_ db0 o table (member_name table) p (t_groups T) (t_members T))) →
  (∀ table s, s_db s !! table = None → ∀ mt key id seq hs pl m ttl clk,
     fails_clean (add (quote (quote_char e) table) mt key id seq hs pl m ttl clk) s) →
  (∀ table s, s_db s !! table = None → ∀ mt key by_ ttl clk,
     fails_clean (claim (quote (quote_char e) table) mt key by_ ttl clk) s) →
  GroupDialectLaws d site.
Proof.
  intros Hrun Hclean EA EC ES EB EX EP Hadd Hclaim Hamiss Hcmiss.
  split; rewrite ?EA, ?EC, ?ES, ?EB, ?EX, ?EP.
  - done.
  - intros. by apply add_member_bad_cap.
  - intros table s T key id seq hs pl m ttl Hv HT Hid Hm. rewrite add_member_ok by done.
    apply (add_outcome _ Hrun); [done|]. intros E clk p HE Hp Hc. by apply Hadd.
  - intros table s T key by_ ttl Hv HT. rewrite with_tables_ok by done.
    apply (claim_outcome _ Hrun); [done|]. intros. by apply Hclaim.
  - intros table s T key by_ ep Hv HT. rewrite with_tables_ok by done. by apply (settle_outcome e _ Hrun).
  - intros table s T key by_ ep Hv HT. rewrite with_tables_ok by done. by apply (abandon_outcome e _ Hrun).
  - intros table s T before ttl limit Hv HT. rewrite with_tables_ok by done. by apply (expired_outcome e).
  - done.
  - intros table s Hv Hn. split; [|split; [|split; [|split]]]; intros;
      [apply add_member_clean; [done..|]|apply with_tables_clean; [done|]..]; apply go_return_clean;
      [apply Hclean; intros; by apply Hamiss|apply Hclean; intros; by apply Hcmiss
      |apply Hclean; intros; by apply settle_missing|apply Hclean; intros; by apply abandon_missing
      |by apply expired_missing].
Qed.

#[export] Instance postgres_laws `{Collation} :
  GroupDialectLaws postgresGroupDialect pg_groupOverflowSite.
Proof.
  apply (dialect_laws Postgres (@pgRunInTx) _ _ (returning_add Postgres pg_groupOverflowSite)
    (returning_claim Postgres) pgRunInTx_tx pgRunInTx_clean); try done; intros.
  - by apply (returning_add_wpq Postgres).
  - by apply (returning_claim_wpq Postgres).
  - by apply returning_add_missing.
  - by apply returning_claim_missing.
Qed.

#[export] Instance mysql_laws `{Collation} :
  GroupDialectLaws mysqlGroupDialect mysql_groupOverflowSite.
Proof.
  apply (dialect_laws MySQL (@mysqlRunInTx) _ _ (rows_add MySQL mysql_groupOverflowSite)
    (rows_claim MySQL) mysqlRunInTx_tx mysqlRunInTx_clean); try done; intros.
  - by apply (rows_add_wpq MySQL).
  - by apply (rows_claim_wpq MySQL).
  - by apply rows_add_missing.
  - by apply rows_claim_missing.
Qed.

#[export] Instance sqlite_laws `{Collation} :
  GroupDialectLaws sqliteGroupDialect sqlite_groupOverflowSite.
Proof.
  apply (dialect_laws SQLite (@withImmediateConn) _ _ (rows_add SQLite sqlite_groupOverflowSite)
    (rows_claim SQLite) withImmediateConn_tx withImmediateConn_clean); try done; intros.
  - by apply (rows_add_wpq SQLite).
  - by apply (rows_claim_wpq SQLite).
  - by apply rows_add_missing.
  - by apply rows_claim_missing.
Qed.

(** ** The member table under the statements *)

Lemma lookup_tag_rows key p c M (k : string * string) :
  tag_rows key p c M !! k =
  (λ r, if bool_decide (k.1 = key) && p (claimed_epoch r) then set_claimed c r else r) <$> (M !! k).
Proof. unfold tag_rows. rewrite map_lookup_imap. by destruct (M !! k). Qed.

Lemma lookup_delete_rows key p M (k : string * string) r :
  delete_rows key p M !! k = Some r ↔
  M !! k = Some r ∧ bool_decide (k.1 = key) && p (claimed_epoch r) = false.
Proof. unfold delete_rows. by rewrite map_lookup_filter_Some. Qed.

Lemma lookup_group_rows key M (k : string * string) r :
  group_rows key M !! k = Some r ↔ M !! k = Some r ∧ k.1 = key.
Proof. unfold group_rows. by rewrite map_lookup_filter_Some. Qed.

Lemma elem_of_dom_group_rows key M (k : string * string) :
  k ∈ dom (group_rows key M) ↔ k.1 = key ∧ k ∈ dom M.
Proof.
  rewrite !elem_of_dom. split.
  - intros [r [Hr Hk]%lookup_group_rows]. eauto.
  - intros [Hk [r Hr]]. exists r. by apply lookup_group_rows.
Qed.

Lemma count_rows_dom key M : count_rows key M = Z.of_nat (size (dom (group_rows key M))).
Proof. unfold count_rows. by rewrite size_dom. Qed.

Lemma count_rows_le (key : string) (M M' : member_table) :
  (∀ id, (key, id) ∈ dom M → (key, id) ∈ dom M') → count_rows key M ≤ count_rows key M'.
Proof.
  intros Hd. rewrite !count_rows_dom. apply inj_le, subseteq_size.
  intros [k id]. rewrite !elem_of_dom_group_rows. cbn. intros [-> ?]. auto.
Qed.

Lemma dom_tag_rows key p c M : dom (tag_rows key p c M) = dom M.
Proof. apply set_eq. intros k. rewrite !elem_of_dom, lookup_tag_rows. by rewrite fmap_is_Some. Qed.

Lemma dom_delete_rows key p M : dom (delete_rows key p M) ⊆ dom M.
Proof.
  intros k. rewrite !elem_of_dom. intros [r [? _]%lookup_delete_rows]. eauto.
Qed.

Lemma count_rows_pos key M : 0 < count_rows key M ↔ ∃ id, is_Some (M !! (key, id)).
Proof.
  rewrite count_rows_dom. split.
  - intros Hpos. assert (0 < size (dom (group_rows key M)))%nat as Hp by lia.
    apply size_pos_elem_of in Hp as [[k id] Hin]. apply elem_of_dom_group_rows in Hin as [Hk Hin].
    cbn in Hk. subst. exists id. by apply elem_of_dom.
  - intros [id Hid]. assert (size (dom (group_rows key M)) ≠ 0%nat) as Hne; [|lia].
    intros Hz%size_empty_inv. specialize (Hz (key, id)).
    rewrite elem_of_dom_group_rows, elem_of_dom in Hz. set_solver.
Qed.

Section fetch.
Context `{Collation}.

Lemma elem_of_select key p M m :
  m ∈ select_rows key p M ↔
  ∃ row, M !! (key, MsgID m) = Some row ∧ p (claimed_epoch row) = true ∧ m = fetched (MsgID m) row.
Proof.
  unfold select_rows. rewrite merge_sort_Permutation, list_elem_of_omap. split.
  - intros ([[k id] row] & Hin%elem_of_map_to_list & Hm). cbn in Hm.
    destruct (bool_decide (k = key)) eqn:Hk; [|done]. apply bool_decide_eq_true in Hk as ->.
    destruct (p _) eqn:Hp; [|done]. injection Hm as <-. exists row. done.
  - intros (row & Hl & Hp & Hm). exists ((key, MsgID m), row).
    rewrite elem_of_map_to_list. split; [done|]. cbn. rewrite bool_decide_eq_true_2, Hp by done.
    cbn. by rewrite <- Hm.
Qed.

Lemma select_sorted key p M : StronglySorted member_le (select_rows key p M).
Proof. apply Sorted_StronglySorted; [apply _|]. apply Sorted_merge_sort, _. Qed.

Lemma NoDup_omap_ids key p (l : list ((string * string) * member_row)) :
  NoDup l.*1 →
  NoDup (MsgID <$> omap (λ kr, if bool_decide (kr.1.1 = key) && p (claimed_epoch kr.2)
                               then Some (fetched kr.1.2 kr.2) else None) l).
Proof.
  induction l as [|[[k id] row] l IH]; cbn; [intros; constructor|].
  intros [Hn Hl]%NoDup_cons. destruct (bool_decide (k = key) && _) eqn:Hk; [|by apply IH].
  cbn. apply NoDup_cons. split; [|by apply IH].
  intros (m & Hm & ([[k' id'] row'] & Hin & Hsel)%list_elem_of_omap)%list_elem_of_fmap.
  cbn in Hsel, Hm. apply andb_true_iff in Hk as [Hk _]. apply bool_decide_eq_true in Hk as ->.
  destruct (bool_decide (k' = key)) eqn:Hk'; [|done]. apply bool_decide_eq_true in Hk' as ->.
  destruct (p _); [|done]. injection Hsel as <-. cbn in Hm. subst.
  apply Hn, list_elem_of_fmap. by exists ((key, id'), row').
Qed.

Lemma select_nodup key p M : NoDup (MsgID <$> select_rows key p M).
Proof.
  unfold select_rows. rewrite merge_sort_Permutation. apply NoDup_omap_ids, NoDup_fst_map_to_list.
Qed.
End fetch.

(** ** The invariant of the tables *)

(** A lease is stamped whole, and a member's claim is the one in force: its
    epoch is the group's and the group is leased. *)
Record group_ok (T : tables) (key : string) (r : group_row) : Prop := {
  go_epoch : 0 ≤ epoch r;
  go_lease : is_Some (locked_by r) ↔ is_Some (locked_at r);
  go_claims : ∀ id row, t_members T !! (key, id) = Some row →
    claimed_epoch row = None ∨ (claimed_epoch row = Some (epoch r) ∧ is_Some (locked_by r))
}.

Record wf_tables (cap : Z) (T : tables) : Prop := {
  wt_groups : ∀ key r, t_groups T !! key = Some r → group_ok T key r;
  wt_members : ∀ key id row, t_members T !! (key, id) = Some row →
    is_Some (t_groups T !! key) ∧ id ≠ "";
  wt_cap : ∀ key, count_rows key (t_members T) ≤ cap
}.

Lemma wf_empty cap : 0 ≤ cap → wf_tables cap (mkTables ∅ ∅).
Proof.
  intros Hc. split; cbn.
  - intros key r. by rewrite lookup_empty.
  - intros key id row. by rewrite lookup_empty.
  - intros key. destruct (Z.le_gt_cases (count_rows key ∅) 0) as [|Hp]; [lia|].
    apply count_rows_pos in Hp as [id [r Hr]]. by rewrite lookup_empty in Hr.
Qed.

(** The rows of one group, and the group row, change; the others stay. *)
Lemma wf_change cap T key r' M' :
  wf_tables cap T →
  (∀ key' id, key' ≠ key → M' !! (key', id) = t_members T !! (key', id)) →
  (∀ id row, M' !! (key, id) = Some row → is_Some r' ∧ id ≠ "") →
  (∀ r, r' = Some r → group_ok (mkTables (t_groups T) M') key r) →
  count_rows key M' ≤ cap →
  wf_tables cap (mkTables (partial_alter (λ _, r') key (t_groups T)) M').
Proof.
  intros [Hg Hm Hc] Hother Hrows Hr' Hcap. split; cbn.
  - intros key' r Hk. destruct (decide (key' = key)) as [->|Hne].
    + rewrite lookup_partial_alter_eq in Hk. destruct (Hr' r Hk). by split.
    + rewrite lookup_partial_alter_ne in Hk by done. destruct (Hg key' r Hk) as [? ? Hcl].
      split; [done|done|]. cbn. intros id row. rewrite Hother by done. apply Hcl.
  - intros key' id row Hk. destruct (decide (key' = key)) as [->|Hne].
    + rewrite lookup_partial_alter_eq. by eapply Hrows.
    + rewrite lookup_partial_alter_ne by done. rewrite Hother in Hk by done. by eapply Hm.
  - intros key'. destruct (decide (key' = key)) as [->|Hne]; [done|].
    etrans; [|apply (Hc key')]. apply count_rows_le. intros id.
    by rewrite !elem_of_dom, Hother.
Qed.

Lemma group_ok_fresh (T : tables) key n :
  (∀ id row, t_members T !! (key, id) = Some row → claimed_epoch row = None) →
  group_ok T key (mkGroupRow n 0 None None).
Proof. intros Hm. split; cbn; [lia|by split; intros []|]. intros id row Hk. left. eauto. Qed.

Lemma opened_ok cap T key n : wf_tables cap T → group_ok T key (opened n key T).
Proof.
  intros Hw. unfold opened. destruct (t_groups T !! key) as [r|] eqn:Hr; cbn.
  - by apply (wt_groups cap T Hw).
  - apply group_ok_fresh. intros id row Hk. apply (wt_members cap T Hw) in Hk as [[r Hr'] _].
    congruence.
Qed.

Lemma insert_as_alter {A} (key : string) (x : A) (m : gmap string A) :
  <[key := x]> m = partial_alter (λ _, Some x) key m.
Proof. done. Qed.

Section invariant.
Context `{Collation}.

Lemma wf_spec_add cap site n1 n2 T key id row maxMembers ttl :
  wf_tables cap T → id ≠ "" → claimed_epoch row = None →
  maxMembers ≠ UnboundedGroupMembers → maxMembers ≤ cap →
  wf_tables cap (spec_add site n1 n2 T key id row maxMembers ttl).2.
Proof.
  intros Hw Hid Hrow Hb Hcap. unfold spec_add.
  destruct (t_members T !! (key, id)) as [old|] eqn:Hk; cbn [fst snd].
  { rewrite insert_as_alter. apply (wf_change cap T key (Some _) (t_members T)); [done|done| | |].
    - intros id' row' Hk'. split; [done|]. by apply (wt_members cap T Hw) in Hk' as [_ ?].
    - intros r [= <-]. destruct (opened_ok cap T key n1 Hw). by split.
    - apply Hw. }
  apply Z.eqb_neq in Hb. rewrite Hb. cbn [negb andb].
  destruct (maxMembers <? _) eqn:Hov; cbn [snd]; [done|]. bool_to_prop.
  rewrite insert_as_alter. apply wf_change; [done| | | |lia].
  - intros key' id' Hne. apply lookup_insert_ne. congruence.
  - intros id' row' Hk'. split; [done|].
    apply lookup_insert_Some in Hk' as [[[= <-] _]|[_ Hk']]; [done|].
    by apply (wt_members cap T Hw) in Hk' as [_ ?].
  - intros r [= <-]. destruct (opened_ok cap T key n1 Hw) as [He Hl Hc]. split; [done|done|]. cbn.
    intros id' row' [[[= <-] <-]|[_ Hk']]%lookup_insert_Some; [by left|]. by eapply Hc.
Qed.

(** After a claim every member of the group carries the new epoch. *)
Lemma claim_tags_all cap T key r id row :
  wf_tables cap T → t_groups T !! key = Some r →
  tag_rows key (absorbable (epoch r + 1)) (Some (epoch r + 1)) (t_members T) !! (key, id) = Some row →
  claimed_epoch row = Some (epoch r + 1).
Proof.
  intros Hw Hr. rewrite lookup_tag_rows. destruct (t_members T !! (key, id)) as [row0|] eqn:Hk; [|done].
  cbn. rewrite bool_decide_eq_true_2 by done. intros [= <-]. cbn.
  assert (absorbable (epoch r + 1) (claimed_epoch row0) = true) as ->; [|done].
  destruct (go_claims _ _ _ (wt_groups cap T Hw _ _ Hr) id row0 Hk) as [->|[-> _]]; cbn; [done|].
  apply Z.ltb_lt. lia.
Qed.

Lemma wf_spec_claim cap n T key by_ ttl :
  wf_tables cap T → wf_tables cap (spec_claim n T key by_ ttl).2.
Proof.
  intros Hw. unfold spec_claim. destruct (t_groups T !! key) as [r|] eqn:Hr; [|done].
  destruct (stealable _ _ _); [|done]. destruct (MaxInt64 <=? _); [done|]. cbn [snd].
  pose proof (wt_groups cap T Hw _ _ Hr) as Hok. rewrite insert_as_alter. apply wf_change; [done| | | |].
  - intros key' id Hne. rewrite lookup_tag_rows. cbn. rewrite bool_decide_eq_false_2 by done. cbn.
    by destruct (t_members T !! _).
  - intros id row Hk. split; [done|]. rewrite lookup_tag_rows in Hk.
    destruct (t_members T !! (key, id)) eqn:Hm; [|done]. by apply (wt_members cap T Hw) in Hm as [_ ?].
  - intros r' [= <-]. split; cbn; [pose proof (go_epoch _ _ _ Hok); lia|done|].
    intros id row Hk. right. split; [|done]. by eapply claim_tags_all.
  - etrans; [|apply (wt_cap cap T Hw key)]. apply count_rows_le. intros id. by rewrite dom_tag_rows.
Qed.

(** Deleting members keeps a group's promise; so does clearing their claims. *)
Lemma group_ok_delete T key p r :
  group_ok T key r → group_ok (mkTables (t_groups T) (delete_rows key p (t_members T))) key r.
Proof.
  intros [He Hl Hc]. split; [done|done|]. cbn. intros id row [Hk _]%lookup_delete_rows. by eapply Hc.
Qed.

Lemma delete_claimed_rows T key r id row :
  group_ok T key r →
  delete_rows key (claimed_at (epoch r)) (t_members T) !! (key, id) = Some row →
  claimed_epoch row = None.
Proof.
  intros Hok [Hk Hd]%lookup_delete_rows. cbn in Hd. rewrite bool_decide_eq_true_2 in Hd by done.
  cbn in Hd. unfold claimed_at in Hd. bool_to_prop.
  destruct (go_claims _ _ _ Hok id row Hk) as [?|[? _]]; [done|congruence].
Qed.

Lemma untag_claimed_rows T key r id row :
  group_ok T key r →
  tag_rows key (claimed_at (epoch r)) None (t_members T) !! (key, id) = Some row →
  claimed_epoch row = None.
Proof.
  intros Hok. rewrite lookup_tag_rows. destruct (t_members T !! (key, id)) as [row0|] eqn:Hk; [|done].
  cbn. rewrite bool_decide_eq_true_2 by done. cbn. intros [= <-]. unfold claimed_at.
  destruct (go_claims _ _ _ Hok id row0 Hk) as [Hc|[Hc _]]; rewrite Hc;
    [by rewrite bool_decide_eq_false_2|by rewrite bool_decide_eq_true_2].
Qed.

Lemma partial_alter_id' {A} (key : string) (m : gmap string A) :
  m = partial_alter (λ _, m !! key) key m.
Proof. symmetry. by apply partial_alter_self. Qed.

Lemma wf_spec_settle cap n T key by_ ep :
  wf_tables cap T → wf_tables cap (spec_settle n T key by_ ep).2.
Proof.
  intros Hw. unfold spec_settle. destruct (t_groups T !! key) as [r|] eqn:Hr; [|done].
  pose proof (wt_groups cap T Hw _ _ Hr) as Hok.
  assert (∀ key' id, key' ≠ key →
    delete_rows key (claimed_at ep) (t_members T) !! (key', id) = t_members T !! (key', id)) as Ho.
  { intros key' id Hne. apply option_eq. intros row. rewrite lookup_delete_rows. cbn.
    rewrite bool_decide_eq_false_2 by done. naive_solver. }
  assert (count_rows key (delete_rows key (claimed_at ep) (t_members T)) ≤ cap) as Hc.
  { etrans; [|apply (wt_cap cap T Hw key)]. apply count_rows_le. intros id. apply dom_delete_rows. }
  assert (∀ id row, delete_rows key (claimed_at ep) (t_members T) !! (key, id) = Some row → id ≠ "") as Hid.
  { intros id row [Hk _]%lookup_delete_rows. by apply (wt_members cap T Hw) in Hk as [_ ?]. }
  destruct (holds by_ ep r) eqn:Hh; cbn [snd].
  - apply andb_true_iff in Hh as [_ He]. apply Z.eqb_eq in He. subst ep.
    destruct (0 <? _) eqn:Hcnt; bool_to_prop.
    + rewrite insert_as_alter. apply wf_change; [done|done|eauto| |done]. intros r' [= <-].
      split; cbn; [apply Hok|by split; intros []|]. intros id row Hk. left. by eapply delete_claimed_rows.
    + apply (wf_change cap T key None); [done|done| |done|done].
      intros id row Hk. exfalso.
      pose proof (proj2 (count_rows_pos key _) (ex_intro _ id (ex_intro _ row Hk))). lia.
  - rewrite (partial_alter_id' key (t_groups T)). rewrite Hr. apply wf_change; [done|done|eauto| |done].
    intros r' [= <-]. by apply group_ok_delete.
Qed.

Lemma wf_spec_abandon cap T key by_ ep :
  wf_tables cap T → wf_tables cap (spec_abandon T key by_ ep).2.
Proof.
  intros Hw. unfold spec_abandon. destruct (t_groups T !! key) as [r|] eqn:Hr; [|done].
  pose proof (wt_groups cap T Hw _ _ Hr) as Hok.
  assert (∀ key' id, key' ≠ key →
    tag_rows key (claimed_at ep) None (t_members T) !! (key', id) = t_members T !! (key', id)) as Ho.
  { intros key' id Hne. rewrite lookup_tag_rows. cbn. rewrite bool_decide_eq_false_2 by done. cbn.
    by destruct (t_members T !! _). }
  assert (count_rows key (tag_rows key (claimed_at ep) None (t_members T)) ≤ cap) as Hc.
  { etrans; [|apply (wt_cap cap T Hw key)]. apply count_rows_le. intros id. by rewrite dom_tag_rows. }
  assert (∀ id row, tag_rows key (claimed_at ep) None (t_members T) !! (key, id) = Some row → id ≠ "") as Hid.
  { intros id row. rewrite lookup_tag_rows. destruct (t_members T !! (key, id)) eqn:Hk; [|done].
    intros _. by apply (wt_members cap T Hw) in Hk as [_ ?]. }
  destruct (holds by_ ep r) eqn:Hh; cbn [snd].
  - apply andb_true_iff in Hh as [_ He]. apply Z.eqb_eq in He. subst ep.
    rewrite insert_as_alter. apply wf_change; [done|done|eauto| |done]. intros r' [= <-].
    split; cbn; [apply Hok|by split; intros []|]. intros id row Hk. left. by eapply untag_claimed_rows.
  - rewrite (partial_alter_id' key (t_groups T)), Hr. apply wf_change; [done|done|eauto| |done].
    intros r' [= <-]. destruct Hok as [He Hl Hcl]. split; [done|done|]. cbn. intros id row.
    rewrite lookup_tag_rows. destruct (t_members T !! (key, id)) as [row0|] eqn:Hk; [|done].
    cbn. destruct (_ && _); intros [= <-]; [by left|by eapply Hcl].
Qed.
End invariant.

(** ** Executions

    A call is an operation and the ticks its statements meet; the calls of any
    number of stores come one after another. *)

Inductive sqlop : Type :=
  | SAdd (key id : string) (seq : Z) (headers payload : bytes) (maxMembers ttl : Z)
  | SClaim (key by_ : string) (ttl : Z)
  | SSettle (key by_ : string) (ep : Z)
  | SAbandon (key by_ : string) (ep : Z)
  | SExpired (before ttl limit : Z).

Definition sqlcall : Type := (nat → tick) * sqlop.

Definition sql_exec (d : GroupDialect) (table : string) (db : database) (c : sqlcall) : database :=
  let s := mkSession db c.1 0 in
  match c.2 with
  | SAdd key id seq hs pl m ttl => s_db (AddMember d QDB table key id seq hs pl m ttl s).2
  | SClaim key by_ ttl => s_db (ClaimGroup d QDB table key by_ ttl s).2
  | SSettle key by_ ep => s_db (SettleGroup d QDB table key by_ ep s).2
  | SAbandon key by_ ep => s_db (AbandonGroup d QDB table key by_ ep s).2
  | SExpired before ttl limit => s_db (ExpiredGroups d QDB table before ttl limit s).2
  end.
Definition sql_execs (d : GroupDialect) (table : string) : database → list sqlcall → database :=
  foldl (sql_exec d table).

(** Where a call may leave the tables: as they were, or as the reference says
    at some readings of its clock. *)
Definition clock_of (o : nat → tick) (n : Z) : Prop := ∃ i, n = tk_now (o i).
Definition op_step `{Collation} (site : string) (c : sqlcall) (T T' : tables) : Prop :=
  T' = T ∨
  match c.2 with
  | SAdd key id seq hs pl m ttl =>
      id ≠ "" ∧ ValidateMaxMembers site m = None ∧
      ∃ n1 n2, T' = (spec_add site n1 n2 T key id (mkMemberRow seq hs pl None) m (Microseconds ttl)).2
  | SClaim key by_ ttl =>
      ∃ n, clock_of c.1 n ∧ T' = (spec_claim n T key by_ (Microseconds ttl)).2
  | SSettle key by_ ep => ∃ n, T' = (spec_settle n T key by_ ep).2
  | SAbandon key by_ ep => T' = (spec_abandon T key by_ ep).2
  | SExpired _ _ _ => False
  end.

Lemma has_tables_inj table db T T' : has_tables table db T → has_tables table db T' → T' = T.
Proof. intros [Hg Hm] [Hg' Hm']. destruct T, T'. cbn in *. congruence. Qed.

Lemma tx_outcome_tables {A} (zero : A) table s r spec T :
  has_tables table (s_db s) T → tx_outcome zero table s r spec →
  ∃ T', has_tables table (s_db r.2) T' ∧ (T' = T ∨ T' = spec.2).
Proof.
  intros HT [[_ Hdb]|(err & _ & _ & [Hdb|[_ Hdb]])]; rewrite Hdb.
  - exists spec.2. split; [apply has_with_contents|by right].
  - exists T. auto.
  - exists spec.2. split; [apply has_with_contents|by right].
Qed.

Section executions.
Context `{Collation} (d : GroupDialect) (site : string) `{!GroupDialectLaws d site}.
Context (table : string) (Hv : ValidateIdent table = None).

Lemma exec_step db T c :
  has_tables table db T →
  ∃ T', has_tables table (sql_exec d table db c) T' ∧ op_step site c T T'.
Proof using Hv GroupDialectLaws0.
  intros HT. destruct c as [o op]. set (s := mkSession db o 0).
  assert (∀ n, reads s n → clock_of o n) as Hck by (intros n (i & _ & ->); by exists i).
  unfold sql_exec, op_step. cbn [fst snd]. fold s.
  destruct op as [key id seq hs pl m ttl|key by_ ttl|key by_ ep|key by_ ep|before ttl limit].
  - destruct (decide (id = "")) as [->|Hid].
    { rewrite (AddMember_no_id (site := site)). exists T. auto. }
    destruct (ValidateMaxMembers site m) as [err|] eqn:Hm.
    { rewrite (AddMember_bad_cap (site := site) _ _ _ _ _ _ _ _ _ _ err Hid Hm). exists T. auto. }
    destruct (AddMember_law (site := site) table s T key id seq hs pl m ttl Hv HT Hid Hm)
      as (n1 & n2 & _ & _ & Ho).
    destruct (tx_outcome_tables _ _ s _ _ T HT Ho) as (T' & HT' & [-> | ->]); eauto 10.
  - destruct (ClaimGroup_law (site := site) table s T key by_ ttl Hv HT) as (n & Hn & Ho).
    destruct (tx_outcome_tables _ _ s _ _ T HT Ho) as (T' & HT' & [-> | ->]); eauto 10.
  - destruct (SettleGroup_law (site := site) table s T key by_ ep Hv HT) as (n & Hn & Ho).
    destruct (tx_outcome_tables _ _ s _ _ T HT Ho) as (T' & HT' & [-> | ->]); eauto 10.
  - pose proof (AbandonGroup_law (site := site) table s T key by_ ep Hv HT) as Ho.
    destruct (tx_outcome_tables _ _ s _ _ T HT Ho) as (T' & HT' & [-> | ->]); eauto 10.
  - destruct (ExpiredGroups_law (site := site) table s T before ttl limit Hv HT) as (n & Hn & Ho).
    destruct (tx_outcome_tables _ _ s _ _ T HT Ho) as (T' & HT' & [-> | ->]); eauto 10.
Qed.

(** A property every step keeps holds after every execution. *)
Lemma execs_invariant (P : tables → Prop) db T calls :
  has_tables table db T → P T →
  (∀ c T T', c ∈ calls → P T → op_step site c T T' → P T') →
  ∃ T', has_tables table (sql_execs d table db calls) T' ∧ P T'.
Proof using Hv GroupDialectLaws0.
  revert db T. induction calls as [|c calls IH]; intros db T HT HP Hstep; [by exists T|].
  destruct (exec_step db T c HT) as (T1 & HT1 & Hs). cbn.
  apply (IH _ T1); [done| |intros; eapply Hstep; [by right|done..]].
  eapply Hstep; [by left|done..].
Qed.
End executions.

Lemma op_step_wf `{Collation} site cap c T T' :
  (∀ key id seq hs pl m ttl, c.2 = SAdd key id seq hs pl m ttl → m ≠ UnboundedGroupMembers ∧ m ≤ cap) →
  wf_tables cap T → op_step site c T T' → wf_tables cap T'.
Proof.
  intros Hb Hw [->|Hs]; [done|]. destruct c as [o []]; cbn in *.
  - destruct Hs as (Hid & _ & n1 & n2 & ->). destruct (Hb _ _ _ _ _ _ _ eq_refl).
    by apply wf_spec_add.
  - destruct Hs as (n & _ & ->). by apply wf_spec_claim.
  - destruct Hs as (n & ->). by apply wf_spec_settle.
  - subst. by apply wf_spec_abandon.
  - done.
Qed.
