(* ===== verification/SqlGroupSafety.v ===== *)
(** * What the SQL group dialects guarantee

    The theorems about [postgres/groupdialect.go], [mysql/groupdialect.go] and
    [sqlite/groupdialect.go]: each runs the reference semantics of [SqlGroup]
    whatever its statements meet, the three agree, the tables keep their
    invariant, and an add, a claim, a settlement, a recovery and an expiry scan
    do what the SPI of [groupdialect.go] says.  The last section is about the
    fence of [SettleGroup] and [AbandonGroup]. *)

From stdpp Require Import sorting.
From S2P Require Import Prelude Message SqlEngine SqlGroup.
Local Open Scope Z_scope.

(** The dialects the library ships, with the site each names in an error. *)
Definition builtin_dialects `{Collation} : list (GroupDialect * string) :=
  [(postgresGroupDialect, pg_groupOverflowSite); (mysqlGroupDialect, mysql_groupOverflowSite);
   (sqliteGroupDialect, sqlite_groupOverflowSite)].

Lemma builtin_laws `{Collation} d site : (d, site) ∈ builtin_dialects → GroupDialectLaws d site.
Proof.
  unfold builtin_dialects. rewrite !list_elem_of_In. cbn.
  intros [[= <- <-]|[[= <- <-]|[[= <- <-]|[]]]]; apply _.
Qed.

(** No statement of the session fails. *)
Definition healthy (s : session) : Prop := ∀ i, tk_fault (s_ticks s i) = None.

Lemma healthy_outcome {A} (zero : A) table s r spec :
  healthy s → tx_outcome zero table s r spec →
  r.1 = spec.1 ∧ s_db r.2 = with_contents table (s_db s) spec.2.
Proof. intros Hh [?|(err & _ & (i & _ & Hf) & _)]; [done|]. by rewrite Hh in Hf. Qed.

(** Ticks without a fault, all at one clock reading: concrete inputs. *)
Definition calm (now : Z) : nat → tick := λ _, mkTick None now true.
Definition calm_session (db : database) (now : Z) : session := mkSession db (calm now) 0.
Lemma calm_healthy db now : healthy (calm_session db now).
Proof. done. Qed.

(** C10. Every operation of the three dialects, in a transaction of its own and
    whatever faults its statements meet, is the reference operation on the two
    tables, or an error of the driver with the tables untouched or, if it is
    COMMIT that reported the error, with the whole operation done. *)
Theorem group_dialects_correct `{Collation} d site :
  (d, site) ∈ builtin_dialects → GroupDialectLaws d site.
Proof. apply builtin_laws. Qed.

Lemma group_dialects_correct_witness :
  (@postgresGroupDialect byte_collation, pg_groupOverflowSite) ∈ @builtin_dialects byte_collation ∧
  @GroupDialectLaws byte_collation (@postgresGroupDialect byte_collation) pg_groupOverflowSite.
Proof.
  assert ((@postgresGroupDialect byte_collation, pg_groupOverflowSite) ∈ @builtin_dialects byte_collation)
    as Hin by (left).
  split; [exact Hin|]. exact (@group_dialects_correct byte_collation _ _ Hin).
Defined.

(** ** The tables stay well formed *)

Definition demo_db : database := <["g_member" := RMember ∅]> (<["g" := RGroup ∅]> ∅).
Definition demo_calls : list sqlcall :=
  [(calm 10, SAdd "k" "m1" 1 [] [] 2 5000000); (calm 20, SAdd "k" "m2" 2 [] [] 2 5000000);
   (calm 30, SClaim "k" "a" 5000000); (calm 31, SAdd "k" "m3" 3 [] [] 2 5000000);
   (calm 40, SSettle "k" "a" 1)].

(** Whatever sequence of calls any number of stores make on a fresh schema,
    and whatever faults they meet, the tables are well formed: every member
    belongs to a group, a lease is stamped whole, a claimed member carries the
    epoch of the lease in force, and no group holds more members than the
    largest cap the adds were given. *)
Theorem sql_group_invariant `{Collation} d site table db cap calls :
  (d, site) ∈ builtin_dialects → ValidateIdent table = None →
  has_tables table db (mkTables ∅ ∅) → 0 ≤ cap →
  (∀ o key id seq hs pl m ttl, (o, SAdd key id seq hs pl m ttl) ∈ calls →
     m ≠ UnboundedGroupMembers ∧ m ≤ cap) →
  ∃ T, has_tables table (sql_execs d table db calls) T ∧ wf_tables cap T.
Proof.
  intros Hd Hv HT Hc Hb. pose proof (builtin_laws d site Hd).
  apply (execs_invariant d site table Hv (wf_tables cap) db (mkTables ∅ ∅)); [done|by apply wf_empty|].
  intros c T T' Hin Hw. apply op_step_wf; [|done]. intros. destruct c as [o op]. cbn in *. subst.
  by eapply Hb.
Qed.

Lemma demo_calls_capped o key id seq hs pl m ttl :
  (o, SAdd key id seq hs pl m ttl) ∈ demo_calls → m ≠ UnboundedGroupMembers ∧ m ≤ 2.
Proof.
  unfold demo_calls. rewrite !elem_of_cons.
  intros [[= -> -> -> -> -> -> -> ->]|[[= -> -> -> -> -> -> -> ->]|[[=]|[[= -> -> -> -> -> -> -> ->]|
    [[=]|[]%not_elem_of_nil]]]]]; done.
Qed.

Lemma sql_group_invariant_witness :
  has_tables "g" demo_db (mkTables ∅ ∅) ∧
  ∃ T, has_tables "g" (sql_execs (@sqliteGroupDialect byte_collation) "g" demo_db demo_calls) T ∧
       wf_tables 2 T.
Proof.
  assert (has_tables "g" demo_db (mkTables ∅ ∅)) as HT by (split; reflexivity).
  split; [exact HT|].
  apply (@sql_group_invariant byte_collation _ sqlite_groupOverflowSite);
    [by right; right; left|reflexivity|exact HT|lia|exact demo_calls_capped].
Defined.

(** ** The three dialects agree *)

(** What a caller of [AddMember] tells apart; the engine's name in an error's
    text is not part of it. *)
Definition add_verdict (r : GroupRows * option error) : GroupRows * option (bool * bool * bool) :=
  (r.1, (λ err, (Is err ErrOverflowDropped, Is err ErrMissingMsgID, IsPermanent (Some err))) <$> r.2).

(** No statement fails and the server clock stands at [n]. *)
Definition steady (n : Z) (s : session) : Prop :=
  healthy s ∧ ∀ i, tk_now (s_ticks s i) = n.

Lemma steady_reads n s m : steady n s → reads s m → m = n.
Proof. intros [_ Hc] (i & _ & ->). apply Hc. Qed.

Lemma ValidateMaxMembers_cases site m :
  (ValidateMaxMembers site m = None ∧ (m = UnboundedGroupMembers ∨ 1 ≤ m ≤ maxGroupMembersCeiling)) ∨
  ((∃ err, ValidateMaxMembers site m = Some err ∧ Is err ErrOverflowDropped = false ∧
      Is err ErrMissingMsgID = false ∧ Is err ErrInvalidCapacity = true ∧ IsPermanent (Some err) = true) ∧
   m ≠ UnboundedGroupMembers ∧ ¬ 1 ≤ m ≤ maxGroupMembersCeiling).
Proof.
  unfold ValidateMaxMembers. destruct (m =? _) eqn:E1; bool_to_prop; [by left; auto|].
  destruct (_ && _) eqn:E2; bool_to_prop; [left; auto|].
  right. split; [by eexists|]. split; [done|]. apply andb_false_iff in E2. destruct E2; bool_to_prop; lia.
Qed.

Lemma spec_add_verdict `{Collation} site site' n1 n2 T key id row m ttl :
  add_verdict (spec_add site n1 n2 T key id row m ttl).1 =
  add_verdict (spec_add site' n1 n2 T key id row m ttl).1 ∧
  (spec_add site n1 n2 T key id row m ttl).2 = (spec_add site' n1 n2 T key id row m ttl).2.
Proof.
  unfold spec_add. destruct (_ !! (key, id)); [done|]. destruct (_ && _); [|done].
  unfold groupOverflow. by destruct (lease_live _ _ _).
Qed.

(** What [AddMember] answers and leaves at a steady clock. *)
Lemma add_steady `{Collation} d site table n s T key id seq hs pl m ttl :
  (d, site) ∈ builtin_dialects → ValidateIdent table = None → has_tables table (s_db s) T →
  steady n s → id ≠ "" → ValidateMaxMembers site m = None →
  let spec := spec_add site n n T key id (mkMemberRow seq hs pl None) m (Microseconds ttl) in
  let r := AddMember d QDB table key id seq hs pl m ttl s in
  r.1 = spec.1 ∧ s_db r.2 = with_contents table (s_db s) spec.2.
Proof.
  intros Hd Hv HT Hs Hid Hm. pose proof (builtin_laws d site Hd).
  destruct (AddMember_law (site := site) table s T key id seq hs pl m ttl Hv HT Hid Hm)
    as (n1 & n2 & Hn1 & Hn2 & Ho).
  apply (steady_reads n) in Hn1 as ->; [|done]. apply (steady_reads n) in Hn2 as ->; [|done].
  by eapply healthy_outcome; [apply Hs|].
Qed.

(** [d] and [d'], on the same tables at the same reading of the clock. *)
Definition agree `{Collation} (d d' : GroupDialect) (table : string) (s s' : session) : Prop :=
  (∀ key id seq hs pl m ttl,
     let r := AddMember d QDB table key id seq hs pl m ttl s in
     let r' := AddMember d' QDB table key id seq hs pl m ttl s' in
     add_verdict r.1 = add_verdict r'.1 ∧ s_db r.2 = s_db r'.2) ∧
  (∀ key by_ ttl,
     let r := ClaimGroup d QDB table key by_ ttl s in
     let r' := ClaimGroup d' QDB table key by_ ttl s' in r.1 = r'.1 ∧ s_db r.2 = s_db r'.2) ∧
  (∀ key by_ ep,
     let r := SettleGroup d QDB table key by_ ep s in
     let r' := SettleGroup d' QDB table key by_ ep s' in r.1 = r'.1 ∧ s_db r.2 = s_db r'.2) ∧
  (∀ key by_ ep,
     let r := AbandonGroup d QDB table key by_ ep s in
     let r' := AbandonGroup d' QDB table key by_ ep s' in r.1 = r'.1 ∧ s_db r.2 = s_db r'.2) ∧
  (∀ before ttl limit,
     let r := ExpiredGroups d QDB table before ttl limit s in
     let r' := ExpiredGroups d' QDB table before ttl limit s' in r.1 = r'.1 ∧ s_db r.2 = s_db r'.2).

Lemma add_agree `{Collation} d site d' site' table n s s' T key id seq hs pl m ttl :
  (d, site) ∈ builtin_dialects → (d', site') ∈ builtin_dialects → ValidateIdent table = None →
  has_tables table (s_db s) T → s_db s' = s_db s → steady n s → steady n s' →
  let r := AddMember d QDB table key id seq hs pl m ttl s in
  let r' := AddMember d' QDB table key id seq hs pl m ttl s' in
  add_verdict r.1 = add_verdict r'.1 ∧ s_db r.2 = s_db r'.2.
Proof.
  intros Hd Hd' Hv HT Hs Hst Hst'. pose proof (builtin_laws d site Hd). pose proof (builtin_laws d' site' Hd').
  destruct (decide (id = "")) as [->|Hid].
  { rewrite (AddMember_no_id (site := site)), (AddMember_no_id (site := site')). done. }
  destruct (ValidateMaxMembers_cases site m) as [[Hm Hok]|[(err & Hm & Ea & Eb & _ & Ec) Hbad]];
    destruct (ValidateMaxMembers_cases site' m) as [[Hm' Hok']|[(err' & Hm' & Ea' & Eb' & _ & Ec') Hbad']];
    [|naive_solver|naive_solver|].
  - destruct (add_steady d site table n s T key id seq hs pl m ttl) as [E1 E2]; [done..|].
    rewrite <- Hs in HT.
    destruct (add_steady d' site' table n s' T key id seq hs pl m ttl) as [E1' E2']; [done..|].
    cbn zeta in *. rewrite E1, E1', E2, E2', Hs.
    destruct (spec_add_verdict site site' n n T key id (mkMemberRow seq hs pl None) m (Microseconds ttl))
      as [-> ->]. done.
  - rewrite (AddMember_bad_cap (site := site) _ _ _ _ _ _ _ _ _ _ err Hid Hm),
      (AddMember_bad_cap (site := site') _ _ _ _ _ _ _ _ _ _ err' Hid Hm').
    unfold add_verdict. cbn [fst snd fmap option_fmap option_map].
    by rewrite Ea, Eb, Ec, Ea', Eb', Ec'.
Qed.

(** On the same tables and at the same reading of the server clock, with no
    fault, the postgres, mysql and sqlite dialects answer every operation alike
    and leave the same tables, although they read the group row, the epoch and
    the insertion back by different statements. *)
Theorem dialects_agree `{Collation} d site d' site' table n s s' T :
  (d, site) ∈ builtin_dialects → (d', site') ∈ builtin_dialects → ValidateIdent table = None →
  has_tables table (s_db s) T → s_db s' = s_db s → steady n s → steady n s' →
  agree d d' table s s'.
Proof.
  intros Hd Hd' Hv HT Hs Hst Hst'. pose proof (builtin_laws d site Hd). pose proof (builtin_laws d' site' Hd').
  assert (has_tables table (s_db s') T) as HT' by by rewrite Hs.
  split; [intros; by apply (add_agree d site d' site' table n s s' T)|].
  split; [|split; [|split]].
  - intros key by_ ttl.
    destruct (ClaimGroup_law (site := site) table s T key by_ ttl Hv HT) as (n1 & Hn & Ho).
    destruct (ClaimGroup_law (site := site') table s' T key by_ ttl Hv HT') as (n2 & Hn' & Ho').
    apply (steady_reads n) in Hn as ->; [|done]. apply (steady_reads n) in Hn' as ->; [|done].
    apply healthy_outcome in Ho as [E1 E2]; [|apply Hst]. apply healthy_outcome in Ho' as [E1' E2']; [|apply Hst'].
    cbn zeta. by rewrite E1, E2, E1', E2', Hs.
  - intros key by_ ep.
    destruct (SettleGroup_law (site := site) table s T key by_ ep Hv HT) as (n1 & Hn & Ho).
    destruct (SettleGroup_law (site := site') table s' T key by_ ep Hv HT') as (n2 & Hn' & Ho').
    apply (steady_reads n) in Hn as ->; [|done]. apply (steady_reads n) in Hn' as ->; [|done].
    apply healthy_outcome in Ho as [E1 E2]; [|apply Hst]. apply healthy_outcome in Ho' as [E1' E2']; [|apply Hst'].
    cbn zeta. by rewrite E1, E2, E1', E2', Hs.
  - intros key by_ ep.
    pose proof (AbandonGroup_law (site := site) table s T key by_ ep Hv HT) as Ho.
    pose proof (AbandonGroup_law (site := site') table s' T key by_ ep Hv HT') as Ho'.
    apply healthy_outcome in Ho as [E1 E2]; [|apply Hst]. apply healthy_outcome in Ho' as [E1' E2']; [|apply Hst'].
    cbn zeta. by rewrite E1, E2, E1', E2', Hs.
  - intros before ttl limit.
    destruct (ExpiredGroups_law (site := site) table s T before ttl limit Hv HT) as (n1 & Hn & Ho).
    destruct (ExpiredGroups_law (site := site') table s' T before ttl limit Hv HT') as (n2 & Hn' & Ho').
    apply (steady_reads n) in Hn as ->; [|done]. apply (steady_reads n) in Hn' as ->; [|done].
    apply healthy_outcome in Ho as [E1 E2]; [|apply Hst]. apply healthy_outcome in Ho' as [E1' E2']; [|apply Hst'].
    cbn zeta. by rewrite E1, E2, E1', E2', Hs.
Qed.

Lemma dialects_agree_witness :
  has_tables "g" demo_db (mkTables ∅ ∅) ∧
  @agree byte_collation (@postgresGroupDialect byte_collation) (@sqliteGroupDialect byte_collation) "g"
    (calm_session demo_db 7) (calm_session demo_db 7).
Proof.
  assert (has_tables "g" demo_db (mkTables ∅ ∅)) as HT by (split; reflexivity).
  split; [exact HT|].
  apply (@dialects_agree byte_collation _ pg_groupOverflowSite _ sqlite_groupOverflowSite "g" 7 _ _ (mkTables ∅ ∅));
    [by left|by right; right; left|reflexivity|exact HT|reflexivity|by split|by split].
Defined.

(** ** Adding a member *)

Lemma count_rows_insert key id row (M : member_table) :
  M !! (key, id) = None → count_rows key (<[(key, id) := row]> M) = count_rows key M + 1.
Proof.
  intros Hn. unfold count_rows, group_rows. rewrite map_filter_insert_True by done.
  rewrite map_size_insert_None; [lia|]. apply map_lookup_filter_None. by left.
Qed.

Section add.
Context `{Collation}.

Lemma NoDup_select key p M : NoDup (select_rows key p M).
Proof. apply (NoDup_fmap_1 MsgID), select_nodup. Qed.

Lemma select_insert key id row (M : member_table) :
  M !! (key, id) = None → claimed_epoch row = None →
  select_rows key unclaimed (<[(key, id) := row]> M) ≡ₚ
    fetched id row :: select_rows key unclaimed M.
Proof.
  intros Hn Hc. apply NoDup_Permutation; [apply NoDup_select| |].
  { apply NoDup_cons. split; [|apply NoDup_select]. rewrite elem_of_select. cbn. naive_solver. }
  intros x. rewrite elem_of_cons, !elem_of_select. split.
  - intros (row' & Hl & Hp & Hx). apply lookup_insert_Some in Hl as [[[= Hid] <-]|[Hne Hl]].
    + left. by rewrite Hid.
    + right. eauto.
  - intros [->|(row' & Hl & Hp & Hx)].
    + exists row. cbn. rewrite lookup_insert_eq. unfold unclaimed. rewrite Hc.
      by rewrite bool_decide_eq_true_2.
    + exists row'. rewrite lookup_insert_ne; [done|]. intros [= Hid]. rewrite <- Hid in Hl. congruence.
Qed.

Lemma withoutMember_insert key id row (M : member_table) :
  M !! (key, id) = None → claimed_epoch row = None →
  withoutMember (select_rows key unclaimed (<[(key, id) := row]> M)) id ≡ₚ select_rows key unclaimed M.
Proof.
  intros Hn Hc. unfold withoutMember. rewrite (select_insert key id row M Hn Hc).
  rewrite filter_cons_False by (cbn; naive_solver). rewrite filter_all; [done|].
  apply Forall_forall. intros x (row' & Hl & _)%elem_of_select Heq. rewrite Heq in Hl. congruence.
Qed.

Lemma StronglySorted_filter {A} (R : A → A → Prop) (P : A → Prop) `{∀ x, Decision (P x)} l :
  StronglySorted R l → StronglySorted R (filter P l).
Proof.
  induction 1 as [|x l Hl IH Hx]; [constructor|]. destruct (decide (P x)).
  - rewrite filter_cons_True by done. constructor; [done|]. apply Forall_forall.
    intros y [_ Hy]%list_elem_of_filter. by eapply Forall_forall in Hx.
  - by rewrite filter_cons_False.
Qed.

(** What [AddMember] does on a healthy server, case by case. *)
Lemma add_member_exact d site table s T cap key id seq hs pl m ttl :
  (d, site) ∈ builtin_dialects → ValidateIdent table = None → has_tables table (s_db s) T →
  wf_tables cap T → id ≠ "" → ValidateMaxMembers site m = None → healthy s →
  let row := mkMemberRow seq hs pl None in
  let live := select_rows key unclaimed (t_members T) in
  let '((rows, err), s') := AddMember d QDB table key id seq hs pl m ttl s in
  ∃ n1 n2 T', reads s n1 ∧ reads s n2 ∧ s_db s' = with_contents table (s_db s) T' ∧
    GroupKey rows = key ∧ CreatedAt rows = UnixMicro (created_at (opened n1 key T)) ∧
    StronglySorted member_le (Members rows) ∧
    match t_members T !! (key, id) with
    | Some _ => err = None ∧ Members rows = live ∧ T' = T
    | None =>
        if decide (m = UnboundedGroupMembers ∨ count_rows key (t_members T) < m) then
          err = None ∧ Members rows ≡ₚ mkMember id seq hs pl :: live ∧
          T' = mkTables (<[key := opened n1 key T]> (t_groups T)) (<[(key, id) := row]> (t_members T))
        else
          T' = T ∧ Members rows ≡ₚ live ∧
          ∃ e, err = Some e ∧ Is e ErrOverflowDropped = true ∧
            IsPermanent err = negb (lease_live n2 (Microseconds ttl) (opened n1 key T))
    end.
Proof.
  intros Hd Hv HT Hw Hid Hm Hh row live. pose proof (builtin_laws d site Hd).
  destruct (AddMember_law (site := site) table s T key id seq hs pl m ttl Hv HT Hid Hm)
    as (n1 & n2 & Hn1 & Hn2 & Ho).
  destruct (AddMember d QDB _ _ _ _ _ _ _ _ s) as [[rows err] s']. apply healthy_outcome in Ho; [|done].
  cbn [fst snd] in Ho. destruct Ho as [Hr Hdb]. exists n1, n2. fold row in Hr, Hdb.
  exists (spec_add site n1 n2 T key id row m (Microseconds ttl)).2.
  split; [done|]. split; [done|]. split; [exact Hdb|]. clear Hdb.
  revert Hr. unfold spec_add. destruct (t_members T !! (key, id)) as [old|] eqn:Hk.
  - intros [= -> ->]. cbn. do 2 (split; [done|]). split; [apply select_sorted|].
    do 2 (split; [done|]). destruct (wt_members cap T Hw _ _ _ Hk) as [[r Hr] _].
    unfold opened. rewrite Hr. cbn. rewrite insert_id by done. by destruct T.
  - rewrite count_rows_insert by done. case_decide as Hroom.
    + assert (negb (m =? UnboundedGroupMembers) && (m <? count_rows key (t_members T) + 1) = false) as ->.
      { destruct Hroom as [->|Hlt]; [done|]. apply andb_false_iff. right. lia. }
      intros [= -> ->]. cbn. do 2 (split; [done|]). split; [apply select_sorted|]. split; [done|].
      split; [by rewrite select_insert|done].
    + assert (negb (m =? UnboundedGroupMembers) && (m <? count_rows key (t_members T) + 1) = true) as ->.
      { apply andb_true_iff. split; [apply negb_true_iff; lia|lia]. }
      intros [= -> ->]. cbn [fst snd GroupKey CreatedAt Members]. do 2 (split; [done|]).
      split; [apply StronglySorted_filter, select_sorted|]. split; [done|].
      split; [by apply withoutMember_insert|]. eexists. split; [done|].
      unfold groupOverflow. by destruct (lease_live _ _ _).
Qed.

(** On a healthy server [AddMember] answers with the group's live members in
    (seq, msg_id) order.  A stored id changes nothing, also above the cap.  A
    new one is stored, unclaimed, when the group, claimed members counted, has
    room.  Otherwise nothing is stored, the members answered are the ones that
    were live, and the error is the overflow, permanent exactly when no live
    lease will drain the group. *)
Theorem sql_add_exact d site table s T cap key id seq hs pl m ttl :
  (d, site) ∈ builtin_dialects → ValidateIdent table = None → has_tables table (s_db s) T →
  wf_tables cap T → id ≠ "" → ValidateMaxMembers site m = None → healthy s →
  let row := mkMemberRow seq hs pl None in
  let live := select_rows key unclaimed (t_members T) in
  let '((rows, err), s') := AddMember d QDB table key id seq hs pl m ttl s in
  ∃ n1 n2 T', reads s n1 ∧ reads s n2 ∧ s_db s' = with_contents table (s_db s) T' ∧
    GroupKey rows = key ∧ CreatedAt rows = UnixMicro (created_at (opened n1 key T)) ∧
    StronglySorted member_le (Members rows) ∧
    match t_members T !! (key, id) with
    | Some _ => err = None ∧ Members rows = live ∧ T' = T
    | None =>
        if decide (m = UnboundedGroupMembers ∨ count_rows key (t_members T) < m) then
          err = None ∧ Members rows ≡ₚ mkMember id seq hs pl :: live ∧
          T' = mkTables (<[key := opened n1 key T]> (t_groups T)) (<[(key, id) := row]> (t_members T))
        else
          T' = T ∧ Members rows ≡ₚ live ∧
          ∃ e, err = Some e ∧ Is e ErrOverflowDropped = true ∧
            IsPermanent err = negb (lease_live n2 (Microseconds ttl) (opened n1 key T))
    end.
Proof. apply add_member_exact. Qed.
End add.

Definition full_tables : tables :=
  mkTables {["k" := mkGroupRow 5 1 (Some "a") (Some 10)]}
    (<[("k", "m1") := mkMemberRow 1 [] [] (Some 1)]> {[("k", "m2") := mkMemberRow 2 [] [] None]}).
Definition full_db : database :=
  <["g_member" := RMember (t_members full_tables)]> (<["g" := RGroup (t_groups full_tables)]> ∅).

Lemma full_tables_wf : wf_tables 2 full_tables.
Proof.
  unfold full_tables. split; cbn [t_groups t_members].
  - intros key r [<- <-]%lookup_singleton_Some. split; [done|by split|].
    cbn [t_members]. intros id row Hk. apply lookup_insert_Some in Hk as [[[= <-] <-]|[_ Hk]]; [by right|].
    apply lookup_singleton_Some in Hk as [[= <-] <-]. by left.
  - intros key id row Hk.
    apply lookup_insert_Some in Hk as [[[= <- <-] <-]|[_ Hk]]; [done|].
    apply lookup_singleton_Some in Hk as [[= <- <-] <-]. done.
  - intros key. destruct (decide (key = "k")) as [->|Hne]; [by vm_compute|].
    match goal with |- ?c ≤ 2 => destruct (Z.le_gt_cases c 0) as [|Hp]; [lia|] end.
    apply count_rows_pos in Hp as (id & row & Hk).
    apply lookup_insert_Some in Hk as [[[= ? ?] _]|[_ Hk]]; [congruence|].
    apply lookup_singleton_Some in Hk as [[= ? ?] _]. congruence.
Qed.

(** A third member of a group of two, whose lease is live at 20 and dead from
    5000010 on. *)
Lemma sql_add_exact_witness :
  has_tables "g" (s_db (calm_session full_db 20)) full_tables ∧
  ∃ n1 n2 T', reads (calm_session full_db 20) n1 ∧ reads (calm_session full_db 20) n2 ∧
    has_tables "g" (s_db (@mysqlAddMember byte_collation QDB "g" "k" "m3" 3 [] [] 2 5000000
                            (calm_session full_db 20)).2) T' ∧ T' = full_tables.
Proof.
  assert (has_tables "g" (s_db (calm_session full_db 20)) full_tables) as HT by (split; reflexivity).
  split; [exact HT|].
  pose proof (@sql_add_exact byte_collation (@mysqlGroupDialect byte_collation) mysql_groupOverflowSite "g"
    (calm_session full_db 20) full_tables 2 "k" "m3" 3 [] [] 2 5000000
    ltac:(by right; left) eq_refl HT full_tables_wf ltac:(done) eq_refl (calm_healthy full_db 20)) as Hx.
  cbn [AddMember mysqlGroupDialect] in Hx. cbv zeta in Hx.
  destruct (mysqlAddMember _ _ _ _ _ _ _ _ _ (calm_session full_db 20)) as [[rows err] s'].
  destruct Hx as (n1 & n2 & T' & Hn1 & Hn2 & HT' & _ & _ & _ & Hx).
  apply (f_equal (λ db, has_tables "g" db T')) in HT'.
  pose proof (has_with_contents "g" (s_db (calm_session full_db 20)) T') as HT2. rewrite <- HT' in HT2.
  exists n1, n2, T'. split; [exact Hn1|]. split; [exact Hn2|]. split; [exact HT2|].
  vm_compute in Hx. exact (proj1 Hx).
Defined.

(** ** A claim is exclusive and its members are frozen *)

Section claim.
Context `{Collation}.

(** The group [key] is leased by [by_] since [n0] under the epoch [ep], and the
    members of that claim are [ms]. *)
Record held (key by_ : string) (ep n0 : Z) (ms : list MemberRow) (T : tables) : Prop := {
  held_row : ∃ r, t_groups T !! key = Some r ∧ locked_by r = Some by_ ∧ locked_at r = Some n0 ∧
               epoch r = ep;
  held_members : ∀ m, m ∈ select_rows key (claimed_at ep) (t_members T) ↔ m ∈ ms
}.

(** A call that does not end or outlive that lease: it claims no group [key]
    whose lease looks expired, and settles or abandons no other claim of the
    same epoch. *)
Definition respects (key : string) (ep n0 : Z) (c : sqlcall) : Prop :=
  match c.2 with
  | SClaim key' _ ttl => key' = key → ∀ n, clock_of c.1 n → n - Microseconds ttl < n0
  | SSettle key' _ ep' | SAbandon key' _ ep' => key' = key → ep' ≠ ep
  | _ => True
  end.

(** [held] looks at the group row and at the rows of the claim only. *)
Lemma held_transfer key by_ ep n0 ms T T' :
  held key by_ ep n0 ms T → t_groups T' !! key = t_groups T !! key →
  (∀ id row, claimed_epoch row = Some ep →
     t_members T' !! (key, id) = Some row ↔ t_members T !! (key, id) = Some row) →
  held key by_ ep n0 ms T'.
Proof.
  intros [Hr Hm] Hg Hrows. split; [by rewrite Hg|]. intros m. rewrite <- Hm, !elem_of_select.
  unfold claimed_at. setoid_rewrite bool_decide_eq_true.
  split; intros (row & Hl & Hc & Hx); exists row; (split; [by apply Hrows in Hl|done]).
Qed.

Lemma held_add site key by_ ep n0 ms n1 n2 T key' id row m ttl :
  held key by_ ep n0 ms T → claimed_epoch row = None →
  held key by_ ep n0 ms (spec_add site n1 n2 T key' id row m ttl).2.
Proof.
  intros Hh Hrow. destruct (held_row _ _ _ _ _ _ Hh) as (r & Hr & _).
  assert ((<[key' := opened n1 key' T]> (t_groups T)) !! key = t_groups T !! key) as Hg.
  { destruct (decide (key' = key)) as [->|]; [|by apply lookup_insert_ne].
    rewrite lookup_insert_eq. unfold opened. by rewrite Hr. }
  unfold spec_add. destruct (t_members T !! (key', id)) as [old|] eqn:Hk;
    [|destruct (_ && _)]; cbn [snd]; [by eapply held_transfer|done|].
  eapply held_transfer; [done|done|]. cbn [t_members]. intros id' row' Hc.
  rewrite lookup_insert_Some. split; [|intros; right; split; [congruence|done]].
  intros [[_ <-]|[_ ?]]; [congruence|done].
Qed.

Lemma held_claim cap key by_ ep n0 ms n T key' by' ttl :
  wf_tables cap T → held key by_ ep n0 ms T → (key' = key → n - ttl < n0) →
  held key by_ ep n0 ms (spec_claim n T key' by' ttl).2.
Proof.
  intros Hw Hh Hlive. destruct (held_row _ _ _ _ _ _ Hh) as (r & Hr & Hb & Ha & He).
  unfold spec_claim. destruct (t_groups T !! key') as [r'|] eqn:Hr'; [|done].
  destruct (stealable n ttl r') eqn:Hst; [|done]. destruct (MaxInt64 <=? _); [done|].
  destruct (decide (key' = key)) as [->|Hne].
  { exfalso. specialize (Hlive eq_refl). rewrite Hr in Hr'. injection Hr' as <-.
    unfold stealable in Hst. rewrite Hb, Ha in Hst. lia. }
  cbn [snd]. eapply held_transfer; [done|by apply lookup_insert_ne|].
  intros id row Hc. cbn [t_members]. rewrite lookup_tag_rows. cbn.
  rewrite bool_decide_eq_false_2 by done. cbn. by destruct (t_members T !! (key, id)).
Qed.

(** A settlement or an abandonment of another epoch leaves the claim alone. *)
Lemma holds_other by_ ep r : epoch r ≠ ep → holds by_ ep r = false.
Proof. intros Hne. unfold holds. apply andb_false_iff. right. by apply Z.eqb_neq. Qed.

Lemma held_settle key by_ ep n0 ms n T key' by' ep' :
  held key by_ ep n0 ms T → (key' = key → ep' ≠ ep) →
  held key by_ ep n0 ms (spec_settle n T key' by' ep').2.
Proof.
  intros Hh Hne. destruct (held_row _ _ _ _ _ _ Hh) as (r & Hr & _ & _ & He).
  unfold spec_settle. destruct (t_groups T !! key') as [r'|] eqn:Hr'; [|done].
  assert (∀ id row, claimed_epoch row = Some ep →
    delete_rows key' (claimed_at ep') (t_members T) !! (key, id) = Some row ↔
    t_members T !! (key, id) = Some row) as Hrows.
  { intros id row Hc. rewrite lookup_delete_rows. cbn. rewrite Hc. unfold claimed_at.
    split; [naive_solver|]. intros Hl. split; [done|]. destruct (decide (key = key')) as [->|];
      [|by rewrite bool_decide_eq_false_2]. rewrite (bool_decide_eq_false_2 (Some ep = Some ep')).
    + apply andb_false_r. + specialize (Hne eq_refl). congruence. }
  destruct (decide (key' = key)) as [->|Hk].
  - rewrite holds_other by (specialize (Hne eq_refl); congruence). by eapply held_transfer.
  - destruct (holds _ _ _); cbn [snd]; (eapply held_transfer; [done| |done]); [|done].
    cbn [t_groups]. destruct (0 <? _); [by apply lookup_insert_ne|by apply lookup_delete_ne].
Qed.

Lemma held_abandon key by_ ep n0 ms T key' by' ep' :
  held key by_ ep n0 ms T → (key' = key → ep' ≠ ep) →
  held key by_ ep n0 ms (spec_abandon T key' by' ep').2.
Proof.
  intros Hh Hne. destruct (held_row _ _ _ _ _ _ Hh) as (r & Hr & _ & _ & He).
  unfold spec_abandon. destruct (t_groups T !! key') as [r'|] eqn:Hr'; [|done].
  assert (∀ id row, claimed_epoch row = Some ep →
    tag_rows key' (claimed_at ep') None (t_members T) !! (key, id) = Some row ↔
    t_members T !! (key, id) = Some row) as Hrows.
  { intros id row Hc. rewrite lookup_tag_rows. cbn.
    destruct (t_members T !! (key, id)) as [row0|] eqn:Hl; cbn; [|done].
    destruct (bool_decide (key = key') && claimed_at ep' (claimed_epoch row0)) eqn:Ht; [|done].
    apply andb_true_iff in Ht as [Hk Hcl]. unfold claimed_at in Hcl. bool_to_prop. subst key'.
    specialize (Hne eq_refl). split; intros [= <-]; cbn in Hc; congruence. }
  destruct (decide (key' = key)) as [->|Hk].
  - rewrite holds_other by (specialize (Hne eq_refl); congruence). by eapply held_transfer.
  - destruct (holds _ _ _); cbn [snd]; (eapply held_transfer; [done| |done]); [|done].
    by apply lookup_insert_ne.
Qed.

Lemma held_step site cap key by_ ep n0 ms c T T' :
  wf_tables cap T → held key by_ ep n0 ms T → respects key ep n0 c → op_step site c T T' →
  held key by_ ep n0 ms T'.
Proof.
  intros Hw Hh Hrs [->|Hs]; [done|]. unfold respects in Hrs. destruct c as [o []]; cbn [fst snd] in *.
  - destruct Hs as (_ & _ & n1 & n2 & ->). by apply held_add.
  - destruct Hs as (n & Hn & ->). eapply held_claim; [done|done|]. intros ->. by apply Hrs.
  - destruct Hs as (n & ->). by apply held_settle.
  - subst. by apply held_abandon.
  - done.
Qed.

(** What a claim that wins establishes. *)
Lemma claim_held cap n T key by_ ttl cg T' :
  wf_tables cap T → spec_claim n T key by_ ttl = ((Some cg, None), T') →
  held key by_ (cg_Epoch cg) n (Members (cg_GroupRows cg)) T' ∧
  GroupKey (cg_GroupRows cg) = key ∧
  StronglySorted member_le (Members (cg_GroupRows cg)) ∧
  ∀ id, id ∈ MsgID <$> Members (cg_GroupRows cg) ↔ is_Some (t_members T !! (key, id)).
Proof.
  intros Hw. unfold spec_claim. destruct (t_groups T !! key) as [r|] eqn:Hr; [|done].
  destruct (stealable _ _ _); [|done]. destruct (MaxInt64 <=? _); [done|].
  intros [= <- <-]. cbn [cg_Epoch cg_GroupRows Members GroupKey]. split; [|split; [done|split]].
  - split; [|done]. eexists. cbn [t_groups]. by rewrite lookup_insert_eq.
  - apply select_sorted.
  - intros id. rewrite list_elem_of_fmap. split.
    + intros (m & -> & (row & Hl & _)%elem_of_select). rewrite lookup_tag_rows in Hl.
      by destruct (t_members T !! _).
    + intros [row Hl].
      destruct (tag_rows key (absorbable (epoch r + 1)) (Some (epoch r + 1)) (t_members T) !! (key, id))
        as [row'|] eqn:Ht; [|by rewrite lookup_tag_rows, Hl in Ht].
      exists (fetched id row'). split; [done|]. rewrite elem_of_select. exists row'. split; [done|].
      split; [|done]. apply bool_decide_eq_true_2. by eapply claim_tags_all.
Qed.

(** A claimed member is handed out as it is stored. *)
Lemma claim_fetched cap n T key by_ ttl cg T' :
  wf_tables cap T → spec_claim n T key by_ ttl = ((Some cg, None), T') →
  ∀ x, x ∈ Members (cg_GroupRows cg) ↔
    ∃ row, t_members T !! (key, MsgID x) = Some row ∧ x = fetched (MsgID x) row.
Proof.
  intros Hw. unfold spec_claim. destruct (t_groups T !! key) as [r|] eqn:Hr; [|done].
  destruct (stealable _ _ _); [|done]. destruct (MaxInt64 <=? _); [done|].
  intros [= <- <-] x. cbn [cg_GroupRows Members]. rewrite elem_of_select. split.
  - intros (row & Hl & _ & Hx). rewrite lookup_tag_rows in Hl.
    destruct (t_members T !! _) as [row0|]; [|done]. cbn in Hl. exists row0. split; [done|].
    rewrite Hx. injection Hl as <-. by destruct (_ && _).
  - intros (row & Hl & Hx).
    destruct (tag_rows key (absorbable (epoch r + 1)) (Some (epoch r + 1)) (t_members T) !! (key, MsgID x))
      as [row'|] eqn:Ht; [|by rewrite lookup_tag_rows, Hl in Ht].
    exists row'. split; [done|]. pose proof (claim_tags_all cap T key r _ row' Hw Hr Ht) as Hc.
    split; [by apply bool_decide_eq_true_2|]. rewrite lookup_tag_rows, Hl in Ht. cbn in Ht.
    rewrite Hx. injection Ht as <-. by destruct (_ && _).
Qed.

(** Settling a claim that is in force. *)
Lemma settle_held cap n T key by_ ep n0 ms :
  wf_tables cap T → held key by_ ep n0 ms T →
  let sp := spec_settle n T key by_ ep in
  sp.1 = (true, None) ∧
  (∀ k id row, t_members sp.2 !! (k, id) = Some row ↔
     t_members T !! (k, id) = Some row ∧ ¬ (k = key ∧ id ∈ MsgID <$> ms)) ∧
  (∀ id row, t_members sp.2 !! (key, id) = Some row → claimed_epoch row = None) ∧
  (is_Some (t_groups sp.2 !! key) ↔ ∃ id, is_Some (t_members sp.2 !! (key, id))).
Proof.
  intros Hw [(r & Hr & Hb & Ha & He) Hms]. cbn zeta. unfold spec_settle. rewrite Hr.
  assert (holds by_ ep r = true) as ->.
  { unfold holds. rewrite He, Z.eqb_refl, Hb. by rewrite bool_decide_eq_true_2. }
  cbn [fst snd t_members t_groups]. split; [done|]. split; [|split].
  - intros k id row. rewrite lookup_delete_rows. cbn.
    assert (k = key → t_members T !! (key, id) = Some row →
      (claimed_at ep (claimed_epoch row) = true ↔ id ∈ MsgID <$> ms)) as Hcl.
    { intros -> Hl. rewrite list_elem_of_fmap. split.
      - intros Hc. exists (fetched id row). split; [done|]. apply Hms, elem_of_select. by exists row.
      - intros (m & -> & (row' & Hl' & Hc & _)%Hms%elem_of_select). congruence. }
    destruct (decide (k = key)) as [->|Hne].
    + rewrite bool_decide_eq_true_2 by done. cbn.
      destruct (claimed_at ep (claimed_epoch row)) eqn:Hc; naive_solver.
    + rewrite bool_decide_eq_false_2 by done. naive_solver.
  - intros id row Hl. subst ep. eapply delete_claimed_rows; [by apply (wt_groups cap T Hw)|done].
  - rewrite <- count_rows_pos. destruct (0 <? _) eqn:Hc; bool_to_prop.
    + rewrite lookup_insert_eq. split; [done|by eexists].
    + rewrite lookup_delete_eq. split; [by intros []|lia].
Qed.
End claim.

(** The adds of a sequence of calls are capped. *)
Definition capped (cap : Z) (calls : list sqlcall) : Prop :=
  ∀ o key id seq hs pl m ttl, (o, SAdd key id seq hs pl m ttl) ∈ calls →
    m ≠ UnboundedGroupMembers ∧ m ≤ cap.

Lemma execs_held `{Collation} d site table cap key by_ ep n0 ms db T calls :
  GroupDialectLaws d site → ValidateIdent table = None → has_tables table db T →
  wf_tables cap T → held key by_ ep n0 ms T → capped cap calls →
  Forall (respects key ep n0) calls →
  ∃ T', has_tables table (sql_execs d table db calls) T' ∧ wf_tables cap T' ∧ held key by_ ep n0 ms T'.
Proof.
  intros Hd Hv HT Hw Hh Hcap Hrs.
  apply (execs_invariant d site table Hv (λ T, wf_tables cap T ∧ held key by_ ep n0 ms T) db T calls);
    [done|done|].
  intros c T1 T2 Hin [Hw1 Hh1] Hs. eapply Forall_forall in Hrs; [|done]. split.
  - eapply op_step_wf; [|done|done]. intros. destruct c as [o op]. cbn in *. subst. by eapply Hcap.
  - by eapply held_step.
Qed.

Lemma healthy_claim `{Collation} d site table cap s T key by_ ttl cg s1 :
  GroupDialectLaws d site → ValidateIdent table = None → has_tables table (s_db s) T →
  wf_tables cap T → healthy s → ClaimGroup d QDB table key by_ ttl s = ((Some cg, None), s1) →
  ∃ n T1, reads s n ∧ has_tables table (s_db s1) T1 ∧ wf_tables cap T1 ∧
    spec_claim n T key by_ (Microseconds ttl) = ((Some cg, None), T1).
Proof.
  intros Hd Hv HT Hw Hh Hc.
  destruct (ClaimGroup_law (site := site) table s T key by_ ttl Hv HT) as (n & Hn & Ho).
  rewrite Hc in Ho. apply healthy_outcome in Ho as [Hr Hdb]; [|done]. cbn [fst snd] in *.
  exists n, (spec_claim n T key by_ (Microseconds ttl)).2. split; [done|].
  split; [rewrite Hdb; apply has_with_contents|]. split; [by apply wf_spec_claim|].
  by destruct (spec_claim n T key by_ (Microseconds ttl)) as [? ?]; cbn in *; subst.
Qed.

(** C11. A claim that wins takes every member of the group, and until its holder
    settles it these members stay as claimed, whatever adds, claims, settlements
    and abandonments other holders run, as long as nobody's clock sees the lease
    expired and no other call names its epoch.  The settlement then applies and
    deletes exactly them: members that arrived meanwhile survive, unclaimed, and
    the group row stays if and only if there are such. *)
Theorem sql_claim_settle_exact `{Collation} d site table s T cap key by_ ttl cg s1 calls o2 :
  (d, site) ∈ builtin_dialects → ValidateIdent table = None → has_tables table (s_db s) T →
  wf_tables cap T → healthy s → ClaimGroup d QDB table key by_ ttl s = ((Some cg, None), s1) →
  capped cap calls → (∀ n0, reads s n0 → Forall (respects key (cg_Epoch cg) n0) calls) →
  (∀ i, tk_fault (o2 i) = None) →
  let claimed := MsgID <$> Members (cg_GroupRows cg) in
  let db2 := sql_execs d table (s_db s1) calls in
  let '(r, s3) := SettleGroup d QDB table key by_ (cg_Epoch cg) (mkSession db2 o2 0) in
  (∀ id, id ∈ claimed ↔ is_Some (t_members T !! (key, id))) ∧
  ∃ T2 T3, has_tables table db2 T2 ∧ has_tables table (s_db s3) T3 ∧
    (∀ m, m ∈ select_rows key (claimed_at (cg_Epoch cg)) (t_members T2) ↔
          m ∈ Members (cg_GroupRows cg)) ∧
    r = (true, None) ∧
    (∀ k id row, t_members T3 !! (k, id) = Some row ↔
       t_members T2 !! (k, id) = Some row ∧ ¬ (k = key ∧ id ∈ claimed)) ∧
    (∀ id row, t_members T3 !! (key, id) = Some row → claimed_epoch row = None) ∧
    (is_Some (t_groups T3 !! key) ↔ ∃ id, is_Some (t_members T3 !! (key, id))).
Proof.
  intros Hd Hv HT Hw Hs Hc Hcap Hrs Ho2 claimed db2. pose proof (builtin_laws d site Hd) as Hl.
  destruct (healthy_claim d site table cap s T key by_ ttl cg s1) as (n & T1 & Hn & HT1 & Hw1 & Hsp);
    [done..|].
  destruct (claim_held cap n T key by_ _ cg T1 Hw Hsp) as (Hh1 & _ & _ & Hids).
  destruct (execs_held d site table cap key by_ (cg_Epoch cg) n (Members (cg_GroupRows cg))
    (s_db s1) T1 calls) as (T2 & HT2 & Hw2 & Hh2); [done..|by apply Hrs|].
  pose proof (SettleGroup_law (site := site) table (mkSession db2 o2 0) T2 key by_ (cg_Epoch cg) Hv HT2)
    as (n3 & _ & Ho).
  destruct (SettleGroup d QDB _ _ _ _ _) as [r s3]. apply healthy_outcome in Ho as [Hr Hdb]; [|done].
  cbn [fst snd s_db] in *.
  destruct (settle_held cap n3 T2 key by_ (cg_Epoch cg) n (Members (cg_GroupRows cg)) Hw2 Hh2)
    as (H1 & H2 & H3 & H4).
  split; [done|]. exists T2, (spec_settle n3 T2 key by_ (cg_Epoch cg)).2.
  split; [done|]. split; [rewrite Hdb; apply has_with_contents|].
  split; [apply (held_members _ _ _ _ _ _ Hh2)|]. split; [congruence|]. split; [done|]. split; [done|exact H4].
Qed.

(** A claim of one member, while it is held: an arrival and another worker's
    attempt to claim. *)
Definition one_tables : tables :=
  mkTables {["k" := mkGroupRow 5 0 None None]} {[("k", "m1") := mkMemberRow 1 [] [] None]}.
Definition one_db : database :=
  <["g_member" := RMember (t_members one_tables)]> (<["g" := RGroup (t_groups one_tables)]> ∅).
Definition one_claim : ClaimedGroup := mkClaimedGroup (mkGroupRows "k" (UnixMicro 5) [mkMember "m1" 1 [] []]) 1.
Definition one_calls : list sqlcall :=
  [(calm 20, SAdd "k" "m2" 2 [] [] 8 5000000); (calm 30, SClaim "k" "b" 5000000)].

Lemma single_tables_wf created id :
  id ≠ "" →
  wf_tables 8 (mkTables {["k" := mkGroupRow created 0 None None]} {[("k", id) := mkMemberRow 1 [] [] None]}).
Proof.
  intros Hid. split; cbn [t_groups t_members].
  - intros key r [<- <-]%lookup_singleton_Some. split; [done|by split; intros []|].
    cbn [t_members]. intros id' row [_ <-]%lookup_singleton_Some. by left.
  - intros key id' row [[= <- <-] <-]%lookup_singleton_Some. split; [by eexists|done].
  - intros key. unfold count_rows, group_rows. rewrite map_filter_singleton. case_decide; rewrite ?map_size_singleton, ?map_size_empty; lia.
Qed.

Lemma one_tables_wf : wf_tables 8 one_tables.
Proof. by apply single_tables_wf. Qed.

Lemma one_claimed :
  @pgClaimGroup byte_collation QDB "g" "k" "a" 5000000 (calm_session one_db 10) =
  ((Some one_claim, None), (@pgClaimGroup byte_collation QDB "g" "k" "a" 5000000 (calm_session one_db 10)).2).
Proof.
  rewrite (surjective_pairing (pgClaimGroup _ _ _ _ _ _)) at 1. apply (f_equal2 pair); [vm_compute; reflexivity|reflexivity].
Qed.

Lemma one_calls_capped : capped 8 one_calls.
Proof.
  intros o key id seq hs pl m ttl. unfold one_calls. rewrite !elem_of_cons.
  intros [[= -> -> -> -> -> -> -> ->]|[[=]|[]%not_elem_of_nil]]. done.
Qed.

Lemma sql_claim_settle_exact_witness :
  has_tables "g" one_db one_tables ∧
  let s1 := (@pgClaimGroup byte_collation QDB "g" "k" "a" 5000000 (calm_session one_db 10)).2 in
  let db2 := sql_execs (@postgresGroupDialect byte_collation) "g" (s_db s1) one_calls in
  (@pgSettleGroup QDB "g" "k" "a" 1 (calm_session db2 40)).1 = (true, None).
Proof.
  assert (has_tables "g" (s_db (calm_session one_db 10)) one_tables) as HT by (split; reflexivity).
  split; [exact HT|]. intros s1 db2.
  pose proof (@sql_claim_settle_exact byte_collation (@postgresGroupDialect byte_collation)
    pg_groupOverflowSite "g" (calm_session one_db 10) one_tables 8 "k" "a" 5000000 one_claim s1
    one_calls (calm 40) ltac:(by left) eq_refl HT one_tables_wf (calm_healthy one_db 10) one_claimed
    one_calls_capped) as Hx.
  cbn [SettleGroup postgresGroupDialect cg_Epoch one_claim] in Hx. cbv zeta in Hx.
  fold db2 in Hx. unfold calm_session.
  destruct (pgSettleGroup _ _ _ _ _ _) as [r s3].
  destruct Hx as (_ & T2 & T3 & _ & _ & _ & Hr & _); [|reflexivity|exact Hr].
  intros n0 (i & _ & ->). constructor; [exact I|]. constructor; [|constructor].
  intros _ n (j & ->). vm_compute. reflexivity.
Defined.

(** ** A crashed holder's claim is recovered *)

Section recovery.
Context `{Collation}.

Lemma tag_rows_none key p c (M : member_table) :
  (∀ id row, M !! (key, id) = Some row → p (claimed_epoch row) = false) → tag_rows key p c M = M.
Proof.
  intros Hn. apply map_eq. intros [k id]. rewrite lookup_tag_rows. cbn.
  destruct (M !! (k, id)) as [row|] eqn:Hl; [|done]. cbn. f_equal.
  destruct (decide (k = key)) as [->|]; [|by rewrite bool_decide_eq_false_2].
  by rewrite (Hn id row Hl), andb_false_r.
Qed.

Lemma delete_rows_none key p (M : member_table) :
  (∀ id row, M !! (key, id) = Some row → p (claimed_epoch row) = false) → delete_rows key p M = M.
Proof.
  intros Hn. apply map_filter_id. intros [k id] row Hl. cbn.
  destruct (decide (k = key)) as [->|]; [|by rewrite bool_decide_eq_false_2].
  by rewrite (Hn id row Hl), andb_false_r.
Qed.

(** No member carries an epoch that is not the group's. *)
Lemma no_other_epoch cap T key r ep id row :
  wf_tables cap T → t_groups T !! key = Some r → epoch r ≠ ep →
  t_members T !! (key, id) = Some row → claimed_at ep (claimed_epoch row) = false.
Proof.
  intros Hw Hr Hne Hl. apply bool_decide_eq_false.
  destruct (go_claims _ _ _ (wt_groups cap T Hw _ _ Hr) id row Hl) as [->|[-> _]]; congruence.
Qed.

Lemma stale_settle_noop cap n T key by_ ep r :
  wf_tables cap T → t_groups T !! key = Some r → epoch r ≠ ep →
  spec_settle n T key by_ ep = ((false, None), T).
Proof.
  intros Hw Hr Hne. unfold spec_settle. rewrite Hr, holds_other by done.
  rewrite delete_rows_none; [by destruct T|]. intros. by eapply no_other_epoch.
Qed.

Lemma stale_abandon_noop cap T key by_ ep r :
  wf_tables cap T → t_groups T !! key = Some r → epoch r ≠ ep →
  spec_abandon T key by_ ep = ((false, None), T).
Proof.
  intros Hw Hr Hne. unfold spec_abandon. rewrite Hr, holds_other by done.
  rewrite tag_rows_none; [by destruct T|]. intros. by eapply no_other_epoch.
Qed.

(** C32. Once a lease is older than the time to live, whoever claims the group
    next gets it, under the next epoch, with every member of the group: the
    ones the old holder had claimed and never settled are not lost.  While the
    new claim is held, the old holder's settlement and abandonment answer that
    they do not apply, and change nothing. *)
Theorem sql_crash_recovery d site table s T cap key r dead at_ by_ ttl calls o2 :
  (d, site) ∈ builtin_dialects → ValidateIdent table = None → has_tables table (s_db s) T →
  wf_tables cap T → healthy s →
  t_groups T !! key = Some r → locked_by r = Some dead → locked_at r = Some at_ → epoch r < MaxInt64 →
  (∀ n, reads s n → at_ + Microseconds ttl ≤ n) →
  capped cap calls → (∀ n0, reads s n0 → Forall (respects key (epoch r + 1) n0) calls) →
  (∀ i, tk_fault (o2 i) = None) →
  let '((claim, err), s1) := ClaimGroup d QDB table key by_ ttl s in
  let s2 := mkSession (sql_execs d table (s_db s1) calls) o2 0 in
  err = None ∧
  (∃ cg, claim = Some cg ∧ cg_Epoch cg = epoch r + 1 ∧
     ∀ id, id ∈ MsgID <$> Members (cg_GroupRows cg) ↔ is_Some (t_members T !! (key, id))) ∧
  (let '(res, s3) := SettleGroup d QDB table key dead (epoch r) s2 in
   res = (false, None) ∧ s_db s3 = s_db s2) ∧
  (let '(res, s3) := AbandonGroup d QDB table key dead (epoch r) s2 in
   res = (false, None) ∧ s_db s3 = s_db s2).
Proof.
  intros Hd Hv HT Hw Hs Hr Hb Ha Hmax Hold Hcap Hrs Ho2. pose proof (builtin_laws d site Hd) as Hl.
  destruct (ClaimGroup_law (site := site) table s T key by_ ttl Hv HT) as (n & Hn & Ho).
  assert (stealable n (Microseconds ttl) r = true) as Hst.
  { unfold stealable. rewrite Hb, Ha. specialize (Hold n Hn). apply Z.leb_le. lia. }
  destruct (spec_claim n T key by_ (Microseconds ttl)) as [[claim err] T1] eqn:Hsp.
  destruct (ClaimGroup d QDB _ _ _ _ s) as [[claim' err'] s1]. apply healthy_outcome in Ho as [Hr1 Hdb]; [|done].
  cbn [fst snd] in Hr1, Hdb. injection Hr1 as -> ->. pose proof Hsp as Hsp'.
  pose proof (wf_spec_claim cap n T key by_ (Microseconds ttl) Hw) as Hw1. rewrite Hsp in Hw1. cbn in Hw1.
  unfold spec_claim in Hsp'. rewrite Hr, Hst in Hsp'.
  assert (MaxInt64 <=? epoch r = false) as Hm by lia. rewrite Hm in Hsp'. injection Hsp' as Hc He _.
  subst err. destruct claim as [cg|]; [|done]. assert (cg_Epoch cg = epoch r + 1) as Hep by by injection Hc as <-.
  clear Hc. destruct (claim_held cap n T key by_ _ cg T1 Hw Hsp) as (Hh1 & _ & _ & Hids). rewrite Hep in Hh1.
  assert (has_tables table (s_db s1) T1) as HT1 by (rewrite Hdb; apply has_with_contents).
  destruct (execs_held d site table cap key by_ (epoch r + 1) n (Members (cg_GroupRows cg))
    (s_db s1) T1 calls) as (T2 & HT2 & Hw2 & Hh2); [done..|by apply Hrs|].
  destruct (held_row _ _ _ _ _ _ Hh2) as (r2 & Hr2 & _ & _ & He2).
  set (s2 := mkSession _ o2 0). assert (healthy s2) as Hs2 by done.
  split; [done|]. split; [by exists cg|]. split.
  - destruct (SettleGroup_law (site := site) table s2 T2 key dead (epoch r) Hv HT2) as (n3 & _ & Ho).
    rewrite (stale_settle_noop cap n3 T2 key dead (epoch r) r2 Hw2 Hr2) in Ho by lia.
    destruct (SettleGroup d QDB _ _ _ _ s2) as [res s3]. apply healthy_outcome in Ho as [Hr3 Hdb3]; [|done].
    cbn [fst snd] in *. split; [done|]. rewrite Hdb3. by apply with_contents_id.
  - pose proof (AbandonGroup_law (site := site) table s2 T2 key dead (epoch r) Hv HT2) as Ho.
    rewrite (stale_abandon_noop cap T2 key dead (epoch r) r2 Hw2 Hr2) in Ho by lia.
    destruct (AbandonGroup d QDB _ _ _ _ s2) as [res s3]. apply healthy_outcome in Ho as [Hr3 Hdb3]; [|done].
    cbn [fst snd] in *. split; [done|]. rewrite Hdb3. by apply with_contents_id.
Qed.
End recovery.

(** In [full_tables] the holder "a" has a claim of one member since 10. *)
Lemma sql_crash_recovery_witness :
  locked_at (mkGroupRow 5 1 (Some "a") (Some 10)) = Some 10 ∧
  let s1 := (@sqliteClaimGroup byte_collation QDB "g" "k" "b" 5000000 (calm_session full_db 5010)).2 in
  (@sqliteSettleGroup QDB "g" "k" "a" 1 (calm_session (s_db s1) 5020)).1 = (false, None).
Proof.
  split; [reflexivity|]. intros s1.
  assert (has_tables "g" (s_db (calm_session full_db 5010)) full_tables) as HT by (split; reflexivity).
  pose proof (@sql_crash_recovery byte_collation (@sqliteGroupDialect byte_collation)
    sqlite_groupOverflowSite "g" (calm_session full_db 5010) full_tables 2 "k"
    (mkGroupRow 5 1 (Some "a") (Some 10)) "a" 10 "b" 5000000 [] (calm 5020)
    ltac:(by right; right; left) eq_refl HT full_tables_wf (calm_healthy full_db 5010)
    eq_refl eq_refl eq_refl eq_refl) as Hx.
  cbn [ClaimGroup SettleGroup AbandonGroup sqliteGroupDialect] in Hx. unfold s1.
  destruct (sqliteClaimGroup _ _ _ _ _ _) as [[claim err] s1'].
  destruct Hx as (_ & _ & Hx & _).
  - intros n (i & _ & ->). vm_compute. discriminate.
  - intros o key id seq hs pl m ttl []%not_elem_of_nil.
  - constructor.
  - reflexivity.
  - cbn [sql_execs foldl epoch] in Hx. unfold calm_session. cbn [snd].
    destruct (sqliteSettleGroup _ _ _ _ _ _) as [res s3]. exact (proj1 Hx).
Defined.

(** ** The expiry scan *)

Definition due (n ttl before : Z) (r : group_row) : Prop :=
  (∃ by_ a, locked_by r = Some by_ ∧ locked_at r = Some a ∧ a + Microseconds ttl ≤ n) ∨
  (before ≠ 0 ∧ locked_by r = None ∧ created_at r < Time_UnixMicro before).

Lemma expired_row_due n ttl before r :
  expired_row n (Microseconds ttl) (negb (IsZero before)) (Time_UnixMicro before) r = true ↔
  due n ttl before r.
Proof.
  unfold expired_row, due, lease_dead, IsZero.
  rewrite orb_true_iff, !andb_true_iff, negb_true_iff, Z.eqb_neq, Z.ltb_lt, bool_decide_eq_true.
  destruct (locked_by r) as [h|]; [destruct (locked_at r) as [a|]|]; rewrite ?Z.leb_le.
  - split; [intros [?|[[? [=]] ?]]; left; exists h, a; auto with lia|].
    intros [(h' & a' & _ & [= <-] & ?)|(_ & [=] & _)]. left. lia.
  - split; [intros [[=]|[[? [=]] ?]]|intros [(? & ? & _ & [=] & _)|(_ & [=] & _)]].
  - split; [intros [[=]|[[? ?] ?]]; auto|intros [(? & ? & [=] & _)|(? & ? & ?)]; auto].
Qed.

Section expired.
Context `{Collation}.

Lemma elem_of_expired_rows n ttl bs before G k c :
  (k, c) ∈ expired_rows n ttl bs before G ↔
  ∃ r, G !! k = Some r ∧ expired_row n ttl bs before r = true ∧ c = created_at r.
Proof.
  unfold expired_rows. rewrite merge_sort_Permutation, list_elem_of_omap. split.
  - intros ([k' r] & Hin%elem_of_map_to_list & Hm). cbn in Hm. destruct (expired_row _ _ _ _ _) eqn:E; [|done].
    injection Hm as <- <-. eauto.
  - intros (r & Hl & He & ->). exists (k, r). rewrite elem_of_map_to_list. cbn. by rewrite He.
Qed.

Lemma expired_rows_sorted n ttl bs before G : StronglySorted older (expired_rows n ttl bs before G).
Proof. apply Sorted_StronglySorted; [apply _|]. apply Sorted_merge_sort, _. Qed.

Lemma expired_rows_nodup n ttl bs before (G : gmap string group_row) :
  NoDup (expired_rows n ttl bs before G).*1.
Proof.
  unfold expired_rows. rewrite merge_sort_Permutation.
  pose proof (NoDup_fst_map_to_list G) as Hnd. revert Hnd.
  induction (map_to_list G) as [|[k r] l IH]; cbn; [intros; constructor|].
  intros [Hk Hl]%NoDup_cons. destruct (expired_row _ _ _ _ _); [|by apply IH]. cbn.
  apply NoDup_cons. split; [|by apply IH]. intros ([k' c] & Hc & Hin)%list_elem_of_fmap. cbn in Hc. subst k'.
  apply list_elem_of_omap in Hin as ([k' r'] & Hin & Hm). cbn in Hm.
  destruct (expired_row _ _ _ _ _); [|done]. injection Hm as -> _.
  apply Hk, list_elem_of_fmap. by exists (k, r').
Qed.

Lemma StronglySorted_take_drop {A} (R : A → A → Prop) n l x y :
  StronglySorted R l → x ∈ take n l → y ∈ drop n l → R x y.
Proof.
  revert n. induction l as [|z l IH]; intros [|n] Hs; cbn; try (by intros ?%not_elem_of_nil).
  apply StronglySorted_inv in Hs as [Hs Hz]. intros [->|Hx]%elem_of_cons Hy; [|by eapply IH].
  eapply Forall_forall in Hz; [done|]. rewrite <- (take_drop n l). apply elem_of_app. by right.
Qed.

Lemma StronglySorted_take {A} (R : A → A → Prop) n l : StronglySorted R l → StronglySorted R (take n l).
Proof.
  intros Hs. revert n. induction Hs as [|x l Hs IH Hx]; intros [|n]; cbn; constructor; [done|].
  by apply Forall_take.
Qed.

Lemma StronglySorted_fmap {A B} (R : A → A → Prop) (R' : B → B → Prop) (f : A → B) l :
  (∀ a b, R a b → R' (f a) (f b)) → StronglySorted R l → StronglySorted R' (f <$> l).
Proof.
  intros Hf. induction 1 as [|x l Hs IH Hx]; cbn; constructor; [done|].
  apply Forall_fmap. eapply Forall_impl; [exact Hx|]. intros b. apply Hf.
Qed.

(** On a healthy server [ExpiredGroups] changes nothing and returns groups
    whose lease has outlived its time to live, and, when an age is given,
    unleased groups created before it, no other and none twice: each with its
    live members in order, oldest first.  When it is full (at most [limit]) the
    groups it leaves out are not older than those it returns; when it is not
    full it leaves none out. *)
Theorem sql_expired_exact d site table s T before ttl limit :
  (d, site) ∈ builtin_dialects → ValidateIdent table = None → has_tables table (s_db s) T →
  healthy s → 0 ≤ limit →
  let '((out, err), s') := ExpiredGroups d QDB table before ttl limit s in
  err = None ∧ s_db s' = s_db s ∧ NoDup (GroupKey <$> out) ∧
  StronglySorted (λ g g', CreatedAt g ≤ CreatedAt g') out ∧ Z.of_nat (length out) ≤ limit ∧
  ∃ n, reads s n ∧
    (∀ g, g ∈ out → ∃ r, t_groups T !! GroupKey g = Some r ∧ due n ttl before r ∧
       CreatedAt g = UnixMicro (created_at r) ∧
       Members g = select_rows (GroupKey g) unclaimed (t_members T)) ∧
    (∀ key r, t_groups T !! key = Some r → due n ttl before r → key ∉ GroupKey <$> out →
       Z.of_nat (length out) = limit ∧ ∀ g, g ∈ out → CreatedAt g ≤ UnixMicro (created_at r)).
Proof.
  intros Hd Hv HT Hs Hlim. pose proof (builtin_laws d site Hd).
  destruct (ExpiredGroups_law (site := site) table s T before ttl limit Hv HT) as (n & Hn & Ho).
  destruct (ExpiredGroups d QDB _ _ _ _ s) as [[out err] s']. apply healthy_outcome in Ho as [Hr Hdb]; [|done].
  cbn [fst snd] in *. injection Hr as -> ->. split; [done|].
  split; [rewrite Hdb; by apply with_contents_id|]. unfold spec_expired.
  set (rows := expired_rows n (Microseconds ttl) (negb (IsZero before)) (Time_UnixMicro before) (t_groups T)).
  set (f := λ kc : string * Z, mkGroupRows kc.1 (UnixMicro kc.2) (select_rows kc.1 unclaimed (t_members T))).
  assert (GroupKey <$> (f <$> take (Z.to_nat limit) rows) = take (Z.to_nat limit) rows.*1) as Hkeys.
  { rewrite <- list_fmap_compose, <- fmap_take. by apply list_fmap_ext. }
  pose proof (expired_rows_nodup n (Microseconds ttl) (negb (IsZero before)) (Time_UnixMicro before) (t_groups T)) as Hnd.
  pose proof (expired_rows_sorted n (Microseconds ttl) (negb (IsZero before)) (Time_UnixMicro before) (t_groups T)) as Hso.
  fold rows in Hnd, Hso. rewrite Hkeys.
  assert (∀ a b, older a b → CreatedAt (f a) ≤ CreatedAt (f b)) as Hmono.
  { intros a b Hab. unfold older, f, UnixMicro, microsecond in *. cbn. lia. }
  split; [|split; [|split; [|exists n; split; [done|split]]]].
  - rewrite <- (take_drop (Z.to_nat limit)) in Hnd. by apply list.NoDup_app in Hnd as [? _].
  - apply (StronglySorted_fmap older _ f); [done|by apply StronglySorted_take].
  - rewrite length_fmap, length_take. lia.
  - intros g ([k c] & -> & Hin)%list_elem_of_fmap. cbn.
    assert ((k, c) ∈ rows) as (r & Hr & He & ->)%elem_of_expired_rows
      by (rewrite <- (take_drop (Z.to_nat limit) rows); apply elem_of_app; by left).
    exists r. split; [done|]. split; [by apply expired_row_due|done].
  - intros key r Hr He Hout.
    assert ((key, created_at r) ∈ rows) as Hin.
    { apply elem_of_expired_rows. exists r. split; [done|]. split; [by apply expired_row_due|done]. }
    rewrite <- (take_drop (Z.to_nat limit) rows) in Hin. apply elem_of_app in Hin as [Hin|Hin].
    { exfalso. apply Hout. rewrite <- fmap_take. apply list_elem_of_fmap. by exists (key, created_at r). }
    rewrite length_fmap, length_take. split.
    + assert (0 < length (drop (Z.to_nat limit) rows))%nat as Hpos.
      { destruct (drop _ rows); [by apply not_elem_of_nil in Hin|cbn; lia]. }
      rewrite length_drop in Hpos. lia.
    + intros g (a & -> & Ha)%list_elem_of_fmap.
      exact (Hmono _ _ (StronglySorted_take_drop older _ _ _ _ Hso Ha Hin)).
Qed.
End expired.

Lemma sql_expired_exact_witness :
  has_tables "g" (s_db (calm_session full_db 5010)) full_tables ∧
  (@sqliteExpiredGroups byte_collation QDB "g" 0 5000000 100 (calm_session full_db 5010)).1.2 = None.
Proof.
  assert (has_tables "g" (s_db (calm_session full_db 5010)) full_tables) as HT by (split; reflexivity).
  split; [exact HT|].
  pose proof (@sql_expired_exact byte_collation (@sqliteGroupDialect byte_collation)
    sqlite_groupOverflowSite "g" (calm_session full_db 5010) full_tables 0 5000000 100
    ltac:(by right; right; left) eq_refl HT (calm_healthy full_db 5010) ltac:(lia)) as Hx.
  cbn [ExpiredGroups sqliteGroupDialect] in Hx.
  destruct (sqliteExpiredGroups _ _ _ _ _ _) as [[out err] s']. exact (proj1 Hx).
Defined.

(** ** The fence of a settlement *)

(** "a" claims the group and stalls; past its lease "b" claims it, settles, and
    the group row goes; a later group of the same key starts from epoch 0, and
    "c" claims it: its epoch is the one "a" still holds. *)
Definition reused_calls : list sqlcall :=
  [(calm 10, SAdd "k" "m1" 1 [] [] 8 5000000); (calm 20, SClaim "k" "a" 5000000);
   (calm 6000, SClaim "k" "b" 5000000); (calm 6010, SSettle "k" "b" 2);
   (calm 7000, SAdd "k" "m2" 1 [] [] 8 5000000); (calm 7010, SClaim "k" "c" 5000000)].

(** A settlement of a held claim under its epoch, by another worker. *)
Lemma claimed_gone `{Collation} n key by_ stale ep n0 ms T :
  held key by_ ep n0 ms T → stale ≠ by_ →
  let sp := spec_settle n T key stale ep in
  sp.1 = (false, None) ∧ t_groups sp.2 = t_groups T ∧ ∀ id, id ∈ MsgID <$> ms → t_members sp.2 !! (key, id) = None.
Proof.
  intros [(r & Hr & Hb & Ha & He) Hms] Hne. cbn zeta. unfold spec_settle. rewrite Hr.
  assert (holds stale ep r = false) as ->.
  { unfold holds. rewrite Hb, bool_decide_eq_false_2 by congruence. done. }
  split; [done|]. split; [done|]. cbn [snd t_members].
  intros id (m & -> & (row & Hl & Hc & _)%Hms%elem_of_select)%list_elem_of_fmap.
  destruct (delete_rows _ _ _ !! _) as [row'|] eqn:Hd; [|done].
  apply lookup_delete_rows in Hd as [Hl' Hc']. rewrite Hl in Hl'. injection Hl' as <-.
  cbn in Hc'. by rewrite bool_decide_eq_true_2, Hc in Hc'.
Qed.

(** C34. The fence does not cover the member table: whenever a worker holds a
    claim, a settlement of that group and epoch by anybody else answers that it
    does not apply, leaves the holder's lease, and yet deletes every member the
    claim holds; when the holder then gives its claim back, which succeeds, they
    are gone.  (A worker whose claim was taken over and settled comes to name
    the epoch of a later claim, since the epochs of a group start again when its
    row is deleted.) *)
Theorem stale_settle_deletes `{Collation} d site table s T cap key by_ ttl cg s1 stale o2 o3 :
  (d, site) ∈ builtin_dialects → ValidateIdent table = None → has_tables table (s_db s) T →
  wf_tables cap T → healthy s → ClaimGroup d QDB table key by_ ttl s = ((Some cg, None), s1) →
  stale ≠ by_ → (∀ i, tk_fault (o2 i) = None) → (∀ i, tk_fault (o3 i) = None) →
  let '(r2, s2) := SettleGroup d QDB table key stale (cg_Epoch cg) (mkSession (s_db s1) o2 0) in
  let '(r3, s3) := AbandonGroup d QDB table key by_ (cg_Epoch cg) (mkSession (s_db s2) o3 0) in
  r2 = (false, None) ∧ r3 = (true, None) ∧
  ∃ T1 T3, has_tables table (s_db s1) T1 ∧ has_tables table (s_db s3) T3 ∧
    ∀ id, id ∈ MsgID <$> Members (cg_GroupRows cg) →
      is_Some (t_members T1 !! (key, id)) ∧ t_members T3 !! (key, id) = None.
Proof.
  intros Hd Hv HT Hw Hs Hc Hne Ho2 Ho3. pose proof (builtin_laws d site Hd) as Hl.
  destruct (healthy_claim d site table cap s T key by_ ttl cg s1) as (n & T1 & Hn & HT1 & Hw1 & Hsp); [done..|].
  destruct (claim_held cap n T key by_ _ cg T1 Hw Hsp) as (Hh1 & _ & _ & _).
  pose proof (SettleGroup_law (site := site) table (mkSession (s_db s1) o2 0) T1 key stale (cg_Epoch cg) Hv HT1)
    as (n2 & _ & Ho).
  destruct (claimed_gone n2 key by_ stale _ n _ T1 Hh1 Hne) as (Hr2 & Hg2 & Hm2).
  set (T2 := (spec_settle n2 T1 key stale (cg_Epoch cg)).2) in *.
  destruct (SettleGroup d QDB _ _ _ _ _) as [r2 s2]. apply healthy_outcome in Ho as [Hr Hdb]; [|done].
  cbn [fst snd s_db] in *. rewrite Hr, Hr2.
  assert (has_tables table (s_db s2) T2) as HT2 by (rewrite Hdb; apply has_with_contents).
  pose proof (AbandonGroup_law (site := site) table (mkSession (s_db s2) o3 0) T2 key by_ (cg_Epoch cg) Hv HT2) as Ho.
  destruct (held_row _ _ _ _ _ _ Hh1) as (r & Hrow & Hb & _ & He).
  assert (holds by_ (cg_Epoch cg) r = true) as Hholds.
  { unfold holds. by rewrite He, Z.eqb_refl, Hb, bool_decide_eq_true_2. }
  unfold spec_abandon in Ho. rewrite Hg2, Hrow, Hholds in Ho.
  destruct (AbandonGroup d QDB _ _ _ _ _) as [r3 s3]. apply healthy_outcome in Ho as [Hr3 Hdb3]; [|done].
  cbn [fst snd s_db] in *. split; [done|]. split; [done|]. eexists T1, _. split; [done|].
  split; [rewrite Hdb3; apply has_with_contents|]. cbn [t_members]. intros id Hid. split.
  - apply list_elem_of_fmap in Hid as (m & -> & (row & Hrm & _)%(held_members _ _ _ _ _ _ Hh1)%elem_of_select).
    by eexists.
  - by rewrite lookup_tag_rows, (Hm2 id Hid).
Qed.

(** The group the last claim of [reused_calls] takes. *)
Definition reused_tables : tables :=
  mkTables {["k" := mkGroupRow 7000 0 None None]} {[("k", "m2") := mkMemberRow 1 [] [] None]}.
Definition reused_claim : ClaimedGroup :=
  mkClaimedGroup (mkGroupRows "k" (UnixMicro 7000) [mkMember "m2" 1 [] []]) 1.
Definition reused_session : session :=
  calm_session (sql_execs (@postgresGroupDialect byte_collation) "g" demo_db (take 5 reused_calls)) 7010.

Lemma stale_settle_deletes_witness :
  let d := @postgresGroupDialect byte_collation in
  (cg_Epoch <$> (ClaimGroup d QDB "g" "k" "a" 5000000
     (calm_session (sql_execs d "g" demo_db (take 1 reused_calls)) 20)).1.1) = Some 1 ∧
  let s1 := (ClaimGroup d QDB "g" "k" "c" 5000000 reused_session).2 in
  let '(r2, s2) := SettleGroup d QDB "g" "k" "a" 1 (calm_session (s_db s1) 7020) in
  r2 = (false, None) ∧
  let '(r3, s3) := AbandonGroup d QDB "g" "k" "c" 1 (calm_session (s_db s2) 7030) in
  r3 = (true, None) ∧
  ∃ T3, has_tables "g" (s_db s3) T3 ∧ t_members T3 !! ("k", "m2") = None.
Proof.
  intros d. split; [vm_compute; reflexivity|]. intros s1.
  assert (has_tables "g" (s_db reused_session) reused_tables) as HT by (split; vm_compute; reflexivity).
  assert (ClaimGroup d QDB "g" "k" "c" 5000000 reused_session = ((Some reused_claim, None), s1)) as Hc.
  { rewrite (surjective_pairing (ClaimGroup _ _ _ _ _ _ _)). apply (f_equal2 pair); [vm_compute; reflexivity|reflexivity]. }
  pose proof (@stale_settle_deletes byte_collation d pg_groupOverflowSite "g" reused_session reused_tables 8 "k" "c"
    5000000 reused_claim s1 "a" (calm 7020) (calm 7030) ltac:(by left) eq_refl HT (single_tables_wf 7000 "m2" ltac:(done))
    (calm_healthy _ _) Hc ltac:(done) ltac:(done) ltac:(done)) as Hx.
  change (cg_Epoch reused_claim) with 1 in Hx. unfold calm_session.
  destruct (SettleGroup d QDB _ _ _ _ _) as [r2 s2].
  destruct (AbandonGroup d QDB _ _ _ _ _) as [r3 s3].
  destruct Hx as (Hr2 & Hr3 & T1 & T3 & _ & HT3 & Hm).
  split; [exact Hr2|]. split; [exact Hr3|]. exists T3. split; [exact HT3|].
  apply Hm. cbn. left.
Defined.
