(* ===== verification/SqlGroupStore.v ===== *)
(** * The SQL group store

    [adapter/database/sql/groupstore.go], the [MessageGroupStore] over a
    [GroupDialect], with [framing.go], the headers' on-wire form, and
    [helpers.go].

    [encoding/json] and the RFC 3339 layout of the [time] package are arguments
    of the model (the class [Json]); what the code relies on is the class
    [JsonLaws].  The store's methods run on the pool. *)

From stdpp Require Import sorting.
From Stdlib Require Import Floats.SpecFloat Strings.Ascii.
From S2P Require Import Prelude Message.
From S2P Require GroupStore.
From S2P Require Import SqlEngine SqlGroup SqlGroupSafety.
Local Open Scope Z_scope.

(** ** errors.go *)

Definition ErrSchemaNotReady : sentinel := OtherSentinel "msgin/sql: schema not ready".
Definition ErrNilDialect : sentinel := OtherSentinel "msgin/sql: nil dialect".
Definition ErrInvalidLeaseTTL : sentinel := OtherSentinel "msgin/sql: lease TTL must be > 0".
Definition ErrInvalidPayload : sentinel := OtherSentinel "msgin/sql: outbound payload must be []byte".

(** ** framing.go *)

Class Json : Type := {
  json_Marshal : gmap string any → error + bytes;
  json_Unmarshal : bytes → error + option (gmap string any);  (** [None]: the nil map of "null" *)
  Format_RFC3339Nano : Z → string;
  Parse_RFC3339Nano : string → option Z;
  float_to_int : spec_float → Z;   (** [int(f)] where it is implementation-specific *)
  json_text : string → Prop;       (** strings JSON carries unchanged: valid UTF-8 *)
  rfc3339_instant : Z → Prop       (** instants of a four-digit year *)
}.

Section framing.
Context `{Json}.

Definition frame_value (k : string) (v : any) : any :=
  if bool_decide (k = HeaderTimestamp) then
    match v with
    | ATime t => AString (Format_RFC3339Nano t)
    | _ => v
    end
  else v.

Definition EncodeHeaders (h : Headers) : error + bytes :=
  let m := map_imap (λ k v, Some (frame_value k v)) (default ∅ (hm h)) in
  match json_Marshal m with
  | inl err => inl (Errorf [err] [FStr "msgin/sql: encode headers"])
  | inr b => inr b
  end.

Definition unframe_value (k : string) (v : any) : any :=
  if bool_decide (k = HeaderTimestamp) then
    match v with
    | AString s => match Parse_RFC3339Nano s with Some t => ATime t | None => v end
    | _ => v
    end
  else if bool_decide (k = HeaderDeliveryCount) || bool_decide (k = HeaderSequenceNumber)
          || bool_decide (k = HeaderSequenceSize) then
    match v with
    | AFloat64 f => AInt (f64_to_int64 float_to_int f)
    | _ => v
    end
  else v.

Definition DecodeHeaders (b : bytes) : error + Headers :=
  match b with
  | [] => inr (NewHeaders None)
  | _ =>
      match json_Unmarshal b with
      | inl err => inl (Errorf [err] [FStr "msgin/sql: decode headers"])
      | inr raw => inr (NewHeaders (option_map (map_imap (λ k v, Some (unframe_value k v))) raw))
      end
  end.
End framing.

(** ** Construction *)

Definition defaultGroupLeaseTTL : Z := 5 * minute.
Definition defaultExpiredGroupsLimit : Z := 100.
Definition defaultMaxGroupMembers : Z := Z.shiftl 1 16.

Record groupBase : Type := mkGroupBase {
  gb_table : string;
  gb_dialect : GroupDialect
}.

(** [db] is whether the pool is not nil, a nil dialect is [None]. *)
Definition newGroupBase (db : bool) (table : string) (dialect : option GroupDialect)
    : error + groupBase :=
  if negb db then inl (Sentinel ErrNilAdapter)
  else
    match ValidateIdent table with
    | Some err => inl err
    | None =>
        match dialect with
        | None => inl (Sentinel ErrNilDialect)
        | Some d => inr (mkGroupBase table d)
        end
    end.

Record groupStoreConfig : Type := mkGroupStoreConfig {
  gc_leaseTTL : Z;
  gc_leaseTTLSet : bool;
  gc_lockedBy : string;
  gc_maxGroupMembers : Z
}.

Definition WithGroupLeaseTTL (d : Z) (c : groupStoreConfig) : groupStoreConfig :=
  mkGroupStoreConfig d true (gc_lockedBy c) (gc_maxGroupMembers c).
Definition WithGroupLockedBy (id : string) (c : groupStoreConfig) : groupStoreConfig :=
  mkGroupStoreConfig (gc_leaseTTL c) (gc_leaseTTLSet c) id (gc_maxGroupMembers c).
Definition WithMaxGroupMembers (n : Z) (c : groupStoreConfig) : groupStoreConfig :=
  mkGroupStoreConfig (gc_leaseTTL c) (gc_leaseTTLSet c) (gc_lockedBy c) n.

(** [randomLockedBy], from the bytes the random source returned. *)
Definition randomLockedBy (random : bytes) : string := EncodeToString random.

Record GroupStore : Type := mkGroupStore {
  gs_base : groupBase;
  gs_leaseTTL : Z;
  gs_lockedBy : string;
  gs_maxGroupMembers : Z
}.

Definition NewGroupStore (random : bytes) (db : bool) (table : string)
    (dialect : option GroupDialect) (opts : list (option (groupStoreConfig → groupStoreConfig)))
    : error + GroupStore :=
  match apply_opts opts (mkGroupStoreConfig 0 false "" defaultMaxGroupMembers) with
  | inl i => inl (nilOptionAt "sql.NewGroupStore" i)
  | inr cfg =>
      let? base := newGroupBase db table dialect in
      let? leaseTTL :=
        (if gc_leaseTTLSet cfg then
           if gc_leaseTTL cfg <=? 0 then inl (Errorf [Sentinel ErrInvalidLeaseTTL] [FInt (gc_leaseTTL cfg)])
           else inr (gc_leaseTTL cfg)
         else inr defaultGroupLeaseTTL) in
      match checkRange (Sentinel ErrInvalidCapacity) "sql.WithMaxGroupMembers"
              (gc_maxGroupMembers cfg) 1 maxGroupMembersCeiling with
      | Some err => inl err
      | None =>
          let lockedBy := if bool_decide (gc_lockedBy cfg = "") then randomLockedBy random
                          else gc_lockedBy cfg in
          inr (mkGroupStore base leaseTTL lockedBy (gc_maxGroupMembers cfg))
      end
  end.

(** ** Methods *)

Definition schemaNotReady (b : groupBase) : error :=
  Errorf [Sentinel ErrSchemaNotReady] [FStr (gb_table b)].

Definition EnsureSchema (b : groupBase) : session → option error * session :=
  EnsureGroupSchema (gb_dialect b) QDB (gb_table b).

Definition Ready (b : groupBase) (s : session) : option error * session :=
  let '((exists_, err), s) := SchemaExists (gb_dialect b) QDB (gb_table b) s in
  match err with
  | Some err => (Some err, s)
  | None => (if negb exists_ then Some (schemaNotReady b) else None, s)
  end.

Definition classifyQueryErr (b : groupBase) (err : error) (s : session) : error * session :=
  let '((exists_, probeErr), s) := SchemaExists (gb_dialect b) QDB (gb_table b) s in
  (match probeErr with
   | None => if negb exists_ then schemaNotReady b else err
   | Some _ => err
   end, s).

Section store.
Context `{Json}.

(** [decodeGroupRows]; its snapshot beside an error is the zero one. *)
Definition decodeMember (m : MemberRow) : error + msg :=
  match DecodeHeaders (mr_Headers m) with
  | inl err => inl (Errorf [err] [FStr "msgin/sql: decode group member"; FStr (MsgID m)])
  | inr headers => inr (NewMessage (ABytes (mr_Payload m)) headers)
  end.
Fixpoint decodeMembers (ms : list MemberRow) : error + list msg :=
  match ms with
  | [] => inr []
  | m :: ms => let? x := decodeMember m in let? xs := decodeMembers ms in inr (x :: xs)
  end.
Definition decodeGroupRows (rows : GroupRows) : error + GroupStore.MessageGroup :=
  let? msgs := decodeMembers (Members rows) in
  inr (GroupStore.mkGroup (GroupKey rows) msgs (CreatedAt rows)).

Definition Store_Add (st : GroupStore) (key : string) (m : msg) (s : session)
    : (GroupStore.groupRef * option error) * session :=
  let msgID := ID m in
  if bool_decide (msgID = "") then ((GroupStore.GNil, Some (Sentinel ErrMissingMsgID)), s)
  else
    match EncodeHeaders (msg_headers m) with
    | inl err => ((GroupStore.GNil, Some err), s)
    | inr headers =>
        match (type_assert (msg_payload m) : option bytes) with
        | None => ((GroupStore.GNil, Some (Errorf [Sentinel ErrInvalidPayload] [])), s)
        | Some payload =>
            let seq := match Headers_Int (msg_headers m) HeaderSequenceNumber with
                       | Some n => n
                       | None => 0
                       end in
            let b := gs_base st in
            let '((rows, err), s) := AddMember (gb_dialect b) QDB (gb_table b) key msgID seq headers
                                       payload (gs_maxGroupMembers st) (gs_leaseTTL st) s in
            match err with
            | Some err =>
                let '(classified, s) := classifyQueryErr b err s in
                if negb (Is classified ErrOverflowDropped) then ((GroupStore.GNil, Some classified), s)
                else
                  match decodeGroupRows rows with
                  | inl _ => ((GroupStore.GNil, Some classified), s)
                  | inr snap => ((GroupStore.GVal snap, Some classified), s)
                  end
            | None =>
                match decodeGroupRows rows with
                | inl err => ((GroupStore.GVal (GroupStore.mkGroup "" [] 0), Some err), s)
                | inr snap => ((GroupStore.GVal snap, None), s)
                end
            end
        end
    end.

Definition Store_ClaimGroup (st : GroupStore) (key : string) (s : session)
    : (option GroupStore.MessageGroupClaim * option error) * session :=
  let b := gs_base st in
  let '((cg, err), s) := ClaimGroup (gb_dialect b) QDB (gb_table b) key (gs_lockedBy st) (gs_leaseTTL st) s in
  match err with
  | Some err => let '(err, s) := classifyQueryErr b err s in ((None, Some err), s)
  | None =>
      match cg with
      | None => ((None, None), s)
      | Some cg =>
          match decodeGroupRows (cg_GroupRows cg) with
          | inl err => ((None, Some err), s)
          | inr snap => ((Some (GroupStore.mkClaim snap (cg_Epoch cg)), None), s)
          end
      end
  end.

Definition Store_SettleGroup (st : GroupStore) (claim : GroupStore.MessageGroupClaim) (s : session)
    : option error * session :=
  let b := gs_base st in
  let '((_, err), s) := SettleGroup (gb_dialect b) QDB (gb_table b) (GroupStore.clm_key claim)
                          (gs_lockedBy st) (GroupStore.clm_epoch claim) s in
  match err with
  | Some err => let '(err, s) := classifyQueryErr b err s in (Some err, s)
  | None => (None, s)
  end.

Definition Store_AbandonGroup (st : GroupStore) (claim : GroupStore.MessageGroupClaim) (s : session)
    : option error * session :=
  let b := gs_base st in
  let '((_, err), s) := AbandonGroup (gb_dialect b) QDB (gb_table b) (GroupStore.clm_key claim)
                          (gs_lockedBy st) (GroupStore.clm_epoch claim) s in
  match err with
  | Some err => let '(err, s) := classifyQueryErr b err s in (Some err, s)
  | None => (None, s)
  end.

Fixpoint decode_all (rows : list GroupRows) : error + list GroupStore.MessageGroup :=
  match rows with
  | [] => inr []
  | r :: rows => let? g := decodeGroupRows r in let? gs := decode_all rows in inr (g :: gs)
  end.

Definition Store_Expired (st : GroupStore) (before : Z) (s : session)
    : (list GroupStore.MessageGroup * option error) * session :=
  let b := gs_base st in
  let '((rows, err), s) := ExpiredGroups (gb_dialect b) QDB (gb_table b) before (gs_leaseTTL st)
                             defaultExpiredGroupsLimit s in
  match err with
  | Some err => let '(err, s) := classifyQueryErr b err s in (([], Some err), s)
  | None =>
      match decode_all rows with
      | inl err => (([], Some err), s)
      | inr out => ((out, None), s)
      end
  end.

Definition Store_RecoverInterval (st : GroupStore) : Z := gs_leaseTTL st.
Definition Store_EmitsLiveValue (st : GroupStore) : bool := false.
End store.

(** ** What the code relies on of encoding/json and of the RFC 3339 layout *)

(** What a marshalled value is read back as: a string is the same string, an
    integer a float64, exact up to 2^53. *)
Definition json_back `{Json} (v v' : any) : Prop :=
  match v with
  | AString t => json_text t → v' = AString t
  | AInt n => Z.abs n ≤ 2^53 → ∃ f, v' = AFloat64 f ∧ f64_trunc f = Some n
  | _ => True
  end.

Class JsonLaws `{Json} : Prop := {
  (** An object is written as at least two bytes, and its keys and values are
      read back. *)
  json_roundtrip m b :
    json_Marshal m = inr b → (∀ k, is_Some (m !! k) → json_text k) →
    b ≠ [] ∧ ∃ m', json_Unmarshal b = inr (Some m') ∧
      ∀ k, match m !! k, m' !! k with
           | Some v, Some v' => json_back v v'
           | None, None => True
           | _, _ => False
           end;
  rfc3339_roundtrip t :
    rfc3339_instant t →
    Parse_RFC3339Nano (Format_RFC3339Nano t) = Some t ∧ json_text (Format_RFC3339Nano t)
}.

Section headers.
Context `{JsonLaws}.

(** What a reader of a group gets for a header of the message added: the three
    integer headers and the timestamp as they were, strings as they were, and
    any header under its own key only. *)
Definition header_back (h h' : Headers) : Prop :=
  (∀ k, is_Some (Headers_Get h' k) ↔ is_Some (Headers_Get h k)) ∧
  (∀ k t, Headers_Get h k = Some (AString t) → k ≠ HeaderTimestamp → json_text t →
     Headers_Get h' k = Some (AString t)) ∧
  (∀ t, Headers_Get h HeaderTimestamp = Some (ATime t) → rfc3339_instant t →
     Headers_Get h' HeaderTimestamp = Some (ATime t)) ∧
  (∀ k n, Headers_Get h k = Some (AInt n) → Z.abs n ≤ 2^53 →
     k = HeaderDeliveryCount ∨ k = HeaderSequenceNumber ∨ k = HeaderSequenceSize →
     Headers_Get h' k = Some (AInt n)).

Definition text_keys (h : Headers) : Prop := ∀ k, is_Some (Headers_Get h k) → json_text k.

Lemma get_default (h : Headers) k : default ∅ (hm h) !! k = Headers_Get h k.
Proof. unfold Headers_Get, gomap_get. destruct (hm h); cbn; [done|]. apply lookup_empty. Qed.

Lemma unframe_string k t : k ≠ HeaderTimestamp → unframe_value k (AString t) = AString t.
Proof. intros Hk. unfold unframe_value. rewrite bool_decide_eq_false_2 by done. by destruct (_ || _). Qed.

Lemma headers_framed h b :
  text_keys h → EncodeHeaders h = inr b →
  ∃ h', DecodeHeaders b = inr h' ∧ header_back h h'.
Proof.
  intros Hkeys. unfold EncodeHeaders.
  set (m := map_imap (λ k v, Some (frame_value k v)) (default ∅ (hm h))).
  assert (∀ k, m !! k = frame_value k <$> Headers_Get h k) as Hm.
  { intros k. unfold m. rewrite map_lookup_imap, get_default. by destruct (Headers_Get h k). }
  destruct (json_Marshal m) as [err|b'] eqn:Hb; intros [= <-].
  destruct (json_roundtrip m b' Hb) as (Hne & m' & Hu & Hback).
  { intros k. rewrite Hm, fmap_is_Some. apply Hkeys. }
  unfold DecodeHeaders. destruct b' as [|c b']; [done|]. rewrite Hu. eexists. split; [done|].
  assert (∀ k, Headers_Get (NewHeaders (option_map (map_imap (λ k v, Some (unframe_value k v))) (Some m'))) k
            = unframe_value k <$> m' !! k) as Hg.
  { intros k. unfold Headers_Get, gomap_get, NewHeaders, maps_Clone. cbn.
    rewrite map_lookup_imap. by destruct (m' !! k). }
  assert (∀ k v, Headers_Get h k = Some v → ∃ v', m' !! k = Some v' ∧ json_back (frame_value k v) v') as Hb'.
  { intros k v Hk. specialize (Hback k). rewrite Hm, Hk in Hback. cbn in Hback.
    destruct (m' !! k) as [v'|]; [by exists v'|done]. }
  split; [|split; [|split]].
  - intros k. rewrite Hg, fmap_is_Some. specialize (Hback k). rewrite Hm in Hback.
    destruct (Headers_Get h k), (m' !! k); cbn in Hback; naive_solver.
  - intros k t Hk Hts Htx. destruct (Hb' k _ Hk) as (v' & Hv' & Hj). rewrite Hg, Hv'. cbn.
    unfold frame_value in Hj. rewrite bool_decide_eq_false_2 in Hj by done. cbn in Hj.
    rewrite (Hj Htx). by rewrite unframe_string.
  - intros t Hk Hi. destruct (Hb' _ _ Hk) as (v' & Hv' & Hj). rewrite Hg, Hv'. cbn [fmap option_fmap option_map].
    unfold frame_value in Hj. rewrite bool_decide_eq_true_2 in Hj by done. cbn in Hj.
    destruct (rfc3339_roundtrip t Hi) as [Hp Htx]. rewrite (Hj Htx). unfold unframe_value.
    rewrite bool_decide_eq_true_2 by done. by rewrite Hp.
  - intros k n Hk Hn Hres. destruct (Hb' k _ Hk) as (v' & Hv' & Hj). rewrite Hg, Hv'. cbn [fmap option_fmap option_map].
    assert (k ≠ HeaderTimestamp) as Hts by (destruct Hres as [->|[->| ->]]; discriminate).
    unfold frame_value in Hj. rewrite bool_decide_eq_false_2 in Hj by done.
    destruct (Hj Hn) as (f & -> & Hf). unfold unframe_value. rewrite bool_decide_eq_false_2 by done.
    assert (bool_decide (k = HeaderDeliveryCount) || bool_decide (k = HeaderSequenceNumber)
            || bool_decide (k = HeaderSequenceSize) = true) as ->.
    { destruct Hres as [->|[->| ->]]; vm_compute; reflexivity. }
    unfold f64_to_int64. rewrite Hf. unfold MinInt64, MaxInt64.
    by replace ((- 2 ^ 63 <=? n) && (n <=? 2 ^ 63 - 1)) with true by lia.
Qed.
End headers.

(** ** The store over a built-in dialect *)

(** A store [NewGroupStore] accepted. *)
Definition built `{Collation} (st : GroupStore) (site table : string) : Prop :=
  ∃ d random opts, (d, site) ∈ builtin_dialects ∧
    NewGroupStore random true table (Some d) opts = inr st.

Lemma built_ok `{Collation} st site table :
  built st site table →
  ∃ d, (d, site) ∈ builtin_dialects ∧ gs_base st = mkGroupBase table d ∧
    ValidateIdent table = None ∧ 0 < gs_leaseTTL st ∧
    1 ≤ gs_maxGroupMembers st ≤ maxGroupMembersCeiling.
Proof.
  intros (d & random & opts & Hd & Hn). exists d. split; [done|]. revert Hn. unfold NewGroupStore.
  destruct (apply_opts _ _) as [|cfg]; [done|]. unfold newGroupBase. cbn [negb].
  destruct (ValidateIdent table) as [|] eqn:Hv; [done|]. cbn [sum_bind].
  intros (ttl & Ht & Hn)%sum_bind_inr.
  destruct (checkRange _ _ _ _ _) eqn:Hc; [done|]. apply checkRange_ok in Hc. injection Hn as <-.
  cbn. split; [done|]. split; [done|]. split; [|done]. revert Ht.
  destruct (gc_leaseTTLSet cfg); [|by intros [= <-]]. destruct (_ <=? 0) eqn:E; [done|].
  intros [= <-]. lia.
Qed.

Lemma validated site m : 1 ≤ m ≤ maxGroupMembersCeiling → ValidateMaxMembers site m = None.
Proof. intros Hm. destruct (ValidateMaxMembers_cases site m) as [[? _]|(_ & _ & ?)]; [done|lia]. Qed.

(** While the group table is there the probe changes no error. *)
Lemma classify_present b err s :
  (∀ q, SchemaExists (gb_dialect b) q (gb_table b) s = schema_exists (gb_table b) s) →
  ValidateIdent (gb_table b) = None → is_Some (s_db s !! gb_table b) →
  (classifyQueryErr b err s).1 = err ∧ s_db (classifyQueryErr b err s).2 = s_db s.
Proof.
  intros Hl Hv Hp. unfold classifyQueryErr. rewrite Hl. unfold schema_exists. rewrite Hv.
  unfold go_return, mbind, Sq_bind, select_schema, stmt. destruct (tk_fault _); [done|].
  cbn. by rewrite bool_decide_eq_true_2.
Qed.

Section decode.
Context `{Json}.

Definition decoded (m : MemberRow) (x : msg) : Prop :=
  ∃ h, DecodeHeaders (mr_Headers m) = inr h ∧ x = NewMessage (ABytes (mr_Payload m)) h.

(** Every stored header blob can be decoded. *)
Definition rows_framed (T : tables) : Prop :=
  ∀ k row, t_members T !! k = Some row → ∃ h, DecodeHeaders (mem_headers row) = inr h.

Lemma decodeMembers_ok ms :
  (∀ m, m ∈ ms → ∃ h, DecodeHeaders (mr_Headers m) = inr h) →
  ∃ xs, decodeMembers ms = inr xs ∧ Forall2 decoded ms xs.
Proof.
  induction ms as [|m ms IH]; intros Hm; cbn; [by exists []|].
  destruct (Hm m) as [h Hh]; [by left|]. unfold decodeMember. rewrite Hh. cbn.
  destruct IH as (xs & -> & Hxs); [intros; apply Hm; by right|]. cbn.
  eexists. split; [done|]. constructor; [by exists h|done].
Qed.

Lemma decodeGroupRows_ok rows :
  (∀ m, m ∈ Members rows → ∃ h, DecodeHeaders (mr_Headers m) = inr h) →
  ∃ g, decodeGroupRows rows = inr g ∧ GroupStore.grp_key g = GroupKey rows ∧
    GroupStore.grp_createdAt g = CreatedAt rows ∧
    Forall2 decoded (Members rows) (GroupStore.grp_messages g).
Proof.
  intros Hm. destruct (decodeMembers_ok (Members rows) Hm) as (xs & Hx & Hf).
  unfold decodeGroupRows. rewrite Hx. cbn. eexists. by split.
Qed.

Lemma select_framed `{Collation} key p T m :
  rows_framed T → m ∈ select_rows key p (t_members T) →
  ∃ h, DecodeHeaders (mr_Headers m) = inr h.
Proof. intros HT (row & Hl & _ & ->)%elem_of_select. by eapply HT. Qed.
End decode.

Section store_theorems.
Context `{Collation} `{JsonLaws}.

(** The message of a row, out of a decoded group. *)
Lemma decoded_member ms xs id seq hb pl h :
  Forall2 decoded ms xs → mkMember id seq hb pl ∈ ms → DecodeHeaders hb = inr h →
  NewMessage (ABytes pl) h ∈ xs.
Proof.
  intros Hf Hin Hd. induction Hf as [|m x ms xs (h' & Hh & Hx) Hf IH]; [by apply not_elem_of_nil in Hin|].
  rewrite elem_of_cons. apply elem_of_cons in Hin as [<-|Hin]; [left; cbn in *; congruence|right; by apply IH].
Qed.

Lemma encoded_decodes h b : text_keys h → EncodeHeaders h = inr b → ∃ h', DecodeHeaders b = inr h'.
Proof. intros Hk Hb. destruct (headers_framed h b Hk Hb) as (h' & ? & _). by exists h'. Qed.

(** What [Store_Add] does once the guards are passed. *)
Lemma Store_Add_unfold st key m hb pl s :
  ID m ≠ "" → EncodeHeaders (msg_headers m) = inr hb → msg_payload m = ABytes pl →
  Store_Add st key m s =
  let b := gs_base st in
  let '((rows, err), s) := AddMember (gb_dialect b) QDB (gb_table b) key (ID m)
      (default 0 (Headers_Int (msg_headers m) HeaderSequenceNumber)) hb pl
      (gs_maxGroupMembers st) (gs_leaseTTL st) s in
  match err with
  | Some err =>
      let '(classified, s) := classifyQueryErr b err s in
      if negb (Is classified ErrOverflowDropped) then ((GroupStore.GNil, Some classified), s)
      else
        match decodeGroupRows rows with
        | inl _ => ((GroupStore.GNil, Some classified), s)
        | inr snap => ((GroupStore.GVal snap, Some classified), s)
        end
  | None =>
      match decodeGroupRows rows with
      | inl err => ((GroupStore.GVal (GroupStore.mkGroup "" [] 0), Some err), s)
      | inr snap => ((GroupStore.GVal snap, None), s)
      end
  end.
Proof.
  intros Hid He Hp. unfold Store_Add. rewrite bool_decide_eq_false_2 by done. rewrite He, Hp. cbn.
  by destruct (Headers_Int _ _).
Qed.

Lemma select_or_new key T id row m l :
  l ≡ₚ fetched id row :: select_rows key unclaimed (t_members T) → m ∈ l →
  m = fetched id row ∨ m ∈ select_rows key unclaimed (t_members T).
Proof. intros ->. by rewrite elem_of_cons. Qed.

(** A store's claim of an unleased group whose rows decode. *)
Lemma store_claim_hands_out st d site table s T cap key r :
  (d, site) ∈ builtin_dialects → gs_base st = mkGroupBase table d → ValidateIdent table = None →
  has_tables table (s_db s) T → wf_tables cap T → rows_framed T → healthy s →
  t_groups T !! key = Some r → locked_by r = None → epoch r < MaxInt64 →
  ∃ c, (Store_ClaimGroup st key s).1 = (Some c, None) ∧
    ∀ id row h, t_members T !! (key, id) = Some row → DecodeHeaders (mem_headers row) = inr h →
      NewMessage (ABytes (mem_payload row)) h ∈ GroupStore.clm_messages c.
Proof.
  intros Hd Hb Hv HT Hw HF Hs Hr Hlb Hep. pose proof (builtin_laws d site Hd) as Hl.
  destruct (ClaimGroup_law (site := site) table s T key (gs_lockedBy st) (gs_leaseTTL st) Hv HT)
    as (n & _ & Ho).
  unfold Store_ClaimGroup. rewrite Hb. cbn [gb_dialect gb_table].
  destruct (ClaimGroup d QDB _ _ _ _ s) as [[cg err] s3]. apply healthy_outcome in Ho as [Hc _]; [|done].
  cbn [fst snd] in Hc.
  destruct (spec_claim n T key (gs_lockedBy st) (Microseconds (gs_leaseTTL st))) as [[cg' err'] T2] eqn:Hsp.
  injection Hc as -> ->. assert (∃ c, cg' = Some c ∧ err' = None) as (c & -> & ->).
  { unfold spec_claim, stealable in Hsp. rewrite Hr, Hlb in Hsp.
    replace (MaxInt64 <=? epoch r) with false in Hsp by lia. injection Hsp as <- <- _. by eexists. }
  pose proof (claim_fetched cap n T key _ _ c T2 Hw Hsp) as Hall.
  destruct (decodeGroupRows_ok (cg_GroupRows c)) as (g & Hg & _ & _ & Hf).
  { intros x (row & Hrow & ->)%Hall. by apply (HF _ _ Hrow). }
  rewrite Hg. cbn [fst]. eexists. split; [done|]. intros id row h Hrow Hh.
  unfold GroupStore.clm_messages. cbn [GroupStore.clm_group].
  eapply (decoded_member (Members (cg_GroupRows c)) _ id (mem_seq row)); [done| |done].
  apply Hall. by exists row.
Qed.

(** C33. A message with an id and a []byte payload, added to a group with room, is
    in the group the store answers with: with its payload, and with its headers
    as far as JSON carries them, the timestamp and the three integer headers
    included.  What is stored stays decodable; and if the group is unleased, the
    claim a store makes next hands the same message out. *)
Theorem sql_store_roundtrip st site table s T cap key m pl hb :
  built st site table → has_tables table (s_db s) T → wf_tables cap T → rows_framed T → healthy s →
  ID m ≠ "" → msg_payload m = ABytes pl → EncodeHeaders (msg_headers m) = inr hb →
  text_keys (msg_headers m) →
  t_members T !! (key, ID m) = None → count_rows key (t_members T) < gs_maxGroupMembers st →
  gs_maxGroupMembers st ≤ cap →
  let '((g, err), s1) := Store_Add st key m s in
  let carries x := msg_payload x = ABytes pl ∧ header_back (msg_headers m) (msg_headers x) in
  err = None ∧
  (∃ grp x, g = GroupStore.GVal grp ∧ GroupStore.grp_key grp = key ∧
     x ∈ GroupStore.grp_messages grp ∧ carries x) ∧
  (∃ T1, has_tables table (s_db s1) T1 ∧ rows_framed T1) ∧
  ((∀ r, t_groups T !! key = Some r → locked_by r = None ∧ epoch r < MaxInt64) →
   ∀ o2, (∀ i, tk_fault (o2 i) = None) →
   ∃ c x, (Store_ClaimGroup st key (mkSession (s_db s1) o2 0)).1 = (Some c, None) ∧
     x ∈ GroupStore.clm_messages c ∧ carries x).
Proof.
  intros Hst HT Hw HF Hs Hid Hpl Hhb Hkeys Hnew Hroom Hcap.
  destruct (built_ok st site table Hst) as (d & Hd & Hb & Hv & _ & Hmax).
  pose proof (builtin_laws d site Hd) as Hl.
  destruct (headers_framed _ _ Hkeys Hhb) as (h' & Hh' & Hback).
  rewrite (Store_Add_unfold st key m hb pl s Hid Hhb Hpl). rewrite Hb. cbn [gb_dialect gb_table].
  set (seq := default 0 _). set (row := mkMemberRow seq hb pl None).
  pose proof (add_member_exact d site table s T cap key (ID m) seq hb pl _ (gs_leaseTTL st)
    Hd Hv HT Hw Hid (validated site _ Hmax) Hs) as Hx. cbn zeta in Hx |- *.
  destruct (AddMember d QDB _ _ _ _ _ _ _ _ s) as [[rows err] s1].
  destruct Hx as (n1 & n2 & T1 & _ & _ & Hdb1 & Hk & _ & _ & Hx). rewrite Hnew in Hx.
  assert (has_tables table (s_db s1) T1) as HT1 by (rewrite Hdb1; apply has_with_contents).
  rewrite decide_True in Hx by auto. destruct Hx as (-> & Hperm & HT1eq).
  change (mkMember (ID m) seq hb pl) with (fetched (ID m) row) in Hperm.
  assert (∀ x, x ∈ Members rows → ∃ h, DecodeHeaders (mr_Headers x) = inr h) as Hdec.
  { intros x Hin. destruct (select_or_new _ _ _ _ _ _ Hperm Hin) as [->|Hin']; [by exists h'|].
    by eapply select_framed. }
  destruct (decodeGroupRows_ok rows Hdec) as (g & -> & Hgk & _ & Hf).
  assert (rows_framed T1) as HF1.
  { subst T1. intros k row'. cbn [t_members]. intros [[<- <-]|[_ Hl']]%lookup_insert_Some; [by exists h'|by eapply HF]. }
  split; [done|]. split; [|split; [by exists T1|]].
  { exists g, (NewMessage (ABytes pl) h'). split; [done|]. split; [congruence|]. split; [|done].
    eapply (decoded_member (Members rows) _ (ID m) seq hb pl); [done| |done].
    rewrite Hperm, elem_of_cons. by left. }
  intros Hfree o2 Ho2. set (s2 := mkSession (s_db s1) o2 0).
  assert (wf_tables cap T1) as Hw1.
  { pose proof (wf_spec_add cap site n1 n2 T key (ID m) row (gs_maxGroupMembers st) 0 Hw Hid eq_refl) as Hwa.
    unfold spec_add in Hwa. rewrite Hnew, count_rows_insert in Hwa by done.
    replace (gs_maxGroupMembers st <? count_rows key (t_members T) + 1) with false in Hwa by lia.
    rewrite andb_false_r in Hwa. subst T1. apply Hwa; [unfold UnboundedGroupMembers; lia|done]. }
  destruct (store_claim_hands_out st d site table s2 T1 cap key (opened n1 key T)) as (c & Hc & Hall);
    [done..|by subst T1; apply lookup_insert_eq| | |].
  { unfold opened. destruct (t_groups T !! key) as [r|]; cbn; [by apply Hfree|done]. }
  { unfold opened. destruct (t_groups T !! key) as [r|]; cbn; [by apply Hfree|done]. }
  exists c, (NewMessage (ABytes pl) h'). split; [done|]. split; [|done].
  apply (Hall (ID m) row h'); [by subst T1; apply lookup_insert_eq|done].
Qed.

(** While the group table does not exist every operation of a store on a
    healthy server answers that the schema is not ready, with no group, claim or
    list beside the error, and changes nothing; a message it could not have
    stored anyway is refused before any statement. *)
Theorem sql_store_schema_not_ready st site table s key m pl hb claim before :
  built st site table → s_db s !! table = None → healthy s →
  ID m ≠ "" → msg_payload m = ABytes pl → EncodeHeaders (msg_headers m) = inr hb →
  let e := schemaNotReady (gs_base st) in
  Is e ErrSchemaNotReady = true ∧
  (let '(r, s') := Store_Add st key m s in r = (GroupStore.GNil, Some e) ∧ s_db s' = s_db s) ∧
  (let '(r, s') := Store_ClaimGroup st key s in r = (None, Some e) ∧ s_db s' = s_db s) ∧
  (let '(r, s') := Store_SettleGroup st claim s in r = Some e ∧ s_db s' = s_db s) ∧
  (let '(r, s') := Store_AbandonGroup st claim s in r = Some e ∧ s_db s' = s_db s) ∧
  (let '(r, s') := Store_Expired st before s in r = ([], Some e) ∧ s_db s' = s_db s) ∧
  Store_Add st key (WithHeader m HeaderMessageID (AString "")) s =
    ((GroupStore.GNil, Some (Sentinel ErrMissingMsgID)), s).
Proof.
  intros Hst Hn Hs Hid Hpl Hhb e.
  destruct (built_ok st site table Hst) as (d & Hd & Hb & Hv & _ & Hmax).
  pose proof (builtin_laws d site Hd) as Hl.
  destruct (missing_table (site := site) table s Hv Hn) as (Ha & Hc & Hse & Hab & Hex).
  assert (∀ err s', s_db s' = s_db s → s_ticks s' = s_ticks s →
    classifyQueryErr (gs_base st) err s' = (e, mkSession (s_db s) (s_ticks s) (S (s_pos s')))) as Hcl.
  { intros err s' Hdb Ht. unfold classifyQueryErr, e. rewrite Hb. cbn [gb_dialect gb_table].
    rewrite (SchemaExists_law (site := site)). unfold schema_exists. rewrite Hv.
    unfold go_return, mbind, Sq_bind, select_schema, stmt. rewrite Ht, Hdb, Hs, Hn. done. }
  assert (gb_dialect (gs_base st) = d) as Ed by by rewrite Hb.
  assert (gb_table (gs_base st) = table) as Et by by rewrite Hb.
  split; [done|]. split; [|split; [|split; [|split; [|split]]]].
  - rewrite (Store_Add_unfold st key m hb pl s Hid Hhb Hpl). cbn zeta. rewrite Ed, Et.
    destruct (Ha key (ID m) (default 0 (Headers_Int (msg_headers m) HeaderSequenceNumber)) hb pl
      (gs_maxGroupMembers st) (gs_leaseTTL st) Hid (validated site _ Hmax)) as (err & s' & -> & Hdb & Ht).
    by rewrite Hcl.
  - unfold Store_ClaimGroup. rewrite Ed, Et.
    destruct (Hc key (gs_lockedBy st) (gs_leaseTTL st)) as (err & s' & -> & Hdb & Ht). by rewrite Hcl.
  - unfold Store_SettleGroup. rewrite Ed, Et.
    destruct (Hse (GroupStore.clm_key claim) (gs_lockedBy st) (GroupStore.clm_epoch claim))
      as (err & s' & -> & Hdb & Ht). by rewrite Hcl.
  - unfold Store_AbandonGroup. rewrite Ed, Et.
    destruct (Hab (GroupStore.clm_key claim) (gs_lockedBy st) (GroupStore.clm_epoch claim))
      as (err & s' & -> & Hdb & Ht). by rewrite Hcl.
  - unfold Store_Expired. rewrite Ed, Et.
    destruct (Hex before (gs_leaseTTL st) defaultExpiredGroupsLimit) as (err & s' & -> & Hdb & Ht).
    by rewrite Hcl.
  - unfold Store_Add. rewrite bool_decide_eq_true_2; [done|].
    apply ID_Header. rewrite Header_WithHeader. by rewrite decide_True.
Qed.

(** A message over the group's cap is refused with the overflow, permanent
    exactly when no live lease will drain the group, and beside the error comes
    the group as it stays stored, its live members decoded: what the aggregator
    needs to look at a full group again.  Nothing is stored. *)
Theorem sql_store_overflow st site table s T cap key m pl hb :
  built st site table → has_tables table (s_db s) T → wf_tables cap T → rows_framed T → healthy s →
  ID m ≠ "" → msg_payload m = ABytes pl → EncodeHeaders (msg_headers m) = inr hb →
  t_members T !! (key, ID m) = None → gs_maxGroupMembers st ≤ count_rows key (t_members T) →
  let '((g, err), s1) := Store_Add st key m s in
  ∃ grp e n1 n2 rows, g = GroupStore.GVal grp ∧ err = Some e ∧ s_db s1 = s_db s ∧
    Is e ErrOverflowDropped = true ∧ reads s n1 ∧ reads s n2 ∧
    IsPermanent err = negb (lease_live n2 (Microseconds (gs_leaseTTL st)) (opened n1 key T)) ∧
    GroupStore.grp_key grp = key ∧
    rows ≡ₚ select_rows key unclaimed (t_members T) ∧ StronglySorted member_le rows ∧
    Forall2 decoded rows (GroupStore.grp_messages grp).
Proof.
  intros Hst HT Hw HF Hs Hid Hpl Hhb Hnew Hfull.
  destruct (built_ok st site table Hst) as (d & Hd & Hb & Hv & _ & Hmax).
  pose proof (builtin_laws d site Hd) as Hl.
  assert (gb_dialect (gs_base st) = d) as Ed by by rewrite Hb.
  assert (gb_table (gs_base st) = table) as Et by by rewrite Hb.
  rewrite (Store_Add_unfold st key m hb pl s Hid Hhb Hpl). cbn zeta. rewrite Ed, Et.
  set (seq := default 0 _).
  pose proof (add_member_exact d site table s T cap key (ID m) seq hb pl _ (gs_leaseTTL st)
    Hd Hv HT Hw Hid (validated site _ Hmax) Hs) as Hx. cbn zeta in Hx.
  destruct (AddMember d QDB _ _ _ _ _ _ _ _ s) as [[rows err] s1].
  destruct Hx as (n1 & n2 & T1 & Hn1 & Hn2 & Hdb1 & Hk & _ & Hso & Hx). rewrite Hnew in Hx.
  rewrite decide_False in Hx by (unfold UnboundedGroupMembers; lia).
  destruct Hx as (-> & Hperm & e & -> & Hov & Hpe). rewrite with_contents_id in Hdb1 by done.
  destruct (classify_present (gs_base st) e s1) as [Hce Hcs];
    [by rewrite Ed; apply (SchemaExists_law (site := site))|by rewrite Et| |].
  { rewrite Et, Hdb1, (proj1 HT). done. }
  destruct (classifyQueryErr (gs_base st) e s1) as [e' s2]. cbn [fst snd] in Hce, Hcs. subst e'.
  rewrite Hov. cbn [negb].
  destruct (decodeGroupRows_ok rows) as (g & -> & Hgk & _ & Hf).
  { intros x Hin. rewrite Hperm in Hin. by eapply select_framed. }
  exists g, e, n1, n2, (Members rows). split_and!; try done; congruence.
Qed.
End store_theorems.

(** ** Concrete inputs *)

(** The JSON of one header map: an id, and a sequence number that comes back as
    the float64 one. *)
Definition demo_headers : gmap string any :=
  <[HeaderMessageID := AString "m1"]> {[HeaderSequenceNumber := AInt 1]}.
Definition demo_read : gmap string any :=
  <[HeaderMessageID := AString "m1"]> {[HeaderSequenceNumber := AFloat64 (S754_finite false 1 0)]}.
Definition demo_json : Json := {|
  json_Marshal m := if decide (m = demo_headers) then inr ["{"; "}"]%char else inl (Opaque "unsupported");
  json_Unmarshal b := if decide (b = ["{"; "}"]%char) then inr (Some demo_read) else inl (Opaque "invalid");
  Format_RFC3339Nano _ := "";
  Parse_RFC3339Nano _ := None;
  float_to_int _ := 0;
  json_text _ := True;
  rfc3339_instant _ := False
|}.

Lemma demo_json_laws : @JsonLaws demo_json.
Proof.
  split; [|by intros t []].
  intros m b Hm _. cbn [json_Marshal demo_json] in Hm. case_decide as E; [|done]. injection Hm as <-. split; [done|].
  exists demo_read. split; [reflexivity|]. intros k. subst m.
  destruct (decide (k = HeaderMessageID)) as [->|H1]; [vm_compute; by intros _|].
  destruct (decide (k = HeaderSequenceNumber)) as [->|H2]; [vm_compute; intros _; by eexists|].
  assert (∀ v w : any, (<[HeaderMessageID := v]> {[HeaderSequenceNumber := w]} : gmap string any) !! k = None)
    as Hn.
  { intros v w. rewrite lookup_insert_ne by done. by apply lookup_singleton_None. }
  unfold demo_headers, demo_read. by rewrite !Hn.
Qed.

Definition demo_msg : msg := mkMessage (ABytes []) (mkHeaders (Some demo_headers)).
Definition demo_store : GroupStore :=
  mkGroupStore (mkGroupBase "g" (@sqliteGroupDialect byte_collation)) defaultGroupLeaseTTL "a" 1.

Lemma demo_built : @built byte_collation demo_store sqlite_groupOverflowSite "g".
Proof.
  exists (@sqliteGroupDialect byte_collation), [], [Some (WithGroupLockedBy "a"); Some (WithMaxGroupMembers 1)].
  split; [by right; right; left|reflexivity].
Qed.

Lemma demo_encoded :
  @EncodeHeaders demo_json (msg_headers demo_msg) = inr ["{"; "}"]%char.
Proof. by vm_compute. Qed.

Lemma empty_framed `{Json} : rows_framed (mkTables ∅ ∅).
Proof. intros k row. cbn [t_members]. by rewrite lookup_empty. Qed.

Lemma sql_store_roundtrip_witness :
  has_tables "g" demo_db (mkTables ∅ ∅) ∧
  (@Store_Add demo_json demo_store "k" demo_msg (calm_session demo_db 10)).1.2 = None.
Proof.
  assert (has_tables "g" (s_db (calm_session demo_db 10)) (mkTables ∅ ∅)) as HT by (split; reflexivity).
  split; [exact HT|].
  pose proof (@sql_store_roundtrip byte_collation demo_json demo_json_laws demo_store
    sqlite_groupOverflowSite "g" (calm_session demo_db 10) (mkTables ∅ ∅) 1 "k" demo_msg [] ["{"; "}"]%char
    demo_built HT (wf_empty 1 ltac:(lia)) empty_framed (calm_healthy demo_db 10)
    ltac:(discriminate) eq_refl demo_encoded ltac:(intros k _; exact I) eq_refl ltac:(reflexivity)
    ltac:(discriminate)) as Hx.
  destruct (Store_Add _ _ _ _) as [[g err] s1]. exact (proj1 Hx).
Defined.

Lemma sql_store_schema_not_ready_witness :
  (∅ : database) !! "g" = None ∧
  (@Store_Add demo_json demo_store "k" demo_msg (calm_session ∅ 10)).1 =
    (GroupStore.GNil, Some (schemaNotReady (gs_base demo_store))).
Proof.
  split; [reflexivity|].
  pose proof (@sql_store_schema_not_ready byte_collation demo_json demo_store
    sqlite_groupOverflowSite "g" (calm_session ∅ 10) "k" demo_msg [] ["{"; "}"]%char
    (GroupStore.mkClaim (GroupStore.mkGroup "k" [] 0) 1) 0 demo_built eq_refl (calm_healthy ∅ 10)
    ltac:(discriminate) eq_refl demo_encoded) as Hx.
  destruct Hx as (_ & Hx & _). destruct (Store_Add _ _ _ _) as [r s']. exact (proj1 Hx).
Defined.

(** A group of one member, which is the cap. *)
Definition demo_full : tables :=
  mkTables {["k" := mkGroupRow 5 0 None None]} {[("k", "m0") := mkMemberRow 1 ["{"; "}"]%char [] None]}.
Definition demo_full_db : database :=
  <["g_member" := RMember (t_members demo_full)]> (<["g" := RGroup (t_groups demo_full)]> ∅).

Lemma demo_full_wf : wf_tables 1 demo_full.
Proof.
  unfold demo_full. split; cbn [t_groups t_members].
  - intros key r [<- <-]%lookup_singleton_Some. split; [done|by split; intros []|].
    cbn [t_members]. intros id row [_ <-]%lookup_singleton_Some. by left.
  - intros key id row [[= <- <-] <-]%lookup_singleton_Some. done.
  - intros key. destruct (decide (key = "k")) as [->|Hne]; [by vm_compute|].
    match goal with |- ?c ≤ 1 => destruct (Z.le_gt_cases c 0) as [|Hp]; [lia|] end.
    apply count_rows_pos in Hp as (id & row & [[= ? ?] _]%lookup_singleton_Some). congruence.
Qed.

Lemma demo_full_framed : @rows_framed demo_json demo_full.
Proof.
  intros k row. cbn [t_members demo_full]. intros [_ <-]%lookup_singleton_Some. by eexists.
Qed.

Lemma sql_store_overflow_witness :
  has_tables "g" demo_full_db demo_full ∧
  IsOpt (@Store_Add demo_json demo_store "k" demo_msg (calm_session demo_full_db 10)).1.2
    ErrOverflowDropped = true.
Proof.
  assert (has_tables "g" (s_db (calm_session demo_full_db 10)) demo_full) as HT by (split; reflexivity).
  split; [exact HT|].
  pose proof (@sql_store_overflow byte_collation demo_json demo_store
    sqlite_groupOverflowSite "g" (calm_session demo_full_db 10) demo_full 1 "k" demo_msg [] ["{"; "}"]%char
    demo_built HT demo_full_wf demo_full_framed (calm_healthy demo_full_db 10)
    ltac:(discriminate) eq_refl demo_encoded eq_refl ltac:(vm_compute; discriminate)) as Hx.
  destruct (Store_Add _ _ _ _) as [[g err] s1].
  destruct Hx as (grp & e & n1 & n2 & rows & _ & He & _ & Hov & _). cbn [fst snd]. rewrite He. exact Hov.
Defined.

(** A lease of less than a microsecond is none: the dialects pass it to the
    server in whole microseconds, and two stores in a row claim the group. *)
Theorem submicrosecond_lease :
  ∃ st st' s1,
    NewGroupStore [] true "g" (Some (@sqliteGroupDialect byte_collation))
      [Some (WithGroupLeaseTTL 500); Some (WithGroupLockedBy "a")] = inr st ∧
    NewGroupStore [] true "g" (Some (@sqliteGroupDialect byte_collation))
      [Some (WithGroupLeaseTTL 500); Some (WithGroupLockedBy "b")] = inr st' ∧
    is_Some (@Store_ClaimGroup demo_json st "k" (calm_session demo_full_db 10)).1.1 ∧
    s1 = (@Store_ClaimGroup demo_json st "k" (calm_session demo_full_db 10)).2 ∧
    is_Some (@Store_ClaimGroup demo_json st' "k" s1).1.1.
Proof.
  eexists _, _, _. split; [reflexivity|]. split; [reflexivity|].
  split; [vm_compute; by eexists|]. split; [reflexivity|]. vm_compute. by eexists.
Qed.
