(* ===== verification/SqlQueue.v ===== *)
(** * The SQL queue dialects

    [adapter/database/sql/dialect.go] and [lock.go] (the SPIs [LeaseDialect] and
    [LockDialect]) and their implementations [postgres/dialect.go],
    [mysql/dialect.go] and [sqlite/dialect.go]; the inbox methods of the same
    files are in [SqlInbox].

    A statement outside a transaction commits by itself: when its answer is lost
    it may still have taken effect.  The lock strategy keeps a transaction open
    from the claim to the settlement; the row it holds is skipped by other
    claims ([SKIP LOCKED]) until the transaction ends, or its connection is lost
    ([release_locks]).  A method's statements run without other statements between
    them: a claim's rows are locked from its first statement to its last, and
    the other methods issue one statement that touches the table. *)

From stdpp Require Import sorting.
From S2P Require Import Prelude Message SqlEngine SqlGroup.
Local Open Scope Z_scope.

(** ** What the engines leave open *)

(** The order in which a statement meets rows that SQL does not order. *)
Class Planner : Type := {
  plan : ∀ {A}, list A → list A;
  plan_perm : ∀ A (l : list A), plan l ≡ₚ l
}.
Definition scan_order : Planner := {| plan := λ A l, l; plan_perm := λ A l, reflexivity l |}.

(** What a JSON column gives back for the text written to it; postgres and mysql
    normalise it, and refuse what is not JSON to them. *)
Class JsonColumn : Type := { json_column : engine → bytes → error + bytes }.

(** ** Statements *)

Definition advance (s : session) (db : database) : session :=
  mkSession db (s_ticks s) (S (s_pos s)).

(** A statement on the pool, which commits with it. *)
Definition auto_stmt {A} (f : Z → database → error + (A * database)) : Sq A := λ s,
  let t := s_ticks s (s_pos s) in
  match f (tk_now t) (s_db s) with
  | inl err => (inl (default err (tk_fault t)), advance s (s_db s))
  | inr (a, db) =>
      match tk_fault t with
      | Some err => (inl err, advance s (if tk_applied t then db else s_db s))
      | None => (inr a, advance s db)
      end
  end.

(** The clock of a statement in a transaction: postgres reads the start. *)
Definition tx_clock (e : engine) (tx : Tx) : option Z :=
  match e with Postgres => Some (tx_start tx) | _ => None end.

Definition exec {A} (e : engine) (q : Querier) (f : Z → database → error + (A * database)) : Sq A :=
  match q with
  | QDB => auto_stmt f
  | QTx tx => stmt (tx_clock e tx) f
  | QOther _ => stmt None f
  end.

Definition on_queue {A} (e : engine) (qt : string)
    (f : queue_table → error + (A * queue_table)) (db : database) : error + (A * database) :=
  match unquote (quote_char e) qt with
  | None => inl (Opaque "syntax error")
  | Some t =>
      match db !! t with
      | Some (RQueue Q) => let? r := f Q in inr (r.1, <[t := RQueue r.2]> db)
      | _ => inl undefined_table
      end
  end.

(** [m], its error handled by the caller. *)
Definition attempt {A} (m : Sq A) : Sq (error + A) := λ s,
  match m s with
  | (inl err, s') => (inr (inl err), s')
  | (inr a, s') => (inr (inr a), s')
  end.

(** *** Claims *)

(** [visible_after <= now AND (locked_at IS NULL OR locked_at <= now - ttl)] *)
Definition claimable (now ttl : Z) (r : queue_row) : bool :=
  (q_visible_after r <=? now) &&
  match q_locked_at r with None => true | Some a => a <=? now - ttl end.
(** [visible_after <= now AND locked_at IS NULL] *)
Definition lockable (now : Z) (r : queue_row) : bool :=
  (q_visible_after r <=? now) && bool_decide (q_locked_at r = None).

(** A row's key beside its [visible_after]. *)
Definition sooner (a b : Z * Z) : Prop := a.2 ≤ b.2.
#[export] Instance sooner_dec : RelDecision sooner.
Proof. intros a b. unfold sooner. apply _. Defined.
#[export] Instance sooner_trans : Transitive sooner.
Proof. intros a b c. unfold sooner. lia. Qed.
#[export] Instance sooner_total : Total sooner.
Proof. intros a b. unfold sooner. lia. Qed.

(** The rows of [WHERE p ... FOR UPDATE SKIP LOCKED]. *)
Definition candidates (p : queue_row → bool) (Q : queue_table) : list (Z * Z) :=
  omap (λ ir, if p ir.2 && bool_decide (q_locks Q !! ir.1 = None)
              then Some (ir.1, q_visible_after ir.2) else None) (map_to_list (q_rows Q)).

(** [LIMIT n]: sqlite takes a negative one for none, the others refuse it. *)
Definition limit_rows {A} (e : engine) (n : Z) (l : list A) : error + list A :=
  if n <? 0 then
    match e with SQLite => inr l | _ => inl (Opaque "LIMIT must not be negative") end
  else inr (take (Z.to_nat n) l).

(** The width of [delivery_count]. *)
Definition count_max (e : engine) : Z :=
  match e with SQLite => MaxInt64 | _ => 2^31 - 1 end.
Definition counters_fit (e : engine) (r : queue_row) : bool :=
  (q_delivery_count r <? count_max e) && (q_lease_epoch r <? MaxInt64).

(** [SET locked_by = by, locked_at = now, lease_epoch = lease_epoch + 1,
     delivery_count = delivery_count + 1] *)
Definition leased (now : Z) (by_ : string) (r : queue_row) : queue_row :=
  mkQueueRow (q_msg_id r) (q_headers r) (q_payload r) (Some by_) (Some now) (q_visible_after r)
    (q_delivery_count r + 1) (q_lease_epoch r + 1).
(** [SET locked_by = NULL, locked_at = NULL, visible_after = vis] *)
Definition returned (vis : Z) (r : queue_row) : queue_row :=
  mkQueueRow (q_msg_id r) (q_headers r) (q_payload r) None None vis
    (q_delivery_count r) (q_lease_epoch r).
(** [SET delivery_count = delivery_count + 1] *)
Definition counted (r : queue_row) : queue_row :=
  mkQueueRow (q_msg_id r) (q_headers r) (q_payload r) (q_locked_by r) (q_locked_at r)
    (q_visible_after r) (q_delivery_count r + 1) (q_lease_epoch r).

Definition set_rows (f : gmap Z queue_row → gmap Z queue_row) (Q : queue_table) : queue_table :=
  mkQueue (f (q_rows Q)) (q_last Q) (q_locks Q).

(** [UPDATE ... WHERE id IN (ids)] *)
Definition update_ids (f : queue_row → queue_row) (ids : list Z)
    (R : gmap Z queue_row) : gmap Z queue_row :=
  map_imap (λ i r, Some (if bool_decide (i ∈ ids) then f r else r)) R.

Definition fits_all (e : engine) (ids : list Z) (R : gmap Z queue_row) : bool :=
  forallb (λ i, match R !! i with Some r => counters_fit e r | None => true end) ids.

Definition lease_ids (e : engine) (now : Z) (by_ : string) (ids : list Z) (Q : queue_table)
    : error + queue_table :=
  if fits_all e ids (q_rows Q) then inr (set_rows (update_ids (leased now by_) ids) Q)
  else inl (Opaque "integer out of range").

(** dialect.go *)
Record ClaimedRow : Type := mkClaimedRow {
  cr_ID : Z;
  cr_MsgID : string;
  cr_Headers : bytes;
  cr_Payload : bytes;
  DeliveryCount : Z;
  LeaseEpoch : Z
}.
Definition claimed_row (i : Z) (r : queue_row) : ClaimedRow :=
  mkClaimedRow i (q_msg_id r) (q_headers r) (q_payload r) (q_delivery_count r) (q_lease_epoch r).
Definition fetch_rows (ids : list Z) (R : gmap Z queue_row) : list ClaimedRow :=
  omap (λ i, claimed_row i <$> R !! i) ids.

Section statements.
Context `{Planner}.

(** [SELECT id ... WHERE p ORDER BY visible_after LIMIT n FOR UPDATE SKIP LOCKED] *)
Definition pick_ids (p : queue_row → bool) (Q : queue_table) : list Z :=
  (merge_sort sooner (plan (candidates p Q))).*1.

(** postgres, sqlite: [UPDATE ... WHERE id IN (SELECT id ...) RETURNING ...] *)
Definition claim_returning (e : engine) (q : Querier) (qt : string) (limit : Z) (by_ : string)
    (ttl : Z) : Sq (list ClaimedRow) :=
  exec e q (λ now, on_queue e qt (λ Q,
    let? ids := limit_rows e limit (pick_ids (claimable now ttl) Q) in
    let? Q' := lease_ids e now by_ ids Q in
    inr (fetch_rows (plan ids) (q_rows Q'), Q'))).

(** mysql: the same in two statements of a transaction, which locks the rows
    selected until it ends. *)
Definition select_claim (e : engine) (qt : string) (limit ttl : Z) : Sq (list ClaimedRow) :=
  stmt None (λ now, on_queue e qt (λ Q,
    let? ids := limit_rows e limit (pick_ids (claimable now ttl) Q) in
    inr (fetch_rows ids (q_rows Q), Q))).
Definition update_claim (e : engine) (qt : string) (by_ : string) (ids : list Z) : Sq unit :=
  stmt None (λ now, on_queue e qt (λ Q, let? Q' := lease_ids e now by_ ids Q in inr (tt, Q'))).
End statements.

(** *** Fenced settlement: [WHERE id = i AND locked_by = by AND lease_epoch = ep] *)

Definition row_holds (by_ : string) (ep : Z) (r : queue_row) : bool :=
  bool_decide (q_locked_by r = Some by_) && (q_lease_epoch r =? ep).
Definition fenced_row (i : Z) (by_ : string) (ep : Z) (f : queue_row → option queue_row)
    (Q : queue_table) : Z * queue_table :=
  match q_rows Q !! i with
  | Some r => if row_holds by_ ep r then (1, set_rows (partial_alter (λ _, f r) i) Q) else (0, Q)
  | None => (0, Q)
  end.
Definition delete_fenced (e : engine) (q : Querier) (qt : string) (i : Z) (by_ : string) (ep : Z) : Sq Z :=
  exec e q (λ _, on_queue e qt (λ Q, inr (fenced_row i by_ ep (λ _, None) Q))).
Definition update_fenced (e : engine) (q : Querier) (qt : string) (i : Z) (by_ : string) (ep delay : Z)
    : Sq Z :=
  exec e q (λ now, on_queue e qt (λ Q,
    inr (fenced_row i by_ ep (λ r, Some (returned (now + delay) r)) Q))).

(** *** INSERT *)

(** The key of a new row: postgres and mysql take it from a sequence that never
    goes back, sqlite one more than the largest in the table. *)
Definition max_id (R : gmap Z queue_row) : Z := map_fold (λ i _ m, Z.max i m) 0 R.
Definition next_id (e : engine) (Q : queue_table) : Z :=
  match e with SQLite => max_id (q_rows Q) + 1 | _ => q_last Q + 1 end.
Definition new_row (id : string) (headers payload : bytes) (vis : Z) : queue_row :=
  mkQueueRow id headers payload None None vis 0 0.
Definition add_row (i : Z) (r : queue_row) (Q : queue_table) : queue_table :=
  mkQueue (<[i := r]> (q_rows Q)) (Z.max i (q_last Q)) (q_locks Q).
Definition insert_queue `{JsonColumn} (e : engine) (q : Querier) (qt : string) (id : string)
    (headers payload : bytes) (delay : Z) : Sq unit :=
  exec e q (λ now, on_queue e qt (λ Q,
    let? col := (match e with SQLite => inr headers | _ => json_column e headers end) in
    let i := next_id e Q in
    if MaxInt64 <? i then inl (Opaque "no identifier left")
    else inr (tt, add_row i (new_row id col payload (now + delay)) Q))).

(** *** The transaction a lock is held by *)

(** ROLLBACK, or the end of a lost connection, on one table and on all. *)
Definition free_locks (n : nat) (Q : queue_table) : queue_table :=
  mkQueue (q_rows Q) (q_last Q) (filter (λ kl, kl.2.1 ≠ n) (q_locks Q)).
Definition on_queues (f : queue_table → queue_table) (db : database) : database :=
  (λ rel, match rel with RQueue Q => RQueue (f Q) | _ => rel end) <$> db.
Definition release_locks (n : nat) : database → database := on_queues (free_locks n).

(** COMMIT: the rows of the transaction become the committed ones. *)
Definition publish (n : nat) (Q : queue_table) : queue_table :=
  mkQueue
    (map_fold (λ i (l : nat * option queue_row) R,
       if bool_decide (l.1 = n) then partial_alter (λ _, l.2) i R else R) (q_rows Q) (q_locks Q))
    (q_last Q) (filter (λ kl, kl.2.1 ≠ n) (q_locks Q)).
Definition holds_lock (n : nat) (rel : relation) : bool :=
  match rel with
  | RQueue Q => bool_decide (map_Exists (λ _ l, l.1 = n) (q_locks Q))
  | _ => false
  end.
Definition tx_open (n : nat) (db : database) : bool :=
  bool_decide (map_Exists (λ _ rel, holds_lock n rel = true) db).

Definition ErrTxDone : sentinel := OtherSentinel "sql: transaction has already been committed or rolled back".

Definition Rollback (tx : Tx) : Sq unit := λ s, (inr tt, advance s (release_locks (tx_id tx) (s_db s))).
Definition Commit (tx : Tx) : Sq unit := λ s,
  let t := s_ticks s (s_pos s) in
  let done := on_queues (publish (tx_id tx)) (s_db s) in
  if negb (tx_open (tx_id tx) (s_db s)) then (inl (Sentinel ErrTxDone), advance s (s_db s))
  else
    match tk_fault t with
    | Some err => (inl err, advance s (if tk_applied t then done else release_locks (tx_id tx) (s_db s)))
    | None => (inr tt, advance s done)
    end.

(** *** The statements of the lock strategy

    A transaction of the caller's is taken to hold no row of the table yet. *)

(** [SELECT ... WHERE lockable ORDER BY visible_after LIMIT 1 FOR UPDATE SKIP
     LOCKED], by [QueryRowContext]. *)
Definition select_lock `{Planner} (e : engine) (tx : Tx) (qt : string) : Sq (Z * queue_row) :=
  stmt (tx_clock e tx) (λ now, on_queue e qt (λ Q,
    match pick_ids (lockable now) Q with
    | [] => inl (Sentinel sql_ErrNoRows)
    | i :: _ =>
        match q_rows Q !! i with
        | None => inl (Sentinel sql_ErrNoRows)
        | Some r => inr ((i, r), mkQueue (q_rows Q) (q_last Q)
                                   (<[i := (tx_id tx, Some r)]> (q_locks Q)))
        end
    end)).

(** [UPDATE ... WHERE id = i] or [DELETE ... WHERE id = i] on the row the
    transaction has locked; a transaction that is over is refused. *)
Definition on_locked (e : engine) (tx : Tx) (qt : string) (i : Z)
    (f : Z → queue_row → error + option queue_row) : Sq unit :=
  stmt (tx_clock e tx) (λ now, on_queue e qt (λ Q,
    match q_locks Q !! i with
    | Some (n, v) =>
        if bool_decide (n = tx_id tx) then
          let? v' := (match v with Some r => f now r | None => inr None end) in
          inr (tt, mkQueue (q_rows Q) (q_last Q) (<[i := (n, v')]> (q_locks Q)))
        else inl (Sentinel ErrTxDone)
    | None => inl (Sentinel ErrTxDone)
    end)).
Definition update_count (e : engine) (tx : Tx) (qt : string) (i : Z) : Sq unit :=
  on_locked e tx qt i (λ _ r,
    if q_delivery_count r <? count_max e then inr (Some (counted r))
    else inl (Opaque "integer out of range")).
Definition delete_locked (e : engine) (tx : Tx) (qt : string) (i : Z) : Sq unit :=
  on_locked e tx qt i (λ _ _, inr None).
Definition update_locked (e : engine) (tx : Tx) (qt : string) (i delay : Z) : Sq unit :=
  on_locked e tx qt i (λ now r, inr (Some (returned (now + delay) r))).

(** ** The SPIs *)

Record LeaseDialect : Type := mkLeaseDialect {
  Claim : Querier → string → Z → string → Z → Sq (list ClaimedRow);
  Ack : Querier → string → Z → string → Z → Sq bool;
  Nack : Querier → string → Z → string → Z → Z → Sq bool;
  Insert_ : Querier → string → string → bytes → bytes → Z → Sq unit;
  EnsureSchema : Querier → string → Sq unit;
  SchemaExists_ : Querier → string → Sq bool
}.

(** lock.go *)
Record LockedRow : Type := mkLockedRow {
  lr_ID : Z;
  lr_MsgID : string;
  lr_Headers : bytes;
  lr_Payload : bytes;
  lr_DeliveryCount : Z;
  lr_Tx : Tx
}.
Record LockDialect : Type := mkLockDialect {
  ClaimLock : Querier → string → string → Sq (option LockedRow);
  AckLock : LockedRow → string → Sq unit;
  NackLock : LockedRow → string → Z → Sq unit
}.

(** [b.BeginTx(ctx, nil)] on the pool. *)
Definition BeginTx : Sq Tx := λ s,
  match stmt None (λ now db, inr (now, db)) s with
  | (inl err, s') => (inl err, s')
  | (inr now, s') => (inr (mkTx (s_pos s) now), s')
  end.
Definition BeginLockTx (q : Querier) : Sq Tx :=
  match q with
  | QDB => BeginTx
  | QTx tx => mret tx
  | QOther ty => fail (Errorf [] [FStr "msgin/sql: lock strategy ClaimLock requires a *sql.DB or *sql.Tx Querier"; FStr ty])
  end.

Definition SettleLockTx (tx : Tx) (query : Sq unit) : Sq unit :=
  r ← attempt query;
  match r with
  | inl err => _ ← Rollback tx; fail err
  | inr _ =>
      c ← attempt (Commit tx);
      match c with
      | inl err => _ ← Rollback tx; fail err
      | inr _ => mret tt
      end
  end.

(** [pgQuoteTable], [mysqlQuoteTable], [sqliteQuoteTable] *)
Definition QuoteTable (e : engine) (table : string) : error + string :=
  match ValidateIdent table with
  | Some err => inl err
  | None => inr (quote (quote_char e) table)
  end.
(** [qt, err := QuoteTable(table); if err != nil { return err }] *)
Definition quoted {A} (e : engine) (table : string) (m : string → Sq A) : Sq A :=
  match QuoteTable e table with
  | inl err => fail err
  | inr qt => m qt
  end.
Definition schema_probe (table : string) : Sq bool :=
  match ValidateIdent table with
  | Some err => fail err
  | None => select_schema table
  end.

(** ** The methods that the dialects spell alike, over the engine *)

Section dialects.
Context `{Planner, JsonColumn}.
Context (e : engine).

Definition ack (q : Querier) (table : string) (id : Z) (lockedBy : string) (epoch : Z) : Sq bool :=
  quoted e table (λ qt,
    res ← delete_fenced e q qt id lockedBy epoch;
    n ← RowsAffected res;
    mret (0 <? n)).
Definition nack (q : Querier) (table : string) (id : Z) (lockedBy : string) (epoch delay : Z) : Sq bool :=
  quoted e table (λ qt,
    res ← update_fenced e q qt id lockedBy epoch (Microseconds delay);
    n ← RowsAffected res;
    mret (0 <? n)).
Definition insert (q : Querier) (table msgID : string) (headers payload : bytes) (delay : Z) : Sq unit :=
  quoted e table (λ qt, insert_queue e q qt msgID headers payload (Microseconds delay)).
Definition one_shot_claim (q : Querier) (table : string) (limit : Z) (lockedBy : string)
    (leaseTTL : Z) : Sq (list ClaimedRow) :=
  quoted e table (λ qt, claim_returning e q qt limit lockedBy (Microseconds leaseTTL)).
Definition claim_lock (q : Querier) (table lockedBy : string) : Sq (option LockedRow) :=
  quoted e table (λ qt,
    tx ← BeginLockTx q;
    r ← attempt (select_lock e tx qt);
    match r with
    | inl err =>
        _ ← Rollback tx;
        if Is err sql_ErrNoRows then mret None else fail err
    | inr (i, row) =>
        u ← attempt (update_count e tx qt i);
        match u with
        | inl err => _ ← Rollback tx; fail err
        | inr _ =>
            mret (Some (mkLockedRow i (q_msg_id row) (q_headers row) (q_payload row)
                          (wrap64 (q_delivery_count row + 1)) tx))
        end
    end).
Definition ack_lock (lr : LockedRow) (table : string) : Sq unit :=
  match QuoteTable e table with
  | inl err => _ ← Rollback (lr_Tx lr); fail err
  | inr qt => SettleLockTx (lr_Tx lr) (delete_locked e (lr_Tx lr) qt (lr_ID lr))
  end.
Definition nack_lock (lr : LockedRow) (table : string) (delay : Z) : Sq unit :=
  match QuoteTable e table with
  | inl err => _ ← Rollback (lr_Tx lr); fail err
  | inr qt => SettleLockTx (lr_Tx lr) (update_locked e (lr_Tx lr) qt (lr_ID lr) (Microseconds delay))
  end.
End dialects.

(** ** postgres/dialect.go *)

Section postgres.
Context `{Planner, JsonColumn}.
Definition pgClaim := one_shot_claim Postgres.
Definition pgAck := ack Postgres.
Definition pgNack := nack Postgres.
Definition pgInsert := insert Postgres.
Definition pgEnsureSchema (q : Querier) (table : string) : Sq unit :=
  quoted Postgres table (λ qt,
    _ ← create_table Postgres qt (RQueue empty_queue);
    create_index Postgres qt).
Definition postgresDialect : LeaseDialect :=
  mkLeaseDialect pgClaim pgAck pgNack pgInsert pgEnsureSchema (λ _, schema_probe).
Definition pgClaimLock := claim_lock Postgres.
Definition pgAckLock := ack_lock Postgres.
Definition pgNackLock := nack_lock Postgres.
Definition postgresLockDialect : LockDialect := mkLockDialect pgClaimLock pgAckLock pgNackLock.
End postgres.

(** ** mysql/dialect.go *)

Section mysql.
Context `{Planner, JsonColumn}.

(** [r.DeliveryCount++; r.LeaseEpoch++] *)
Definition bumped (r : ClaimedRow) : ClaimedRow :=
  mkClaimedRow (cr_ID r) (cr_MsgID r) (cr_Headers r) (cr_Payload r)
    (wrap64 (DeliveryCount r + 1)) (wrap64 (LeaseEpoch r + 1)).
Definition mysqlScanClaim (qt : string) (limit ttl : Z) : Sq (list ClaimedRow * list Z) :=
  rows ← select_claim MySQL qt limit ttl;
  mret (bumped <$> rows, cr_ID <$> rows).
Definition mysqlClaimInTx (qt : string) (limit : Z) (lockedBy : string) (leaseTTL : Z)
    : Sq (list ClaimedRow) :=
  oi ← mysqlScanClaim qt limit (Microseconds leaseTTL);
  if bool_decide (oi.2 = []) then mret []
  else
    _ ← update_claim MySQL qt lockedBy oi.2;
    mret oi.1.
Definition mysqlClaim (q : Querier) (table : string) (limit : Z) (lockedBy : string) (leaseTTL : Z)
    : Sq (list ClaimedRow) :=
  quoted MySQL table (λ qt,
    match q with
    | QDB =>
        r ← in_tx 1 (λ _, rows ← mysqlClaimInTx qt limit lockedBy leaseTTL; mret (rows, None));
        mret r.1
    | QTx _ => mysqlClaimInTx qt limit lockedBy leaseTTL
    | QOther ty => fail (Errorf [] [FStr "msgin/sql/mysql: mysql Claim requires a *sql.DB or *sql.Tx Querier"; FStr ty])
    end).
Definition mysqlAck := ack MySQL.
Definition mysqlNack := nack MySQL.
Definition mysqlInsert := insert MySQL.
Definition mysqlEnsureSchema (q : Querier) (table : string) : Sq unit :=
  quoted MySQL table (λ qt, create_table MySQL qt (RQueue empty_queue)).
Definition mysqlDialect : LeaseDialect :=
  mkLeaseDialect mysqlClaim mysqlAck mysqlNack mysqlInsert mysqlEnsureSchema (λ _, schema_probe).
Definition mysqlClaimLock := claim_lock MySQL.
Definition mysqlAckLock := ack_lock MySQL.
Definition mysqlNackLock := nack_lock MySQL.
Definition mysqlLockDialect : LockDialect := mkLockDialect mysqlClaimLock mysqlAckLock mysqlNackLock.
End mysql.

(** ** sqlite/dialect.go *)

Section sqlite.
Context `{Planner, JsonColumn}.
Definition sqliteClaim := one_shot_claim SQLite.
Definition sqliteAck := ack SQLite.
Definition sqliteNack := nack SQLite.
Definition sqliteInsert := insert SQLite.
Definition sqliteEnsureSchema (q : Querier) (table : string) : Sq unit :=
  quoted SQLite table (λ qt,
    _ ← create_table SQLite qt (RQueue empty_queue);
    create_index SQLite qt).
Definition sqliteDialect : LeaseDialect :=
  mkLeaseDialect sqliteClaim sqliteAck sqliteNack sqliteInsert sqliteEnsureSchema (λ _, schema_probe).
End sqlite.

(** ** The reference machine

    What the methods mean to the table, statement by statement forgotten: an
    event is the whole effect of a method, with the clock readings it took. *)

Inductive qevent : Type :=
  | EvInsert (i : Z) (id : string) (headers payload : bytes) (vis : Z)
  | EvClaim (by_ : string) (ttl n1 n2 : Z) (ids : list Z)
  | EvAck (i : Z) (by_ : string) (ep : Z)
  | EvNack (i : Z) (by_ : string) (ep vis : Z)
  | EvLock (n : nat) (now : Z) (i : Z)
  | EvLockAck (n : nat) (i : Z)
  | EvLockNack (n : nat) (i : Z) (vis : Z)
  | EvRelease (n : nat)
  | EvNone.

Definition with_lock (i : Z) (n : nat) (v : option queue_row) (Q : queue_table) : queue_table :=
  mkQueue (q_rows Q) (q_last Q) (<[i := (n, v)]> (q_locks Q)).

Inductive qstep (e : engine) (Q : queue_table) : qevent → queue_table → Prop :=
  | step_insert i id h p vis :
      i = next_id e Q → i ≤ MaxInt64 →
      qstep e Q (EvInsert i id h p vis) (add_row i (new_row id h p vis) Q)
  | step_claim by_ ttl n1 n2 ids :
      NoDup ids →
      (∀ i, i ∈ ids → ∃ r, q_rows Q !! i = Some r ∧ claimable n1 ttl r = true ∧
         q_locks Q !! i = None ∧ counters_fit e r = true) →
      qstep e Q (EvClaim by_ ttl n1 n2 ids) (set_rows (update_ids (leased n2 by_) ids) Q)
  | step_ack i by_ ep r :
      q_rows Q !! i = Some r → row_holds by_ ep r = true →
      qstep e Q (EvAck i by_ ep) (set_rows (delete i) Q)
  | step_nack i by_ ep vis r :
      q_rows Q !! i = Some r → row_holds by_ ep r = true →
      qstep e Q (EvNack i by_ ep vis) (set_rows (<[i := returned vis r]>) Q)
  | step_lock n now i r :
      q_rows Q !! i = Some r → lockable now r = true → q_locks Q !! i = None →
      q_delivery_count r < count_max e → (∀ j l, q_locks Q !! j = Some l → l.1 ≠ n) →
      qstep e Q (EvLock n now i) (with_lock i n (Some (counted r)) Q)
  | step_lock_ack n i v :
      q_locks Q !! i = Some (n, v) →
      qstep e Q (EvLockAck n i) (publish n (with_lock i n None Q))
  | step_lock_nack n i r vis :
      q_locks Q !! i = Some (n, Some r) →
      qstep e Q (EvLockNack n i vis) (publish n (with_lock i n (Some (returned vis r)) Q))
  | step_release n : qstep e Q (EvRelease n) (free_locks n Q)
  | step_none : qstep e Q EvNone Q.

Create HintDb queue discriminated.
#[export] Hint Constructors qstep : queue.

(** How a method ends: its effect is an event of the machine, the rest of the
    database is as it was; it returns what [P] says of the event, or an error;
    then nothing happened, or the driver lost the answer. *)
Definition op_outcome {A} (e : engine) (table : string) (s : session) (Q : queue_table)
    (r : (error + A) * session) (P : A → qevent → Prop) : Prop :=
  s_ticks r.2 = s_ticks s ∧ (s_pos s ≤ s_pos r.2)%nat ∧
  ∃ ev Q', qstep e Q ev Q' ∧ s_db r.2 = <[table := RQueue Q']> (s_db s) ∧
    match r.1 with
    | inr a => P a ev
    | inl err => ev = EvNone ∨ (faulted s err ∧ ∃ a, P a ev)
    end.

(** A fault of the driver between two sessions of a run. *)
Definition fault_between (s s' : session) (err : error) : Prop :=
  ∃ i, (s_pos s ≤ i < s_pos s')%nat ∧ tk_fault (s_ticks s i) = Some err.

(** The rows a claim takes. *)
Definition picks `{Planner} (e : engine) (n ttl limit : Z) (Q : queue_table) (ids : list Z) : Prop :=
  limit_rows e limit (pick_ids (claimable n ttl) Q) = inr ids.
Definition held (Q : queue_table) (i : Z) (by_ : string) (ep : Z) : Prop :=
  ∃ r, q_rows Q !! i = Some r ∧ row_holds by_ ep r = true.
Definition column `{JsonColumn} (e : engine) (headers : bytes) : error + bytes :=
  match e with SQLite => inr headers | _ => json_column e headers end.

Class LeaseDialectLaws `{Planner, JsonColumn} (e : engine) (d : LeaseDialect) : Prop := {
  Claim_law table s Q limit by_ ttl :
    ValidateIdent table = None → s_db s !! table = Some (RQueue Q) →
    (∀ i r, q_rows Q !! i = Some r → 0 ≤ q_delivery_count r ∧ 0 ≤ q_lease_epoch r) →
    op_outcome e table s Q (Claim d QDB table limit by_ ttl s) (λ rows ev,
      ∃ n1 n2 ids, reads s n1 ∧ reads s n2 ∧ picks e n1 (Microseconds ttl) limit Q ids ∧
        ev = EvClaim by_ (Microseconds ttl) n1 n2 ids ∧
        rows ≡ₚ fetch_rows ids (update_ids (leased n2 by_) ids (q_rows Q)));
  Ack_law table s Q i by_ ep :
    ValidateIdent table = None → s_db s !! table = Some (RQueue Q) →
    op_outcome e table s Q (Ack d QDB table i by_ ep s) (λ b ev,
      if b : bool then ev = EvAck i by_ ep else ev = EvNone ∧ ¬ held Q i by_ ep);
  Nack_law table s Q i by_ ep delay :
    ValidateIdent table = None → s_db s !! table = Some (RQueue Q) →
    op_outcome e table s Q (Nack d QDB table i by_ ep delay s) (λ b ev,
      if b : bool then ∃ n, reads s n ∧ ev = EvNack i by_ ep (n + Microseconds delay)
      else ev = EvNone ∧ ¬ held Q i by_ ep);
  (** A settlement fails only for a fault of the driver. *)
  settle_errs table s Q i by_ ep :
    ValidateIdent table = None → s_db s !! table = Some (RQueue Q) →
    (∀ err s', Ack d QDB table i by_ ep s = (inl err, s') → fault_between s s' err) ∧
    (∀ delay err s', Nack d QDB table i by_ ep delay s = (inl err, s') → fault_between s s' err);
  Insert_law table s Q id headers payload delay :
    ValidateIdent table = None → s_db s !! table = Some (RQueue Q) →
    op_outcome e table s Q (Insert_ d QDB table id headers payload delay s) (λ _ ev,
      ∃ n col, reads s n ∧ column e headers = inr col ∧
        ev = EvInsert (next_id e Q) id col payload (n + Microseconds delay));
  (** In a transaction of the caller's: the one statement, and no COMMIT. *)
  Insert_tx_law table s Q tx id headers payload delay :
    ValidateIdent table = None → s_db s !! table = Some (RQueue Q) →
    match Insert_ d (QTx tx) table id headers payload delay s with
    | (inl _, s') => s' = advance s (s_db s)
    | (inr _, s') => ∃ n col, (reads s n ∨ n = tx_start tx) ∧ column e headers = inr col ∧
        s' = advance s (<[table := RQueue (add_row (next_id e Q)
               (new_row id col payload (n + Microseconds delay)) Q)]> (s_db s))
    end;
  SchemaExists_probe q table : SchemaExists_ d q table = schema_probe table;
  queue_missing table s : ValidateIdent table = None → s_db s !! table = None →
    (∀ limit by_ ttl, fails_clean (Claim d QDB table limit by_ ttl) s) ∧
    (∀ i by_ ep, fails_clean (Ack d QDB table i by_ ep) s) ∧
    (∀ i by_ ep delay, fails_clean (Nack d QDB table i by_ ep delay) s) ∧
    (∀ id headers payload delay, fails_clean (Insert_ d QDB table id headers payload delay) s)
}.

(** ** Statements on the table *)

#[local] Arguments quote : simpl never.
#[local] Arguments quote_char : simpl never.

Lemma Sq_bind_run {A B} (m : Sq A) (k : A → Sq B) s :
  (m ≫= k) s = match m s with (inl err, s') => (inl err, s') | (inr a, s') => k a s' end.
Proof. reflexivity. Qed.

Lemma put_queue_id table (db : database) Q : db !! table = Some (RQueue Q) → <[table := RQueue Q]> db = db.
Proof. apply insert_id. Qed.

Lemma set_rows_id Q f : f (q_rows Q) = q_rows Q → set_rows f Q = Q.
Proof. unfold set_rows. intros ->. by destruct Q. Qed.

Section table.
Context (e : engine) (table : string) (db : database) (Q : queue_table).
Context (Hq : db !! table = Some (RQueue Q)).
Abbreviation qt := (quote (quote_char e) table).

Lemma on_queue_eq {A} (f : queue_table → error + (A * queue_table)) :
  on_queue e qt f db = (let? r := f Q in inr (r.1, <[table := RQueue r.2]> db)).
Proof using Hq. unfold on_queue. by rewrite unquote_quote, Hq. Qed.

(** A statement on the pool: it answers, or it fails and may have taken
    effect. *)
Lemma auto_stmt_cases {A} (f : Z → queue_table → error + (A * queue_table)) s :
  s_db s = db →
  let t := s_ticks s (s_pos s) in
  match f (tk_now t) Q with
  | inl err => auto_stmt (λ now, on_queue e qt (f now)) s = (inl (default err (tk_fault t)), advance s db)
  | inr (a, Q') =>
      (tk_fault t = None ∧
       auto_stmt (λ now, on_queue e qt (f now)) s = (inr a, advance s (<[table := RQueue Q']> db))) ∨
      (∃ err, tk_fault t = Some err ∧
       (auto_stmt (λ now, on_queue e qt (f now)) s = (inl err, advance s db) ∨
        auto_stmt (λ now, on_queue e qt (f now)) s = (inl err, advance s (<[table := RQueue Q']> db))))
  end.
Proof using Hq.
  intros Hs t. unfold auto_stmt. rewrite Hs, on_queue_eq.
  destruct (f (tk_now t) Q) as [err|[a Q']] eqn:Hf; cbn [sum_bind].
  - unfold t in Hf. by rewrite Hf.
  - unfold t in Hf. rewrite Hf. cbn [sum_bind]. fold t. destruct (tk_fault t) as [err|]; [right|by left].
    exists err. split; [done|]. destruct (tk_applied t); auto.
Qed.
End table.

Lemma outcome_none {A} e table s Q (P : A → qevent → Prop) r s' :
  s_db s !! table = Some (RQueue Q) → s_ticks s' = s_ticks s → (s_pos s ≤ s_pos s')%nat →
  s_db s' = s_db s → match r with inr a => P a EvNone | inl _ => True end →
  op_outcome e table s Q (r, s') P.
Proof.
  intros Hq Ht Hp Hdb HP. unfold op_outcome. cbn [fst snd]. split; [done|]. split; [done|]. exists EvNone, Q.
  split; [constructor|]. split; [by rewrite Hdb, put_queue_id|]. destruct r; auto.
Qed.

(** A statement on the pool is an event of the machine. *)
Lemma auto_outcome {A} e table s Q (f : Z → queue_table → error + (A * queue_table))
    (P : A → qevent → Prop) :
  s_db s !! table = Some (RQueue Q) →
  (∀ a Q', f (tk_now (s_ticks s (s_pos s))) Q = inr (a, Q') → ∃ ev, qstep e Q ev Q' ∧ P a ev) →
  op_outcome e table s Q (auto_stmt (λ now, on_queue e (quote (quote_char e) table) (f now)) s) P.
Proof.
  intros Hq Hf. pose proof (auto_stmt_cases e table (s_db s) Q Hq f s eq_refl) as Hc. cbn zeta in Hc.
  destruct (f _ Q) as [err|[a Q']] eqn:E.
  { rewrite Hc. by apply outcome_none; auto; cbn; lia. }
  destruct (Hf a Q' eq_refl) as (ev & Hst & HP).
  destruct Hc as [[Hn Hc]|(err & Hn & [Hc|Hc])]; rewrite Hc.
  - split; [done|]. split; [cbn; lia|]. by exists ev, Q'.
  - by apply outcome_none; auto; cbn; lia.
  - split; [done|]. split; [cbn; lia|]. exists ev, Q'. split; [done|]. split; [done|].
    right. split; [|by exists a]. exists (s_pos s). split; [lia|done].
Qed.

(** RowsAffected after a statement: a fault there reports nothing of it. *)
Lemma outcome_rows {B} e table s Q (m : Sq Z) (k : Z → B) (P : B → qevent → Prop) :
  op_outcome e table s Q (m s) (λ n ev, P (k n) ev) →
  op_outcome e table s Q ((n ← m; n ← RowsAffected n; mret (k n)) s) P.
Proof.
  rewrite Sq_bind_run. unfold op_outcome. destruct (m s) as [[err|n] s']; cbn [fst snd].
  { intros (Ht & Hp & ev & Q' & Hst & Hdb & HP). do 2 (split; [done|]). exists ev, Q'. do 2 (split; [done|]).
    destruct HP as [?|[? [n ?]]]; [by left|right; split; [done|by exists (k n)]]. }
  intros (Ht & Hp & ev & Q' & Hst & Hdb & HP). rewrite Sq_bind_run. unfold RowsAffected, stmt, mret, Sq_ret. cbn [default].
  destruct (tk_fault (s_ticks s' (s_pos s'))) as [err|] eqn:Hf; cbn [fst snd s_ticks s_pos s_db].
  - split; [done|]. split; [lia|]. exists ev, Q'. split; [done|]. split; [done|].
    right. split; [|by exists (k n)]. exists (s_pos s'). rewrite <- Ht. split; [lia|done].
  - split; [done|]. split; [lia|]. by exists ev, Q'.
Qed.

Lemma op_outcome_mono {A} e table s Q r (P P' : A → qevent → Prop) :
  op_outcome e table s Q r P → (∀ a ev, P a ev → P' a ev) → op_outcome e table s Q r P'.
Proof.
  intros (Ht & Hp & ev & Q' & Hst & Hdb & HP) HPP. split; [done|]. split; [done|].
  exists ev, Q'. split; [done|]. split; [done|]. destruct (r.1) as [err|a]; [|by apply HPP].
  destruct HP as [?|[? [a ?]]]; [by left|right; split; [done|exists a; by apply HPP]].
Qed.

(** *** Settlement *)

Lemma fenced_cases i by_ ep f Q :
  (∃ r, q_rows Q !! i = Some r ∧ row_holds by_ ep r = true ∧
     fenced_row i by_ ep f Q = (1, set_rows (partial_alter (λ _, f r) i) Q)) ∨
  (¬ held Q i by_ ep ∧ fenced_row i by_ ep f Q = (0, Q)).
Proof.
  unfold fenced_row, held. destruct (q_rows Q !! i) as [r|] eqn:E; [|right; split; [by intros (r & ? & ?)|done]].
  destruct (row_holds by_ ep r) eqn:Hh; [left; by exists r|right; split; [|done]].
  intros (r' & [= <-] & ?). congruence.
Qed.

Lemma ack_outcome e table s Q i by_ ep :
  ValidateIdent table = None → s_db s !! table = Some (RQueue Q) →
  op_outcome e table s Q (ack e QDB table i by_ ep s) (λ b ev,
    if b : bool then ev = EvAck i by_ ep else ev = EvNone ∧ ¬ held Q i by_ ep).
Proof.
  intros Hv Hq. unfold ack, quoted, QuoteTable. rewrite Hv.
  apply (outcome_rows e table s Q _ (λ n, 0 <? n)).
  apply (auto_outcome e table s Q (λ _ Q, inr (fenced_row i by_ ep (λ _, None) Q))); [done|].
  intros n Q' [= Hf]. destruct (fenced_cases i by_ ep (λ _, None) Q) as [(r & Hr & Hh & E)|[Hn E]];
    rewrite E in Hf; injection Hf as <- <-; eexists; (split; [|done]); [by eapply step_ack|constructor].
Qed.

Lemma nack_outcome e table s Q i by_ ep delay :
  ValidateIdent table = None → s_db s !! table = Some (RQueue Q) →
  op_outcome e table s Q (nack e QDB table i by_ ep delay s) (λ b ev,
    if b : bool then ∃ n, reads s n ∧ ev = EvNack i by_ ep (n + Microseconds delay)
    else ev = EvNone ∧ ¬ held Q i by_ ep).
Proof.
  intros Hv Hq. unfold nack, quoted, QuoteTable. rewrite Hv.
  apply (outcome_rows e table s Q _ (λ n, 0 <? n)).
  apply (auto_outcome e table s Q (λ now Q, inr (fenced_row i by_ ep
           (λ r, Some (returned (now + Microseconds delay) r)) Q))); [done|].
  intros n Q' [= Hf]. set (now := tk_now _) in Hf.
  destruct (fenced_cases i by_ ep (λ r, Some (returned (now + Microseconds delay) r)) Q)
    as [(r & Hr & Hh & E)|[Hn E]]; rewrite E in Hf; injection Hf as <- <-.
  - eexists. split; [by eapply step_nack|]. exists now. split; [|done]. by exists (s_pos s).
  - exists EvNone. split; [constructor|done].
Qed.

(** A fenced statement and its RowsAffected fail only for a fault. *)
Lemma fenced_errs e table s Q (f : Z → queue_table → Z * queue_table) (k : Z → bool) err s' :
  s_db s !! table = Some (RQueue Q) →
  (n ← auto_stmt (λ now, on_queue e (quote (quote_char e) table) (λ Q, inr (f now Q))); n ← RowsAffected n; mret (k n)) s =
    (inl err, s') →
  fault_between s s' err.
Proof.
  intros Hq. pose proof (auto_stmt_cases e table (s_db s) Q Hq (λ now Q, inr (f now Q)) s eq_refl) as Hc. cbn beta zeta in Hc.
  destruct (f (tk_now (s_ticks s (s_pos s))) Q) as [n Q'] eqn:Ef. rewrite Sq_bind_run.
  destruct Hc as [[Hn Hc]|(er & Hn & [Hc|Hc])]; rewrite Hc.
  2,3: intros [= <- <-]; exists (s_pos s); cbn; split; [lia|done].
  rewrite Sq_bind_run. unfold RowsAffected, stmt, mret, Sq_ret. cbn.
  destruct (tk_fault (s_ticks s (S (s_pos s)))) as [er|] eqn:Hf; [|done]. intros [= <- <-].
  exists (S (s_pos s)). cbn. split; [lia|done].
Qed.

Lemma settle_errs_run e table s Q i by_ ep :
  ValidateIdent table = None → s_db s !! table = Some (RQueue Q) →
  (∀ err s', ack e QDB table i by_ ep s = (inl err, s') → fault_between s s' err) ∧
  (∀ delay err s', nack e QDB table i by_ ep delay s = (inl err, s') → fault_between s s' err).
Proof.
  intros Hv Hq. unfold ack, nack, quoted, QuoteTable. rewrite Hv. split.
  - intros err s'. apply (fenced_errs e table s Q (λ _ Q, fenced_row i by_ ep (λ _, None) Q) (λ n, 0 <? n)), Hq.
  - intros delay err s'. apply (fenced_errs e table s Q (λ now Q, fenced_row i by_ ep
      (λ r, Some (returned (now + Microseconds delay) r)) Q) (λ n, 0 <? n)), Hq.
Qed.

Lemma insert_outcome `{JsonColumn} e table s Q id headers payload delay :
  ValidateIdent table = None → s_db s !! table = Some (RQueue Q) →
  op_outcome e table s Q (insert e QDB table id headers payload delay s) (λ _ ev,
    ∃ n col, reads s n ∧ column e headers = inr col ∧
      ev = EvInsert (next_id e Q) id col payload (n + Microseconds delay)).
Proof.
  intros Hv Hq. unfold insert, quoted, QuoteTable. rewrite Hv. unfold insert_queue, exec.
  refine (auto_outcome e table s Q (λ now Q,
    let? col := column e headers in
    let i := next_id e Q in
    if MaxInt64 <? i then inl (Opaque "no identifier left")
    else inr (tt, add_row i (new_row id col payload (now + Microseconds delay)) Q)) _ Hq _).
  intros [] Q' (col & Hc & Hf)%sum_bind_inr. cbn zeta in Hf.
  destruct (MaxInt64 <? next_id e Q) eqn:Hi; [done|]. injection Hf as <-.
  eexists. split; [apply step_insert; [done|lia]|].
  exists (tk_now (s_ticks s (s_pos s))), col. split; [by exists (s_pos s)|done].
Qed.

(** *** The rows a claim picks *)

Section pick.
Context `{Planner} (p : queue_row → bool) (Q : queue_table).

Lemma elem_of_candidates iv :
  iv ∈ candidates p Q ↔
  ∃ r, q_rows Q !! iv.1 = Some r ∧ p r = true ∧ q_locks Q !! iv.1 = None ∧ iv.2 = q_visible_after r.
Proof using Type.
  unfold candidates. rewrite list_elem_of_omap. split.
  - intros ([i r] & Hm%elem_of_map_to_list & Hv). cbn in Hv.
    destruct (p r) eqn:Hp; [|done]. cbn in Hv. destruct (bool_decide _) eqn:Hl; [|done].
    apply bool_decide_eq_true in Hl. injection Hv as <-. by exists r.
  - intros (r & Hr & Hp & Hl & Hv). exists (iv.1, r). split; [by apply elem_of_map_to_list|].
    cbn. rewrite Hp, bool_decide_eq_true_2 by done. cbn. by rewrite <- Hv, <- surjective_pairing.
Qed.

Lemma candidates_NoDup : NoDup ((candidates p Q).*1).
Proof using Type.
  unfold candidates. pose proof (NoDup_fst_map_to_list (q_rows Q)) as Hnd.
  induction (map_to_list (q_rows Q)) as [|[i r] l IH]; [constructor|]. cbn [omap list_omap fmap list_fmap fst] in *.
  apply NoDup_cons in Hnd as [Hi Hnd]. specialize (IH Hnd).
  destruct (_ && _) eqn:E; [|done]. cbn [fmap list_fmap fst]. apply NoDup_cons. split; [|done].
  intros ([i' v] & -> & ([j r'] & Hj & Hv)%list_elem_of_omap)%list_elem_of_fmap. cbn in *.
  destruct (_ && _) eqn:E' in Hv; [|done]. injection Hv as <- _. apply Hi, list_elem_of_fmap. by eexists (_, r').
Qed.

Lemma picked_perm : merge_sort sooner (plan (candidates p Q)) ≡ₚ candidates p Q.
Proof using Type. etrans; [apply merge_sort_Permutation|apply plan_perm]. Qed.

Lemma pick_ids_NoDup : NoDup (pick_ids p Q).
Proof using Type. unfold pick_ids. rewrite picked_perm. apply candidates_NoDup. Qed.

Lemma elem_of_pick_ids i :
  i ∈ pick_ids p Q ↔ ∃ r, q_rows Q !! i = Some r ∧ p r = true ∧ q_locks Q !! i = None.
Proof using Type.
  unfold pick_ids. rewrite picked_perm, list_elem_of_fmap. split.
  - intros (iv & -> & (r & ? & ? & ? & ?)%elem_of_candidates). eauto.
  - intros (r & Hr & Hp & Hl). exists (i, q_visible_after r). split; [done|].
    apply elem_of_candidates. by exists r.
Qed.

(** The rows come by [visible_after]. *)
Lemma pick_ids_sorted i j k l r r' :
  pick_ids p Q !! k = Some i → pick_ids p Q !! l = Some j → (k < l)%nat →
  q_rows Q !! i = Some r → q_rows Q !! j = Some r' → q_visible_after r ≤ q_visible_after r'.
Proof using Type.
  unfold pick_ids. rewrite !list_lookup_fmap.
  pose proof (StronglySorted_merge_sort sooner (plan (candidates p Q))) as Hs.
  set (L := merge_sort _ _) in *.
  destruct (L !! k) as [x|] eqn:Hx; [|done]. destruct (L !! l) as [y|] eqn:Hy; [|done].
  intros [= <-] [= <-] Hkl Hr Hr'.
  assert (∀ z, z ∈ L → ∀ r, q_rows Q !! z.1 = Some r → z.2 = q_visible_after r) as Hv.
  { intros z Hz r0 Hr0. unfold L in Hz. rewrite picked_perm in Hz.
    apply elem_of_candidates in Hz as (r1 & Hr1 & _ & _ & ->). congruence. }
  rewrite <- (Hv x), <- (Hv y) by (done || by eapply list_elem_of_lookup_2).
  clear -Hs Hx Hy Hkl. revert k l Hx Hy Hkl. induction Hs as [|z L Hs IH Hall]; intros [|k] [|l] Hx Hy Hkl;
    try done; try lia; cbn in *.
  - injection Hx as ->. rewrite Forall_forall in Hall. apply Hall. by eapply list_elem_of_lookup_2.
  - eapply IH; eauto. lia.
Qed.
End pick.

Lemma limit_rows_prefix {A} e n (l ids : list A) : limit_rows e n l = inr ids → ids `prefix_of` l.
Proof.
  unfold limit_rows. destruct (n <? 0).
  - destruct e; intros [= <-]; done.
  - intros [= <-]. exists (drop (Z.to_nat n) l). by rewrite take_drop.
Qed.

Lemma picks_spec `{Planner} e n ttl limit Q ids :
  picks e n ttl limit Q ids →
  NoDup ids ∧ ∀ i, i ∈ ids → ∃ r, q_rows Q !! i = Some r ∧ claimable n ttl r = true ∧ q_locks Q !! i = None.
Proof.
  intros Hp%limit_rows_prefix. split.
  - destruct Hp as [k Hk]. pose proof (pick_ids_NoDup (claimable n ttl) Q) as Hnd.
    rewrite Hk in Hnd. by apply NoDup_app in Hnd as [? _].
  - intros i Hi. apply elem_of_pick_ids. destruct Hp as [k ->]. apply elem_of_app. by left.
Qed.

(** *** Leasing rows *)

Lemma lookup_update_ids f ids R i :
  update_ids f ids R !! i = (λ r, if bool_decide (i ∈ ids) then f r else r) <$> R !! i.
Proof. unfold update_ids. rewrite map_lookup_imap. by destruct (R !! i). Qed.

Lemma update_ids_nil f R : update_ids f [] R = R.
Proof. apply map_eq. intros i. rewrite lookup_update_ids. by destruct (R !! i). Qed.

Lemma lease_ids_ok e now by_ ids Q Q' :
  lease_ids e now by_ ids Q = inr Q' →
  Q' = set_rows (update_ids (leased now by_) ids) Q ∧
  ∀ i r, i ∈ ids → q_rows Q !! i = Some r → counters_fit e r = true.
Proof.
  unfold lease_ids. destruct (fits_all e ids (q_rows Q)) eqn:Hf; [|done]. intros [= <-].
  split; [done|]. intros i r Hi Hr. unfold fits_all in Hf. rewrite forallb_forall in Hf.
  specialize (Hf i). rewrite Hr in Hf. by apply Hf, list_elem_of_In.
Qed.

Lemma fetch_rows_perm ids ids' R : ids ≡ₚ ids' → fetch_rows ids R ≡ₚ fetch_rows ids' R.
Proof.
  intros Hp. unfold fetch_rows. induction Hp as [|i l l' _ IH|i j l|l1 l2 l3 _ IH1 _ IH2]; cbn.
  - done.
  - destruct (R !! i); cbn; by rewrite IH.
  - destruct (R !! i), (R !! j); cbn; try done. apply perm_swap.
  - by etrans.
Qed.

Lemma elem_of_fetch_rows ids R x :
  x ∈ fetch_rows ids R ↔ cr_ID x ∈ ids ∧ ∃ r, R !! cr_ID x = Some r ∧ x = claimed_row (cr_ID x) r.
Proof.
  unfold fetch_rows. rewrite list_elem_of_omap. split.
  - intros (i & Hi & (r & Hr & ->)%fmap_Some). cbn. eauto.
  - intros (Hi & r & Hr & Hx). exists (cr_ID x). split; [done|]. rewrite Hr. cbn. by rewrite <- Hx.
Qed.

Lemma fetch_rows_ids ids R :
  (∀ i, i ∈ ids → is_Some (R !! i)) → cr_ID <$> fetch_rows ids R = ids.
Proof.
  unfold fetch_rows. induction ids as [|i ids IH]; intros Hs; [done|]. cbn.
  destruct (Hs i) as [r ->]; [by left|]. cbn. f_equal. apply IH. intros j Hj. apply Hs. by right.
Qed.

#[local] Lemma picks_step `{Planner} e n1 n2 ttl limit by_ Q Q' ids :
  picks e n1 ttl limit Q ids → lease_ids e n2 by_ ids Q = inr Q' →
  qstep e Q (EvClaim by_ ttl n1 n2 ids) Q'.
Proof.
  intros (Hnd & Hall)%picks_spec (-> & Hfit)%lease_ids_ok. constructor; [done|].
  intros i Hi. destruct (Hall i Hi) as (r & ? & ? & ?). exists r. naive_solver.
Qed.

Lemma one_shot_outcome `{Planner} e table s Q limit by_ ttl :
  ValidateIdent table = None → s_db s !! table = Some (RQueue Q) →
  op_outcome e table s Q (one_shot_claim e QDB table limit by_ ttl s) (λ rows ev,
    ∃ n1 n2 ids, reads s n1 ∧ reads s n2 ∧ picks e n1 (Microseconds ttl) limit Q ids ∧
      ev = EvClaim by_ (Microseconds ttl) n1 n2 ids ∧
      rows ≡ₚ fetch_rows ids (update_ids (leased n2 by_) ids (q_rows Q))).
Proof.
  intros Hv Hq. unfold one_shot_claim, quoted, QuoteTable. rewrite Hv. unfold claim_returning, exec.
  refine (auto_outcome e table s Q (λ now Q,
    let? ids := limit_rows e limit (pick_ids (claimable now (Microseconds ttl)) Q) in
    let? Q' := lease_ids e now by_ ids Q in inr (fetch_rows (plan ids) (q_rows Q'), Q')) _ Hq _).
  intros rows Q' (ids & Hids & (Q1 & Hl & Hr)%sum_bind_inr)%sum_bind_inr. injection Hr as <- <-.
  set (now := tk_now _) in *. assert (reads s now) as Hrd by by exists (s_pos s).
  exists (EvClaim by_ (Microseconds ttl) now now ids). split; [by eapply picks_step|].
  exists now, now, ids. do 4 (split; [done|]). apply lease_ids_ok in Hl as [-> _].
  apply fetch_rows_perm, plan_perm.
Qed.

(** *** Statements only move forward *)

Definition steady {A} (m : Sq A) : Prop :=
  ∀ s, s_ticks (m s).2 = s_ticks s ∧ (s_pos s ≤ s_pos (m s).2)%nat.

Lemma steady_ret {A} (a : A) : steady (mret a : Sq A).
Proof. done. Qed.
Lemma steady_fail {A} err : steady (fail err : Sq A).
Proof. done. Qed.
Lemma steady_bind {A B} (m : Sq A) (k : A → Sq B) :
  steady m → (∀ a, steady (k a)) → steady (m ≫= k).
Proof.
  intros Hm Hk s. rewrite Sq_bind_run. specialize (Hm s). destruct (m s) as [[err|a] s']; cbn in *; [done|].
  destruct (Hk a s') as [Ht Hp], Hm as [Ht' Hp']. split; [congruence|lia].
Qed.
Lemma steady_stmt {A} clk (f : Z → database → error + (A * database)) : steady (stmt clk f).
Proof.
  intros s. unfold stmt. destruct (tk_fault _); cbn; [split; [done|lia]|].
  destruct (f _ _) as [|[]]; cbn; (split; [done|lia]).
Qed.
Lemma steady_auto {A} (f : Z → database → error + (A * database)) : steady (auto_stmt f).
Proof.
  intros s. unfold auto_stmt. destruct (f _ _) as [|[]]; cbn; [split; [done|lia]|].
  destruct (tk_fault _); cbn; (split; [done|lia]).
Qed.
Lemma steady_attempt {A} (m : Sq A) : steady m → steady (attempt m).
Proof. intros Hm s. unfold attempt. specialize (Hm s). by destruct (m s) as [[]]. Qed.
Lemma steady_BeginTx : steady BeginTx.
Proof.
  intros s. unfold BeginTx. pose proof (steady_stmt None (λ now db, inr (now, db)) s) as Hs.
  by destruct (stmt _ _ s) as [[]].
Qed.
Lemma steady_Rollback tx : steady (Rollback tx).
Proof. intros s. cbn. split; [done|lia]. Qed.
Lemma steady_Commit tx : steady (Commit tx).
Proof.
  intros s. unfold Commit. destruct (negb _); cbn; [split; [done|lia]|].
  destruct (tk_fault _); cbn; (split; [done|lia]).
Qed.

#[export] Hint Resolve steady_ret steady_fail steady_bind steady_stmt steady_auto steady_attempt
  steady_BeginTx steady_Rollback steady_Commit : queue.

(** A statement of a transaction. *)
Lemma stmt_queue {A} e table Q clk (f : Z → queue_table → error + (A * queue_table)) s :
  s_db s !! table = Some (RQueue Q) →
  stmt clk (λ now, on_queue e (quote (quote_char e) table) (f now)) s =
    let t := s_ticks s (s_pos s) in
    match tk_fault t with
    | Some err => (inl err, advance s (s_db s))
    | None =>
        match f (default (tk_now t) clk) Q with
        | inl err => (inl err, advance s (s_db s))
        | inr (a, Q') => (inr a, advance s (<[table := RQueue Q']> (s_db s)))
        end
    end.
Proof.
  intros Hq. unfold stmt. cbn zeta. destruct (tk_fault _); [done|].
  rewrite (on_queue_eq e table (s_db s) Q Hq). by destruct (f _ Q) as [|[]].
Qed.

(** *** The claim of mysql, in two statements *)

(** The counters of the rows are counters. *)
Definition counted_rows (Q : queue_table) : Prop :=
  ∀ i r, q_rows Q !! i = Some r → 0 ≤ q_delivery_count r ∧ 0 ≤ q_lease_epoch r.

Lemma bumped_leased e now by_ i r :
  0 ≤ q_delivery_count r → 0 ≤ q_lease_epoch r → counters_fit e r = true →
  bumped (claimed_row i r) = claimed_row i (leased now by_ r).
Proof.
  intros Hd He. unfold counters_fit, count_max. rewrite andb_true_iff, !Z.ltb_lt. intros [Hf1 Hf2].
  unfold bumped, claimed_row. cbn. rewrite !wrap64_id; [done|..]; unfold int64_range, MinInt64, MaxInt64 in *;
    destruct e; lia.
Qed.

Lemma bumped_rows e now by_ ids R :
  (∀ i, i ∈ ids → ∃ r, R !! i = Some r ∧ 0 ≤ q_delivery_count r ∧ 0 ≤ q_lease_epoch r ∧
     counters_fit e r = true) →
  bumped <$> fetch_rows ids R = fetch_rows ids (update_ids (leased now by_) ids R).
Proof.
  intros Hall. unfold fetch_rows.
  enough (∀ l, (∀ i, i ∈ l → i ∈ ids) →
    bumped <$> omap (λ i, claimed_row i <$> R !! i) l =
    omap (λ i, claimed_row i <$> update_ids (leased now by_) ids R !! i) l) as Hen by by apply Hen.
  induction l as [|i l IH]; intros Hsub; [done|]. cbn. rewrite lookup_update_ids.
  destruct (Hall i) as (r & Hr & Hd & He & Hf); [apply Hsub; by left|]. rewrite Hr. cbn.
  rewrite bool_decide_eq_true_2 by (apply Hsub; by left). rewrite (bumped_leased e now by_) by done.
  f_equal. apply IH. intros j Hj. apply Hsub. by right.
Qed.

Lemma mysqlClaimInTx_steady `{Planner} qt limit by_ ttl : steady (mysqlClaimInTx qt limit by_ ttl).
Proof.
  unfold mysqlClaimInTx, mysqlScanClaim. apply steady_bind.
  - apply steady_bind; [apply steady_stmt|]. intros. apply steady_ret.
  - intros a. destruct (bool_decide _); [apply steady_ret|].
    apply steady_bind; [apply steady_stmt|]. intros. apply steady_ret.
Qed.

Lemma mysqlClaimInTx_run `{Planner} table limit by_ ttl s Q rows s' :
  s_db s !! table = Some (RQueue Q) → counted_rows Q →
  mysqlClaimInTx (quote (quote_char MySQL) table) limit by_ ttl s = (inr rows, s') →
  ∃ n1 n2 ids, reads s n1 ∧ reads s n2 ∧ picks MySQL n1 (Microseconds ttl) limit Q ids ∧
    qstep MySQL Q (EvClaim by_ (Microseconds ttl) n1 n2 ids) (set_rows (update_ids (leased n2 by_) ids) Q) ∧
    s_db s' = <[table := RQueue (set_rows (update_ids (leased n2 by_) ids) Q)]> (s_db s) ∧
    rows = fetch_rows ids (update_ids (leased n2 by_) ids (q_rows Q)).
Proof.
  intros Hq Hc. unfold mysqlClaimInTx, mysqlScanClaim, select_claim, update_claim.
  rewrite !Sq_bind_run. rewrite (stmt_queue MySQL table Q None (λ now Q,
    let? ids := limit_rows MySQL limit (pick_ids (claimable now (Microseconds ttl)) Q) in
    inr (fetch_rows ids (q_rows Q), Q)) s Hq). cbn zeta.
  destruct (tk_fault _); [done|]. cbn [default]. set (n1 := tk_now _).
  assert (reads s n1) as Hn1 by by exists (s_pos s).
  destruct (limit_rows MySQL limit _) as [err|ids] eqn:Hl; [done|]. cbn.
  pose proof (picks_spec MySQL n1 (Microseconds ttl) limit Q ids Hl) as [Hnd Hall].
  rewrite put_queue_id by done. rewrite fetch_rows_ids by (intros i Hi; destruct (Hall i Hi) as (r & -> & _); done).
  destruct (bool_decide (ids = [])) eqn:Hids.
  - apply bool_decide_eq_true in Hids as ->. intros [= <- <-]. exists n1, n1, []. do 3 (split; [done|]).
    assert (set_rows (update_ids (leased n1 by_) []) Q = Q) as Hid by apply set_rows_id, update_ids_nil.
    split; [constructor; [constructor|]; by intros i Hi%not_elem_of_nil|].
    split; [by rewrite Hid, put_queue_id|done].
  - rewrite Sq_bind_run. set (s1 := advance s (s_db s)).
    rewrite (stmt_queue MySQL table Q None (λ now Q, let? Q' := lease_ids MySQL now by_ ids Q in inr (tt, Q')) s1 Hq).
    cbn zeta. destruct (tk_fault _); [done|]. cbn [default]. set (n2 := tk_now _).
    assert (reads s n2) as Hn2 by (exists (S (s_pos s)); split; [lia|done]).
    destruct (lease_ids MySQL n2 by_ ids Q) as [err|Q'] eqn:Hle; [done|]. cbn. intros [= <- <-].
    exists n1, n2, ids. pose proof (lease_ids_ok _ _ _ _ _ _ Hle) as [-> Hfit].
    split; [done|]. split; [done|]. split; [done|]. split; [by eapply picks_step|]. split; [done|].
    apply (bumped_rows MySQL). intros i Hi. destruct (Hall i Hi) as (r & Hr & _). exists r.
    destruct (Hc i r Hr). naive_solver.
Qed.

Lemma reads_later s s' n :
  s_ticks s' = s_ticks s → (s_pos s ≤ s_pos s')%nat → reads s' n → reads s n.
Proof. intros Ht Hp (i & Hi & ->). exists i. rewrite Ht. split; [lia|done]. Qed.

Lemma mysqlClaim_outcome `{Planner} table s Q limit by_ ttl :
  ValidateIdent table = None → s_db s !! table = Some (RQueue Q) → counted_rows Q →
  op_outcome MySQL table s Q (mysqlClaim QDB table limit by_ ttl s) (λ rows ev,
    ∃ n1 n2 ids, reads s n1 ∧ reads s n2 ∧ picks MySQL n1 (Microseconds ttl) limit Q ids ∧
      ev = EvClaim by_ (Microseconds ttl) n1 n2 ids ∧
      rows ≡ₚ fetch_rows ids (update_ids (leased n2 by_) ids (q_rows Q))).
Proof.
  intros Hv Hq Hc. unfold mysqlClaim, quoted, QuoteTable. rewrite Hv, Sq_bind_run.
  unfold in_tx, stmt at 1. destruct (tk_fault _) as [err|] eqn:Hf0; [by apply outcome_none; auto; cbn; lia|].
  cbn [default]. fold (advance s (s_db s)). set (s1 := advance s (s_db s)). rewrite Sq_bind_run.
  pose proof (mysqlClaimInTx_steady (quote (quote_char MySQL) table) limit by_ ttl s1) as [Ht Hp].
  pose proof (mysqlClaimInTx_run table limit by_ ttl s1 Q) as Hrun.
  destruct (mysqlClaimInTx _ _ _ _ s1) as [[err|rows] s2]; cbn [fst snd] in Ht, Hp; cbn [s_pos s1 advance] in Hp.
  { apply outcome_none; cbn [s_pos rolled_back s_ticks s_db]; [done|by rewrite Ht|lia|done|done]. }
  destruct (Hrun rows s2 Hq Hc eq_refl) as (n1 & n2 & ids & Hn1 & Hn2 & Hpk & Hst & Hdb & Hrows). clear Hrun.
  assert (∀ n, reads s1 n → reads s n) as Hrd by (intros n; apply reads_later; [done|cbn; lia]).
  unfold mret, Sq_ret. cbn [fst snd].
  assert (∀ r s', s_ticks s' = s_ticks s2 → (s_pos s2 ≤ s_pos s')%nat → s_db s' = s_db s2 →
    match r with inr rows' => rows' = rows | inl err => faulted s err end →
    op_outcome MySQL table s Q (r, s') (λ rows ev,
    ∃ n1 n2 ids, reads s n1 ∧ reads s n2 ∧ picks MySQL n1 (Microseconds ttl) limit Q ids ∧
      ev = EvClaim by_ (Microseconds ttl) n1 n2 ids ∧
      rows ≡ₚ fetch_rows ids (update_ids (leased n2 by_) ids (q_rows Q)))) as Hdone.
  { intros r s' Ht' Hp' Hdb' Hr. unfold op_outcome. cbn [fst snd]. split; [by rewrite Ht', Ht|]. split; [lia|].
    eexists _, _. split; [exact Hst|]. split; [by rewrite Hdb', Hdb|]. destruct r as [err|rows'].
    - right. split; [done|]. exists rows, n1, n2, ids. rewrite Hrows. auto 6.
    - exists n1, n2, ids. rewrite Hr, Hrows. auto 6. }
  destruct (tk_fault (s_ticks s2 (s_pos s2))) as [err|] eqn:Hf; [|by apply Hdone; cbn; (done || lia)].
  destruct (tk_applied _).
  - apply Hdone; cbn; try (done || lia). exists (s_pos s2). split; [lia|]. by rewrite <- Hf, Ht.
  - apply outcome_none; cbn [s_pos rolled_back s_ticks s_db]; [done|by rewrite Ht|lia|done|done].
Qed.

(** ** The dialects keep the promise *)

Lemma schema_missing_clean {A} (m : Sq A) s : (∃ err s', m s = (inl err, s') ∧ s_db s' = s_db s ∧ s_ticks s' = s_ticks s) → fails_clean m s.
Proof. done. Qed.

Lemma exec_missing {A} e q (f : Z → queue_table → error + (A * queue_table)) table s :
  s_db s !! table = None →
  fails_clean (exec e q (λ now, on_queue e (quote (quote_char e) table) (f now))) s.
Proof.
  intros Hn. assert (∀ now, on_queue e (quote (quote_char e) table) (f now) (s_db s) = inl undefined_table) as Hq.
  { intros now. unfold on_queue. by rewrite unquote_quote, Hn. }
  unfold fails_clean, exec, auto_stmt, stmt.
  destruct q; [rewrite Hq; by eexists _, _|..]; (destruct (tk_fault _); [|rewrite Hq]; by eexists _, _).
Qed.

Section missing.
Context `{Planner, JsonColumn} (e : engine) (table : string) (s : session).
Context (Hv : ValidateIdent table = None) (Hn : s_db s !! table = None).

Lemma queue_settle_missing q i by_ ep delay :
  fails_clean (ack e q table i by_ ep) s ∧ fails_clean (nack e q table i by_ ep delay) s.
Proof using Hv Hn.
  unfold ack, nack, quoted, QuoteTable. rewrite Hv.
  split; apply fails_clean_bind.
  - exact (exec_missing e q (λ _ Q, inr (fenced_row i by_ ep (λ _, None) Q)) table s Hn).
  - exact (exec_missing e q (λ now Q, inr (fenced_row i by_ ep (λ r, Some (returned (now + Microseconds delay) r)) Q)) table s Hn).
Qed.

Lemma insert_missing q id headers payload delay : fails_clean (insert e q table id headers payload delay) s.
Proof using Hv Hn.
  unfold insert, quoted, QuoteTable. rewrite Hv. unfold insert_queue.
  exact (exec_missing e q (λ now Q,
    let? col := column e headers in
    let i := next_id e Q in
    if MaxInt64 <? i then inl (Opaque "no identifier left")
    else inr (tt, add_row i (new_row id col payload (now + Microseconds delay)) Q)) table s Hn).
Qed.

Lemma one_shot_missing q limit by_ ttl : fails_clean (one_shot_claim e q table limit by_ ttl) s.
Proof using Hv Hn.
  unfold one_shot_claim, quoted, QuoteTable. rewrite Hv. unfold claim_returning.
  exact (exec_missing e q (λ now Q,
    let? ids := limit_rows e limit (pick_ids (claimable now (Microseconds ttl)) Q) in
    let? Q' := lease_ids e now by_ ids Q in inr (fetch_rows (plan ids) (q_rows Q'), Q')) table s Hn).
Qed.
End missing.

Lemma mysqlClaim_missing `{Planner} table s limit by_ ttl :
  ValidateIdent table = None → s_db s !! table = None → fails_clean (mysqlClaim QDB table limit by_ ttl) s.
Proof.
  intros Hv Hn. unfold mysqlClaim, quoted, QuoteTable. rewrite Hv. apply fails_clean_bind, in_tx_clean.
  intros now p. apply fails_clean_bind. unfold mysqlClaimInTx, mysqlScanClaim.
  apply fails_clean_bind, fails_clean_bind. unfold select_claim.
  exact (exec_missing MySQL (QOther "") (λ now Q,
    let? ids := limit_rows MySQL limit (pick_ids (claimable now (Microseconds ttl)) Q) in
    inr (fetch_rows ids (q_rows Q), Q)) table (mkSession (s_db s) (s_ticks s) p) Hn).
Qed.

Lemma insert_tx_run `{JsonColumn} e table s Q tx id headers payload delay :
  ValidateIdent table = None → s_db s !! table = Some (RQueue Q) →
  match insert e (QTx tx) table id headers payload delay s with
  | (inl _, s') => s' = advance s (s_db s)
  | (inr _, s') => ∃ n col, (reads s n ∨ n = tx_start tx) ∧ column e headers = inr col ∧
      s' = advance s (<[table := RQueue (add_row (next_id e Q)
             (new_row id col payload (n + Microseconds delay)) Q)]> (s_db s))
  end.
Proof.
  intros Hv Hq. unfold insert, quoted, QuoteTable. rewrite Hv. unfold insert_queue, exec.
  rewrite (stmt_queue e table Q (tx_clock e tx) (λ now Q,
    let? col := (match e with SQLite => inr headers | _ => json_column e headers end) in
    let i := next_id e Q in
    if MaxInt64 <? i then inl (Opaque "no identifier left")
    else inr (tt, add_row i (new_row id col payload (now + Microseconds delay)) Q)) s Hq). cbn zeta.
  destruct (tk_fault _); [done|]. set (n := default _ _).
  change (match e with SQLite => inr headers | _ => json_column e headers end) with (column e headers).
  destruct (column e headers) as [err|col]; cbn [sum_bind]; [done|]. destruct (MaxInt64 <? _); [done|].
  exists n, col. split; [|done]. unfold n. destruct e; cbn; [by right|left|left]; by exists (s_pos s).
Qed.

#[export] Instance postgresDialect_laws `{Planner, JsonColumn} : LeaseDialectLaws Postgres postgresDialect.
Proof.
  split; cbn [Claim Ack Nack Insert_ SchemaExists_ postgresDialect].
  - intros. by apply one_shot_outcome.
  - intros. by apply ack_outcome.
  - intros. by apply nack_outcome.
  - intros. by eapply settle_errs_run.
  - intros. by apply insert_outcome.
  - intros. by apply insert_tx_run.
  - done.
  - intros table s Hv Hn. repeat split; intros;
      [by apply one_shot_missing|by apply (queue_settle_missing Postgres _ _ Hv Hn _ _ _ _ 0)|by apply queue_settle_missing|
       by apply insert_missing].
Qed.

#[export] Instance mysqlDialect_laws `{Planner, JsonColumn} : LeaseDialectLaws MySQL mysqlDialect.
Proof.
  split; cbn [Claim Ack Nack Insert_ SchemaExists_ mysqlDialect].
  - intros. by apply mysqlClaim_outcome.
  - intros. by apply ack_outcome.
  - intros. by apply nack_outcome.
  - intros. by eapply settle_errs_run.
  - intros. by apply insert_outcome.
  - intros. by apply insert_tx_run.
  - done.
  - intros table s Hv Hn. repeat split; intros;
      [by apply mysqlClaim_missing|by apply (queue_settle_missing MySQL _ _ Hv Hn _ _ _ _ 0)|by apply queue_settle_missing|
       by apply insert_missing].
Qed.

#[export] Instance sqliteDialect_laws `{Planner, JsonColumn} : LeaseDialectLaws SQLite sqliteDialect.
Proof.
  split; cbn [Claim Ack Nack Insert_ SchemaExists_ sqliteDialect].
  - intros. by apply one_shot_outcome.
  - intros. by apply ack_outcome.
  - intros. by apply nack_outcome.
  - intros. by eapply settle_errs_run.
  - intros. by apply insert_outcome.
  - intros. by apply insert_tx_run.
  - done.
  - intros table s Hv Hn. repeat split; intros;
      [by apply one_shot_missing|by apply (queue_settle_missing SQLite _ _ Hv Hn _ _ _ _ 0)|by apply queue_settle_missing|
       by apply insert_missing].
Qed.

Definition lease_dialects `{Planner, JsonColumn} : list (engine * LeaseDialect) :=
  [(Postgres, postgresDialect); (MySQL, mysqlDialect); (SQLite, sqliteDialect)].

Lemma lease_dialects_laws `{Planner, JsonColumn} e d : (e, d) ∈ lease_dialects → LeaseDialectLaws e d.
Proof.
  unfold lease_dialects. rewrite !elem_of_cons, elem_of_nil.
  intros [[= -> ->]|[[= -> ->]|[[= -> ->]|[]]]]; apply _.
Qed.
