(* ===== verification/SqlLock.v ===== *)
(** * The lock strategy of the SQL queue

    What the methods of [LockDialect] mean to the queue table: a claim holds its
    row in an open transaction, which the settlement commits or which is rolled
    back.  A transaction may hold rows of any table, so the laws speak of the
    table the queue is in. *)

From S2P Require Import Prelude Message SqlEngine SqlGroup SqlQueue.
Local Open Scope Z_scope.

#[local] Arguments quote : simpl never.
#[local] Arguments quote_char : simpl never.

(** How a method of the lock strategy on the transaction [n] ends; a failure
    ends the transaction without effect, unless the driver lost the answer of
    COMMIT. *)
Definition lock_outcome {A} (e : engine) (table : string) (n : nat) (s : session) (Q : queue_table)
    (r : (error + A) * session) (P : A → qevent → Prop) : Prop :=
  s_ticks r.2 = s_ticks s ∧ (s_pos s < s_pos r.2)%nat ∧
  ∃ ev Q', qstep e Q ev Q' ∧ s_db r.2 !! table = Some (RQueue Q') ∧
    match r.1 with
    | inr a => P a ev
    | inl err => ev = EvNone ∨ ev = EvRelease n ∨ (faulted s err ∧ ∃ a, P a ev)
    end.

(** The transactions that hold rows were begun before [p], and a locked row is
    not deleted before its transaction ends. *)
Definition locks_before (p : nat) (Q : queue_table) : Prop :=
  ∀ i l, q_locks Q !! i = Some l → (l.1 < p)%nat ∧ is_Some l.2.

(** Transaction [n] holds no row of the table. *)
Definition closed_in (table : string) (n : nat) (db : database) : Prop :=
  ∀ Q i l, db !! table = Some (RQueue Q) → q_locks Q !! i = Some l → l.1 ≠ n.

Class LockDialectLaws `{Planner} (e : engine) (d : LockDialect) : Prop := {
  ClaimLock_law table s Q by_ :
    ValidateIdent table = None → s_db s !! table = Some (RQueue Q) → counted_rows Q →
    locks_before (s_pos s) Q →
    lock_outcome e table (s_pos s) s Q (ClaimLock d QDB table by_ s) (λ lr ev,
      ∃ n, reads s n ∧
      match lr with
      | Some lr =>
          ∃ i r ids, pick_ids (lockable n) Q = i :: ids ∧ q_rows Q !! i = Some r ∧
            ev = EvLock (s_pos s) n i ∧
            lr = mkLockedRow i (q_msg_id r) (q_headers r) (q_payload r) (q_delivery_count r + 1)
                   (mkTx (s_pos s) (tx_start (lr_Tx lr)))
      | None =>
          ev = EvNone ∧ (pick_ids (lockable n) Q = [] ∨ ∃ err, faulted s err ∧ Is err sql_ErrNoRows = true)
      end);
  AckLock_law table s Q lr p :
    ValidateIdent table = None → s_db s !! table = Some (RQueue Q) → locks_before p Q →
    lock_outcome e table (tx_id (lr_Tx lr)) s Q (AckLock d lr table s) (λ _ ev, ev = EvLockAck (tx_id (lr_Tx lr)) (lr_ID lr));
  NackLock_law table s Q lr delay p :
    ValidateIdent table = None → s_db s !! table = Some (RQueue Q) → locks_before p Q →
    lock_outcome e table (tx_id (lr_Tx lr)) s Q (NackLock d lr table delay s) (λ _ ev,
      ∃ n, (reads s n ∨ n = tx_start (lr_Tx lr)) ∧
        ev = EvLockNack (tx_id (lr_Tx lr)) (lr_ID lr) (n + Microseconds delay));
  (** No method leaves its transaction open, but the claim that returns it. *)
  ClaimLock_closes table s by_ :
    closed_in table (s_pos s) (s_db s) →
    match ClaimLock d QDB table by_ s with
    | (inr (Some _), _) => True
    | (_, s') => closed_in table (s_pos s) (s_db s')
    end;
  AckLock_closes table s lr : closed_in table (tx_id (lr_Tx lr)) (s_db (AckLock d lr table s).2);
  NackLock_closes table s lr delay :
    closed_in table (tx_id (lr_Tx lr)) (s_db (NackLock d lr table delay s).2)
}.

(** ** Locks *)

Lemma on_queues_lookup f db table Q :
  db !! table = Some (RQueue Q) → on_queues f db !! table = Some (RQueue (f Q)).
Proof. intros Hq. unfold on_queues. by rewrite lookup_fmap, Hq. Qed.

Lemma free_locks_fresh n Q : (∀ i l, q_locks Q !! i = Some l → l.1 ≠ n) → free_locks n Q = Q.
Proof.
  intros Hf. unfold free_locks. destruct Q as [R m L]; cbn in *. f_equal.
  apply map_filter_id. intros i l Hl. by apply (Hf i l).
Qed.

Lemma free_with_lock_fresh n i v Q :
  (∀ i l, q_locks Q !! i = Some l → l.1 ≠ n) → q_locks Q !! i = None → free_locks n (with_lock i n v Q) = Q.
Proof.
  intros Hf Hi. unfold free_locks, with_lock. destruct Q as [R m L]; cbn in *. f_equal.
  rewrite map_filter_insert_False by (cbn; auto). rewrite delete_id by done.
  apply map_filter_id. intros j l Hl. by apply (Hf j l).
Qed.

Lemma free_with_lock n i v v' Q :
  q_locks Q !! i = Some (n, v') → free_locks n (with_lock i n v Q) = free_locks n Q.
Proof.
  intros Hi. unfold free_locks, with_lock. cbn. f_equal.
  rewrite map_filter_insert_False by (cbn; auto). apply map_eq. intros j.
  destruct (decide (j = i)) as [->|Hj].
  - rewrite map_lookup_filter, lookup_delete_eq. cbn. symmetry. apply map_lookup_filter_None.
    right. intros l Hl. cbn. rewrite Hi in Hl. injection Hl as <-. auto.
  - by rewrite !map_lookup_filter, lookup_delete_ne by done.
Qed.

Lemma free_publish n Q : free_locks n (publish n Q) = publish n Q.
Proof.
  apply free_locks_fresh. cbn. intros i l Hl%map_lookup_filter_Some. apply Hl.
Qed.

Lemma holding_open n i v db table Q :
  db !! table = Some (RQueue Q) → q_locks Q !! i = Some (n, v) → tx_open n db = true.
Proof.
  intros Hq Hi. unfold tx_open. apply bool_decide_eq_true. exists table, (RQueue Q).
  split; [done|]. cbn. apply bool_decide_eq_true. by exists i, (n, v).
Qed.

Lemma tx_clock_reads e tx s :
  let n := default (tk_now (s_ticks s (s_pos s))) (tx_clock e tx) in reads s n ∨ n = tx_start tx.
Proof. destruct e; cbn; [by right|left|left]; by exists (s_pos s). Qed.

(** A statement on a locked row. *)
Lemma on_locked_run e table tx i f Q s :
  s_db s !! table = Some (RQueue Q) →
  on_locked e tx (quote (quote_char e) table) i f s =
    match tk_fault (s_ticks s (s_pos s)) with
    | Some err => (inl err, advance s (s_db s))
    | None =>
        match q_locks Q !! i with
        | Some (n, v) =>
            if bool_decide (n = tx_id tx) then
              match (match v with
                     | Some r => f (default (tk_now (s_ticks s (s_pos s))) (tx_clock e tx)) r
                     | None => inr None
                     end) with
              | inl err => (inl err, advance s (s_db s))
              | inr v' => (inr tt, advance s (<[table := RQueue (with_lock i n v' Q)]> (s_db s)))
              end
            else (inl (Sentinel ErrTxDone), advance s (s_db s))
        | None => (inl (Sentinel ErrTxDone), advance s (s_db s))
        end
    end.
Proof.
  intros Hq. unfold on_locked.
  rewrite (stmt_queue e table Q _ (λ now Q, match q_locks Q !! i with
    | Some (n, v) =>
        if bool_decide (n = tx_id tx) then
          let? v' := (match v with Some r => f now r | None => inr None end) in
          inr (tt, mkQueue (q_rows Q) (q_last Q) (<[i := (n, v')]> (q_locks Q)))
        else inl (Sentinel ErrTxDone)
    | None => inl (Sentinel ErrTxDone)
    end) s Hq). cbn zeta. destruct (tk_fault _); [done|].
  destruct (q_locks Q !! i) as [[n v]|]; [|done]. destruct (bool_decide _); [|done].
  by destruct v as [r|]; [destruct (f _ r)|].
Qed.

(** Rolling back and returning an error frees the row. *)
Lemma rolled_back_outcome {A} e table s Q tx err s1 Q1 (P : A → qevent → Prop) :
  s_ticks s1 = s_ticks s → (s_pos s ≤ s_pos s1)%nat → s_db s1 !! table = Some (RQueue Q1) →
  free_locks (tx_id tx) Q1 = free_locks (tx_id tx) Q →
  lock_outcome e table (tx_id tx) s Q ((_ ← Rollback tx; fail err) s1) P.
Proof.
  intros Ht Hp Hq Hf. rewrite Sq_bind_run. unfold lock_outcome. cbn. split; [done|]. split; [lia|].
  exists (EvRelease (tx_id tx)), (free_locks (tx_id tx) Q). split; [constructor|].
  split; [|by right; left]. rewrite <- Hf. by apply on_queues_lookup.
Qed.

(** COMMIT of a transaction that holds a row of the table. *)
Lemma Commit_run table tx Q i v s :
  s_db s !! table = Some (RQueue Q) → q_locks Q !! i = Some (tx_id tx, v) →
  let t := s_ticks s (s_pos s) in
  Commit tx s =
    match tk_fault t with
    | Some err => (inl err, advance s (if tk_applied t then on_queues (publish (tx_id tx)) (s_db s)
                                       else release_locks (tx_id tx) (s_db s)))
    | None => (inr tt, advance s (on_queues (publish (tx_id tx)) (s_db s)))
    end.
Proof. intros Hq Hi t. unfold Commit. by rewrite (holding_open _ i v _ _ _ Hq Hi). Qed.

(** SettleLockTx ends the transaction: committed with its statement, or with
    the row as it was. *)
Lemma lock_settle_outcome e table s Q tx i g p (E : Z → qevent) :
  s_db s !! table = Some (RQueue Q) → locks_before p Q →
  (∀ n r, q_locks Q !! i = Some (tx_id tx, Some r) →
     qstep e Q (E n) (publish (tx_id tx) (with_lock i (tx_id tx) (g n r) Q))) →
  lock_outcome e table (tx_id tx) s Q
    (SettleLockTx tx (on_locked e tx (quote (quote_char e) table) i (λ now r, inr (g now r))) s)
    (λ _ ev, ∃ n, (reads s n ∨ n = tx_start tx) ∧ ev = E n).
Proof.
  intros Hq Hlk Hst. unfold SettleLockTx. rewrite Sq_bind_run. unfold attempt at 1.
  rewrite (on_locked_run e table tx i (λ now r, inr (g now r)) Q s Hq).
  pose proof (tx_clock_reads e tx s) as Hn. cbn zeta in Hn. set (n := default _ _) in *.
  set (s1 := advance s (s_db s)).
  assert (∀ err, lock_outcome e table (tx_id tx) s Q ((_ ← Rollback tx; fail err) s1)
            (λ (_ : unit) ev, ∃ n, (reads s n ∨ n = tx_start tx) ∧ ev = E n)) as Hfail.
  { intros err. apply (rolled_back_outcome e table s Q tx err s1 Q); cbn; (done || lia). }
  destruct (tk_fault (s_ticks s (s_pos s))) as [err|]; [apply Hfail|].
  destruct (q_locks Q !! i) as [[m v]|] eqn:Hi; [|apply Hfail].
  destruct (bool_decide (m = tx_id tx)) eqn:Hm; [|apply Hfail]. apply bool_decide_eq_true in Hm as ->.
  destruct (Hlk i _ Hi) as [_ [r Hr]]. cbn in Hr. subst v. specialize (Hst n r eq_refl).
  set (Q1 := with_lock i (tx_id tx) (g n r) Q) in *.
  set (s2 := advance s (<[table := RQueue Q1]> (s_db s))). rewrite Sq_bind_run. unfold attempt.
  assert (s_db s2 !! table = Some (RQueue Q1)) as Hq2 by apply lookup_insert_eq.
  rewrite (Commit_run table tx Q1 i (g n r) s2 Hq2) by apply lookup_insert_eq.
  destruct (tk_fault (s_ticks s2 (s_pos s2))) as [err|] eqn:Hf.
  - destruct (tk_applied _).
    + rewrite Sq_bind_run. unfold lock_outcome. cbn. split; [done|]. split; [lia|].
      exists (E n), (publish (tx_id tx) Q1). split; [done|]. split.
      * rewrite <- free_publish. unfold release_locks. apply on_queues_lookup. by apply on_queues_lookup.
      * do 2 right. split; [|by exists tt, n]. exists (S (s_pos s)). split; [lia|done].
    + apply (rolled_back_outcome e table s Q tx err _ (free_locks (tx_id tx) Q1)); cbn; [done|lia| |].
      * by apply on_queues_lookup.
      * rewrite free_locks_fresh by (cbn; intros j l Hl%map_lookup_filter_Some; apply Hl).
        by eapply free_with_lock.
  - unfold lock_outcome. cbn. split; [done|]. split; [lia|]. exists (E n), (publish (tx_id tx) Q1).
    split; [done|]. split; [by apply on_queues_lookup|]. by exists n.
Qed.

Section methods.
Context `{Planner} (e : engine) (table : string) (s : session) (Q : queue_table).
Context (Hv : ValidateIdent table = None) (Hq : s_db s !! table = Some (RQueue Q)).

Lemma ack_lock_outcome lr p :
  locks_before p Q →
  lock_outcome e table (tx_id (lr_Tx lr)) s Q (ack_lock e lr table s) (λ _ ev, ev = EvLockAck (tx_id (lr_Tx lr)) (lr_ID lr)).
Proof using Hv Hq.
  intros Hlk. unfold ack_lock, QuoteTable. rewrite Hv.
  pose proof (lock_settle_outcome e table s Q (lr_Tx lr) (lr_ID lr) (λ _ _, None) p
    (λ _, EvLockAck (tx_id (lr_Tx lr)) (lr_ID lr)) Hq Hlk) as (Ht & Hp & ev & Q' & Hst & Hdb & HP).
  { intros n r Hi. by eapply step_lock_ack. }
  split; [done|]. split; [done|]. exists ev, Q'. do 2 (split; [done|]).
  unfold delete_locked. destruct (SettleLockTx _ _ _).1; [|by destruct HP as (n & _ & ->)].
  destruct HP as [?|[?|(? & _ & n & _ & ->)]]; [by left|by right; left|].
  right; right. split; [done|by exists tt].
Qed.

Lemma nack_lock_outcome lr delay p :
  locks_before p Q →
  lock_outcome e table (tx_id (lr_Tx lr)) s Q (nack_lock e lr table delay s) (λ _ ev,
    ∃ n, (reads s n ∨ n = tx_start (lr_Tx lr)) ∧
      ev = EvLockNack (tx_id (lr_Tx lr)) (lr_ID lr) (n + Microseconds delay)).
Proof using Hv Hq.
  intros Hlk. unfold nack_lock, QuoteTable. rewrite Hv.
  refine (lock_settle_outcome e table s Q (lr_Tx lr) (lr_ID lr)
    (λ now r, Some (returned (now + Microseconds delay) r)) p
    (λ n, EvLockNack (tx_id (lr_Tx lr)) (lr_ID lr) (n + Microseconds delay)) Hq Hlk _).
  intros n r Hi. by apply step_lock_nack.
Qed.
End methods.

Lemma lock_outcome_none {A} e table n s Q (P : A → qevent → Prop) r s' :
  s_db s' !! table = Some (RQueue Q) → s_ticks s' = s_ticks s → (s_pos s < s_pos s')%nat →
  match r with inr a => P a EvNone | inl _ => True end →
  lock_outcome e table n s Q (r, s') P.
Proof.
  intros Hq Ht Hp HP. split; [done|]. split; [done|]. exists EvNone, Q. split; [constructor|].
  split; [done|]. by destruct r; [left|].
Qed.

Lemma BeginTx_run s :
  BeginTx s = match tk_fault (s_ticks s (s_pos s)) with
              | Some err => (inl err, advance s (s_db s))
              | None => (inr (mkTx (s_pos s) (tk_now (s_ticks s (s_pos s)))), advance s (s_db s))
              end.
Proof. unfold BeginTx, stmt. by destruct (tk_fault _). Qed.

(** A claim that rolls back leaves the table as it was. *)
Lemma claim_back_outcome {A} e table s Q r s' Q' (P : A → qevent → Prop) :
  s_ticks s' = s_ticks s → (s_pos s ≤ s_pos s')%nat → s_db s' !! table = Some (RQueue Q') →
  free_locks (s_pos s) Q' = Q → match r with inr a => P a EvNone | inl _ => True end →
  lock_outcome e table (s_pos s) s Q (r, advance s' (release_locks (s_pos s) (s_db s'))) P.
Proof.
  intros Ht Hp Hq' Hfree HP. apply lock_outcome_none; cbn; [|done|lia|done].
  rewrite <- Hfree. by apply on_queues_lookup.
Qed.

Lemma claim_lock_outcome `{Planner} e table s Q by_ :
  ValidateIdent table = None → s_db s !! table = Some (RQueue Q) → counted_rows Q →
  locks_before (s_pos s) Q →
  lock_outcome e table (s_pos s) s Q (claim_lock e QDB table by_ s) (λ lr ev,
    ∃ n, reads s n ∧
    match lr with
    | Some lr =>
        ∃ i r ids, pick_ids (lockable n) Q = i :: ids ∧ q_rows Q !! i = Some r ∧
          ev = EvLock (s_pos s) n i ∧
          lr = mkLockedRow i (q_msg_id r) (q_headers r) (q_payload r) (q_delivery_count r + 1)
                 (mkTx (s_pos s) (tx_start (lr_Tx lr)))
    | None =>
        ev = EvNone ∧ (pick_ids (lockable n) Q = [] ∨ ∃ err, faulted s err ∧ Is err sql_ErrNoRows = true)
    end).
Proof.
  intros Hv Hq Hc Hlk. unfold claim_lock, quoted, QuoteTable, BeginLockTx. rewrite Hv, Sq_bind_run, BeginTx_run.
  assert (∀ i l, q_locks Q !! i = Some l → l.1 ≠ s_pos s) as Hfresh.
  { intros i l Hl. destruct (Hlk i l Hl). lia. }
  destruct (tk_fault (s_ticks s (s_pos s))) as [err|] eqn:Hf0; [by apply lock_outcome_none; cbn; auto; lia|].
  set (tx := mkTx (s_pos s) _). set (s1 := advance s (s_db s)).
  rewrite Sq_bind_run. unfold attempt at 1, select_lock.
  rewrite (stmt_queue e table Q (tx_clock e tx) (λ now Q,
    match pick_ids (lockable now) Q with
    | [] => inl (Sentinel sql_ErrNoRows)
    | i :: _ =>
        match q_rows Q !! i with
        | None => inl (Sentinel sql_ErrNoRows)
        | Some r => inr ((i, r), with_lock i (tx_id tx) (Some r) Q)
        end
    end) s1 Hq). cbn zeta.
  set (n := default _ (tx_clock e tx)). set (s2 := advance s1 (s_db s1)).
  assert (reads s n) as Hn.
  { unfold n. destruct e; cbn [tx_clock default]; [by exists (s_pos s)|exists (S (s_pos s))..]; (split; [lia|done]). }
  destruct (tk_fault (s_ticks s1 (s_pos s1))) as [err|] eqn:Hf1.
  { assert (faulted s err) as Hfa by (exists (S (s_pos s)); split; [lia|done]). rewrite Sq_bind_run. cbn [fst snd Rollback].
    destruct (Is err sql_ErrNoRows) eqn:His; apply (claim_back_outcome e table s Q _ s2 Q); cbn; try (done || lia); try by apply free_locks_fresh.
    exists n. split; [done|]. split; [done|]. right. by exists err. }
  destruct (pick_ids (lockable n) Q) as [|i ids] eqn:Hpk.
  { rewrite Sq_bind_run. cbn [Rollback]. replace (Is (Sentinel sql_ErrNoRows) sql_ErrNoRows) with true by reflexivity.
    apply (claim_back_outcome e table s Q _ s2 Q); cbn; try (done || lia); [by apply free_locks_fresh|]. exists n. by auto. }
  assert (i ∈ pick_ids (lockable n) Q) as (r & Hr & Hl & Hi)%elem_of_pick_ids by (rewrite Hpk; by left).
  rewrite Hr. set (Q1 := with_lock i (tx_id tx) (Some r) Q).
  set (s3 := advance s1 (<[table := RQueue Q1]> (s_db s1))).
  assert (s_db s3 !! table = Some (RQueue Q1)) as Hq3 by apply lookup_insert_eq.
  rewrite Sq_bind_run. unfold attempt, update_count.
  rewrite (on_locked_run e table tx i _ Q1 s3 Hq3). cbn [q_locks Q1 with_lock]. rewrite lookup_insert_eq.
  rewrite bool_decide_eq_true_2 by done.
  assert (free_locks (s_pos s) Q1 = Q) as Hfree by by apply free_with_lock_fresh.
  set (s4 := advance s3 (s_db s3)).
  destruct (tk_fault (s_ticks s3 (s_pos s3))) as [err|] eqn:Hf3.
  { rewrite Sq_bind_run. apply (claim_back_outcome e table s Q _ s4 Q1); cbn; (done || lia || apply lookup_insert_eq). }
  destruct (q_delivery_count r <? count_max e) eqn:Hcm.
  2:{ rewrite Sq_bind_run. apply (claim_back_outcome e table s Q _ s4 Q1); cbn; (done || lia || apply lookup_insert_eq). }
  unfold mret, Sq_ret, lock_outcome. cbn [fst snd]. split; [done|]. split; [cbn; lia|].
  exists (EvLock (s_pos s) n i), (with_lock i (s_pos s) (Some (counted r)) Q).
  split; [apply step_lock; (done || lia)|]. split.
  { cbn. rewrite lookup_insert_eq. unfold with_lock. cbn. by rewrite insert_insert_eq. }
  exists n. split; [done|]. exists i, r, ids. do 3 (split; [done|]). cbn. f_equal.
  destruct (Hc i r Hr) as [Hd _]. apply wrap64_id. unfold int64_range, MinInt64, MaxInt64.
  apply Z.ltb_lt in Hcm. unfold count_max, MaxInt64 in Hcm. destruct e; lia.
Qed.

(** *** Every other end closes the transaction *)

Lemma on_queues_closes n f db table :
  (∀ Q i l, q_locks (f Q) !! i = Some l → l.1 ≠ n) → closed_in table n (on_queues f db).
Proof.
  intros Hf Q i l Hq Hl. unfold on_queues in Hq. rewrite lookup_fmap in Hq.
  destruct (db !! table) as [[| |Q0|]|]; cbn in Hq; try done. injection Hq as <-. by eapply Hf.
Qed.

Lemma release_closes n db table : closed_in table n (release_locks n db).
Proof. apply on_queues_closes. cbn. by intros Q i l [_ ?]%map_lookup_filter_Some. Qed.

Lemma rollback_closes {A} tx (m : Sq A) table s :
  read_only m → closed_in table (tx_id tx) (s_db ((_ ← Rollback tx; m) s).2).
Proof. intros Hm. rewrite Sq_bind_run. cbn. rewrite Hm. apply release_closes. Qed.

Lemma fail_read_only {A} err : read_only (fail err : Sq A).
Proof. by intros s. Qed.
Lemma ret_read_only {A} (a : A) : read_only (mret a : Sq A).
Proof. by intros s. Qed.

Lemma Commit_closes tx table s u s' : Commit tx s = (inr u, s') → closed_in table (tx_id tx) (s_db s').
Proof.
  unfold Commit. destruct (negb _); [done|]. destruct (tk_fault _); [done|]. intros [= _ <-].
  apply on_queues_closes. cbn. by intros Q i l [_ ?]%map_lookup_filter_Some.
Qed.

Lemma SettleLockTx_closes tx q table s : closed_in table (tx_id tx) (s_db (SettleLockTx tx q s).2).
Proof.
  unfold SettleLockTx. rewrite Sq_bind_run. unfold attempt at 1. destruct (q s) as [[err|u] s1].
  { apply rollback_closes, fail_read_only. }
  rewrite Sq_bind_run. unfold attempt. destruct (Commit tx s1) as [[err|u'] s2] eqn:Hc.
  - apply rollback_closes, fail_read_only.
  - by eapply Commit_closes.
Qed.

Lemma ack_lock_closes e table s lr : closed_in table (tx_id (lr_Tx lr)) (s_db (ack_lock e lr table s).2).
Proof.
  unfold ack_lock. destruct (QuoteTable e table); [apply rollback_closes, fail_read_only|apply SettleLockTx_closes].
Qed.
Lemma nack_lock_closes e table s lr delay :
  closed_in table (tx_id (lr_Tx lr)) (s_db (nack_lock e lr table delay s).2).
Proof.
  unfold nack_lock. destruct (QuoteTable e table); [apply rollback_closes, fail_read_only|apply SettleLockTx_closes].
Qed.

Lemma claim_lock_closes `{Planner} e table s by_ :
  closed_in table (s_pos s) (s_db s) →
  match claim_lock e QDB table by_ s with
  | (inr (Some _), _) => True
  | (_, s') => closed_in table (s_pos s) (s_db s')
  end.
Proof.
  intros Hs. unfold claim_lock, quoted, BeginLockTx. destruct (QuoteTable e table) as [err|qt]; [done|].
  rewrite Sq_bind_run, BeginTx_run. destruct (tk_fault _) as [err|]; [done|].
  set (tx := mkTx (s_pos s) _). change (s_pos s) with (tx_id tx). rewrite Sq_bind_run. unfold attempt at 1.
  assert (∀ (m : Sq (option LockedRow)) s', read_only m → (∀ lr, (m (Rollback tx s').2).1 ≠ inr (Some lr)) →
    match (_ ← Rollback tx; m) s' with
    | (inr (Some _), _) => True
    | (_, s'') => closed_in table (tx_id tx) (s_db s'')
    end) as Hback.
  { intros m s' Hm Hn. pose proof (rollback_closes tx m table s' Hm) as Hc. rewrite Sq_bind_run in Hc |- *. cbn in *.
    destruct (m _) as [[err|[lr|]] s'']; cbn in *; done. }
  destruct (select_lock e tx qt _) as [[err|[i row]] s1].
  { apply Hback; destruct (Is err sql_ErrNoRows); first [apply fail_read_only|apply ret_read_only|done]. }
  rewrite Sq_bind_run. unfold attempt. destruct (update_count e tx qt i s1) as [[err|u] s2]; [|done].
  apply Hback; [apply fail_read_only|done].
Qed.

#[export] Instance postgresLockDialect_laws `{Planner} : LockDialectLaws Postgres postgresLockDialect.
Proof.
  split; cbn [ClaimLock AckLock NackLock postgresLockDialect]; intros;
    [by apply claim_lock_outcome|by eapply ack_lock_outcome|by eapply nack_lock_outcome
    |by apply claim_lock_closes|apply ack_lock_closes|apply nack_lock_closes].
Qed.
#[export] Instance mysqlLockDialect_laws `{Planner} : LockDialectLaws MySQL mysqlLockDialect.
Proof.
  split; cbn [ClaimLock AckLock NackLock mysqlLockDialect]; intros;
    [by apply claim_lock_outcome|by eapply ack_lock_outcome|by eapply nack_lock_outcome
    |by apply claim_lock_closes|apply ack_lock_closes|apply nack_lock_closes].
Qed.

Definition lock_dialects `{Planner} : list (engine * LockDialect) :=
  [(Postgres, postgresLockDialect); (MySQL, mysqlLockDialect)].

Lemma lock_dialects_laws `{Planner} e d : (e, d) ∈ lock_dialects → LockDialectLaws e d.
Proof.
  unfold lock_dialects. rewrite !elem_of_cons, elem_of_nil. intros [[= -> ->]|[[= -> ->]|[]]]; apply _.
Qed.
