(* ===== verification/SqlQueueSafety.v ===== *)
(** * Histories of the SQL queue

    Sequences of operations on one queue table by any number of sources and
    producers, of both strategies, with every fault of the driver and every
    connection lost: what is promised of them, from the laws of [SqlQueue] and
    [SqlLock]. *)

From S2P Require Import Prelude Message SqlEngine SqlGroup SqlQueue SqlLock.
Local Open Scope Z_scope.

#[local] Arguments quote : simpl never.
#[local] Arguments quote_char : simpl never.

(** ** The table is well-formed *)

(** Transactions are numbered by when they begin; those that hold rows began
    before [p]. *)
Record wf_queue (p : nat) (Q : queue_table) : Prop := {
  wq_ids i r : q_rows Q !! i = Some r → i ≤ q_last Q;
  wq_counts : counted_rows Q;
  wq_locked i r : q_rows Q !! i = Some r → (q_locked_by r = None ↔ q_locked_at r = None);
  wq_locks i l : q_locks Q !! i = Some l →
    (l.1 < p)%nat ∧ ∃ r, q_rows Q !! i = Some r ∧ q_locked_at r = None ∧ l.2 = Some (counted r);
  wq_one i j l l' : q_locks Q !! i = Some l → q_locks Q !! j = Some l' → l.1 = l'.1 → i = j
}.

Lemma wf_before p Q : wf_queue p Q → locks_before p Q.
Proof. intros Hw i l Hl. destruct (wq_locks p Q Hw i l Hl) as (? & r & _ & _ & ->). by split. Qed.

Lemma max_id_ge (R : gmap Z queue_row) i r : R !! i = Some r → i ≤ max_id R.
Proof.
  unfold max_id. apply (map_fold_weak_ind (λ m R, R !! i = Some r → i ≤ m)).
  - by rewrite lookup_empty.
  - intros j r' R' m Hj IH. destruct (decide (j = i)) as [->|Hne]; [lia|].
    rewrite lookup_insert_ne by done. intros Hi. specialize (IH Hi). lia.
Qed.

Lemma next_id_fresh e p Q : wf_queue p Q → q_rows Q !! next_id e Q = None.
Proof.
  intros Hw. destruct (q_rows Q !! next_id e Q) as [r|] eqn:E; [|done].
  pose proof (wq_ids p Q Hw _ _ E). pose proof (max_id_ge _ _ _ E). unfold next_id in *. destruct e; lia.
Qed.

(** What COMMIT leaves of each row. *)
Lemma publish_lookup n Q j :
  q_rows (publish n Q) !! j =
    match q_locks Q !! j with
    | Some (m, w) => if bool_decide (m = n) then w else q_rows Q !! j
    | None => q_rows Q !! j
    end.
Proof.
  unfold publish. cbn.
  apply (map_fold_weak_ind (λ R L, R !! j = match L !! j with
    | Some (m, w) => if bool_decide (m = n) then w else q_rows Q !! j
    | None => q_rows Q !! j end)).
  - by rewrite lookup_empty.
  - intros i [m w] L R Hi IH. cbn. destruct (decide (i = j)) as [->|Hne].
    + rewrite lookup_insert_eq. rewrite Hi in IH. destruct (bool_decide (m = n)); [apply lookup_partial_alter_eq|done].
    + rewrite lookup_insert_ne by done. destruct (bool_decide (m = n)); [by rewrite lookup_partial_alter_ne|done].
Qed.

(** The transaction of a row holds no other. *)
Lemma publish_locked p n i v w Q :
  wf_queue p Q → q_locks Q !! i = Some (n, v) →
  publish n (with_lock i n w Q) = mkQueue (partial_alter (λ _, w) i (q_rows Q)) (q_last Q) (delete i (q_locks Q)).
Proof.
  intros Hw Hi.
  assert (∀ j l, j ≠ i → q_locks Q !! j = Some l → l.1 ≠ n) as Hother.
  { intros j l Hj Hl Hn. apply Hj. by apply (wq_one p Q Hw j i l (n, v)). }
  assert (q_rows (publish n (with_lock i n w Q)) = partial_alter (λ _, w) i (q_rows Q)) as HR.
  { apply map_eq. intros j. rewrite publish_lookup. cbn. destruct (decide (j = i)) as [->|Hj].
    - by rewrite lookup_insert_eq, bool_decide_eq_true_2, lookup_partial_alter_eq.
    - rewrite lookup_insert_ne, lookup_partial_alter_ne by done. destruct (q_locks Q !! j) as [[m u]|] eqn:E; [|done].
      by rewrite bool_decide_eq_false_2 by apply (Hother j _ Hj E). }
  unfold publish in *. cbn in *. rewrite HR. f_equal.
  rewrite map_filter_insert_False by (cbn; auto). apply map_filter_id.
  intros j l [Hj Hl]%lookup_delete_Some. by apply (Hother j l).
Qed.

Lemma wf_update p Q f ids :
  wf_queue p Q →
  (∀ i, i ∈ ids → q_locks Q !! i = None) →
  (∀ r, 0 ≤ q_delivery_count r → 0 ≤ q_lease_epoch r → (q_locked_by r = None ↔ q_locked_at r = None) →
     0 ≤ q_delivery_count (f r) ∧ 0 ≤ q_lease_epoch (f r) ∧
     (q_locked_by (f r) = None ↔ q_locked_at (f r) = None)) →
  wf_queue p (set_rows (update_ids f ids) Q).
Proof.
  intros Hw Hids Hf.
  assert (∀ i r, update_ids f ids (q_rows Q) !! i = Some r →
    ∃ r0, q_rows Q !! i = Some r0 ∧ r = if bool_decide (i ∈ ids) then f r0 else r0) as Hl.
  { intros i r. rewrite lookup_update_ids. intros (r0 & ? & ?)%fmap_Some. eauto. }
  split; cbn.
  - intros i r (r0 & Hr & _)%Hl. by apply (wq_ids p Q Hw i r0).
  - intros i r (r0 & Hr & ->)%Hl. destruct (wq_counts p Q Hw i r0 Hr).
    destruct (bool_decide _); [|done]. destruct (Hf r0) as (? & ? & _); [done..|by apply (wq_locked p Q Hw i)|done].
  - intros i r (r0 & Hr & ->)%Hl. pose proof (wq_locked p Q Hw i r0 Hr). destruct (wq_counts p Q Hw i r0 Hr).
    destruct (bool_decide _); [|done]. by apply Hf.
  - intros i l Hi. destruct (wq_locks p Q Hw i l Hi) as (Hp & r & Hr & Ha & Hv). split; [done|].
    exists r. split; [|done]. rewrite lookup_update_ids, Hr. cbn. rewrite bool_decide_eq_false_2; [done|].
    intros Hin. by rewrite (Hids i Hin) in Hi.
  - apply (wq_one p Q Hw).
Qed.

Lemma held_unlocked p Q i by_ ep r :
  wf_queue p Q → q_rows Q !! i = Some r → row_holds by_ ep r = true → q_locks Q !! i = None.
Proof.
  intros Hw Hr Hh. destruct (q_locks Q !! i) as [l|] eqn:E; [|done].
  destruct (wq_locks p Q Hw i l E) as (_ & r' & Hr' & Ha & _). rewrite Hr in Hr'. injection Hr' as <-.
  apply (wq_locked p Q Hw i r Hr) in Ha. unfold row_holds in Hh. rewrite Ha in Hh. by rewrite bool_decide_eq_false_2 in Hh.
Qed.

(** One row changed, and its lock, if any, ended. *)
Lemma wf_alter p Q i w :
  wf_queue p Q →
  (∀ r, w = Some r → i ≤ q_last Q ∧ 0 ≤ q_delivery_count r ∧ 0 ≤ q_lease_epoch r ∧
     (q_locked_by r = None ↔ q_locked_at r = None)) →
  wf_queue p (mkQueue (partial_alter (λ _, w) i (q_rows Q)) (q_last Q) (delete i (q_locks Q))).
Proof.
  intros Hw Hr0.
  assert (∀ j r, partial_alter (λ _, w) i (q_rows Q) !! j = Some r →
    (j = i ∧ w = Some r) ∨ q_rows Q !! j = Some r) as Hl.
  { intros j r. destruct (decide (j = i)) as [->|Hj]; [rewrite lookup_partial_alter_eq; auto|].
    rewrite lookup_partial_alter_ne by done. auto. }
  split; cbn.
  - intros j r [[-> Hr]|Hr]%Hl; [by apply (Hr0 r)|by apply (wq_ids p Q Hw j r)].
  - intros j r [[-> Hr]|Hr]%Hl; [by destruct (Hr0 r Hr) as (_ & ? & ? & _)|by apply (wq_counts p Q Hw j r)].
  - intros j r [[-> Hr]|Hr]%Hl; [by apply (Hr0 r)|by apply (wq_locked p Q Hw j r)].
  - intros j l [Hj Hi]%lookup_delete_Some. destruct (wq_locks p Q Hw j l Hi) as (? & r & Hr & ?).
    split; [done|]. exists r. by rewrite lookup_partial_alter_ne by done.
  - intros j k l l' [? Hj]%lookup_delete_Some [? Hk]%lookup_delete_Some. by apply (wq_one p Q Hw).
Qed.

Lemma wf_add p e Q r :
  wf_queue p Q → 0 ≤ q_delivery_count r → 0 ≤ q_lease_epoch r → (q_locked_by r = None ↔ q_locked_at r = None) →
  wf_queue p (add_row (next_id e Q) r Q).
Proof.
  intros Hw Hd He Hl. pose proof (next_id_fresh e p Q Hw) as Hfr. set (i := next_id e Q) in *.
  assert (∀ j r', <[i := r]> (q_rows Q) !! j = Some r' → (j = i ∧ r' = r) ∨ q_rows Q !! j = Some r') as Hi.
  { intros j r' [[-> <-]|[_ ?]]%lookup_insert_Some; auto. }
  split; cbn.
  - intros j r' [[-> ->]|Hr]%Hi; [lia|]. apply (wq_ids p Q Hw) in Hr. lia.
  - intros j r' [[-> ->]|Hr]%Hi; [done|by apply (wq_counts p Q Hw j)].
  - intros j r' [[-> ->]|Hr]%Hi; [done|by apply (wq_locked p Q Hw j)].
  - intros j l Hj. destruct (wq_locks p Q Hw j l Hj) as (? & r' & Hr & ?). split; [done|].
    exists r'. rewrite lookup_insert_ne by congruence. done.
  - apply (wq_one p Q Hw).
Qed.

Lemma wf_later p p' Q : wf_queue p Q → (p ≤ p')%nat → wf_queue p' Q.
Proof. intros [? ? ? Hl ?] Hp. split; try done. intros i l Hi. destruct (Hl i l Hi) as [? ?]. split; [lia|done]. Qed.

Lemma wf_free p n Q : wf_queue p Q → wf_queue p (free_locks n Q).
Proof.
  intros [? ? ? Hl Ho]. split; cbn; try done.
  - intros i l [Hi _]%map_lookup_filter_Some. by apply Hl.
  - intros i j l l' [Hi _]%map_lookup_filter_Some [Hj _]%map_lookup_filter_Some. by apply Ho.
Qed.

Lemma wf_lock p p' Q i n r :
  wf_queue p Q → (p ≤ p')%nat → (n < p')%nat → q_rows Q !! i = Some r → q_locked_at r = None →
  (∀ j l, q_locks Q !! j = Some l → l.1 ≠ n) → wf_queue p' (with_lock i n (Some (counted r)) Q).
Proof.
  intros Hw Hp Hn Hr Ha Hf. destruct (wf_later p p' Q Hw Hp) as [? ? ? Hl Ho]. split; cbn; try done.
  - intros j l [[-> <-]|[_ Hj]]%lookup_insert_Some; [|by apply Hl]. split; [done|]. by exists r.
  - intros j k l l' [[<- <-]|[_ Hj]]%lookup_insert_Some [[<- <-]|[_ Hk]]%lookup_insert_Some Hll; cbn in Hll.
    + done.
    + by destruct (Hf k l' Hk).
    + by destruct (Hf j l Hj).
    + by eapply Ho.
Qed.

(** The transaction an event begins. *)
Definition ev_tx (ev : qevent) : option nat := match ev with EvLock n _ _ => Some n | _ => None end.

Lemma qstep_wf e p p' Q ev Q' :
  qstep e Q ev Q' → wf_queue p Q → (p ≤ p')%nat → (∀ n, ev_tx ev = Some n → (n < p')%nat) → wf_queue p' Q'.
Proof.
  intros Hst Hw Hp Htx. assert (wf_queue p' Q) as Hw' by by eapply wf_later.
  destruct Hst as [i id h b vis -> _|by_ ttl n1 n2 ids Hnd Hids|i by_ ep r Hr Hh|i by_ ep vis r Hr Hh
                  |n now i r Hr Hl Hi Hc Hf|n i v Hi|n i r vis Hi|n|].
  - by apply wf_add.
  - apply wf_update; [done|by intros i (r & _ & _ & ? & _)%Hids|]. cbn. intros r ? ? _. split; [lia|]. split; [lia|done].
  - pose proof (held_unlocked p' Q i by_ ep r Hw' Hr Hh) as Hn.
    pose proof (wf_alter p' Q i None Hw') as Ha. rewrite (delete_id (q_locks Q)) in Ha by done. by apply Ha.
  - pose proof (held_unlocked p' Q i by_ ep r Hw' Hr Hh) as Hn.
    pose proof (wf_alter p' Q i (Some (returned vis r)) Hw') as Ha. rewrite (delete_id (q_locks Q)) in Ha by done.
    apply Ha. intros ? [= <-]. cbn. destruct (wq_counts _ _ Hw' i r Hr). split; [by apply (wq_ids _ _ Hw' i r)|done].
  - apply (wf_lock p p'); try done; [by apply Htx|]. unfold lockable in Hl. apply andb_true_iff in Hl as [_ Hl].
    by apply bool_decide_eq_true in Hl.
  - rewrite (publish_locked p' n i v None Q Hw' Hi). by apply wf_alter.
  - rewrite (publish_locked p' n i _ _ Q Hw' Hi). apply wf_alter; [done|]. intros ? [= <-]. cbn.
    destruct (wq_locks _ _ Hw' i _ Hi) as (_ & r0 & Hr & _ & [= ->]). cbn.
    destruct (wq_counts _ _ Hw' i r0 Hr). split; [by apply (wq_ids _ _ Hw' i r0)|]. split; [lia|done].
  - by apply wf_free.
  - done.
Qed.

(** ** Operations and their results *)

Inductive qop : Type :=
  | OInsert (id : string) (headers payload : bytes) (delay : Z)
  | OClaim (limit : Z) (by_ : string) (ttl : Z)
  | OAck (i : Z) (by_ : string) (ep : Z)
  | ONack (i : Z) (by_ : string) (ep delay : Z)
  | OClaimLock (by_ : string)
  | OAckLock (lr : LockedRow)
  | ONackLock (lr : LockedRow) (delay : Z)
  | OLost (n : nat).  (** the connection of transaction [n] is lost *)

Inductive qres : Type :=
  | RDone
  | RRows (rows : list ClaimedRow)
  | RBool (b : bool)
  | RLocked (lr : option LockedRow)
  | RErr (err : error).

Definition ret {A} (f : A → qres) (r : (error + A) * session) : qres * session :=
  (match r.1 with inl err => RErr err | inr a => f a end, r.2).

Definition lock_unsupported : error := Opaque "the dialect has no lock strategy".

Section run.
Context (d : LeaseDialect) (ld : option LockDialect) (table : string).

Definition run_qop (op : qop) (s : session) : qres * session :=
  match op, ld with
  | OInsert id h b delay, _ => ret (λ _, RDone) (Insert_ d QDB table id h b delay s)
  | OClaim limit by_ ttl, _ => ret RRows (Claim d QDB table limit by_ ttl s)
  | OAck i by_ ep, _ => ret RBool (Ack d QDB table i by_ ep s)
  | ONack i by_ ep delay, _ => ret RBool (Nack d QDB table i by_ ep delay s)
  | OClaimLock by_, Some l => ret RLocked (ClaimLock l QDB table by_ s)
  | OAckLock lr, Some l => ret (λ _, RDone) (AckLock l lr table s)
  | ONackLock lr delay, Some l => ret (λ _, RDone) (NackLock l lr table delay s)
  | OLost n, _ => (RDone, advance s (release_locks n (s_db s)))
  | _, None => (RErr lock_unsupported, s)
  end.

Fixpoint run_qops (ops : list qop) (s : session) : list qres * session :=
  match ops with
  | [] => ([], s)
  | op :: ops =>
      let '(r, s) := run_qop op s in
      let '(rs, s) := run_qops ops s in (r :: rs, s)
  end.
End run.

(** What a result other than an error says of the event of an operation. *)
Definition meant `{Planner, JsonColumn} (e : engine) (s : session) (Q : queue_table)
    (op : qop) (res : qres) (ev : qevent) : Prop :=
  match op, res with
  | OInsert id h b delay, RDone =>
      ∃ n col, reads s n ∧ column e h = inr col ∧ ev = EvInsert (next_id e Q) id col b (n + Microseconds delay)
  | OClaim limit by_ ttl, RRows rows =>
      ∃ n1 n2 ids, reads s n1 ∧ reads s n2 ∧ picks e n1 (Microseconds ttl) limit Q ids ∧
        ev = EvClaim by_ (Microseconds ttl) n1 n2 ids ∧
        rows ≡ₚ fetch_rows ids (update_ids (leased n2 by_) ids (q_rows Q))
  | OAck i by_ ep, RBool b =>
      if b then ev = EvAck i by_ ep else ev = EvNone ∧ ¬ held Q i by_ ep
  | ONack i by_ ep delay, RBool b =>
      if b then ∃ n, reads s n ∧ ev = EvNack i by_ ep (n + Microseconds delay)
      else ev = EvNone ∧ ¬ held Q i by_ ep
  | OClaimLock by_, RLocked (Some lr) =>
      ∃ n i r ids, reads s n ∧ pick_ids (lockable n) Q = i :: ids ∧ q_rows Q !! i = Some r ∧
        ev = EvLock (s_pos s) n i ∧
        lr = mkLockedRow i (q_msg_id r) (q_headers r) (q_payload r) (q_delivery_count r + 1)
               (mkTx (s_pos s) (tx_start (lr_Tx lr)))
  | OClaimLock by_, RLocked None =>
      ev = EvNone ∧ ((∃ n, reads s n ∧ pick_ids (lockable n) Q = []) ∨
                     ∃ err, faulted s err ∧ Is err sql_ErrNoRows = true)
  | OAckLock lr, RDone => ev = EvLockAck (tx_id (lr_Tx lr)) (lr_ID lr)
  | ONackLock lr delay, RDone =>
      ∃ n, (reads s n ∨ n = tx_start (lr_Tx lr)) ∧
        ev = EvLockNack (tx_id (lr_Tx lr)) (lr_ID lr) (n + Microseconds delay)
  | OLost n, RDone => ev = EvRelease n
  | _, _ => False
  end.

(** After an error nothing has happened, or the transaction was rolled back, or
    what a result would have said (its answer was lost). *)
Definition op_means `{Planner, JsonColumn} (e : engine) (s : session) (Q : queue_table)
    (op : qop) (res : qres) (ev : qevent) : Prop :=
  match res with
  | RErr err =>
      ev = EvNone ∨
      (∃ lr, (op = OAckLock lr ∨ ∃ delay, op = ONackLock lr delay) ∧ ev = EvRelease (tx_id (lr_Tx lr))) ∨
      (∃ by_, op = OClaimLock by_ ∧ ev = EvRelease (s_pos s)) ∨
      (faulted s err ∧ ∃ res', meant e s Q op res' ev)
  | _ => meant e s Q op res ev
  end.

(** The queue dialects, with the lock strategy of those that have one. *)
Definition queue_dialects `{Planner, JsonColumn} : list (engine * LeaseDialect * option LockDialect) :=
  [(Postgres, postgresDialect, Some postgresLockDialect); (MySQL, mysqlDialect, Some mysqlLockDialect);
   (SQLite, sqliteDialect, None)].

Lemma queue_dialects_laws `{Planner, JsonColumn} e d ld :
  (e, d, ld) ∈ queue_dialects → LeaseDialectLaws e d ∧ ∀ l, ld = Some l → LockDialectLaws e l.
Proof.
  unfold queue_dialects. rewrite !elem_of_cons, elem_of_nil.
  intros [[= -> -> ->]|[[= -> -> ->]|[[= -> -> ->]|[]]]]; (split; [apply _|]); intros l [= <-]; apply _.
Qed.

Section means.
Context `{Planner, JsonColumn}.

Lemma op_means_tx e s Q op res ev n :
  op_means e s Q op res ev → ev_tx ev = Some n → n = s_pos s ∧ ∃ by_, op = OClaimLock by_.
Proof.
  assert (∀ res, meant e s Q op res ev → ev_tx ev = Some n → n = s_pos s ∧ ∃ by_, op = OClaimLock by_) as Hm.
  { intros res' Hm Hn. destruct op, res'; try done; cbn in Hm; try (destruct b); try (destruct lr);
      try done; naive_solver. }
  destruct res; try apply Hm. unfold op_means.
  intros [->|[(lr & _ & ->)|[(by_ & _ & ->)|(_ & res' & Hr)]]]; try done. by apply (Hm res').
Qed.

Lemma lease_means {A} e table s Q (r : (error + A) * session) (P : A → qevent → Prop) (f : A → qres) op :
  op_outcome e table s Q r P →
  (∀ a ev, P a ev → meant e s Q op (f a) ev) → (∀ a err, f a ≠ RErr err) →
  (∀ by_, op ≠ OClaimLock by_) →
  let '(res, s') := ret f r in
  s_ticks s' = s_ticks s ∧ (s_pos s ≤ s_pos s')%nat ∧
  ∃ ev Q', qstep e Q ev Q' ∧ s_db s' !! table = Some (RQueue Q') ∧ op_means e s Q op res ev ∧
    (∀ n, ev_tx ev = Some n → (n < s_pos s')%nat).
Proof.
  intros (Ht & Hp & ev & Q' & Hst & Hdb & HP) Hf Hne Hop. unfold ret. cbn [fst snd].
  split; [done|]. split; [done|]. exists ev, Q'. split; [done|]. rewrite Hdb, lookup_insert_eq. split; [done|].
  apply and_wlog_r; [|intros Hm n (_ & by_ & Hby)%(op_means_tx _ _ _ _ _ _ _ Hm); by destruct (Hop by_)].
  destruct (r.1) as [err|a]; unfold op_means.
  - destruct HP as [?|[? [a ?]]]; [by left|]. do 3 right. split; [done|]. exists (f a). by apply Hf.
  - specialize (Hf a ev HP). specialize (Hne a). destruct (f a); try done. by destruct (Hne err).
Qed.

Lemma lock_means {A} e table n s Q (r : (error + A) * session) (P : A → qevent → Prop) (f : A → qres) op :
  lock_outcome e table n s Q r P →
  (∀ a ev, P a ev → meant e s Q op (f a) ev) → (∀ a err, f a ≠ RErr err) →
  (∃ lr, (op = OAckLock lr ∨ ∃ delay, op = ONackLock lr delay) ∧ n = tx_id (lr_Tx lr)) ∨
  (∃ by_, op = OClaimLock by_ ∧ n = s_pos s) →
  let '(res, s') := ret f r in
  s_ticks s' = s_ticks s ∧ (s_pos s ≤ s_pos s')%nat ∧
  ∃ ev Q', qstep e Q ev Q' ∧ s_db s' !! table = Some (RQueue Q') ∧ op_means e s Q op res ev ∧
    (∀ n, ev_tx ev = Some n → (n < s_pos s')%nat).
Proof.
  intros (Ht & Hp & ev & Q' & Hst & Hdb & HP) Hf Hne Hop. unfold ret. cbn [fst snd].
  split; [done|]. split; [lia|]. exists ev, Q'. split; [done|]. split; [done|].
  apply and_wlog_r; [|intros Hm n' (-> & _)%(op_means_tx _ _ _ _ _ _ _ Hm); done].
  destruct (r.1) as [err|a]; unfold op_means.
  - destruct HP as [?|[->|[? [a ?]]]]; [by left|right|do 3 right; split; [done|exists (f a); by apply Hf]].
    destruct Hop as [(lr & ? & ->)|(by_ & ? & ->)]; [left; eauto|right; left; eauto].
  - specialize (Hf a ev HP). specialize (Hne a). destruct (f a); try done. by destruct (Hne err).
Qed.

Lemma run_qop_means e d ld table op s Q :
  (e, d, ld) ∈ queue_dialects → ValidateIdent table = None →
  s_db s !! table = Some (RQueue Q) → wf_queue (s_pos s) Q →
  let '(res, s') := run_qop d ld table op s in
  s_ticks s' = s_ticks s ∧ (s_pos s ≤ s_pos s')%nat ∧
  ∃ ev Q', qstep e Q ev Q' ∧ s_db s' !! table = Some (RQueue Q') ∧ op_means e s Q op res ev ∧
    (∀ n, ev_tx ev = Some n → (n < s_pos s')%nat).
Proof.
  intros [Hd Hl]%queue_dialects_laws Hv Hq Hw.
  pose proof (wq_counts _ _ Hw) as Hc. pose proof (wf_before _ _ Hw) as Hlk.
  assert (∀ op, let '(res, s') := (RErr lock_unsupported, s) in
    s_ticks s' = s_ticks s ∧ (s_pos s ≤ s_pos s')%nat ∧
    ∃ ev Q', qstep e Q ev Q' ∧ s_db s' !! table = Some (RQueue Q') ∧ op_means e s Q op res ev ∧
    (∀ n, ev_tx ev = Some n → (n < s_pos s')%nat)) as Hnone.
  { intros op'. split; [done|]. split; [done|]. exists EvNone, Q. split; [constructor|]. split; [done|]. split; [by left|done]. }
  destruct op as [id h b delay|limit by_ ttl|i by_ ep|i by_ ep delay|by_|lr|lr delay|n]; cbn [run_qop].
  - eapply lease_means; [by eapply Insert_law| |done..]. intros [] ev HP. exact HP.
  - eapply lease_means; [by eapply Claim_law| |done..]. intros rows ev HP. exact HP.
  - eapply lease_means; [by eapply Ack_law| |done..]. intros b ev HP. exact HP.
  - eapply lease_means; [by eapply Nack_law| |done..]. intros b ev HP. exact HP.
  - destruct ld as [l|]; [|apply Hnone]. specialize (Hl l eq_refl).
    eapply lock_means; [by eapply ClaimLock_law| |done|right; eauto].
    intros [lr|] ev (n & Hn & HP); cbn; [|naive_solver].
    destruct HP as (i & r & ids & ?). by exists n, i, r, ids.
  - destruct ld as [l|]; [|apply Hnone]. specialize (Hl l eq_refl).
    eapply lock_means; [by eapply AckLock_law| |done|left; eauto]. intros [] ev HP. exact HP.
  - destruct ld as [l|]; [|apply Hnone]. specialize (Hl l eq_refl).
    eapply lock_means; [by eapply NackLock_law| |done|left; eauto]. intros [] ev HP. exact HP.
  - destruct ld; cbn; (split; [done|]; split; [lia|]); exists (EvRelease n), (free_locks n Q);
      (split; [constructor|]); (split; [by apply on_queues_lookup|done]).
Qed.
End means.

(** ** Histories *)

Section histories.
Context `{Planner, JsonColumn}.

(** A history: each operation with its result and its event, from a session and
    a table to the table it ends with; [h_now] are the clock readings it may
    have taken. *)
Inductive behaves (e : engine) : session → queue_table → list (qop * qres * qevent) → session → queue_table → Prop :=
  | behaves_nil s Q : behaves e s Q [] s Q
  | behaves_cons s Q op res ev s1 Q1 l s' Q' :
      wf_queue (s_pos s) Q → qstep e Q ev Q1 → op_means e s Q op res ev →
      s_ticks s1 = s_ticks s → (s_pos s ≤ s_pos s1)%nat →
      behaves e s1 Q1 l s' Q' → behaves e s Q ((op, res, ev) :: l) s' Q'.

Lemma run_qops_behaves e d ld table ops s Q :
  (e, d, ld) ∈ queue_dialects → ValidateIdent table = None →
  s_db s !! table = Some (RQueue Q) → wf_queue (s_pos s) Q →
  ∃ l Q', l.*1.*1 = ops ∧ l.*1.*2 = (run_qops d ld table ops s).1 ∧
    behaves e s Q l (run_qops d ld table ops s).2 Q' ∧
    s_db (run_qops d ld table ops s).2 !! table = Some (RQueue Q') ∧
    wf_queue (s_pos (run_qops d ld table ops s).2) Q'.
Proof.
  intros Hd Hv. revert s Q. induction ops as [|op ops IH]; intros s Q Hq Hw; cbn.
  { exists [], Q. do 2 (split; [done|]). split; [constructor|done]. }
  pose proof (run_qop_means e d ld table op s Q Hd Hv Hq Hw) as Hm.
  destruct (run_qop d ld table op s) as [res s1].
  destruct Hm as (Ht & Hp & ev & Q1 & Hst & Hq1 & Hmean & Htx).
  assert (wf_queue (s_pos s1) Q1) as Hw1 by by eapply qstep_wf.
  destruct (IH s1 Q1 Hq1 Hw1) as (l & Q' & Ho & Hr & Hb & Hq' & Hw').
  destruct (run_qops d ld table ops s1) as [rs s']. cbn in *.
  exists ((op, res, ev) :: l), Q'. cbn. rewrite Ho, Hr. do 2 (split; [done|]). split; [|done].
  by econstructor.
Qed.

Lemma behaves_wf e s Q l s' Q' : behaves e s Q l s' Q' → s_ticks s' = s_ticks s ∧ (s_pos s ≤ s_pos s')%nat.
Proof. induction 1; [done|]. split; [naive_solver congruence|lia]. Qed.

(** *** Nothing is lost *)

(** The message a row carries. *)
Definition carries (id : string) (headers payload : bytes) (r : queue_row) : Prop :=
  q_msg_id r = id ∧ q_headers r = headers ∧ q_payload r = payload.
(** An acknowledgement of row [i] by the holder of its lease or of its lock,
    that was accepted or to which the driver lost the answer. *)
Definition acknowledges (s : session) (Q : queue_table) (i : Z) (op : qop) (res : qres) : Prop :=
  match op with
  | OAck j by_ ep =>
      j = i ∧ held Q i by_ ep ∧ (res = RBool true ∨ ∃ err, res = RErr err ∧ faulted s err)
  | OAckLock lr =>
      lr_ID lr = i ∧ (∃ v, q_locks Q !! i = Some (tx_id (lr_Tx lr), v)) ∧
      (res = RDone ∨ ∃ err, res = RErr err ∧ faulted s err)
  | _ => False
  end.

(** The rows an event takes out of the table. *)
Lemma qstep_keeps e p Q ev Q' i r :
  wf_queue p Q → qstep e Q ev Q' → q_rows Q !! i = Some r →
  (∃ r', q_rows Q' !! i = Some r' ∧ carries (q_msg_id r) (q_headers r) (q_payload r) r') ∨
  (∃ by_ ep, ev = EvAck i by_ ep) ∨ (∃ n, ev = EvLockAck n i).
Proof.
  intros Hw Hst Hr.
  assert (∀ Q', q_rows Q' !! i = Some r →
    (∃ r', q_rows Q' !! i = Some r' ∧ carries (q_msg_id r) (q_headers r) (q_payload r) r') ∨
    (∃ by_ ep, ev = EvAck i by_ ep) ∨ (∃ n, ev = EvLockAck n i)) as Hsame.
  { intros Q0 Hr0. left. by exists r. }
  destruct Hst as [j id h b vis -> _|by_ ttl n1 n2 ids Hnd Hids|j by_ ep r0 Hr0 Hh|j by_ ep vis r0 Hr0 Hh
                  |n now j r0 Hr0 Hl Hi Hc Hf|n j v Hi|n j r0 vis Hi|n|]; try (by apply Hsame).
  - apply Hsame. cbn. rewrite lookup_insert_ne; [done|]. pose proof (next_id_fresh e p Q Hw). congruence.
  - left. cbn. rewrite lookup_update_ids, Hr. cbn. eexists. split; [done|]. by destruct (bool_decide _).
  - destruct (decide (j = i)) as [->|Hj]; [right; left; eauto|]. apply Hsame. cbn. by rewrite lookup_delete_ne.
  - destruct (decide (j = i)) as [->|Hj]; [|apply Hsame; cbn; by rewrite lookup_insert_ne].
    left. cbn. rewrite lookup_insert_eq. rewrite Hr in Hr0. injection Hr0 as <-. by eexists.
  - destruct (decide (j = i)) as [->|Hj]; [right; right; eauto|]. apply Hsame.
    rewrite (publish_locked p n j v None Q Hw Hi). cbn. by rewrite lookup_partial_alter_ne.
  - rewrite (publish_locked p n j _ _ Q Hw Hi). destruct (decide (j = i)) as [->|Hj].
    + left. cbn. rewrite lookup_partial_alter_eq. eexists. split; [done|].
      destruct (wq_locks p Q Hw i _ Hi) as (_ & r1 & Hr1 & _ & [= ->]). by simplify_eq.
    + apply Hsame. cbn. by rewrite lookup_partial_alter_ne.
Qed.

Lemma means_ack e s Q op res ev Q' i :
  qstep e Q ev Q' → op_means e s Q op res ev →
  (∃ by_ ep, ev = EvAck i by_ ep) ∨ (∃ n, ev = EvLockAck n i) →
  acknowledges s Q i op res.
Proof.
  intros Hst Hm Hev.
  assert (∀ res', meant e s Q op res' ev → (res' = res ∨ ∃ err, res = RErr err ∧ faulted s err) →
    acknowledges s Q i op res) as Hk.
  { intros res' Hr Hres. destruct op, res'; cbn in Hr; try done; try (destruct b); try (destruct lr); try done;
      destruct Hev as [(by' & ep' & ->)|[n' ->]]; try naive_solver;
      inversion Hst; cbn; unfold held; naive_solver. }
  unfold op_means in Hm. destruct res as [|rows|b|lr|err]; try (apply (Hk _ Hm); by left).
  destruct Hm as [->|[(lr & Hop & ->)|[(by_ & Hop & ->)|(Hf & res' & Hr)]]]; [naive_solver..|].
  apply (Hk _ Hr). right. by exists err.
Qed.

(** A row stays, with its message, until it is acknowledged. *)
Lemma run_qops_keeps e d ld table ops s Q i id headers payload r :
  (e, d, ld) ∈ queue_dialects → ValidateIdent table = None →
  s_db s !! table = Some (RQueue Q) → wf_queue (s_pos s) Q →
  q_rows Q !! i = Some r → carries id headers payload r →
  (∃ Q' r', s_db (run_qops d ld table ops s).2 !! table = Some (RQueue Q') ∧
     q_rows Q' !! i = Some r' ∧ carries id headers payload r') ∨
  ∃ k op res Qk rk, ops !! k = Some op ∧ (run_qops d ld table ops s).1 !! k = Some res ∧
    s_db (run_qops d ld table (take k ops) s).2 !! table = Some (RQueue Qk) ∧
    q_rows Qk !! i = Some rk ∧ carries id headers payload rk ∧
    acknowledges (run_qops d ld table (take k ops) s).2 Qk i op res.
Proof.
  intros Hd Hv. revert s Q r. induction ops as [|op ops IH]; intros s Q r Hq Hw Hr Hc; cbn; [left; by exists Q, r|].
  pose proof (run_qop_means e d ld table op s Q Hd Hv Hq Hw) as Hm.
  destruct (run_qop d ld table op s) as [res s1] eqn:Hop.
  destruct Hm as (Ht & Hp & ev & Q1 & Hst & Hq1 & Hmean & Htx).
  assert (wf_queue (s_pos s1) Q1) as Hw1 by by eapply qstep_wf.
  destruct (qstep_keeps e _ Q ev Q1 i r Hw Hst Hr) as [(r1 & Hr1 & Hc1)|Hack].
  - destruct (IH s1 Q1 r1 Hq1 Hw1 Hr1) as [(Q' & r' & ?)|(k & op' & res' & Qk & rk & ? & ? & Hrest)].
    { unfold carries in *. naive_solver congruence. }
    + left. exists Q', r'. by destruct (run_qops d ld table ops s1).
    + right. exists (S k), op', res', Qk, rk. cbn. rewrite Hop.
      destruct (run_qops d ld table ops s1), (run_qops d ld table (take k ops) s1). by cbn in *.
  - right. exists 0%nat, op, res, Q, r. cbn. destruct (run_qops d ld table ops s1). cbn.
    do 5 (split; [done|]). by eapply means_ack.
Qed.

(** *** Epochs only grow *)

Lemma qstep_epochs e p Q ev Q' :
  e ≠ SQLite → wf_queue p Q → qstep e Q ev Q' →
  q_last Q ≤ q_last Q' ∧
  ∀ i r, i ≤ q_last Q → q_rows Q' !! i = Some r →
    ∃ r0, q_rows Q !! i = Some r0 ∧ q_lease_epoch r0 ≤ q_lease_epoch r.
Proof.
  intros He Hw Hst.
  destruct Hst as [j id h b vis -> _|by_ ttl n1 n2 ids Hnd Hids|j by_ ep r0 Hr0 Hh|j by_ ep vis r0 Hr0 Hh
                  |n now j r0 Hr0 Hl Hi Hc Hf|n j v Hi|n j r0 vis Hi|n|].
  - split; [cbn; lia|]. intros i r Hi. assert (next_id e Q = q_last Q + 1) as -> by (by destruct e).
    cbn. rewrite lookup_insert_ne by lia. eauto with lia.
  - split; [done|]. intros i r _. cbn. rewrite lookup_update_ids. intros (r0 & Hr0 & ->)%fmap_Some.
    exists r0. split; [done|]. destruct (bool_decide _); cbn; lia.
  - split; [done|]. cbn. intros i r _ [_ Hr]%lookup_delete_Some. eauto with lia.
  - split; [done|]. cbn. intros i r _ [[<- <-]|[_ Hr]]%lookup_insert_Some; [|eauto with lia].
    exists r0. split; [done|]. cbn. lia.
  - split; [done|]. cbn. eauto with lia.
  - rewrite (publish_locked p n j v None Q Hw Hi). split; [done|]. cbn. intros i r _.
    destruct (decide (i = j)) as [->|Hne]; [by rewrite lookup_partial_alter_eq|].
    rewrite lookup_partial_alter_ne by done. eauto with lia.
  - rewrite (publish_locked p n j _ _ Q Hw Hi). split; [done|]. cbn. intros i r _.
    destruct (decide (i = j)) as [->|Hne].
    + rewrite lookup_partial_alter_eq. intros [= <-].
      destruct (wq_locks p Q Hw j _ Hi) as (_ & r1 & Hr1 & _ & [= ->]). exists r1. split; [done|]. cbn. lia.
    + rewrite lookup_partial_alter_ne by done. eauto with lia.
  - split; [done|]. cbn. eauto with lia.
  - split; [done|]. eauto with lia.
Qed.

(** The leases a result hands out: row and fence token. *)
Definition handed (res : qres) : list (Z * Z) :=
  match res with RRows rows => (λ x, (cr_ID x, LeaseEpoch x)) <$> rows | _ => [] end.

Lemma handed_spec e p s Q op res ev Q1 :
  wf_queue p Q → qstep e Q ev Q1 → op_means e s Q op res ev →
  NoDup (handed res) ∧
  ∀ i ep, (i, ep) ∈ handed res →
    (∃ r0, q_rows Q !! i = Some r0 ∧ ep = q_lease_epoch r0 + 1) ∧
    (∃ r, q_rows Q1 !! i = Some r ∧ q_lease_epoch r = ep).
Proof.
  intros Hw Hst Hm. destruct res as [|rows| | |]; try (split; [constructor|by intros i ep ?%elem_of_nil]).
  destruct op; cbn in Hm; try done. destruct Hm as (n1 & n2 & ids & _ & _ & [Hnd Hall]%picks_spec & -> & Hrows).
  inversion Hst; subst. cbn [handed].
  assert (cr_ID <$> rows ≡ₚ ids) as Hids.
  { rewrite Hrows. rewrite fetch_rows_ids; [done|]. intros i Hi. rewrite lookup_update_ids.
    destruct (Hall i Hi) as (r & -> & _). by eexists. }
  split.
  - apply (NoDup_fmap_1 fst). rewrite <- list_fmap_compose. cbn. rewrite Hids. done.
  - intros i ep (x & [= -> ->] & Hx)%list_elem_of_fmap. rewrite Hrows in Hx.
    apply elem_of_fetch_rows in Hx as (Hi & r & Hr & ->). cbn in *.
    rewrite Hr. rewrite lookup_update_ids, bool_decide_eq_true_2 in Hr by done.
    apply fmap_Some in Hr as (r0 & Hr0 & ->). rewrite Hr0. cbn. split; by eexists.
Qed.

Definition outdated (D : list (Z * Z)) (Q : queue_table) : Prop :=
  ∀ i ep, (i, ep) ∈ D → i ≤ q_last Q ∧ ∀ r, q_rows Q !! i = Some r → ep ≤ q_lease_epoch r.

(** A settlement the table accepted. *)
Definition settles (op : qop) (res : qres) (i ep : Z) : Prop :=
  res = RBool true ∧ ((∃ by_, op = OAck i by_ ep) ∨ ∃ by_ delay, op = ONack i by_ ep delay).

Lemma settles_epoch e s Q op res ev Q1 i ep :
  qstep e Q ev Q1 → op_means e s Q op res ev → settles op res i ep →
  ∃ r, q_rows Q !! i = Some r ∧ q_lease_epoch r = ep.
Proof.
  intros Hst Hm [-> [[by_ ->]|(by_ & delay & ->)]]; cbn in Hm; [subst ev|destruct Hm as (n & _ & ->)];
    inversion Hst; subst; unfold row_holds in *; (eexists; split; [done|]);
    match goal with H : _ && _ = true |- _ => apply andb_true_iff in H as [_ ?%Z.eqb_eq] end; done.
Qed.

Lemma behaves_fenced e s Q l s' Q' D :
  e ≠ SQLite → behaves e s Q l s' Q' → outdated D Q → NoDup D →
  NoDup (D ++ concat (handed <$> l.*1.*2)) ∧
  ∀ k op res ev i ep ep', l !! k = Some (op, res, ev) → settles op res i ep →
    (i, ep') ∈ D ++ concat (handed <$> take k l.*1.*2) → ep' ≤ ep.
Proof.
  intros He Hb. revert D. induction Hb as [s Q|s Q op res ev s1 Q1 l s' Q' Hw Hst Hm _ _ _ IH]; intros D HD Hnd.
  { cbn. rewrite app_nil_r. split; [done|]. intros [|k]; done. }
  pose proof (handed_spec e _ s Q op res ev Q1 Hw Hst Hm) as [Hnd' Hh].
  pose proof (qstep_epochs e _ Q ev Q1 He Hw Hst) as [Hlast Hep].
  assert (outdated (D ++ handed res) Q1) as HD1.
  { intros i ep [Hin|Hin]%elem_of_app.
    - destruct (HD i ep Hin) as [Hi Hr]. split; [lia|]. intros r Hr1. destruct (Hep i r Hi Hr1) as (r0 & Hr0 & ?).
      specialize (Hr r0 Hr0). lia.
    - destruct (Hh i ep Hin) as [(r0 & Hr0 & _) (r1 & Hr1 & <-)]. split.
      + pose proof (wq_ids _ _ Hw i r0 Hr0). lia.
      + intros r Hr. simplify_eq. lia. }
  assert (NoDup (D ++ handed res)) as Hnd1.
  { apply NoDup_app. split; [done|]. split; [|done]. intros [i ep] Hin Hin'.
    destruct (Hh i ep Hin') as [(r0 & Hr0 & ->) _]. destruct (HD _ _ Hin) as [_ Hr]. specialize (Hr r0 Hr0). lia. }
  destruct (IH (D ++ handed res) HD1 Hnd1) as [IH1 IH2]. cbn. rewrite app_assoc. split; [done|].
  intros [|k] op' res' ev' i ep ep' Hk Hs Hin; cbn in *.
  - injection Hk as <- <- <-. rewrite app_nil_r in Hin. destruct (settles_epoch e s Q op res ev Q1 i ep Hst Hm Hs) as (r & Hr & <-).
    by apply (HD i ep').
  - eapply IH2; [done..|]. by rewrite <- app_assoc.
Qed.

(** *** One worker at a time *)

(** The rows a result gives to a worker. *)
Definition delivered (res : qres) : list Z :=
  match res with
  | RRows rows => cr_ID <$> rows
  | RLocked (Some lr) => [lr_ID lr]
  | _ => []
  end.

(** Nobody gives a message back: no negative acknowledgement, no connection
    lost, no acknowledgement that fails and frees its row.  sqlite uses an
    identifier again once its row is gone, so nothing is inserted there. *)
Definition quiet (e : engine) (ttl : Z) (op : qop) (res : qres) : Prop :=
  match op with
  | OInsert _ _ _ _ => e ≠ SQLite
  | OClaim _ _ ttl' => ttl' = ttl
  | OAckLock _ => res = RDone
  | ONack _ _ _ _ | ONackLock _ _ | OLost _ => False
  | OAck _ _ _ | OClaimLock _ => True
  end.

(** The rows of [D] are gone, leased since [t], or locked. *)
Definition taken (t : Z) (D : list Z) (Q : queue_table) : Prop :=
  ∀ i, i ∈ D → i ≤ q_last Q ∧
    ∀ r, q_rows Q !! i = Some r → (∃ a, q_locked_at r = Some a ∧ t ≤ a) ∨ is_Some (q_locks Q !! i).

Definition ev_taken (ev : qevent) : list Z :=
  match ev with EvClaim _ _ _ _ ids => ids | EvLock _ _ i => [i] | _ => [] end.

(** What the readings of a quiet window allow an event to be. *)
Definition ev_quiet (e : engine) (t ttl : Z) (p : nat) (ev : qevent) : Prop :=
  match ev with
  | EvInsert _ _ _ _ _ => e ≠ SQLite
  | EvClaim _ ttl' n1 n2 _ => ttl' = ttl ∧ n1 < t + ttl ∧ t ≤ n2
  | EvRelease n => n = p
  | EvNack _ _ _ _ | EvLockNack _ _ _ => False
  | _ => True
  end.

Lemma op_quiet e s Q op res ev t ttl :
  (∀ i, (s_pos s ≤ i)%nat → t ≤ tk_now (s_ticks s i) < t + Microseconds ttl) →
  op_means e s Q op res ev → quiet e ttl op res →
  ev_quiet e t (Microseconds ttl) (s_pos s) ev ∧
  (∀ i, i ∈ delivered res → i ∈ ev_taken ev) ∧ (NoDup (ev_taken ev) → NoDup (delivered res)).
Proof.
  intros Hclk Hm Hqt.
  assert (∀ n, reads s n → t ≤ n < t + Microseconds ttl) as Hrd by (intros n (i & Hi & ->); auto).
  assert (∀ res', meant e s Q op res' ev → (∀ lr, op ≠ OAckLock lr) → ev_quiet e t (Microseconds ttl) (s_pos s) ev) as Hev.
  { intros res' Hr Hna. destruct op, res'; cbn in Hr, Hqt; try done; try (destruct b); try (destruct lr);
      try (destruct Hr as [-> _]; done); try (subst ev; done); try (by destruct (Hna lr)).
    - destruct Hr as (n & col & _ & _ & ->). done.
    - destruct Hr as (n1 & n2 & ids & Hn1 & Hn2 & _ & -> & _). cbn. subst.
      apply Hrd in Hn1, Hn2. split; [done|lia].
    - destruct Hr as (n & i & r & ids & _ & _ & _ & -> & _). done. }
  destruct res as [|rows|b|lr|err].
  - split; [|split; [by intros i ?%elem_of_nil|constructor]]. destruct op; cbn in Hm, Hqt; try done;
      [by apply (Hev RDone)|by subst ev].
  - destruct op; cbn in Hm; try done. split; [by apply (Hev (RRows rows))|].
    destruct Hm as (n1 & n2 & ids & _ & _ & [Hnd Hall]%picks_spec & -> & Hrows). cbn [delivered ev_taken].
    assert (cr_ID <$> rows ≡ₚ ids) as Hids.
    { rewrite Hrows. rewrite fetch_rows_ids; [done|]. intros i Hi. rewrite lookup_update_ids.
      destruct (Hall i Hi) as (r & -> & _). by eexists. }
    split; [intros i; by rewrite Hids|by rewrite Hids].
  - split; [|split; [by intros i ?%elem_of_nil|constructor]]. destruct op; cbn in Hm, Hqt; try done;
      by apply (Hev (RBool b)).
  - destruct op; cbn in Hm; try done. split; [by apply (Hev (RLocked lr))|]. destruct lr as [lr|].
    + destruct Hm as (n & i & r & ids & _ & _ & _ & -> & ->). cbn. auto.
    + cbn. split; [by intros i ?%elem_of_nil|constructor].
  - split; [|split; [by intros i ?%elem_of_nil|constructor]].
    destruct Hm as [->|[(lr & Hop & ->)|[(by' & -> & ->)|(_ & res' & Hr)]]]; [done| |done|].
    + destruct Hop as [->|[delay ->]]; done.
    + apply (Hev _ Hr). intros lr ->. done.
Qed.

Lemma taken_step e p t ttl D Q ev Q' :
  wf_queue p Q → qstep e Q ev Q' → ev_quiet e t ttl p ev → taken t D Q →
  taken t (D ++ ev_taken ev) Q' ∧ ∀ i, i ∈ D → i ∈ ev_taken ev → False.
Proof.
  intros Hw Hst Hqt HD.
  destruct Hst as [j id h b vis -> _|by_ ttl' n1 n2 ids Hnd Hids|j by_ ep r0 Hr0 Hh|j by_ ep vis r0 Hr0 Hh
                  |n now j r0 Hr0 Hl Hi Hc Hf|n j v Hi|n j r0 vis Hi|n|]; cbn in Hqt; try done;
    cbn [ev_taken]; rewrite ?app_nil_r; (split; [|try (by intros i _ ?%elem_of_nil)]).
  - intros i Hi. destruct (HD i Hi) as [Hl Hr]. cbn. split; [lia|].
    assert (next_id e Q = q_last Q + 1) as -> by (by destruct e). rewrite lookup_insert_ne by lia. done.
  - destruct Hqt as (-> & Hn1 & Hn2). intros i Hi. cbn. split.
    + apply elem_of_app in Hi as [Hi|Hi]; [by apply (HD i)|]. destruct (Hids i Hi) as (r & Hr & _).
      by apply (wq_ids _ _ Hw i r).
    + intros r. rewrite lookup_update_ids. intros (r0 & Hr0 & ->)%fmap_Some.
      destruct (bool_decide (i ∈ ids)) eqn:Hin; [left; exists n2; done|]. apply bool_decide_eq_false in Hin.
      apply elem_of_app in Hi as [Hi|?]; [|done]. by apply (HD i).
  - destruct Hqt as (-> & Hn1 & Hn2). intros i HiD Hi. destruct (Hids i Hi) as (r & Hr & Hcl & Hlk & _).
    destruct (HD i HiD) as [_ Hr']. destruct (Hr' r Hr) as [(a & Ha & Hta)|[l Hl]]; [|congruence].
    unfold claimable in Hcl. rewrite Ha in Hcl. apply andb_true_iff in Hcl as [_ Hcl]. lia.
  - intros i Hi. destruct (HD i Hi) as [Hl Hr]. cbn. split; [lia|].
    intros r [_ Hir]%lookup_delete_Some. by apply Hr.
  - intros i Hi'. cbn. split.
    + apply elem_of_app in Hi' as [Hi'| ->%list_elem_of_singleton]; [by apply (HD i)|].
      by apply (wq_ids _ _ Hw j r0).
    + intros r Hr. destruct (decide (i = j)) as [->|Hne]; [right; rewrite lookup_insert_eq; by eexists|].
      rewrite lookup_insert_ne by done.
      apply elem_of_app in Hi' as [Hi'| ->%list_elem_of_singleton]; [by apply (HD i)|done].
  - intros i HiD ->%list_elem_of_singleton. destruct (HD j HiD) as [_ Hr].
    unfold lockable in Hl. apply andb_true_iff in Hl as [_ Hl%bool_decide_eq_true].
    destruct (Hr r0 Hr0) as [(a & Ha & _)|[l Hlk]]; congruence.
  - rewrite (publish_locked p n j v None Q Hw Hi). intros i Hi'. cbn. destruct (HD i Hi') as [Hl Hr].
    split; [done|]. intros r. destruct (decide (i = j)) as [->|Hne]; [by rewrite lookup_partial_alter_eq|].
    rewrite lookup_partial_alter_ne, lookup_delete_ne by done. apply Hr.
  - subst n. rewrite free_locks_fresh; [done|]. intros i l Hl. destruct (wq_locks _ _ Hw i l Hl). lia.
  - done.
Qed.

Lemma behaves_exclusive e s Q l s' Q' t ttl D :
  behaves e s Q l s' Q' → (∀ i, (s_pos s ≤ i)%nat → t ≤ tk_now (s_ticks s i) < t + Microseconds ttl) →
  Forall (λ x, quiet e ttl x.1.1 x.1.2) l → taken t D Q → NoDup D →
  NoDup (D ++ concat (delivered <$> l.*1.*2)).
Proof.
  intros Hb. revert D. induction Hb as [s Q|s Q op res ev s1 Q1 l s' Q' Hw Hst Hm Ht Hp _ IH]; intros D Hclk Hqt HD Hnd.
  { cbn. by rewrite app_nil_r. }
  apply Forall_cons in Hqt as [Hq0 Hqt]. cbn in Hq0.
  pose proof (op_quiet e s Q op res ev t ttl Hclk Hm Hq0) as (Hev & Hsub & Hndv).
  pose proof (taken_step e _ t _ D Q ev Q1 Hw Hst Hev HD) as [HD1 Hdis].
  assert (NoDup (ev_taken ev)) as Hnde.
  { clear -Hst. destruct Hst; cbn; try apply NoDup_nil_2; [done|apply NoDup_singleton]. }
  cbn. rewrite app_assoc. apply IH.
  - intros i Hi. rewrite Ht. apply Hclk. lia.
  - done.
  - intros i [Hi|Hi]%elem_of_app; apply HD1, elem_of_app; [by left|right; by apply Hsub].
  - apply NoDup_app. split; [done|]. split; [|by apply Hndv]. intros i Hi Hi'. apply (Hdis i Hi). by apply Hsub.
Qed.
End histories.

Lemma wf_empty_queue p : wf_queue p empty_queue.
Proof. split; cbn; [intros i r|intros i r; cbn|intros i r|intros i l|intros i j l l']; by rewrite lookup_empty. Qed.

(** *** The rows of a claim *)

Section claim.
Context `{Planner} (e : engine) (limit n ttl n2 : Z) (by_ : string) (ids : list Z) (Q : queue_table).
Context (rows : list ClaimedRow).
Context (Hpk : picks e n ttl limit Q ids) (Hlim : 0 ≤ limit).
Context (Hrows : rows ≡ₚ fetch_rows ids (update_ids (leased n2 by_) ids (q_rows Q))).

Lemma claim_ids : cr_ID <$> rows ≡ₚ ids.
Proof using Hpk Hrows.
  rewrite Hrows. rewrite fetch_rows_ids; [done|]. intros i Hi. rewrite lookup_update_ids.
  destruct (proj2 (picks_spec e n ttl limit Q ids Hpk) i Hi) as (r & -> & _). by eexists.
Qed.

Lemma claim_take : ids = take (Z.to_nat limit) (pick_ids (claimable n ttl) Q).
Proof using Hpk Hlim.
  unfold picks, limit_rows in Hpk. destruct (limit <? 0) eqn:E; [lia|]. congruence.
Qed.

Lemma claim_row x :
  x ∈ rows → ∃ r, q_rows Q !! cr_ID x = Some r ∧ claimable n ttl r = true ∧ q_locks Q !! cr_ID x = None ∧
    update_ids (leased n2 by_) ids (q_rows Q) !! cr_ID x = Some (leased n2 by_ r) ∧
    x = claimed_row (cr_ID x) (leased n2 by_ r).
Proof using Hpk Hrows.
  rewrite Hrows. intros (Hi & r & Hr & Hx)%elem_of_fetch_rows.
  destruct (proj2 (picks_spec e n ttl limit Q ids Hpk) _ Hi) as (r0 & Hr0 & Hc & Hl). exists r0.
  rewrite lookup_update_ids, Hr0 in Hr |- *. cbn in *. rewrite bool_decide_eq_true_2 in Hr |- * by done.
  injection Hr as <-. auto.
Qed.

Lemma claim_rest i r x :
  i ∉ cr_ID <$> rows → q_rows Q !! i = Some r → claimable n ttl r = true → q_locks Q !! i = None →
  Z.of_nat (length rows) = limit ∧
  (x ∈ rows → ∃ r', q_rows Q !! cr_ID x = Some r' ∧ q_visible_after r' ≤ q_visible_after r).
Proof using Hpk Hlim Hrows.
  rewrite claim_ids. intros Hi Hr Hc Hl.
  assert (i ∈ pick_ids (claimable n ttl) Q) as Hin by (apply elem_of_pick_ids; eauto).
  apply list_elem_of_lookup_1 in Hin as [k Hk]. pose proof claim_take as Ht.
  assert (Z.to_nat limit ≤ k)%nat as Hle.
  { destruct (decide (Z.to_nat limit ≤ k)%nat); [done|]. destruct Hi. rewrite Ht.
    apply (list_elem_of_lookup_2 _ k). by rewrite lookup_take_lt by lia. }
  pose proof (lookup_lt_Some _ _ _ Hk). split.
  - rewrite <- (length_fmap cr_ID), claim_ids, Ht, length_take. lia.
  - intros Hx. assert (cr_ID x ∈ ids) as Hxi by (rewrite <- claim_ids; by apply list_elem_of_fmap_2).
    rewrite Ht in Hxi. apply list_elem_of_lookup_1 in Hxi as [m Hm]. apply lookup_take_Some in Hm as [Hm ?].
    destruct (claim_row x Hx) as (r' & Hr' & _). exists r'. split; [done|].
    eapply (pick_ids_sorted (claimable n ttl) Q (cr_ID x) i m k); try done. lia.
Qed.
End claim.

(** ** What is promised *)

Section promises.
Context `{Planner, JsonColumn}.
Context (e : engine) (d : LeaseDialect) (ld : option LockDialect) (table : string).

(** C12. The three dialects implement one machine, under every fault of the
    driver and every lost connection: each operation of a history, of either
    strategy and by any number of workers, is one event of it; a result says
    which, and an error means nothing happened, the transaction was rolled
    back, or the answer to what happened was lost. *)
Theorem queue_dialects_correct ops s Q :
  (e, d, ld) ∈ queue_dialects → ValidateIdent table = None →
  s_db s !! table = Some (RQueue Q) → wf_queue (s_pos s) Q →
  let '(rs, s') := run_qops d ld table ops s in
  ∃ l Q', l.*1.*1 = ops ∧ l.*1.*2 = rs ∧ behaves e s Q l s' Q' ∧
    s_db s' !! table = Some (RQueue Q') ∧ wf_queue (s_pos s') Q'.
Proof.
  intros Hd Hv Hq Hw. pose proof (run_qops_behaves e d ld table ops s Q Hd Hv Hq Hw) as Hr.
  by destruct (run_qops d ld table ops s).
Qed.

(** C13. No message is lost: an insertion that reports success adds one row, with
    the headers and payload given to it, and that row stays in the table,
    headers and payload unchanged, whatever else is claimed, returned, rolled
    back or fails, until the holder of its lease or of its lock acknowledges it,
    the acknowledgement being accepted or its answer lost by the driver. *)
Theorem sql_queue_no_loss ops1 id h payload delay ops2 s Q :
  (e, d, ld) ∈ queue_dialects → ValidateIdent table = None →
  s_db s !! table = Some (RQueue Q) → wf_queue (s_pos s) Q →
  let s1 := (run_qops d ld table ops1 s).2 in
  let '(res, s2) := run_qop d ld table (OInsert id h payload delay) s1 in
  let '(rs, s3) := run_qops d ld table ops2 s2 in
  res = RDone →
  ∃ i col vis Q1 Q2, column e h = inr col ∧
    s_db s1 !! table = Some (RQueue Q1) ∧ s_db s2 !! table = Some (RQueue Q2) ∧
    q_rows Q1 !! i = None ∧ q_rows Q2 = <[i := new_row id col payload vis]> (q_rows Q1) ∧
    ((∃ Q3 r, s_db s3 !! table = Some (RQueue Q3) ∧ q_rows Q3 !! i = Some r ∧ carries id col payload r) ∨
     ∃ k op ack Qk r, ops2 !! k = Some op ∧ rs !! k = Some ack ∧
       s_db (run_qops d ld table (take k ops2) s2).2 !! table = Some (RQueue Qk) ∧
       q_rows Qk !! i = Some r ∧ carries id col payload r ∧
       acknowledges (run_qops d ld table (take k ops2) s2).2 Qk i op ack).
Proof.
  intros Hd Hv Hq Hw s1.
  destruct (run_qops_behaves e d ld table ops1 s Q Hd Hv Hq Hw) as (_ & Q1 & _ & _ & _ & Hq1 & Hw1).
  fold s1 in Hq1, Hw1.
  pose proof (run_qop_means e d ld table (OInsert id h payload delay) s1 Q1 Hd Hv Hq1 Hw1) as Hm.
  destruct (run_qop d ld table (OInsert id h payload delay) s1) as [res s2].
  destruct Hm as (Ht & Hp & ev & Q2 & Hst & Hq2 & Hmean & Htx).
  assert (wf_queue (s_pos s2) Q2) as Hw2 by by eapply qstep_wf.
  destruct (run_qops d ld table ops2 s2) as [rs s3] eqn:Hrun. intros ->.
  cbn in Hmean. destruct Hmean as (n & col & _ & Hcol & ->). inversion Hst; subst.
  exists (next_id e Q1), col, (n + Microseconds delay), Q1, (add_row (next_id e Q1) (new_row id col payload (n + Microseconds delay)) Q1).
  do 3 (split; [done|]). split; [by eapply next_id_fresh|]. split; [done|].
  edestruct (run_qops_keeps e d ld table ops2 s2) as [Hk|Hk]; [done..| | | |]; try (rewrite Hrun in Hk; by eauto).
  - cbn. by rewrite lookup_insert_eq.
  - done.
Qed.

(** C16. Settlement is fenced (postgres, mysql): over a history no fence token of
    a row is handed out twice, and a settlement is accepted only from the
    newest lease of its row. *)
Theorem sql_queue_fenced ops s Q :
  (e, d, ld) ∈ queue_dialects → e ≠ SQLite → ValidateIdent table = None →
  s_db s !! table = Some (RQueue Q) → wf_queue (s_pos s) Q →
  let '(rs, _) := run_qops d ld table ops s in
  NoDup (concat (handed <$> rs)) ∧
  ∀ j k op res res' i ep ep', (j < k)%nat →
    rs !! j = Some res' → (i, ep') ∈ handed res' →
    ops !! k = Some op → rs !! k = Some res → settles op res i ep → ep' ≤ ep.
Proof.
  intros Hd He Hv Hq Hw.
  destruct (run_qops_behaves e d ld table ops s Q Hd Hv Hq Hw) as (l & Q' & Hops & Hrs & Hb & _ & _).
  destruct (run_qops d ld table ops s) as [rs s']. cbn in *. subst rs.
  pose proof (behaves_fenced e s Q l s' Q' [] He Hb) as [Hnd Hf];
    [by intros i ep ?%elem_of_nil|constructor|]. split; [done|].
  intros j k op res res' i ep ep' Hjk Hj Hin Hk Hr Hs.
  rewrite <- Hops in Hk. rewrite !list_lookup_fmap in Hk. rewrite !list_lookup_fmap in Hr.
  destruct (l !! k) as [[[op' res''] ev]|] eqn:Hlk; [|done]. cbn in Hk, Hr. injection Hk as ->. injection Hr as ->.
  eapply Hf; [done..|]. cbn. rewrite list_elem_of_In. apply in_concat. exists (handed res').
  rewrite <- !list_elem_of_In. split; [|done]. apply list_elem_of_fmap. exists res'. split; [done|].
  eapply list_elem_of_lookup_2. by rewrite lookup_take_lt.
Qed.

(** C15. One worker at a time: while the server clock stays within a lease and
    nobody gives a message back, no message of the table is given to two
    workers, by leases and locks together. *)
Theorem sql_queue_exclusive ops s Q t ttl :
  (e, d, ld) ∈ queue_dialects → ValidateIdent table = None →
  s_db s !! table = Some (RQueue Q) → wf_queue (s_pos s) Q →
  (∀ i, (s_pos s ≤ i)%nat → t ≤ tk_now (s_ticks s i) < t + Microseconds ttl) →
  let '(rs, _) := run_qops d ld table ops s in
  Forall2 (quiet e ttl) ops rs → NoDup (concat (delivered <$> rs)).
Proof.
  intros Hd Hv Hq Hw Hclk.
  destruct (run_qops_behaves e d ld table ops s Q Hd Hv Hq Hw) as (l & Q' & Hops & Hrs & Hb & _ & _).
  destruct (run_qops d ld table ops s) as [rs s']. cbn in *. intros Hqt. subst ops rs.
  eapply (behaves_exclusive e s Q l s' Q' t ttl []); [done..| | |].
  - apply Forall2_fmap, Forall2_fmap in Hqt. clear -Hqt. induction l; [constructor|].
    inversion Hqt; subst. constructor; auto.
  - by intros i ?%elem_of_nil.
  - constructor.
Qed.

Lemma claim_exact limit by_ ttl s Q rows s' :
  (e, d, ld) ∈ queue_dialects → ValidateIdent table = None →
  s_db s !! table = Some (RQueue Q) → wf_queue (s_pos s) Q → 0 ≤ limit →
  run_qop d ld table (OClaim limit by_ ttl) s = (RRows rows, s') →
  ∃ n n2 Q', reads s n ∧ reads s n2 ∧ s_db s' = <[table := RQueue Q']> (s_db s) ∧
    NoDup (cr_ID <$> rows) ∧ Z.of_nat (length rows) ≤ limit ∧
    (∀ x, x ∈ rows → ∃ r, q_rows Q !! cr_ID x = Some r ∧ claimable n (Microseconds ttl) r = true ∧
       q_locks Q !! cr_ID x = None ∧ q_rows Q' !! cr_ID x = Some (leased n2 by_ r) ∧
       x = claimed_row (cr_ID x) (leased n2 by_ r)) ∧
    (∀ i, i ∉ cr_ID <$> rows → q_rows Q' !! i = q_rows Q !! i) ∧
    (∀ i r x, i ∉ cr_ID <$> rows → q_rows Q !! i = Some r → claimable n (Microseconds ttl) r = true →
       q_locks Q !! i = None → Z.of_nat (length rows) = limit ∧
       (x ∈ rows → ∃ r', q_rows Q !! cr_ID x = Some r' ∧ q_visible_after r' ≤ q_visible_after r)).
Proof.
  intros [Hd _]%queue_dialects_laws Hv Hq Hw Hlim Hrun.
  destruct (Claim_law table s Q limit by_ ttl Hv Hq (wq_counts _ _ Hw)) as (_ & _ & ev & Q' & Hst & Hdb & HP).
  unfold run_qop, ret in Hrun. destruct (Claim d QDB table limit by_ ttl s) as [[err|rows0] s0]; cbn in *; [done|].
  injection Hrun as <- <-. destruct HP as (n & n2 & ids & Hn & Hn2 & Hpk & -> & Hrows). inversion Hst; subst.
  pose proof (claim_ids e limit n _ n2 by_ ids Q rows0 Hpk Hrows) as Hids.
  exists n, n2, (set_rows (update_ids (leased n2 by_) ids) Q). do 3 (split; [done|]).
  split; [by rewrite Hids|]. split; [|split; [|split]].
  - rewrite <- (length_fmap cr_ID), Hids, (claim_take e limit n _ ids Q Hpk Hlim), length_take. lia.
  - by apply (claim_row e limit).
  - intros i Hi. cbn. rewrite lookup_update_ids. rewrite Hids in Hi.
    destruct (q_rows Q !! i); [cbn|done]. by rewrite bool_decide_eq_false_2.
  - intros i r x. by apply (claim_rest e limit n _ n2 by_ ids).
Qed.

(** A claim is exact: it leases at most [limit] rows, each visible, unlocked
    and unleased (or with its lease expired), the soonest visible first, so that
    a row it leaves is claimable only if the limit was reached; it returns them
    as leased, with counter and token one up, and touches nothing else. *)
Theorem sql_queue_claim_exact limit by_ ttl s Q rows s' :
  (e, d, ld) ∈ queue_dialects → ValidateIdent table = None →
  s_db s !! table = Some (RQueue Q) → wf_queue (s_pos s) Q → 0 ≤ limit →
  run_qop d ld table (OClaim limit by_ ttl) s = (RRows rows, s') →
  ∃ n n2 Q', reads s n ∧ reads s n2 ∧ s_db s' = <[table := RQueue Q']> (s_db s) ∧
    NoDup (cr_ID <$> rows) ∧ Z.of_nat (length rows) ≤ limit ∧
    (∀ x, x ∈ rows → ∃ r, q_rows Q !! cr_ID x = Some r ∧ claimable n (Microseconds ttl) r = true ∧
       q_locks Q !! cr_ID x = None ∧ q_rows Q' !! cr_ID x = Some (leased n2 by_ r) ∧
       x = claimed_row (cr_ID x) (leased n2 by_ r)) ∧
    (∀ i, i ∉ cr_ID <$> rows → q_rows Q' !! i = q_rows Q !! i) ∧
    (∀ i r x, i ∉ cr_ID <$> rows → q_rows Q !! i = Some r → claimable n (Microseconds ttl) r = true →
       q_locks Q !! i = None → Z.of_nat (length rows) = limit ∧
       (x ∈ rows → ∃ r', q_rows Q !! cr_ID x = Some r' ∧ q_visible_after r' ≤ q_visible_after r)).
Proof. apply claim_exact. Qed.

(** The lock strategy is exact, and safe against crashes: a lock is on the
    soonest visible row that is neither leased nor locked, delivered with its
    counter one up; a lost connection puts the table back as it was before the
    lock, an acknowledgement takes just that row away, and a negative one leaves
    it with the counter up, unlocked, and visible after the delay. *)
Theorem sql_lock_exact by_ s Q lr s1 :
  (e, d, ld) ∈ queue_dialects → ValidateIdent table = None →
  s_db s !! table = Some (RQueue Q) → wf_queue (s_pos s) Q →
  run_qop d ld table (OClaimLock by_) s = (RLocked (Some lr), s1) →
  let tx := tx_id (lr_Tx lr) in
  ∃ n r, reads s n ∧ q_rows Q !! lr_ID lr = Some r ∧ lockable n r = true ∧ q_locks Q !! lr_ID lr = None ∧
    (∀ j r', q_rows Q !! j = Some r' → lockable n r' = true → q_locks Q !! j = None →
       q_visible_after r ≤ q_visible_after r') ∧
    lr_MsgID lr = q_msg_id r ∧ lr_Headers lr = q_headers r ∧ lr_Payload lr = q_payload r ∧
    lr_DeliveryCount lr = q_delivery_count r + 1 ∧
    s_db (run_qop d ld table (OLost tx) s1).2 !! table = Some (RQueue Q) ∧
    (∀ s2, run_qop d ld table (OAckLock lr) s1 = (RDone, s2) →
       s_db s2 !! table = Some (RQueue (set_rows (delete (lr_ID lr)) Q))) ∧
    (∀ delay s2, run_qop d ld table (ONackLock lr delay) s1 = (RDone, s2) →
       ∃ n', (reads s1 n' ∨ n' = tx_start (lr_Tx lr)) ∧ s_db s2 !! table = Some (RQueue
         (set_rows <[lr_ID lr := returned (n' + Microseconds delay) (counted r)]> Q))).
Proof.
  intros Hd Hv Hq Hw Hrun tx.
  pose proof (run_qop_means e d ld table (OClaimLock by_) s Q Hd Hv Hq Hw) as Hm. rewrite Hrun in Hm.
  destruct Hm as (Ht & Hp & ev & Q1 & Hst & Hq1 & (n & i & r & ids & Hn & Hpk & Hr & -> & Hlr) & Htx).
  assert (wf_queue (s_pos s1) Q1) as Hw1 by (by eapply qstep_wf).
  assert (∀ j l, q_locks Q !! j = Some l → l.1 ≠ s_pos s) as Hfr.
  { intros j l Hl. destruct (wq_locks _ _ Hw j l Hl). lia. }
  assert (lr_ID lr = i ∧ tx_id (lr_Tx lr) = s_pos s) as [Hi Htxs] by (by rewrite Hlr).
  subst tx.
  assert (i ∈ pick_ids (lockable n) Q) as (r' & Hr' & Hl & Hlk)%elem_of_pick_ids by (rewrite Hpk; by left).
  rewrite Hr in Hr'. injection Hr' as <-. inversion Hst; subst i Q1. simplify_eq.
  set (Q1 := with_lock (lr_ID lr) (s_pos s) (Some (counted r)) Q) in *.
  assert (q_locks Q1 !! lr_ID lr = Some (s_pos s, Some (counted r))) as Hlock by apply lookup_insert_eq.
  assert (∀ w, publish (s_pos s) (with_lock (lr_ID lr) (s_pos s) w Q1) =
            set_rows (partial_alter (λ _, w) (lr_ID lr)) Q) as Hpub.
  { intros w. rewrite (publish_locked _ _ _ _ w Q1 Hw1 Hlock). unfold set_rows. cbn. f_equal.
    by apply delete_insert_id. }
  exists n, r. do 4 (split; [done|]). split; [|split; [|split; [|split; [|split; [|split; [|split]]]]]].
  - intros j r' Hjr Hjl Hjk. assert (j ∈ pick_ids (lockable n) Q) as Hj by (apply elem_of_pick_ids; eauto).
    apply list_elem_of_lookup_1 in Hj as [[|k] Hk].
    + rewrite Hpk in Hk. injection Hk as <-. simplify_eq. lia.
    + eapply (pick_ids_sorted (lockable n) Q _ j 0 (S k)); [by rewrite Hpk|done|lia|done|done].
  - by rewrite Hlr.
  - by rewrite Hlr.
  - by rewrite Hlr.
  - by rewrite Hlr.
  - rewrite Htxs. replace (run_qop d ld table (OLost (s_pos s)) s1)
      with (RDone, advance s1 (release_locks (s_pos s) (s_db s1))) by (by destruct ld). cbn.
    rewrite <- (free_with_lock_fresh (s_pos s) (lr_ID lr) (Some (counted r)) Q Hfr Hlk). by apply on_queues_lookup.
  - intros s2 Hack. pose proof (run_qop_means e d ld table (OAckLock lr) s1 Q1 Hd Hv Hq1 Hw1) as Hm.
    rewrite Hack in Hm. destruct Hm as (_ & _ & ev & Q2 & Hst2 & Hq2 & -> & _).
    inversion Hst2; subst. by rewrite Htxs, (Hpub None) in Hq2.
  - intros delay s2 Hnack. pose proof (run_qop_means e d ld table (ONackLock lr delay) s1 Q1 Hd Hv Hq1 Hw1) as Hm.
    rewrite Hnack in Hm. destruct Hm as (_ & _ & ev & Q2 & Hst2 & Hq2 & (n' & Hn' & ->) & _).
    inversion Hst2 as [| | | | | |? ? r2 ? Hr2| |]; subst. rewrite Htxs in Hq2, Hr2.
    rewrite Hlock in Hr2. injection Hr2 as <-. rewrite Hpub in Hq2. eauto.
Qed.
End promises.

(** ** Runs *)

(** An engine that keeps the text of a JSON column, and meets rows by key. *)
Definition text_column : JsonColumn := {| json_column := λ _ b, inr b |}.
#[local] Existing Instance scan_order.
#[local] Existing Instance text_column.

(** A server whose clock reads [now i] at the [i]th statement. *)
Definition clocked (now : nat → Z) : session :=
  mkSession {["q" := RQueue empty_queue]} (λ i, mkTick None (now i) false) 0.

Definition demo_history : list qop :=
  [OInsert "m1" [] [] 0; OInsert "m2" [] [] 0; OClaim 1 "a" minute; OClaimLock "b"; OAck 1 "a" 1;
   OClaim 5 "c" minute; OLost 3; OClaim 5 "c" minute; OAck 2 "c" 1].
Example demo_run :
  (run_qops postgresDialect (Some postgresLockDialect) "q" demo_history (clocked Z.of_nat)).1 =
    [RDone; RDone; RRows [mkClaimedRow 1 "m1" [] [] 1 1];
     RLocked (Some (mkLockedRow 2 "m2" [] [] 1 (mkTx 3 3))); RBool true; RRows [];
     RDone; RRows [mkClaimedRow 2 "m2" [] [] 1 1]; RBool true].
Proof. vm_compute. reflexivity. Qed.

Lemma clocked_table now : s_db (clocked now) !! "q" = Some (RQueue empty_queue).
Proof. reflexivity. Qed.

Lemma queue_dialects_correct_witness :
  (Postgres, postgresDialect, Some postgresLockDialect) ∈ queue_dialects ∧
  let '(rs, s') := run_qops postgresDialect (Some postgresLockDialect) "q" demo_history (clocked Z.of_nat) in
  ∃ l Q', l.*1.*1 = demo_history ∧ l.*1.*2 = rs ∧ behaves Postgres (clocked Z.of_nat) empty_queue l s' Q' ∧
    s_db s' !! "q" = Some (RQueue Q') ∧ wf_queue (s_pos s') Q'.
Proof.
  split; [by left|].
  apply (queue_dialects_correct Postgres postgresDialect (Some postgresLockDialect) "q" demo_history
    (clocked Z.of_nat) empty_queue); [by left|reflexivity|reflexivity|apply wf_empty_queue].
Defined.

Lemma sql_queue_no_loss_witness :
  let s2 := (run_qops mysqlDialect (Some mysqlLockDialect) "q" (take 2 demo_history) (clocked Z.of_nat)).2 in
  let '(rs, s3) := run_qops mysqlDialect (Some mysqlLockDialect) "q" (drop 2 demo_history) s2 in
  ∃ i Q2, s_db s2 !! "q" = Some (RQueue Q2) ∧ (∃ r, q_rows Q2 !! i = Some r ∧ carries "m2" [] [] r) ∧
    ((∃ Q3 r, s_db s3 !! "q" = Some (RQueue Q3) ∧ q_rows Q3 !! i = Some r ∧ carries "m2" [] [] r) ∨
     ∃ k op ack Qk, drop 2 demo_history !! k = Some op ∧ rs !! k = Some ack ∧
       acknowledges (run_qops mysqlDialect (Some mysqlLockDialect) "q" (take k (drop 2 demo_history)) s2).2 Qk i op ack).
Proof.
  intros s2.
  pose proof (sql_queue_no_loss MySQL mysqlDialect (Some mysqlLockDialect) "q" [OInsert "m1" [] [] 0] "m2" [] [] 0
    (drop 2 demo_history) (clocked Z.of_nat) empty_queue (ltac:(by right; left)) eq_refl eq_refl (wf_empty_queue _)) as Hn.
  cbv zeta in Hn.
  destruct (run_qop mysqlDialect (Some mysqlLockDialect) "q" (OInsert "m2" [] [] 0)
    (run_qops mysqlDialect (Some mysqlLockDialect) "q" [OInsert "m1" [] [] 0] (clocked Z.of_nat)).2) as [res s2'] eqn:E.
  assert (res = RDone ∧ s2' = s2) as [-> ->].
  { split; [apply (f_equal fst) in E; vm_compute in E; by rewrite <- E|].
    apply (f_equal snd) in E. cbn [snd] in E. rewrite <- E. vm_compute. reflexivity. }
  destruct (run_qops mysqlDialect (Some mysqlLockDialect) "q" (drop 2 demo_history) s2) as [rs s3].
  destruct (Hn eq_refl) as (i & col & vis & Q1 & Q2 & Hcol & _ & Hq2 & _ & Hins & Hend).
  vm_compute in Hcol. injection Hcol as <-.
  exists i, Q2. split; [exact Hq2|]. split.
  { exists (new_row "m2" [] [] vis). rewrite Hins, lookup_insert_eq. by split. }
  destruct Hend as [Hend|(k & op & ack & Qk & r & Hop & Hack & _ & _ & _ & Ha)]; [by left|].
  right. exists k, op, ack, Qk. by split.
Defined.

Definition slow_history : list qop :=
  [OInsert "m1" [] [] 0; OClaim 1 "a" minute; OClaim 1 "b" minute; OAck 1 "a" 1; OAck 1 "b" 2].
(** The second claim comes after the lease. *)
Definition slow_clock (i : nat) : Z := if (i <? 2)%nat then 0 else 70000000.

Lemma sql_queue_fenced_witness :
  (run_qops postgresDialect (Some postgresLockDialect) "q" slow_history (clocked slow_clock)).1 =
    [RDone; RRows [mkClaimedRow 1 "m1" [] [] 1 1]; RRows [mkClaimedRow 1 "m1" [] [] 2 2]; RBool false; RBool true] ∧
  NoDup (concat (handed <$> (run_qops postgresDialect (Some postgresLockDialect) "q" slow_history (clocked slow_clock)).1)).
Proof.
  split; [vm_compute; reflexivity|].
  pose proof (sql_queue_fenced Postgres postgresDialect (Some postgresLockDialect) "q" slow_history
    (clocked slow_clock) empty_queue (ltac:(by left)) (ltac:(done)) eq_refl eq_refl (wf_empty_queue _)) as Hn.
  destruct (run_qops postgresDialect (Some postgresLockDialect) "q" slow_history (clocked slow_clock)) as [rs s'].
  exact (proj1 Hn).
Defined.

Definition quiet_history : list qop :=
  [OInsert "m1" [] [] 0; OInsert "m2" [] [] 0; OClaim 1 "a" minute; OClaimLock "b"; OAck 2 "a" 1; OClaim 5 "c" minute].

Lemma sql_queue_exclusive_witness :
  delivered <$> (run_qops postgresDialect (Some postgresLockDialect) "q" quiet_history (clocked (λ _, 7))).1 =
    [[]; []; [2]; [1]; []; []] ∧
  NoDup (concat (delivered <$> (run_qops postgresDialect (Some postgresLockDialect) "q" quiet_history (clocked (λ _, 7))).1)).
Proof.
  split; [vm_compute; reflexivity|].
  pose proof (sql_queue_exclusive Postgres postgresDialect (Some postgresLockDialect) "q" quiet_history
    (clocked (λ _, 7)) empty_queue 0 minute (ltac:(by left)) eq_refl eq_refl (wf_empty_queue _) (ltac:(intros i _; split; vm_compute; congruence))) as Hn.
  destruct (run_qops postgresDialect (Some postgresLockDialect) "q" quiet_history (clocked (λ _, 7))) as [rs s'] eqn:E.
  cbn [fst] in *. apply Hn. apply (f_equal fst) in E. vm_compute in E. subst rs.
  repeat constructor; done.
Defined.

Definition two_rows : session := (run_qops sqliteDialect None "q" (take 2 demo_history) (clocked Z.of_nat)).2.
Definition two_table : queue_table :=
  mkQueue {[1 := mkQueueRow "m1" [] [] None None 0 0 0; 2 := mkQueueRow "m2" [] [] None None 1 0 0]} 2 ∅.

Lemma two_rows_cases i r :
  q_rows two_table !! i = Some r →
  (i = 1 ∧ r = mkQueueRow "m1" [] [] None None 0 0 0) ∨ (i = 2 ∧ r = mkQueueRow "m2" [] [] None None 1 0 0).
Proof.
  unfold two_table. cbn [q_rows].
  intros [[<- <-]|[_ [<- <-]%lookup_singleton_Some]]%lookup_insert_Some; auto.
Qed.

Lemma wf_two p : wf_queue p two_table.
Proof.
  split.
  - intros i r [[-> ->]|[-> ->]]%two_rows_cases; cbn; lia.
  - intros i r [[-> ->]|[-> ->]]%two_rows_cases; cbn; lia.
  - by intros i r [[-> ->]|[-> ->]]%two_rows_cases.
  - intros i l. cbn. by rewrite lookup_empty.
  - intros i j l l'. cbn. by rewrite lookup_empty.
Qed.

Lemma sql_queue_claim_exact_witness :
  ∃ s', run_qop sqliteDialect None "q" (OClaim 1 "a" minute) two_rows =
    (RRows [mkClaimedRow 1 "m1" [] [] 1 1], s') ∧
  ∃ n n2 Q', reads two_rows n ∧ reads two_rows n2 ∧ s_db s' = <["q" := RQueue Q']> (s_db two_rows) ∧
    q_rows Q' !! 2 = q_rows two_table !! 2.
Proof.
  eexists. split; [vm_compute; reflexivity|].
  match goal with |- ∃ n n2 Q', _ ∧ _ ∧ s_db ?s' = _ ∧ _ =>
    destruct (sql_queue_claim_exact SQLite sqliteDialect None "q" 1 "a" minute two_rows two_table
      [mkClaimedRow 1 "m1" [] [] 1 1] s') as (n & n2 & Q' & ? & ? & ? & _ & _ & _ & Hrest & _)
  end; [by right; right; left|reflexivity|vm_compute; reflexivity|apply wf_two|lia|vm_compute; reflexivity|].
  exists n, n2, Q'. split; [assumption|]. split; [assumption|]. split; [assumption|]. apply Hrest.
  cbn. by intros ?%list_elem_of_singleton.
Defined.

Definition pg_two_rows : session :=
  (run_qops postgresDialect (Some postgresLockDialect) "q" (take 2 demo_history) (clocked Z.of_nat)).2.
Definition lr_two : LockedRow := mkLockedRow 1 "m1" [] [] 1 (mkTx 2 2).

Lemma sql_lock_exact_witness :
  ∃ s1, run_qop postgresDialect (Some postgresLockDialect) "q" (OClaimLock "a") pg_two_rows =
    (RLocked (Some lr_two), s1) ∧
  s_db (run_qop postgresDialect (Some postgresLockDialect) "q" (OLost 2) s1).2 !! "q" = Some (RQueue two_table).
Proof.
  eexists. split; [vm_compute; reflexivity|].
  match goal with |- s_db (run_qop _ _ _ _ ?s1).2 !! _ = _ =>
    destruct (sql_lock_exact Postgres postgresDialect (Some postgresLockDialect) "q" "a" pg_two_rows two_table
      lr_two s1) as (n & r & _ & _ & _ & _ & _ & _ & _ & _ & _ & Hlost & _)
  end; [by left|reflexivity|vm_compute; reflexivity|apply wf_two|vm_compute; reflexivity|].
  exact Hlost.
Defined.

(** ** Where the queue does not do what it is meant to *)

(** "a" outlives its lease, "b" takes the row over and acknowledges it, and "a"
    claims the next message, which has the row's identifier. *)
Definition reuse_history : list qop :=
  [OInsert "m1" [] [] 0; OClaim 1 "a" minute; OClaim 1 "b" minute; OAck 1 "b" 2;
   OInsert "m2" [] [] 0; OClaim 1 "a" minute].
(** Its late acknowledgement of the first message, and a claim when the lease of
    the second has expired. *)
Definition late_ack : list qop := [OAck 1 "a" 1; OClaim 1 "c" minute].
Definition reuse_clock (i : nat) : Z := if (i <? 2)%nat then 0 else if (i <? 9)%nat then 70000000 else 200000000.

(** sqlite gives the key of a deleted row to the next one, and the fence
    token starts again with it: the late acknowledgement of a message whose
    lease was taken over is accepted as one of another message, which is lost
    if its worker then fails.  Over postgres the same acknowledgement is
    refused, and the message is claimed again. *)
Example sqlite_late_ack_loses :
  drop 5 (run_qops sqliteDialect None "q" (reuse_history ++ late_ack) (clocked reuse_clock)).1 =
    [RRows [mkClaimedRow 1 "m2" [] [] 1 1]; RBool true; RRows []] ∧
  drop 5 (run_qops postgresDialect None "q" (reuse_history ++ late_ack) (clocked reuse_clock)).1 =
    [RRows [mkClaimedRow 2 "m2" [] [] 1 1]; RBool false; RRows [mkClaimedRow 2 "m2" [] [] 2 2]].
Proof. split; vm_compute; reflexivity. Qed.

(** A message locked at clock 2, returned a minute later for half a minute, and
    looked for at once. *)
Definition delay_history (clock : Z) : list qop :=
  [OInsert "m1" [] [] 0; OClaimLock "a"; ONackLock (mkLockedRow 1 "m1" [] [] 1 (mkTx 1 clock)) (30 * second);
   OClaimLock "b"].
Definition delay_clock (i : nat) : Z := if (i <? 4)%nat then Z.of_nat i else 60000000.

(** On postgres the delay of a negative acknowledgement under the lock
    strategy counts from the claim, since now() is the start of the
    transaction: a message returned for thirty seconds after a minute's work is
    claimed again at once.  mysql, whose clock is the statement's, keeps it
    invisible. *)
Theorem pg_lock_delay_from_claim :
  drop 2 (run_qops postgresDialect (Some postgresLockDialect) "q" (delay_history 1) (clocked delay_clock)).1 =
    [RDone; RLocked (Some (mkLockedRow 1 "m1" [] [] 2 (mkTx 6 60000000)))] ∧
  drop 2 (run_qops mysqlDialect (Some mysqlLockDialect) "q" (delay_history 1) (clocked delay_clock)).1 =
    [RDone; RLocked None].
Proof. split; vm_compute; reflexivity. Qed.
