(* ===== verification/SqlInbox.v ===== *)
(** * The SQL inbox

    [adapter/database/sql/inbox_dedup.go], the idempotent consumer's
    [InboxDeduper], with the SPI [InboxDialect] of [dialect.go] and its three
    implementations in [postgres/dialect.go], [mysql/dialect.go] and
    [sqlite/dialect.go].

    A handler records a message's id in the transaction of its business change,
    so that transactions on one id come one after the other: the second insertion
    waits for the first transaction to end. *)

From Stdlib Require Import Strings.Ascii.
From S2P Require Import Prelude Message SqlEngine SqlGroup SqlGroupStore SqlQueue.
Local Open Scope Z_scope.

#[local] Arguments quote : simpl never.
#[local] Arguments quote_char : simpl never.

(** ** errors.go *)

Definition ErrNilTx : sentinel := OtherSentinel "msgin/sql: nil transaction".
Definition ErrInvalidRetention : sentinel := OtherSentinel "msgin/sql: retention (olderThan) must be > 0".
Definition ErrInboxNoUniqueConstraint : sentinel :=
  OtherSentinel "msgin/sql: inbox msg_id column has no unique constraint".
Definition ErrInboxInsertFailed : sentinel :=
  OtherSentinel "msgin/sql: inbox insert did not take effect and is not a duplicate".

(** ** The column [msg_id] *)

(** The schema leaves mysql's column to the server's collation, which compares
    two ids by a key; [INSERT IGNORE] turns a data error into a warning, and
    stores something else or nothing. *)
Class MySQLColumn : Type := {
  collation_key : string → string;
  ignore_stored : string → option string
}.
Definition id_key `{MySQLColumn} (e : engine) (id : string) : string :=
  match e with MySQL => collation_key id | _ => id end.

Section statements.
Context `{MySQLColumn} (e : engine).

Definition on_inbox {A} (qt : string) (f : inbox_table → error + (A * inbox_table))
    (db : database) : error + (A * database) :=
  match unquote (quote_char e) qt with
  | None => inl (Opaque "syntax error")
  | Some t =>
      match db !! t with
      | Some (RInbox J) => let? r := f J in inr (r.1, <[t := RInbox r.2]> db)
      | _ => inl undefined_table
      end
  end.

Definition recorded (id : string) (J : inbox_table) : bool :=
  existsb (λ r, String.eqb (id_key e r.1) (id_key e id)) (i_rows J).
Definition record_id (id : string) (now : Z) (J : inbox_table) : inbox_table :=
  mkInbox (i_unique J) (i_rows J ++ [(id, now)]).

(** [INSERT ... ON CONFLICT (msg_id) DO NOTHING RETURNING msg_id]: the id, or no
    row; a table without the constraint is refused. *)
Definition insert_returning (q : Querier) (qt id : string) : Sq string :=
  exec e q (λ now, on_inbox qt (λ J,
    if negb (i_unique J) then inl (Opaque "no unique constraint matches ON CONFLICT")
    else if recorded id J then inl (Sentinel sql_ErrNoRows)
    else inr (id, record_id id now J))).

(** [INSERT IGNORE]: the rows it affects. *)
Definition insert_ignore (q : Querier) (qt id : string) : Sq Z :=
  exec e q (λ now, on_inbox qt (λ J,
    inr (match ignore_stored id with
         | None => (0, J)
         | Some id' => if i_unique J && recorded id' J then (0, J) else (1, record_id id' now J)
         end))).
(** [SELECT msg_id ... WHERE msg_id = id LOCK IN SHARE MODE], by
    [QueryRowContext]. *)
Definition select_id (q : Querier) (qt id : string) : Sq string :=
  exec e q (λ _, on_inbox qt (λ J,
    match List.find (λ r, String.eqb (id_key e r.1) (id_key e id)) (i_rows J) with
    | Some r => inr (r.1, J)
    | None => inl (Sentinel sql_ErrNoRows)
    end)).

(** [DELETE ... WHERE processed_at < now - age] *)
Definition delete_older (q : Querier) (qt : string) (age : Z) : Sq Z :=
  exec e q (λ now, on_inbox qt (λ J,
    let old := filter (λ r, r.2 < now - age) (i_rows J) in
    inr (Z.of_nat (length old), mkInbox (i_unique J) (filter (λ r, now - age ≤ r.2) (i_rows J))))).

(** The catalog's unique and primary keys on [msg_id]. *)
Definition select_unique (table : string) : Sq bool :=
  stmt None (λ _ db, inr (match db !! table with Some (RInbox J) => i_unique J | _ => false end, db)).
End statements.

(** ** The SPI *)

Record InboxDialect : Type := mkInboxDialect {
  InsertInboxIfAbsent : Querier → string → string → Sq bool;
  PurgeInbox : Querier → string → Z → Sq Z;
  EnsureInboxSchema : Querier → string → Sq unit;
  InboxSchemaExists : Querier → string → Sq bool;
  MsgIDUniqueIndexExists : Querier → string → Sq bool
}.

Definition unique_probe (table : string) : Sq bool :=
  match ValidateIdent table with
  | Some err => fail err
  | None => select_unique table
  end.

Section dialects.
Context `{MySQLColumn} (e : engine).

(** postgres and sqlite *)
Definition insert_if_absent (q : Querier) (table msgID : string) : Sq bool :=
  quoted e table (λ qt,
    r ← attempt (insert_returning e q qt msgID);
    match r with
    | inl err => if Is err sql_ErrNoRows then mret true else fail err
    | inr _ => mret false
    end).
Definition purge (q : Querier) (table : string) (olderThan : Z) : Sq Z :=
  quoted e table (λ qt,
    res ← delete_older e q qt (Microseconds olderThan);
    RowsAffected res).
End dialects.

Section builtin.
Context `{MySQLColumn}.

Definition empty_inbox : inbox_table := mkInbox true [].

Definition pgInsertInboxIfAbsent := insert_if_absent Postgres.
Definition pgPurgeInbox := purge Postgres.
Definition pgEnsureInboxSchema (q : Querier) (table : string) : Sq unit :=
  quoted Postgres table (λ qt,
    _ ← create_table Postgres qt (RInbox empty_inbox);
    create_index Postgres qt).
Definition postgresInboxDialect : InboxDialect :=
  mkInboxDialect pgInsertInboxIfAbsent pgPurgeInbox pgEnsureInboxSchema (λ _, schema_probe) (λ _, unique_probe).

Definition mysqlInsertInboxIfAbsent (q : Querier) (table msgID : string) : Sq bool :=
  quoted MySQL table (λ qt,
    res ← insert_ignore MySQL q qt msgID;
    n ← RowsAffected res;
    if n =? 1 then mret false
    else
      found ← attempt (select_id MySQL q qt msgID);
      match found with
      | inl err =>
          if Is err sql_ErrNoRows
          then fail (Errorf [Sentinel ErrInboxInsertFailed] [FStr msgID])
          else fail err
      | inr _ => mret true
      end).
Definition mysqlPurgeInbox := purge MySQL.
Definition mysqlEnsureInboxSchema (q : Querier) (table : string) : Sq unit :=
  quoted MySQL table (λ qt, create_table MySQL qt (RInbox empty_inbox)).
Definition mysqlInboxDialect : InboxDialect :=
  mkInboxDialect mysqlInsertInboxIfAbsent mysqlPurgeInbox mysqlEnsureInboxSchema (λ _, schema_probe) (λ _, unique_probe).

Definition sqliteInsertInboxIfAbsent := insert_if_absent SQLite.
Definition sqlitePurgeInbox := purge SQLite.
Definition sqliteEnsureInboxSchema (q : Querier) (table : string) : Sq unit :=
  quoted SQLite table (λ qt,
    _ ← create_table SQLite qt (RInbox empty_inbox);
    create_index SQLite qt).
Definition sqliteInboxDialect : InboxDialect :=
  mkInboxDialect sqliteInsertInboxIfAbsent sqlitePurgeInbox sqliteEnsureInboxSchema (λ _, schema_probe) (λ _, unique_probe).
End builtin.

(** ** inbox_dedup.go *)

Definition defaultInboxTable : string := "msgin_inbox".
Record inboxConfig : Type := mkInboxConfig { ic_table : string }.
Definition WithInboxTable (table : string) (c : inboxConfig) : inboxConfig := mkInboxConfig table.

Record InboxDeduper : Type := mkInboxDeduper {
  id_table : string;
  id_dialect : InboxDialect
}.

(** [businessDB] is whether the pool is not nil. *)
Definition NewInboxDeduper (businessDB : bool) (dialect : option InboxDialect)
    (opts : list (option (inboxConfig → inboxConfig))) : error + InboxDeduper :=
  if negb businessDB then inl (Sentinel ErrNilAdapter)
  else
    match apply_opts opts (mkInboxConfig defaultInboxTable) with
    | inl i => inl (nilOptionAt "sql.NewInboxDeduper" i)
    | inr cfg =>
        match ValidateIdent (ic_table cfg) with
        | Some err => inl err
        | None =>
            match dialect with
            | None => inl (Sentinel ErrNilDialect)
            | Some d => inr (mkInboxDeduper (ic_table cfg) d)
            end
        end
    end.

Definition MarkProcessed (d : InboxDeduper) (tx : option Tx) (msgID : string) : Sq bool :=
  match tx with
  | None => fail (Sentinel ErrNilTx)
  | Some tx => InsertInboxIfAbsent (id_dialect d) (QTx tx) (id_table d) msgID
  end.

Definition Inbox_EnsureSchema (d : InboxDeduper) : Sq unit :=
  EnsureInboxSchema (id_dialect d) QDB (id_table d).

Definition Inbox_Ready (d : InboxDeduper) : Sq unit :=
  exists_ ← InboxSchemaExists (id_dialect d) QDB (id_table d);
  if negb exists_ then fail (Errorf [Sentinel ErrSchemaNotReady] [FStr (id_table d)])
  else
    unique ← MsgIDUniqueIndexExists (id_dialect d) QDB (id_table d);
    if negb unique then fail (Errorf [Sentinel ErrInboxNoUniqueConstraint] [FStr (id_table d)])
    else mret tt.

Definition Inbox_Purge (d : InboxDeduper) (olderThan : Z) : Sq Z :=
  if olderThan <=? 0 then fail (Sentinel ErrInvalidRetention)
  else PurgeInbox (id_dialect d) QDB (id_table d) olderThan.

(** ** One insertion *)

Definition inbox_dialects `{MySQLColumn} : list (engine * InboxDialect) :=
  [(Postgres, postgresInboxDialect); (MySQL, mysqlInboxDialect); (SQLite, sqliteInboxDialect)].

(** The driver does not report [sql.ErrNoRows] of its own: it is what
    [QueryRowContext] says of an empty result. *)
Definition honest (s : session) : Prop :=
  ∀ i err, tk_fault (s_ticks s i) = Some err → Is err sql_ErrNoRows = false.

Section insertion.
Context `{MySQLColumn}.

Lemma on_inbox_eq {A} e table (f : inbox_table → error + (A * inbox_table)) db J :
  db !! table = Some (RInbox J) →
  on_inbox e (quote (quote_char e) table) f db = (let? r := f J in inr (r.1, <[table := RInbox r.2]> db)).
Proof. intros Hj. unfold on_inbox. by rewrite unquote_quote, Hj. Qed.

(** A statement in the caller's transaction. *)
Lemma inbox_stmt {A} e tx table (f : Z → inbox_table → error + (A * inbox_table)) s J :
  s_db s !! table = Some (RInbox J) →
  exec e (QTx tx) (λ now, on_inbox e (quote (quote_char e) table) (f now)) s =
    match tk_fault (s_ticks s (s_pos s)) with
    | Some err => (inl err, advance s (s_db s))
    | None =>
        match f (default (tk_now (s_ticks s (s_pos s))) (tx_clock e tx)) J with
        | inl err => (inl err, advance s (s_db s))
        | inr (a, J') => (inr a, advance s (<[table := RInbox J']> (s_db s)))
        end
    end.
Proof.
  intros Hj. cbn [exec]. unfold stmt. destruct (tk_fault _); [done|]. rewrite (on_inbox_eq e table _ _ J Hj).
  by destruct (f _ J) as [|[]].
Qed.

Lemma recorded_find e id J :
  recorded e id J = bool_decide (is_Some (List.find (λ r, String.eqb (id_key e r.1) (id_key e id)) (i_rows J))).
Proof.
  unfold recorded. induction (i_rows J) as [|r l IH]; cbn; [done|].
  by destruct (String.eqb _ _).
Qed.

Lemma recorded_record e id id' now J :
  recorded e id' (record_id id now J) = recorded e id' J || String.eqb (id_key e id) (id_key e id').
Proof. unfold recorded, record_id. cbn. rewrite existsb_app. cbn. by rewrite orb_false_r. Qed.

(** What an insertion on a well-provisioned table says: whether the id was
    there, in which case nothing changes; if not it now is. *)
Definition insertion (e : engine) (table id : string) (J : inbox_table) (s : session)
    (r : (error + bool) * session) : Prop :=
  s_ticks r.2 = s_ticks s ∧ (s_pos s ≤ s_pos r.2)%nat ∧
  match r.1 with
  | inr true => recorded e id J = true ∧ s_db r.2 = s_db s
  | inr false => recorded e id J = false ∧ ∃ now, s_db r.2 = <[table := RInbox (record_id id now J)]> (s_db s)
  | inl err => True
  end.

Lemma returning_insertion e table tx id s J :
  ValidateIdent table = None → s_db s !! table = Some (RInbox J) → i_unique J = true → honest s →
  insertion e table id J s (insert_if_absent e (QTx tx) table id s).
Proof.
  intros Hv Hj Hu Hh. unfold insert_if_absent, quoted, QuoteTable. rewrite Hv, Sq_bind_run.
  unfold attempt, insert_returning. rewrite (inbox_stmt e tx table (λ now J,
    if negb (i_unique J) then inl (Opaque "no unique constraint matches ON CONFLICT")
    else if recorded e id J then inl (Sentinel sql_ErrNoRows)
    else inr (id, record_id id now J)) s J Hj).
  unfold insertion. destruct (tk_fault _) as [err|] eqn:Hf.
  { rewrite (Hh _ _ Hf). cbn. split; [done|]. split; [lia|done]. }
  unfold mret, Sq_ret.
  rewrite Hu. cbn [negb]. destruct (recorded e id J) eqn:Hr;
    rewrite ?bool_decide_eq_true_2 by done; cbn; rewrite ?bool_decide_eq_true_2 by done; cbn;
    (split; [done|]); (split; [lia|]); [done|].
  split; [done|]. by eexists.
Qed.

Lemma ignore_insertion table tx id s J :
  ValidateIdent table = None → s_db s !! table = Some (RInbox J) → i_unique J = true → honest s →
  ignore_stored id = Some id →
  insertion MySQL table id J s (mysqlInsertInboxIfAbsent (QTx tx) table id s).
Proof.
  intros Hv Hj Hu Hh Hs. unfold mysqlInsertInboxIfAbsent, quoted, QuoteTable. rewrite Hv, Sq_bind_run.
  unfold insert_ignore. rewrite (inbox_stmt MySQL tx table (λ now J,
    inr (match ignore_stored id with
         | None => (0, J)
         | Some id' => if i_unique J && recorded MySQL id' J then (0, J) else (1, record_id id' now J)
         end)) s J Hj).
  unfold insertion. destruct (tk_fault (s_ticks s (s_pos s))) as [err|]; [by cbn; auto with lia|].
  rewrite Hs, Hu. cbn [andb]. set (now := default _ _).
  destruct (recorded MySQL id J) eqn:Hr.
  - rewrite Sq_bind_run. unfold RowsAffected, stmt. cbn [s_ticks s_pos s_db advance].
    destruct (tk_fault (s_ticks s (S (s_pos s)))) as [err|]; [by cbn; auto with lia|]. cbn [Z.eqb].
    rewrite Sq_bind_run. unfold attempt, select_id.
    set (s2 := mkSession _ _ _). assert (s_db s2 = s_db s) as Hdb by (cbn; by apply insert_id).
    rewrite (inbox_stmt MySQL tx table (λ _ J,
      match List.find (λ r, String.eqb (id_key MySQL r.1) (id_key MySQL id)) (i_rows J) with
      | Some r => inr (r.1, J)
      | None => inl (Sentinel sql_ErrNoRows)
      end) s2 J) by by rewrite Hdb.
    destruct (tk_fault (s_ticks s2 (s_pos s2))) as [err|] eqn:Hf.
    { rewrite (Hh _ _ Hf). cbn. split; [done|]. split; [lia|done]. }
    rewrite recorded_find in Hr. apply bool_decide_eq_true in Hr as [r ->]. cbn [fst].
    unfold mret, Sq_ret. cbn [fst snd]. split; [done|]. split; [cbn; lia|]. split; [done|].
    cbn. rewrite insert_insert_eq. by apply insert_id.
  - rewrite Sq_bind_run. unfold RowsAffected, stmt. cbn [s_ticks s_pos s_db advance].
    destruct (tk_fault (s_ticks s (S (s_pos s)))) as [err|]; [by cbn; auto with lia|]. cbn [Z.eqb Pos.eqb].
    unfold mret, Sq_ret. cbn [fst snd]. split; [done|]. split; [cbn; lia|]. split; [done|]. by eexists.
Qed.

(** mysql stores the ids it is given. *)
Definition storable (e : engine) (id : string) : Prop := e = MySQL → ignore_stored id = Some id.

Lemma insertion_spec e d table tx id s J :
  (e, d) ∈ inbox_dialects → ValidateIdent table = None → s_db s !! table = Some (RInbox J) →
  i_unique J = true → honest s → storable e id →
  insertion e table id J s (InsertInboxIfAbsent d (QTx tx) table id s).
Proof.
  unfold inbox_dialects. rewrite !elem_of_cons, elem_of_nil. intros Hd Hv Hj Hu Hh Hs.
  destruct Hd as [[= -> ->]|[[= -> ->]|[[= -> ->]|[]]]]; cbn [InsertInboxIfAbsent].
  - by apply returning_insertion.
  - by apply ignore_insertion; auto.
  - by apply returning_insertion.
Qed.
End insertion.

(** ** Exactly once

    The handler of [MarkProcessed]'s documentation: record the id, apply the
    business effect unless it was there, commit.  The effect is any computation
    in the transaction that leaves the inbox alone; [count] is how often it has
    been applied, as the committed tables tell. *)

Section once.
Context `{MySQLColumn} (dd : InboxDeduper) (id : string).
Context (effect : Sq unit) (count : database → nat).

Definition handle_once (now : Z) : txfn bool :=
  already ← MarkProcessed dd (Some (mkTx 0 now)) id;
  if already : bool then mret (true, None) else (_ ← effect; mret (false, None)).
Definition deliver : Sq bool := r ← in_tx 1 handle_once; mret r.1.

(** The message is delivered [n] times; each time returns or fails. *)
Fixpoint deliveries (n : nat) (s : session) : list (error + bool) * session :=
  match n with
  | O => ([], s)
  | S n =>
      let '(r, s) := deliver s in
      let '(rs, s) := deliveries n s in (r :: rs, s)
  end.

Definition counts_effect (table : string) : Prop :=
  steady effect ∧
  (∀ s, match effect s with
        | (inr _, s') => count (s_db s') = S (count (s_db s)) ∧ s_db s' !! table = s_db s !! table
        | (inl _, _) => True
        end) ∧
  (∀ db J, count (<[table := RInbox J]> db) = count db).

(** Recorded and applied once, or neither, [c] times having been applied
    before. *)
Definition applied (e : engine) (table : string) (c : nat) (b : bool) (db : database) : Prop :=
  ∃ J, db !! table = Some (RInbox J) ∧ i_unique J = true ∧ recorded e id J = b ∧
    count db = if b then S c else c.

Lemma deliver_applied e table c b s :
  (e, id_dialect dd) ∈ inbox_dialects → id_table dd = table → ValidateIdent table = None →
  honest s → storable e id → counts_effect table → applied e table c b (s_db s) →
  s_ticks (deliver s).2 = s_ticks s ∧
  ∃ b', applied e table c b' (s_db (deliver s).2) ∧ (b = true → b' = true) ∧
    (∀ x, (deliver s).1 = inr x → b' = true).
Proof.
  intros Hd <- Hv Hh Hs (Hst & Heff & Hcnt) (J & Hj & Hu & Hr & Hc).
  unfold deliver. rewrite Sq_bind_run. unfold in_tx, stmt.
  assert (applied e (id_table dd) c b (s_db s)) as Hsame by by exists J.
  destruct (tk_fault (s_ticks s (s_pos s))) as [err|]; [cbn; split; [done|]; exists b; naive_solver|].
  cbn [default]. set (now := tk_now _). set (s1 := mkSession _ _ _).
  unfold handle_once, MarkProcessed. rewrite Sq_bind_run.
  pose proof (insertion_spec e (id_dialect dd) (id_table dd) (mkTx 0 now) id s1 J Hd Hv Hj Hu Hh Hs) as (Ht & _ & Hi).
  destruct (InsertInboxIfAbsent _ _ _ _ s1) as [[err|[]] s2]; cbn [fst snd] in *.
  - cbn. split; [done|]. exists b. naive_solver.
  - destruct Hi as [Hi Hdb]. assert (b = true) as -> by congruence. unfold mret, Sq_ret.
    destruct (tk_fault (s_ticks s2 (s_pos s2))) as [err|]; [|cbn; rewrite Hdb; split; [done|]; exists true; naive_solver].
    destruct (tk_applied _); cbn; rewrite ?Hdb; (split; [done|]); exists true; naive_solver.
  - destruct Hi as (Hi & n & Hdb). assert (b = false) as -> by congruence. rewrite Sq_bind_run.
    pose proof (Heff s2) as He. destruct (Hst s2) as [Ht3 _]. destruct (effect s2) as [[err|[]] s3]; cbn [fst snd] in *.
    + cbn. split; [by rewrite Ht3|]. exists false. naive_solver.
    + assert (applied e (id_table dd) c true (s_db s3)) as Hdone.
      { destruct He as [He1 He2]. exists (record_id id n J). rewrite He2, Hdb, lookup_insert_eq.
        split; [done|]. split; [done|]. split; [by rewrite recorded_record, String.eqb_refl, orb_true_r|].
        rewrite He1, Hdb, Hcnt. change (s_db s1) with (s_db s). by rewrite Hc. }
      unfold mret, Sq_ret.
      destruct (tk_fault (s_ticks s3 (s_pos s3))) as [err|]; [|cbn; split; [by rewrite Ht3|]; exists true; naive_solver].
      destruct (tk_applied _); cbn; (split; [by rewrite Ht3|]); [exists true|exists false]; naive_solver.
Qed.

Lemma deliveries_applied e table c n b s :
  (e, id_dialect dd) ∈ inbox_dialects → id_table dd = table → ValidateIdent table = None →
  honest s → storable e id → counts_effect table → applied e table c b (s_db s) →
  ∃ b', applied e table c b' (s_db (deliveries n s).2) ∧ (b = true → b' = true) ∧
    (∀ x, inr x ∈ (deliveries n s).1 → b' = true).
Proof.
  intros Hd Htb Hv Hh Hs He. revert b s Hh. induction n as [|n IH]; intros b s Hh Ha.
  { exists b. split; [done|]. split; [done|]. by intros x ?%elem_of_nil. }
  cbn. destruct (deliver_applied e table c b s Hd Htb Hv Hh Hs He Ha) as (Ht & b1 & Ha1 & Hb1 & Hx1).
  destruct (deliver s) as [r s1]. cbn [fst snd] in *.
  assert (honest s1) as Hh1 by (intros i err; rewrite Ht; apply Hh).
  destruct (IH b1 s1 Hh1 Ha1) as (b2 & Ha2 & Hb2 & Hx2). destruct (deliveries n s1) as [rs s2]. cbn [fst snd] in *.
  exists b2. split; [done|]. split; [auto|]. intros x [<-|?]%elem_of_cons; [eauto|by apply (Hx2 x)].
Qed.
End once.

(** C17. At least once becomes exactly once: however often a message is
    delivered, whatever fails, is rolled back, or commits with its answer lost,
    the business effect of the handler that records the message's id in its
    transaction is applied at most once, and exactly once when any delivery
    has reported success. *)
Theorem inbox_exactly_once `{MySQLColumn} e dd id effect count n s J :
  (e, id_dialect dd) ∈ inbox_dialects → ValidateIdent (id_table dd) = None →
  s_db s !! id_table dd = Some (RInbox J) → i_unique J = true → recorded e id J = false →
  honest s → storable e id → counts_effect effect count (id_table dd) →
  let '(rs, s') := deliveries dd id effect n s in
  (count (s_db s') ≤ S (count (s_db s)))%nat ∧
  ((∃ x, inr x ∈ rs) → count (s_db s') = S (count (s_db s))).
Proof.
  intros Hd Hv Hj Hu Hr Hh Hs He.
  destruct (deliveries_applied dd id effect count e (id_table dd) (count (s_db s)) n false s Hd eq_refl Hv Hh Hs He)
    as (b & (J' & _ & _ & _ & Hc) & _ & Hx); [by exists J|].
  destruct (deliveries dd id effect n s) as [rs s']. cbn in *. rewrite Hc. split; [destruct b; lia|].
  intros [x Hin]. by rewrite (Hx x Hin).
Qed.

Definition plain_column : MySQLColumn := {| collation_key := λ id, id; ignore_stored := Some |}.
#[local] Existing Instance plain_column.

(** A business table, and an effect that appends to it. *)
Definition book (s : session) : (error + unit) * session :=
  stmt None (λ now db,
    match db !! "book" with
    | Some (RInbox J) => inr (tt, <["book" := RInbox (record_id "x" now J)]> db)
    | _ => inl undefined_table
    end) s.
Definition booked (db : database) : nat :=
  match db !! "book" with Some (RInbox J) => length (i_rows J) | _ => 0 end.

Lemma book_counts : counts_effect book booked "msgin_inbox".
Proof.
  split; [apply steady_stmt|]. split.
  - intros s. unfold book, stmt. destruct (tk_fault _); [done|].
    destruct (s_db s !! "book") as [[| | |J]|] eqn:E; try done. cbn. unfold booked.
    rewrite lookup_insert_eq, E. cbn. rewrite length_app. cbn. split; [lia|]. by rewrite lookup_insert_ne.
  - intros db J. unfold booked. by rewrite lookup_insert_ne.
Qed.

(** The first delivery's COMMIT takes effect and its answer is lost. *)
Definition lost_answer : session :=
  mkSession {["msgin_inbox" := RInbox (mkInbox true []); "book" := RInbox (mkInbox false [])]}
    (λ i, mkTick (if (i =? 3)%nat then Some (Opaque "connection reset") else None) (Z.of_nat i) true) 0.

Lemma inbox_exactly_once_witness :
  (deliveries (mkInboxDeduper "msgin_inbox" postgresInboxDialect) "m1" book 3 lost_answer).1 =
    [inl (Opaque "connection reset"); inr true; inr true] ∧
  booked (s_db (deliveries (mkInboxDeduper "msgin_inbox" postgresInboxDialect) "m1" book 3 lost_answer).2) = 1%nat.
Proof.
  split; [vm_compute; reflexivity|].
  pose proof (inbox_exactly_once Postgres (mkInboxDeduper "msgin_inbox" postgresInboxDialect) "m1" book booked 3
    lost_answer (mkInbox true []) (ltac:(by left)) eq_refl eq_refl eq_refl eq_refl) as Ho.
  assert ((deliveries (mkInboxDeduper "msgin_inbox" postgresInboxDialect) "m1" book 3 lost_answer).1 =
    [inl (Opaque "connection reset"); inr true; inr true]) as Hr by (vm_compute; reflexivity).
  destruct (deliveries _ _ _ _ lost_answer) as [rs s']. cbn [fst snd] in *. subst rs.
  apply Ho; [|done|exact book_counts|exists true; right; by left].
  intros i err. cbn. destruct (i =? 3)%nat; [|done]. by intros [= <-].
Defined.

(** ** The deduper's methods *)

Lemma returning_run `{MySQLColumn} e tx table id s J :
  ValidateIdent table = None → s_db s !! table = Some (RInbox J) → i_unique J = true →
  (∀ i, tk_fault (s_ticks s i) = None) →
  ∃ now, insert_if_absent e (QTx tx) table id s =
    if recorded e id J then (inr true, advance s (s_db s))
    else (inr false, advance s (<[table := RInbox (record_id id now J)]> (s_db s))).
Proof.
  intros Hv Hj Hu Hf. exists (default (tk_now (s_ticks s (s_pos s))) (tx_clock e tx)).
  unfold insert_if_absent, quoted, QuoteTable. rewrite Hv, Sq_bind_run. unfold attempt, insert_returning.
  rewrite (inbox_stmt e tx table (λ now J,
    if negb (i_unique J) then inl (Opaque "no unique constraint matches ON CONFLICT")
    else if recorded e id J then inl (Sentinel sql_ErrNoRows)
    else inr (id, record_id id now J)) s J Hj). rewrite Hf, Hu. cbn [negb]. by destruct (recorded e id J).
Qed.

Lemma ignore_run `{MySQLColumn} tx table id s J :
  ValidateIdent table = None → s_db s !! table = Some (RInbox J) → i_unique J = true →
  (∀ i, tk_fault (s_ticks s i) = None) →
  ∃ now s', mysqlInsertInboxIfAbsent (QTx tx) table id s =
      (match ignore_stored id with
       | Some id' => if recorded MySQL id' J then if recorded MySQL id J then inr true
                       else inl (Errorf [Sentinel ErrInboxInsertFailed] [FStr id]) else inr false
       | None => if recorded MySQL id J then inr true
                 else inl (Errorf [Sentinel ErrInboxInsertFailed] [FStr id])
       end, s') ∧
    s_db s' = match ignore_stored id with
              | Some id' => if recorded MySQL id' J then s_db s else <[table := RInbox (record_id id' now J)]> (s_db s)
              | None => s_db s
              end.
Proof.
  intros Hv Hj Hu Hf. exists (tk_now (s_ticks s (s_pos s))).
  unfold mysqlInsertInboxIfAbsent, quoted, QuoteTable. rewrite Hv, Sq_bind_run. unfold insert_ignore.
  rewrite (inbox_stmt MySQL tx table (λ now J,
    inr (match ignore_stored id with
         | None => (0, J)
         | Some id' => if i_unique J && recorded MySQL id' J then (0, J) else (1, record_id id' now J)
         end)) s J Hj). rewrite Hf, Hu. cbn [andb tx_clock default].
  assert (∀ s2, s_ticks s2 = s_ticks s → s_db s2 = s_db s →
    (found ← attempt (select_id MySQL (QTx tx) (quote (quote_char MySQL) table) id);
     match found with
     | inl err => if Is err sql_ErrNoRows then fail (Errorf [Sentinel ErrInboxInsertFailed] [FStr id]) else fail err
     | inr _ => mret true
     end) s2 = (if recorded MySQL id J then inr true
                else inl (Errorf [Sentinel ErrInboxInsertFailed] [FStr id]), advance s2 (s_db s))) as Hsel.
  { intros s2 Ht Hdb. rewrite Sq_bind_run. unfold attempt, select_id.
    rewrite (inbox_stmt MySQL tx table (λ _ J,
      match List.find (λ r, String.eqb (id_key MySQL r.1) (id_key MySQL id)) (i_rows J) with
      | Some r => inr (r.1, J)
      | None => inl (Sentinel sql_ErrNoRows)
      end) s2 J) by by rewrite Hdb.
    rewrite Ht, Hf, recorded_find, Hdb. destruct (List.find _ (i_rows J)) as [r|].
    - rewrite bool_decide_eq_true_2 by done. by rewrite insert_id.
    - by rewrite bool_decide_eq_false_2 by by intros []. }
  assert (∀ n db, RowsAffected n (advance s db) = (inr n, advance (advance s db) db)) as Hrows.
  { intros n db. unfold RowsAffected, stmt. cbn. by rewrite Hf. }
  destruct (ignore_stored id) as [id'|]; [destruct (recorded MySQL id' J)|];
    rewrite Sq_bind_run, Hrows; cbn [Z.eqb Pos.eqb];
    try (rewrite Hsel by (cbn; rewrite ?insert_id by done; done)); eexists; (split; [reflexivity|]); done.
Qed.

(** MarkProcessed answers exactly: a nil transaction is refused before any
    statement; on a provisioned table the id is reported processed just when a
    recorded one has its key, and is recorded otherwise; an insertion that mysql
    silently ignored is an error that leaves the table as it was. *)
Theorem mark_processed_exact `{MySQLColumn} e d table id tx s J :
  (e, d) ∈ inbox_dialects → ValidateIdent table = None →
  s_db s !! table = Some (RInbox J) → i_unique J = true →
  (∀ i, tk_fault (s_ticks s i) = None) →
  MarkProcessed (mkInboxDeduper table d) None id s = (inl (Sentinel ErrNilTx), s) ∧
  let '(r, s') := MarkProcessed (mkInboxDeduper table d) (Some tx) id s in
  (storable e id → r = inr (recorded e id J) ∧
     if recorded e id J then s_db s' = s_db s
     else ∃ now, s_db s' = <[table := RInbox (record_id id now J)]> (s_db s)) ∧
  (e = MySQL → ignore_stored id = None → recorded e id J = false →
     (∃ err, r = inl err ∧ Is err ErrInboxInsertFailed = true) ∧ s_db s' = s_db s).
Proof.
  intros Hd Hv Hj Hu Hf. split; [done|]. unfold MarkProcessed. cbn [id_dialect id_table].
  assert (∀ e, let '(r, s') := insert_if_absent e (QTx tx) table id s in
    r = inr (recorded e id J) ∧
    if recorded e id J then s_db s' = s_db s
    else ∃ now, s_db s' = <[table := RInbox (record_id id now J)]> (s_db s)) as Hret.
  { intros e'. destruct (returning_run e' tx table id s J Hv Hj Hu Hf) as [now ->].
    destruct (recorded e' id J); cbn; (split; [done|]); [done|by exists now]. }
  unfold inbox_dialects in Hd. rewrite !elem_of_cons, elem_of_nil in Hd.
  destruct Hd as [[= -> ->]|[[= -> ->]|[[= -> ->]|[]]]]; cbn [InsertInboxIfAbsent].
  - specialize (Hret Postgres). change (InsertInboxIfAbsent postgresInboxDialect) with (insert_if_absent Postgres).
    destruct (insert_if_absent Postgres (QTx tx) table id s). split; [by intros _|discriminate].
  - destruct (ignore_run tx table id s J Hv Hj Hu Hf) as (now & s' & Hrun & Hdb).
    cbn [InsertInboxIfAbsent mysqlInboxDialect]. rewrite Hrun. split.
    + intros Hs. rewrite (Hs eq_refl) in *. destruct (recorded MySQL id J); (split; [done|]); [done|by exists now].
    + intros _ Hn Hr. rewrite Hn, Hr in *. split; [|done]. eexists. by split.
  - specialize (Hret SQLite). change (InsertInboxIfAbsent sqliteInboxDialect) with (insert_if_absent SQLite).
    destruct (insert_if_absent SQLite (QTx tx) table id s). split; [by intros _|discriminate].
Qed.

(** A collation that ignores the case of ASCII letters, as mysql's defaults do,
    and a column that takes what fits it. *)
Fixpoint fold_case (id : string) : string :=
  match id with
  | EmptyString => EmptyString
  | String c id =>
      let n := nat_of_ascii c in
      String (if (65 <=? n)%nat && (n <=? 90)%nat then ascii_of_nat (n + 32) else c) (fold_case id)
  end.
Definition ci_column : MySQLColumn :=
  {| collation_key := fold_case; ignore_stored := λ id, if bool_decide (id = "") then None else Some id |}.

Definition inbox_with (J : inbox_table) : session :=
  mkSession {["inbox" := RInbox J]} (λ i, mkTick None (Z.of_nat i) false) 0.

Lemma mark_processed_exact_witness :
  let s := inbox_with (mkInbox true [("m1", 0)]) in
  (MarkProcessed (mkInboxDeduper "inbox" mysqlInboxDialect) (Some (mkTx 0 0)) "m2" s).1 = inr false ∧
  (MarkProcessed (mkInboxDeduper "inbox" mysqlInboxDialect) None "m2" s).1 = inl (Sentinel ErrNilTx).
Proof.
  intros s.
  pose proof (mark_processed_exact MySQL mysqlInboxDialect "inbox" "m2" (mkTx 0 0) s (mkInbox true [("m1", 0)])
    (ltac:(right; by left)) eq_refl eq_refl eq_refl (λ _, eq_refl)) as [Hnil Hm].
  destruct (MarkProcessed _ (Some _) _ s) as [r s']. destruct Hm as [Hm _]. rewrite Hnil.
  split; [|done]. destruct (Hm (λ _, eq_refl)) as [-> _]. by vm_compute.
Defined.

(** An already processed id need not be a duplicate on mysql: the reference
    schema leaves the column to the server's collation, and where that ignores
    case the id of a new message that differs in case only is reported
    processed, so that the message is acknowledged without its effect.  Postgres
    and sqlite compare bytes. *)
Theorem mysql_inbox_drops_new :
  let s := inbox_with (mkInbox true [("Order-7a", 0)]) in
  (MarkProcessed (mkInboxDeduper "inbox" (@mysqlInboxDialect ci_column)) (Some (mkTx 0 0)) "Order-7A" s).1 = inr true ∧
  (MarkProcessed (mkInboxDeduper "inbox" (@postgresInboxDialect ci_column)) (Some (mkTx 0 0)) "Order-7A" s).1 = inr false ∧
  (MarkProcessed (mkInboxDeduper "inbox" (@sqliteInboxDialect ci_column)) (Some (mkTx 0 0)) "Order-7A" s).1 = inr false.
Proof. vm_compute. auto. Qed.

Lemma length_older (l : list (string * Z)) (c : Z) :
  (length l - length (filter (λ r : string * Z, (c ≤ r.2)%Z) l) =
   length (filter (λ r : string * Z, (r.2 < c)%Z) l))%nat.
Proof.
  induction l as [|r l IH]; [done|]. rewrite !filter_cons.
  pose proof (length_filter (λ r : string * Z, c ≤ r.2) l) as Hle.
  repeat case_decide; cbn [length]; lia.
Qed.

(** Purge refuses a retention that is not positive before any statement, and
    otherwise deletes just the ids recorded longer than the retention ago, by
    the server's clock in microseconds, and returns how many. *)
Theorem inbox_purge_exact `{MySQLColumn} e d table age s J :
  (e, d) ∈ inbox_dialects → ValidateIdent table = None → s_db s !! table = Some (RInbox J) →
  (∀ i, tk_fault (s_ticks s i) = None) →
  (age ≤ 0 → Inbox_Purge (mkInboxDeduper table d) age s = (inl (Sentinel ErrInvalidRetention), s)) ∧
  (0 < age → ∃ now J' s', reads s now ∧
     Inbox_Purge (mkInboxDeduper table d) age s = (inr (Z.of_nat (length (i_rows J) - length (i_rows J'))), s') ∧
     s_db s' = <[table := RInbox J']> (s_db s) ∧ i_unique J' = i_unique J ∧
     ∀ r, r ∈ i_rows J' ↔ r ∈ i_rows J ∧ now - Microseconds age ≤ r.2).
Proof.
  intros Hd Hv Hj Hf. unfold Inbox_Purge. split; intros Hage.
  { by replace (age <=? 0) with true by lia. }
  replace (age <=? 0) with false by lia. cbn [id_dialect id_table].
  assert (PurgeInbox d = purge e) as ->.
  { unfold inbox_dialects in Hd. rewrite !elem_of_cons, elem_of_nil in Hd.
    by destruct Hd as [[= -> ->]|[[= -> ->]|[[= -> ->]|[]]]]. }
  unfold purge, quoted, QuoteTable. rewrite Hv, Sq_bind_run. unfold delete_older. cbn [exec]. unfold auto_stmt.
  set (now := tk_now (s_ticks s (s_pos s))). set (keep := filter (λ r : string * Z, now - Microseconds age ≤ r.2) (i_rows J)).
  rewrite (on_inbox_eq e table _ _ J Hj). cbn [sum_bind fst snd]. rewrite Hf. cbn [RowsAffected stmt].
  unfold RowsAffected, stmt. cbn [s_ticks s_pos s_db advance]. rewrite Hf.
  assert (length (i_rows J) - length keep = length (filter (λ r : string * Z, (r.2 < now - Microseconds age)%Z) (i_rows J)))%nat as Hlen.
  { apply length_older. }
  eexists now, (mkInbox (i_unique J) keep), _. split; [by exists (s_pos s)|]. cbn [i_rows]. rewrite Hlen.
  split; [reflexivity|]. split; [done|]. split; [done|]. intros r. unfold keep. cbn.
  rewrite list_elem_of_filter. naive_solver.
Qed.

Lemma inbox_purge_exact_witness :
  let s := inbox_with (mkInbox true [("old", -5); ("new", 0)]) in
  (∃ s', Inbox_Purge (mkInboxDeduper "inbox" sqliteInboxDialect) 3000 s = (inr 1, s')) ∧
  Inbox_Purge (mkInboxDeduper "inbox" sqliteInboxDialect) 0 s = (inl (Sentinel ErrInvalidRetention), s).
Proof.
  intros s. split; [eexists; vm_compute; reflexivity|].
  apply (inbox_purge_exact SQLite sqliteInboxDialect "inbox" 0 s (mkInbox true [("old", -5); ("new", 0)]));
    [by right; right; left|reflexivity|reflexivity|reflexivity|lia].
Defined.

(** A retention below a microsecond passes the guard and is none to the server:
    the whole inbox goes, and every id is new again. *)
Lemma submicrosecond_retention :
  s_db (Inbox_Purge (mkInboxDeduper "inbox" postgresInboxDialect) 500
          (mkSession {["inbox" := RInbox (mkInbox true [("m1", 0); ("m2", 6)])]}
            (λ i, mkTick None 7 false) 0)).2 !! "inbox" = Some (RInbox (mkInbox true [])).
Proof. vm_compute. reflexivity. Qed.

(** Ready fails for a table that is missing, or whose ids are not unique. *)
Lemma inbox_ready_cases `{MySQLColumn} e d table s :
  (e, d) ∈ inbox_dialects → ValidateIdent table = None → (∀ i, tk_fault (s_ticks s i) = None) →
  let r := (Inbox_Ready (mkInboxDeduper table d) s).1 in
  match s_db s !! table with
  | None => ∃ err, r = inl err ∧ Is err ErrSchemaNotReady = true
  | Some (RInbox J) =>
      if i_unique J then r = inr tt else ∃ err, r = inl err ∧ Is err ErrInboxNoUniqueConstraint = true
  | Some _ => ∃ err, r = inl err ∧ Is err ErrInboxNoUniqueConstraint = true
  end.
Proof.
  intros Hd Hv Hf. unfold Inbox_Ready. cbn [id_dialect id_table].
  assert (InboxSchemaExists d = (λ _, schema_probe) ∧ MsgIDUniqueIndexExists d = (λ _, unique_probe)) as [-> ->].
  { unfold inbox_dialects in Hd. rewrite !elem_of_cons, elem_of_nil in Hd.
    by destruct Hd as [[= -> ->]|[[= -> ->]|[[= -> ->]|[]]]]. }
  unfold schema_probe, unique_probe. rewrite Hv, Sq_bind_run. unfold select_schema, stmt. rewrite Hf.
  destruct (s_db s !! table) as [rel|] eqn:E.
  - rewrite bool_decide_eq_true_2 by done. cbn [negb]. rewrite Sq_bind_run. unfold select_unique, stmt.
    cbn [s_ticks s_pos s_db]. rewrite Hf, E. destruct rel as [| | |J]; try (by eexists).
    destruct (i_unique J); [done|by eexists].
  - rewrite bool_decide_eq_false_2 by by intros []. by eexists.
Qed.
