(* ===== verification/SqlSource.v ===== *)
(** * The SQL source, outbound and queue store

    [adapter/database/sql/options.go], [base.go], [source.go], [outbound.go] and
    [queuestore.go]: the adapters over a [LeaseDialect] that the runtime polls
    and sends on, with the headers framed by [framing.go] ([SqlGroupStore]).

    Log records are not modelled.  A context is what the resolver of a shared
    transaction reads of it; the methods run on the pool otherwise. *)

From Stdlib Require Import Floats.SpecFloat Strings.Ascii.
From S2P Require Import Prelude Message Resilience.
From S2P Require Import SqlEngine SqlGroup SqlGroupStore SqlQueue SqlLock SqlQueueSafety.
Local Open Scope Z_scope.

#[local] Arguments quote : simpl never.
#[local] Arguments quote_char : simpl never.

(** ** errors.go *)

Definition ErrStaleLease : sentinel :=
  OtherSentinel "msgin/sql: stale lease; message was re-claimed by another worker".
Definition ErrInvalidStrategy : sentinel := OtherSentinel "msgin/sql: invalid strategy".
Definition ErrLockStrategyUnsupported : sentinel :=
  OtherSentinel "msgin/sql: lock strategy requires a LeaseDialect that implements LockDialect".
Definition ErrNoSharedTransaction : sentinel :=
  OtherSentinel "msgin/sql: no shared transaction in context".
Definition ErrNilResolver : sentinel := OtherSentinel "msgin/sql: nil TransactionResolver".

(** ** options.go *)

Definition defaultLeaseTTL : Z := 5 * minute.

Definition Strategy : Type := Z.
Definition StrategyLeaseClaim : Strategy := 0.
Definition StrategyLockForUpdate : Strategy := 1.

(** The value of a dialect argument: what it implements, and its type's name. *)
Record dialect : Type := mkDialect {
  dl_lease : LeaseDialect;
  dl_lock : option LockDialect;
  dl_type : string
}.

(** [math.Pow]; what [int64(f)] makes of a float that fits no int64 is
    [float_to_int] of the class [Json]. *)
Class Libm : Type := { math_Pow : spec_float → spec_float → spec_float }.

Section adapters.
Context {Ctx : Type}.

(** A nil Querier is [None]. *)
Definition TransactionResolver : Type := Ctx → option Querier * option error.

Record config : Type := mkConfig {
  c_strategy : Strategy;
  c_leaseTTL : Z;
  c_leaseTTLSet : bool;
  c_lockedBy : string;
  c_txResolver : option TransactionResolver;
  c_txResolverSet : bool;
  c_txStrict : bool
}.
Definition default_config : config := mkConfig StrategyLeaseClaim 0 false "" None false false.

Definition WithStrategy (st : Strategy) (c : config) : config :=
  mkConfig st (c_leaseTTL c) (c_leaseTTLSet c) (c_lockedBy c) (c_txResolver c) (c_txResolverSet c) (c_txStrict c).
Definition WithLeaseTTL (d : Z) (c : config) : config :=
  mkConfig (c_strategy c) d true (c_lockedBy c) (c_txResolver c) (c_txResolverSet c) (c_txStrict c).
Definition WithLockedBy (id : string) (c : config) : config :=
  mkConfig (c_strategy c) (c_leaseTTL c) (c_leaseTTLSet c) id (c_txResolver c) (c_txResolverSet c) (c_txStrict c).
Definition WithSharedTransaction (r : option TransactionResolver) (c : config) : config :=
  mkConfig (c_strategy c) (c_leaseTTL c) (c_leaseTTLSet c) (c_lockedBy c) r true true.
Definition WithOpportunisticSharedTransaction (r : option TransactionResolver) (c : config) : config :=
  mkConfig (c_strategy c) (c_leaseTTL c) (c_leaseTTLSet c) (c_lockedBy c) r true false.

(** ** base.go *)

Record adapterBase : Type := mkAdapterBase { ab_table : string; ab_dialect : dialect }.

(** [db] is whether the pool is not nil, a nil dialect is [None]. *)
Definition newAdapterBase (db : bool) (table : string) (d : option dialect) : error + adapterBase :=
  if negb db then inl (Sentinel ErrNilAdapter)
  else
    match ValidateIdent table with
    | Some err => inl err
    | None =>
        match d with
        | None => inl (Sentinel ErrNilDialect)
        | Some d => inr (mkAdapterBase table d)
        end
    end.

Definition base_lease (b : adapterBase) : LeaseDialect := dl_lease (ab_dialect b).
Definition base_EnsureSchema (b : adapterBase) : Sq unit :=
  SqlQueue.EnsureSchema (base_lease b) QDB (ab_table b).
Definition base_schemaNotReady (b : adapterBase) : error :=
  Errorf [Sentinel ErrSchemaNotReady] [FStr (ab_table b)].
Definition base_Ready (b : adapterBase) : Sq unit :=
  exists_ ← SchemaExists_ (base_lease b) QDB (ab_table b);
  if negb exists_ then fail (base_schemaNotReady b) else mret tt.
(** [return b.classifyQueryErr(ctx, err)] *)
Definition base_classifyQueryErr {A} (b : adapterBase) (err : error) : Sq A :=
  r ← attempt (SchemaExists_ (base_lease b) QDB (ab_table b));
  match r with
  | inr false => fail (base_schemaNotReady b)
  | _ => fail err
  end.

(** ** source.go *)

Definition corruptRowInitialBackoff : Z := 30 * second.
Definition corruptRowMaxBackoff : Z := 1 * hour.

Record Source : Type := mkSource {
  src_base : adapterBase;
  src_strategy : Strategy;
  src_leaseTTL : Z;
  src_lockedBy : string;
  src_lockDialect : option LockDialect
}.

(** [random] is what [rand.Read] wrote. *)
Definition NewPollingSource (random : bytes) (db : bool) (table : string) (d : option dialect)
    (opts : list (option (config → config))) : error + Source :=
  match apply_opts opts default_config with
  | inl i => inl (nilOptionAt "sql.NewPollingSource" i)
  | inr cfg =>
      let? base := newAdapterBase db table d in
      if negb (c_strategy cfg =? StrategyLeaseClaim) && negb (c_strategy cfg =? StrategyLockForUpdate)
      then inl (Errorf [Sentinel ErrInvalidStrategy] [FInt (c_strategy cfg)])
      else
        let? lockDialect :=
          (if c_strategy cfg =? StrategyLockForUpdate then
             match dl_lock (ab_dialect base) with
             | None => inl (Errorf [Sentinel ErrLockStrategyUnsupported] [FStr (dl_type (ab_dialect base))])
             | Some ld => inr (Some ld)
             end
           else inr None) in
        let? leaseTTL :=
          (if c_leaseTTLSet cfg then
             if c_leaseTTL cfg <=? 0 then inl (Errorf [Sentinel ErrInvalidLeaseTTL] [FInt (c_leaseTTL cfg)])
             else inr (c_leaseTTL cfg)
           else inr defaultLeaseTTL) in
        let lockedBy := if bool_decide (c_lockedBy cfg = "") then randomLockedBy random
                        else c_lockedBy cfg in
        inr (mkSource base (c_strategy cfg) leaseTTL lockedBy lockDialect)
  end.

(** A delivery with its settlement closures; [Nack requeue delay]. *)
Record Delivery : Type := mkDelivery {
  Msg : msg;
  d_Ack : Sq unit;
  d_Nack : bool → Z → Sq unit
}.

Section source.
Context `{Json, Libm}.
Variable src : Source.
Abbreviation table := (ab_table (src_base src)).
Abbreviation lease := (base_lease (src_base src)).

(** A literal leaves the randomisation factor zero, and no number is drawn. *)
Definition corrupt_penalty (deliveryCount : Z) : Z :=
  Backoff.Delay math_Pow (S754_zero false) float_to_int
    (Backoff.mkBackoff corruptRowInitialBackoff corruptRowMaxBackoff (Backoff.float64 2) (S754_zero false))
    (wrap64 (deliveryCount - 1)).

Definition source_ackClosure (id epoch : Z) : Sq unit :=
  applied ← Ack lease QDB table id (src_lockedBy src) epoch;
  if negb applied then fail (Sentinel ErrStaleLease) else mret tt.
Definition source_nackClosure (id epoch : Z) (requeue : bool) (delay : Z) : Sq unit :=
  let d := if negb requeue then 0 else delay in
  applied ← Nack lease QDB table id (src_lockedBy src) epoch d;
  if negb applied then fail (Sentinel ErrStaleLease) else mret tt.

(** [NewMessage(payload, headers).WithHeader(HeaderDeliveryCount, n)] *)
Definition envelope (payload : bytes) (headers : Headers) (n : Z) : msg :=
  WithHeader (NewMessage (ABytes payload) headers) HeaderDeliveryCount (AInt n).

(** The loop of [pollLease] over the rows it has claimed. *)
Fixpoint deliver_rows (rows : list ClaimedRow) : Sq (list Delivery) :=
  match rows with
  | [] => mret []
  | row :: rows =>
      match DecodeHeaders (cr_Headers row) with
      | inl _ =>
          _ ← attempt (Nack lease QDB table (cr_ID row) (src_lockedBy src) (LeaseEpoch row)
                         (corrupt_penalty (DeliveryCount row)));
          deliver_rows rows
      | inr headers =>
          let d := mkDelivery (envelope (cr_Payload row) headers (DeliveryCount row))
                     (source_ackClosure (cr_ID row) (LeaseEpoch row))
                     (source_nackClosure (cr_ID row) (LeaseEpoch row)) in
          out ← deliver_rows rows;
          mret (d :: out)
      end
  end.

Definition pollLease (max : Z) : Sq (list Delivery) :=
  r ← attempt (Claim lease QDB table max (src_lockedBy src) (src_leaseTTL src));
  match r with
  | inl err => base_classifyQueryErr (src_base src) err
  | inr rows => deliver_rows rows
  end.

Definition ackLockClosure (ld : LockDialect) (lr : LockedRow) : Sq unit := AckLock ld lr table.
Definition nackLockClosure (ld : LockDialect) (lr : LockedRow) (requeue : bool) (delay : Z) : Sq unit :=
  let d := if negb requeue then 0 else delay in
  NackLock ld lr table d.

Definition pollLock (ld : LockDialect) (max : Z) : Sq (list Delivery) :=
  r ← attempt (ClaimLock ld QDB table (src_lockedBy src));
  match r with
  | inl err => base_classifyQueryErr (src_base src) err
  | inr None => mret []
  | inr (Some lr) =>
      match DecodeHeaders (lr_Headers lr) with
      | inl _ =>
          _ ← attempt (NackLock ld lr table (corrupt_penalty (lr_DeliveryCount lr)));
          mret []
      | inr headers =>
          mret [mkDelivery (envelope (lr_Payload lr) headers (lr_DeliveryCount lr))
                  (ackLockClosure ld lr) (nackLockClosure ld lr)]
      end
  end.

(** A call on the nil interface would panic; no constructor leaves it nil. *)
Definition Poll (max : Z) : Sq (list Delivery) :=
  if src_strategy src =? StrategyLockForUpdate then
    match src_lockDialect src with
    | Some ld => pollLock ld max
    | None => fail (Opaque "invalid memory address or nil pointer dereference")
    end
  else pollLease max.

Definition source_NativeRedelivery : bool := true.
Definition source_NativeDeadLetter : bool := false.
End source.

(** ** outbound.go *)

Record Outbound : Type := mkOutbound {
  out_base : adapterBase;
  out_txResolver : option TransactionResolver;
  out_txStrict : bool
}.

Definition NewOutboundAdapter (db : bool) (table : string) (d : option dialect)
    (opts : list (option (config → config))) : error + Outbound :=
  match apply_opts opts default_config with
  | inl i => inl (nilOptionAt "sql.NewOutboundAdapter" i)
  | inr cfg =>
      if c_txResolverSet cfg && bool_decide (c_txResolver cfg = None)
      then inl (Sentinel ErrNilResolver)
      else
        let? base := newAdapterBase db table d in
        inr (mkOutbound base (c_txResolver cfg) (c_txStrict cfg))
  end.

Definition resolveQuerier (o : Outbound) (ctx : Ctx) : error + Querier :=
  match out_txResolver o with
  | None => inr QDB
  | Some txResolver =>
      match txResolver ctx with
      | (_, Some err) => inl (Errorf [err] [FStr "msgin/sql: resolving shared transaction"])
      | (Some q, None) => inr q
      | (None, None) => if out_txStrict o then inl (Sentinel ErrNoSharedTransaction) else inr QDB
      end
  end.

Section outbound.
Context `{Json}.

Definition SendAfter (o : Outbound) (ctx : Ctx) (m : msg) (delay : Z) : Sq unit :=
  let msgID := ID m in
  match EncodeHeaders (msg_headers m) with
  | inl err => fail err
  | inr headers =>
      match (type_assert (msg_payload m) : option bytes) with
      | None => fail (Errorf [Sentinel ErrInvalidPayload] [])
      | Some payload =>
          match resolveQuerier o ctx with
          | inl err => fail err
          | inr q =>
              r ← attempt (Insert_ (base_lease (out_base o)) q (ab_table (out_base o)) msgID headers payload delay);
              match r with
              | inl err => base_classifyQueryErr (out_base o) err
              | inr _ => mret tt
              end
          end
      end
  end.
Definition Send (o : Outbound) (ctx : Ctx) (m : msg) : Sq unit := SendAfter o ctx m 0.
End outbound.

(** ** queuestore.go *)

Record QueueStore : Type := mkQueueStore { qs_out : Outbound; qs_src : Source }.

Fixpoint nil_option (i : nat) (opts : list (option (config → config))) : option nat :=
  match opts with
  | [] => None
  | None :: _ => Some i
  | Some _ :: opts => nil_option (S i) opts
  end.

Definition NewQueueStore (random : bytes) (db : bool) (table : string) (d : option dialect)
    (opts : list (option (config → config))) : error + QueueStore :=
  match nil_option 0 opts with
  | Some i => inl (nilOptionAt "sql.NewQueueStore" i)
  | None =>
      let? out := NewOutboundAdapter db table d opts in
      let? src := NewPollingSource random db table d opts in
      inr (mkQueueStore out src)
  end.

Definition store_Enqueue `{Json} (q : QueueStore) (ctx : Ctx) (m : msg) : Sq unit := Send (qs_out q) ctx m.
Definition store_Claim `{Json, Libm} (q : QueueStore) (max : Z) : Sq (list Delivery) := Poll (qs_src q) max.
Definition store_EmitsLiveValue (q : QueueStore) : bool := false.
Definition store_NativeRedelivery (q : QueueStore) : bool := source_NativeRedelivery.
Definition store_NativeDeadLetter (q : QueueStore) : bool := source_NativeDeadLetter.
Definition store_Ready (q : QueueStore) : Sq unit := base_Ready (src_base (qs_src q)).
Definition store_EnsureSchema (q : QueueStore) : Sq unit := base_EnsureSchema (src_base (qs_src q)).
End adapters.
#[global] Arguments config : clear implicits.
#[global] Arguments Outbound : clear implicits.
#[global] Arguments QueueStore : clear implicits.

(** ** What the constructors accept *)

Lemma nil_option_none {Ctx} i (opts : list (option (config Ctx → config Ctx))) :
  match nil_option i opts with
  | None => None ∉ opts
  | Some k => (i ≤ k)%nat ∧ opts !! (k - i)%nat = Some None ∧ apply_opts_from i opts default_config = inl k
  end.
Proof.
  enough (∀ c, match nil_option i opts with
  | None => None ∉ opts
  | Some k => (i ≤ k)%nat ∧ opts !! (k - i)%nat = Some None ∧ apply_opts_from i opts c = inl k
  end) as Hc by apply Hc.
  revert i. induction opts as [|[f|] opts IH]; intros i c; cbn.
  - by intros ?%elem_of_nil.
  - specialize (IH (S i) (f c)). destruct (nil_option (S i) opts) as [k|].
    + destruct IH as (Hk & Ho & Ha). split; [lia|]. split; [|done].
      by replace (k - i)%nat with (S (k - S i)) by lia.
    + rewrite elem_of_cons. by intros [?|?].
  - by rewrite Nat.sub_diag.
Qed.

Definition base_over (table : string) (d : LeaseDialect) (ld : option LockDialect) (b : adapterBase) : Prop :=
  ValidateIdent table = None ∧ ab_table b = table ∧ base_lease b = d ∧ dl_lock (ab_dialect b) = ld.

Lemma newAdapterBase_ok db table dl b :
  newAdapterBase db table dl = inr b →
  db = true ∧ ∃ d, dl = Some d ∧ base_over table (dl_lease d) (dl_lock d) b.
Proof.
  unfold newAdapterBase. destruct db; [|done]. cbn [negb]. destruct (ValidateIdent table) eqn:Hv; [done|].
  destruct dl as [d|]; [|done]. intros [= <-]. split; [done|]. by exists d.
Qed.

(** A source that [NewPollingSource] built over the dialect [d]. *)
Definition source_over (table : string) (d : LeaseDialect) (ld : option LockDialect) (st : Strategy)
    (src : Source) : Prop :=
  base_over table d ld (src_base src) ∧ src_strategy src = st ∧ 0 < src_leaseTTL src ∧
  src_lockDialect src = (if st =? StrategyLockForUpdate then ld else None) ∧
  (st = StrategyLeaseClaim ∨ st = StrategyLockForUpdate ∧ is_Some ld).

Lemma NewPollingSource_ok {Ctx} random db table dl (opts : list (option (config Ctx → config Ctx))) src :
  NewPollingSource random db table dl opts = inr src →
  db = true ∧ None ∉ opts ∧ ∃ d, dl = Some d ∧ source_over table (dl_lease d) (dl_lock d) (src_strategy src) src.
Proof.
  unfold NewPollingSource. pose proof (apply_opts_cases opts default_config) as Ho.
  destruct (apply_opts opts default_config) as [i|cfg]; [done|].
  intros (b & (-> & d & -> & Hb)%newAdapterBase_ok & Hs)%sum_bind_inr. split; [done|]. split; [done|].
  exists d. split; [done|]. revert Hs.
  destruct (c_strategy cfg =? StrategyLeaseClaim) eqn:H0, (c_strategy cfg =? StrategyLockForUpdate) eqn:H1;
    cbn [negb andb]; try done; [unfold StrategyLeaseClaim, StrategyLockForUpdate in *; lia| |];
    intros (l & Hl & (ttl & Ht & [= <-])%sum_bind_inr)%sum_bind_inr; unfold source_over; cbn;
    (split; [done|]); (split; [done|]); split.
  all: try (revert Ht; destruct (c_leaseTTLSet cfg); [|by intros [= <-]]; destruct (_ <=? 0) eqn:E; [done|]; intros [= <-]; lia).
  all: rewrite H1; destruct Hb as (_ & _ & _ & Hb').
  - split; [congruence|left; lia].
  - rewrite Hb' in Hl. destruct (dl_lock d) as [ld|]; [|done]. injection Hl as <-.
    split; [done|right; split; [lia|by eexists]].
Qed.

Lemma NewOutboundAdapter_ok {Ctx} db table dl (opts : list (option (config Ctx → config Ctx))) out :
  NewOutboundAdapter db table dl opts = inr out →
  db = true ∧ None ∉ opts ∧ ∃ d, dl = Some d ∧ base_over table (dl_lease d) (dl_lock d) (out_base out).
Proof.
  unfold NewOutboundAdapter. pose proof (apply_opts_cases opts default_config) as Ho.
  destruct (apply_opts opts default_config) as [i|cfg]; [done|]. destruct (c_txResolverSet cfg && _); [done|].
  intros (b & (-> & d & -> & Hb)%newAdapterBase_ok & [= <-])%sum_bind_inr. split; [done|]. split; [done|]. by exists d.
Qed.

(** Both halves of a queue store are over its table and dialect; a nil option is
    reported under the store's own name, before anything else. *)
Lemma NewQueueStore_ok {Ctx} random db table dl (opts : list (option (config Ctx → config Ctx))) :
  match NewQueueStore random db table dl opts with
  | inr q => db = true ∧ None ∉ opts ∧ ∃ d, dl = Some d ∧
      base_over table (dl_lease d) (dl_lock d) (out_base (qs_out q)) ∧
      source_over table (dl_lease d) (dl_lock d) (src_strategy (qs_src q)) (qs_src q)
  | inl err => (∃ i, opts !! i = Some None ∧ err = nilOptionAt "sql.NewQueueStore" i) ∨
      None ∉ opts ∧ (NewOutboundAdapter db table dl opts = inl err ∨ NewPollingSource random db table dl opts = inl err)
  end.
Proof.
  unfold NewQueueStore. pose proof (nil_option_none 0 opts) as Hn. destruct (nil_option 0 opts) as [i|].
  { left. exists i. rewrite Nat.sub_0_r in Hn. naive_solver. }
  destruct (NewOutboundAdapter db table dl opts) as [err|out] eqn:Ho; cbn [sum_bind]; [by right; split; [|left]|].
  destruct (NewPollingSource random db table dl opts) as [err|src] eqn:Hs; cbn [sum_bind]; [by right; split; [|right]|].
  apply NewOutboundAdapter_ok in Ho as (-> & _ & d & -> & Hb).
  apply NewPollingSource_ok in Hs as (_ & _ & d' & [= <-] & Hs). split; [done|]. split; [done|]. by exists d.
Qed.

(** A penalty is not negative and at most an hour. *)
Lemma corrupt_penalty_bounds `{Json, Libm} n :
  (∀ x y, SFleb x (Backoff.float64 0) = false → Backoff.nonneg (math_Pow x y)) →
  0 ≤ corrupt_penalty n ≤ corruptRowMaxBackoff.
Proof.
  intros Hp. unfold corrupt_penalty. set (b := Backoff.mkBackoff _ _ _ _).
  destruct (Backoff.Delay_bounds math_Pow (S754_zero false) float_to_int b (wrap64 (n - 1)) Hp) as (Hb & Hm & _);
    [vm_compute; discriminate..|].
  split; [lia|]. apply Hm. vm_compute. reflexivity.
Qed.

(** ** The follow-up probe

    It changes nothing, and replaces the error where it finds no table. *)
Lemma classify_run {A} (b : adapterBase) table err s :
  ValidateIdent table = None → ab_table b = table →
  SchemaExists_ (base_lease b) QDB table = schema_probe table →
  ∃ s', (base_classifyQueryErr b err : Sq A) s =
      (inl (if bool_decide (is_Some (s_db s !! table)) then err
            else match tk_fault (s_ticks s (s_pos s)) with Some _ => err | None => base_schemaNotReady b end), s') ∧
    s_db s' = s_db s ∧ s_ticks s' = s_ticks s ∧ (s_pos s ≤ s_pos s')%nat.
Proof.
  intros Hv Ht Hp. unfold base_classifyQueryErr. rewrite Sq_bind_run, Ht, Hp. unfold attempt, schema_probe.
  rewrite Hv. unfold select_schema, stmt. cbn [default].
  destruct (tk_fault _) as [er|]; [|destruct (bool_decide _) eqn:E];
    (eexists; split; [by try destruct (bool_decide _)|cbn; split; [done|split; [done|lia]]]).
Qed.

(** ** Polling with leases *)

Section lease.
Context `{Planner, JsonColumn, Json, Libm}.
Context (e : engine) (d : LeaseDialect) (ld : option LockDialect) (table : string) (src : Source).
Context (Hd : (e, d, ld) ∈ queue_dialects) (Hsrc : source_over table d ld StrategyLeaseClaim src).
Abbreviation by_ := (src_lockedBy src).
Abbreviation ttl := (src_leaseTTL src).

(** What becomes of a row claimed: a delivery, or a penalty. *)
Definition delivery_of (row : ClaimedRow) : option Delivery :=
  match DecodeHeaders (cr_Headers row) with
  | inl _ => None
  | inr headers => Some (mkDelivery (envelope (cr_Payload row) headers (DeliveryCount row))
                           (source_ackClosure src (cr_ID row) (LeaseEpoch row))
                           (source_nackClosure src (cr_ID row) (LeaseEpoch row)))
  end.
Definition penalty_of (row : ClaimedRow) : option qop :=
  match DecodeHeaders (cr_Headers row) with
  | inl _ => Some (ONack (cr_ID row) by_ (LeaseEpoch row) (corrupt_penalty (DeliveryCount row)))
  | inr _ => None
  end.

(** The loop delivers the rows it can read and penalises the others, in order. *)
Lemma deliver_rows_run rows s :
  deliver_rows src rows s =
    (inr (omap delivery_of rows), (run_qops d ld table (omap penalty_of rows) s).2).
Proof using Hsrc.
  destruct Hsrc as [(_ & Htab & Hl & _) _]. revert s. induction rows as [|row rows IH]; intros s; [done|].
  cbn [deliver_rows omap list_omap]. unfold delivery_of at 1, penalty_of at 1.
  destruct (DecodeHeaders (cr_Headers row)) as [err|h]; cbn beta match; rewrite Sq_bind_run.
  - unfold attempt. rewrite Htab, Hl. cbn [run_qops run_qop].
    destruct (Nack d QDB table _ _ _ _ s) as [[er|b] s1]; rewrite IH; unfold ret; cbn [fst snd];
      by destruct (run_qops _ _ _ _ s1).
  - by rewrite IH.
Qed.

Lemma pollLease_run max s :
  pollLease src max s =
    match Claim d QDB table max by_ ttl s with
    | (inl err, s1) => base_classifyQueryErr (src_base src) err s1
    | (inr rows, s1) =>
        (inr (omap delivery_of rows), (run_qops d ld table (omap penalty_of rows) s1).2)
    end.
Proof using Hsrc.
  unfold pollLease. rewrite Sq_bind_run. unfold attempt. pose proof Hsrc as [(_ & -> & -> & _) _].
  destruct (Claim _ _ _ _ _ _ _) as [[err|rows] s1]; [done|apply deliver_rows_run].
Qed.

Lemma Poll_lease max s : Poll src max s = pollLease src max s.
Proof using Hsrc. unfold Poll. destruct Hsrc as (_ & -> & _). done. Qed.

(** A negative acknowledgement on the table: the row given back, or nothing,
    if the row is not leased to the caller or the driver failed. *)
Lemma nack_effect s Q i by0 ep delay :
  s_db s !! table = Some (RQueue Q) → wf_queue (s_pos s) Q →
  let s' := (run_qop d ld table (ONack i by0 ep delay) s).2 in
  s_ticks s' = s_ticks s ∧ (s_pos s ≤ s_pos s')%nat ∧
  ∃ Q', s_db s' !! table = Some (RQueue Q') ∧ wf_queue (s_pos s') Q' ∧
    ((Q' = Q ∧ (¬ held Q i by0 ep ∨ ∃ err, fault_between s s' err)) ∨
     ∃ r n, q_rows Q !! i = Some r ∧ reads s n ∧ Q' = set_rows (<[i := returned (n + Microseconds delay) r]>) Q).
Proof using Hd Hsrc.
  intros Hq Hw. destruct Hsrc as [(Hv & _) _]. destruct (queue_dialects_laws e d ld Hd) as [Hlaw _].
  assert (run_qop d ld table (ONack i by0 ep delay) s = ret RBool (Nack d QDB table i by0 ep delay s)) as ->
    by (by destruct ld).
  pose proof (Nack_law (e := e) table s Q i by0 ep delay Hv Hq) as (Ht & Hp & ev & Q' & Hst & Hdb & HP).
  pose proof (proj2 (settle_errs (e := e) table s Q i by0 ep Hv Hq) delay) as Herr.
  unfold ret. cbn [snd]. destruct (Nack d QDB table i by0 ep delay s) as [res s']. cbn [fst snd] in *.
  split; [done|]. split; [done|]. exists Q'. split; [by rewrite Hdb, lookup_insert_eq|].
  assert (∀ n, reads s n ∧ ev = EvNack i by0 ep (n + Microseconds delay) →
    ∃ r n, q_rows Q !! i = Some r ∧ reads s n ∧ Q' = set_rows (<[i := returned (n + Microseconds delay) r]>) Q) as Hk.
  { intros n [Hn ->]. inversion Hst; subst. eauto. }
  split.
  { eapply qstep_wf; [done|done|done|]. intros n Hn. exfalso.
    destruct res as [err|[]]; [destruct HP as [->|[_ [[] HP]]]|..]; try done; try destruct HP as (? & _ & ->);
      try destruct HP as [-> _]; done. }
  destruct res as [err|[]].
  - destruct HP as [->|[Hf [[] HP]]]; [left|right; destruct HP as (n & HP); by eapply Hk|left; destruct HP as [-> _]];
      (split; [by inversion Hst|right; exists err; by apply Herr]).
  - right. destruct HP as (n & HP). by eapply Hk.
  - left. destruct HP as [-> ?]. split; [by inversion Hst|by left].
Qed.

Lemma fault_between_wider s s1 s2 s3 err :
  s_ticks s1 = s_ticks s → (s_pos s ≤ s_pos s1)%nat → (s_pos s2 ≤ s_pos s3)%nat →
  fault_between s1 s2 err → fault_between s s3 err.
Proof using Type. intros Ht ?? (i & Hi & Hf). exists i. rewrite <- Ht. split; [lia|done]. Qed.

Lemma row_fate row :
  (delivery_of row = None ∧
   penalty_of row = Some (ONack (cr_ID row) by_ (LeaseEpoch row) (corrupt_penalty (DeliveryCount row)))) ∨
  (is_Some (delivery_of row) ∧ penalty_of row = None).
Proof using Type. unfold delivery_of, penalty_of. destruct (DecodeHeaders _); [by left|right; split; [by eexists|done]]. Qed.

(** The penalties on rows claimed: only rows that cannot be read change, and
    they stay, given back after their penalty or (where the driver failed)
    leased. *)
Lemma penalties_effect rows s Q :
  s_db s !! table = Some (RQueue Q) → wf_queue (s_pos s) Q → NoDup (cr_ID <$> rows) →
  let s' := (run_qops d ld table (omap penalty_of rows) s).2 in
  s_ticks s' = s_ticks s ∧ (s_pos s ≤ s_pos s')%nat ∧
  ∃ Q', s_db s' !! table = Some (RQueue Q') ∧ wf_queue (s_pos s') Q' ∧
    (∀ i, (∀ x, x ∈ rows → cr_ID x = i → is_Some (delivery_of x)) → q_rows Q' !! i = q_rows Q !! i) ∧
    (∀ x r, x ∈ rows → q_rows Q !! cr_ID x = Some r → row_holds by_ (LeaseEpoch x) r = true → delivery_of x = None →
       (q_rows Q' !! cr_ID x = Some r ∧ ∃ err, fault_between s s' err) ∨
       ∃ n, reads s n ∧ q_rows Q' !! cr_ID x =
              Some (returned (n + Microseconds (corrupt_penalty (DeliveryCount x))) r)).
Proof using Hd Hsrc.
  revert s Q. induction rows as [|row rows IH]; intros s Q Hq Hw Hnd; cbn [omap list_omap run_qops].
  { split; [done|]. split; [done|]. exists Q. do 2 (split; [done|]). split; [done|]. by intros x r ?%elem_of_nil. }
  cbn in Hnd. apply NoDup_cons in Hnd as [Hni Hnd].
  destruct (row_fate row) as [[Hdel ->]|[Hdel ->]].
  - cbn [run_qops]. pose proof (nack_effect s Q (cr_ID row) by_ (LeaseEpoch row)
      (corrupt_penalty (DeliveryCount row)) Hq Hw) as (Ht & Hp & Q1 & Hq1 & Hw1 & HQ1).
    destruct (run_qop d ld table _ s) as [res s1]. cbn in Ht, Hp, Hq1, Hw1, HQ1.
    specialize (IH s1 Q1 Hq1 Hw1 Hnd) as (Ht2 & Hp2 & Q' & Hq' & Hw' & Hother & Hrows).
    destruct (run_qops d ld table (omap penalty_of rows) s1) as [rs s']. cbn in *. split; [congruence|].
    split; [lia|]. exists Q'. do 2 (split; [done|]).
    assert (∀ i, i ≠ cr_ID row → q_rows Q1 !! i = q_rows Q !! i) as Hne.
    { intros i Hi. destruct HQ1 as [[-> _]|(r & n & _ & _ & ->)]; [done|]. cbn. by rewrite lookup_insert_ne. }
    split.
    + intros i Hi. rewrite Hother by (intros x Hx; apply Hi; by right). apply Hne. intros ->.
      destruct (Hi row) as [? Hd1]; [by left|done|]. congruence.
    + intros x r [->|Hx]%elem_of_cons Hr Hh Hx0.
      * rewrite Hother by (intros y Hy Hid; exfalso; apply Hni; rewrite <- Hid; by apply list_elem_of_fmap_2).
        destruct HQ1 as [[-> [Hnh|[err Hf]]]|(r' & n & Hr' & Hn & ->)].
        -- destruct Hnh. by exists r.
        -- left. split; [done|]. exists err. by eapply fault_between_wider, Hf.
        -- simplify_eq. right. exists n. split; [done|]. cbn. by rewrite lookup_insert_eq.
      * destruct (Hrows x r Hx) as [[Hl [err Hf]]|(n & (j & Hj & ->) & Hl)]; [|done..| |].
        -- rewrite Hne; [done|]. intros Hid. apply Hni. rewrite <- Hid. by apply list_elem_of_fmap_2.
        -- left. split; [done|]. exists err. by eapply fault_between_wider, Hf.
        -- right. eexists. split; [|done]. exists j. rewrite Ht. split; [lia|done].
  - specialize (IH s Q Hq Hw Hnd) as (Ht2 & Hp2 & Q' & Hq' & Hw' & Hother & Hrows). split; [done|]. split; [done|].
    exists Q'. do 2 (split; [done|]). split.
    + intros i Hi. apply Hother. intros x Hx. apply Hi. by right.
    + intros x r [->|Hx]%elem_of_cons Hr Hh Hx0; [|by apply Hrows]. destruct Hdel. congruence.
Qed.

(** The rows a poll has claimed, and what it makes of them. *)
Lemma pollLease_claims max s Q :
  s_db s !! table = Some (RQueue Q) → wf_queue (s_pos s) Q → 0 ≤ max →
  match pollLease src max s with
  | (inr ds, s') =>
      ∃ n n2 rows Q', reads s n ∧ ds = omap delivery_of rows ∧
        s_db s' !! table = Some (RQueue Q') ∧ wf_queue (s_pos s') Q' ∧ s_ticks s' = s_ticks s ∧
        NoDup (cr_ID <$> rows) ∧ Z.of_nat (length rows) ≤ max ∧
        (∀ x, x ∈ rows → ∃ r, q_rows Q !! cr_ID x = Some r ∧ claimable n (Microseconds ttl) r = true ∧
           q_locks Q !! cr_ID x = None ∧ x = claimed_row (cr_ID x) (leased n2 by_ r) ∧
           match delivery_of x with
           | Some _ => q_rows Q' !! cr_ID x = Some (leased n2 by_ r)
           | None =>
               (q_rows Q' !! cr_ID x = Some (leased n2 by_ r) ∧ ∃ err, fault_between s s' err) ∨
               ∃ n', reads s n' ∧ q_rows Q' !! cr_ID x = Some
                 (returned (n' + Microseconds (corrupt_penalty (q_delivery_count r + 1))) (leased n2 by_ r))
           end) ∧
        (∀ i, i ∉ cr_ID <$> rows → q_rows Q' !! i = q_rows Q !! i) ∧
        (∀ i r, i ∉ cr_ID <$> rows → q_rows Q !! i = Some r → claimable n (Microseconds ttl) r = true →
           q_locks Q !! i = None → Z.of_nat (length rows) = max)
  | (inl err, s') =>
      ∃ ev Q', qstep e Q ev Q' ∧ s_db s' !! table = Some (RQueue Q') ∧ (ev = EvNone ∨ faulted s err ∧
        ∃ n1 n2 ids, ev = EvClaim by_ (Microseconds ttl) n1 n2 ids)
  end.
Proof using Hd Hsrc.
  intros Hq Hw Hmax. pose proof Hsrc as [(Hv & Htab & Hl & _) _]. rewrite pollLease_run.
  pose proof (run_qop_means e d ld table (OClaim max by_ ttl) s Q Hd Hv Hq Hw) as Hm.
  pose proof (claim_exact e d ld table max by_ ttl s Q) as Hce.
  assert (run_qop d ld table (OClaim max by_ ttl) s = ret RRows (Claim d QDB table max by_ ttl s)) as Hrun
    by (by destruct ld).
  rewrite Hrun in Hm, Hce. unfold ret in Hm, Hce.
  destruct (Claim d QDB table max by_ ttl s) as [[err|rows] s1]; cbn [fst snd] in Hm, Hce.
  - destruct Hm as (_ & _ & ev & Q' & Hst & Hq' & Hmean & _).
    destruct (queue_dialects_laws e d ld Hd) as [Hlaw _].
    destruct (classify_run (A := list Delivery) (src_base src) table err s1) as (s' & -> & Hdb & _ & _); [done..| |].
    { rewrite Hl. apply SchemaExists_probe. }
    rewrite bool_decide_eq_true_2 by by eexists.
    exists ev, Q'. split; [done|]. split; [congruence|].
    destruct Hmean as [->|[(lr & [[=]|(? & [=])] & _)|[(? & [=] & _)|(Hf & res' & Hr)]]]; [by left|].
    right. split; [done|]. destruct res'; cbn in Hr; try done. destruct Hr as (n1 & n2 & ids & _ & _ & _ & -> & _).
    by exists n1, n2, ids.
  - destruct Hm as (Ht1 & Hp1 & ev & Q1 & Hst & Hq1 & _ & Htx).
    assert (wf_queue (s_pos s1) Q1) as Hw1 by by eapply qstep_wf.
    destruct (Hce rows s1 Hd Hv Hq Hw Hmax eq_refl) as (n & n2 & Q1' & Hn & _ & Hdb1 & Hnd & Hlen & Hrow & Hoth & Hrest).
    assert (Q1' = Q1) as -> by (rewrite Hdb1, lookup_insert_eq in Hq1; congruence).
    pose proof (penalties_effect rows s1 Q1 Hq1 Hw1 Hnd) as (Ht2 & Hp2 & Q' & Hq' & Hw' & Hkeep & Hpen).
    destruct (run_qops d ld table (omap penalty_of rows) s1) as [rs s']. cbn in *.
    exists n, n2, rows, Q'. split; [done|]. split; [done|]. do 2 (split; [done|]). split; [congruence|].
    do 2 (split; [done|]). split; [|split].
    + intros x Hx. destruct (Hrow x Hx) as (r & Hr & Hc & Hk & Hr1 & Hxr). exists r. do 4 (split; [done|]).
      destruct (delivery_of x) as [dl|] eqn:Hdel.
      * rewrite Hkeep; [done|]. intros y Hy Hid. enough (y = x) as -> by by eexists.
        destruct (Hrow y Hy) as (r' & Hr' & _ & _ & _ & ->). rewrite Hxr. rewrite Hid in *. by simplify_eq.
      * destruct (Hpen x _ Hx Hr1) as [[? [er Hf]]|(n' & (j & Hj & ->) & Hn')].
        -- rewrite Hxr. unfold row_holds. cbn. by rewrite bool_decide_eq_true_2, Z.eqb_refl.
        -- done.
        -- left. split; [done|]. exists er. by eapply fault_between_wider, Hf.
        -- right. eexists. split; [|rewrite Hn'; do 4 f_equal; by rewrite Hxr].
           exists j. rewrite Ht1. split; [lia|done].
    + intros i Hi. rewrite Hkeep; [by apply Hoth|]. intros x Hx <-. exfalso. by apply Hi, list_elem_of_fmap_2.
    + intros i r Hi Hr Hc Hk. destruct (Hrest i r (mkClaimedRow 0 "" [] [] 0 0) Hi Hr Hc Hk) as [? _]. done.
Qed.

(** The rows of [Q] are in [Q'], with their messages. *)
Definition all_kept (Q Q' : queue_table) : Prop :=
  ∀ i r, q_rows Q !! i = Some r →
    ∃ r', q_rows Q' !! i = Some r' ∧ carries (q_msg_id r) (q_headers r) (q_payload r) r'.

Lemma kept_event p Q ev Q' :
  wf_queue p Q → qstep e Q ev Q' → (∀ i by0 ep, ev ≠ EvAck i by0 ep) → (∀ n i, ev ≠ EvLockAck n i) →
  all_kept Q Q'.
Proof using Type.
  intros Hw Hst Ha Hl i r Hr.
  destruct (qstep_keeps e p Q ev Q' i r Hw Hst Hr) as [?|[(? & ? & ->)|[? ->]]]; [done|by edestruct Ha|by edestruct Hl].
Qed.

Lemma claimed_length rows (R : gmap Z queue_row) :
  NoDup (cr_ID <$> rows) → (∀ x, x ∈ rows → is_Some (R !! cr_ID x)) → (length rows ≤ size R)%nat.
Proof using Type.
  intros Hnd Hin. rewrite <- (length_fmap cr_ID), <- size_dom, <- (size_list_to_set (C := gset Z) _ Hnd).
  apply subseteq_size. intros i (x & -> & Hx)%elem_of_list_to_set%list_elem_of_fmap. apply elem_of_dom. auto.
Qed.

(** C18. A poll with leases is exact and loses nothing.  It takes a set of rows
    that were claimable, at most as many as asked for, and leaves out a claimable
    row only if it has taken as many; it touches no other row.  Of a row it has
    taken, it delivers the payload and the decoded headers with the count of the
    claim, and the delivery settles the lease it took; or, if the headers cannot
    be decoded, it gives the row back with its penalty, which is left undone only
    where the driver failed during the poll.  Nothing else is delivered, no row
    leaves the table, whatever fails, and no delivery comes with an error. *)
Theorem sql_poll_exact max s Q :
  s_db s !! table = Some (RQueue Q) → wf_queue (s_pos s) Q → 0 ≤ max →
  let '(res, s') := Poll src max s in
  let settled i r h := mkDelivery (envelope (q_payload r) h (q_delivery_count r + 1))
    (source_ackClosure src i (q_lease_epoch r + 1)) (source_nackClosure src i (q_lease_epoch r + 1)) in
  ∃ Q', s_db s' !! table = Some (RQueue Q') ∧ all_kept Q Q' ∧
    match res with
    | inl err => Q' = Q ∨ faulted s err
    | inr ds =>
        ∃ n n2 ids, reads s n ∧ NoDup ids ∧ (length ds ≤ length ids)%nat ∧ Z.of_nat (length ids) ≤ max ∧
          (∀ i, i ∉ ids → q_rows Q' !! i = q_rows Q !! i) ∧
          (∀ i r, i ∉ ids → q_rows Q !! i = Some r → claimable n (Microseconds ttl) r = true →
             q_locks Q !! i = None → Z.of_nat (length ids) = max) ∧
          (∀ dl, dl ∈ ds → ∃ i r h, i ∈ ids ∧ q_rows Q !! i = Some r ∧
             DecodeHeaders (q_headers r) = inr h ∧ dl = settled i r h) ∧
          (∀ i, i ∈ ids → ∃ r, q_rows Q !! i = Some r ∧ claimable n (Microseconds ttl) r = true ∧
             q_locks Q !! i = None ∧
             match DecodeHeaders (q_headers r) with
             | inr h => settled i r h ∈ ds ∧ q_rows Q' !! i = Some (leased n2 by_ r)
             | inl _ =>
                 (∃ n', reads s n' ∧ q_rows Q' !! i = Some
                    (returned (n' + Microseconds (corrupt_penalty (q_delivery_count r + 1))) (leased n2 by_ r))) ∨
                 (q_rows Q' !! i = Some (leased n2 by_ r) ∧ ∃ err, fault_between s s' err)
             end)
    end.
Proof using Hd Hsrc.
  intros Hq Hw Hmax. rewrite Poll_lease. pose proof (pollLease_claims max s Q Hq Hw Hmax) as Hp.
  destruct (pollLease src max s) as [[err|ds] s'].
  { destruct Hp as (ev & Q' & Hst & Hq' & Hev). exists Q'. split; [done|]. split.
    - eapply (kept_event _ Q ev Q' Hw Hst); intros * ->; naive_solver.
    - destruct Hev as [->|[Hf _]]; [left; by inversion Hst|by right]. }
  destruct Hp as (n & n2 & rows & Q' & Hn & -> & Hq' & Hw' & _ & Hnd & Hlen & Hrow & Hoth & Hrest).
  assert (∀ x r, x = claimed_row (cr_ID x) (leased n2 by_ r) →
    delivery_of x = match DecodeHeaders (q_headers r) with
      | inl _ => None
      | inr h => Some (mkDelivery (envelope (q_payload r) h (q_delivery_count r + 1))
                   (source_ackClosure src (cr_ID x) (q_lease_epoch r + 1))
                   (source_nackClosure src (cr_ID x) (q_lease_epoch r + 1)))
      end) as Hdel by (intros x r ->; done).
  exists Q'. split; [done|]. split.
  { intros i r Hr. destruct (decide (i ∈ cr_ID <$> rows)) as [(x & -> & Hx)%list_elem_of_fmap|Hi];
      [|rewrite Hoth by done; by eexists].
    destruct (Hrow x Hx) as (r0 & Hr0 & _ & _ & _ & Hx'). simplify_eq.
    destruct (delivery_of x); [|destruct Hx' as [[Hx' _]|(n' & _ & Hx')]]; rewrite Hx'; by eexists. }
  exists n, n2, (cr_ID <$> rows). rewrite length_fmap. do 2 (split; [done|]). split; [|do 3 (split; [done|])].
  { clear. unfold omap. induction rows as [|row rows IH]; [done|]. cbn [list_omap].
    destruct (delivery_of row); cbn [length]; lia. }
  split.
  - intros dl (x & Hx & Hdl)%list_elem_of_omap. destruct (Hrow x Hx) as (r & Hr & _ & _ & Hxr & _).
    rewrite (Hdel x r Hxr) in Hdl. destruct (DecodeHeaders (q_headers r)) as [|h] eqn:Hh; [done|]. injection Hdl as <-.
    exists (cr_ID x), r, h. split; [by apply list_elem_of_fmap_2|done].
  - intros i (x & -> & Hx)%list_elem_of_fmap. destruct (Hrow x Hx) as (r & Hr & Hc & Hk & Hxr & Hx').
    exists r. do 3 (split; [done|]). specialize (Hdel x r Hxr).
    destruct (DecodeHeaders (q_headers r)) as [er|h]; rewrite Hdel in Hx'; [tauto|].
    split; [|done]. apply list_elem_of_omap. by exists x.
Qed.

(** *** Settlement *)

(** A closure's statement and its test of the answer. *)
Lemma source_settle (P : qevent → Prop) s Q (m : Sq bool) (r : Prop) :
  s_db s !! table = Some (RQueue Q) →
  op_outcome e table s Q (m s) (λ b ev, if b : bool then P ev else ev = EvNone ∧ r) →
  (∀ err s', m s = (inl err, s') → fault_between s s' err) →
  match (applied ← m; if negb applied then fail (Sentinel ErrStaleLease) else mret tt) s with
  | (inr _, s') => ∃ ev Q', P ev ∧ qstep e Q ev Q' ∧ s_db s' = <[table := RQueue Q']> (s_db s)
  | (inl err, s') =>
      (err = Sentinel ErrStaleLease ∧ r ∧ s_db s' = s_db s) ∨
      (fault_between s s' err ∧
       (s_db s' = s_db s ∨ ∃ ev Q', P ev ∧ qstep e Q ev Q' ∧ s_db s' = <[table := RQueue Q']> (s_db s)))
  end.
Proof using Type.
  intros Hq. rewrite Sq_bind_run. unfold op_outcome. destruct (m s) as [[err|b] s']; cbn [fst snd].
  - intros (_ & _ & ev & Q' & Hst & Hdb & HP) Herr. right. split; [by apply Herr|].
    destruct HP as [->|(_ & [] & Hb)]; [left|right; eauto|left; destruct Hb as [-> _]];
      inversion Hst; subst; by rewrite Hdb, put_queue_id.
  - intros (_ & _ & ev & Q' & Hst & Hdb & Hb) _. destruct b; cbn; [by exists ev, Q'|].
    destruct Hb as [-> ?]. left. inversion Hst; subst. by rewrite Hdb, put_queue_id.
Qed.

Lemma ack_takes i ep s Q :
  s_db s !! table = Some (RQueue Q) →
  let gone (s' : session) := held Q i by_ ep ∧ s_db s' = <[table := RQueue (set_rows (delete i) Q)]> (s_db s) in
  match source_ackClosure src i ep s with
  | (inr _, s') => gone s'
  | (inl err, s') =>
      (err = Sentinel ErrStaleLease ∧ ¬ held Q i by_ ep ∧ s_db s' = s_db s) ∨
      (fault_between s s' err ∧ (s_db s' = s_db s ∨ gone s'))
  end.
Proof using Hd Hsrc.
  intros Hq gone. destruct Hsrc as [(Hv & Htab & Hl & _) _]. destruct (queue_dialects_laws e d ld Hd) as [Hlaw _].
  unfold source_ackClosure. rewrite Htab, Hl.
  assert (∀ s', (∃ ev Q', ev = EvAck i by_ ep ∧ qstep e Q ev Q' ∧ s_db s' = <[table := RQueue Q']> (s_db s)) → gone s') as Hg.
  { intros s' (ev & Q' & -> & Hst & Hdb). inversion Hst; subst. split; [by eexists|done]. }
  pose proof (source_settle (λ ev, ev = EvAck i by_ ep) s Q (Ack d QDB table i by_ ep) (¬ held Q i by_ ep) Hq
    (Ack_law table s Q i by_ ep Hv Hq) (proj1 (settle_errs table s Q i by_ ep Hv Hq))) as Hs.
  match type of Hs with match ?x with _ => _ end => destruct x as [[err|u] s'] end; [|by apply Hg].
  destruct Hs as [?|[? [?|?]]]; eauto.
Qed.

(** C24. A delivery settles the row leased under its id, its owner and its lease
    epoch, exactly when there is one.  Its acknowledgement then deletes just that
    row; a negative one gives just that row back, visible after the delay, or at
    once when asked not to requeue.  When there is none it returns ErrStaleLease
    and changes nothing.  Any other error is a fault of the driver, after which
    nothing is changed or, where it was the answer that was lost, all of it.
    (Over postgres and mysql no later message has that id and epoch; sqlite may
    give them to one, see [sqlite_late_ack_loses].) *)
Theorem sql_delivery_settles i ep (requeue : bool) delay s Q :
  s_db s !! table = Some (RQueue Q) →
  let gone (s' : session) := held Q i by_ ep ∧ s_db s' = <[table := RQueue (set_rows (delete i) Q)]> (s_db s) in
  let given_back (s' : session) := ∃ r n, q_rows Q !! i = Some r ∧ row_holds by_ ep r = true ∧ reads s n ∧
    s_db s' = <[table := RQueue (set_rows
      (<[i := returned (n + Microseconds (if requeue then delay else 0)) r]>) Q)]> (s_db s) in
  match source_ackClosure src i ep s with
  | (inr _, s') => gone s'
  | (inl err, s') =>
      (err = Sentinel ErrStaleLease ∧ ¬ held Q i by_ ep ∧ s_db s' = s_db s) ∨
      (fault_between s s' err ∧ (s_db s' = s_db s ∨ gone s'))
  end ∧
  match source_nackClosure src i ep requeue delay s with
  | (inr _, s') => given_back s'
  | (inl err, s') =>
      (err = Sentinel ErrStaleLease ∧ ¬ held Q i by_ ep ∧ s_db s' = s_db s) ∨
      (fault_between s s' err ∧ (s_db s' = s_db s ∨ given_back s'))
  end.
Proof using Hd Hsrc.
  intros Hq gone given_back. split; [by apply ack_takes|].
  destruct Hsrc as [(Hv & Htab & Hl & _) _]. destruct (queue_dialects_laws e d ld Hd) as [Hlaw _].
  unfold source_nackClosure. rewrite Htab, Hl.
  replace (if negb requeue then 0 else delay) with (if requeue then delay else 0) by (by destruct requeue).
  set (dl := if requeue then delay else 0) in *.
  assert (∀ s', (∃ ev Q', (∃ n, reads s n ∧ ev = EvNack i by_ ep (n + Microseconds dl)) ∧ qstep e Q ev Q' ∧
    s_db s' = <[table := RQueue Q']> (s_db s)) → given_back s') as Hg.
  { intros s' (ev & Q' & (n & Hn & ->) & Hst & Hdb). inversion Hst; subst. by exists r, n. }
  pose proof (source_settle (λ ev, ∃ n, reads s n ∧ ev = EvNack i by_ ep (n + Microseconds dl)) s Q
    (Nack d QDB table i by_ ep dl) (¬ held Q i by_ ep) Hq (Nack_law table s Q i by_ ep dl Hv Hq)
    (proj2 (settle_errs table s Q i by_ ep Hv Hq) dl)) as Hs.
  match type of Hs with match ?x with _ => _ end => destruct x as [[err|u] s'] end; [|by apply Hg].
  destruct Hs as [?|[? [?|?]]]; eauto.
Qed.
End lease.

(** ** Sending *)

(** What is documented of a JSON column: it keeps the value of the text that was
    written to it. *)
Class JsonColumnLaws `{Json, JsonColumn} : Prop :=
  column_reads e m b b' : json_Marshal m = inr b → json_column e b = inr b' →
    b' ≠ [] ∧ json_Unmarshal b' = json_Unmarshal b.

Section send.
Context `{Planner, JsonColumn, Json} {Ctx : Type}.
Context (e : engine) (d : LeaseDialect) (ld : option LockDialect) (table : string) (out : Outbound Ctx).
Context (Hd : (e, d, ld) ∈ queue_dialects) (Hout : base_over table d ld (out_base out)).

(** The row of a message, visible [delay] after [n], is new in the table. *)
Definition sent (m : msg) (delay : Z) (Q : queue_table) (n : Z) (Q' : queue_table) : Prop :=
  ∃ b payload col, EncodeHeaders (msg_headers m) = inr b ∧ msg_payload m = ABytes payload ∧
    column e b = inr col ∧
    Q' = add_row (next_id e Q) (new_row (ID m) col payload (n + Microseconds delay)) Q.

Definition insert_on (q : Querier) (m : msg) (b payload : bytes) (delay : Z) : Sq unit :=
  r ← attempt (Insert_ d q table (ID m) b payload delay);
  match r with
  | inl err => base_classifyQueryErr (out_base out) err
  | inr _ => mret tt
  end.

Lemma insert_on_run q m b payload delay s :
  is_Some (s_db (Insert_ d q table (ID m) b payload delay s).2 !! table) →
  match Insert_ d q table (ID m) b payload delay s with
  | (inl err, s') => ∃ s'', insert_on q m b payload delay s = (inl err, s'') ∧ s_db s'' = s_db s'
  | (inr _, s') => insert_on q m b payload delay s = (inr tt, s')
  end.
Proof using Hd Hout.
  intros Hp. destruct Hout as (Hv & Htab & Hl & _). destruct (queue_dialects_laws e d ld Hd) as [Hlaw _].
  unfold insert_on. rewrite Sq_bind_run. unfold attempt.
  destruct (Insert_ d q table (ID m) b payload delay s) as [[err|u] s']; [|reflexivity]. cbn in Hp.
  destruct (classify_run (A := unit) (out_base out) table err s') as (s'' & -> & Hdb & _ & _); [done..| |].
  { rewrite Hl. apply SchemaExists_probe. }
  rewrite bool_decide_eq_true_2 by done. by exists s''.
Qed.

Section insertion.
Context (m : msg) (delay : Z) (s : session) (Q : queue_table) (b payload : bytes).
Context (Hq : s_db s !! table = Some (RQueue Q)).
Context (Hb : EncodeHeaders (msg_headers m) = inr b) (Hpay : msg_payload m = ABytes payload).

Lemma send_alone :
  match insert_on QDB m b payload delay s with
  | (inr _, s') => ∃ n Q', s_db s' = <[table := RQueue Q']> (s_db s) ∧ sent m delay Q n Q' ∧ reads s n ∧
      (s_pos s ≤ s_pos s')%nat
  | (inl err, s') => s_db s' = s_db s ∨
      faulted s err ∧ ∃ n Q', s_db s' = <[table := RQueue Q']> (s_db s) ∧ sent m delay Q n Q'
  end.
Proof using Hd Hout Hq Hb Hpay.
  destruct Hout as (Hv & _). destruct (queue_dialects_laws e d ld Hd) as [Hlaw _].
  pose proof (Insert_law table s Q (ID m) b payload delay Hv Hq) as (_ & Hpos & ev & Q' & Hst & Hdb & HP).
  pose proof (insert_on_run QDB m b payload delay s) as Hrun. rewrite Hdb, lookup_insert_eq in Hrun.
  specialize (Hrun ltac:(by eexists)).
  assert ((∃ n col, reads s n ∧ column e b = inr col ∧
             ev = EvInsert (next_id e Q) (ID m) col payload (n + Microseconds delay)) →
          ∃ n, sent m delay Q n Q' ∧ reads s n) as Hsent.
  { intros (n & col & Hn & Hc & ->). exists n. split; [|done]. inversion Hst; subst. by exists b, payload, col. }
  destruct (Insert_ d QDB table (ID m) b payload delay s) as [[err|u] s1]; cbn [fst snd] in *.
  - destruct Hrun as (s'' & -> & Hs''). rewrite Hs''. destruct HP as [->|[Hf [_ HP]]].
    + left. rewrite Hdb. inversion Hst; subst. by apply put_queue_id.
    + right. split; [done|]. destruct (Hsent HP) as (n & ? & _). by exists n, Q'.
  - rewrite Hrun. destruct (Hsent HP) as (n & ? & ?). exists n, Q'. auto.
Qed.

Lemma send_tx tx :
  match insert_on (QTx tx) m b payload delay s with
  | (inr _, s') => ∃ n Q', s_db s' = <[table := RQueue Q']> (s_db s) ∧ sent m delay Q n Q' ∧
      s_pos s' = S (s_pos s) ∧ (reads s n ∨ n = tx_start tx)
  | (inl _, s') => s_db s' = s_db s
  end.
Proof using Hd Hout Hq Hb Hpay.
  destruct Hout as (Hv & _). destruct (queue_dialects_laws e d ld Hd) as [Hlaw _].
  pose proof (Insert_tx_law table s Q tx (ID m) b payload delay Hv Hq) as HP.
  pose proof (insert_on_run (QTx tx) m b payload delay s) as Hrun.
  destruct (Insert_ d (QTx tx) table (ID m) b payload delay s) as [[err|u] s1]; cbn [fst snd] in *.
  - subst s1. cbn in Hrun. destruct Hrun as (s'' & -> & ->); [by eexists|done].
  - destruct HP as (n & col & Hn & Hc & ->). cbn in Hrun. rewrite lookup_insert_eq in Hrun. rewrite Hrun by by eexists.
    cbn. exists n. eexists. split; [done|]. split; [|done]. by exists b, payload, col.
Qed.
End insertion.

(** The outbox: a send that returns nil has inserted the message's row, its
    headers framed, visible after the delay, and nothing else.  With a resolver
    it did so by one statement in the caller's transaction, never commits it,
    and only the opportunistic variant inserts on its own when there is none;
    any other failure leaves the database as it was, unless it was on its own
    and the driver lost the answer. *)
Theorem sql_send_exact ctx m delay s Q :
  s_db s !! table = Some (RQueue Q) →
  (∀ r q, out_txResolver out = Some r → (r ctx).1 = Some q → ∃ tx, q = QTx tx) →
  let alone := match out_txResolver out with
               | None => True
               | Some r => r ctx = (None, None) ∧ out_txStrict out = false
               end in
  match SendAfter out ctx m delay s with
  | (inr _, s') => ∃ n Q', s_db s' = <[table := RQueue Q']> (s_db s) ∧ sent m delay Q n Q' ∧
      ((alone ∧ reads s n) ∨
       ∃ r tx, out_txResolver out = Some r ∧ r ctx = (Some (QTx tx), None) ∧
         s_pos s' = S (s_pos s) ∧ (reads s n ∨ n = tx_start tx))
  | (inl err, s') => s_db s' = s_db s ∨
      alone ∧ faulted s err ∧ ∃ n Q', s_db s' = <[table := RQueue Q']> (s_db s) ∧ sent m delay Q n Q'
  end.
Proof using Hd Hout.
  intros Hq Hres alone. destruct Hout as (Hv & Htab & Hl & _). destruct (queue_dialects_laws e d ld Hd) as [Hlaw _].
  unfold SendAfter. rewrite Htab, Hl.
  destruct (EncodeHeaders (msg_headers m)) as [err|b] eqn:Hb; [by left|].
  destruct (type_assert (msg_payload m) : option bytes) as [payload|] eqn:Hpay; [|by left].
  apply assert_inv in Hpay. cbn in Hpay.
  unfold resolveQuerier. unfold alone.
  destruct (out_txResolver out) as [r|] eqn:Hr.
  2:{ pose proof (send_alone m delay s Q b payload Hq Hb Hpay) as Ha. unfold insert_on in Ha.
      match type of Ha with match ?x with _ => _ end => destruct x as [[err|u] s'] end; [naive_solver|].
      destruct Ha as (n & Q' & ? & ? & ? & _). exists n, Q'. do 2 (split; [done|]). by left. }
  destruct (r ctx) as [[q|] [err|]] eqn:Hctx; [by left| |by left|].
  - destruct (Hres r q eq_refl ltac:(by rewrite Hctx)) as [tx ->].
    pose proof (send_tx m delay s Q b payload Hq Hb Hpay tx) as Ha. unfold insert_on in Ha.
    match type of Ha with match ?x with _ => _ end => destruct x as [[err|u] s'] end; [by left|].
    destruct Ha as (n & Q' & ? & ? & ? & ?). exists n, Q'. do 2 (split; [done|]). right. by exists r, tx.
  - destruct (out_txStrict out) eqn:Hstrict; [by left|].
    pose proof (send_alone m delay s Q b payload Hq Hb Hpay) as Ha. unfold insert_on in Ha.
    match type of Ha with match ?x with _ => _ end => destruct x as [[err|u] s'] end; [naive_solver|].
    destruct Ha as (n & Q' & ? & ? & ? & _). exists n, Q'. do 2 (split; [done|]). by left.
Qed.
End send.

(** ** From a send to its delivery *)

Section roundtrip.
Context `{Planner, JsonColumn, Json, Libm} {Ctx : Type}.
Context (JL : JsonLaws) (CL : JsonColumnLaws).
Context (e : engine) (d : LeaseDialect) (ld : option LockDialect) (table : string).
Context (out : Outbound Ctx) (src : Source).
Context (Hd : (e, d, ld) ∈ queue_dialects) (Hout : base_over table d ld (out_base out))
  (Hsrc : source_over table d ld StrategyLeaseClaim src).

(** The column's text is read back to the headers that were framed. *)
Lemma column_headers e0 h b col :
  text_keys h → EncodeHeaders h = inr b → column e0 b = inr col →
  ∃ h', DecodeHeaders col = inr h' ∧ header_back h h'.
Proof using JL CL.
  intros Hk Hb Hc. destruct (headers_framed h b Hk Hb) as (h' & Hh' & Hback). exists h'. split; [|done].
  assert (col = b ∨ json_column e0 b = inr col) as [->|Hj]; [|done|].
  { destruct e0; cbn in Hc; [by right|by right|]. injection Hc as ->. by left. }
  unfold EncodeHeaders in Hb. destruct (json_Marshal _) as [|b'] eqn:Hm; [done|]. injection Hb as ->.
  destruct (column_reads e0 _ b col Hm Hj) as [Hne Hu]. rewrite <- Hh'.
  destruct (json_roundtrip _ _ Hm) as [Hne' _].
  { intros k Hs. apply Hk. rewrite map_lookup_imap, get_default in Hs.
    destruct (Headers_Get h k); [by eexists|by destruct Hs]. }
  unfold DecodeHeaders. destruct col; [done|]. destruct b; [done|]. by rewrite Hu.
Qed.

(** C14. The round trip, over each of the three dialects: the row of a sent
    message is new in the table, and a poll with leases that is made once it is
    visible, and is not cut short by its limit, delivers the message: the
    payload as it was, the headers as JSON gives them back, and a delivery
    count of one; acknowledging the delivery takes out that row and no other. *)
Theorem sql_send_poll_roundtrip ctx m delay s s1 Q :
  text_keys (msg_headers m) → out_txResolver out = None →
  s_db s !! table = Some (RQueue Q) → wf_queue (s_pos s) Q →
  SendAfter out ctx m delay s = (inr tt, s1) →
  ∃ i r n Q1, q_rows Q !! i = None ∧ s_db s1 !! table = Some (RQueue Q1) ∧ q_rows Q1 !! i = Some r ∧
    reads s n ∧ q_visible_after r = n + Microseconds delay ∧
    ∀ max ds s2, Z.of_nat (size (q_rows Q1)) < max → (∀ n', reads s1 n' → q_visible_after r ≤ n') →
      Poll src max s1 = (inr ds, s2) →
      ∃ dl payload h Q2, dl ∈ ds ∧ msg_payload m = ABytes payload ∧ Msg dl = envelope payload h 1 ∧
        header_back (msg_headers m) h ∧ s_db s2 !! table = Some (RQueue Q2) ∧
        ∀ s3, d_Ack dl s2 = (inr tt, s3) →
          s_db s3 !! table = Some (RQueue (set_rows (delete i) Q2)).
Proof using Hd Hout Hsrc JL CL.
  intros Hk Hr Hq Hw Hsend. revert Hsend. pose proof Hout as (_ & Htab & Hl & _). unfold SendAfter.
  destruct (EncodeHeaders (msg_headers m)) as [err|b] eqn:Hb; [done|].
  destruct (type_assert (msg_payload m) : option bytes) as [payload|] eqn:Hpay; [|done].
  apply assert_inv in Hpay. cbn in Hpay. unfold resolveQuerier. rewrite Hr, Htab, Hl. intros Hsend.
  pose proof (send_alone e d ld table out Hd Hout m delay s Q b payload Hq Hb Hpay) as Ha. unfold insert_on in Ha.
  rewrite Hsend in Ha. destruct Ha as (n & Q1 & Hdb & (b' & p' & col & Hb' & Hp' & Hc & HQ1) & Hn & Hpos).
  clear Htab Hl Hr. simplify_eq. set (i := next_id e Q). set (r := new_row (ID m) col p' (n + Microseconds delay)).
  assert (s_db s1 !! table = Some (RQueue (add_row i r Q))) as Hq1 by (by rewrite Hdb, lookup_insert_eq).
  assert (wf_queue (s_pos s1) (add_row i r Q)) as Hw1 by (eapply wf_later; [by apply wf_add|done]).
  pose proof (next_id_fresh e _ Q Hw) as Hfresh.
  exists i, r, n, (add_row i r Q). split; [done|]. split; [done|]. split; [apply lookup_insert_eq|].
  split; [done|]. split; [done|]. intros max ds s2 Hmax Hvis Hpoll.
  rewrite (Poll_lease d ld table src Hsrc) in Hpoll.
  pose proof (pollLease_claims e d ld table src Hd Hsrc max s1 _ Hq1 Hw1 ltac:(lia)) as Hclaims.
  rewrite Hpoll in Hclaims.
  destruct Hclaims as (n1 & n2 & rows & Q2 & Hn1 & -> & Hq2 & Hw2 & _ & Hnd & Hlen & Hrow & _ & Hrest).
  assert (q_rows (add_row i r Q) !! i = Some r) as Hi by apply lookup_insert_eq.
  assert (q_locks (add_row i r Q) !! i = None) as Hlk.
  { destruct (q_locks Q !! i) as [l|] eqn:El; [|done]. destruct (wq_locks _ _ Hw i l El) as (_ & r0 & Hr0 & _). subst i. congruence. }
  destruct (decide (i ∈ cr_ID <$> rows)) as [(x & Hx & Hin)%list_elem_of_fmap|Hni].
  2:{ specialize (Hrest i r Hni Hi ltac:(unfold claimable; cbn; specialize (Hvis n1 Hn1); cbn in Hvis; lia) Hlk).
      enough (length rows ≤ size (q_rows (add_row i r Q)))%nat by lia. apply claimed_length; [done|].
      intros x Hx. destruct (Hrow x Hx) as (r0 & -> & _). by eexists. }
  destruct (Hrow x Hin) as (r0 & Hr0 & _ & _ & Hxr & Hx'). rewrite <- Hx in *.
  assert (r0 = r) as -> by congruence.
  destruct (column_headers e (msg_headers m) b' col Hk Hb' Hc) as (h & Hh & Hback).
  assert (delivery_of src x = Some (mkDelivery (envelope p' h 1) (source_ackClosure src i 1) (source_nackClosure src i 1)))
    as Hdel by (rewrite Hxr; unfold delivery_of; cbn; by rewrite Hh).
  eexists _, p', h, Q2. split; [by apply list_elem_of_omap; exists x|]. split; [done|]. split; [done|]. split; [done|].
  split; [done|]. cbn. intros s3 Hack.
  pose proof (ack_takes e d ld table src Hd Hsrc i 1 s2 Q2 Hq2) as Ha. rewrite Hack in Ha.
  destruct Ha as [_ ->]. by rewrite lookup_insert_eq.
Qed.
End roundtrip.

(** ** Polling with locks *)

Section lock.
Context `{Planner, JsonColumn, Json, Libm}.
Context (e : engine) (d : LeaseDialect) (l : LockDialect) (table : string) (src : Source).
Context (Hd : (e, d, Some l) ∈ queue_dialects)
  (Hsrc : source_over table d (Some l) StrategyLockForUpdate src).

Lemma Poll_lock max s : Poll src max s = pollLock src l max s.
Proof using Hsrc. unfold Poll. destruct Hsrc as (_ & -> & _ & -> & _). done. Qed.

(** The locks of [Q'] are locks of [Q]. *)
Definition no_new_lock (Q Q' : queue_table) : Prop :=
  ∀ i v, q_locks Q' !! i = Some v → q_locks Q !! i = Some v.

Lemma wf_closed s Q :
  s_db s !! table = Some (RQueue Q) → wf_queue (s_pos s) Q → closed_in table (s_pos s) (s_db s).
Proof using Type.
  intros Hq Hw Q0 i v Hq0 Hv. simplify_eq. destruct (wq_locks _ _ Hw i v Hv). lia.
Qed.

(** What a claim of a lock leaves. *)
Lemma claim_lock_cases s Q :
  s_db s !! table = Some (RQueue Q) → wf_queue (s_pos s) Q →
  match ClaimLock l QDB table (src_lockedBy src) s with
  | (inr (Some lr), s') => ∃ n i r, reads s n ∧ q_rows Q !! i = Some r ∧ lockable n r = true ∧
      q_locks Q !! i = None ∧ s_ticks s' = s_ticks s ∧
      s_db s' !! table = Some (RQueue (with_lock i (s_pos s) (Some (counted r)) Q)) ∧
      wf_queue (s_pos s') (with_lock i (s_pos s) (Some (counted r)) Q) ∧
      lr = mkLockedRow i (q_msg_id r) (q_headers r) (q_payload r) (q_delivery_count r + 1)
             (mkTx (s_pos s) (tx_start (lr_Tx lr)))
  | (_, s') => ∃ Q', s_db s' !! table = Some (RQueue Q') ∧ all_kept Q Q' ∧ no_new_lock Q Q'
  end.
Proof using Hd Hsrc.
  intros Hq Hw. pose proof Hsrc as [(Hv & _) _]. destruct (queue_dialects_laws e d (Some l) Hd) as [_ Hll].
  specialize (Hll l eq_refl).
  pose proof (ClaimLock_closes table s (src_lockedBy src) (wf_closed s Q Hq Hw)) as Hcl.
  pose proof (run_qop_means e d (Some l) table (OClaimLock (src_lockedBy src)) s Q Hd Hv Hq Hw) as Hm.
  cbn [run_qop] in Hm. unfold ret in Hm.
  assert (∀ Q', s_db (ClaimLock l QDB table (src_lockedBy src) s).2 !! table = Some (RQueue Q') →
    closed_in table (s_pos s) (s_db (ClaimLock l QDB table (src_lockedBy src) s).2) →
    ∀ ev, qstep e Q ev Q' → (ev = EvNone ∨ ev = EvRelease (s_pos s) ∨ ∃ n i, ev = EvLock (s_pos s) n i) →
    all_kept Q Q' ∧ no_new_lock Q Q') as Hend.
  { intros Q' Hq' Hc ev Hst Hev. split.
    - eapply (kept_event e _ Q ev Q' Hw Hst); intros * ->; naive_solver.
    - intros i v Hi. pose proof (Hc Q' i v Hq' Hi) as Hne.
      destruct Hev as [->|[->|(n & j & ->)]]; inversion Hst; subst; cbn in Hi; [done| |].
      + by apply map_lookup_filter_Some in Hi as [? _].
      + destruct (decide (j = i)) as [->|Hj]; [|by rewrite lookup_insert_ne in Hi].
        rewrite lookup_insert_eq in Hi. by injection Hi as <-. }
  destruct (ClaimLock l QDB table (src_lockedBy src) s) as [[err|[lr|]] s']; cbn [fst snd] in *;
    destruct Hm as (Ht & Hp & ev & Q' & Hst & Hq' & Hmean & Htx).
  - exists Q'. split; [done|]. apply (Hend Q' Hq' Hcl ev Hst).
    destruct Hmean as [->|[(lr & [[=]|(? & [=])] & _)|[(? & _ & ->)|(_ & res' & Hr)]]]; [by left|by right; left|].
    destruct res' as [| | |[lr|]|]; cbn in Hr; try done.
    + destruct Hr as (n & i & r & ids & _ & _ & _ & -> & _). right; right. by exists n, i.
    + destruct Hr as [-> _]. by left.
  - destruct Hmean as (n & i & r & ids & Hn & Hpk & Hr & -> & Hlr).
    assert (i ∈ pick_ids (lockable n) Q) as (r' & Hr' & Hl & Hi)%elem_of_pick_ids by (rewrite Hpk; by left).
    assert (wf_queue (s_pos s') Q') as Hw' by (by eapply qstep_wf).
    simplify_eq. inversion Hst; subst. simplify_eq. exists n, i, r. auto 10.
  - exists Q'. split; [done|]. apply (Hend Q' Hq' Hcl ev Hst). destruct Hmean as [-> _]. by left.
Qed.

Lemma kept_lock i n v Q Q' : all_kept (with_lock i n v Q) Q' → all_kept Q Q'.
Proof using Type. by intros Hk j r Hr; apply Hk. Qed.

(** Giving back a row that cannot be read closes its transaction. *)
Lemma penalty_closes lr delay s Q i n v :
  tx_id (lr_Tx lr) = n → s_db s !! table = Some (RQueue (with_lock i n v Q)) →
  wf_queue (s_pos s) (with_lock i n v Q) →
  ∃ Q', s_db (NackLock l lr table delay s).2 !! table = Some (RQueue Q') ∧ all_kept Q Q' ∧ no_new_lock Q Q'.
Proof using Hd Hsrc.
  intros Hn Hq Hw. pose proof Hsrc as [(Hv & _) _]. destruct (queue_dialects_laws e d (Some l) Hd) as [_ Hll].
  specialize (Hll l eq_refl). pose proof (NackLock_closes table s lr delay) as Hcl. rewrite Hn in Hcl.
  pose proof (run_qop_means e d (Some l) table (ONackLock lr delay) s _ Hd Hv Hq Hw) as Hm.
  cbn [run_qop] in Hm. unfold ret in Hm. destruct (NackLock l lr table delay s) as [res s']. cbn [fst snd] in *.
  destruct Hm as (_ & _ & ev & Q' & Hst & Hq' & Hmean & _). exists Q'. split; [done|].
  assert (ev = EvNone ∨ ev = EvRelease n ∨ ∃ j vis, ev = EvLockNack n j vis) as Hev.
  { rewrite <- Hn. destruct res as [err|u]; cbn in Hmean.
    - destruct Hmean as [->|[(lr' & [[=]|(? & [= <- _])] & ->)|[(? & [=] & _)|(_ & res' & Hr)]]]; [by left|by right; left|].
      destruct res'; cbn in Hr; try done. destruct Hr as (n' & _ & ->). right; right; eauto.
    - destruct Hmean as (n' & _ & ->). right; right; eauto. }
  split.
  - apply (kept_lock i n v). eapply (kept_event e _ _ ev Q' Hw Hst); intros * ->; naive_solver.
  - intros j w Hj. pose proof (Hcl Q' j w Hq' Hj) as Hne.
    assert (q_locks (with_lock i n v Q) !! j = Some w → q_locks Q !! j = Some w) as Hold.
    { cbn. destruct (decide (i = j)) as [->|Hij]; [|by rewrite lookup_insert_ne].
      rewrite lookup_insert_eq. by intros [= <-]. }
    apply Hold. destruct Hev as [->|[->|(j' & vis & ->)]]; inversion Hst; subst; [done| |].
    + by apply map_lookup_filter_Some in Hj as [? _].
    + unfold publish in Hj. cbn in Hj |- *. apply map_lookup_filter_Some in Hj as [Hj _].
      destruct (decide (j' = j)) as [->|Hij]; [|by rewrite lookup_insert_ne in Hj].
      rewrite lookup_insert_eq in Hj. by injection Hj as <-.
Qed.

(** A poll with locks delivers at most one message, and keeps a transaction
    open only for it: the delivery holds the row of a message that was neither
    leased nor locked, and settles by that row's transaction; with no delivery,
    whether nothing was lockable, the headers could not be decoded or something
    failed, no transaction is left open.  No row leaves the table. *)
Theorem sql_poll_lock_exact max s Q :
  s_db s !! table = Some (RQueue Q) → wf_queue (s_pos s) Q →
  let '(res, s') := Poll src max s in
  ∃ Q', s_db s' !! table = Some (RQueue Q') ∧ all_kept Q Q' ∧
    match res with
    | inr [dl] => ∃ n i r h tx, reads s n ∧ q_rows Q !! i = Some r ∧ lockable n r = true ∧
        q_locks Q !! i = None ∧ DecodeHeaders (q_headers r) = inr h ∧ tx_id tx = s_pos s ∧
        Q' = with_lock i (s_pos s) (Some (counted r)) Q ∧
        let lr := mkLockedRow i (q_msg_id r) (q_headers r) (q_payload r) (q_delivery_count r + 1) tx in
        dl = mkDelivery (envelope (q_payload r) h (q_delivery_count r + 1))
               (AckLock l lr table) (nackLockClosure src l lr)
    | inr (_ :: _) => False
    | inr [] | inl _ => no_new_lock Q Q'
    end.
Proof using Hd Hsrc.
  intros Hq Hw. rewrite Poll_lock. unfold pollLock. rewrite Sq_bind_run. unfold attempt.
  pose proof Hsrc as [(Hv & Htab & Hl & _) _]. rewrite Htab.
  destruct (queue_dialects_laws e d (Some l) Hd) as [Hlaw Hll]. specialize (Hll l eq_refl).
  pose proof (claim_lock_cases s Q Hq Hw) as Hc.
  destruct (ClaimLock l QDB table (src_lockedBy src) s) as [[err|[lr|]] s1].
  - destruct Hc as (Q' & Hq' & Hk & Hn).
    destruct (classify_run (A := list Delivery) (src_base src) table err s1) as (s' & -> & Hdb & _ & _); [done..| |].
    { rewrite Hl. apply SchemaExists_probe. }
    exists Q'. split; [congruence|done].
  - destruct Hc as (n & i & r & Hn & Hr & Hlk & Hi & Ht & Hq1 & Hw1 & Hlr).
    assert (∀ Q', Q' = with_lock i (s_pos s) (Some (counted r)) Q → all_kept Q Q') as Hkeep
      by (intros Q' ->; by intros j r' Hj; exists r').
    assert (lr_Headers lr = q_headers r ∧ tx_id (lr_Tx lr) = s_pos s) as [Hh Htx] by by rewrite Hlr.
    rewrite Hh. destruct (DecodeHeaders (q_headers r)) as [er|h] eqn:Hdec.
    + rewrite Sq_bind_run. unfold attempt.
      destruct (penalty_closes lr (corrupt_penalty (lr_DeliveryCount lr)) s1 Q i _ _ Htx Hq1 Hw1) as (Q2 & Hq2 & Hk2 & Hn2).
      destruct (NackLock l lr table _ s1) as [[er'|u] s2]; by exists Q2.
    + eexists. split; [done|]. split; [by apply Hkeep|]. exists n, i, r, h, (lr_Tx lr).
      do 7 (split; [done|]). destruct lr as [? ? ? ? ? tx]. cbn in Hlr. injection Hlr as -> -> -> -> -> _.
      cbn. unfold ackLockClosure. by rewrite Htab.
  - destruct Hc as (Q' & Hq' & Hk & Hn). by exists Q'.
Qed.
End lock.

(** ** Runs *)

Definition double_pow : Libm := {| math_Pow _ y := y |}.
#[local] Existing Instance demo_json.
#[local] Existing Instance double_pow.
#[local] Existing Instance scan_order.
#[local] Existing Instance text_column.

Definition demo_dialect : dialect := mkDialect sqliteDialect None "*sqlite.dialect".
Definition demo_source : Source :=
  mkSource (mkAdapterBase "q" demo_dialect) StrategyLeaseClaim defaultLeaseTTL "w" None.
Definition demo_outbound : Outbound unit := mkOutbound (mkAdapterBase "q" demo_dialect) None false.

Lemma demo_source_built :
  NewPollingSource (Ctx := unit) [] true "q" (Some demo_dialect) [Some (WithLockedBy "w")] = inr demo_source.
Proof. reflexivity. Qed.
Lemma demo_source_over : source_over "q" sqliteDialect None StrategyLeaseClaim demo_source.
Proof. split; [done|]. split; [done|]. split; [done|]. split; [done|]. by left. Qed.

Lemma sqlite_in : (SQLite, sqliteDialect, None) ∈ queue_dialects.
Proof. by right; right; left. Qed.

(** How many messages a poll delivered. *)
Definition delivered_count (r : error + list Delivery) : option nat :=
  match r with inl _ => None | inr ds => Some (length ds) end.
Lemma delivered_one r : delivered_count r = Some 1%nat → ∃ dl, r = inr [dl].
Proof. destruct r as [|[|dl []]]; [done..| |done]. intros _. by exists dl. Qed.

(** One message sent at 0, and what its poll sees. *)
Definition demo_sent : session := (Send demo_outbound tt demo_msg (clocked Z.of_nat)).2.
Definition demo_table : queue_table := add_row 1 (new_row "m1" ["{"; "}"]%char [] 0) empty_queue.

Lemma demo_sent_table : s_db demo_sent !! "q" = Some (RQueue demo_table).
Proof. vm_compute. reflexivity. Qed.
Lemma demo_table_wf p : wf_queue p demo_table.
Proof. apply (wf_add p SQLite empty_queue); [apply wf_empty_queue|done|done|done]. Qed.

Lemma sql_poll_exact_witness :
  ∃ dl Q', Poll demo_source 10 demo_sent = (inr [dl], (Poll demo_source 10 demo_sent).2) ∧
    s_db (Poll demo_source 10 demo_sent).2 !! "q" = Some (RQueue Q') ∧ all_kept demo_table Q'.
Proof.
  pose proof (sql_poll_exact SQLite sqliteDialect None "q" demo_source sqlite_in demo_source_over 10 demo_sent
    demo_table demo_sent_table (demo_table_wf _) ltac:(lia)) as Hp.
  destruct (delivered_one (Poll demo_source 10 demo_sent).1) as [dl Hdl]; [vm_compute; reflexivity|].
  destruct (Poll demo_source 10 demo_sent) as [res s']. cbn in Hdl. subst res.
  destruct Hp as (Q' & Hq' & Hk & _). by exists dl, Q'.
Defined.

(** Acknowledged under another token, and under its own. *)
Lemma sql_delivery_settles_witness :
  let s := (Poll demo_source 10 demo_sent).2 in
  (∃ err, (source_ackClosure demo_source 1 7 s).1 = inl err ∧ Is err ErrStaleLease = true) ∧
  ∃ Q, s_db s !! "q" = Some (RQueue Q) ∧ held Q 1 "w" 1.
Proof.
  intros s. split; [eexists; vm_compute; done|].
  set (Q := set_rows (update_ids (leased 1 "w") [1]) demo_table).
  assert (s_db s !! "q" = Some (RQueue Q)) as Hq by (vm_compute; reflexivity).
  destruct (sql_delivery_settles SQLite sqliteDialect None "q" demo_source sqlite_in demo_source_over 1 1 true 0 s Q Hq)
    as [Hack _].
  assert ((source_ackClosure demo_source 1 1 s).1 = inr tt) as Hok by (vm_compute; reflexivity).
  destruct (source_ackClosure demo_source 1 1 s) as [r s']. cbn in Hok. subst r.
  exists Q. split; [done|]. apply Hack.
Defined.

(** Strict, with the caller's transaction and without one. *)
Definition shared_outbound : Outbound (option Tx) :=
  mkOutbound (mkAdapterBase "q" demo_dialect) (Some (λ tx, (QTx <$> tx, None))) true.

Lemma sql_send_exact_witness :
  (∃ n Q', s_db (Send shared_outbound (Some (mkTx 0 0)) demo_msg (clocked Z.of_nat)).2 =
     <["q" := RQueue Q']> (s_db (clocked Z.of_nat)) ∧ sent SQLite demo_msg 0 empty_queue n Q') ∧
  Send shared_outbound None demo_msg (clocked Z.of_nat) = (inl (Sentinel ErrNoSharedTransaction), clocked Z.of_nat).
Proof.
  split; [|reflexivity].
  pose proof (sql_send_exact SQLite sqliteDialect None "q" shared_outbound sqlite_in
    ltac:(done) (Some (mkTx 0 0)) demo_msg 0 (clocked Z.of_nat) empty_queue eq_refl) as Hx.
  assert ((SendAfter shared_outbound (Some (mkTx 0 0)) demo_msg 0 (clocked Z.of_nat)).1 = inr tt) as Hok
    by (vm_compute; reflexivity).
  unfold Send. destruct (SendAfter shared_outbound (Some (mkTx 0 0)) demo_msg 0 (clocked Z.of_nat)) as [r s'].
  cbn in Hok. subst r. cbn zeta in Hx.
  destruct Hx as (n & Q' & Hdb & Hs & _); [intros r q [= <-] [= <-]; by eexists|]. by exists n, Q'.
Defined.

Lemma demo_column_laws : JsonColumnLaws.
Proof.
  intros e m b b' Hm [= ->]. split; [|done]. cbn in Hm. case_decide; [|done]. by injection Hm as <-.
Qed.

Lemma sql_send_poll_roundtrip_witness :
  ∃ dl ds h s2, Poll demo_source 10 demo_sent = (inr ds, s2) ∧ dl ∈ ds ∧ Msg dl = envelope [] h 1 ∧
    header_back (msg_headers demo_msg) h.
Proof.
  destruct (sql_send_poll_roundtrip demo_json_laws demo_column_laws SQLite sqliteDialect None "q"
    demo_outbound demo_source sqlite_in ltac:(done) demo_source_over tt demo_msg 0 (clocked Z.of_nat) demo_sent
    empty_queue ltac:(intros k _; exact I) eq_refl eq_refl (wf_empty_queue _) ltac:(vm_compute; reflexivity))
    as (i & r & n & Q1 & _ & Hq1 & Hi & _ & _ & Hpoll).
  assert (Q1 = demo_table) as -> by (pose proof demo_sent_table; congruence).
  unfold demo_table in Hi. cbn in Hi. apply lookup_singleton_Some in Hi as [<- <-].
  destruct (delivered_one (Poll demo_source 10 demo_sent).1) as [dl0 Hds]; [vm_compute; reflexivity|].
  set (ds := [dl0]) in Hds.
  destruct (Poll demo_source 10 demo_sent) as [res s2] eqn:E. cbn in Hds. subst res.
  destruct (Hpoll 10 ds s2) as (dl & payload & h & Q2 & Hin & [= <-] & Hm & Hb & _).
  - vm_compute. reflexivity.
  - intros n' (k & Hk & ->). replace (tk_now (s_ticks demo_sent k)) with (Z.of_nat k) by (vm_compute; reflexivity).
    cbn. lia.
  - exact E.
  - exists dl, ds, h, s2. split; [reflexivity|]. split; [exact Hin|]. split; [exact Hm|exact Hb].
Defined.

(** The same message, under a lock of postgres. *)
Definition lock_dialect_value : dialect := mkDialect postgresDialect (Some postgresLockDialect) "*postgres.dialect".
Definition lock_source : Source :=
  mkSource (mkAdapterBase "q" lock_dialect_value) StrategyLockForUpdate defaultLeaseTTL "w" (Some postgresLockDialect).
Lemma lock_source_over : source_over "q" postgresDialect (Some postgresLockDialect) StrategyLockForUpdate lock_source.
Proof. split; [done|]. split; [done|]. split; [done|]. split; [done|]. by right. Qed.

Lemma sql_poll_lock_exact_witness :
  ∃ dl Q', (Poll lock_source 10 demo_sent).1 = inr [dl] ∧
    s_db (Poll lock_source 10 demo_sent).2 !! "q" = Some (RQueue Q') ∧ all_kept demo_table Q'.
Proof.
  pose proof (sql_poll_lock_exact Postgres postgresDialect postgresLockDialect "q" lock_source
    ltac:(by left) lock_source_over 10 demo_sent demo_table demo_sent_table (demo_table_wf _)) as Hp.
  destruct (delivered_one (Poll lock_source 10 demo_sent).1) as [dl Hdl]; [vm_compute; reflexivity|].
  destruct (Poll lock_source 10 demo_sent) as [res s']. cbn in Hdl. subst res.
  destruct Hp as (Q' & Hq' & Hk & _). by exists dl, Q'.
Defined.
