(* ===== verification/CronSql.v ===== *)
(** * The SQL coordinators of scheduled sources

    [adapter/cron]: the identifiers of [sqlutil.go], the statements and the three
    built-in [LockerDialect]s and [ElectorDialect]s of [dialect.go], and
    [SQLLocker] ([sqllock.go]) and [SQLElector] ([sqlelector.go]) over them.

    The handle a coordinator is given is the pool: each statement commits by
    itself, and the statements of other processes come between those of one call.
    A call is therefore not a function of the database but a [prog], a tree of
    the statements it issues, each with what the call does next with the answer. *)

From S2P Require Import Prelude Message SqlEngine SqlGroup SqlInbox.
Local Open Scope Z_scope.

#[local] Arguments quote : simpl never.
#[local] Arguments quote_char : simpl never.

(** ** errors.go and sqlutil.go *)

Definition ErrInvalidTableName : sentinel := OtherSentinel "msgin/cron: invalid table name".
Definition ErrNilDialect : sentinel := OtherSentinel "msgin/cron: nil dialect".
Definition ErrInvalidRetention : sentinel :=
  OtherSentinel "msgin/cron: retention (olderThan) must be > 0".
Definition ErrLockerClaimFailed : sentinel :=
  OtherSentinel "msgin/cron: locker claim did not take effect and is not a conflict".
Definition ErrInvalidLeaseTTL : sentinel := OtherSentinel "msgin/cron: lease TTL must be > 0".
Definition ErrElectorAcquireFailed : sentinel :=
  OtherSentinel "msgin/cron: elector acquire did not take effect".

(** Its [identPattern] and quoting functions are those of the queue adapter. *)
Definition validateIdent (name : string) : option error :=
  if negb (identPattern name) then Some (Errorf [Sentinel ErrInvalidTableName] [FStr name])
  else None.
Definition quoteTable (q : string → string) (table : string) : error + string :=
  match validateIdent table with
  | Some err => inl err
  | None => inr (q table)
  end.

(** ** The tables *)

(** A row of the fired-keys table, less [fire_ts], which is in its key. *)
Record fired_row : Type := mkFired { f_scope : string; f_claimed_at : Z }.
(** A row of the lease table, less its key. *)
Record held_lease : Type := mkLease { l_holder : string; l_expires_at : Z }.

Abbreviation fired_table := (@gmap (string * Z) prod_eq_dec prod_countable fired_row).
Abbreviation lease_table := (gmap string held_lease).
Inductive cron_relation : Type :=
  | RFired (F : fired_table)
  | RLease (L : lease_table).
Abbreviation cron_db := (gmap string cron_relation).

(** How a driver brings an instant to the microseconds of a column; sqlite's is
    given microseconds. *)
Class TimeColumn : Type := { column_micros : engine → Z → Z }.

(** ** Programs of statements *)

Inductive prog (A : Type) : Type :=
  | Done (r : error + A)
  | Stmt {B : Type} (f : Z → cron_db → error + (B * cron_db)) (k : error + B → prog A).
Arguments Done {A} r.
Arguments Stmt {A B} f k.

#[export] Instance prog_ret : MRet prog := λ A a, Done (inr a).
#[export] Instance prog_bind : MBind prog := λ A B k,
  fix bind (m : prog A) : prog B :=
    match m with
    | Done (inl e) => Done (inl e)
    | Done (inr a) => k a
    | Stmt f c => Stmt f (λ r, bind (c r))
    end.
Definition pfail {A} (e : error) : prog A := Done (inl e).
(** The result of [m], an error included, as a value. *)
Fixpoint pattempt {A} (m : prog A) : prog (error + A) :=
  match m with
  | Done r => Done (inr r)
  | Stmt f c => Stmt f (λ r, pattempt (c r))
  end.
Definition pstmt {B} (f : Z → cron_db → error + (B * cron_db)) : prog B := Stmt f Done.

(** What one statement does: it is refused, or it takes effect at once; its
    answer may be lost, whether or not it took effect. *)
Definition run_stmt {B} (f : Z → cron_db → error + (B * cron_db)) (t : tick) (db : cron_db)
    : (error + B) * cron_db :=
  match f (tk_now t) db with
  | inl e => (inl (default e (tk_fault t)), db)
  | inr (b, db') =>
      match tk_fault t with
      | None => (inr b, db')
      | Some e => (inl e, if tk_applied t then db' else db)
      end
  end.

(** A call alone on the database, its statements at the ticks from [n]. *)
Fixpoint run_alone {A} (ticks : nat → tick) (n : nat) (p : prog A) (db : cron_db)
    : (error + A) * cron_db * nat :=
  match p with
  | Done r => (r, db, n)
  | Stmt f k =>
      let r := run_stmt f (ticks n) db in
      run_alone ticks (S n) (k r.1) r.2
  end.

Lemma run_alone_bind {A B} ticks n (m : prog A) (k : A → prog B) db :
  run_alone ticks n (m ≫= k) db =
    match run_alone ticks n m db with
    | (inl e, db', n') => (inl e, db', n')
    | (inr a, db', n') => run_alone ticks n' (k a) db'
    end.
Proof.
  revert n db. unfold mbind. induction m as [[e|a]|C f c IH]; intros n db; [done|done|].
  cbn. apply IH.
Qed.

Lemma run_alone_attempt {A} ticks n (m : prog A) db :
  run_alone ticks n (pattempt m) db =
    match run_alone ticks n m db with (r, db', n') => (inr r, db', n') end.
Proof.
  revert n db. induction m as [r|C f c IH]; intros n db; [done|]. cbn. apply IH.
Qed.

(** ** The statements *)

Section statements.
Context `{MySQLColumn, TimeColumn} (e : engine).

Definition on_fired {A} (qt : string) (f : fired_table → error + (A * fired_table)) (db : cron_db)
    : error + (A * cron_db) :=
  match unquote (quote_char e) qt with
  | None => inl (Opaque "syntax error")
  | Some t =>
      match db !! t with
      | Some (RFired F) => let? r := f F in inr (r.1, <[t := RFired r.2]> db)
      | _ => inl undefined_table
      end
  end.
Definition on_leases {A} (qt : string) (f : lease_table → error + (A * lease_table)) (db : cron_db)
    : error + (A * cron_db) :=
  match unquote (quote_char e) qt with
  | None => inl (Opaque "syntax error")
  | Some t =>
      match db !! t with
      | Some (RLease L) => let? r := f L in inr (r.1, <[t := RLease r.2]> db)
      | _ => inl undefined_table
      end
  end.

(** The primary key of a fire; sqlite's dialect converts the time itself. *)
Definition fire_key (scope : string) (fire : Z) : string * Z :=
  (id_key e scope, match e with SQLite => Time_UnixMicro fire | _ => column_micros e fire end).

(** [INSERT ... ON CONFLICT (scope, fire_ts) DO NOTHING RETURNING scope] *)
Definition insert_fire_returning (qt scope : string) (fire : Z) : prog string :=
  pstmt (λ now, on_fired qt (λ F,
    match F !! fire_key scope fire with
    | Some _ => inl (Sentinel sql_ErrNoRows)
    | None => inr (scope, <[fire_key scope fire := mkFired scope now]> F)
    end)).
(** [INSERT IGNORE]: the rows it affects. *)
Definition insert_fire_ignore (qt scope : string) (fire : Z) : prog Z :=
  pstmt (λ now, on_fired qt (λ F,
    inr (match ignore_stored scope with
         | None => (0, F)
         | Some scope' =>
             match F !! fire_key scope' fire with
             | Some _ => (0, F)
             | None => (1, <[fire_key scope' fire := mkFired scope' now]> F)
             end
         end))).
(** [SELECT scope ... WHERE scope = ? AND fire_ts = ? LOCK IN SHARE MODE] *)
Definition select_fire (qt scope : string) (fire : Z) : prog string :=
  pstmt (λ _, on_fired qt (λ F,
    match F !! fire_key scope fire with
    | Some r => inr (f_scope r, F)
    | None => inl (Sentinel sql_ErrNoRows)
    end)).
(** [DELETE ... WHERE claimed_at < now - age]: the rows it affects. *)
Definition delete_fired (qt : string) (age : Z) : prog Z :=
  pstmt (λ now, on_fired qt (λ F,
    inr (Z.of_nat (size (filter (λ kr, f_claimed_at kr.2 < now - age) F)),
         filter (λ kr, now - age ≤ f_claimed_at kr.2) F))).

(** [holder = ? OR expires_at < now] *)
Definition takeable (now : Z) (holder : string) (l : held_lease) : bool :=
  String.eqb (id_key e (l_holder l)) (id_key e holder) || (l_expires_at l <? now).

(** [INSERT ... VALUES (scope, holder, now + ttl) ON CONFLICT (scope) DO UPDATE
     SET ... WHERE holder = ? OR expires_at < now RETURNING holder] *)
Definition upsert_lease (qt scope holder : string) (ttl : Z) : prog string :=
  pstmt (λ now, on_leases qt (λ L,
    let L' := <[id_key e scope := mkLease holder (now + ttl)]> L in
    match L !! id_key e scope with
    | None => inr (holder, L')
    | Some l => if takeable now holder l then inr (holder, L') else inl (Sentinel sql_ErrNoRows)
    end)).

(** [UPDATE ... SET holder, expires_at WHERE scope = ? AND (...)]: the rows it
    affects, which mysql counts by whether a value changes. *)
Definition renew_lease (qt scope holder : string) (ttl : Z) : prog Z :=
  pstmt (λ now, on_leases qt (λ L,
    inr (match L !! id_key e scope with
         | None => (0, L)
         | Some l =>
             if takeable now holder l then
               (if String.eqb (l_holder l) holder && (l_expires_at l =? now + ttl) then 0 else 1,
                <[id_key e scope := mkLease holder (now + ttl)]> L)
             else (0, L)
         end))).
(** [SELECT holder, (expires_at < now) ... WHERE scope = ? LOCK IN SHARE MODE],
    and without its second column. *)
Definition select_lease (qt scope : string) : prog (string * bool) :=
  pstmt (λ now, on_leases qt (λ L,
    match L !! id_key e scope with
    | None => inl (Sentinel sql_ErrNoRows)
    | Some l => inr ((l_holder l, l_expires_at l <? now), L)
    end)).
Definition select_holder (qt scope : string) : prog string :=
  pstmt (λ _, on_leases qt (λ L,
    match L !! id_key e scope with
    | None => inl (Sentinel sql_ErrNoRows)
    | Some l => inr (l_holder l, L)
    end)).
(** [INSERT IGNORE INTO ... VALUES (scope, holder, now + ttl)] *)
Definition insert_lease_ignore (qt scope holder : string) (ttl : Z) : prog Z :=
  pstmt (λ now, on_leases qt (λ L,
    inr (match ignore_stored scope, ignore_stored holder with
         | Some scope', Some holder' =>
             match L !! id_key e scope' with
             | Some _ => (0, L)
             | None => (1, <[id_key e scope' := mkLease holder' (now + ttl)]> L)
             end
         | _, _ => (0, L)
         end))).

(** [CREATE TABLE IF NOT EXISTS], and [CREATE INDEX IF NOT EXISTS] on it. *)
Definition create_relation (qt : string) (rel : cron_relation) : prog unit :=
  pstmt (λ _ db,
    match unquote (quote_char e) qt with
    | None => inl (Opaque "syntax error")
    | Some t => inr (tt, match db !! t with Some _ => db | None => <[t := rel]> db end)
    end).
Definition create_claimed_index (qt : string) : prog unit :=
  pstmt (λ _ db,
    match unquote (quote_char e) qt with
    | None => inl (Opaque "syntax error")
    | Some t => match db !! t with Some _ => inr (tt, db) | None => inl undefined_table end
    end).
End statements.

(** [res.RowsAffected()], which a driver may fail. *)
Definition RowsAffected (n : Z) : prog Z := pstmt (λ _ db, inr (n, db)).

(** ** The SPI

    The handle is the pool in every call of the package, and is left out. *)

Record LockerDialect : Type := mkLockerDialect {
  ClaimFire : string → string → Z → prog bool;
  PurgeFired : string → Z → prog Z;
  EnsureFiredSchema : string → prog unit
}.
Record ElectorDialect : Type := mkElectorDialect {
  AcquireOrRenew : string → string → string → Z → prog bool;
  EnsureLeaseSchema : string → prog unit
}.

Definition cron_quoted {A} (e : engine) (table : string) (k : string → prog A) : prog A :=
  match quoteTable (quote (quote_char e)) table with
  | inl err => pfail err
  | inr qt => k qt
  end.

Section dialects.
Context `{MySQLColumn, TimeColumn} (e : engine).

(** postgres and sqlite *)
Definition claim_fire_returning (table scope : string) (fire : Z) : prog bool :=
  cron_quoted e table (λ qt,
    returned ← pattempt (insert_fire_returning e qt scope fire);
    match returned with
    | inl err => if Is err sql_ErrNoRows then mret false else pfail err
    | inr _ => mret true
    end).
Definition purge_fired (table : string) (olderThan : Z) : prog Z :=
  cron_quoted e table (λ qt,
    res ← delete_fired e qt (Microseconds olderThan);
    RowsAffected res).
(** postgres and sqlite: the index is a statement of its own. *)
Definition ensure_fired (table : string) : prog unit :=
  cron_quoted e table (λ qt,
    _ ← create_relation e qt (RFired ∅);
    cron_quoted e (table +:+ "_claimed_idx") (λ _, create_claimed_index e qt)).
(** postgres and sqlite *)
Definition acquire_returning (table scope holder : string) (ttl : Z) : prog bool :=
  cron_quoted e table (λ qt,
    gotHolder ← pattempt (upsert_lease e qt scope holder (Microseconds ttl));
    match gotHolder with
    | inl err => if Is err sql_ErrNoRows then mret false else pfail err
    | inr got => mret (String.eqb got holder)
    end).
Definition ensure_lease (table : string) : prog unit :=
  cron_quoted e table (λ qt, create_relation e qt (RLease ∅)).
End dialects.

Section builtin.
Context `{MySQLColumn, TimeColumn}.

Definition PostgresLocker : LockerDialect :=
  mkLockerDialect (claim_fire_returning Postgres) (purge_fired Postgres) (ensure_fired Postgres).
Definition PostgresElector : ElectorDialect :=
  mkElectorDialect (acquire_returning Postgres) (ensure_lease Postgres).

Definition mysqlClaimFire (table scope : string) (fire : Z) : prog bool :=
  cron_quoted MySQL table (λ qt,
    res ← insert_fire_ignore MySQL qt scope fire;
    n ← RowsAffected res;
    if n =? 1 then mret true
    else
      found ← pattempt (select_fire MySQL qt scope fire);
      match found with
      | inl err =>
          if Is err sql_ErrNoRows
          then pfail (Errorf [Sentinel ErrLockerClaimFailed] [FStr scope; FInt fire])
          else pfail err
      | inr _ => mret false
      end).
(** [MySQLLockerDDL] checks the index's name too, and has the index inline. *)
Definition mysqlEnsureFiredSchema (table : string) : prog unit :=
  cron_quoted MySQL table (λ qt,
    cron_quoted MySQL (table +:+ "_claimed_idx") (λ _, create_relation MySQL qt (RFired ∅))).
Definition MySQLLocker : LockerDialect :=
  mkLockerDialect mysqlClaimFire (purge_fired MySQL) mysqlEnsureFiredSchema.

(** The third step, on an absent row. *)
Definition acquire_absent (qt scope holder : string) (micros : Z) : prog bool :=
  res ← insert_lease_ignore MySQL qt scope holder micros;
  ins ← RowsAffected res;
  if ins =? 1 then mret true
  else
    cur ← pattempt (select_holder MySQL qt scope);
    match cur with
    | inl err =>
        if Is err sql_ErrNoRows
        then pfail (Errorf [Sentinel ErrElectorAcquireFailed] [FStr scope])
        else pfail err
    | inr curHolder => mret (String.eqb curHolder holder)
    end.
(** The second step: who holds the lease the update left alone. *)
Definition acquire_verify (qt scope holder : string) (micros : Z) : prog bool :=
  cur ← pattempt (select_lease MySQL qt scope);
  match cur with
  | inl err =>
      if Is err sql_ErrNoRows then acquire_absent qt scope holder micros else pfail err
  | inr (curHolder, expired) => mret (String.eqb curHolder holder && negb expired)
  end.
Definition mysqlAcquireOrRenew (table scope holder : string) (ttl : Z) : prog bool :=
  cron_quoted MySQL table (λ qt,
    res ← renew_lease MySQL qt scope holder (Microseconds ttl);
    n ← RowsAffected res;
    if 1 <=? n then mret true
    else acquire_verify qt scope holder (Microseconds ttl)).
Definition MySQLElector : ElectorDialect :=
  mkElectorDialect mysqlAcquireOrRenew (ensure_lease MySQL).

Definition SQLiteLocker : LockerDialect :=
  mkLockerDialect (claim_fire_returning SQLite) (purge_fired SQLite) (ensure_fired SQLite).
Definition SQLiteElector : ElectorDialect :=
  mkElectorDialect (acquire_returning SQLite) (ensure_lease SQLite).

Definition locker (e : engine) : LockerDialect :=
  match e with Postgres => PostgresLocker | MySQL => MySQLLocker | SQLite => SQLiteLocker end.
Definition elector (e : engine) : ElectorDialect :=
  match e with Postgres => PostgresElector | MySQL => MySQLElector | SQLite => SQLiteElector end.
End builtin.

(** ** sqllock.go *)

Definition defaultFiredTable : string := "msgin_cron_fired".
Record lockerConfig : Type := mkLockerConfig { lc_table : string }.
Definition WithLockerTable (table : string) (c : lockerConfig) : lockerConfig :=
  mkLockerConfig table.

Record SQLLocker : Type := mkSQLLocker { lk_table : string; lk_dialect : LockerDialect }.

(** [db] is whether the pool is not nil. *)
Definition NewSQLLocker (db : bool) (dialect : option LockerDialect)
    (opts : list (option (lockerConfig → lockerConfig))) : error + SQLLocker :=
  if negb db then inl (Sentinel ErrNilAdapter)
  else
    match dialect with
    | None => inl (Sentinel ErrNilDialect)
    | Some d =>
        match apply_opts opts (mkLockerConfig defaultFiredTable) with
        | inl i => inl (nilOptionAt "cron.NewSQLLocker" i)
        | inr cfg =>
            match validateIdent (lc_table cfg) with
            | Some err => inl err
            | None => inr (mkSQLLocker (lc_table cfg) d)
            end
        end
    end.

Definition Claim (l : SQLLocker) (scope : string) (fire : Z) : prog bool :=
  ClaimFire (lk_dialect l) (lk_table l) scope fire.
Definition Locker_Purge (l : SQLLocker) (olderThan : Z) : prog Z :=
  if olderThan <=? 0 then pfail (Sentinel ErrInvalidRetention)
  else PurgeFired (lk_dialect l) (lk_table l) olderThan.
Definition Locker_EnsureSchema (l : SQLLocker) : prog unit :=
  EnsureFiredSchema (lk_dialect l) (lk_table l).

(** ** sqlelector.go *)

Definition defaultLeaseTable : string := "msgin_cron_leader".
Definition defaultLeaseTTL : Z := 30 * second.
Record electorConfig : Type := mkElectorConfig {
  ec_table : string;
  ec_instanceID : string;
  ec_leaseTTL : Z;
  ec_ttlSet : bool
}.
Definition WithElectorTable (table : string) (c : electorConfig) : electorConfig :=
  mkElectorConfig table (ec_instanceID c) (ec_leaseTTL c) (ec_ttlSet c).
Definition WithElectorInstanceID (id : string) (c : electorConfig) : electorConfig :=
  if String.eqb id "" then c
  else mkElectorConfig (ec_table c) id (ec_leaseTTL c) (ec_ttlSet c).
Definition WithLeaseTTL (d : Z) (c : electorConfig) : electorConfig :=
  mkElectorConfig (ec_table c) (ec_instanceID c) d true.

Record SQLElector : Type := mkSQLElector {
  el_table : string;
  el_instanceID : string;
  el_leaseTTL : Z;
  el_dialect : ElectorDialect
}.

(** [random] is what the random source fills the 16 bytes with. *)
Definition randomID (random : bytes) : string := EncodeToString random.
Definition NewSQLElector (random : bytes) (db : bool) (dialect : option ElectorDialect)
    (opts : list (option (electorConfig → electorConfig))) : error + SQLElector :=
  if negb db then inl (Sentinel ErrNilAdapter)
  else
    match dialect with
    | None => inl (Sentinel ErrNilDialect)
    | Some d =>
        match apply_opts opts (mkElectorConfig defaultLeaseTable (randomID random) defaultLeaseTTL false) with
        | inl i => inl (nilOptionAt "cron.NewSQLElector" i)
        | inr cfg =>
            match validateIdent (ec_table cfg) with
            | Some err => inl err
            | None =>
                if ec_ttlSet cfg && (ec_leaseTTL cfg <=? 0)
                then inl (Sentinel ErrInvalidLeaseTTL)
                else inr (mkSQLElector (ec_table cfg) (ec_instanceID cfg) (ec_leaseTTL cfg) d)
            end
        end
    end.

Definition IsLeader (el : SQLElector) (scope : string) : prog bool :=
  AcquireOrRenew (el_dialect el) (el_table el) scope (el_instanceID el) (el_leaseTTL el).
Definition Elector_EnsureSchema (el : SQLElector) : prog unit :=
  EnsureLeaseSchema (el_dialect el) (el_table el).
