(* ===== verification/CronPool.v ===== *)
(** * Interleaved calls of many processes on one database

    A pool of calls, each a program of autocommitted statements; an execution
    starts calls and runs one statement of one call at a time.  What every
    execution keeps is proved by a rely-guarantee argument over a ghost state:
    [rg] says of one program that, whatever the other calls do within the rely,
    each of its statements keeps the invariant and moves the ghost state within
    the rely, and that its result satisfies a postcondition. *)

From S2P Require Import Prelude Message SqlEngine CronSql.
Local Open Scope Z_scope.

Section pool.
Context {Call Reply : Type} (body : Call → prog Reply).

Record pool : Type := mkPool {
  p_db : cron_db;
  p_calls : gmap nat (Call * prog Reply)
}.
(** A call starts under an unused number; a call runs its next statement. *)
Inductive event : Type :=
  | EStart (i : nat) (c : Call)
  | EStmt (i : nat) (t : tick).

Definition pool_step (p : pool) (ev : event) : option pool :=
  match ev with
  | EStart i c =>
      match p_calls p !! i with
      | Some _ => None
      | None => Some (mkPool (p_db p) (<[i := (c, body c)]> (p_calls p)))
      end
  | EStmt i t =>
      match p_calls p !! i with
      | Some (c, Stmt f k) =>
          let r := run_stmt f t (p_db p) in
          Some (mkPool r.2 (<[i := (c, k r.1)]> (p_calls p)))
      | _ => None
      end
  end.
Fixpoint pool_exec (evs : list event) (p : pool) : option pool :=
  match evs with
  | [] => Some p
  | ev :: evs => pool_step p ev ≫= pool_exec evs
  end.

(** What call [i] answered, and whether every started call has. *)
Definition answered (p : pool) (i : nat) (c : Call) (r : error + Reply) : Prop :=
  p_calls p !! i = Some (c, Done r).
Definition quiescent (p : pool) : Prop :=
  ∀ i c q, p_calls p !! i = Some (c, q) → ∃ r, q = Done r.

(** What an execution is assumed to start, and the ticks at which its calls'
    statements run. *)
Fixpoint exec_ok (ok_call : Call → Prop) (ok : Call → tick → Prop) (evs : list event) (p : pool) : Prop :=
  match evs with
  | [] => True
  | ev :: evs =>
      match ev with
      | EStart _ c => ok_call c
      | EStmt i t => match p_calls p !! i with Some (c, _) => ok c t | None => True end
      end ∧
      match pool_step p ev with Some p' => exec_ok ok_call ok evs p' | None => True end
  end.
End pool.
Arguments mkPool {Call Reply} _ _.
Arguments p_db {Call Reply} _.
Arguments p_calls {Call Reply} _.
Arguments EStart {Call} _ _.
Arguments EStmt {Call} _ _.

Lemma exec_ok_weaken {Call Reply} (body : Call → prog Reply) ok_call (ok ok' : Call → tick → Prop) evs p :
  (∀ c t, ok c t → ok' c t) → exec_ok body ok_call ok evs p → exec_ok body ok_call ok' evs p.
Proof.
  intros Hok. revert p. induction evs as [|ev evs IH]; intros p; [done|]. intros [Hev Hrest].
  split; [|destruct (pool_step body p ev); [by apply IH|done]].
  destruct ev as [i c|i t]; [done|]. destruct (p_calls p !! i) as [[c q]|]; [by apply Hok|done].
Qed.

(** ** Rely-guarantee *)

Section rely.
Context {G : Type} (Inv : G → cron_db → Prop).

(** A postcondition that moves within [rely] cannot break. *)
Definition stable {A} (rely : G → G → Prop) (Post : G → A → Prop) : Prop :=
  ∀ g g' r, rely g g' → Post g r → Post g' r.

Section one.
Context (ok : tick → Prop) (rely guar : G → G → Prop) `{!PreOrder rely, !Reflexive guar}.

Fixpoint rg {A} (Post : G → error + A → Prop) (g : G) (p : prog A) : Prop :=
  match p with
  | Done r => Post g r
  | Stmt f k =>
      ∀ g' t db, rely g g' → Inv g' db → ok t →
        ∃ g'', guar g' g'' ∧ Inv g'' (run_stmt f t db).2 ∧ rg Post g'' (k (run_stmt f t db).1)
  end.

Lemma rg_rely {A} (Post : G → error + A → Prop) g g' p :
  stable rely Post → rely g g' → rg Post g p → rg Post g' p.
Proof.
  intros Hs Hr. destruct p as [r|B f k]; cbn; [by apply Hs|].
  intros H g1 t db H1. apply H. by trans g'.
Qed.

Lemma rg_weaken {A} (P Q : G → error + A → Prop) g p :
  (∀ g' r, P g' r → Q g' r) → rg P g p → rg Q g p.
Proof.
  intros HPQ. revert g. induction p as [r|B f k IH]; intros g; cbn; [by apply HPQ|].
  intros H g' t db Hr HI Ht. destruct (H g' t db Hr HI Ht) as (g'' & Hr' & HI' & Hk).
  exists g''. split; [done|]. split; [done|]. by apply IH.
Qed.

Lemma rg_bind {A B} (Post : G → error + B → Prop) g (m : prog A) (k : A → prog B) :
  rg (λ g r, match r with inl e => Post g (inl e) | inr a => rg Post g (k a) end) g m →
  rg Post g (m ≫= k).
Proof.
  revert g. unfold mbind. induction m as [[e|a]|C f c IH]; intros g; cbn; [done|done|].
  intros H g' t db Hr HI Ht. destruct (H g' t db Hr HI Ht) as (g'' & Hr' & HI' & Hk).
  exists g''. split; [done|]. split; [done|]. by apply IH.
Qed.

Lemma rg_attempt {A} (Post : G → error + (error + A) → Prop) g (m : prog A) :
  rg (λ g r, Post g (inr r)) g m → rg Post g (pattempt m).
Proof.
  revert g. induction m as [r|C f c IH]; intros g; cbn; [done|].
  intros H g' t db Hr HI Ht. destruct (H g' t db Hr HI Ht) as (g'' & Hr' & HI' & Hk).
  exists g''. split; [done|]. split; [done|]. by apply IH.
Qed.

(** A statement is judged by what it does when it is not refused, its answer
    lost or not, and by what a refusal says. *)
Lemma rg_stmt {B} (f : Z → cron_db → error + (B * cron_db)) (Post : G → error + B → Prop) g :
  (∀ g' t db, rely g g' → Inv g' db → ok t →
     match f (tk_now t) db with
     | inl e => Post g' (inl (default e (tk_fault t)))
     | inr (b, db') =>
         ∃ g'', guar g' g'' ∧ Inv g'' db' ∧
           match tk_fault t with
           | None => Post g'' (inr b)
           | Some e => Post g' (inl e) ∧ Post g'' (inl e)
           end
     end) →
  rg Post g (pstmt f).
Proof.
  intros H g' t db Hr HI Ht. specialize (H g' t db Hr HI Ht). unfold run_stmt.
  destruct (f (tk_now t) db) as [e|[b db']]; [by exists g'|].
  destruct H as (g'' & Hr' & HI' & HP).
  destruct (tk_fault t) as [e|]; [|by exists g''].
  destruct HP as [HP HP'], (tk_applied t); [by exists g''|by exists g'].
Qed.
End one.

Lemma rg_ok {A} (ok ok' : tick → Prop) rely guar (Post : G → error + A → Prop) g p :
  (∀ t, ok' t → ok t) → rg ok rely guar Post g p → rg ok' rely guar Post g p.
Proof.
  intros Hok. revert g. induction p as [r|B f k IH]; intros g; cbn; [done|].
  intros H g' t db Hr HI Ht. destruct (H g' t db Hr HI (Hok t Ht)) as (g'' & Hr' & HI' & Hk).
  exists g''. split; [done|]. split; [done|]. by apply IH.
Qed.

(** Every execution keeps the invariant, and each call what [rg] says of it.  A
    call's moves are within what the others rely on; a call that has not started
    finds the ghost state [fresh] for it.  The ghost state has moved by the
    guarantees of calls of the pool. *)
Lemma pool_sound {Call Reply} (body : Call → prog Reply) (ok_call : Call → Prop)
    (ok : Call → tick → Prop) (rely : nat → G → G → Prop) `{!∀ i, PreOrder (rely i)} (fresh : nat → G → Prop)
    (guar : nat → Call → G → G → Prop) (Post : nat → Call → G → error + Reply → Prop) :
  (∀ i j c g g', i ≠ j → guar i c g g' → rely j g g' ∧ (fresh j g → fresh j g')) →
  (∀ i c, stable (rely i) (Post i c)) →
  (∀ i c g, ok_call c → fresh i g → rg (ok c) (rely i) (guar i c) (Post i c) g (body c)) →
  ∀ evs p q g,
  Inv g (p_db p) →
  (∀ i, p_calls p !! i = None → fresh i g) →
  (∀ i c r, p_calls p !! i = Some (c, r) → rg (ok c) (rely i) (guar i c) (Post i c) g r) →
  exec_ok body ok_call ok evs p →
  pool_exec body evs p = Some q →
  ∃ g', rtc (λ g g', ∃ i c r, p_calls q !! i = Some (c, r) ∧ guar i c g g') g g' ∧
    Inv g' (p_db q) ∧
    (∀ i c r, p_calls q !! i = Some (c, r) → rg (ok c) (rely i) (guar i c) (Post i c) g' r) ∧
    (∀ i c r, p_calls p !! i = Some (c, r) → ∃ r', p_calls q !! i = Some (c, r')).
Proof.
  intros Hgr Hst Hbody evs. induction evs as [|ev evs IH]; intros p q g HI Hf Hp Hok He; cbn in He.
  { simplify_eq. exists g. eauto using rtc_refl. }
  apply bind_Some in He as (p' & Hs & He). destruct Hok as [Hev Hok]. rewrite Hs in Hok.
  destruct ev as [i c|i t]; cbn in Hs; destruct (p_calls p !! i) as [[c0 [r0|B f k]]|] eqn:E; simplify_eq.
  - destruct (IH (mkPool (p_db p) (<[i:=(c, body c)]> (p_calls p))) q g HI)
      as (g2 & Hr2 & HI2 & Hc & Hk); [| |done|done|].
    { cbn. intros j [Hj _]%lookup_insert_None. by apply Hf. }
    { cbn. intros j d r [[<- [= <- <-]]|[? ?]]%lookup_insert_Some; [|by apply Hp].
      apply Hbody; [done|]. by apply Hf. }
    exists g2. repeat (split; [done|]). intros j d r Hj. eapply Hk. cbn.
    rewrite lookup_insert_ne; [exact Hj|]. intros ->. congruence.
  - destruct (Hp i c0 _ E g t (p_db p) (reflexivity g) HI Hev) as (g1 & Hr & HI1 & Hrk).
    destruct (IH (mkPool _ (<[i:=(c0, k (run_stmt f t (p_db p)).1)]> (p_calls p))) q g1 HI1)
      as (g2 & Hr2 & HI2 & Hc & Hk); [| |done|done|].
    { cbn. intros j [Hj Hn]%lookup_insert_None. eapply Hgr; [done..|]. by apply Hf. }
    { cbn. intros j d r [[<- [= <- <-]]|[? ?]]%lookup_insert_Some; [done|].
      eapply rg_rely; [apply _|done|by eapply Hgr|by apply Hp]. }
    assert (∀ j d r, p_calls p !! j = Some (d, r) → ∃ r', p_calls q !! j = Some (d, r')) as Hk'.
    { intros j d r Hj. destruct (decide (i = j)) as [<-|Hn].
      - simplify_eq. eapply Hk. cbn. apply lookup_insert_eq.
      - eapply Hk. cbn. rewrite lookup_insert_ne; [exact Hj|done]. }
    exists g2. split; [|done]. destruct (Hk' i c0 _ E) as [r' Hr']. eapply rtc_l; [|done]. eauto.
Qed.
End rely.

(** ** A call ends *)

(** The statements a program may issue are at most [n]. *)
Fixpoint bounded {A} (n : nat) (p : prog A) : Prop :=
  match p, n with
  | Done _, _ => True
  | Stmt f k, O => False
  | Stmt f k, S n => ∀ r, bounded n (k r)
  end.
Lemma bounded_le {A} n m (p : prog A) : (n ≤ m)%nat → bounded n p → bounded m p.
Proof.
  revert n m. induction p as [r|B f k IH]; intros n m Hle Hb; [by destruct m|].
  destruct n as [|n]; [done|]. destruct m as [|m]; [lia|]. intros r. eapply IH; [|apply Hb]. lia.
Qed.
Lemma bounded_bind {A B} n m (p : prog A) (k : A → prog B) :
  bounded n p → (∀ a, bounded m (k a)) → bounded (n + m) (p ≫= k).
Proof.
  revert n. unfold mbind. induction p as [[e|a]|C f c IH]; intros n Hp Hk; cbn.
  - by destruct (n + m)%nat.
  - eapply bounded_le; [|apply Hk]. lia.
  - destruct n as [|n]; [done|]. intros r. apply IH; [apply Hp|done].
Qed.
Lemma bounded_attempt {A} n (p : prog A) : bounded n p → bounded n (pattempt p).
Proof.
  revert n. induction p as [r|C f c IH]; intros n Hp; [by destruct n|].
  destruct n as [|n]; [done|]. intros r. apply IH, Hp.
Qed.

(** *** The statements of a call in an execution *)

Section calls_end.
Context {Call Reply : Type} (body : Call → prog Reply) (n : nat) (Hbody : ∀ c, bounded n (body c)).

Fixpoint statements (i : nat) (evs : list (event (Call:=Call))) : nat :=
  match evs with
  | [] => 0
  | EStart _ _ :: evs => statements i evs
  | EStmt j _ :: evs => (if bool_decide (i = j) then 1 else 0) + statements i evs
  end.

(** A call that may still issue [m] statements issues no more. *)
Lemma statements_bounded i evs p q :
  pool_exec body evs p = Some q →
  match p_calls p !! i with
  | Some (c, r) => ∀ m, bounded m r → (statements i evs ≤ m)%nat
  | None => (statements i evs ≤ n)%nat
  end.
Proof using Hbody.
  revert p. induction evs as [|ev evs IH]; intros p He.
  { destruct (p_calls p !! i) as [[c r]|]; cbn; lia. }
  cbn in He. apply bind_Some in He as (p' & Hs & He). specialize (IH p' He).
  destruct ev as [j c|j t]; cbn in Hs |- *; destruct (p_calls p !! j) as [[c0 [r0|B f k]]|] eqn:E;
    simplify_eq; cbn in IH; destruct (decide (i = j)) as [->|Hn].
  - rewrite lookup_insert_eq in IH. rewrite E. by apply IH.
  - rewrite lookup_insert_ne in IH by done. done.
  - rewrite lookup_insert_eq in IH. rewrite E, bool_decide_eq_true_2 by done.
    intros [|m] Hb; [done|]. cbn. specialize (IH m (Hb _)). lia.
  - rewrite lookup_insert_ne in IH by done. rewrite bool_decide_eq_false_2 by done. done.
Qed.

(** No call issues more than [n] statements, and one that has not answered can
    issue its next, whatever the other calls are doing. *)
Lemma calls_end evs db q i :
  pool_exec body evs (mkPool db ∅) = Some q →
  (statements i evs ≤ n)%nat ∧
  ∀ c p, p_calls q !! i = Some (c, p) → (∃ r, answered q i c r) ∨ ∀ t, is_Some (pool_step body q (EStmt i t)).
Proof using Hbody.
  intros He. split; [by apply (statements_bounded i evs _ q He)|].
  intros c [r|B f k] Hi; [left; by exists r|]. right. intros t. cbn. rewrite Hi. by eexists.
Qed.
End calls_end.
