(* ===== verification/CronSafety.v ===== *)
(** * One instance fires

    Safety of the two SQL coordinators against any number of processes: claims,
    elections, purges and schema calls of any instances on any tables, their
    statements interleaved in any order, each of which the driver may fail with
    its effect lost or kept.  Within a window of the server clock no longer than
    the retention, respectively the lease, one call wins a fire, respectively one
    instance leads. *)

From Stdlib Require Import Strings.Ascii.
From S2P Require Import Prelude Message SqlEngine SqlGroup SqlInbox CronSql CronPool.
Local Open Scope Z_scope.

#[local] Arguments quote : simpl never.
#[local] Arguments quote_char : simpl never.

(** ** The calls of the processes *)

Inductive cron_call : Type :=
  | CClaim (table scope : string) (fire : Z)
  | CPurge (table : string) (olderThan : Z)
  | CEnsureFired (table : string)
  | CLead (table scope holder : string) (ttl : Z)
  | CEnsureLease (table : string).
Inductive cron_reply : Type := RWon (b : bool) | RCount (n : Z) | RUnit.

Section calls.
Context `{MySQLColumn, TimeColumn} (e : engine).

Definition cron_body (c : cron_call) : prog cron_reply :=
  match c with
  | CClaim table scope fire => b ← Claim (mkSQLLocker table (locker e)) scope fire; mret (RWon b)
  | CPurge table olderThan => n ← Locker_Purge (mkSQLLocker table (locker e)) olderThan; mret (RCount n)
  | CEnsureFired table => _ ← Locker_EnsureSchema (mkSQLLocker table (locker e)); mret RUnit
  | CLead table scope holder ttl =>
      b ← IsLeader (mkSQLElector table holder ttl (elector e)) scope; mret (RWon b)
  | CEnsureLease table => _ ← Elector_EnsureSchema (mkSQLElector table "" 1 (elector e)); mret RUnit
  end.

(** The key under which a claim is recorded; mysql stores a scope that
    [INSERT IGNORE] may have altered. *)
Definition claim_key (scope : string) (fire : Z) : option (string * Z) :=
  match e with
  | MySQL => (λ s, fire_key e s fire) <$> ignore_stored scope
  | _ => Some (fire_key e scope fire)
  end.
Definition claims (table : string) (K : string * Z) (c : cron_call) : Prop :=
  match c with
  | CClaim table' scope fire => table' = table ∧ claim_key scope fire = Some K
  | _ => False
  end.
End calls.

Definition within (t0 w : Z) (t : tick) : Prop := t0 ≤ tk_now t ≤ t0 + w.

Lemma on_fired_quote {A} e table (f : fired_table → error + (A * fired_table)) db :
  on_fired e (quote (quote_char e) table) f db =
    match db !! table with
    | Some (RFired F) => let? r := f F in inr (r.1, <[table := RFired r.2]> db)
    | _ => inl undefined_table
    end.
Proof. unfold on_fired. by rewrite unquote_quote. Qed.
Lemma on_leases_quote {A} e table (f : lease_table → error + (A * lease_table)) db :
  on_leases e (quote (quote_char e) table) f db =
    match db !! table with
    | Some (RLease L) => let? r := f L in inr (r.1, <[table := RLease r.2]> db)
    | _ => inl undefined_table
    end.
Proof. unfold on_leases. by rewrite unquote_quote. Qed.

Lemma cron_quoted_valid {A} e table (k : string → prog A) :
  validateIdent table = None → cron_quoted e table k = k (quote (quote_char e) table).
Proof. intros Hv. unfold cron_quoted, quoteTable. by rewrite Hv. Qed.

(** ** Programs that keep an invariant *)

Section keeps.
Context {G : Type} (Inv : G → cron_db → Prop) (ok : tick → Prop).
Context (rely guar : G → G → Prop) `{!PreOrder rely, !Reflexive guar}.

(** Every statement keeps the invariant at the ghost state it finds. *)
Definition keeps {A} (p : prog A) : Prop := ∀ g, rg Inv ok rely guar (λ _ _, True) g p.

Lemma keeps_done {A} (r : error + A) : keeps (Done r).
Proof. done. Qed.
Lemma keeps_then {A B} (m : prog A) (k : A → prog B) :
  keeps m → (∀ a, keeps (k a)) → keeps (m ≫= k).
Proof.
  intros Hm Hk g. apply rg_bind. eapply rg_weaken; [|apply Hm].
  intros g' [e|a] _; [done|apply Hk].
Qed.
Lemma keeps_attempt {A} (m : prog A) : keeps m → keeps (pattempt m).
Proof. intros Hm g. apply rg_attempt. eapply rg_weaken; [|apply Hm]. done. Qed.
Lemma keeps_quoted {A} e table (k : string → prog A) :
  keeps (k (quote (quote_char e) table)) → keeps (cron_quoted e table k).
Proof.
  intros Hk. unfold cron_quoted, quoteTable. by destruct (validateIdent table).
Qed.
Lemma keeps_stmt {B} (f : Z → cron_db → error + (B * cron_db)) :
  (∀ g t db b db', Inv g db → ok t → f (tk_now t) db = inr (b, db') → Inv g db') → keeps (pstmt f).
Proof.
  intros H g. apply rg_stmt; [done..|]. intros g' t db _ HI Ht.
  destruct (f (tk_now t) db) as [err|[b db']] eqn:E; [done|]. exists g'. split; [done|].
  split; [by eapply H|]. by destruct (tk_fault t).
Qed.
Lemma keeps_fired {B} e table (f : Z → fired_table → error + (B * fired_table)) :
  (∀ g t db F b F', Inv g db → ok t → db !! table = Some (RFired F) →
     f (tk_now t) F = inr (b, F') → Inv g (<[table := RFired F']> db)) →
  keeps (pstmt (λ now, on_fired e (quote (quote_char e) table) (f now))).
Proof.
  intros H. apply keeps_stmt. intros g t db b db' HI Ht. rewrite on_fired_quote.
  destruct (db !! table) as [[F|L]|] eqn:E; try done.
  destruct (f (tk_now t) F) as [err|[b' F']] eqn:Ef; cbn; [done|]. intros [= -> <-]. by eapply H.
Qed.
Lemma keeps_leases {B} e table (f : Z → lease_table → error + (B * lease_table)) :
  (∀ g t db L b L', Inv g db → ok t → db !! table = Some (RLease L) →
     f (tk_now t) L = inr (b, L') → Inv g (<[table := RLease L']> db)) →
  keeps (pstmt (λ now, on_leases e (quote (quote_char e) table) (f now))).
Proof.
  intros H. apply keeps_stmt. intros g t db b db' HI Ht. rewrite on_leases_quote.
  destruct (db !! table) as [[F|L]|] eqn:E; try done.
  destruct (f (tk_now t) L) as [err|[b' L']] eqn:Ef; cbn; [done|]. intros [= -> <-]. by eapply H.
Qed.
Lemma keeps_rows n : keeps (RowsAffected n).
Proof. apply keeps_stmt. by intros g t db b db' HI _ [= <- <-]. Qed.
(** Reading a table changes nothing. *)
Lemma keeps_reads {B} e table (f : Z → fired_table → error + (B * fired_table)) :
  (∀ now F b F', f now F = inr (b, F') → F' = F) →
  keeps (pstmt (λ now, on_fired e (quote (quote_char e) table) (f now))).
Proof.
  intros H. apply keeps_fired. intros g t db F b F' HI _ Hd Hf%H. subst. by rewrite insert_id.
Qed.
Lemma keeps_reads_leases {B} e table (f : Z → lease_table → error + (B * lease_table)) :
  (∀ now L b L', f now L = inr (b, L') → L' = L) →
  keeps (pstmt (λ now, on_leases e (quote (quote_char e) table) (f now))).
Proof.
  intros H. apply keeps_leases. intros g t db L b L' HI _ Hd Hf%H. subst. by rewrite insert_id.
Qed.
End keeps.

(** ** The locker

    The ghost state says whether the fire is recorded and who recorded it:
    [None] nobody, [Some None] an earlier call, [Some (Some i)] call [i]. *)

Section locker.
Context `{MySQLColumn, TimeColumn} (e : engine) (T : string) (K : string * Z) (t0 : Z).
(** Whether drivers fail and the table may be missing. *)
Context (faults : bool).

Definition owner : Type := option (option nat).

Definition fired_inv (g : owner) (db : cron_db) : Prop :=
  match db !! T with
  | Some (RFired F) =>
      match F !! K with
      | Some r => t0 ≤ f_claimed_at r ∧ g ≠ None
      | None => g = None
      end
  | _ => faults = true ∧ g = None
  end.
Definition fired_rely (i : nat) (g g' : owner) : Prop :=
  g = g' ∨ (g = None ∧ g' ≠ None ∧ g' ≠ Some (Some i)).
Definition fired_guar (i : nat) (c : cron_call) (g g' : owner) : Prop :=
  g = g' ∨ (g = None ∧ g' = Some (Some i) ∧ claims e T K c).
(** The fire is claimed from [t0] on, and no purge of the table removes what was
    recorded since. *)
Definition retains (c : cron_call) (t : tick) : Prop :=
  match c with
  | CClaim _ _ _ => claims e T K c → t0 ≤ tk_now t
  | CPurge table olderThan => table = T → tk_now t - Microseconds olderThan ≤ t0
  | _ => True
  end.
Definition fired_ok (c : cron_call) (t : tick) : Prop := retains c t ∧ (faults = false → tk_fault t = None).

#[local] Instance fired_rely_preorder i : PreOrder (fired_rely i).
Proof.
  split; [by left|]. unfold fired_rely. intros g1 g2 g3 [->|(-> & ? & ?)] [->|(-> & ? & ?)]; auto.
Qed.
#[local] Instance fired_guar_refl i c : Reflexive (fired_guar i c).
Proof. by left. Qed.

Lemma fired_inv_other g db table rel :
  table ≠ T → fired_inv g db → fired_inv g (<[table := rel]> db).
Proof. intros Hn. unfold fired_inv. by rewrite lookup_insert_ne by congruence. Qed.
Lemma fired_inv_row g db F F' :
  fired_inv g db → db !! T = Some (RFired F) → F' !! K = F !! K →
  fired_inv g (<[T := RFired F']> db).
Proof. unfold fired_inv. intros HI HF Hk. rewrite HF in HI. by rewrite lookup_insert_eq, Hk. Qed.
Lemma fired_inv_leases g db table L L' :
  fired_inv g db → db !! table = Some (RLease L) → fired_inv g (<[table := RLease L']> db).
Proof.
  intros HI HL. destruct (decide (table = T)) as [->|Hn]; [|by apply fired_inv_other].
  unfold fired_inv in *. rewrite HL in HI. by rewrite lookup_insert_eq.
Qed.
Lemma fired_inv_create g db table rel :
  (∀ F, rel = RFired F → F = ∅) → fired_inv g db →
  fired_inv g (match db !! table with Some _ => db | None => <[table := rel]> db end).
Proof.
  intros Hrel HI. destruct (db !! table) eqn:E; [done|].
  destruct (decide (table = T)) as [->|Hn]; [|by apply fired_inv_other].
  unfold fired_inv in *. rewrite E in HI. destruct HI as [Hf ->].
  rewrite lookup_insert_eq. destruct rel as [F|L]; [|done]. by rewrite (Hrel F eq_refl).
Qed.

Abbreviation fkeeps i c := (keeps fired_inv (fired_ok c) (fired_rely i) (fired_guar i c)).

Lemma create_keeps i c table rel :
  (∀ F, rel = RFired F → F = ∅) → fkeeps i c (create_relation e (quote (quote_char e) table) rel).
Proof.
  intros Hrel. apply keeps_stmt; [apply _..|]. intros g t db b db' HI _. rewrite unquote_quote.
  intros [= <- <-]. by apply fired_inv_create.
Qed.
Lemma index_keeps i c table : fkeeps i c (create_claimed_index e (quote (quote_char e) table)).
Proof.
  apply keeps_stmt; [apply _..|]. intros g t db b db' HI _. rewrite unquote_quote.
  destruct (db !! table); [|done]. by intros [= <- <-].
Qed.
Lemma delete_keeps i table olderThan :
  fkeeps i (CPurge table olderThan) (delete_fired e (quote (quote_char e) table) (Microseconds olderThan)).
Proof.
  unfold delete_fired. apply keeps_fired; [apply _..|].
  intros g t db F b F' HI [Hage _] HF [= _ <-].
  destruct (decide (table = T)) as [->|Hn]; [|by apply fired_inv_other].
  eapply fired_inv_row; [done..|]. unfold fired_inv in HI. rewrite HF in HI. specialize (Hage eq_refl).
  destruct (F !! K) as [r|] eqn:Hr.
  - apply map_lookup_filter_Some. split; [done|]. cbn. lia.
  - apply map_lookup_filter_None. by left.
Qed.

(** *** A claim of another fire *)

Lemma fired_inv_key g db table F k r :
  (table = T → k ≠ K) → fired_inv g db → db !! table = Some (RFired F) →
  fired_inv g (<[table := RFired (<[k := r]> F)]> db).
Proof.
  intros Hk HI HF. destruct (decide (table = T)) as [->|Hn]; [|by apply fired_inv_other].
  eapply fired_inv_row; [done..|]. by rewrite lookup_insert_ne by auto.
Qed.

Lemma other_returning_keeps i c table scope fire :
  (table = T → fire_key e scope fire ≠ K) → fkeeps i c (claim_fire_returning e table scope fire).
Proof.
  intros Hk. apply keeps_quoted, keeps_then; [apply keeps_attempt|].
  - unfold insert_fire_returning. apply keeps_fired; [apply _..|]. intros g t db F b F' HI _ HF.
    destruct (F !! fire_key e scope fire); [done|]. intros [= _ <-]. by apply fired_inv_key.
  - intros [err|b]; [destruct (Is err sql_ErrNoRows)|]; apply keeps_done.
Qed.

Lemma other_claim_keeps i c table scope fire :
  ¬ claims e T K (CClaim table scope fire) → fkeeps i c (ClaimFire (locker e) table scope fire).
Proof.
  intros Hn. unfold claims, claim_key in Hn. unfold locker.
  destruct e eqn:He; cbn [ClaimFire PostgresLocker MySQLLocker SQLiteLocker];
    try (rewrite <- He; apply other_returning_keeps; rewrite He; naive_solver).
  apply keeps_quoted, keeps_then; [|intros n; apply keeps_then; [by apply keeps_rows; apply _|intros m]].
  - unfold insert_fire_ignore. apply keeps_fired; [apply _..|]. intros g t db F b F' HI _ HF [= Hf].
    destruct (ignore_stored scope) as [s|]; [|simplify_eq; by rewrite insert_id].
    destruct (F !! fire_key MySQL s fire); simplify_eq; [by rewrite insert_id|].
    apply fired_inv_key; [|done..]. intros -> Ek. apply Hn. split; [done|]. cbn. by f_equal.
  - destruct (m =? 1); [apply keeps_done|]. apply keeps_then; [apply keeps_attempt|].
    + apply keeps_reads; [apply _..|]. intros now F b F' E. cbn in E.
      destruct (F !! _); by simplify_eq.
    + intros [err|b]; [destruct (Is err sql_ErrNoRows)|]; apply keeps_done.
Qed.

(** *** A claim of the fire *)

(** A call that says it won recorded the fire; without faults the call that
    recorded it says so, and after any call somebody has. *)
Definition won_post (i : nat) (g : owner) (r : error + bool) : Prop :=
  (r = inr true → g = Some (Some i)) ∧
  (faults = false → (g = Some (Some i) → r = inr true) ∧ g ≠ None).

Lemma won_stable i : stable (fired_rely i) (won_post i).
Proof.
  intros g g' r [->|(-> & Hg & Hi)] [Hw Hf]; [by split|]. split; [intros E; by specialize (Hw E)|].
  intros E. by destruct (Hf E).
Qed.

Abbreviation frg i c := (rg fired_inv (fired_ok c) (fired_rely i) (fired_guar i c)).

Lemma lost_post i g r :
  r ≠ inr true → g ≠ Some (Some i) → (faults = false → g ≠ None) → won_post i g r.
Proof. intros Hr Hg Hf. split; [done|]. intros E. split; [done|by apply Hf]. Qed.
Lemma faulty_post i g r : r ≠ inr true → faults = true → won_post i g r.
Proof. intros Hr Hf. split; [done|]. by rewrite Hf. Qed.
Lemma fault_faulty c t err : fired_ok c t → tk_fault t = Some err → faults = true.
Proof. intros [_ Hf] E. destruct faults; [done|]. by rewrite (Hf eq_refl) in E. Qed.
Lemma rely_fresh i g g' : g ≠ Some (Some i) → fired_rely i g g' → g' ≠ Some (Some i).
Proof. by intros Hg [<-|(_ & _ & ?)]. Qed.

(** What a statement finds in the table. *)
Lemma fired_inv_found g db :
  fired_inv g db →
  faults = true ∧ (∀ F, db !! T ≠ Some (RFired F)) ∨
  ∃ F, db !! T = Some (RFired F) ∧ (is_Some (F !! K) ∧ g ≠ None ∨ F !! K = None ∧ g = None).
Proof.
  unfold fired_inv. destruct (db !! T) as [[F|L]|]; intros HI.
  - right. exists F. split; [done|]. destruct (F !! K) as [r|]; [left|by right]. split; [by eexists|apply HI].
  - left. by destruct HI.
  - left. by destruct HI.
Qed.
Lemma record_inv i c t db F s :
  fired_ok c t → db !! T = Some (RFired F) → F !! K = None → claims e T K c →
  fired_guar i c None (Some (Some i)) ∧
  fired_inv (Some (Some i)) (<[T := RFired (<[K := mkFired s (tk_now t)]> F)]> db).
Proof.
  intros [Ht _] HF HK Hc. split; [by right|]. unfold fired_inv. rewrite !lookup_insert_eq.
  split; [|done]. destruct c; try done. by apply Ht.
Qed.

Lemma returning_claim i c scope fire g :
  validateIdent T = None → claims e T K c → fire_key e scope fire = K → g ≠ Some (Some i) →
  frg i c (won_post i) g (claim_fire_returning e T scope fire).
Proof.
  intros Hv Hc Hk Hg. unfold claim_fire_returning. rewrite cron_quoted_valid by done.
  apply rg_bind, rg_attempt, rg_stmt; [apply _..|]. intros g' t db Hr HI Ht.
  rewrite on_fired_quote, Hk. pose proof (rely_fresh i _ _ Hg Hr) as Hg'.
  destruct (fired_inv_found _ _ HI) as [[Hf HT]|(F & HF & Hrow)].
  - destruct (db !! T) as [[F|L]|] eqn:E; [by edestruct HT|..];
      (destruct (Is _ _); cbn; by apply faulty_post).
  - rewrite HF. destruct Hrow as [[[r Hrow] Hn]|[Hrow ->]]; rewrite Hrow; cbn.
    + destruct (tk_fault t) as [err|] eqn:E; cbn.
      * destruct (Is _ _); cbn; apply faulty_post; eauto using fault_faulty.
      * rewrite bool_decide_eq_true_2 by done. by apply lost_post.
    + exists (Some (Some i)). destruct (record_inv i c t db F scope Ht HF Hrow Hc) as [? ?].
      repeat (split; [done|]). destruct (tk_fault t) as [err|] eqn:E; [|by split].
      split; (destruct (Is _ _); cbn; apply faulty_post; eauto using fault_faulty).
Qed.

(** mysql: the insertion, and the number of its rows. *)
Lemma ignore_claim i c scope fire g :
  claims e T K c → (λ s, fire_key e s fire) <$> ignore_stored scope = Some K → g ≠ Some (Some i) →
  frg i c (λ g r, match r with
                  | inl _ => faults = true
                  | inr n => n = 1 ∧ g = Some (Some i) ∨ n = 0 ∧ g ≠ None ∧ g ≠ Some (Some i)
                  end) g (insert_fire_ignore e (quote (quote_char e) T) scope fire).
Proof.
  intros Hc Hk Hg. apply rg_stmt; [apply _..|]. intros g' t db Hr HI Ht.
  rewrite on_fired_quote. pose proof (rely_fresh i _ _ Hg Hr) as Hg'.
  destruct (fired_inv_found _ _ HI) as [[Hf HT]|(F & HF & Hrow)].
  - destruct (db !! T) as [[F|L]|] eqn:E; [by edestruct HT|done..].
  - rewrite HF. cbn. destruct (ignore_stored scope) as [s|]; [|done]. injection Hk as Hk. rewrite Hk.
    destruct Hrow as [[[r Hrow] Hn]|[Hrow ->]]; rewrite Hrow; cbn.
    + exists g'. split; [by left|]. rewrite insert_id by done. split; [done|].
      destruct (tk_fault t) eqn:E; [split; by eapply fault_faulty|]. by right.
    + exists (Some (Some i)). destruct (record_inv i c t db F s Ht HF Hrow Hc) as [? ?].
      repeat (split; [done|]). destruct (tk_fault t) eqn:E; [split; by eapply fault_faulty|]. by left.
Qed.

(** A statement that changes nothing. *)
Lemma frg_reads {B} i c (f : Z → cron_db → error + (B * cron_db)) (P : owner → Prop) g :
  (∀ now db b db', f now db = inr (b, db') → db' = db) → stable (fired_rely i) (λ g (_ : unit), P g) → P g →
  frg i c (λ g _, P g) g (pstmt f).
Proof.
  intros Hf HP Hg. apply rg_stmt; [apply _..|]. intros g' t db Hr HI Ht.
  pose proof (HP g g' tt Hr Hg) as Hg'.
  destruct (f (tk_now t) db) as [err|[b db']] eqn:E; [done|]. apply Hf in E as ->.
  exists g'. split; [by left|]. split; [done|]. by destruct (tk_fault t).
Qed.

Lemma frg_rows i c n (P : owner → Prop) g :
  stable (fired_rely i) (λ g (_ : unit), P g) → P g →
  frg i c (λ g r, P g ∧ (r = inr n ∨ faults = true ∧ ∃ err, r = inl err)) g (RowsAffected n).
Proof.
  intros HP Hg. apply rg_stmt; [apply _..|]. intros g' t db Hr HI Ht.
  pose proof (HP g g' tt Hr Hg) as Hg'. exists g'. split; [by left|]. split; [done|].
  destruct (tk_fault t) as [err|] eqn:E; [|by eauto].
  split; (split; [done|]; right; eauto using fault_faulty).
Qed.

Lemma own_stable i : stable (fired_rely i) (λ g (_ : unit), g = Some (Some i)).
Proof. by intros g g' _ [<-|(-> & _)]. Qed.
Lemma lost_stable i : stable (fired_rely i) (λ g (_ : unit), g ≠ None ∧ g ≠ Some (Some i)).
Proof. intros g g' _ [<-|(-> & _)]; [done|]. by intros []. Qed.

Lemma mysql_claim i c scope fire g :
  validateIdent T = None → e = MySQL → claims e T K c →
  (λ s, fire_key e s fire) <$> ignore_stored scope = Some K → g ≠ Some (Some i) →
  frg i c (won_post i) g (mysqlClaimFire T scope fire).
Proof.
  intros Hv He Hc Hk Hg. unfold mysqlClaimFire. rewrite <- He, cron_quoted_valid by done.
  apply rg_bind. eapply rg_weaken; [|by apply ignore_claim].
  intros g1 [err|n] Hn; [by apply faulty_post|]. apply rg_bind.
  destruct Hn as [[-> Hown]|[-> Hlost]].
  - eapply rg_weaken; [|eapply frg_rows; [apply own_stable|done]].
    intros g2 r [-> [->|(Hf & err & ->)]]; cbn; [by split|by apply faulty_post].
  - eapply rg_weaken; [|eapply frg_rows; [apply lost_stable|done]].
    intros g2 r [Hl [->|(Hf & err & ->)]]; cbn [Z.eqb]; [|by apply faulty_post].
    apply rg_bind, rg_attempt. eapply rg_weaken; [|eapply frg_reads; [|apply lost_stable|done]].
    + intros g3 [err|b] [Hn Hi]; [destruct (Is _ _)|]; cbn; by apply lost_post.
    + intros now db b db'. rewrite on_fired_quote. destruct (db !! T) as [[F|L]|] eqn:E; [|done..].
      destruct (F !! _); cbn; [|done]. intros [= _ <-]. by rewrite insert_id.
Qed.

Lemma claim_rg i scope fire g :
  validateIdent T = None → claim_key e scope fire = Some K → g ≠ Some (Some i) →
  frg i (CClaim T scope fire) (won_post i) g (ClaimFire (locker e) T scope fire).
Proof.
  intros Hv Hk Hg. pose proof (conj eq_refl Hk : claims e T K (CClaim T scope fire)) as Hc.
  unfold locker, claim_key in *. destruct e eqn:He;
    cbn [ClaimFire PostgresLocker MySQLLocker SQLiteLocker] in *; rewrite <- He in *.
  - injection Hk as Hk. by apply returning_claim.
  - by apply mysql_claim.
  - injection Hk as Hk. by apply returning_claim.
Qed.

(** *** Every call *)

Definition fired_post (i : nat) (c : cron_call) (g : owner) (r : error + cron_reply) : Prop :=
  claims e T K c →
  (r = inr (RWon true) → g = Some (Some i)) ∧
  (faults = false → (g = Some (Some i) → r = inr (RWon true)) ∧ g ≠ None).

Lemma fired_post_stable i c : stable (fired_rely i) (fired_post i c).
Proof.
  intros g g' r [->|(-> & Hg & Hi)] Hp Hc; [by apply Hp|]. destruct (Hp Hc) as [Hw Hf].
  split; [intros E; by specialize (Hw E)|]. intros E. by destruct (Hf E).
Qed.

#[local] Instance claims_dec c : Decision (claims e T K c).
Proof. destruct c; apply _. Defined.

Lemma purge_keeps i table olderThan :
  fkeeps i (CPurge table olderThan) (PurgeFired (locker e) table olderThan).
Proof.
  assert (fkeeps i (CPurge table olderThan) (purge_fired e table olderThan)) as Hk.
  { apply keeps_quoted, keeps_then; [apply delete_keeps|]. intros n. apply keeps_rows, _. }
  unfold locker. by destruct e.
Qed.
Lemma ensure_fired_keeps i c table : fkeeps i c (EnsureFiredSchema (locker e) table).
Proof.
  assert (∀ F, RFired ∅ = RFired F → F = ∅) as He by congruence.
  assert (fkeeps i c (ensure_fired e table)) as Hk.
  { apply keeps_quoted, keeps_then; [by apply create_keeps|]. intros _. apply keeps_quoted, index_keeps. }
  unfold locker. pose proof (create_keeps i c table (RFired ∅) He). destruct e; [done| |done].
  by apply keeps_quoted, keeps_quoted.
Qed.
Lemma leases_keep {B} i c e' table (f : Z → lease_table → error + (B * lease_table)) :
  fkeeps i c (pstmt (λ now, on_leases e' (quote (quote_char e') table) (f now))).
Proof.
  apply keeps_leases; [apply _..|]. intros g t db L b L' HI _ HL _. by eapply fired_inv_leases.
Qed.
Lemma acquire_keeps i c table scope holder ttl :
  fkeeps i c (AcquireOrRenew (elector e) table scope holder ttl).
Proof.
  assert (fkeeps i c (acquire_returning e table scope holder ttl)) as Hk.
  { apply keeps_quoted, keeps_then; [apply keeps_attempt, leases_keep|].
    intros [err|b]; [destruct (Is _ _)|]; apply keeps_done. }
  unfold elector. destruct e; [done|clear Hk|done].
  apply keeps_quoted, keeps_then; [apply leases_keep|]. intros n.
  apply keeps_then; [apply keeps_rows, _|]. intros m. destruct (1 <=? m); [apply keeps_done|].
  apply keeps_then; [apply keeps_attempt, leases_keep|].
  intros [err|[h x]]; [destruct (Is _ _); [|apply keeps_done]|apply keeps_done].
  apply keeps_then; [apply leases_keep|]. intros k.
  apply keeps_then; [apply keeps_rows, _|]. intros l. destruct (l =? 1); [apply keeps_done|].
  apply keeps_then; [apply keeps_attempt, leases_keep|].
  intros [err'|h]; [destruct (Is _ _)|]; apply keeps_done.
Qed.
Lemma ensure_lease_keeps i c table : fkeeps i c (EnsureLeaseSchema (elector e) table).
Proof.
  assert (fkeeps i c (ensure_lease e table)) as Hk.
  { apply keeps_quoted, create_keeps. congruence. }
  unfold elector. by destruct e.
Qed.

Lemma fired_rg i c g :
  validateIdent T = None → g ≠ Some (Some i) →
  frg i c (fired_post i c) g (cron_body e c).
Proof.
  intros Hv Hg. destruct (decide (claims e T K c)) as [Hc|Hc].
  - destruct c as [table scope fire| | | |]; try done. destruct Hc as [-> Hk]. cbn.
    apply rg_bind. eapply rg_weaken; [|by apply claim_rg].
    intros g' [err|b] [Hw Hf]; [|cbn; unfold mret, prog_ret]; intros _; split.
    + done.
    + intros E. destruct (Hf E) as [Hi ?]. split; [|done]. intros Ho. by specialize (Hi Ho).
    + intros [= ->]. by apply Hw.
    + intros E. destruct (Hf E) as [Hi ?]. split; [|done]. intros Ho. by injection (Hi Ho) as ->.
  - assert (fkeeps i c (cron_body e c)) as Hk.
    { destruct c; (apply keeps_then; [|intros ?; apply keeps_done]).
      - by apply other_claim_keeps.
      - unfold Locker_Purge. destruct (olderThan <=? 0); [apply keeps_done|apply purge_keeps].
      - apply ensure_fired_keeps.
      - apply acquire_keeps.
      - apply ensure_lease_keeps. }
    eapply rg_weaken; [|apply Hk]. intros g' r _ Hc'. done.
Qed.

Lemma fired_sound g db evs q :
  validateIdent T = None → fired_inv g db → (g = None ∨ g = Some None) →
  exec_ok (cron_body e) (λ _, True) fired_ok evs (mkPool db ∅) →
  pool_exec (cron_body e) evs (mkPool db ∅) = Some q →
  ∃ g', (∀ i c r, answered q i c r → fired_post i c g' r) ∧
    (g' = g ∨ g = None ∧ ∃ i c p, p_calls q !! i = Some (c, p) ∧ claims e T K c ∧ g' = Some (Some i)).
Proof.
  intros Hv HI Hg Hok He.
  destruct (pool_sound fired_inv (cron_body e) (λ _, True) fired_ok fired_rely
    (λ i g, g ≠ Some (Some i)) fired_guar fired_post) with (evs := evs) (p := @mkPool cron_call cron_reply db ∅)
    (q := q) (g := g) as (g' & Hr & _ & Hp & _); try done.
  - intros i j c g1 g2 Hn [<-|(-> & -> & _)]; [split; [by left|done]|].
    assert (Some (Some i) ≠ Some (Some j)) by congruence. split; [|done]. right. done.
  - apply fired_post_stable.
  - intros i c g1 _ Hf. by apply fired_rg.
  - intros i _. by destruct Hg as [-> | ->].
  - exists g'. split; [intros i c r Ha; exact (Hp i c _ Ha)|]. clear Hp HI.
    revert g' Hr. apply rtc_ind_r; [by left|].
    intros g1 g2 _ (i & c & r & Hi & [<-|(-> & -> & Hc)]) IH; [done|]. right.
    destruct IH as [<-|(_ & j & d & p & _ & _ & ?)]; [|done]. split; [done|]. by exists i, c, r.
Qed.
End locker.

(** *** The theorems *)

Section single_fire.
Context `{MySQLColumn, TimeColumn}.

Definition recorded_fire (table : string) (K : string * Z) (db : cron_db) : Prop :=
  ∃ F r, db !! table = Some (RFired F) ∧ F !! K = Some r.
Definition won (q : pool) (i : nat) (c : cron_call) : Prop := answered q i c (inr (RWon true)).

Lemma single_winner e T K t0 db evs q :
  validateIdent T = None →
  (∀ F r, db !! T = Some (RFired F) → F !! K = Some r → t0 ≤ f_claimed_at r) →
  exec_ok (cron_body e) (λ _, True) (retains e T K t0) evs (mkPool db ∅) →
  pool_exec (cron_body e) evs (mkPool db ∅) = Some q →
  (∀ i j c d, claims e T K c → claims e T K d → won q i c → won q j d → i = j) ∧
  (recorded_fire T K db → ∀ i c, claims e T K c → ¬ won q i c).
Proof.
  intros Hv Hold Hok He.
  set (g := match db !! T with
            | Some (RFired F) => match F !! K with Some _ => Some None | None => None end
            | _ => None
            end : owner).
  destruct (fired_sound e T K t0 true g db evs q) as (g' & Hp & Hg'); [done| | | |done|].
  - unfold fired_inv, g. destruct (db !! T) as [[F|L]|] eqn:E; [|done..].
    destruct (F !! K) eqn:EF; [|done]. split; [by eapply Hold|done].
  - unfold g. destruct (db !! T) as [[F|L]|]; [|auto..]. destruct (F !! K); auto.
  - eapply exec_ok_weaken; [|done]. intros c t Ht. by split.
  - assert (∀ i c, claims e T K c → won q i c → g' = Some (Some i)) as Hw.
    { intros i c Hc Ha. destruct (Hp i c _ Ha Hc) as [Hw _]. by apply Hw. }
    split.
    + intros i j c d Hc Hd Hi Hj. pose proof (Hw i c Hc Hi). pose proof (Hw j d Hd Hj). congruence.
    + intros (F & r & HF & Hr) i c Hc Hi. pose proof (Hw i c Hc Hi) as E.
      unfold g in Hg'. rewrite HF, Hr in Hg'. destruct Hg' as [->|[? _]]; congruence.
Qed.

(** Any number of processes, with any driver failing at any statement: among
    all the claims of one fire at most one is told it won, and none if the fire
    was already recorded.  The calls may be claims of other fires, elections,
    schema calls, and purges that do not reach back to the first claim of the
    fire. *)
Theorem locker_single_fire e T K t0 db evs q :
  validateIdent T = None →
  (∀ F r, db !! T = Some (RFired F) → F !! K = Some r → t0 ≤ f_claimed_at r) →
  exec_ok (cron_body e) (λ _, True) (retains e T K t0) evs (mkPool db ∅) →
  pool_exec (cron_body e) evs (mkPool db ∅) = Some q →
  (∀ i j c d, claims e T K c → claims e T K d → won q i c → won q j d → i = j) ∧
  (recorded_fire T K db → ∀ i c, claims e T K c → ¬ won q i c).
Proof. exact (single_winner e T K t0 db evs q). Qed.

(** C21. No fire is lost: when the statements all succeed on an existing table and
    every call has returned, exactly one of the claims of a new fire won, if there
    was one. *)
Theorem locker_exactly_one e T K t0 db F evs q :
  validateIdent T = None →
  db !! T = Some (RFired F) → F !! K = None →
  exec_ok (cron_body e) (λ _, True) (λ c t, retains e T K t0 c t ∧ tk_fault t = None) evs (mkPool db ∅) →
  pool_exec (cron_body e) evs (mkPool db ∅) = Some q → quiescent q →
  (∃ i c p, p_calls q !! i = Some (c, p) ∧ claims e T K c) →
  ∃ i c, claims e T K c ∧ won q i c ∧
    ∀ j d r, claims e T K d → answered q j d r → j ≠ i → r ≠ inr (RWon true).
Proof.
  intros Hv HF HK Hok He Hq (i & c & p & Hi & Hc).
  destruct (fired_sound e T K t0 false None db evs q) as (g' & Hp & Hg'); [done| |by left| |done|].
  - unfold fired_inv. by rewrite HF, HK.
  - eapply exec_ok_weaken; [|done]. intros c' t [? ?]. by split.
  - destruct (Hq i c p Hi) as [r ->]. destruct (Hp i c r Hi Hc) as [_ Hs].
    destruct (Hs eq_refl) as [_ Hn].
    destruct Hg' as [->|(_ & j & d & p & Hj & Hd & ->)]; [done|].
    destruct (Hq j d p Hj) as [r' ->]. exists j, d. destruct (Hp j d r' Hj Hd) as [_ Hs'].
    destruct (Hs' eq_refl) as [Hw _]. split; [done|]. split; [by rewrite (Hw eq_refl) in Hj|].
    intros k d' r'' Hd' Hk Hne ->. destruct (Hp k d' _ Hk Hd') as [Hown _]. specialize (Hown eq_refl). congruence.
Qed.
End single_fire.

(** ** Calls end *)

Section calls_end.
Context `{MySQLColumn, TimeColumn} (e : engine).
#[local] Arguments bounded : simpl never.

Lemma quoted_bounded {A} n e' table (k : string → prog A) :
  bounded n (k (quote (quote_char e') table)) → bounded n (cron_quoted e' table k).
Proof.
  intros Hk. unfold cron_quoted, quoteTable. destruct (validateIdent table); [by destruct n|done].
Qed.
Lemma stmt_bounded {B} n (f : Z → cron_db → error + (B * cron_db)) : bounded (S n) (pstmt f).
Proof. intros r. by destruct n. Qed.
Lemma done_bounded {A} n (r : error + A) : bounded n (Done r).
Proof. by destruct n. Qed.
Lemma then_bounded {A B} n (m : prog A) (k : A → prog B) :
  bounded 1 m → (∀ a, bounded n (k a)) → bounded (S n) (m ≫= k).
Proof. apply (bounded_bind 1 n). Qed.

Ltac bound :=
  repeat first
    [ apply done_bounded
    | apply stmt_bounded
    | apply bounded_attempt
    | apply quoted_bounded
    | apply then_bounded; [|intros ?]
    | match goal with |- bounded _ (match ?x with _ => _ end) => destruct x end ].

Lemma claim_bounded table scope fire : bounded 3 (ClaimFire (locker e) table scope fire).
Proof. destruct e; cbn; bound. Qed.
Lemma acquire_bounded table scope h ttl : bounded 6 (AcquireOrRenew (elector e) table scope h ttl).
Proof. destruct e; cbn; bound. Qed.
Lemma purge_bounded table olderThan : bounded 2 (PurgeFired (locker e) table olderThan).
Proof. destruct e; cbn; bound. Qed.
Lemma ensure_bounded table : bounded 2 (EnsureFiredSchema (locker e) table).
Proof. destruct e; cbn; bound. Qed.
Lemma ensure_lease_bounded table : bounded 1 (EnsureLeaseSchema (elector e) table).
Proof. destruct e; cbn; bound. Qed.

Lemma body_bounded c : bounded 6 (cron_body e c).
Proof.
  assert (∀ A n (m : prog A) (k : A → cron_reply), (n ≤ 6)%nat → bounded n m →
    bounded 6 (m ≫= λ a, mret (k a))) as Hk.
  { intros A n m k Hn Hm. eapply (bounded_le (n + 0)); [lia|]. by apply bounded_bind. }
  destruct c; cbn [cron_body].
  - eapply Hk; [|apply claim_bounded]. lia.
  - unfold Locker_Purge. destruct (olderThan <=? 0); [done|]. eapply Hk; [|apply purge_bounded]. lia.
  - eapply Hk; [|apply ensure_bounded]. lia.
  - eapply Hk; [|apply acquire_bounded]. lia.
  - eapply Hk; [|apply ensure_lease_bounded]. lia.
Qed.

(** A coordinator's call ends: whatever the other processes do, it issues at
    most six statements, and until it has answered it can issue its next. *)
Theorem cron_calls_end evs db q i :
  pool_exec (cron_body e) evs (mkPool db ∅) = Some q →
  (statements i evs ≤ 6)%nat ∧
  ∀ c p, p_calls q !! i = Some (c, p) →
    (∃ r, answered q i c r) ∨ ∀ t, is_Some (pool_step (cron_body e) q (EStmt i t)).
Proof. apply calls_end, body_bounded. Qed.
End calls_end.

(** ** Witnesses *)

#[local] Existing Instance plain_column.
(** A driver that keeps the microseconds. *)
Definition whole_micros : TimeColumn := {| column_micros := λ _, Time_UnixMicro |}.
#[local] Existing Instance whole_micros.

Definition at_clock (now : Z) : tick := mkTick None now true.
Definition noon : Z := unix_epoch + 12 * hour.
Definition noon_claim : cron_call := CClaim "msgin_cron_fired" "nightly" noon.
Definition noon_key : string * Z := ("nightly", 43200000000).
Definition fired_db : cron_db := {[ "msgin_cron_fired" := RFired ∅ ]}.

(** Two mysql instances claim at the same time, and a purge of a minute runs. *)
Definition race : list (event (Call:=cron_call)) :=
  [EStart 0 noon_claim; EStart 1 noon_claim; EStart 2 (CPurge "msgin_cron_fired" minute);
   EStmt 0 (at_clock 100); EStmt 1 (at_clock 101); EStmt 2 (at_clock 102); EStmt 1 (at_clock 103);
   EStmt 0 (at_clock 104); EStmt 1 (at_clock 105); EStmt 2 (at_clock 106)].

Lemma race_ok :
  exec_ok (cron_body MySQL) (λ _, True)
    (λ c t, retains MySQL "msgin_cron_fired" noon_key 100 c t ∧ tk_fault t = None) race (mkPool fired_db ∅).
Proof. vm_compute. repeat split; intros; congruence. Qed.

Lemma locker_single_fire_witness :
  ∃ q, pool_exec (cron_body MySQL) race (mkPool fired_db ∅) = Some q ∧ won q 0 noon_claim ∧ ¬ won q 1 noon_claim.
Proof.
  eexists. split; [vm_compute; reflexivity|]. split; [vm_compute; reflexivity|]. intros Hw.
  pose proof (locker_single_fire MySQL "msgin_cron_fired" noon_key 100 fired_db race _ eq_refl
    ltac:(intros F r HF Hr; vm_compute in HF; injection HF as <-; vm_compute in Hr; done)
    ltac:(eapply exec_ok_weaken; [|apply race_ok]; intros c t Hok; apply Hok)
    ltac:(vm_compute; reflexivity)) as [Huniq _].
  assert (0%nat = 1%nat) as E; [|done].
  apply (Huniq 0%nat 1%nat noon_claim noon_claim);
    [split; vm_compute; reflexivity|split; vm_compute; reflexivity|vm_compute; reflexivity|exact Hw].
Defined.

Lemma locker_exactly_one_witness :
  ∃ q i c, pool_exec (cron_body MySQL) race (mkPool fired_db ∅) = Some q ∧
    claims MySQL "msgin_cron_fired" noon_key c ∧ won q i c.
Proof.
  destruct (pool_exec (cron_body MySQL) race (mkPool fired_db ∅)) as [q|] eqn:He; [|vm_compute in He; done].
  assert (quiescent q) as Hq.
  { intros i c p Hi. vm_compute in He. injection He as <-. cbn [p_calls] in Hi.
    apply elem_of_map_to_list in Hi. vm_compute in Hi.
    repeat (apply elem_of_cons in Hi as [[= -> -> ->]|Hi]; [by eexists|]). by apply elem_of_nil in Hi. }
  destruct (locker_exactly_one MySQL "msgin_cron_fired" noon_key 100 fired_db ∅ race q eq_refl eq_refl eq_refl
    race_ok He Hq) as (i & c & Hc & Hw & _).
  { exists 0%nat, noon_claim. eexists. split; [|by split]. vm_compute in He. injection He as <-. reflexivity. }
  by exists q, i, c.
Defined.
