(* ===== verification/CronElector.v ===== *)
(** * One instance leads

    The lease of [SQLElector] against any number of processes, as in
    [CronSafety], what one acquisition does on its own, and what a lease shorter
    than the time between two instances' fires is worth. *)

From Stdlib Require Import Strings.Ascii.
From S2P Require Import Prelude Message SqlEngine SqlGroup SqlInbox CronSql CronPool CronSafety.
Local Open Scope Z_scope.

#[local] Arguments quote : simpl never.
#[local] Arguments quote_char : simpl never.
#[local] Arguments id_key : simpl never.

(** ** The lease under interleaving

    The ghost state is the lease row and the identity that got or renewed the
    lease within the window, if any did. *)

Section elector.
Context `{MySQLColumn, TimeColumn} (e : engine) (T S : string) (t0 w : Z).

Definition ghost : Type := option held_lease * option string.
Definition holder_key (l : held_lease) : string := id_key e (l_holder l).
Definition lease_of (db : cron_db) : option held_lease :=
  match db !! T with Some (RLease L) => L !! S | _ => None end.

Definition lease_inv (g : ghost) (db : cron_db) : Prop :=
  lease_of db = g.1 ∧ (∀ k, g.2 = Some k → ∃ l, g.1 = Some l ∧ holder_key l = k ∧ t0 + w ≤ l_expires_at l).
Definition lease_rely (g g' : ghost) : Prop :=
  g = g' ∨ ∃ l, g' = (Some l, Some (holder_key l)) ∧ (g.2 = None ∨ g.2 = g'.2).

(** Calls for the scope [S] on the table [T], and what is asked of the calls on
    the table: a lease no shorter than the window, and mysql stores what it is
    given. *)
Definition leads (c : cron_call) (holder : string) : Prop :=
  ∃ scope ttl, c = CLead T scope holder ttl ∧ id_key e scope = S.
Definition timely (c : cron_call) (t : tick) : Prop :=
  match c with
  | CLead table scope _ _ => table = T → id_key e scope = S → within t0 w t
  | _ => True
  end.
Definition lasting (c : cron_call) : Prop :=
  match c with
  | CLead table scope holder ttl =>
      table = T → storable e scope ∧ storable e holder ∧ (id_key e scope = S → w ≤ Microseconds ttl)
  | _ => True
  end.

#[local] Instance lease_rely_preorder : PreOrder lease_rely.
Proof.
  split; [by left|]. intros g1 g2 g3 [->|(l & -> & Hl)] [<-|(l' & -> & Hl')]; [by left|right..].
  - by exists l'.
  - by exists l.
  - exists l'. split; [done|]. cbn [fst snd] in *.
    destruct Hl' as [|E]; [done|]. by rewrite <- E.
Qed.

Abbreviation lrg := (rg lease_inv (within t0 w) lease_rely lease_rely).
Abbreviation lkeeps := (keeps lease_inv (λ _, True) lease_rely lease_rely).

(** *** Other calls *)

Lemma lease_inv_same g db db' : lease_of db' = lease_of db → lease_inv g db → lease_inv g db'.
Proof. intros E [H1 H2]. split; [by rewrite E|done]. Qed.
Lemma lease_of_other db table rel : table ≠ T → lease_of (<[table := rel]> db) = lease_of db.
Proof. intros Hn. unfold lease_of. by rewrite lookup_insert_ne by congruence. Qed.
Lemma lease_of_fired db table F F' :
  db !! table = Some (RFired F) → lease_of (<[table := RFired F']> db) = lease_of db.
Proof.
  intros HF. destruct (decide (table = T)) as [->|Hn]; [|by apply lease_of_other].
  unfold lease_of. by rewrite lookup_insert_eq, HF.
Qed.
Lemma lease_of_key db table L k l :
  (table = T → k ≠ S) → db !! table = Some (RLease L) →
  lease_of (<[table := RLease (<[k := l]> L)]> db) = lease_of db.
Proof.
  intros Hk HL. destruct (decide (table = T)) as [->|Hn]; [|by apply lease_of_other].
  unfold lease_of. rewrite lookup_insert_eq, HL. by rewrite lookup_insert_ne by auto.
Qed.
Lemma lease_of_create db table rel :
  (∀ L, rel = RLease L → L = ∅) →
  lease_of (match db !! table with Some _ => db | None => <[table := rel]> db end) = lease_of db.
Proof.
  intros Hrel. destruct (db !! table) eqn:E; [done|].
  destruct (decide (table = T)) as [->|Hn]; [|by apply lease_of_other].
  unfold lease_of. rewrite lookup_insert_eq, E. destruct rel as [F|L]; [done|]. by rewrite (Hrel L eq_refl).
Qed.

Lemma fired_keep {B} e' table (f : Z → fired_table → error + (B * fired_table)) :
  lkeeps (pstmt (λ now, on_fired e' (quote (quote_char e') table) (f now))).
Proof.
  apply keeps_fired; [apply _..|]. intros g t db F b F' HI _ HF _.
  eapply lease_inv_same; [by eapply lease_of_fired|done].
Qed.
Lemma create_keep e' table rel :
  (∀ L, rel = RLease L → L = ∅) → lkeeps (create_relation e' (quote (quote_char e') table) rel).
Proof.
  intros Hrel. apply keeps_stmt; [apply _..|]. intros g t db b db' HI _. rewrite unquote_quote.
  intros [= <- <-]. eapply lease_inv_same; [by apply lease_of_create|done].
Qed.
Lemma index_keep e' table : lkeeps (create_claimed_index e' (quote (quote_char e') table)).
Proof.
  apply keeps_stmt; [apply _..|]. intros g t db b db' HI _. rewrite unquote_quote.
  destruct (db !! table); [|done]. by intros [= <- <-].
Qed.

Lemma claim_keep table scope fire : lkeeps (ClaimFire (locker e) table scope fire).
Proof.
  assert (lkeeps (claim_fire_returning e table scope fire)) as Hk.
  { apply keeps_quoted, keeps_then; [apply keeps_attempt, fired_keep|].
    intros [err|b]; [destruct (Is _ _)|]; apply keeps_done. }
  unfold locker. destruct e; [done|clear Hk|done].
  apply keeps_quoted, keeps_then; [apply fired_keep|]. intros n.
  apply keeps_then; [apply keeps_rows, _|]. intros m. destruct (m =? 1); [apply keeps_done|].
  apply keeps_then; [apply keeps_attempt, fired_keep|].
  intros [err|b]; [destruct (Is _ _)|]; apply keeps_done.
Qed.
Lemma purge_keep table olderThan : lkeeps (Locker_Purge (mkSQLLocker table (locker e)) olderThan).
Proof.
  unfold Locker_Purge. destruct (olderThan <=? 0); [apply keeps_done|]. cbn.
  assert (lkeeps (purge_fired e table olderThan)) as Hk.
  { apply keeps_quoted, keeps_then; [apply fired_keep|]. intros n. apply keeps_rows, _. }
  unfold locker. by destruct e.
Qed.
Lemma ensure_fired_keep table : lkeeps (EnsureFiredSchema (locker e) table).
Proof.
  assert (∀ L, RFired ∅ = RLease L → L = ∅) as He by congruence.
  assert (lkeeps (ensure_fired e table)) as Hk.
  { apply keeps_quoted, keeps_then; [by apply create_keep|]. intros _. apply keeps_quoted, index_keep. }
  unfold locker. pose proof (create_keep MySQL table (RFired ∅) He). destruct e; [done| |done].
  by apply keeps_quoted, keeps_quoted.
Qed.
Lemma ensure_lease_keep table : lkeeps (EnsureLeaseSchema (elector e) table).
Proof.
  assert (lkeeps (ensure_lease e table)) as Hk.
  { apply keeps_quoted, create_keep. congruence. }
  unfold elector. by destruct e.
Qed.

(** An acquisition under another scope. *)
Lemma other_key_keep g db table L k l :
  (table = T → k ≠ S) → lease_inv g db → db !! table = Some (RLease L) →
  lease_inv g (<[table := RLease (<[k := l]> L)]> db).
Proof. intros Hk HI HL. eapply lease_inv_same; [by eapply lease_of_key|done]. Qed.

Lemma other_acquire_keep table scope holder ttl :
  (table = T → storable e scope ∧ id_key e scope ≠ S) →
  lkeeps (AcquireOrRenew (elector e) table scope holder ttl).
Proof.
  intros Hn. assert (table = T → id_key e scope ≠ S) as Hk by (intros Ht; by apply Hn).
  assert (lkeeps (acquire_returning e table scope holder ttl)) as Hpg.
  { apply keeps_quoted, keeps_then; [apply keeps_attempt|].
    - apply keeps_leases; [apply _..|]. intros g t db L b L' HI _ HL.
      destruct (L !! id_key e scope) as [l|]; [destruct (takeable _ _ _ _); [|done]|];
        intros [= _ <-]; by apply other_key_keep.
    - intros [err|b]; [destruct (Is _ _)|]; apply keeps_done. }
  unfold elector. destruct e eqn:He; cbn [AcquireOrRenew PostgresElector MySQLElector SQLiteElector];
    [rewrite <- He in *; done|clear Hpg|rewrite <- He in *; done].
  apply keeps_quoted, keeps_then.
  { apply keeps_leases; [apply _..|]. intros g t db L b L' HI _ HL [= Hf].
    destruct (L !! id_key MySQL scope) as [l|]; [|simplify_eq; by rewrite insert_id].
    destruct (takeable _ _ _ _); simplify_eq; [by apply other_key_keep|by rewrite insert_id]. }
  intros n. apply keeps_then; [apply keeps_rows, _|]. intros m. destruct (1 <=? m); [apply keeps_done|].
  apply keeps_then; [apply keeps_attempt|].
  { apply keeps_reads_leases; [apply _..|]. intros now L b L' E. cbn in E.
    destruct (L !! _); by simplify_eq. }
  intros [err|[h x]]; [destruct (Is _ _); [|apply keeps_done]|apply keeps_done].
  apply keeps_then.
  { apply keeps_leases; [apply _..|]. intros g t db L b L' HI _ HL [= Hf].
    destruct (ignore_stored scope) as [s|] eqn:Es; [|simplify_eq; by rewrite insert_id].
    destruct (ignore_stored holder) as [h|]; [|simplify_eq; by rewrite insert_id].
    destruct (L !! id_key MySQL s); simplify_eq; [by rewrite insert_id|].
    apply other_key_keep; [|done..]. intros ->. destruct (Hn eq_refl) as [Hs Hk'].
    specialize (Hs eq_refl). congruence. }
  intros k. apply keeps_then; [apply keeps_rows, _|]. intros l. destruct (l =? 1); [apply keeps_done|].
  apply keeps_then; [apply keeps_attempt|].
  { apply keeps_reads_leases; [apply _..|]. intros now L b L' E. cbn in E.
    destruct (L !! _); by simplify_eq. }
  intros [err'|h]; [destruct (Is _ _)|]; apply keeps_done.
Qed.

(** *** An acquisition *)

Definition leader (holder : string) (g : ghost) : Prop := g.2 = Some (id_key e holder).
(** A row of the holder's is one it got or renewed within the window. *)
Definition settled (holder : string) (g : ghost) : Prop :=
  ∀ l, g.1 = Some l → holder_key l = id_key e holder → leader holder g.

Lemma leader_stable h : stable lease_rely (λ g (_ : unit), leader h g).
Proof.
  unfold leader. intros g g' _ [->|(l & -> & Hl)] Hg; [done|]. cbn in *.
  destruct Hl as [Hl|Hl]; congruence.
Qed.
Lemma settled_stable h : stable lease_rely (λ g (_ : unit), settled h g).
Proof.
  intros g g' _ [->|(l & -> & Hl)] Hg; [done|]. intros l' [= <-] Hk. unfold leader. cbn. by rewrite Hk.
Qed.
Lemma leader_settled h g : leader h g → settled h g.
Proof. by intros Hg l _ _. Qed.

(** What an acquisition finds, and what it may leave. *)
Lemma lease_inv_found g db L :
  lease_inv g db → db !! T = Some (RLease L) → L !! S = g.1.
Proof. intros [HI _] HL. unfold lease_of in HI. by rewrite HL in HI. Qed.
Lemma grant g t db L h micros :
  lease_inv g db → within t0 w t → db !! T = Some (RLease L) → w ≤ micros →
  (∀ l, g.1 = Some l → takeable e (tk_now t) h l = true) →
  let g' := (Some (mkLease h (tk_now t + micros)), Some (id_key e h)) in
  lease_rely g g' ∧ leader h g' ∧
  lease_inv g' (<[T := RLease (<[S := mkLease h (tk_now t + micros)]> L)]> db).
Proof.
  intros HI Ht HL Hw Htake g'. split; [|split; [done|]].
  - right. exists (mkLease h (tk_now t + micros)). split; [done|]. cbn.
    destruct (g.2) as [k|] eqn:Hk; [right|by left]. destruct HI as [_ HI].
    destruct (HI k Hk) as (l & Hl & <- & Hx). specialize (Htake l Hl). unfold takeable in Htake.
    apply orb_true_iff in Htake as [Heq|Hx']; [apply String.eqb_eq in Heq; by f_equal|].
    unfold within in Ht. lia.
  - split; [unfold lease_of; by rewrite lookup_insert_eq, lookup_insert_eq|].
    cbn. intros k [= <-]. eexists. split; [done|]. split; [done|]. cbn. unfold within in Ht. lia.
Qed.

Definition lead_post {A} (yes : A) (h : string) (g : ghost) (r : error + A) : Prop :=
  r = inr yes → leader h g.
Lemma lead_stable {A} (yes : A) h : stable lease_rely (lead_post yes h).
Proof. intros g g' r Hr Hp E. apply (leader_stable h g g' tt Hr). by apply Hp. Qed.

(** A statement on the lease table, judged by the row it finds. *)
Lemma lrg_leases {B} (f : Z → lease_table → error + (B * lease_table)) Post g :
  (∀ g' t, lease_rely g g' → (∃ err, tk_fault t = Some err) ∨ tk_fault t = None →
     Post g' (inl (default undefined_table (tk_fault t)))) →
  (∀ g' t db L, lease_rely g g' → lease_inv g' db → within t0 w t → db !! T = Some (RLease L) → L !! S = g'.1 →
     match f (tk_now t) L with
     | inl err => Post g' (inl (default err (tk_fault t)))
     | inr (b, L') =>
         ∃ g'', lease_rely g' g'' ∧ lease_inv g'' (<[T := RLease L']> db) ∧ Post g'' (inr b) ∧
           ∀ err, Post g' (inl err) ∧ Post g'' (inl err)
     end) →
  lrg Post g (pstmt (λ now, on_leases e (quote (quote_char e) T) (f now))).
Proof.
  intros Herr Hf. apply rg_stmt; [apply _..|]. intros g' t db Hr HI Ht. rewrite on_leases_quote.
  assert (Post g' (inl (default undefined_table (tk_fault t)))) as Hnone.
  { apply Herr; [done|]. destruct (tk_fault t); eauto. }
  destruct (db !! T) as [[F|L]|] eqn:HL; [done| |done].
  specialize (Hf g' t db L Hr HI Ht HL (lease_inv_found _ _ _ HI HL)).
  destruct (f (tk_now t) L) as [err|[b L']]; [done|]. cbn.
  destruct Hf as (g'' & ? & ? & ? & He). exists g''. split; [done|]. split; [done|].
  by destruct (tk_fault t) as [err|]; [apply He|].
Qed.

Lemma upsert_lead scope h micros g :
  id_key e scope = S → w ≤ micros →
  lrg (λ g r, ∀ got, r = inr got → got = h ∧ leader h g) g
    (upsert_lease e (quote (quote_char e) T) scope h micros).
Proof.
  intros HS Hw. apply lrg_leases; [done|]. intros g' t db L Hr HI Ht HL Hrow. rewrite HS, Hrow.
  destruct (g'.1) as [l|] eqn:Hl; [destruct (takeable _ _ _ _) eqn:Ht'; [|done]|].
  all: destruct (grant g' t db L h micros HI Ht HL Hw) as (? & ? & ?); [rewrite Hl; naive_solver|].
  all: eexists; split; [done|]; split; [done|]; split; [by intros got [= <-]|done].
Qed.

Lemma returning_lead scope h ttl g :
  validateIdent T = None → id_key e scope = S → w ≤ Microseconds ttl →
  lrg (lead_post true h) g (acquire_returning e T scope h ttl).
Proof.
  intros Hv HS Hw. unfold acquire_returning. rewrite cron_quoted_valid by done.
  apply rg_bind, rg_attempt. eapply rg_weaken; [|by apply upsert_lead].
  intros g' [err|got] Hg; [by destruct (Is _ _)|]. cbn. intros _. by destruct (Hg got eq_refl).
Qed.

(** mysql: the update, and the number of its rows. *)
Lemma update_lead scope h micros g :
  id_key e scope = S → w ≤ micros →
  lrg (λ g r, ∀ n, r = inr n → 1 ≤ n ∧ leader h g ∨ n = 0 ∧ settled h g) g
    (renew_lease e (quote (quote_char e) T) scope h micros).
Proof.
  intros HS Hw. apply lrg_leases; [done|]. intros g' t db L Hr HI Ht HL Hrow. rewrite HS, Hrow.
  destruct (g'.1) as [l|] eqn:Hl.
  - destruct (takeable _ _ _ _) eqn:Ht'.
    + destruct (grant g' t db L h micros HI Ht HL Hw) as (? & Hlead & ?); [rewrite Hl; naive_solver|].
      eexists; split; [done|]; split; [done|]; split; [|done]. intros n [= <-].
      destruct (_ && _); [right|by left]. split; [done|]. by apply leader_settled.
    + exists g'. rewrite insert_id by done. split; [done|]. split; [done|]. split; [|done].
      intros n [= <-]. right. split; [done|]. intros l' Hl' Hk. rewrite Hl in Hl'. simplify_eq.
      unfold takeable in Ht'. apply orb_false_iff in Ht' as [Ht' _]. apply String.eqb_neq in Ht'. done.
  - exists g'. rewrite insert_id by done. split; [done|]. split; [done|]. split; [|done].
    intros n [= <-]. right. split; [done|]. intros l' Hl'. congruence.
Qed.

(** The row read, in either form. *)
Lemma select_lead {B} (f : Z → held_lease → B) (name : B → string) h g :
  (∀ now l, name (f now l) = l_holder l) → settled h g →
  lrg (λ g r, settled h g ∧ ∀ b, r = inr b → name b = h → leader h g) g
    (pstmt (λ now, on_leases e (quote (quote_char e) T) (λ L,
      match L !! S with
      | None => inl (Sentinel sql_ErrNoRows)
      | Some l => inr (f now l, L)
      end))).
Proof.
  intros Hname Hg.
  assert (∀ g', lease_rely g g' → settled h g') as Hs.
  { intros g' Hr. by apply (settled_stable h g g' tt Hr). }
  apply lrg_leases; [intros g' t Hr _; split; [by apply Hs|done]|].
  intros g' t db L Hr HI Ht HL Hrow. rewrite Hrow. specialize (Hs g' Hr).
  destruct (g'.1) as [l|] eqn:Hl; [|done]. exists g'. rewrite insert_id by done.
  split; [done|]. split; [done|]. split; [|done]. split; [done|].
  intros b [= <-] Hb. rewrite Hname in Hb. apply (Hs l Hl). unfold holder_key. by rewrite Hb.
Qed.

Lemma insert_lead scope h micros g :
  e = MySQL → id_key e scope = S → storable e scope → storable e h → w ≤ micros → settled h g →
  lrg (λ g r, ∀ n, r = inr n → n = 1 ∧ leader h g ∨ n = 0 ∧ settled h g) g
    (insert_lease_ignore e (quote (quote_char e) T) scope h micros).
Proof.
  intros He HS Hsc Hh Hw Hg. apply lrg_leases; [done|].
  intros g' t db L Hr HI Ht HL Hrow. rewrite (Hsc He), (Hh He), HS, Hrow.
  destruct (g'.1) as [l|] eqn:Hl.
  - exists g'. rewrite insert_id by done. split; [done|]. split; [done|]. split; [|done].
    intros n [= <-]. right. split; [done|]. by apply (settled_stable h g g' tt Hr).
  - destruct (grant g' t db L h micros HI Ht HL Hw) as (? & Hlead & ?); [by rewrite Hl|].
    eexists; split; [done|]; split; [done|]; split; [|done]. intros n [= <-]. by left.
Qed.

Lemma lrg_rows n (P : ghost → Prop) g :
  stable lease_rely (λ g (_ : unit), P g) → P g →
  lrg (λ g r, P g ∧ ∀ m, r = inr m → m = n) g (RowsAffected n).
Proof.
  intros HP Hg. apply rg_stmt; [apply _..|]. intros g' t db Hr HI Ht.
  pose proof (HP g g' tt Hr Hg) as Hg'. exists g'. split; [done|]. split; [done|].
  by destruct (tk_fault t) as [err|]; [|split; [|intros m [= <-]]].
Qed.

(** mysql: the third and the second step. *)
Lemma absent_lead scope h micros g :
  e = MySQL → id_key e scope = S → storable e scope → storable e h → w ≤ micros → settled h g →
  lrg (lead_post true h) g (acquire_absent (quote (quote_char e) T) scope h micros).
Proof.
  intros He HS Hsc Hh Hw Hg. unfold acquire_absent. rewrite <- He.
  apply rg_bind. eapply rg_weaken; [|by apply insert_lead].
  intros g1 [err|n] Hn; [done|]. apply rg_bind. destruct (Hn n eq_refl) as [[-> Hl]|[-> Hs]].
  - eapply rg_weaken; [|eapply (lrg_rows _ (leader h)); [apply leader_stable|done]].
    intros g2 [err|m] [Hl2 Hm]; [done|]. rewrite (Hm m eq_refl). by intros _.
  - eapply rg_weaken; [|eapply (lrg_rows _ (settled h)); [apply settled_stable|done]].
    intros g2 [err|m] [Hs2 Hm]; [done|]. rewrite (Hm m eq_refl). cbn [Z.eqb].
    apply rg_bind, rg_attempt. unfold select_holder. rewrite HS.
    eapply rg_weaken; [|by apply (select_lead (λ _ l, l_holder l) (λ b, b) h)].
    intros g3 [err|b] [_ Hb]; [by destruct (Is _ _)|]. cbn. intros [= E%String.eqb_eq]. by apply (Hb b).
Qed.

Lemma verify_lead scope h micros g :
  e = MySQL → id_key e scope = S → storable e scope → storable e h → w ≤ micros → settled h g →
  lrg (lead_post true h) g (acquire_verify (quote (quote_char e) T) scope h micros).
Proof.
  intros He HS Hsc Hh Hw Hg. unfold acquire_verify, select_lease. rewrite <- He, HS.
  apply rg_bind, rg_attempt.
  eapply rg_weaken; [|by apply (select_lead (λ now l, (l_holder l, l_expires_at l <? now)) fst h)].
  intros g1 [err|[h' x]] [Hs Hb].
  - destruct (Is _ _); [|done]. by apply absent_lead.
  - cbn. intros [= [E%String.eqb_eq _]%andb_true_iff]. by apply (Hb (h', x)).
Qed.

Lemma acquire_lead scope h ttl g :
  validateIdent T = None → id_key e scope = S → storable e scope → storable e h →
  w ≤ Microseconds ttl →
  lrg (lead_post true h) g (AcquireOrRenew (elector e) T scope h ttl).
Proof.
  intros Hv HS Hsc Hh Hw. unfold elector.
  destruct e eqn:He; cbn [AcquireOrRenew PostgresElector MySQLElector SQLiteElector]; rewrite <- He in *;
    [by apply returning_lead| |by apply returning_lead].
  unfold mysqlAcquireOrRenew. rewrite <- He, cron_quoted_valid by done.
  apply rg_bind. eapply rg_weaken; [|by apply update_lead].
  intros g1 [err|n] Hn; [done|]. apply rg_bind. destruct (Hn n eq_refl) as [[Hn1 Hl]|[-> Hs]].
  - eapply rg_weaken; [|eapply (lrg_rows _ (leader h)); [apply leader_stable|done]].
    intros g2 [err|m] [Hl2 Hm]; [done|]. rewrite (Hm m eq_refl), (proj2 (Z.leb_le 1 n) Hn1). by intros _.
  - eapply rg_weaken; [|eapply (lrg_rows _ (settled h)); [apply settled_stable|done]].
    intros g2 [err|m] [Hs2 Hm]; [done|]. rewrite (Hm m eq_refl). cbn [Z.leb Z.compare].
    by apply verify_lead.
Qed.

(** *** Every call *)

Definition lease_post (c : cron_call) (g : ghost) (r : error + cron_reply) : Prop :=
  ∀ h, leads c h → r = inr (RWon true) → leader h g.

Lemma lease_post_stable c : stable lease_rely (lease_post c).
Proof. intros g g' r Hr Hp h Hc E. apply (leader_stable h g g' tt Hr). by apply Hp. Qed.

Lemma lease_rg c g :
  validateIdent T = None → lasting c →
  rg lease_inv (timely c) lease_rely lease_rely (lease_post c) g (cron_body e c).
Proof.
  intros Hv Hl.
  assert ((∃ h, leads c h) ∨ ¬ (∃ h, leads c h)) as [[h (scope & ttl & -> & HS)]|Hc].
  { destruct c as [| | |table scope holder ttl|]; try (right; by intros (h & s & x & ? & _)).
    destruct (decide (table = T ∧ id_key e scope = S)) as [[-> HS]|Hn]; [left; by exists holder, scope, ttl|].
    right. intros (h & s & x & [= -> -> -> ->] & HS). auto. }
  - destruct (Hl eq_refl) as (Hsc & Hh & Hw). apply (rg_ok _ (within t0 w)); [by intros t Ht; apply Ht|].
    cbn. apply rg_bind.
    eapply rg_weaken; [|apply acquire_lead; auto].
    intros g' [err|b] Hp; [by intros h' _|]. cbn. intros h' (? & ? & [= _ <- _] & _) [= ->]. by apply Hp.
  - apply (rg_ok _ (λ _, True)); [done|].
    eapply rg_weaken; [|assert (lkeeps (cron_body e c)) as Hk; [|apply Hk]].
    { intros g' r _ h Hc'. exfalso. eauto. }
    destruct c as [| | |table scope holder ttl|]; (apply keeps_then; [cbn|intros ?; apply keeps_done]).
    + apply claim_keep.
    + apply purge_keep.
    + apply ensure_fired_keep.
    + apply (other_acquire_keep table scope holder ttl). intros ->. split; [by apply Hl|]. intros HS. apply Hc. by exists holder, scope, ttl.
    + apply ensure_lease_keep.
Qed.

Lemma lease_sound g db evs q :
  validateIdent T = None → lease_inv g db →
  exec_ok (cron_body e) lasting timely evs (mkPool db ∅) →
  pool_exec (cron_body e) evs (mkPool db ∅) = Some q →
  ∃ g', lease_rely g g' ∧ ∀ i c r, answered q i c r → lease_post c g' r.
Proof.
  intros Hv HI Hok He.
  destruct (pool_sound lease_inv (cron_body e) lasting timely (λ _, lease_rely)
    (λ _ _, True) (λ _ _, lease_rely) (λ _, lease_post)) with (evs := evs)
    (p := @mkPool cron_call cron_reply db ∅) (q := q) (g := g) as (g' & Hr & _ & Hp & _); try done.
  - intros i c. apply lease_post_stable.
  - intros i c g1 Hc _. by apply lease_rg.
  - exists g'. split; [|intros i c r Ha; exact (Hp i c _ Ha)].
    clear Hp HI. induction Hr as [|g1 g2 g3 (_ & _ & _ & _ & Hm) _ IH]; [done|]. by trans g2.
Qed.
End elector.

Section one_leader.
Context `{MySQLColumn, TimeColumn}.

(** C20. Any number of processes, with any driver failing at any statement: calls
    for one scope that are told they lead, within a span of the server clock no
    longer than the lease, come from one instance; and from the instance that
    held the lease, if its lease outlasts the span. *)
Theorem elector_one_leader e T S t0 w db evs q :
  validateIdent T = None →
  exec_ok (cron_body e) (lasting e T S w) (timely e T S t0 w) evs (mkPool db ∅) →
  pool_exec (cron_body e) evs (mkPool db ∅) = Some q →
  (∀ i j c d h h', leads e T S c h → leads e T S d h' → won q i c → won q j d → id_key e h = id_key e h') ∧
  (∀ l, lease_of T S db = Some l → t0 + w ≤ l_expires_at l →
     ∀ i c h, leads e T S c h → won q i c → id_key e h = id_key e (l_holder l)).
Proof.
  intros Hv Hok He. split.
  - destruct (lease_sound e T S t0 w (lease_of T S db, None) db evs q Hv) as (g' & _ & Hp); [by split|done..|].
    intros i j c d h h' Hc Hd Hi Hj.
    pose proof (Hp i c _ Hi h Hc eq_refl) as H1. pose proof (Hp j d _ Hj h' Hd eq_refl) as H2.
    unfold leader in *. congruence.
  - intros l Hl Hx i c h Hc Hi.
    destruct (lease_sound e T S t0 w (lease_of T S db, Some (holder_key e l)) db evs q Hv) as (g' & Hr & Hp);
      [|done..|].
    + split; [done|]. intros k [= <-]. by exists l.
    + pose proof (Hp i c _ Hi h Hc eq_refl) as H1. unfold leader in H1.
      pose proof (leader_stable e (l_holder l) _ _ tt Hr eq_refl) as H2. unfold leader in H2. congruence.
Qed.
End one_leader.

(** ** One acquisition alone *)

Section alone.
Context `{MySQLColumn, TimeColumn}.

(** From tick [n] no statement of a call fails, and the server clock moves by at
    most [d] while it runs. *)
Definition steady (ticks : nat → tick) (n : nat) (d : Z) : Prop :=
  ∀ k, (n ≤ k < n + 6)%nat →
    tk_fault (ticks k) = None ∧ tk_now (ticks n) ≤ tk_now (ticks k) ≤ tk_now (ticks n) + d.

(** Whether an identity may take the lease: nobody has it, it has it itself, or
    it has expired. *)
Definition lease_free (e : engine) (now : Z) (holder : string) (l : option held_lease) : bool :=
  match l with None => true | Some l => takeable e now holder l end.

Lemma run_leases {B} e table (f : Z → lease_table → error + (B * lease_table)) ticks n db L :
  tk_fault (ticks n) = None → db !! table = Some (RLease L) →
  run_alone ticks n (pstmt (λ now, on_leases e (quote (quote_char e) table) (f now))) db =
    match f (tk_now (ticks n)) L with
    | inl err => (inl err, db, S n)
    | inr (b, L') => (inr b, <[table := RLease L']> db, S n)
    end.
Proof.
  intros Hf HL. unfold pstmt. cbn [run_alone]. unfold run_stmt. rewrite on_leases_quote, HL, Hf.
  by destruct (f _ L) as [err|[b L']].
Qed.
Lemma run_rows ticks n m db :
  tk_fault (ticks n) = None → run_alone ticks n (RowsAffected m) db = (inr m, db, S n).
Proof. intros Hf. unfold RowsAffected, pstmt. cbn. unfold run_stmt. cbn. by rewrite Hf. Qed.

(** What a call that acquires leaves of the lease table. *)
Definition acquired (now ttl : Z) (key h : string) (L L' : lease_table) : Prop :=
  ∃ x, now + ttl ≤ x ≤ now + 2 * ttl ∧ L' = <[key := mkLease h x]> L.

Lemma returning_exact e table scope h ttl ticks n db L :
  validateIdent table = None → db !! table = Some (RLease L) → 0 ≤ Microseconds ttl →
  tk_fault (ticks n) = None →
  let now := tk_now (ticks n) in
  let free := lease_free e now h (L !! id_key e scope) in
  run_alone ticks n (acquire_returning e table scope h ttl) db =
    (inr free,
     if free then <[table := RLease (<[id_key e scope := mkLease h (now + Microseconds ttl)]> L)]> db else db,
     S n).
Proof.
  intros Hv HL Hpos Hf now free. unfold acquire_returning. rewrite cron_quoted_valid by done.
  rewrite run_alone_bind, run_alone_attempt. unfold upsert_lease.
  rewrite (run_leases e table _ ticks n db L Hf HL). unfold free, lease_free. fold now.
  destruct (L !! id_key e scope) as [l|]; [destruct (takeable _ _ _ _)|]; cbn; by rewrite ?String.eqb_refl.
Qed.

Lemma mysql_exact table scope h ttl ticks n db L :
  validateIdent table = None → db !! table = Some (RLease L) → 0 ≤ Microseconds ttl →
  storable MySQL scope → storable MySQL h → steady ticks n (Microseconds ttl) →
  let now := tk_now (ticks n) in
  let free := lease_free MySQL now h (L !! id_key MySQL scope) in
  ∃ n' L', (n < n' ≤ n + 6)%nat ∧
    run_alone ticks n (mysqlAcquireOrRenew table scope h ttl) db = (inr free, <[table := RLease L']> db, n') ∧
    if free then acquired now (Microseconds ttl) (id_key MySQL scope) h L L' else L' = L.
Proof.
  intros Hv HL Hpos Hsc Hh Hst now free. specialize (Hsc eq_refl). specialize (Hh eq_refl).
  set (micros := Microseconds ttl) in *. set (key := id_key MySQL scope) in *.
  assert (∀ k, (n ≤ k < n + 6)%nat → tk_fault (ticks k) = None) as Hf by (intros k Hk; by apply Hst).
  unfold mysqlAcquireOrRenew. rewrite cron_quoted_valid by done. fold micros.
  rewrite run_alone_bind. unfold renew_lease.
  rewrite (run_leases MySQL table _ ticks n db L) by first [done|apply Hf; lia]. fold key now. cbn beta iota.
  unfold free, lease_free. destruct (L !! key) as [l|] eqn:El.
  - destruct (takeable MySQL now h l) eqn:Et.
    + assert (acquired now micros key h L (<[key := mkLease h (now + micros)]> L)) as Hacq.
      { eexists. split; [|done]. lia. }
      rewrite run_alone_bind, run_rows by (apply Hf; lia).
      destruct (_ && _) eqn:Es; cbn [Z.leb Z.compare Pos.compare Pos.compare_cont]; [|by exists (S (S n)), (<[key := mkLease h (now + micros)]> L); split; [lia|]].
      exists (S (S (S n))), (<[key := mkLease h (now + micros)]> L). split; [lia|]. split; [|done].
      unfold acquire_verify, select_lease. rewrite run_alone_bind, run_alone_attempt.
      rewrite (run_leases MySQL table _ ticks (S (S n)) _ (<[key := mkLease h (now + micros)]> L))
        by first [apply Hf; lia|by rewrite lookup_insert_eq].
      fold key. rewrite lookup_insert_eq. cbn. rewrite String.eqb_refl, insert_insert_eq.
      destruct (Hst (S (S n))) as [_ Hn]; [lia|]. fold now in Hn.
      rewrite (proj2 (Z.ltb_ge _ _)) by lia. done.
    + rewrite run_alone_bind, run_rows by (apply Hf; lia). cbn [Z.leb Z.compare].
      exists (S (S (S n))), L. split; [lia|]. split; [|done].
      unfold acquire_verify, select_lease. rewrite run_alone_bind, run_alone_attempt.
      rewrite (run_leases MySQL table _ ticks (S (S n)) _ L) by first [apply Hf; lia|by rewrite lookup_insert_eq].
      fold key. rewrite El. cbn. rewrite insert_insert_eq.
      destruct (String.eqb_spec (l_holder l) h) as [Eh|]; [|done].
      unfold takeable in Et. by rewrite Eh, String.eqb_refl in Et.
  - rewrite run_alone_bind, run_rows by (apply Hf; lia). cbn [Z.leb Z.compare].
    unfold acquire_verify, select_lease. rewrite run_alone_bind, run_alone_attempt.
    rewrite (run_leases MySQL table _ ticks (S (S n)) _ L) by first [apply Hf; lia|by rewrite lookup_insert_eq].
    fold key. rewrite El. cbn [Is]. rewrite bool_decide_eq_true_2 by done.
    unfold acquire_absent. rewrite run_alone_bind. unfold insert_lease_ignore.
    rewrite (run_leases MySQL table _ ticks (S (S (S n))) _ L) by first [apply Hf; lia|by rewrite lookup_insert_eq].
    rewrite Hsc, Hh. fold key. rewrite El. cbn beta iota.
    rewrite run_alone_bind, run_rows by (apply Hf; lia). cbn. rewrite insert_insert_eq.
    eexists _, _. split; [|split; [done|]]; [lia|]. eexists. split; [|done].
    destruct (Hst (S (S (S n)))) as [_ Hn]; [lia|]. fold now in Hn. lia.
Qed.

Lemma alone_acquire e el scope ticks n db L :
  el_dialect el = elector e → validateIdent (el_table el) = None →
  db !! el_table el = Some (RLease L) → 0 ≤ Microseconds (el_leaseTTL el) →
  storable e scope → storable e (el_instanceID el) →
  steady ticks n (Microseconds (el_leaseTTL el)) →
  let now := tk_now (ticks n) in
  let free := lease_free e now (el_instanceID el) (L !! id_key e scope) in
  ∃ n' L', (n < n' ≤ n + 6)%nat ∧
    run_alone ticks n (IsLeader el scope) db = (inr free, <[el_table el := RLease L']> db, n') ∧
    if free then acquired now (Microseconds (el_leaseTTL el)) (id_key e scope) (el_instanceID el) L L'
    else L' = L.
Proof.
  intros Hd Hv HL Hpos Hsc Hh Hst now free. unfold IsLeader. rewrite Hd.
  destruct (Hst n) as [Hf _]; [lia|].
  assert (∀ e', e' = e → ∃ n' L', (n < n' ≤ n + 6)%nat ∧
    run_alone ticks n (acquire_returning e' (el_table el) scope (el_instanceID el) (el_leaseTTL el)) db =
      (inr free, <[el_table el := RLease L']> db, n') ∧
    if free then acquired now (Microseconds (el_leaseTTL el)) (id_key e scope) (el_instanceID el) L L'
    else L' = L) as Hret.
  { intros e' ->. rewrite (returning_exact e _ _ _ _ _ _ _ L) by done. fold now free.
    destruct free; [eexists (S n), _|exists (S n), L]; (split; [lia|]); split; [done| |by rewrite insert_id|done].
    eexists. split; [|done]. lia. }
  unfold elector. destruct e; [by apply Hret|by apply mysql_exact|by apply Hret].
Qed.

(** An acquisition alone answers yes exactly when the lease is absent, the
    caller's own or expired; it then leaves the lease with the caller for one
    term from a moment of the call, and changes nothing otherwise. *)
Theorem is_leader_exact e el scope ticks n db L :
  el_dialect el = elector e → validateIdent (el_table el) = None →
  db !! el_table el = Some (RLease L) → 0 ≤ Microseconds (el_leaseTTL el) →
  storable e scope → storable e (el_instanceID el) →
  steady ticks n (Microseconds (el_leaseTTL el)) →
  let now := tk_now (ticks n) in
  let free := lease_free e now (el_instanceID el) (L !! id_key e scope) in
  ∃ n' L', (n < n' ≤ n + 6)%nat ∧
    run_alone ticks n (IsLeader el scope) db = (inr free, <[el_table el := RLease L']> db, n') ∧
    if free then acquired now (Microseconds (el_leaseTTL el)) (id_key e scope) (el_instanceID el) L L'
    else L' = L.
Proof. exact (alone_acquire e el scope ticks n db L). Qed.
End alone.

(** ** A lease shorter than the time between the instances' fires *)

Section short_lease.
Context `{MySQLColumn, TimeColumn}.

(** The instances' elections, one after the other, each at its own ticks. *)
Fixpoint in_turn (scope : string) (els : list (SQLElector * (nat → tick))) (db : cron_db)
    : list (error + bool) :=
  match els with
  | [] => []
  | (el, ticks) :: els =>
      let r := run_alone ticks 0 (IsLeader el scope) db in r.1.1 :: in_turn scope els r.1.2
  end.

(** Each election begins after the lease of the one before has run out, the
    first after [t]. *)
Fixpoint spaced (e : engine) (table : string) (ttl t : Z) (els : list (SQLElector * (nat → tick))) : Prop :=
  match els with
  | [] => True
  | (el, ticks) :: els =>
      (el_table el = table ∧ el_leaseTTL el = ttl ∧ el_dialect el = elector e ∧ storable e (el_instanceID el)) ∧
      t < tk_now (ticks 0%nat) ∧ steady ticks 0 (Microseconds ttl) ∧
      spaced e table ttl (tk_now (ticks 0%nat) + 2 * Microseconds ttl) els
  end.

(** The lease gates nothing between instances whose fires are further apart
    than it lasts: each of any number of instances, in one interval of an
    "@every" schedule as in the next, is told it leads. *)
Theorem elector_short_lease e table scope ttl t els L db :
  validateIdent table = None → storable e scope → 0 ≤ Microseconds ttl →
  db !! table = Some (RLease L) →
  (∀ l, L !! id_key e scope = Some l → l_expires_at l ≤ t) →
  spaced e table ttl t els →
  in_turn scope els db = replicate (length els) (inr true).
Proof.
  intros Hv Hsc Hpos. revert t L db. induction els as [|[el ticks] els IH]; intros t L db HL Hx Hsp; [done|].
  destruct Hsp as ((Ht & Hl & Hd & Hid) & Hlt & Hst & Hsp). subst table ttl. cbn [in_turn length replicate].
  destruct (alone_acquire e el scope ticks 0 db L) as (n' & L' & _ & Hrun & Hacq); [done..|].
  assert (lease_free e (tk_now (ticks 0%nat)) (el_instanceID el) (L !! id_key e scope) = true) as Hfree.
  { destruct (L !! id_key e scope) as [l|]; [|done]. cbn. unfold takeable. specialize (Hx l eq_refl).
    rewrite (proj2 (Z.ltb_lt _ _)) by lia. by rewrite orb_true_r. }
  rewrite Hfree in Hrun, Hacq. destruct Hacq as (x & Hxx & ->). rewrite Hrun. cbn [fst snd]. f_equal.
  eapply (IH _ (<[id_key e scope := mkLease (el_instanceID el) x]> L)); [by rewrite lookup_insert_eq| |done].
  intros l. rewrite lookup_insert_eq. intros [= <-]. cbn. lia.
Qed.
End short_lease.

(** ** Witnesses *)

#[local] Existing Instance plain_column.
#[local] Existing Instance whole_micros.

Definition lease_db : cron_db := {[ "msgin_cron_leader" := RLease ∅ ]}.
Definition lead_call (h : string) : cron_call := CLead "msgin_cron_leader" "nightly" h defaultLeaseTTL.

(** Two mysql instances find the lease absent and both insert. *)
Definition election : list (event (Call:=cron_call)) :=
  [EStart 0 (lead_call "a"); EStart 1 (lead_call "b");
   EStmt 0 (at_clock 100); EStmt 1 (at_clock 101); EStmt 0 (at_clock 102); EStmt 1 (at_clock 103);
   EStmt 0 (at_clock 104); EStmt 1 (at_clock 105); EStmt 0 (at_clock 106); EStmt 1 (at_clock 107);
   EStmt 0 (at_clock 108); EStmt 1 (at_clock 109); EStmt 1 (at_clock 110)].

Lemma election_ok :
  exec_ok (cron_body MySQL) (lasting MySQL "msgin_cron_leader" "nightly" 1000000)
    (timely MySQL "msgin_cron_leader" "nightly" 100 1000000) election (mkPool lease_db ∅).
Proof. vm_compute. repeat split; intros; congruence. Qed.

Lemma elector_one_leader_witness :
  ∃ q, pool_exec (cron_body MySQL) election (mkPool lease_db ∅) = Some q ∧
    won q 0 (lead_call "a") ∧ ¬ won q 1 (lead_call "b").
Proof.
  eexists. split; [vm_compute; reflexivity|]. split; [vm_compute; reflexivity|]. intros Hw.
  pose proof (elector_one_leader MySQL "msgin_cron_leader" "nightly" 100 1000000 lease_db election _ eq_refl
    election_ok
    ltac:(vm_compute; reflexivity)) as [Hone _].
  assert ("a" = "b"%string) as E; [|discriminate E].
  apply (Hone 0%nat 1%nat (lead_call "a") (lead_call "b") "a" "b");
    [exists "nightly"%string, defaultLeaseTTL; split; reflexivity..|vm_compute; reflexivity|exact Hw].
Defined.

Definition node (h : string) : SQLElector := mkSQLElector "msgin_cron_leader" h defaultLeaseTTL (elector Postgres).

Lemma is_leader_exact_witness :
  ∃ n' L', run_alone (λ _, at_clock 5) 0 (IsLeader (node "a") "nightly") lease_db =
    (inr true, <["msgin_cron_leader" := RLease L']> lease_db, n').
Proof.
  destruct (is_leader_exact Postgres (node "a") "nightly" (λ _, at_clock 5) 0 lease_db ∅)
    as (n' & L' & _ & Hrun & _); [done|done|done|vm_compute; congruence|done|done| |by exists n', L'].
  intros k _. split; [done|]. vm_compute. split; congruence.
Defined.

(** Three instances of "@every 1h", twenty minutes apart, and the lease of 30s. *)
Definition phase (k : Z) : nat → tick := λ _, at_clock (k * 1200000000).
Lemma elector_short_lease_witness :
  in_turn "nightly" [(node "a", phase 1); (node "b", phase 2); (node "c", phase 3)] lease_db =
    [inr true; inr true; inr true].
Proof.
  refine (elector_short_lease Postgres "msgin_cron_leader" "nightly" defaultLeaseTTL 0
    [(node "a", phase 1); (node "b", phase 2); (node "c", phase 3)] ∅ lease_db _ _ _ _ _ _);
    [done|done|vm_compute; congruence|done|done|].
  cbn [spaced node el_table el_leaseTTL el_dialect el_instanceID].
  repeat match goal with |- _ ∧ _ => split end; try done;
    try (intros k _; vm_compute; repeat split; congruence).
Defined.
