(* ===== verification/CronSource.v ===== *)
(** * Scheduled sources

    [adapter/cron/source.go]: the options, [NewSource] and [wireGate], [win], and
    the firing loop [Stream].

    The schedule is robfig/cron's; of it the loop uses [Next], the first
    activation after an instant.  [Stream] runs on one goroutine; it is a machine
    whose steps are the pieces of the loop between two points where it waits or
    reads the clock, so that time passes, the receiver takes or lets wait, the
    coordinator answers and the context ends between any two of them.  The clock
    does not go back. *)

From Stdlib Require Import Sorting.Sorted.
From S2P Require Import Prelude Message CronSql.
Local Open Scope Z_scope.

Definition ErrInvalidSchedule : sentinel := OtherSentinel "msgin/cron: invalid schedule spec".
Definition ErrNilFactory : sentinel := OtherSentinel "msgin/cron: nil message factory".
Definition ErrConflictingCoordinator : sentinel :=
  OtherSentinel "msgin/cron: at most one of WithElector/WithLocker may be set".
Definition ErrLockerRequiresGridSchedule : sentinel :=
  OtherSentinel "msgin/cron: a Locker requires a grid-aligned schedule (cron or descriptor); @every is unsupported — use an Elector instead".

(** A [robfig.Schedule]: the next activation after an instant in a location, the
    zero time for none, and whether it is a [ConstantDelaySchedule]. *)
Record Schedule (Loc : Type) : Type := mkSchedule { Next : Loc → Z → Z; constant_delay : bool }.
Arguments mkSchedule {Loc} _ _.
Arguments Next {Loc} _ _ _.
Arguments constant_delay {Loc} _.

(** What robfig/cron documents of [Next], and that no activation is further away
    than a [time.Duration] reaches. *)
Definition next_law {Loc} (s : Schedule Loc) : Prop :=
  ∀ loc t, Next s loc t = 0 ∨ t < Next s loc t ≤ t + MaxInt64.

Section source.
Context {Loc Elector Locker : Type}.

(** The parsers of robfig/cron: five fields, and six with the seconds. *)
Context (ParseStandard secondsParse : string → error + Schedule Loc) (UTC : Loc).

Inductive gate : Type :=
  | GateElector (e : Elector) (scope : string)
  | GateLocker (l : Locker) (scope : string).
(** The coordinator's method a gate calls for a fire. *)
Inductive gate_call : Type :=
  | IsLeaderCall (e : Elector) (scope : string)
  | ClaimCall (l : Locker) (scope : string) (fire : Z).
Definition gate_at (g : gate) (fire : Z) : gate_call :=
  match g with
  | GateElector e scope => IsLeaderCall e scope
  | GateLocker l scope => ClaimCall l scope fire
  end.

Record Source : Type := mkSource {
  s_schedule : Schedule Loc;
  s_factory : Z → outcome any;
  s_location : Loc;
  s_scope : string;
  s_gate : option gate
}.

(** ** The options; the clock is read from the environment. *)

Record config : Type := mkConfig {
  c_location : Loc;
  c_scope : string;
  c_scopeSet : bool;
  c_elector : option Elector;
  c_locker : option Locker;
  c_seconds : bool
}.
Definition source_defaults : config := mkConfig UTC "" false None None false.

Definition WithLocation (loc : option Loc) (c : config) : config :=
  match loc with
  | Some loc => mkConfig loc (c_scope c) (c_scopeSet c) (c_elector c) (c_locker c) (c_seconds c)
  | None => c
  end.
Definition WithSeconds (c : config) : config :=
  mkConfig (c_location c) (c_scope c) (c_scopeSet c) (c_elector c) (c_locker c) true.
Definition WithScope (scope : string) (c : config) : config :=
  mkConfig (c_location c) scope true (c_elector c) (c_locker c) (c_seconds c).
Definition WithElector (e : option Elector) (c : config) : config :=
  mkConfig (c_location c) (c_scope c) (c_scopeSet c) e (c_locker c) (c_seconds c).
Definition WithLocker (l : option Locker) (c : config) : config :=
  mkConfig (c_location c) (c_scope c) (c_scopeSet c) (c_elector c) l (c_seconds c).

Definition wireGate (schedule : Schedule Loc) (scope : string) (cfg : config) : error + option gate :=
  match c_elector cfg, c_locker cfg with
  | Some _, Some _ => inl (Sentinel ErrConflictingCoordinator)
  | None, Some l =>
      if constant_delay schedule then inl (Sentinel ErrLockerRequiresGridSchedule)
      else inr (Some (GateLocker l scope))
  | Some e, None => inr (Some (GateElector e scope))
  | None, None => inr None
  end.

(** [now] is the clock's reading when satisfiability is probed. *)
Definition NewSource (spec : string) (factory : option (Z → outcome any)) (now : Z)
    (opts : list (option (config → config))) : error + Source :=
  match apply_opts opts source_defaults with
  | inl i => inl (nilOptionAt "cron.NewSource" i)
  | inr cfg =>
      match (if c_seconds cfg then secondsParse spec else ParseStandard spec) with
      | inl _ => inl (Errorf [Sentinel ErrInvalidSchedule] [FStr spec])
      | inr schedule =>
          match factory with
          | None => inl (Sentinel ErrNilFactory)
          | Some factory =>
              if IsZero (Next schedule (c_location cfg) now)
              then inl (Errorf [Sentinel ErrInvalidSchedule] [FStr spec])
              else
                let scope := if c_scopeSet cfg && negb (String.eqb (c_scope cfg) "") then c_scope cfg else spec in
                let? g := wireGate schedule scope cfg in
                inr (mkSource schedule factory (c_location cfg) scope g)
          end
      end
  end.

Definition EmitsLiveValue (s : Source) : bool := true.

(** ** The firing loop *)

(** Whether the instance emits, given what the coordinator answered. *)
Definition win (answer : bool * option error) : bool :=
  match answer with
  | (_, Some _) => false
  | (won, None) => won
  end.

(** What became of a scheduled instant: the clock when the loop settled on it,
    and when it was done with it, and how. *)
Inductive fate : Type := Skipped | Lost (c : gate_call) | Sent (won : option gate_call) (m : msg).
Record entry : Type := mkEntry { e_instant : Z; e_armed : Z; e_done : Z; e_fate : fate }.

(** Where the loop is. *)
Inductive position : Type :=
  | Check (next : Z)                   (** at the head of the loop *)
  | Arm (next armed : Z)               (** about to set the timer *)
  | Wait (next armed deadline : Z)     (** in the first select *)
  | Gating (fire next armed : Z) (c : gate_call)  (** in the coordinator's call *)
  | Building (fire next armed : Z) (won : option gate_call)
  | Handing (fire next armed : Z) (won : option gate_call) (m : msg)  (** in the second select *)
  | Idle                               (** no activation left *)
  | Returned (err : error)
  | Crashed (v : string).
Record stream : Type := mkStream { t_clock : Z; t_at : position; t_log : list entry }.

Inductive occurrence : Type :=
  | Elapse (d : Z)
  | Loop
  | Timer
  | Answer (won : bool) (err : option error)
  | Build (random : bytes)
  | Take
  | Cancel (err : error).

Variable src : Source.
Abbreviation next_after := (Next (s_schedule src) (s_location src)).

Definition Stream (now : Z) : stream := mkStream now (Check (next_after now)) [].

Definition record_fate (s : stream) (p : position) (e : entry) : stream :=
  mkStream (t_clock s) p (t_log s ++ [e]).

Definition stream_step (s : stream) (o : occurrence) : option stream :=
  let now := t_clock s in
  let at_ p := Some (mkStream now p (t_log s)) in
  match o, t_at s with
  | Elapse d, _ => if 0 <=? d then Some (mkStream (now + d) (t_at s) (t_log s)) else None
  | Loop, Check next =>
      if IsZero next then at_ Idle
      else if next <=? now then
        Some (record_fate s (Check (next_after next)) (mkEntry next now now Skipped))
      else at_ (Arm next now)
  | Loop, Arm next armed => at_ (Wait next armed (now + time_Sub next now))
  | Timer, Wait next armed deadline =>
      if deadline <=? now then
        match s_gate src with
        | None => at_ (Building next (next_after next) armed None)
        | Some g => at_ (Gating next (next_after next) armed (gate_at g next))
        end
      else None
  | Answer won err, Gating fire next armed c =>
      if win (won, err) then at_ (Building fire next armed (Some c))
      else Some (record_fate s (Check next) (mkEntry fire armed now (Lost c)))
  | Build random, Building fire next armed won =>
      match s_factory src fire with
      | Ret v => at_ (Handing fire next armed won (New now random v [Some (Message.WithClock (Some now))]))
      | Panic v => at_ (Crashed v)
      end
  | Take, Handing fire next armed won m =>
      Some (record_fate s (Check next) (mkEntry fire armed now (Sent won m)))
  | Cancel err, (Wait _ _ _ | Handing _ _ _ _ _ | Idle) => at_ (Returned err)
  | _, _ => None
  end.
Fixpoint stream_exec (os : list occurrence) (s : stream) : option stream :=
  match os with
  | [] => Some s
  | o :: os => stream_step s o ≫= stream_exec os
  end.

(** ** What a run keeps *)

(** The instants of the schedule, from the first after the start. *)
Definition grid (start : Z) (n : nat) : Z := Nat.iter n next_after (next_after start).

Definition entry_ok (e : entry) : Prop :=
  e_instant e ≠ 0 ∧ e_instant e ≤ e_done e ∧
  match e_fate e with
  | Skipped => e_armed e = e_done e
  | Lost c => e_armed e < e_instant e ∧ (λ g, gate_at g (e_instant e)) <$> s_gate src = Some c
  | Sent won m =>
      e_armed e < e_instant e ∧ (λ g, gate_at g (e_instant e)) <$> s_gate src = won ∧
      s_factory src (e_instant e) = Ret (msg_payload m)
  end.
(** The loop is done with an instant before it settles on a later one. *)
Definition ordered (log : list entry) : Prop := StronglySorted (λ a b, e_done a ≤ e_armed b) log.
Definition all_done (t : Z) (log : list entry) : Prop := Forall (λ e, e_done e ≤ t) log.

(** [fire] is the [n]-th instant, settled on at [armed] and reached. *)
Definition firing (start now : Z) (log : list entry) (fire next armed : Z) : Prop :=
  fire = grid start (length log) ∧ fire ≠ 0 ∧ next = next_after fire ∧ armed < fire ≤ now ∧ all_done armed log.

Definition position_ok (start : Z) (s : stream) : Prop :=
  let now := t_clock s in
  let waiting next := next = grid start (length (t_log s)) ∧ ∃ p, next = next_after p ∧ p ≤ now in
  match t_at s with
  | Check next => waiting next ∧ all_done now (t_log s)
  | Arm next armed => waiting next ∧ next ≠ 0 ∧ armed < next ∧ armed ≤ now ∧ all_done armed (t_log s)
  | Wait next armed deadline =>
      waiting next ∧ next ≠ 0 ∧ armed < next ∧ armed ≤ now ∧ next ≤ deadline ∧ all_done armed (t_log s)
  | Gating fire next armed c =>
      firing start now (t_log s) fire next armed ∧ (λ g, gate_at g fire) <$> s_gate src = Some c
  | Building fire next armed won =>
      firing start now (t_log s) fire next armed ∧ (λ g, gate_at g fire) <$> s_gate src = won
  | Handing fire next armed won m =>
      firing start now (t_log s) fire next armed ∧ (λ g, gate_at g fire) <$> s_gate src = won ∧
      s_factory src fire = Ret (msg_payload m)
  | Idle => grid start (length (t_log s)) = 0
  | Returned _ | Crashed _ => True
  end.
Definition stream_ok (start : Z) (s : stream) : Prop :=
  e_instant <$> t_log s = grid start <$> seq 0 (length (t_log s)) ∧
  Forall entry_ok (t_log s) ∧ ordered (t_log s) ∧ position_ok start s.

Lemma stream_ok_start now : stream_ok now (Stream now).
Proof.
  split; [done|]. split; [constructor|]. split; [constructor|]. split; [|constructor].
  split; [done|]. exists now. split; [done|]. cbn. lia.
Qed.

Lemma ordered_snoc log e : ordered log → all_done (e_armed e) log → ordered (log ++ [e]).
Proof.
  unfold ordered, all_done. induction log as [|a log IH]; cbn; intros Ho Hd; [repeat constructor|].
  apply StronglySorted_inv in Ho as [Ho Ha]. apply Forall_cons in Hd as [Hd Hd'].
  constructor; [by apply IH|]. apply Forall_app. split; [done|]. by constructor.
Qed.
Lemma all_done_le t t' log : t ≤ t' → all_done t log → all_done t' log.
Proof. intros Ht Hd. eapply Forall_impl; [exact Hd|]. cbn. lia. Qed.

(** An instant gets its fate. *)
Lemma stream_ok_record start s next e :
  stream_ok start s → e_instant e = grid start (length (t_log s)) → entry_ok e →
  all_done (e_armed e) (t_log s) → e_armed e ≤ e_done e ≤ t_clock s → next = next_after (e_instant e) →
  stream_ok start (record_fate s (Check next) e).
Proof.
  intros (Hi & He & Ho & _) Hn Hok Hd [Ha Hc] Hnext. unfold stream_ok, record_fate. cbn [t_log].
  rewrite length_app. cbn [length]. rewrite Nat.add_1_r, seq_S, !fmap_app, Hi. cbn [fmap list_fmap Nat.add].
  rewrite Hn.
  split; [done|]. split; [apply Forall_app; by rewrite Forall_singleton|]. split; [by apply ordered_snoc|].
  split.
  - split.
    + rewrite Hnext, Hn. cbn [t_log]. rewrite length_app. cbn [length]. by rewrite Nat.add_1_r.
    + exists (e_instant e). split; [done|]. cbn. destruct Hok as (_ & ? & _). lia.
  - apply Forall_app. split; [apply (all_done_le (e_armed e)); [cbn; lia|done]|]. by rewrite Forall_singleton.
Qed.

Lemma deadline_late next now p :
  next_law (s_schedule src) → next = next_after p → p ≤ now → next ≠ 0 → next ≤ now + time_Sub next now.
Proof.
  intros Hlaw -> Hp Hn. destruct (Hlaw (s_location src) p) as [|]; [done|].
  unfold time_Sub, MaxInt64, MinInt64 in *. lia.
Qed.

Lemma stream_ok_step start s o s' :
  next_law (s_schedule src) → stream_ok start s → stream_step s o = Some s' → stream_ok start s'.
Proof.
  intros Hlaw Hok Hs. pose proof Hok as (Hi & He & Ho & Hp). unfold position_ok, firing in Hp.
  destruct o as [d| | |won err|random| |err]; cbn [stream_step] in Hs.
  - destruct (0 <=? d) eqn:Hd; [|done]. apply Z.leb_le in Hd. injection Hs as <-.
    split; [done|]. split; [done|]. split; [done|]. unfold position_ok, firing. cbn [t_clock t_at t_log].
    destruct (t_at s); [..|done|done|done];
      repeat match goal with H : _ ∧ _ |- _ => destruct H | H : ∃ _, _ |- _ => destruct H end; subst;
      repeat split; eauto with lia; (eapply all_done_le; [|eassumption]; lia).
  - destruct (t_at s) as [next|next armed| | | | | | |] eqn:Hat; try done.
    + destruct Hp as [(Hn & p & Hp & Hle) Hd]. unfold IsZero in Hs. destruct (next =? 0) eqn:Hz.
      { apply Z.eqb_eq in Hz. injection Hs as <-. split; [done|]. split; [done|]. split; [done|].
        unfold position_ok. cbn [t_at t_log t_clock]. congruence. }
      apply Z.eqb_neq in Hz. destruct (next <=? t_clock s) eqn:Hdue; injection Hs as <-.
      * apply Z.leb_le in Hdue. by apply stream_ok_record.
      * apply Z.leb_gt in Hdue. split; [done|]. split; [done|]. split; [done|]. unfold position_ok. cbn [t_at t_log t_clock].
        repeat split; eauto with lia.
    + injection Hs as <-. destruct Hp as ((Hn & p & Hp & Hle) & Hz & Ha & Ha' & Hd).
      split; [done|]. split; [done|]. split; [done|]. unfold position_ok. cbn [t_at t_log t_clock].
      split; [by eauto|]. split; [done|]. split; [done|]. split; [done|]. split; [by eapply deadline_late|done].
  - destruct (t_at s) as [| |next armed deadline| | | | | |] eqn:Hat; try done.
    destruct Hp as ((Hn & p & Hp & Hle) & Hz & Ha & Ha' & Hdl & Hd).
    destruct (deadline <=? t_clock s) eqn:Hdue; [|done]. apply Z.leb_le in Hdue.
    destruct (s_gate src) as [g|] eqn:Hg; injection Hs as <-;
      (split; [done|]); (split; [done|]); (split; [done|]); unfold position_ok, firing; cbn [t_at t_log t_clock];
      rewrite Hg; repeat split; eauto with lia.
  - destruct (t_at s) as [| | |fire next armed c| | | | |] eqn:Hat; try done.
    destruct Hp as [(Hf & Hz & Hn & Hlt & Hd) Hg]. destruct (win (won, err)); injection Hs as <-.
    + split; [done|]. split; [done|]. split; [done|]. unfold position_ok, firing. cbn [t_at t_log t_clock]. tauto.
    + apply stream_ok_record; try done; cbn; [|lia]. split; cbn; [done|]. split; [lia|]. split; [lia|done].
  - destruct (t_at s) as [| | | |fire next armed won| | | |] eqn:Hat; try done.
    destruct Hp as [(Hf & Hz & Hn & Hlt & Hd) Hg]. destruct (s_factory src fire) as [v|v] eqn:Hv; injection Hs as <-.
    + split; [done|]. split; [done|]. split; [done|]. unfold position_ok, firing. cbn [t_at t_log t_clock]. tauto.
    + by repeat split.
  - destruct (t_at s) as [| | | | |fire next armed won m| | |] eqn:Hat; try done.
    destruct Hp as ((Hf & Hz & Hn & Hlt & Hd) & Hg & Hm). injection Hs as <-.
    apply stream_ok_record; try done; cbn; [|lia]. split; cbn; [done|]. split; [lia|]. split; [lia|done].
  - destruct (t_at s); try done; injection Hs as <-; by repeat split.
Qed.

Lemma stream_ok_exec start os s s' :
  next_law (s_schedule src) → stream_ok start s → stream_exec os s = Some s' → stream_ok start s'.
Proof.
  intros Hlaw. revert s. induction os as [|o os IH]; intros s Hok; cbn; [congruence|].
  intros (s1 & Hs & He)%bind_Some. apply (IH s1); [by eapply stream_ok_step|done].
Qed.

(** The grid climbs as long as there are activations. *)
Lemma grid_climbs start i j :
  next_law (s_schedule src) → (i < j)%nat → (∀ k, (k ≤ j)%nat → grid start k ≠ 0) → grid start i < grid start j.
Proof.
  intros Hlaw Hij Hz. induction j as [|j IH]; [lia|].
  assert (grid start j < grid start (S j)) as Hs.
  { destruct (Hlaw (s_location src) (grid start j)) as [E|[? _]]; [|done]. by destruct (Hz (S j)). }
  destruct (decide (i = j)) as [->|]; [done|]. etrans; [apply IH|done]; [lia|]. intros k Hk. apply Hz. lia.
Qed.
Lemma sorted_seq (f : nat → Z) a n :
  (∀ i j, (a ≤ i)%nat → (i < j < a + n)%nat → f i < f j) → StronglySorted Z.lt (f <$> seq a n).
Proof.
  revert a. induction n as [|n IH]; intros a Hf; cbn; constructor.
  - apply IH. intros i j ? ?. apply Hf; lia.
  - apply Forall_fmap, Forall_forall. intros j Hj%elem_of_seq. apply Hf; lia.
Qed.

(** Passing over what is overdue ends, without the receiver or the coordinator. *)
Lemma catches_up s next :
  next_law (s_schedule src) → t_at s = Check next →
  ∃ n s', stream_exec (replicate n Loop) s = Some s' ∧ t_clock s' = t_clock s ∧
    match t_at s' with
    | Idle => True
    | Wait next' armed _ => armed = t_clock s ∧ t_clock s < next'
    | _ => False
    end.
Proof.
  intros Hlaw. remember (Z.to_nat (t_clock s + 1 - next)) as k eqn:Hk.
  revert s next Hk. induction k as [k IH] using lt_wf_ind. intros s next Hk Hat.
  destruct (IsZero next) eqn:Hz.
  { exists 1%nat, (mkStream (t_clock s) Idle (t_log s)). cbn. rewrite Hat, Hz. done. }
  destruct (next <=? t_clock s) eqn:Hdue.
  - apply Z.leb_le in Hdue.
    set (s1 := record_fate s (Check (next_after next)) (mkEntry next (t_clock s) (t_clock s) Skipped)).
    assert (stream_step s Loop = Some s1) as Hs.
    { cbn. rewrite Hat, Hz. by rewrite (proj2 (Z.leb_le _ _) Hdue). }
    destruct (IsZero (next_after next)) eqn:Hz'.
    { exists 2%nat, (mkStream (t_clock s) Idle (t_log s1)). cbn [replicate stream_exec]. rewrite Hs. cbn. by rewrite Hz'. }
    destruct (Hlaw (s_location src) next) as [E|Hlt]; [by rewrite E in Hz'|].
    destruct (IH (Z.to_nat (t_clock s + 1 - next_after next))) with (s := s1) (next := next_after next)
      as (n & s' & He & Hc & Hp); [lia|done|done|].
    exists (S n), s'. cbn [replicate stream_exec]. rewrite Hs. done.
  - exists 2%nat, (mkStream (t_clock s) (Wait next (t_clock s) (t_clock s + time_Sub next (t_clock s))) (t_log s)).
    cbn [replicate stream_exec]. cbn [stream_step]. rewrite Hat, Hz, Hdue. apply Z.leb_gt in Hdue. done.
Qed.

(** The fires a coordinator has granted, and those sent. *)
Fixpoint granted (os : list occurrence) : nat :=
  match os with
  | [] => 0
  | Answer true None :: os => S (granted os)
  | _ :: os => granted os
  end.
Definition sent (e : entry) : bool := match e_fate e with Sent _ _ => true | _ => false end.
Definition sendings (s : stream) : nat :=
  length (List.filter sent (t_log s)) + match t_at s with Building _ _ _ _ | Handing _ _ _ _ _ => 1 | _ => 0 end.

Lemma sendings_step s o s' :
  s_gate src ≠ None → stream_step s o = Some s' → (sendings s' ≤ sendings s + granted [o])%nat.
Proof.
  intros Hg Hs. unfold sendings.
  assert (∀ e, length (List.filter sent (t_log s ++ [e])) =
    (length (List.filter sent (t_log s)) + if sent e then 1 else 0)%nat) as Hsnoc.
  { intros e. rewrite List.filter_app, length_app. cbn. by destruct (sent e). }
  destruct o as [d| | |won err|random| |err]; cbn [stream_step] in Hs.
  - destruct (0 <=? d); [|done]. injection Hs as <-. cbn. lia.
  - destruct (t_at s); try done; [|by injection Hs as <-; cbn; lia].
    destruct (IsZero next); [by injection Hs as <-; cbn; lia|].
    destruct (next <=? t_clock s); injection Hs as <-; unfold record_fate; cbn [t_log t_at]; rewrite ?Hsnoc; cbn; lia.
  - destruct (t_at s); try done. destruct (deadline <=? t_clock s); [|done].
    destruct (s_gate src); [|done]. injection Hs as <-. cbn. lia.
  - destruct (t_at s); try done. destruct won, err; cbn [win] in Hs; injection Hs as <-;
      unfold record_fate; cbn [t_log t_at]; rewrite ?Hsnoc; cbn; lia.
  - destruct (t_at s); try done. destruct (s_factory src fire); injection Hs as <-; cbn; lia.
  - destruct (t_at s); try done. injection Hs as <-. unfold record_fate. cbn [t_log t_at]. rewrite Hsnoc. cbn. lia.
  - destruct (t_at s); try done; injection Hs as <-; cbn; lia.
Qed.
Lemma sendings_exec os s s' :
  s_gate src ≠ None → stream_exec os s = Some s' → (sendings s' ≤ sendings s + granted os)%nat.
Proof.
  intros Hg. revert s. induction os as [|o os IH]; intros s; cbn [stream_exec].
  { intros [= <-]. cbn. lia. }
  intros (s1 & Hs & He)%bind_Some. pose proof (sendings_step s o s1 Hg Hs). pose proof (IH s1 He).
  assert (granted (o :: os) = granted [o] + granted os)%nat; [|lia].
  destruct o as [| | |[] []| | |]; cbn; lia.
Qed.
End source.

(** ** The theorems *)

Lemma stream_fated {Loc Elector Locker} (src : Source (Loc:=Loc) (Elector:=Elector) (Locker:=Locker)) now os s :
  next_law (s_schedule src) → stream_exec src os (Stream src now) = Some s →
  e_instant <$> t_log s = grid src now <$> seq 0 (length (t_log s)) ∧
  StronglySorted Z.lt (e_instant <$> t_log s) ∧
  Forall (entry_ok src) (t_log s) ∧ ordered (t_log s).
Proof.
  intros Hlaw He. destruct (stream_ok_exec src now os _ s Hlaw (stream_ok_start src now) He) as (Hi & Hok & Ho & _).
  split; [done|]. split; [|done]. rewrite Hi. apply sorted_seq. intros i j _ [Hij Hj].
  apply (grid_climbs src); [done|done|]. intros k Hk.
  assert (Forall (λ t, t ≠ 0) (e_instant <$> t_log s)) as Hz.
  { apply Forall_fmap. eapply Forall_impl; [exact Hok|]. by intros e [? _]. }
  rewrite Hi in Hz. eapply Forall_forall in Hz; [exact Hz|]. apply list_elem_of_fmap.
  exists k. split; [done|]. apply elem_of_seq. lia.
Qed.

(** C22. Whatever the receiver, the coordinator and the clock do, the loop is done
    with the instants of its schedule in order, each once: it passes over an
    instant only when it is overdue, and it settles on one only while it is to
    come and after it was done with the one before, so that nothing missed is
    sent later; it sends no instant early, and what it sends is the factory's
    value for that instant. *)
Theorem stream_fates {Loc Elector Locker} (src : Source (Loc:=Loc) (Elector:=Elector) (Locker:=Locker)) now os s :
  next_law (s_schedule src) → stream_exec src os (Stream src now) = Some s →
  e_instant <$> t_log s = grid src now <$> seq 0 (length (t_log s)) ∧
  StronglySorted Z.lt (e_instant <$> t_log s) ∧
  Forall (entry_ok src) (t_log s) ∧ ordered (t_log s).
Proof. exact (stream_fated src now os s). Qed.

(** Failing safe: a coordinated source sends no more fires than its coordinator
    granted without an error. *)
Theorem stream_fails_safe {Loc Elector Locker} (src : Source (Loc:=Loc) (Elector:=Elector) (Locker:=Locker)) now os s :
  s_gate src ≠ None → stream_exec src os (Stream src now) = Some s →
  (length (List.filter sent (t_log s)) ≤ granted os)%nat.
Proof.
  intros Hg He. pose proof (sendings_exec src os (Stream src now) s Hg He) as Hs.
  unfold sendings in Hs. cbn in Hs. lia.
Qed.

(** However many instants a slow receiver let pass, the loop passes over them
    by itself and comes to wait for the next one, or for the end of the context
    when the schedule has no other. *)
Theorem stream_catches_up {Loc Elector Locker} (src : Source (Loc:=Loc) (Elector:=Elector) (Locker:=Locker)) s next :
  next_law (s_schedule src) → t_at s = Check next →
  ∃ n s', stream_exec src (replicate n Loop) s = Some s' ∧ t_clock s' = t_clock s ∧
    match t_at s' with
    | Idle => True
    | Wait next' armed _ => armed = t_clock s ∧ t_clock s < next'
    | _ => False
    end.
Proof. apply catches_up. Qed.

(** The construction refuses, in this order, a nil option, a spec that does not
    parse, a nil factory, a schedule with no activation left and a gate it cannot
    have; a source it gives has the gate of the one coordinator set, a locker
    only on a schedule that is not a constant delay, and the scope that was set,
    or else the spec. *)
Theorem new_source_exact {Loc Elector Locker} (std secs : string → error + Schedule Loc) utc spec factory now
    (fs : list (config (Loc:=Loc) (Elector:=Elector) (Locker:=Locker) → config)) :
  let cfg := foldl (λ c f, f c) (source_defaults utc) fs in
  let parsed := if c_seconds cfg then secs spec else std spec in
  let scope := if c_scopeSet cfg && negb (String.eqb (c_scope cfg) "") then c_scope cfg else spec in
  match NewSource std secs utc spec factory now (Some <$> fs) with
  | inr src =>
      ∃ sched f, parsed = inr sched ∧ factory = Some f ∧ Next sched (c_location cfg) now ≠ 0 ∧
        s_schedule src = sched ∧ s_factory src = f ∧ s_location src = c_location cfg ∧ s_scope src = scope ∧
        match s_gate src with
        | None => c_elector cfg = None ∧ c_locker cfg = None
        | Some (GateElector el sc) => c_elector cfg = Some el ∧ c_locker cfg = None ∧ sc = scope
        | Some (GateLocker l sc) =>
            c_elector cfg = None ∧ c_locker cfg = Some l ∧ sc = scope ∧ constant_delay sched = false
        end
  | inl err =>
      (∃ e, parsed = inl e ∧ Is err ErrInvalidSchedule = true) ∨
      ∃ sched, parsed = inr sched ∧
        (factory = None ∧ Is err ErrNilFactory = true ∨
         factory ≠ None ∧ Next sched (c_location cfg) now = 0 ∧ Is err ErrInvalidSchedule = true ∨
         factory ≠ None ∧ Next sched (c_location cfg) now ≠ 0 ∧
           (c_elector cfg ≠ None ∧ c_locker cfg ≠ None ∧ Is err ErrConflictingCoordinator = true ∨
            c_elector cfg = None ∧ c_locker cfg ≠ None ∧ constant_delay sched = true ∧
            Is err ErrLockerRequiresGridSchedule = true))
  end.
Proof.
  intros cfg parsed scope. unfold NewSource, apply_opts. rewrite apply_opts_from_all. fold cfg parsed.
  destruct parsed as [e|sched]; [left; exists e; split; [done|]; by cbn; rewrite ?bool_decide_eq_true_2|].
  destruct factory as [f|]; [|right; exists sched; split; [done|]; left; split; [done|]; by cbn; rewrite ?bool_decide_eq_true_2].
  unfold IsZero. destruct (Next sched (c_location cfg) now =? 0) eqn:Hz.
  { apply Z.eqb_eq in Hz. right. exists sched. split; [done|]. right. left.
    repeat split; try done; by rewrite ?bool_decide_eq_true_2. }
  apply Z.eqb_neq in Hz. fold scope. unfold wireGate.
  destruct (c_elector cfg) as [el|] eqn:Hel, (c_locker cfg) as [l|] eqn:Hl; cbn.
  - right. exists sched. split; [done|]. right. right. split; [done|]. split; [done|]. left.
    repeat split; try done; by rewrite ?bool_decide_eq_true_2.
  - by exists sched, f.
  - destruct (constant_delay sched) eqn:Hc; cbn; [|by exists sched, f].
    right. exists sched. split; [done|]. right. right. split; [done|]. split; [done|]. right.
    repeat split; try done; by rewrite ?bool_decide_eq_true_2.
  - by exists sched, f.
Qed.

(** ** Witnesses *)

(** A schedule that fires at every multiple of ten. *)
Definition tens : Schedule unit := mkSchedule (λ _ t, 10 * (t / 10 + 1)) false.
Lemma tens_law : next_law tens.
Proof. intros loc t. right. cbn. unfold MaxInt64. pose proof (Z.mod_pos_bound t 10). pose proof (Z.div_mod t 10). lia. Qed.
Definition demo_source : Source (Loc:=unit) (Elector:=unit) (Locker:=unit) :=
  mkSource tens (λ fire, Ret (ATime fire)) tt "demo" (Some (GateLocker tt "demo")).

(** The first fire is lost, the second sent late, the third and fourth missed,
    the fifth sent. *)
Definition demo_run : list occurrence :=
  [Loop; Loop; Elapse 7; Timer; Answer true (Some (Opaque "down"));
   Loop; Loop; Elapse 10; Timer; Answer true None; Build []; Elapse 23; Take;
   Loop; Loop; Loop; Loop; Elapse 7; Timer; Answer true None; Build []; Take].

Lemma stream_fates_witness :
  ∃ s, stream_exec demo_source demo_run (Stream demo_source 3) = Some s ∧
    e_instant <$> t_log s = [10; 20; 30; 40; 50] ∧ StronglySorted Z.lt (e_instant <$> t_log s) ∧
    sent <$> t_log s = [false; true; false; false; true].
Proof.
  destruct (stream_exec demo_source demo_run (Stream demo_source 3)) as [s|] eqn:He; [|vm_compute in He; done].
  exists s. split; [done|]. destruct (stream_fates demo_source 3 demo_run s tens_law He) as (_ & Hs & _).
  vm_compute in He. injection He as <-. split; [reflexivity|]. split; [exact Hs|reflexivity].
Defined.

Lemma stream_fails_safe_witness :
  ∃ s, stream_exec demo_source demo_run (Stream demo_source 3) = Some s ∧
    (length (List.filter sent (t_log s)) ≤ 2)%nat.
Proof.
  destruct (stream_exec demo_source demo_run (Stream demo_source 3)) as [s|] eqn:He; [|vm_compute in He; done].
  exists s. split; [done|]. by apply (stream_fails_safe demo_source 3 demo_run s).
Defined.

Lemma stream_catches_up_witness :
  ∃ n s', stream_exec demo_source (replicate n Loop) (mkStream 45 (Check 10) []) = Some s' ∧
    match t_at s' with Wait next _ _ => 45 < next | Idle => True | _ => False end.
Proof.
  destruct (stream_catches_up demo_source (mkStream 45 (Check 10) []) 10 tens_law eq_refl) as (n & s' & He & _ & Hp).
  exists n, s'. split; [exact He|]. destruct (t_at s'); try done. apply Hp.
Defined.
