(* ===== verification/CronFleet.v ===== *)
(** * Scheduled sources of many processes

    The sources of [CronSource] in any number of processes, each gated by the SQL
    coordinator of [CronSql] on one database: their loops and the statements of
    their coordinators' calls run interleaved, beside purges, schema calls and
    whatever else other processes call.  A call a source makes is numbered by the
    instance and the fire. *)

From Stdlib Require Import Sorting.Sorted.
From S2P Require Import Prelude Message SqlEngine SqlGroup SqlInbox CronSql CronPool CronSafety CronElector CronSource.
Local Open Scope Z_scope.

Section fleet.
Context {Loc : Type} `{MySQLColumn, TimeColumn} (e : engine).
(** The source of each instance. *)
Context (src : nat → Source (Loc:=Loc) (Elector:=SQLElector) (Locker:=SQLLocker)).

Abbreviation run := (stream (Elector:=SQLElector) (Locker:=SQLLocker)).

(** [IsLeader] and [Claim] of the coordinator, as calls on the database. *)
Definition to_call (c : gate_call (Elector:=SQLElector) (Locker:=SQLLocker)) : cron_call :=
  match c with
  | IsLeaderCall el scope => CLead (el_table el) scope (el_instanceID el) (el_leaseTTL el)
  | ClaimCall l scope fire => CClaim (lk_table l) scope fire
  end.
Definition call_number (k : nat) (fire : Z) : nat := Pos.to_nat (encode (k, fire)).

Record fleet : Type := mkFleet {
  f_streams : gmap nat run;
  f_pool : pool (Call:=cron_call) (Reply:=cron_reply);
  f_events : list (event (Call:=cron_call))
}.

Inductive fleet_event : Type :=
  | FStart (k : nat) (now : Z)         (** an instance starts its loop *)
  | FStep (k : nat) (o : occurrence)   (** a step of its loop *)
  | FAnswer (k : nat)                  (** its coordinator's call returns to it *)
  | FPool (ev : event (Call:=cron_call)).  (** a statement, or a call of others *)

Definition with_stream (fl : fleet) (k : nat) (s : run) : fleet :=
  mkFleet (<[k := s]> (f_streams fl)) (f_pool fl) (f_events fl).
Definition with_event (fl : fleet) (ev : event) : option fleet :=
  p ← pool_step (cron_body e) (f_pool fl) ev;
  Some (mkFleet (f_streams fl) p (f_events fl ++ [ev])).

Definition reply (r : error + cron_reply) : bool * option error :=
  match r with
  | inl err => (false, Some err)
  | inr (RWon b) => (b, None)
  | inr _ => (false, None)
  end.

Definition fleet_step (fl : fleet) (fe : fleet_event) : option fleet :=
  match fe with
  | FStart k now =>
      match f_streams fl !! k with
      | Some _ => None
      | None => Some (with_stream fl k (Stream (src k) now))
      end
  | FStep k (Answer _ _) => None
  | FStep k o =>
      s ← f_streams fl !! k;
      s' ← stream_step (src k) s o;
      match o, t_at s' with
      | Timer, Gating fire _ _ c =>
          with_event (with_stream fl k s') (EStart (call_number k fire) (to_call c))
      | _, _ => Some (with_stream fl k s')
      end
  | FAnswer k =>
      s ← f_streams fl !! k;
      match t_at s with
      | Gating fire _ _ c =>
          match p_calls (f_pool fl) !! call_number k fire with
          | Some (_, Done r) =>
              s' ← stream_step (src k) s (Answer (reply r).1 (reply r).2);
              Some (with_stream fl k s')
          | _ => None
          end
      | _ => None
      end
  | FPool ev => with_event fl ev
  end.
Fixpoint fleet_exec (fes : list fleet_event) (fl : fleet) : option fleet :=
  match fes with
  | [] => Some fl
  | fe :: fes => fleet_step fl fe ≫= fleet_exec fes
  end.
Definition fleet_start (db : cron_db) : fleet := mkFleet ∅ (mkPool db ∅) [].

(** ** What a fleet keeps *)

(** A fire that is being emitted, or was, was granted by its call. *)
Definition granted_by (p : pool) (k : nat) (fire : Z) (c : option gate_call) : Prop :=
  match c with None => True | Some c => won p (call_number k fire) (to_call c) end.
Definition backed (p : pool) (k : nat) (s : run) : Prop :=
  Forall (λ en, match e_fate en with Sent c _ => granted_by p k (e_instant en) c | _ => True end) (t_log s) ∧
  match t_at s with
  | Gating fire _ _ c => ∃ q, p_calls p !! call_number k fire = Some (to_call c, q)
  | Building fire _ _ c | Handing fire _ _ c _ => granted_by p k fire c
  | _ => True
  end.
Definition fleet_ok (db : cron_db) (fl : fleet) : Prop :=
  pool_exec (cron_body e) (f_events fl) (mkPool db ∅) = Some (f_pool fl) ∧
  map_Forall (λ k s, backed (f_pool fl) k s ∧ ∃ now os, stream_exec (src k) os (Stream (src k) now) = Some s)
    (f_streams fl).

Lemma pool_exec_snoc (evs : list (event (Call:=cron_call))) ev p q :
  pool_exec (cron_body e) evs p = Some q →
  pool_exec (cron_body e) (evs ++ [ev]) p = pool_step (cron_body e) q ev.
Proof.
  revert p. induction evs as [|ev' evs IH]; intros p; cbn.
  { intros [= ->]. by destruct (pool_step _ q ev). }
  destruct (pool_step _ p ev'); [apply IH|done].
Qed.
Lemma stream_exec_snoc k os o s s' s'' :
  stream_exec (src k) os s = Some s' → stream_step (src k) s' o = Some s'' →
  stream_exec (src k) (os ++ [o]) s = Some s''.
Proof.
  revert s. induction os as [|o' os IH]; intros s; cbn; [by intros [= ->] ->|].
  destruct (stream_step _ s o'); [apply IH|done].
Qed.

(** A call goes on, and an answer stays. *)
Lemma pool_step_calls (p q : pool (Call:=cron_call) (Reply:=cron_reply)) ev i c r :
  pool_step (cron_body e) p ev = Some q → p_calls p !! i = Some (c, r) →
  ∃ r', p_calls q !! i = Some (c, r') ∧ (∀ a, r = Done a → r' = r).
Proof.
  intros Hs Hi. destruct ev as [j d|j t]; cbn in Hs.
  - destruct (p_calls p !! j) eqn:E; [done|]. injection Hs as <-. exists r. cbn.
    rewrite lookup_insert_ne; [done|]. intros ->. congruence.
  - destruct (p_calls p !! j) as [[d [a|B f k]]|] eqn:E; [done| |done]. injection Hs as <-. cbn.
    destruct (decide (j = i)) as [->|Hn].
    + rewrite lookup_insert_eq. simplify_eq. by eexists.
    + rewrite lookup_insert_ne by done. by exists r.
Qed.
Lemma granted_step p q ev k fire c :
  pool_step (cron_body e) p ev = Some q → granted_by p k fire c → granted_by q k fire c.
Proof.
  intros Hs. destruct c as [c|]; [|done]. cbn. unfold won, answered. intros Hw.
  destruct (pool_step_calls p q ev _ _ _ Hs Hw) as (r' & Hr & Hd). by rewrite <- (Hd _ eq_refl).
Qed.
Lemma backed_step p q ev k s :
  pool_step (cron_body e) p ev = Some q → backed p k s → backed q k s.
Proof.
  intros Hs [Hl Hp]. split.
  - eapply Forall_impl; [exact Hl|]. intros en. cbn. destruct (e_fate en); [done..|]. by apply (granted_step p q ev).
  - destruct (t_at s); try done; try (by eapply granted_step).
    destruct Hp as [r Hr]. destruct (pool_step_calls p q ev _ _ _ Hs Hr) as (r' & Hr' & _). by exists r'.
Qed.

(** A step of the loop that starts no call and takes no answer. *)
Lemma backed_stream p k s o s' :
  stream_step (src k) s o = Some s' → backed p k s →
  match o with
  | Answer _ _ => True
  | Timer => match t_at s' with Gating _ _ _ _ => True | _ => backed p k s' end
  | _ => backed p k s'
  end.
Proof.
  intros Hs [Hl Hp]. unfold backed. destruct o as [d| | |won err|random| |err]; cbn [stream_step] in Hs; [..|done| | |].
  - destruct (0 <=? d); [|done]. by injection Hs as <-.
  - destruct (t_at s); try done; [|by injection Hs as <-].
    destruct (IsZero next); [by injection Hs as <-|].
    destruct (next <=? t_clock s); injection Hs as <-; [|done]. split; [|done].
    cbn. apply Forall_app. by rewrite Forall_singleton.
  - destruct (t_at s); try done. destruct (deadline <=? t_clock s); [|done].
    destruct (s_gate (src k)); by injection Hs as <-.
  - destruct (t_at s); try done. destruct (s_factory (src k) fire); by injection Hs as <-.
  - destruct (t_at s); try done. injection Hs as <-. split; [|done].
    cbn. apply Forall_app. by rewrite Forall_singleton.
  - destruct (t_at s); try done; by injection Hs as <-.
Qed.

Lemma backed_answer p k s fire next armed c d r s' :
  t_at s = Gating fire next armed c → p_calls p !! call_number k fire = Some (d, Done r) →
  stream_step (src k) s (Answer (reply r).1 (reply r).2) = Some s' → backed p k s → backed p k s'.
Proof.
  intros Hat Hr Hs [Hl Hp]. rewrite Hat in Hp. destruct Hp as [q Hq]. rewrite Hr in Hq. simplify_eq.
  cbn [stream_step] in Hs. rewrite Hat in Hs. destruct (win _) eqn:Hw; injection Hs as <-.
  - split; [done|]. cbn. unfold won, answered. rewrite Hr.
    destruct r as [err|[[]|n|]]; cbn in Hw; try done.
  - split; [|done]. cbn. apply Forall_app. by rewrite Forall_singleton.
Qed.

Lemma fleet_ok_stream db fl k s :
  fleet_ok db fl → backed (f_pool fl) k s → (∃ now os, stream_exec (src k) os (Stream (src k) now) = Some s) →
  fleet_ok db (with_stream fl k s).
Proof. intros [He Hm] Hb Hr. split; [done|]. by apply map_Forall_insert_2. Qed.
Lemma fleet_ok_event db fl ev fl' : fleet_ok db fl → with_event fl ev = Some fl' → fleet_ok db fl'.
Proof.
  intros [He Hm] (p & Hp & [= <-])%bind_Some. split; [cbn [f_events f_pool]; by rewrite (pool_exec_snoc _ _ _ _ He)|].
  intros k s Hk. destruct (Hm k s Hk) as [Hb Hr]. split; [by eapply backed_step|done].
Qed.

Lemma fleet_ok_step db fl fe fl' : fleet_ok db fl → fleet_step fl fe = Some fl' → fleet_ok db fl'.
Proof.
  intros Hok Hs. pose proof Hok as [He Hm]. destruct fe as [k now|k o|k|ev]; cbn [fleet_step] in Hs.
  - destruct (f_streams fl !! k) eqn:E; [done|]. injection Hs as <-.
    apply fleet_ok_stream; [done|by split; constructor|]. by exists now, [].
  - assert (∃ s s', f_streams fl !! k = Some s ∧ stream_step (src k) s o = Some s' ∧
      (∃ now os, stream_exec (src k) os (Stream (src k) now) = Some s') ∧
      match o, t_at s' with
      | Answer _ _, _ => False
      | Timer, Gating fire _ _ c => with_event (with_stream fl k s') (EStart (call_number k fire) (to_call c)) = Some fl'
      | _, _ => fl' = with_stream fl k s'
      end) as (s & s' & Hk & Hst & Hr & Hfl).
    { destruct o; try done; apply bind_Some in Hs as (s & Hk & Hs); apply bind_Some in Hs as (s' & Hst & Hs);
        exists s, s'; (split; [done|]); (split; [done|]);
        (split; [destruct (Hm k s Hk) as [_ (now & os & Hx)]; exists now; eexists; by eapply stream_exec_snoc|]);
        try by injection Hs as <-.
      destruct (t_at s'); by simplify_eq. }
    destruct (Hm k s Hk) as [Hb _]. pose proof (backed_stream (f_pool fl) k s o s' Hst Hb) as Hb'.
    destruct o; try done; try (subst fl'; by apply fleet_ok_stream).
    destruct (t_at s') eqn:Hat; try (subst fl'; by apply fleet_ok_stream).
    apply bind_Some in Hfl as (p & Hp & [= <-]).
    split; [cbn [f_events f_pool with_stream]; by rewrite (pool_exec_snoc _ _ _ _ He)|]. cbn [f_streams f_pool with_stream] in *.
    intros j s1 [[<- <-]|[Hn Hj]]%lookup_insert_Some.
    + split; [|done]. split.
      * destruct Hb as [Hl _]. cbn [stream_step] in Hst. destruct (t_at s); try done.
        destruct (deadline <=? t_clock s); [|done].
        assert (t_log s' = t_log s) as -> by (destruct (s_gate (src k)); by injection Hst as <-).
        eapply Forall_impl; [exact Hl|]. intros en. cbn. destruct (e_fate en); [done..|]. by eapply granted_step.
      * rewrite Hat. cbn [pool_step] in Hp. destruct (p_calls (f_pool fl) !! _); [done|].
        injection Hp as <-. cbn. rewrite lookup_insert_eq. by eexists.
    + destruct (Hm j s1 Hj) as [Hbj Hrj]. split; [by eapply backed_step|done].
  - apply bind_Some in Hs as (s & Hk & Hs). destruct (Hm k s Hk) as [Hb (now & os & Hx)].
    destruct (t_at s) eqn:Hat; try done.
    destruct (p_calls (f_pool fl) !! call_number k fire) as [[d [r|B f q]]|] eqn:Hc; try done.
    apply bind_Some in Hs as (s' & Hst & [= <-]).
    apply fleet_ok_stream; [done|by eapply backed_answer|]. exists now. eexists. by eapply stream_exec_snoc.
  - by eapply fleet_ok_event.
Qed.
Lemma fleet_ok_exec db fes fl fl' : fleet_ok db fl → fleet_exec fes fl = Some fl' → fleet_ok db fl'.
Proof.
  revert fl. induction fes as [|fe fes IH]; intros fl Hok; cbn; [by intros [= <-]|].
  intros (fl1 & Hs & He)%bind_Some. apply (IH fl1); [by eapply fleet_ok_step|done].
Qed.
Lemma fleet_ok_start db : fleet_ok db (fleet_start db).
Proof. split; [done|]. apply map_Forall_empty. Qed.
End fleet.

(** ** One instance sends a fire *)

Lemma climbing_unique (log : list (entry (Elector:=SQLElector) (Locker:=SQLLocker))) a b :
  StronglySorted Z.lt (e_instant <$> log) → a ∈ log → b ∈ log → e_instant a = e_instant b → a = b.
Proof.
  induction log as [|c log IH]; cbn; intros Hs Ha Hb E; [by apply elem_of_nil in Ha|].
  apply StronglySorted_inv in Hs as [Hs Hc].
  assert (∀ d, d ∈ log → e_instant c < e_instant d) as Hlt.
  { intros d Hd. eapply Forall_forall in Hc; [exact Hc|]. by apply list_elem_of_fmap_2. }
  apply elem_of_cons in Ha as [->|Ha], Hb as [->|Hb]; [done|..|by apply IH].
  - specialize (Hlt b Hb). lia.
  - specialize (Hlt a Ha). lia.
Qed.

Section single_sending.
Context {Loc : Type} `{MySQLColumn, TimeColumn}.

(** C19. The point of the locker: whatever the interleaving of any number of
    processes that run a grid schedule under one scope, however their clocks
    stand and their drivers fail, a fire is sent by one instance and once, as long
    as no purge reaches back to its first claim. *)
Theorem cron_single_fire (e : engine) (src : nat → Source (Loc:=Loc) (Elector:=SQLElector) (Locker:=SQLLocker))
    T scope fire K t0 db fes fl :
  validateIdent T = None →
  (∀ k, next_law (s_schedule (src k)) ∧ s_gate (src k) = Some (GateLocker (mkSQLLocker T (locker e)) scope)) →
  claim_key e scope fire = Some K →
  (∀ F r, db !! T = Some (RFired F) → F !! K = Some r → t0 ≤ f_claimed_at r) →
  fleet_exec e src fes (fleet_start db) = Some fl →
  exec_ok (cron_body e) (λ _, True) (retains e T K t0) (f_events fl) (mkPool db ∅) →
  ∀ k1 k2 s1 s2 e1 e2,
    f_streams fl !! k1 = Some s1 → e1 ∈ t_log s1 → sent e1 = true → e_instant e1 = fire →
    f_streams fl !! k2 = Some s2 → e2 ∈ t_log s2 → sent e2 = true → e_instant e2 = fire →
    k1 = k2 ∧ e1 = e2.
Proof.
  intros Hv Hsrc HK Hold He Hok.
  destruct (fleet_ok_exec e src db fes _ _ (fleet_ok_start e src db) He) as [Hpool Hstreams].
  destruct (single_winner e T K t0 db (f_events fl) (f_pool fl) Hv Hold Hok Hpool) as [Huniq _].
  assert (∀ k s en, f_streams fl !! k = Some s → en ∈ t_log s → sent en = true → e_instant en = fire →
    won (f_pool fl) (call_number k fire) (CClaim T scope fire) ∧ StronglySorted Z.lt (e_instant <$> t_log s)) as Hwon.
  { intros k s en Hk Hen Hsent Hf. destruct (Hstreams k s Hk) as [[Hl _] (now & os & Hx)].
    destruct (Hsrc k) as [Hlaw Hg]. destruct (stream_fated (src k) now os s Hlaw Hx) as (_ & Hs & Hent & _).
    split; [|done]. eapply Forall_forall in Hl; [|exact Hen]. eapply Forall_forall in Hent; [|exact Hen].
    destruct Hent as (_ & _ & Hent). unfold sent in Hsent. destruct (e_fate en) as [| |c m]; [done..|].
    destruct Hent as (_ & Hc & _). rewrite Hg in Hc. cbn in Hc. subst c. rewrite Hf in Hl. exact Hl. }
  intros k1 k2 s1 s2 e1 e2 Hk1 Hi1 Hs1 Hf1 Hk2 Hi2 Hs2 Hf2.
  destruct (Hwon k1 s1 e1 Hk1 Hi1 Hs1 Hf1) as [Hw1 Hsorted]. destruct (Hwon k2 s2 e2 Hk2 Hi2 Hs2 Hf2) as [Hw2 _].
  assert (call_number k1 fire = call_number k2 fire) as Hn by (eapply Huniq; [..|exact Hw1|exact Hw2]; done).
  assert (k1 = k2) as ->.
  { unfold call_number in Hn. apply (inj Pos.to_nat), (inj encode) in Hn. congruence. }
  split; [done|]. simplify_eq. eapply climbing_unique; [done..|congruence].
Qed.
End single_sending.

(** ** Witness *)

#[local] Existing Instance plain_column.
#[local] Existing Instance whole_micros.

Definition replica (k : nat) : Source (Loc:=unit) (Elector:=SQLElector) (Locker:=SQLLocker) :=
  mkSource tens (λ fire, Ret (ATime fire)) tt "job"
    (Some (GateLocker (mkSQLLocker "msgin_cron_fired" (locker SQLite)) "job")).
Definition first_fire : Z := 10.
Definition statement (k : nat) (now : Z) : fleet_event := FPool (EStmt (call_number k first_fire) (at_clock now)).

(** Two replicas reach the fire together, and the second's statement is first. *)
Definition two_replicas : list fleet_event :=
  [FStart 0 3; FStart 1 5; FStep 0 Loop; FStep 0 Loop; FStep 1 Loop; FStep 1 Loop;
   FStep 0 (Elapse first_fire); FStep 1 (Elapse first_fire); FStep 0 Timer; FStep 1 Timer;
   statement 1 100; statement 0 101; FAnswer 0; FAnswer 1; FStep 1 (Build []); FStep 1 Take].

Definition fates_of (k : nat) (fl : fleet) : option (list (Z * bool)) :=
  (λ s : stream, (λ en, (e_instant en, sent en)) <$> t_log s) <$> f_streams fl !! k.

(** What one observes of the run, computed without its states. *)
Lemma replicas_run {B} (obs : fleet → B) fl b :
  obs <$> fleet_exec SQLite replica two_replicas (fleet_start fired_db) = Some b →
  fleet_exec SQLite replica two_replicas (fleet_start fired_db) = Some fl → obs fl = b.
Proof. intros Hb Hf. rewrite Hf in Hb. by injection Hb. Qed.

Lemma replicas_ok fl :
  fleet_exec SQLite replica two_replicas (fleet_start fired_db) = Some fl →
  exec_ok (cron_body SQLite) (λ _, True)
    (retains SQLite "msgin_cron_fired" (fire_key SQLite "job" first_fire) 100) (f_events fl) (mkPool fired_db ∅).
Proof.
  intros Hf. erewrite (replicas_run f_events fl); [|vm_compute; reflexivity|done].
  vm_compute. repeat split; intros; congruence.
Qed.

Lemma cron_single_fire_witness :
  ∃ fl, fleet_exec SQLite replica two_replicas (fleet_start fired_db) = Some fl ∧
    fates_of 0 fl = Some [(10, false)] ∧ fates_of 1 fl = Some [(10, true)] ∧
    ∀ k s en, f_streams fl !! k = Some s → en ∈ t_log s → sent en = true → e_instant en = first_fire → k = 1%nat.
Proof.
  destruct (proj1 (fmap_Some (λ _, tt) (fleet_exec SQLite replica two_replicas (fleet_start fired_db)) tt))
    as (fl & He & _); [vm_compute; reflexivity|].
  exists fl. split; [done|].
  pose proof (cron_single_fire SQLite replica "msgin_cron_fired" "job" first_fire _ 100 fired_db two_replicas fl
    eq_refl (λ k, conj tens_law eq_refl) eq_refl
    ltac:(intros F r HF Hr; vm_compute in HF; injection HF as <-; vm_compute in Hr; done) He (replicas_ok fl He)) as Hone.
  assert (fates_of 1 fl = Some [(10, true)]) as H1 by (apply (replicas_run _ fl); [vm_compute; reflexivity|done]).
  split; [apply (replicas_run _ fl); [vm_compute; reflexivity|done]|]. split; [done|].
  intros k s en Hk Hin Hsent Hf. unfold fates_of in H1. destruct (f_streams fl !! 1%nat) as [s1|] eqn:Hs1; [|done].
  injection H1 as H1. destruct (t_log s1) as [|e1 [|]] eqn:Hlog; [done| |done]. injection H1 as Hf1 Hsent1.
  by destruct (Hone k 1%nat s s1 en e1 Hk Hin Hsent Hf Hs1 ltac:(rewrite Hlog; by left) Hsent1 Hf1).
Defined.
