(* ===== verification/SqliteDsn.v ===== *)
(** * Connection strings for SQLite

    [adapter/database/sql/sqlite/dsn.go]: the options and the string that [DSN]
    assembles from them.  The parameters of a connection string are what follows its
    first question mark, one between any two ampersands ([dsn_params]); the theorem
    reads them back. *)

From Stdlib Require Import Ascii.
From S2P Require Import Prelude Message.
From stdpp Require Import pretty.
Local Open Scope Z_scope.
Local Open Scope string_scope.

Definition defaultJournalMode : string := "WAL".
Definition defaultBusyTimeout : Z := (5 * second)%Z.

Record dsnConfig : Type := mkDsnConfig { journalMode : string; busyTimeout : Z; sharedMemory : bool }.

Definition WithJournalMode (mode : string) (c : dsnConfig) : dsnConfig := mkDsnConfig mode (busyTimeout c) (sharedMemory c).
Definition WithBusyTimeout (d : Z) (c : dsnConfig) : dsnConfig := mkDsnConfig (journalMode c) d (sharedMemory c).
Definition WithSharedMemory (c : dsnConfig) : dsnConfig := mkDsnConfig (journalMode c) (busyTimeout c) true.

(** [d.Milliseconds()], [strings.Contains(s, c)] and [strings.Join(ps, "&")]. *)
Definition Milliseconds (d : Z) : Z := Z.quot d 1000000%Z.
Fixpoint contains (c : ascii) (s : string) : bool :=
  match s with EmptyString => false | String a s => bool_decide (a = c) || contains c s end.
Fixpoint Join (ps : list string) : string :=
  match ps with [] => "" | [p] => p | p :: ps => p +:+ "&" +:+ Join ps end.

Definition dsn_config (opts : list (option (dsnConfig → dsnConfig))) : dsnConfig :=
  foldl (λ c o, match o with None => c | Some o => o c end)
    (mkDsnConfig defaultJournalMode defaultBusyTimeout false) opts.
Definition dsn_base (path : string) (cfg : dsnConfig) : string :=
  if sharedMemory cfg then "file::memory:?cache=shared" else "file:" +:+ path.
Definition dsn_pragmas (cfg : dsnConfig) : list string :=
  ((if negb (sharedMemory cfg) && bool_decide (journalMode cfg ≠ "")
   then ["_pragma=journal_mode(" +:+ journalMode cfg +:+ ")"] else []) ++
  (if (0 <? busyTimeout cfg)%Z then ["_pragma=busy_timeout(" +:+ pretty (Milliseconds (busyTimeout cfg)) +:+ ")"] else []))%list.

Definition DSN (path : string) (opts : list (option (dsnConfig → dsnConfig))) : string :=
  let cfg := dsn_config opts in
  let base := dsn_base path cfg in
  match dsn_pragmas cfg with
  | [] => base
  | pragmas =>
      let sep := if contains "?" base then "&" else "?" in
      base +:+ sep +:+ Join pragmas
  end.

(** ** Reading a connection string *)

(** What follows the first question mark, and the pieces between ampersands. *)
Fixpoint query (s : string) : option string :=
  match s with
  | EmptyString => None
  | String a s => if bool_decide (a = "?"%char) then Some s else query s
  end.
Fixpoint pieces (s : string) : list string :=
  match s with
  | EmptyString => [""]
  | String a s =>
      if bool_decide (a = "&"%char) then "" :: pieces s
      else match pieces s with [] => [String a ""] | p :: ps => String a p :: ps end
  end.
Definition dsn_params (s : string) : list string := match query s with None => [] | Some q => pieces q end.

Lemma query_app s t : query (s +:+ t) = match query s with Some q => Some (q +:+ t) | None => query t end.
Proof. induction s as [|a s IH]; [done|]. change (String a s +:+ t) with (String a (s +:+ t)). cbn. by destruct (bool_decide _). Qed.
Lemma query_contains s : contains "?" s = match query s with Some _ => true | None => false end.
Proof. induction s as [|a s IH]; [done|]. cbn. by destruct (bool_decide _). Qed.
Lemma pieces_cons s : ∃ p ps, pieces s = p :: ps.
Proof.
  induction s as [|a s (p & ps & IH)]; cbn; [eauto|]. case_bool_decide; [eauto|]. rewrite IH. eauto.
Qed.
Lemma pieces_app s t : pieces (s +:+ "&" +:+ t) = (pieces s ++ pieces t)%list.
Proof.
  induction s as [|a s IH]; [done|]. change (String a s +:+ "&" +:+ t) with (String a (s +:+ "&" +:+ t)).
  cbn [pieces]. rewrite IH. destruct (bool_decide _); [done|]. destruct (pieces_cons s) as (p & ps & ->). done.
Qed.
Lemma pieces_one s : contains "&" s = false → pieces s = [s].
Proof.
  induction s as [|a s IH]; [done|]. cbn. case_bool_decide; [done|]. cbn. intros ->%IH. done.
Qed.
Lemma pieces_Join ps : ps ≠ [] → Forall (λ p, contains "&" p = false) ps → pieces (Join ps) = ps.
Proof.
  intros Hne H. induction H as [|p ps Hp _ IH]; [done|]. destruct ps as [|p' ps]; [by apply pieces_one|].
  change (Join (p :: p' :: ps)) with (p +:+ "&" +:+ Join (p' :: ps)). rewrite pieces_app, IH by done. by rewrite pieces_one.
Qed.
Lemma contains_app c s t : contains c (s +:+ t) = contains c s || contains c t.
Proof. induction s as [|a s IH]; [done|]. change (String a s +:+ t) with (String a (s +:+ t)). cbn. rewrite IH. by destruct (bool_decide _). Qed.

(** A number is printed without ampersands. *)
Lemma pretty_N_plain n : contains "&" (pretty (n : N)) = false.
Proof.
  unfold pretty, pretty_N. case_decide; [done|].
  assert (∀ m s, contains "&" s = false → contains "&" (pretty_N_go m s) = false) as Hgo; [|by apply Hgo].
  intros m. induction (N.lt_wf_0 m) as [m _ IH]. intros s Hs.
  destruct (decide (m = 0)%N) as [->|Hm]; [by rewrite pretty_N_go_0|].
  rewrite pretty_N_go_step by lia. apply IH; [apply N.div_lt; lia|]. cbn. rewrite Hs, orb_false_r.
  apply bool_decide_eq_false_2. unfold pretty_N_char. by repeat case_match.
Qed.
Lemma pretty_plain (z : Z) : contains "&" (pretty z) = false.
Proof. destruct z; [done|apply pretty_N_plain|]. cbn. apply pretty_N_plain. Qed.

(** The string says what was asked for: its parameters are those the path carries
    already, and after them the pragmas of the last options given, nil ones apart:
    the journal mode of a file, unless it is empty, and a positive busy timeout in
    milliseconds. *)
Theorem dsn_params_exact path opts :
  let cfg := dsn_config opts in
  contains "&" (journalMode cfg) = false →
  dsn_params (DSN path opts) = (dsn_params (dsn_base path cfg) ++ dsn_pragmas cfg)%list.
Proof.
  intros cfg Hj. unfold DSN. fold cfg. destruct (dsn_pragmas cfg) as [|p ps] eqn:Ep; [by rewrite app_nil_r|].
  assert (Hall : Forall (λ p, contains "&" p = false) (p :: ps)).
  { rewrite <- Ep. unfold dsn_pragmas. apply Forall_app. split; case_match; try done; constructor; try done.
    - rewrite !contains_app, Hj. done.
    - rewrite !contains_app, pretty_plain. done. }
  unfold dsn_params. rewrite query_contains. rewrite !query_app.
  destruct (query (dsn_base path cfg)) as [q|].
  - rewrite pieces_app. by rewrite pieces_Join.
  - change ("?" +:+ ?x) with (String "?" x). cbn [query]. rewrite bool_decide_true by done.
    change ("" +:+ ?x) with x. by rewrite pieces_Join.
Qed.

(** A positive timeout below a millisecond is written as none at all. *)
Lemma submillisecond_timeout : DSN "q.db" [Some (WithBusyTimeout 500000%Z)] =
  "file:q.db?_pragma=journal_mode(WAL)&_pragma=busy_timeout(0)".
Proof. reflexivity. Qed.
Lemma dsn_params_exact_witness :
  dsn_params (DSN "q.db?mode=rw" [None; Some (WithJournalMode "DELETE")]) =
  ["mode=rw"; "_pragma=journal_mode(DELETE)"; "_pragma=busy_timeout(5000)"].
Proof. apply (dsn_params_exact "q.db?mode=rw" [None; Some (WithJournalMode "DELETE")]). reflexivity. Defined.
